(* ===== verification/_CoqProject ===== *)
-Q . S2P
Prelude.v
CxxString.v
Interfaces.v
Util.v
Parser.v
Index.v
Searcher.v
Programs.v
Pipeline.v
Examples.v
HttpParser.v
HttpReply.v
Asio.v
HttpClient.v
HttpConnection.v
HttpServer2.v
HttpServer3.v
HttpServer4.v
HttpCopies.v
Chat.v
Icmp.v
Pinger.v
Socks4.v
SocksClient.v
Framing.v
PriorityQueue.v
Timeouts.v
TcpClient.v
BlockingClient.v
Echo.v
Allocation.v
Services.v
Nonblocking.v
ChatClient.v
ChatSystem.v
Timers.v
Fork.v
Daemon.v
Daytime.v
TransmitFile.v
Multicast.v
HopClient.v
HopServer.v
Stocks.v
CommandLine.v
Ssl.v
ClientPrograms.v
