(* ===== verification/Prelude.v ===== *)
(** * Verification of the Boost documentation search engine

    The repository (src/doc_searcher) is a search engine for the Boost
    documentation in four programs. A preprocessor (parser/parser.cc) walks a tree
    of HTML pages and writes one line per page: title, address and text, separated
    by the character '\3'. An index (class Index in searcher/searcher.cc) reads that
    file into a forward index (documents by number) and an inverted index (word to
    weighted postings). A searcher (class Searcher) answers a query with the JSON of
    the documents that contain its words, heaviest first. An HTTP server
    (http_server/http_server.cc) serves queries; two small programs
    (searcher_test.cc, index_test.cc) exercise searcher and index on the console.
    The tree the preprocessor reads ships with the repository and carries, besides
    HTML, the C++ example programs of Boost.Asio (data/input/html/boost_asio/example,
    EX below): HTTP servers, a chat, ping, SOCKS 4 and others. Those with logic of
    their own are modelled too.

    ** How the code is modelled

    A [char] is an [ascii], a [std::string] the list of its bytes; [int] is Z with
    its range checked, [size_t], [int64_t] and the unsigned types are Z or nat with
    conversions and wrap-around written out where the code depends on them. A
    computation that can fail returns an [outcome]: a value, an exception, or
    undefined behaviour with its cause (null dereference, access out of bounds,
    signed overflow, [size_t] wrapping). Files are a finite map from names to
    contents, files written are values passed along. Programs built on
    asynchronous operations are step relations: the state records which operations
    are outstanding, a step is the completion of one with an error code the
    environment chooses, and the run of its handler. Fields that record history for
    the statements and are not part of the program say so.

    Code that is not in the repository is a parameter with its documented behaviour
    as laws: Boost string algorithms and Filesystem, cppjieba, jsoncpp, httplib,
    std::sort for any order of equal elements, the traversal order of hash tables
    (all in Interfaces.v, with reference instances), boost::lexical_cast
    (HttpReply.v, HttpServer4.v), Boost.Serialization archives (Framing.v, Stocks.v), the texts
    of error codes (Asio.v), io_service::notify_fork (Daemon.v) and the socket service of Asio (Services.v: a class whose
    laws say that handlers are stored and never looked at).

    ** The files

    - Prelude.v: bytes, outcomes, machine integers, loops, tactics, hints.
    - CxxString.v: std::string operations (find, substr, getline) and their lemmas.
    - Interfaces.v: the classes for libraries.
    - Util.v: common/util.hpp. Util::Read drops the line breaks of a file,
      Util::Split calls boost::split.
    - Parser.v: parser/parser.cc, one definition per function. [tagged] is the
      specification of the text outside tags, [is_page] of a page.
    - Index.v: class Index. [index_ok] says what an index over a list of documents
      is; Build_refines shows that Build produces it.
    - Searcher.v: class Searcher. [hits_of] is what a query finds.
    - Programs.v: the HTTP handler and start-up, searcher_test, index_test.
    - Pipeline.v: preprocessor and searcher put together.
    - Examples.v: a documentation tree of a few pages, and the theorems above
      applied to it.
    - HttpParser.v, HttpReply.v, HttpConnection.v: EX/http/server: the request
      parser (a state machine per character) against a grammar of requests, replies
      and the file handler, connections and the server.
    - Asio.v: error codes, console streams and reading from a socket in pieces, for
      the programs below.
    - HttpClient.v: EX/http/client and EX/iostreams/http_client.cpp.
    - HttpServer2.v, HttpServer3.v: the servers with a pool of io_services and with
      a pool of threads (with strands, handlers interleaved thread by thread and
      connections counted by the pointers to them).
    - HttpServer4.v: the server made of stackless coroutines: coroutine.hpp, the
      parser as blocks between yields, and the server with its fork.
    - HttpCopies.v: the sources the second, third and fourth server share with the first,
      in their own namespaces.
    - Chat.v, ChatClient.v, ChatSystem.v: EX/chat: messages, the room and its sessions; the
      client with two threads and the client on POSIX descriptors; the server and any number
      of clients joined by streams of bytes.
    - Icmp.v, Pinger.v: EX/icmp: both headers, the Internet checksum, the handlers of
      ping; and the program with its clock, timer and receives.
    - Socks4.v, SocksClient.v: EX/socks4: the messages, and the client program.
    - Framing.v, HopClient.v, HopServer.v, Stocks.v: fields in hexadecimal:
      EX/serialization/connection.hpp and EX/porthopper, client and server with its
      connections and timers; the serialization programs.
    - Timeouts.v, TcpClient.v, BlockingClient.v: EX/timeouts: the server, the
      asynchronous client, and the blocking clients with the io_service that runs
      their handlers when these are due.
    - Echo.v: EX/echo, the sessions and handlers of EX/ssl, and the echo programs of
      EX/local. Ssl.v: the rest of EX/ssl: contexts, certificates and main.
    - Allocation.v: EX/allocation: the allocator for handlers, its session and server.
    - Services.v: EX/services: the logger service and the logging socket service.
    - Nonblocking.v: EX/nonblocking/third_party_lib.cpp.
    - Fork.v, Daemon.v: EX/fork: process_per_connection.cpp, processes included; and
      daemon.cpp, with processes, sessions and descriptor tables.
    - Daytime.v: EX/buffers/reference_counted.cpp over a heap with reference counts, and
      the daytime programs of EX/iostreams.
    - TransmitFile.v: EX/windows/transmit_file.cpp.
    - Timers.v: EX/timers: the two clocks and the programs that wait by them.
    - Multicast.v: EX/multicast and EX/local/connect_pair.cpp.
    - PriorityQueue.v: EX/invocation/prioritised_handlers.cpp: the queue and the
      program.
    - CommandLine.v, ClientPrograms.v: the functions main of the servers and of the
      clients.

    ** What is shown

    The search engine: end to end, preprocessing a tree and starting the searcher on
    the result succeed, and every query shows, for each of its words, the pages of the
    tree that contain it, with title, address and excerpt, heaviest first, and nothing
    else (pipeline_correct). Each part has its own
    specification: the text and title extracted, the records written and their
    round trip through the index file, the index as a refinement of its abstract
    contents whatever the hash table's order, the result list and its order, the
    excerpt and its bounds, totality of the handlers, termination of the prompt loop.
    Errors are stated as the code has them: a title with a line break is cut, a last
    query without newline is dropped, index_test dereferences null without hits.

    The servers: the first parser accepts exactly the grammar and is independent of
    how the input is cut; the coroutine parser accepts exactly what the first one
    does with a URI and 7-bit header values, followed by the announced content. The
    file handler stays below the document root and announces the right length.
    In every reachable state the connection manager holds exactly the open
    connections, but for those accepted and dropped when the server was stopped;
    connections are spread over the pool in turn; the strands keep the handlers of one
    connection apart however threads interleave; and what is sent is the
    answer to what was received. In the coroutine server one failed accept ends
    accepting.

    The clients: the three HTTP clients print the headers and the content of the file
    the modelled server holds, whatever the pieces (get_file), and the asynchronous
    and the blocking one do the same on any input (clients_agree). The clients with
    deadlines keep their actors, give up in bounded time, and their blocking calls
    return or throw by their deadline. The chat client sends the lines in order, all of
    them once it has nothing left to do unless its connection broke, and shows what
    it receives; the chat server with all its clients carries one conversation, in which
    each client's lines stand once and in order and of which every client shows a part
    without gaps, and all that was typed and delivered once nothing is on the way
    (chat_conversation). The SSL client sends nothing to a peer one of whose certificates
    was refused (peer_verified). Echo client and server together give the line back; a session is
    deleted exactly when its last operation is over and never used afterwards, and the server with reference counts destroys it
    exactly where the other deletes it.

    The rest of Asio's programs: the logging socket service is transparent to every
    application and the log file holds what was done (debug_transparent,
    daytime_logged); the handler allocator stays well formed and its session needs
    no heap; the glue for a third party library waits for what it wants and closes the
    connection on an error; one process
    accepts and every other serves one connection; a daemon ends up detached from its
    terminal with the socket it had, and each failure on the way is reported as the code
    does (becomes_daemon, daemon_errors); a buffer with a reference count lives exactly
    as long as the write that sends it (buffers_live) and its client prints the time
    (daytime_shown); the file server on overlapped I/O transmits to one client at a time,
    with an OVERLAPPED object that lives until the system has completed it (one_transfer); the tick clock is exact across its wrap-around, and how long the
    timer programs wait follows for either clock; every server listens on the port of
    its command line (ports_kept); the multicast sender sends ten messages, the filter upper case, and
    the porthopper client shows frames with increasing numbers and is subscribed
    with its current port only.

    The protocols: chat messages, SOCKS 4 messages, serialized values and porthopper
    requests round-trip; each chat participant gets the last hundred messages and
    all later ones, once and in order, and no input makes a handler undefined; in
    the server with deadlines each open session keeps its four actors, gets every
    message broadcast since it joined, and is closed when it has been silent; ping
    computes the RFC 1071 checksum, reports a timeout exactly when no reply came, and
    keeps its pace; the SOCKS 4 client prints what follows a granted reply; the
    porthopper server sends each frame to those whose last request asked for it;
    execute_all runs handlers once each by falling priority when none adds another,
    so that the program built on it prints its lines by priority, and never ends when
    one adds a more urgent one.

    ** Bounds and fuel

    Functions that loop over input by fuel get enough of it: getlines the length of
    the text (each line takes a character), the prompt loop one round more than the
    input has characters (loop_terminates), read_all the length of the file,
    dec_digits one more than the number, hex_text sixteen digits for 64 bits;
    print_headers one round more than there are characters, the run of the
    asynchronous HTTP client six completions and one per piece (run_finishes), the
    loop of the blocking TCP client one round per event, cin_lines one line per
    character, drain one round per entry of the queue, print_response one round more
    than bytes arrive, first_free as many steps as descriptors are open (lowest_spec).
    Build_refines and pipeline_correct assume that the weight of a word in a page
    stays within [int] ([fields_fit]) and that there are fewer than 2^63 documents;
    pipeline_correct also that no title, address or text of a page contains a
    separator or a line break ([clean_doc]; multiline_title_truncated shows what happens
    otherwise).

    ** What is not modelled

    Console messages other than what the test programs, the clients and the command
    lines print; the web page; the demonstration of cppjieba (cppjieba_test/demo.cc),
    which only calls that library and prints; sockets and resolvers beyond the errors
    they return, and OpenSSL beyond what it makes of a file and its verdict on a
    certificate; the page texts themselves. Declarations that only name members of
    classes, type definitions and include guards have no counterpart of their own. *)

From Stdlib Require Export Ascii.
From stdpp Require Export base list gmap strings sorting.
From Stdlib Require Export ZArith Lia.

(** ** Bytes and strings

    A C++ [char] is an [ascii]; a [std::string] is the list of its bytes.
    [lit] turns a literal of the source into that list. *)
Abbreviation bytes := (list ascii).

Definition lit (s : string) : bytes := String.list_ascii_of_string s.

(** A [char] whose value is written as a number in the source ('\n', '\3', ...). *)
Definition chr (n : nat) : ascii := Ascii.ascii_of_nat n.

(** The value of a plain [char] promoted to [int]: [char] is signed on the
    platforms the Makefiles target (g++ on x86-64). *)
Definition char_val (c : ascii) : Z :=
  let n := Z.of_nat (Ascii.nat_of_ascii c) in
  if (n <? 128)%Z then n else (n - 256)%Z.

(** ** Outcomes of C++ code

    A computation returns a value, leaves by an exception, or runs into
    undefined behaviour; the cases say which. *)
Inductive exn :=
  | out_of_range
  | bad_lexical_cast
  | system_error
  | runtime_error
  | length_error.

Inductive ub :=
  | NullDeref       (* a null or dangling pointer is dereferenced *)
  | OutOfBounds     (* an element outside a string, array or vector is accessed *)
  | IntOverflow     (* a signed integer operation leaves its range *)
  | SizeWrap.       (* a size_t subtraction wraps below zero *)

Inductive outcome (A : Type) :=
  | Ret (a : A)
  | Throw (e : exn)
  | Undef (u : ub).
Arguments Ret {A} _.
Arguments Throw {A} _.
Arguments Undef {A} _.

#[export] Instance outcome_ret : MRet outcome := @Ret.
#[export] Instance outcome_bind : MBind outcome := λ A B f m,
  match m with
  | Ret a => f a
  | Throw e => Throw e
  | Undef u => Undef u
  end.
#[export] Instance outcome_fmap : FMap outcome := λ A B f m,
  match m with
  | Ret a => Ret (f a)
  | Throw e => Throw e
  | Undef u => Undef u
  end.

Definition defined {A} (m : outcome A) : Prop := ∃ a, m = Ret a.

Lemma bind_ret {A B} (a : A) (f : A → outcome B) : (Ret a ≫= f) = f a.
Proof. done. Qed.

Lemma bind_Ret_inv {A B} (m : outcome A) (f : A → outcome B) b :
  (m ≫= f) = Ret b → ∃ a, m = Ret a ∧ f a = Ret b.
Proof. destruct m; simpl; naive_solver. Qed.

Lemma bind_assoc {A B C} (m : outcome A) (f : A → outcome B) (g : B → outcome C) :
  ((m ≫= f) ≫= g) = (m ≫= λ a, f a ≫= g).
Proof. by destruct m. Qed.

(** [for (x : l) s = body(s, x);] *)
Fixpoint foldM {A S} (body : S → A → outcome S) (l : list A) (s : S) : outcome S :=
  match l with
  | [] => Ret s
  | x :: l => s' ← body s x; foldM body l s'
  end.

Lemma foldM_app {A S} (body : S → A → outcome S) l1 l2 s :
  foldM body (l1 ++ l2) s = (foldM body l1 s ≫= foldM body l2).
Proof.
  revert s. induction l1 as [|x l1 IH]; intros s; simpl; [done|].
  rewrite bind_assoc. destruct (body s x); simpl; auto.
Qed.

Lemma foldM_inv {A S} (P : S → Prop) (body : S → A → outcome S) l s :
  P s → (∀ s x, x ∈ l → P s → ∃ s', body s x = Ret s' ∧ P s') →
  ∃ s', foldM body l s = Ret s' ∧ P s'.
Proof.
  revert s. induction l as [|x l IH]; intros s HP Hstep; simpl; [eauto|].
  destruct (Hstep s x) as (s' & -> & HP'); [left|done|]. simpl.
  apply IH; [done|]. intros s2 y Hy. apply Hstep. by right.
Qed.

Lemma length_omap_le {A B} (f : A → option B) (l : list A) : length (omap f l) ≤ length l.
Proof. induction l as [|x l IH]; cbn; [done|]. destruct (f x); cbn; lia. Qed.

(** ** Machine integers *)
Definition INT_MAX : Z := 2147483647.
Definition INT_MIN : Z := -2147483648.

Definition int_ok (z : Z) : bool := (INT_MIN <=? z)%Z && (z <=? INT_MAX)%Z.

(** The result of a signed [int] operation: undefined outside the range. *)
Definition int_res (z : Z) : outcome Z := if int_ok z then Ret z else Undef IntOverflow.

Lemma int_res_ok z : (INT_MIN <= z <= INT_MAX)%Z → int_res z = Ret z.
Proof.
  intros H. unfold int_res, int_ok.
  rewrite (proj2 (Z.leb_le _ _)) by lia. by rewrite (proj2 (Z.leb_le _ _)) by lia.
Qed.

Lemma int_res_inv z z' : int_res z = Ret z' → z' = z ∧ (INT_MIN <= z <= INT_MAX)%Z.
Proof.
  unfold int_res, int_ok. destruct (_ && _) eqn:E; [|done].
  intros [= <-]. apply andb_true_iff in E as [E1%Z.leb_le E2%Z.leb_le]. done.
Qed.

(** Conversions between [size_t]/[uint64_t] and [int64_t]. *)
Definition to_int64 (z : Z) : Z :=
  let m := (z mod 2 ^ 64)%Z in if (m <? 2 ^ 63)%Z then m else (m - 2 ^ 64)%Z.
Definition to_uint64 (z : Z) : Z := (z mod 2 ^ 64)%Z.

Lemma to_int64_small z : (0 <= z < 2 ^ 63)%Z → to_int64 z = z.
Proof.
  intros H. unfold to_int64. rewrite Z.mod_small by lia.
  by rewrite (proj2 (Z.ltb_lt _ _)) by lia.
Qed.

Lemma to_uint64_small z : (0 <= z < 2 ^ 64)%Z → to_uint64 z = z.
Proof. intros. apply Z.mod_small. lia. Qed.

(** [a - b] on [size_t], where the code has no meaning once it wraps. *)
Definition size_sub (a b : nat) : outcome nat :=
  if (b <=? a)%nat then Ret (a - b)%nat else Undef SizeWrap.

Lemma size_sub_ok a b : (b ≤ a)%nat → size_sub a b = Ret (a - b)%nat.
Proof. intros H. unfold size_sub. by rewrite (proj2 (Nat.leb_le _ _)) by lia. Qed.

(** ** Automation *)
Create HintDb cxx.
#[export] Hint Resolve to_int64_small to_uint64_small : cxx.

(** Take apart a bind that returned. *)
Ltac inv_ret :=
  repeat match goal with
    | H : (_ ≫= _) = Ret _ |- _ =>
        let a := fresh "a" in let Ha := fresh "Ha" in
        apply bind_Ret_inv in H as (a & Ha & H)
    | H : Ret _ = Ret _ |- _ => injection H as H; try subst
    end.

(** Decide a boolean comparison that the context settles. *)
Ltac bool_true := (* rewrites [a <=? b] and [a <? b] that hold *)
  repeat match goal with
    | |- context [(?a <=? ?b)%nat] => rewrite (proj2 (Nat.leb_le a b)) by lia
    | |- context [(?a <? ?b)%nat] => rewrite (proj2 (Nat.ltb_lt a b)) by lia
    | |- context [(?a <=? ?b)%Z] => rewrite (proj2 (Z.leb_le a b)) by lia
    | |- context [(?a <? ?b)%Z] => rewrite (proj2 (Z.ltb_lt a b)) by lia
    end.
Ltac bool_false := (* rewrites those that do not hold *)
  repeat match goal with
    | |- context [(?a <=? ?b)%nat] => rewrite (proj2 (Nat.leb_gt a b)) by lia
    | |- context [(?a <? ?b)%nat] => rewrite (proj2 (Nat.ltb_ge a b)) by lia
    | |- context [(?a <=? ?b)%Z] => rewrite (proj2 (Z.leb_gt a b)) by lia
    | |- context [(?a <? ?b)%Z] => rewrite (proj2 (Z.ltb_ge a b)) by lia
    end.
