(* ===== verification/CxxString.v ===== *)
(** * The parts of the C++ standard library the program uses

    [std::string] searching, slicing and element assignment, line-wise input
    with [std::getline], and the store of files a program can open. *)

From S2P Require Import Prelude.

(** ** [std::string::find] *)

Fixpoint starts_with (p s : bytes) : bool :=
  match p, s with
  | [], _ => true
  | _ :: _, [] => false
  | a :: p, b :: s => bool_decide (a = b) && starts_with p s
  end.

Fixpoint find0 (p s : bytes) : option nat :=
  if starts_with p s then Some 0
  else match s with
       | [] => None
       | _ :: s => S <$> find0 p s
       end.

(** [s.find(p, pos)]; [None] is [string::npos]. *)
Definition find (s p : bytes) (pos : nat) : option nat :=
  if pos <=? length s then (λ i, pos + i) <$> find0 p (drop pos s) else None.

(** [p] occurs in [s] at offset [i]. *)
Definition occurs_at (p s : bytes) (i : nat) : Prop :=
  i ≤ length s ∧ p `prefix_of` drop i s.

Lemma starts_with_spec p s : starts_with p s = true ↔ p `prefix_of` s.
Proof.
  revert s. induction p as [|a p IH]; intros [|b s]; simpl.
  - split; [intros; apply prefix_nil|done].
  - split; [intros; apply prefix_nil|done].
  - split; [done|intros H; by apply prefix_nil_not in H].
  - rewrite andb_true_iff, bool_decide_eq_true, IH. split.
    + intros [-> H]. by apply prefix_cons.
    + intros H. split; [by apply prefix_cons_inv_1 in H|by apply prefix_cons_inv_2 in H].
Qed.

Lemma find0_Some p s i :
  find0 p s = Some i ↔ occurs_at p s i ∧ ∀ j, j < i → ¬ occurs_at p s j.
Proof.
  unfold occurs_at. revert i. induction s as [|c s IH]; intros i; simpl.
  - destruct (starts_with p []) eqn:E.
    + apply starts_with_spec in E. split.
      * intros [= <-]. split; [split; [lia|by rewrite drop_nil]|lia].
      * intros [[? _] _]. f_equal; lia.
    + split; [done|]. intros [[Hi Hp] _]. rewrite drop_nil in Hp.
      apply starts_with_spec in Hp. congruence.
  - destruct (starts_with p (c :: s)) eqn:E.
    + apply starts_with_spec in E. split.
      * intros [= <-]. split; [split; [lia|done]|lia].
      * intros [_ Hmin]. destruct i as [|i]; [done|]. exfalso.
        apply (Hmin 0); [lia|]. split; [lia|done].
    + assert (¬ p `prefix_of` c :: s) as Hno.
      { intros H%starts_with_spec. congruence. }
      rewrite fmap_Some. setoid_rewrite IH. split.
      * intros (k & [[Hk Hp] Hmin] & ->). split; [split; [lia|done]|].
        intros [|j] Hj [Hle Hpj]; [done|].
        apply (Hmin j); [lia|]. split; [lia|done].
      * intros [[Hi Hp] Hmin]. destruct i as [|k]; [done|].
        exists k. split; [|done]. split; [split; [lia|done]|].
        intros j Hj [Hle Hpj]. apply (Hmin (S j)); [lia|]. split; [lia|done].
Qed.

Lemma find0_None p s : find0 p s = None ↔ ∀ i, ¬ occurs_at p s i.
Proof.
  unfold occurs_at. induction s as [|c s IH]; simpl.
  - destruct (starts_with p []) eqn:E.
    + apply starts_with_spec in E. split; [done|]. intros H. exfalso.
      apply (H 0). split; [lia|done].
    + split; [|done]. intros _ i [Hi Hp]. rewrite drop_nil in Hp.
      apply starts_with_spec in Hp. congruence.
  - destruct (starts_with p (c :: s)) eqn:E.
    + apply starts_with_spec in E. split; [done|]. intros H. exfalso.
      apply (H 0). split; [lia|done].
    + rewrite fmap_None, IH. split.
      * intros H [|i] [Hi Hp].
        { apply starts_with_spec in Hp. simpl in *. congruence. }
        apply (H i). split; [lia|done].
      * intros H i [Hi Hp]. apply (H (S i)). split; [lia|done].
Qed.

Lemma occurs_at_drop p s pos i :
  pos ≤ length s → occurs_at p (drop pos s) i ↔ occurs_at p s (pos + i).
Proof.
  intros Hpos. unfold occurs_at. rewrite length_drop, drop_drop.
  split; intros [? ?]; (split; [lia|done]).
Qed.

(** [find] returns the first occurrence at or after [pos] ... *)
Lemma find_Some s p pos i :
  find s p pos = Some i ↔
  pos ≤ i ∧ occurs_at p s i ∧ ∀ j, pos ≤ j < i → ¬ occurs_at p s j.
Proof.
  unfold find. destruct (Nat.leb_spec pos (length s)) as [Hpos|Hpos].
  - rewrite fmap_Some. setoid_rewrite find0_Some. split.
    + intros (k & [Hk Hmin] & ->). rewrite occurs_at_drop in Hk by done.
      split; [lia|]. split; [done|]. intros j Hj Ho.
      apply (Hmin (j - pos)); [lia|]. rewrite occurs_at_drop by done.
      by replace (pos + (j - pos)) with j by lia.
    + intros (Hi & Ho & Hmin). exists (i - pos). split; [|lia]. split.
      * rewrite occurs_at_drop by done. by replace (pos + (i - pos)) with i by lia.
      * intros j Hj. rewrite occurs_at_drop by done. apply Hmin. lia.
  - split; [done|]. intros (Hi & [? _] & _). lia.
Qed.

(** ... and [npos] exactly when there is none. *)
Lemma find_None s p pos :
  find s p pos = None ↔ ∀ i, pos ≤ i → ¬ occurs_at p s i.
Proof.
  unfold find. destruct (Nat.leb_spec pos (length s)) as [Hpos|Hpos].
  - rewrite fmap_None, find0_None. split.
    + intros H i Hi Ho. apply (H (i - pos)). rewrite occurs_at_drop by done.
      by replace (pos + (i - pos)) with i by lia.
    + intros H i. rewrite occurs_at_drop by done. apply H. lia.
  - split; [|done]. intros _ i Hi [? _]. lia.
Qed.

Lemma find_bound s p pos i : find s p pos = Some i → i + length p ≤ length s.
Proof.
  intros (_ & [Hi Hp] & _)%find_Some. apply prefix_length in Hp.
  rewrite length_drop in Hp. lia.
Qed.

Lemma occurs_at_split p s i :
  occurs_at p s i ↔ ∃ a b, s = a ++ p ++ b ∧ length a = i.
Proof.
  split.
  - intros [Hi [b Hb]]. exists (take i s), b. rewrite <-Hb, take_drop.
    split; [done|]. rewrite length_take. lia.
  - intros (a & b & -> & <-). split; [rewrite length_app; lia|].
    rewrite drop_app_length. by exists b.
Qed.

Lemma occurs_at_lookup p s i k c :
  occurs_at p s i → p !! k = Some c → s !! (i + k) = Some c.
Proof.
  intros [_ [b Hb]] Hk. rewrite <-lookup_drop, Hb. by apply lookup_app_l_Some.
Qed.

(** ** [std::string::substr] and element assignment *)

Definition substr (s : bytes) (pos count : nat) : outcome bytes :=
  if pos <=? length s then Ret (take count (drop pos s)) else Throw out_of_range.

(** [s.substr(pos)]: the count defaults to [npos]. *)
Definition substr_from (s : bytes) (pos : nat) : outcome bytes :=
  if pos <=? length s then Ret (drop pos s) else Throw out_of_range.

(** [s[i] = c], undefined when [i] is not the index of a character of [s]. *)
Definition str_set (s : bytes) (i : nat) (c : ascii) : outcome bytes :=
  if i <? length s then Ret (<[i:=c]> s) else Undef OutOfBounds.

Lemma substr_ok s pos count : pos ≤ length s → substr s pos count = Ret (take count (drop pos s)).
Proof. intros H. unfold substr. by bool_true. Qed.

Lemma substr_from_ok s pos : pos ≤ length s → substr_from s pos = Ret (drop pos s).
Proof. intros H. unfold substr_from. by bool_true. Qed.

Lemma str_set_ok s i c : i < length s → str_set s i c = Ret (<[i:=c]> s).
Proof. intros H. unfold str_set. by bool_true. Qed.

(** ** [std::getline] *)

Definition newline : ascii := chr 10.

(** The characters up to the first newline, and what follows it. *)
Fixpoint break_line (s : bytes) : bytes * bytes :=
  match s with
  | [] => ([], [])
  | c :: s =>
      if bool_decide (c = newline) then ([], s)
      else let '(l, r) := break_line s in (c :: l, r)
  end.

(** [getline(file, line)] on the unread characters of the stream: [None] is
    the failing extraction at end of file. *)
Definition getline (s : bytes) : option (bytes * bytes) :=
  match s with
  | [] => None
  | _ => Some (break_line s)
  end.

(** The values [line] takes in [while (getline(file, line))]. Every successful
    extraction consumes a character, so [length s] iterations are enough
    ([getlines_unfold]). *)
Fixpoint getlines_fuel (n : nat) (s : bytes) : list bytes :=
  match n with
  | 0 => []
  | S n => match getline s with
           | None => []
           | Some (line, rest) => line :: getlines_fuel n rest
           end
  end.
Definition getlines (s : bytes) : list bytes := getlines_fuel (length s) s.

Lemma break_line_length s l r : break_line s = (l, r) → length r ≤ length s - 1.
Proof.
  revert l r. induction s as [|c s IH]; intros l r; simpl; [intros [= <- <-]; simpl; lia|].
  case_bool_decide; [intros [= <- <-]; lia|].
  destruct (break_line s) as [l' r'] eqn:E. intros [= <- <-].
  specialize (IH _ _ eq_refl). destruct s; [|simpl in *; lia].
  simpl in *. injection E as <- <-. simpl. lia.
Qed.

Lemma getlines_fuel_enough n s : length s ≤ n → getlines_fuel n s = getlines s.
Proof.
  unfold getlines. revert s. induction n as [n IH] using lt_wf_ind. intros s Hn.
  destruct s as [|c s]; [by destruct n|].
  destruct n as [|n]; [simpl in Hn; lia|]. simpl in Hn.
  change (length (c :: s)) with (S (length s)).
  cbn [getlines_fuel getline].
  destruct (break_line (c :: s)) as [l r] eqn:E.
  apply break_line_length in E. simpl in E. f_equal.
  rewrite (IH n), (IH (length s)) by lia. done.
Qed.

(** The loop equation: enough fuel was given. *)
Lemma getlines_unfold s :
  getlines s = match getline s with
               | None => []
               | Some (line, rest) => line :: getlines rest
               end.
Proof.
  destruct s as [|c s]; [done|]. unfold getlines at 1.
  change (length (c :: s)) with (S (length s)). cbn [getlines_fuel getline].
  destruct (break_line (c :: s)) as [l r] eqn:E.
  apply break_line_length in E. simpl in E. f_equal.
  apply getlines_fuel_enough. lia.
Qed.

Lemma break_line_app l s : newline ∉ l → break_line (l ++ newline :: s) = (l, s).
Proof.
  induction l as [|c l IH]; intros Hl; cbn [app break_line].
  - by rewrite bool_decide_true.
  - rewrite bool_decide_false by set_solver. rewrite IH by set_solver. done.
Qed.

(** A file written line by line is read back line by line. *)
Definition unlines (ls : list bytes) : bytes := mjoin ((λ l, l ++ [newline]) <$> ls).

Lemma unlines_cons l ls : unlines (l :: ls) = l ++ newline :: unlines ls.
Proof. unfold unlines. cbn. by rewrite <-app_assoc. Qed.

Lemma getline_app l s : newline ∉ l → getline (l ++ newline :: s) = Some (l, s).
Proof.
  intros Hl. rewrite <-break_line_app by done. by destruct l.
Qed.

Lemma getlines_unlines ls : Forall (λ l, newline ∉ l) ls → getlines (unlines ls) = ls.
Proof.
  induction 1 as [|l ls Hl _ IH]; [done|].
  by rewrite unlines_cons, getlines_unfold, getline_app, IH.
Qed.

Lemma break_line_no_newline s l r : break_line s = (l, r) → newline ∉ l.
Proof.
  revert l r. induction s as [|c s IH]; intros l r; simpl.
  - intros [= <- <-]. set_solver.
  - case_bool_decide; [intros [= <- <-]; set_solver|].
    destruct (break_line s) as [l' r'] eqn:E. intros [= <- <-].
    specialize (IH _ _ eq_refl). set_solver.
Qed.

Lemma break_line_join s l r : newline ∈ s → break_line s = (l, r) → s = l ++ newline :: r.
Proof.
  revert l. induction s as [|c s IH]; intros l Hin; cbn; [by apply not_elem_of_nil in Hin|].
  case_bool_decide as Hc; [intros [= <- <-]; by subst|].
  destruct (break_line s) as [l' r']. intros [= <- <-]. cbn. f_equal. apply IH; [|done].
  apply elem_of_cons in Hin as [Hx|?]; [congruence|done].
Qed.

Lemma getlines_no_newline s : Forall (λ l, newline ∉ l) (getlines s).
Proof.
  induction s as [s IH] using (induction_ltof1 _ (@length ascii)). unfold ltof in IH.
  rewrite getlines_unfold. destruct s as [|c s]; simpl; [constructor|].
  case_bool_decide as Hc.
  - constructor; [set_solver|]. apply IH. simpl. lia.
  - destruct (break_line s) as [l r] eqn:E. pose proof E as E'.
    apply break_line_no_newline in E. apply break_line_length in E'.
    constructor; [set_solver|]. apply IH. simpl. lia.
Qed.

(** Reading keeps the text up to a missing newline at the end. *)
Lemma unlines_getlines s : unlines (getlines s) = s ∨ unlines (getlines s) = s ++ [newline].
Proof.
  induction s as [s IH] using (induction_ltof1 _ (@length ascii)). unfold ltof in IH.
  rewrite getlines_unfold. destruct s as [|c s]; [by left|]. cbn [getline].
  assert (∀ l r, break_line (c :: s) = (l, r) →
    c :: s = l ++ newline :: r ∨ (c :: s = l ∧ r = [])) as Hsplit.
  { clear IH. generalize (c :: s). clear c s. intros s.
    induction s as [|c s IH]; intros l r; simpl; [intros [= <- <-]; by right|].
    case_bool_decide as Hc; [intros [= <- <-]; left; by rewrite Hc|].
    destruct (break_line s) as [l' r'] eqn:E. intros [= <- <-].
    destruct (IH _ _ eq_refl) as [->|[-> ->]]; [by left|by right]. }
  destruct (break_line (c :: s)) as [l r] eqn:E. specialize (Hsplit _ _ eq_refl).
  apply break_line_length in E. simpl in E.
  rewrite unlines_cons. destruct Hsplit as [Hs|[Hs ->]]; rewrite Hs.
  - destruct (IH r) as [Hr|Hr]; [simpl; lia| |]; rewrite Hr;
      [by left|right; by rewrite <-app_assoc].
  - by right.
Qed.

(** ** Files

    The files a program can open for reading, by path, with their contents. *)
Abbreviation file_store := (gmap bytes bytes).
