(* ===== verification/Interfaces.v ===== *)
(** * Libraries the program calls

    Boost, cppjieba, jsoncpp and cpp-httplib are not part of the repository:
    each is a class of operations the model takes as an argument, with a class
    of laws that states the documented behaviour a theorem relies on. The two
    places where the C++ standard leaves an order unspecified ([std::sort] on
    equivalent elements, iteration over an [unordered_map]) are treated the same
    way. Reference instances at the end of the file show that the laws can hold;
    they are what the witnesses compute with. *)

From S2P Require Import Prelude CxxString.

(** ** Boost string algorithms *)
Class BoostString := {
  (* boost::split(out, input, is_any_of(delims), token_compress_off) *)
  boost_split : bytes → bytes → list bytes;
  (* boost::to_lower(s) *)
  boost_to_lower : bytes → bytes;
}.

(** [separated ds ts s]: [s] is the tokens [ts] with one separator out of [ds]
    between each two of them. *)
Inductive separated (ds : bytes) : list bytes → bytes → Prop :=
  | sep_last t : separated ds [t] t
  | sep_more t c ts s : c ∈ ds → separated ds ts s → separated ds (t :: ts) (t ++ c :: s).

(** [t] contains no separator. *)
Definition clean (ds t : bytes) : Prop := ∀ c, c ∈ ds → c ∉ t.

(** [split] cuts at every separator (adjacent ones are not merged) and no token
    contains one. *)
Class BoostStringLaws `{BoostString} : Prop := {
  boost_split_separated s ds : separated ds (boost_split s ds) s;
  boost_split_clean s ds : Forall (clean ds) (boost_split s ds);
}.

(** ** Boost.Filesystem: what a walk over a directory tree reports *)
Record dir_entry := { entry_path : bytes; entry_is_regular : bool }.

Class BoostFilesystem := {
  fs_exists : bytes → bool;
  recursive_directory : bytes → list dir_entry;
  path_extension : bytes → bytes;
}.

(** The entries lie under the root the walk starts from, and the extension of a
    path is the end of it. *)
Class BoostFilesystemLaws `{BoostFilesystem} : Prop := {
  recursive_directory_under root e :
    e ∈ recursive_directory root → root `prefix_of` entry_path e;
  path_extension_suffix p : path_extension p `suffix_of` p;
}.

(** ** cppjieba *)
Class CppJieba := {
  Jieba : Type;
  make_Jieba : bytes → bytes → bytes → bytes → bytes → Jieba;
  (* jieba.CutForSearch(sentence, words): the new contents of words *)
  CutForSearch : Jieba → bytes → list bytes → list bytes;
}.

(** ** jsoncpp *)
Class JsonCpp := {
  Value : Type;
  Value_null : Value;                            (* Json::Value() *)
  Value_set : Value → bytes → bytes → Value;     (* v[key] = string *)
  Value_append : Value → Value → Value;          (* v.append(w) *)
  FastWriter_write : Value → bytes;
}.

(** ** cpp-httplib *)
Class HttpLib := {
  Request : Type;
  Response : Type;
  has_param : Request → bytes → bool;
  get_param_value : Request → bytes → bytes;
  set_content : Response → bytes → bytes → Response;   (* body, content type *)
}.

(** ** Orders the C++ standard leaves open *)
Class StdSort := std_sort : ∀ {A}, (A → A → bool) → list A → list A.

Class StdSortLaws `{StdSort} : Prop := {
  std_sort_permutation {A} (lt : A → A → bool) l : std_sort lt l ≡ₚ l;
  (* for a strict weak order, no later element comes before an earlier one *)
  std_sort_sorted {A} (lt : A → A → bool) l :
    (∀ x y, lt x y = true → lt y x = false) →
    (∀ x y z, lt y x = false → lt z y = false → lt z x = false) →
    StronglySorted (λ x y, lt y x = false) (std_sort lt l);
}.

(** The order in which a range-for visits an [unordered_map<string, A>]. *)
Class UnorderedIter := umap_iter : ∀ {A}, gmap bytes A → list (bytes * A).

Class UnorderedIterLaws `{UnorderedIter} : Prop :=
  umap_iter_permutation : ∀ {A} (m : gmap bytes A), umap_iter m ≡ₚ map_to_list m.

(** ** Consequences of the laws *)
(** Two strings cut at their first separator are cut at the same place. *)
Lemma clean_app_inj ds t t' c c' s s' :
  clean ds t → clean ds t' → c ∈ ds → c' ∈ ds →
  t ++ c :: s = t' ++ c' :: s' → t = t' ∧ c = c' ∧ s = s'.
Proof.
  intros Ht Ht' Hc Hc'. revert t' Ht'. induction t as [|a t IH]; intros [|b t'] Ht' [= -> H].
  - by subst.
  - exfalso. apply (Ht' b); [done|left].
  - exfalso. apply (Ht c'); [done|left].
  - destruct (IH ltac:(unfold clean in *; set_solver) t' ltac:(unfold clean in *; set_solver) H)
      as (-> & -> & ->). done.
Qed.

Lemma separated_unique ds ts ts' s :
  separated ds ts s → separated ds ts' s →
  Forall (clean ds) ts → Forall (clean ds) ts' → ts = ts'.
Proof.
  intros Hs. revert ts'. induction Hs as [t|t c ts s Hc Hs IH]; intros ts' Hs' Hcl Hcl'.
  - inversion Hs' as [|t' c' ts'' s'' Hc']; subst; [done|].
    apply Forall_cons_1 in Hcl as [Hcl _]. exfalso. apply (Hcl c' Hc'). set_solver.
  - apply Forall_cons_1 in Hcl as [Ht Hcl].
    inversion Hs' as [t' Heq|t' c' ts'' s'' Hc' Hs'' Heq Heq2].
    + subst. apply Forall_cons_1 in Hcl' as [Hcl' _]. exfalso.
      apply (Hcl' c Hc). set_solver.
    + subst ts'. apply Forall_cons_1 in Hcl' as [Ht' Hcl'].
      apply (clean_app_inj ds) in Heq2 as (-> & -> & ->); [|done..].
      f_equal. by apply IH.
Qed.

Lemma boost_split_intro `{BoostStringLaws} s ds ts :
  separated ds ts s → Forall (clean ds) ts → boost_split s ds = ts.
Proof.
  intros Hs Hcl. eapply separated_unique; eauto using boost_split_separated, boost_split_clean.
Qed.

(** ** Reference instances *)
Fixpoint split_ref (s ds : bytes) : list bytes :=
  match s with
  | [] => [[]]
  | c :: s =>
      if bool_decide (c ∈ ds) then [] :: split_ref s ds
      else match split_ref s ds with
           | [] => [[c]]
           | t :: ts => (c :: t) :: ts
           end
  end.

(** [std::tolower] in the "C" locale. *)
Definition tolower (c : ascii) : ascii :=
  let n := Ascii.nat_of_ascii c in
  if (65 <=? n) && (n <=? 90) then chr (n + 32) else c.

Definition ref_BoostString : BoostString :=
  {| boost_split := split_ref; boost_to_lower := λ s, tolower <$> s |}.

Lemma split_ref_cons s ds : ∃ t ts, split_ref s ds = t :: ts.
Proof.
  destruct s as [|c s]; simpl; [eauto|]. case_bool_decide; [eauto|].
  destruct (split_ref s ds); eauto.
Qed.

Lemma ref_BoostString_laws : @BoostStringLaws ref_BoostString.
Proof.
  split; simpl; intros s ds; unfold clean.
  - induction s as [|c s IH]; simpl; [constructor|]. case_bool_decide.
    + by apply (sep_more ds [] c).
    + destruct (split_ref s ds) as [|t ts]; [inversion IH|].
      inversion IH; subst; [constructor|]. by apply (sep_more ds (c :: t)).
  - induction s as [|c s IH]; simpl; [constructor; [set_solver|done]|]. case_bool_decide as Hc.
    + constructor; [set_solver|done].
    + destruct (split_ref s ds) as [|t ts].
      * constructor; [set_solver|done].
      * apply Forall_cons_1 in IH as [? ?]. constructor; [set_solver|done].
Qed.

(** Insertion sort. *)
Fixpoint insert_by {A} (lt : A → A → bool) (x : A) (l : list A) : list A :=
  match l with
  | [] => [x]
  | y :: l => if lt y x then y :: insert_by lt x l else x :: y :: l
  end.
Definition ref_StdSort : StdSort := λ A lt l, foldr (insert_by lt) [] l.

Lemma insert_by_permutation {A} (lt : A → A → bool) x l : insert_by lt x l ≡ₚ x :: l.
Proof.
  induction l as [|y l IH]; simpl; [done|]. destruct (lt y x); [|done].
  rewrite IH. by apply Permutation_swap.
Qed.

Lemma ref_StdSort_laws : @StdSortLaws ref_StdSort.
Proof.
  split.
  - intros A lt l. unfold std_sort, ref_StdSort. induction l as [|x l IH]; simpl; [done|].
    by rewrite insert_by_permutation, IH.
  - intros A lt l Hasym Htr. unfold std_sort, ref_StdSort.
    induction l as [|x l IH]; simpl; [constructor|].
    induction IH as [|y m Hm IHm Hy]; simpl; [repeat constructor|].
    destruct (lt y x) eqn:E.
    + constructor; [done|]. rewrite insert_by_permutation. constructor; [|done].
      by apply Hasym.
    + constructor; [by constructor|]. constructor; [done|].
      eapply Forall_impl; [done|]. simpl. intros z Hz. by apply (Htr x y z).
Qed.

Definition ref_UnorderedIter : UnorderedIter := λ A m, map_to_list m.

Lemma ref_UnorderedIter_laws : @UnorderedIterLaws ref_UnorderedIter.
Proof. intros A m. done. Qed.

(** The segmentation the witnesses use: words separated by blanks. *)
Definition ref_CppJieba : CppJieba :=
  {| Jieba := unit;
     make_Jieba := λ _ _ _ _ _, tt;
     CutForSearch := λ _ s _, filter (λ t, t ≠ []) (split_ref s (lit " ")) |}.

(** A [Json::Value] that is null, an object of strings or an array. *)
Inductive ref_json := JNull | JObject (m : list (bytes * bytes)) | JArray (l : list ref_json).

Fixpoint ref_json_text (v : ref_json) : bytes :=
  match v with
  | JNull => lit "null"
  | JObject m => lit "{" ++ mjoin ((λ '(k, s), k ++ lit ":" ++ s ++ lit ",") <$> m) ++ lit "}"
  | JArray l => lit "[" ++ mjoin ((λ w, ref_json_text w ++ lit ",") <$> l) ++ lit "]"
  end.

Definition ref_JsonCpp : JsonCpp :=
  {| Value := ref_json;
     Value_null := JNull;
     Value_set := λ v k s, match v with
                           | JObject m => JObject (m ++ [(k, s)])
                           | _ => JObject [(k, s)]
                           end;
     Value_append := λ v w, match v with
                            | JArray l => JArray (l ++ [w])
                            | _ => JArray [w]
                            end;
     FastWriter_write := λ v, ref_json_text v ++ [newline] |}.

