(* ===== verification/Util.v ===== *)
(** * common::Util (src/doc_searcher/common/util.hpp)

    Reading a whole file into a string, and splitting a string at a separator. *)

From S2P Require Import Prelude CxxString Interfaces.

Module Util.

(** [Util::Read]: append the lines of the file to [*output]; false, with
    [*output] untouched, when it cannot be opened. *)
Definition Read (files : file_store) (input_path : bytes) (output : bytes) : bool * bytes :=
  match files !! input_path with
  | None => (false, output)
  | Some text => (true, foldl (λ out line, out ++ (line ++ [newline])) output (getlines text))
  end.

(** [Util::Split]: the previous contents of [*output] are replaced. *)
Definition Split `{BoostString} (input delimiter : bytes) (output : list bytes) : list bytes :=
  boost_split input delimiter.

Lemma foldl_unlines ls out :
  foldl (λ out line, out ++ (line ++ [newline])) out ls = out ++ unlines ls.
Proof.
  revert out. induction ls as [|l ls IH]; intros out; simpl; [by rewrite app_nil_r|].
  rewrite IH, unlines_cons. by rewrite <-!app_assoc.
Qed.

(** The loop of [Read] in one equation. *)
Lemma Read_unlines files path text out :
  files !! path = Some text → Read files path out = (true, out ++ unlines (getlines text)).
Proof. intros H. unfold Read. rewrite H. by rewrite foldl_unlines. Qed.

(** Splitting a record of three clean fields gives the fields back. *)
Lemma Split_three `{BoostStringLaws} d a b c out :
  d ∉ a → d ∉ b → d ∉ c → Split (a ++ d :: b ++ d :: c) [d] out = [a; b; c].
Proof.
  intros Ha Hb Hc. unfold Split. apply boost_split_intro.
  - apply sep_more; [left|]. apply sep_more; [left|]. constructor.
  - repeat constructor; intros x Hx; apply list_elem_of_singleton in Hx as ->; done.
Qed.

(** What [Split] returns determines the input: the fields joined by the
    separator. *)
Lemma Split_three_inv `{BoostStringLaws} d s a b c out :
  Split s [d] out = [a; b; c] → (s = a ++ d :: b ++ d :: c) ∧ (d ∉ a) ∧ (d ∉ b) ∧ (d ∉ c).
Proof.
  intros Hs. unfold Split in Hs.
  pose proof (boost_split_separated s [d]) as Hsep.
  pose proof (boost_split_clean s [d]) as Hcl. rewrite Hs in Hsep, Hcl.
  repeat match goal with
    | Hx : separated _ _ _ |- _ => inversion Hx; clear Hx; simplify_eq
    | Hx : _ ∈ [d] |- _ => apply list_elem_of_singleton in Hx; subst
    end.
  rewrite !Forall_cons in Hcl. destruct Hcl as (Ha & Hb & Hc & _).
  unfold clean in *. set_solver.
Qed.

End Util.
