(* ===== verification/Parser.v ===== *)
(** * The preprocessor (src/doc_searcher/parser/parser.cc)

    Walks the Boost documentation tree, strips each HTML page to a title, a URL
    and a text, and writes one record per page, its three fields separated by
    the byte 3 and ended by a newline. *)

From S2P Require Import Prelude CxxString Interfaces Util.

Module Parser.

Definition g_input_path : bytes := lit "../data/input/".
Definition g_output_path : bytes := lit "../data/tmp/raw_input.txt".
Definition g_url_head : bytes := lit "https://www.boost.org/doc/libs/1_53_0/doc/".

Record DocInfo := mkDoc { title : bytes; url : bytes; content : bytes }.

(** ** Operations *)

Section Walk.
Context `{BoostFilesystem}.

(** One iteration of the loop over the directory tree. *)
Definition EnumFile_step (file_list : list bytes) (e : dir_entry) : list bytes :=
  if negb (entry_is_regular e) then file_list
  else if bool_decide (path_extension (entry_path e) ≠ lit ".html") then file_list
  else file_list ++ [entry_path e].

Definition EnumFile (input_path : bytes) (file_list : list bytes) : bool * list bytes :=
  if negb (fs_exists input_path) then (false, file_list)
  else (true, foldl EnumFile_step file_list (recursive_directory input_path)).

End Walk.

Definition open_tag : bytes := lit "<title>".
Definition close_tag : bytes := lit "</title>".

Definition ParseTitle (html : bytes) (title : bytes) : outcome (bool * bytes) :=
  match find html open_tag 0 with
  | None => Ret (false, title)
  | Some begin =>
      match find html close_tag begin with
      | None => Ret (false, title)
      | Some end_ =>
          let begin := begin + length open_tag in
          if end_ <=? begin then Ret (false, title)
          else t ← substr html begin (end_ - begin); Ret (true, t)
      end
  end.

Definition ParseUrl (file_path : bytes) (url : bytes) : outcome (bool * bytes) :=
  url_tail ← substr_from file_path (length g_input_path);
  Ret (true, g_url_head ++ url_tail).

(** The body of the loop over the characters: [is_content] and [*content]. *)
Definition ParseContent_step (st : bool * bytes) (c : ascii) : bool * bytes :=
  let '(is_content, content) := st in
  if is_content then
    if bool_decide (c = "<"%char) then (false, content)
    else
      let c := if bool_decide (c = newline) then " "%char else c in
      (is_content, content ++ [c])
  else
    if bool_decide (c = ">"%char) then (true, content) else (is_content, content).

Definition ParseContent (html : bytes) (content : bytes) : bool * bytes :=
  (true, (foldl ParseContent_step (true, content) html).2).

Definition ParseFile (files : file_store) (file_path : bytes) (doc_info : DocInfo) :
    outcome (bool * DocInfo) :=
  let '(ret, html) := Util.Read files file_path [] in
  if negb ret then Ret (false, doc_info) else
  '(ret, t) ← ParseTitle html (title doc_info);
  let doc_info := mkDoc t (url doc_info) (content doc_info) in
  if negb ret then Ret (false, doc_info) else
  '(ret, u) ← ParseUrl file_path (url doc_info);
  let doc_info := mkDoc (title doc_info) u (content doc_info) in
  if negb ret then Ret (false, doc_info) else
  let '(ret, c) := ParseContent html (content doc_info) in
  let doc_info := mkDoc (title doc_info) (url doc_info) c in
  if negb ret then Ret (false, doc_info) else
  Ret (true, doc_info).

Definition sep : ascii := chr 3.

Definition WriteOutput (doc_info : DocInfo) (ofstream : bytes) : bytes :=
  ofstream ++ title doc_info ++ [sep] ++ url doc_info ++ [sep] ++ content doc_info ++ [newline].

(** One iteration of the loop of [main]: a page that does not parse is skipped. *)
Definition main_step (files : file_store) (output_file : bytes) (file_path : bytes) :
    outcome bytes :=
  '(ret, doc_info) ← ParseFile files file_path (mkDoc [] [] []);
  if negb ret then Ret output_file else Ret (WriteOutput doc_info output_file).

(** [main]: the exit code, and the contents of the output file when it was
    opened ([out_ok]: whether the file can be opened for writing). *)
Definition main `{BoostFilesystem} (files : file_store) (out_ok : bool) :
    outcome (Z * option bytes) :=
  let '(ret, file_list) := EnumFile g_input_path [] in
  if negb ret then Ret (1%Z, None) else
  if negb out_ok then Ret (1%Z, None) else
  output_file ← foldM (main_step files) file_list [];
  Ret (0%Z, Some output_file).

(** ** Titles *)

Ltac tag_lia :=
  change (length open_tag) with 7 in *; change (length close_tag) with 8 in *; lia.

(** [</title>] cannot start inside [<title>]: the search for the end tag may
    start at the beginning of the start tag. *)
Lemma tags_disjoint html b e :
  occurs_at open_tag html b → occurs_at close_tag html e → b ≤ e → b + length open_tag ≤ e.
Proof.
  intros Ho Hc Hbe. destruct (decide (b + length open_tag ≤ e)) as [|Hlt]; [done|]. exfalso.
  assert (∀ k, open_tag !! (e - b + k) ≠ None → k < length close_tag →
    open_tag !! (e - b + k) = close_tag !! k) as Heq.
  { intros k Hk Hk'. destruct (open_tag !! (e - b + k)) as [x|] eqn:E1; [|done].
    destruct (lookup_lt_is_Some_2 close_tag k Hk') as [y E2]. rewrite E2. f_equal.
    pose proof (occurs_at_lookup _ _ _ _ _ Ho E1) as H1.
    pose proof (occurs_at_lookup _ _ _ _ _ Hc E2) as H2.
    replace (b + (e - b + k)) with (e + k) in H1 by lia. congruence. }
  pose proof (Heq 0) as H0. pose proof (Heq 1) as H1.
  change (length open_tag) with 7 in Hlt. remember (e - b) as n eqn:Hn.
  assert (n < 7) as Hn7 by lia. clear -H0 H1 Hn7.
  do 7 (destruct n as [|n];
    [first [discriminate H0; [done|simpl; lia] | discriminate H1; [done|simpl; lia]]|]).
  lia.
Qed.

(** [t] is the text between the first start tag of the page and the first end
    tag after it, and there is some. *)
Definition is_title (html t : bytes) : Prop :=
  t ≠ [] ∧ ∃ pre post,
    html = pre ++ open_tag ++ t ++ close_tag ++ post ∧
    (∀ j, j < length pre → ¬ occurs_at open_tag html j) ∧
    (∀ j, j < length t → ¬ occurs_at close_tag html (length pre + length open_tag + j)).

Lemma title_between html b e :
  occurs_at open_tag html b → occurs_at close_tag html e → b + length open_tag ≤ e →
  ∃ pre post,
    html = pre ++ open_tag ++ take (e - (b + length open_tag)) (drop (b + length open_tag) html)
           ++ close_tag ++ post ∧ length pre = b.
Proof.
  intros Ho [He [post Hpost]] Hbe.
  apply occurs_at_split in Ho as (pre & rest & -> & <-).
  exists pre, post. split; [|done]. f_equal. rewrite drop_app_add, drop_app_length. f_equal.
  rewrite <-Hpost.
  replace e with (length pre + (length open_tag + (e - (length pre + length open_tag)))) at 2 by lia.
  rewrite !drop_app_add. by rewrite take_drop.
Qed.

Lemma ParseTitle_true html t0 t : ParseTitle html t0 = Ret (true, t) → is_title html t.
Proof.
  unfold ParseTitle. destruct (find html open_tag 0) as [b|] eqn:Hb; [|done].
  destruct (find html close_tag b) as [e|] eqn:He; [|done].
  destruct (Nat.leb_spec e (b + length open_tag)) as [Hle|Hlt]; [done|].
  apply find_Some in Hb as (_ & Hob & Hminb). pose proof He as He'.
  apply find_Some in He as (Hbe & Hoe & Hmine). apply find_bound in He'.
  rewrite substr_ok by lia. intros [= <-].
  destruct (title_between html b e Hob Hoe) as (pre & post & Heq & Hpre); [lia|].
  split; [|exists pre, post; split; [done|split]].
  - intros Hnil%(f_equal length). rewrite length_take, length_drop in Hnil.
    cbn in Hnil. tag_lia.
  - intros j Hj. apply Hminb. lia.
  - intros j Hj. apply Hmine. rewrite length_take in Hj. tag_lia.
Qed.

Lemma ParseTitle_complete html t0 t : is_title html t → ParseTitle html t0 = Ret (true, t).
Proof.
  intros (Hne & pre & post & Heq & Hmin1 & Hmin2).
  assert (occurs_at open_tag html (length pre)) as Ho.
  { apply occurs_at_split. rewrite Heq. eauto. }
  set (e := length pre + length open_tag + length t).
  assert (occurs_at close_tag html e) as Hc.
  { apply occurs_at_split. exists (pre ++ open_tag ++ t), post.
    rewrite Heq, <-!app_assoc. split; [done|]. rewrite !length_app. unfold e. lia. }
  assert (0 < length t) by (destruct t; [done|simpl; lia]).
  unfold ParseTitle.
  rewrite (proj2 (find_Some html open_tag 0 (length pre))).
  2: { split; [lia|]. split; [done|]. intros j Hj. apply Hmin1. lia. }
  rewrite (proj2 (find_Some html close_tag (length pre) e)).
  2: { split; [unfold e; lia|]. split; [done|]. intros j [Hj1 Hj2] Hj.
    pose proof (tags_disjoint _ _ _ Ho Hj Hj1). apply (Hmin2 (j - (length pre + length open_tag))).
    { unfold e in Hj2. lia. }
    by replace (length pre + length open_tag + (j - (length pre + length open_tag))) with j by lia. }
  rewrite (proj2 (Nat.leb_gt _ _)) by (unfold e; lia).
  rewrite substr_ok by (rewrite Heq, !length_app; lia).
  assert (drop (length pre + length open_tag) html = t ++ close_tag ++ post) as ->.
  { rewrite Heq, drop_app_add. apply drop_app_length. }
  replace (e - (length pre + length open_tag)) with (length t) by (unfold e; lia).
  by rewrite take_app_length.
Qed.

Lemma ParseTitle_total html t0 :
  ParseTitle html t0 = Ret (false, t0) ∨ ∃ t, ParseTitle html t0 = Ret (true, t).
Proof.
  unfold ParseTitle. destruct (find html open_tag 0) as [b|] eqn:Hb; [|by left].
  destruct (find html close_tag b) as [e|] eqn:He; [|by left].
  destruct (Nat.leb_spec e (b + length open_tag)); [by left|]. right.
  apply find_bound in He. rewrite substr_ok by lia. eauto.
Qed.

(** ** Text *)

Definition nl_to_space (c : ascii) : ascii := if bool_decide (c = newline) then " "%char else c.

(** [tagged html out]: [html] is text interleaved with tags, the last of which
    may be unterminated, and [out] is the text with its newlines made blanks. *)
Inductive tagged : bytes → bytes → Prop :=
  | tagged_text t : "<"%char ∉ t → tagged t (nl_to_space <$> t)
  | tagged_tag t tag rest out :
      "<"%char ∉ t → ">"%char ∉ tag → tagged rest out →
      tagged (t ++ "<"%char :: tag ++ ">"%char :: rest) ((nl_to_space <$> t) ++ out)
  | tagged_open t tag :
      "<"%char ∉ t → ">"%char ∉ tag →
      tagged (t ++ "<"%char :: tag) (nl_to_space <$> t).

Lemma ParseContent_step_text t c :
  "<"%char ∉ t → foldl ParseContent_step (true, c) t = (true, c ++ (nl_to_space <$> t)).
Proof.
  revert c. induction t as [|x t IH]; intros c Ht; [by rewrite app_nil_r|].
  cbn [foldl ParseContent_step]. rewrite bool_decide_false by set_solver.
  rewrite IH by set_solver. rewrite <-app_assoc. done.
Qed.

Lemma ParseContent_step_tag tag c :
  ">"%char ∉ tag → foldl ParseContent_step (false, c) tag = (false, c).
Proof.
  induction tag as [|x t IH]; intros Ht; [done|].
  cbn [foldl ParseContent_step]. rewrite bool_decide_false by set_solver.
  apply IH. set_solver.
Qed.

Lemma ParseContent_tagged html out c0 :
  tagged html out → (foldl ParseContent_step (true, c0) html).2 = c0 ++ out.
Proof.
  intros Ht. revert c0.
  induction Ht as [t Ht|t tag rest out Ht Htag _ IH|t tag Ht Htag]; intros c0;
    rewrite ?foldl_app, ParseContent_step_text by done; [done| |].
  - cbn [foldl ParseContent_step]. rewrite bool_decide_true by done.
    rewrite foldl_app, ParseContent_step_tag by done.
    cbn [foldl ParseContent_step]. rewrite bool_decide_true by done.
    by rewrite IH, app_assoc.
  - cbn [foldl ParseContent_step]. rewrite bool_decide_true by done.
    by rewrite ParseContent_step_tag by done.
Qed.

Lemma tagged_total html : ∃ out, tagged html out.
Proof.
  induction html as [html IH] using (induction_ltof1 _ (@length ascii)). unfold ltof in IH.
  destruct (decide ("<"%char ∈ html)) as [Hlt|]; [|eauto using tagged_text].
  apply list_elem_of_split_l in Hlt as (t & r & -> & Ht).
  destruct (decide (">"%char ∈ r)) as [Hgt|]; [|eauto using tagged_open].
  apply list_elem_of_split_l in Hgt as (tag & rest & -> & Htag).
  destruct (IH rest) as [out Hout]; [rewrite !length_app; simpl; rewrite length_app; simpl; lia|].
  eauto using tagged_tag.
Qed.

Lemma tagged_clean html out : tagged html out → ("<"%char ∉ out) ∧ (newline ∉ out).
Proof.
  assert (∀ t : bytes, "<"%char ∉ t →
    ("<"%char ∉ (nl_to_space <$> t : bytes)) ∧ (newline ∉ (nl_to_space <$> t : bytes))) as Hmap.
  { intros t Ht. rewrite !list_elem_of_fmap. unfold nl_to_space.
    split; intros (x & Hx & Hin); case_bool_decide; by subst. }
  induction 1 as [t Ht|t tag rest out Ht _ _ [IH1 IH2]|t tag Ht _]; [by apply Hmap| |by apply Hmap].
  destruct (Hmap t Ht). set_solver.
Qed.

(** ** Pages and records *)

Lemma ParseUrl_under tl u0 :
  ParseUrl (g_input_path ++ tl) u0 = Ret (true, g_url_head ++ tl).
Proof.
  unfold ParseUrl. rewrite substr_from_ok by (rewrite length_app; lia).
  by rewrite drop_app_length.
Qed.

(** The text of a page as the program sees it: the file with its last line ended. *)
Definition page_text (text : bytes) : bytes := unlines (getlines text).

(** The document a page of the tree stands for. *)
Definition is_page (files : file_store) (path : bytes) (d : DocInfo) : Prop :=
  ∃ text tl, files !! path = Some text ∧ path = g_input_path ++ tl ∧
    is_title (page_text text) (title d) ∧ url d = g_url_head ++ tl ∧
    tagged (page_text text) (content d).

Lemma tagged_ParseContent html c0 :
  ∃ out, tagged html out ∧ ParseContent html c0 = (true, c0 ++ out).
Proof.
  destruct (tagged_total html) as [out Hout]. exists out. split; [done|].
  unfold ParseContent. by rewrite (ParseContent_tagged _ out).
Qed.

(** [ParseFile] on a path under the input directory succeeds exactly on pages;
    it never throws. *)
Lemma ParseFile_under files path tl :
  path = g_input_path ++ tl →
  (∃ d, ParseFile files path (mkDoc [] [] []) = Ret (false, d) ∧
        ∀ d', ¬ is_page files path d') ∨
  (∃ d, ParseFile files path (mkDoc [] [] []) = Ret (true, d) ∧ is_page files path d).
Proof.
  intros Hpath. unfold ParseFile. destruct (files !! path) as [text|] eqn:Ht.
  2: { left. eexists. unfold Util.Read. rewrite Ht. split; [done|].
       intros d' (text & ? & ? & _). congruence. }
  rewrite (Util.Read_unlines _ _ _ _ Ht), app_nil_l. fold (page_text text). cbn [negb].
  destruct (ParseTitle_total (page_text text) []) as [Hp|[t Hp]]; cbn [title]; rewrite Hp;
    cbn [negb title url content mbind outcome_bind].
  - left. eexists. split; [done|]. intros d' (text' & tl' & Ht' & _ & Htitle & _).
    assert (text' = text) as -> by congruence.
    apply (ParseTitle_complete _ []) in Htitle. congruence.
  - right. pose proof (ParseUrl_under tl []) as Hu. rewrite <-Hpath in Hu. rewrite Hu.
    cbn [negb title url content mbind outcome_bind].
    destruct (tagged_ParseContent (page_text text) []) as (out & Hout & Hpc).
    rewrite Hpc. eexists. split; [done|]. exists text, tl. cbn [title url content].
    split_and!; [done|done|by eapply ParseTitle_true|done|done].
Qed.

(** The line of the output file that holds a document. *)
Definition record (d : DocInfo) : bytes := title d ++ sep :: url d ++ sep :: content d.

Lemma WriteOutput_record d out : WriteOutput d out = out ++ record d ++ [newline].
Proof. unfold WriteOutput, record. by rewrite <-!app_assoc; simpl; rewrite <-!app_assoc. Qed.

(** The document [main] writes for a path, if it writes one. *)
Definition parsed (files : file_store) (path : bytes) : option DocInfo :=
  match ParseFile files path (mkDoc [] [] []) with
  | Ret (true, d) => Some d
  | _ => None
  end.

Lemma parsed_is_page files path d :
  g_input_path `prefix_of` path → parsed files path = Some d ↔ is_page files path d.
Proof.
  intros [tl Hpath]. unfold parsed.
  destruct (ParseFile_under files path tl Hpath) as [(d0 & -> & Hno)|(d0 & -> & Hd0)]; [naive_solver|].
  split; [intros [= <-]; done|]. intros (text & tl' & Ht & Htl & Htitle & Hurl & Htag).
  destruct Hd0 as (text' & tl'' & Ht' & Htl' & Htitle' & Hurl' & Htag').
  assert (text' = text) as -> by congruence.
  apply (ParseTitle_complete _ []) in Htitle, Htitle'.
  apply (ParseContent_tagged _ _ []) in Htag, Htag'.
  assert (tl'' = tl') as -> by (apply (app_inv_head g_input_path); congruence).
  destruct d0, d. cbn [title url content app] in *. f_equal. f_equal; congruence.
Qed.

(** ** The walk and the whole run *)

Section Run.
Context `{BoostFilesystem}.

(** The paths the walk collects, in the order of the walk. *)
Definition html_entry (e : dir_entry) : bool :=
  entry_is_regular e && bool_decide (path_extension (entry_path e) = lit ".html").
Definition html_paths (root : bytes) : list bytes :=
  entry_path <$> filter (λ e, html_entry e = true) (recursive_directory root).

Lemma EnumFile_paths root fl :
  EnumFile root fl = if fs_exists root then (true, fl ++ html_paths root) else (false, fl).
Proof.
  unfold EnumFile, html_paths. destruct (fs_exists root); simpl; [|done]. f_equal.
  revert fl. induction (recursive_directory root) as [|e es IH]; intros fl; simpl.
  { by rewrite app_nil_r. }
  rewrite IH, filter_cons. unfold EnumFile_step, html_entry.
  destruct (entry_is_regular e); simpl; [|done].
  repeat case_bool_decide; try done. simpl. by rewrite <-app_assoc.
Qed.

Lemma html_paths_under `{!BoostFilesystemLaws} root p :
  p ∈ html_paths root → root `prefix_of` p ∧ lit ".html" `suffix_of` p.
Proof.
  unfold html_paths. intros (e & -> & He)%list_elem_of_fmap.
  apply list_elem_of_filter in He as [He Hin]. unfold html_entry in He.
  apply andb_true_iff in He as [_ He%bool_decide_eq_true].
  split; [by apply recursive_directory_under|]. rewrite <-He. apply path_extension_suffix.
Qed.

Lemma main_step_parsed files p out :
  g_input_path `prefix_of` p →
  main_step files out p =
    Ret (match parsed files p with Some d => out ++ record d ++ [newline] | None => out end).
Proof.
  intros [tl Hp]. unfold main_step, parsed.
  destruct (ParseFile_under files p tl Hp) as [(d & -> & _)|(d & -> & _)]; cbn; [done|].
  by rewrite WriteOutput_record.
Qed.

Lemma main_loop files paths out :
  Forall (λ p, g_input_path `prefix_of` p) paths →
  foldM (main_step files) paths out =
    Ret (out ++ unlines (record <$> omap (parsed files) paths)).
Proof.
  intros Hp. revert out. induction Hp as [|p ps Hp _ IH]; intros out; cbn [foldM omap list_omap].
  { cbn. by rewrite app_nil_r. }
  rewrite main_step_parsed by done. cbn [mbind outcome_bind]. rewrite IH.
  destruct (parsed files p) as [d|]; [|done].
  rewrite fmap_cons, unlines_cons. by rewrite <-!app_assoc.
Qed.

(** [EnumFile] fails, leaving the list alone, when the directory does not
    exist; otherwise it appends, in the order of the walk, exactly the regular
    files with extension .html, and each of them lies under the directory and
    ends in ".html". *)
Theorem EnumFile_spec `{!BoostFilesystemLaws} root fl :
  EnumFile root fl =
    (fs_exists root, if fs_exists root then fl ++ html_paths root else fl) ∧
  ∀ p, p ∈ html_paths root → root `prefix_of` p ∧ lit ".html" `suffix_of` p.
Proof.
  split; [|apply html_paths_under]. rewrite EnumFile_paths. by destruct (fs_exists root).
Qed.

(** C7: a run of the preprocessor over an existing directory with a writable
    output never throws, ends with exit code 0, and writes one line per page of
    the tree that has a title, in the order of the walk: the fields of the
    document the page stands for (its title, its URL, its text without tags)
    joined by the separator. *)
Theorem main_spec `{!BoostFilesystemLaws} files :
  fs_exists g_input_path = true →
  ∃ docs,
    main files true = Ret (0%Z, Some (unlines (record <$> docs))) ∧
    docs = omap (parsed files) (html_paths g_input_path) ∧
    ∀ d, d ∈ docs ↔ ∃ p, p ∈ html_paths g_input_path ∧ is_page files p d.
Proof.
  intros Hex. eexists. split; [|split; [reflexivity|]].
  - unfold main. rewrite EnumFile_paths, Hex. cbn [negb]. rewrite app_nil_l.
    rewrite main_loop; [done|]. apply Forall_forall. intros p Hp.
    by apply html_paths_under in Hp as [? _].
  - intros d. rewrite list_elem_of_omap. split; intros (p & Hp & Hd); exists p; (split; [done|]);
      apply html_paths_under in Hp as [Hp _]; by apply parsed_is_page.
Qed.

End Run.

(** C5: [ParseTitle] never throws; it returns true with [t] exactly when [t] is
    the non-empty text between the first <title> of the page and the first
    </title> after it, and otherwise returns false and leaves the title alone. *)
Theorem ParseTitle_spec html t0 :
  (∀ t, ParseTitle html t0 = Ret (true, t) ↔ is_title html t) ∧
  ((∀ t, ¬ is_title html t) → ParseTitle html t0 = Ret (false, t0)).
Proof.
  split.
  - intros t. split; [apply ParseTitle_true|apply ParseTitle_complete].
  - intros Hno. destruct (ParseTitle_total html t0) as [?|[t Ht]]; [done|].
    by apply ParseTitle_true, Hno in Ht.
Qed.

(** C4: [ParseContent] appends to [*content] exactly the text outside tags with
    its newlines turned into blanks (an unterminated tag at the end is dropped),
    so that what it appends holds neither a tag opener nor a line break. *)
Theorem ParseContent_spec html c0 :
  (∀ out, ParseContent html c0 = (true, c0 ++ out) ↔ tagged html out) ∧
  ∃ out, ParseContent html c0 = (true, c0 ++ out) ∧ ("<"%char ∉ out) ∧ (newline ∉ out).
Proof.
  destruct (tagged_ParseContent html c0) as (out & Hout & Hpc). split.
  - intros out'. rewrite Hpc. split; [intros [= ->%app_inv_head]; done|]. intros Hout'.
    apply (ParseContent_tagged _ _ []) in Hout, Hout'. simpl in *. congruence.
  - exists out. split; [done|]. by apply (tagged_clean html).
Qed.

(** [ParseUrl] replaces the first 14 characters of the path, whatever they
    are, by the prefix of the online documentation; a shorter path makes
    [substr] throw [out_of_range]. *)
Theorem ParseUrl_spec file_path u0 :
  (∀ pre tl, file_path = pre ++ tl → length pre = 14 →
     ParseUrl file_path u0 = Ret (true, g_url_head ++ tl)) ∧
  (length file_path < 14 → ParseUrl file_path u0 = Throw out_of_range).
Proof.
  unfold ParseUrl. change (length g_input_path) with 14. split.
  - intros pre tl -> Hpre. rewrite substr_from_ok by (rewrite length_app; lia).
    by rewrite <-Hpre, drop_app_length.
  - intros Hlen. unfold substr_from. by bool_false.
Qed.

End Parser.
