(* ===== verification/Index.v ===== *)
(** * The index (class Index of src/doc_searcher/searcher/searcher.{h,cc})

    The forward index (a vector of documents, the position being the document
    id) and the inverted index (a hash table from a word to the list of the
    documents that contain it, with a weight). [Build] fills both from the file
    the preprocessor wrote. The specification of the whole is [postings]: what
    the inverted list of a word must be, given the documents. *)

From S2P Require Import Prelude CxxString Interfaces Util.

Module Index.

Record DocInfo := mkDoc { doc_id : Z; title : bytes; url : bytes; content : bytes }.

Record Weight := mkWeight { w_doc_id : Z; weight : Z; word : bytes }.

Definition InvertedList : Type := list Weight.

Definition DICT_PATH : bytes := lit "../jieba_dict/jieba.dict.utf8".
Definition HMM_PATH : bytes := lit "../jieba_dict/hmm_model.utf8".
Definition USER_DICT_PATH : bytes := lit "../jieba_dict/user.dict.utf8".
Definition IDF_PATH : bytes := lit "../jieba_dict/idf.utf8".
Definition STOP_WORD_PATH : bytes := lit "../jieba_dict/stop_words.utf8".

(** The counters [BuildInverted] keeps for a word, both zero at first. *)
Record WordCnt := mkCnt { title_cnt : Z; content_cnt : Z }.
Definition WordCnt_init : WordCnt := mkCnt 0 0.

Section Index.
Context `{CppJieba, BoostString, UnorderedIter}.

Record Index := mkIndex {
  forward_index : list DocInfo;
  inverted_index : gmap bytes InvertedList;
  jieba : Jieba;
}.

(** ** Operations *)

(** [Index::Index()] *)
Definition Index_new : Index :=
  mkIndex [] ∅ (make_Jieba DICT_PATH HMM_PATH USER_DICT_PATH IDF_PATH STOP_WORD_PATH).

(** [None] is the null pointer. The second comparison is unsigned: [doc_id] is
    converted to [size_t]. *)
Definition GetDocInfo (idx : Index) (doc_id : Z) : option DocInfo :=
  if (doc_id <? 0)%Z || (Z.of_nat (length (forward_index idx)) <=? to_uint64 doc_id)%Z then None
  else forward_index idx !! Z.to_nat (to_uint64 doc_id).

Definition GetInvertedList (idx : Index) (key : bytes) : option InvertedList :=
  inverted_index idx !! key.

Definition CutWord (idx : Index) (input : bytes) (output : list bytes) : list bytes :=
  CutForSearch (jieba idx) input output.

(** The result is the pointer to the new last element of [forward_index], given
    by its position, or null when the line does not have three fields. *)
Definition BuildForward (idx : Index) (line : bytes) : option nat * Index :=
  match Util.Split line [chr 3] [] with
  | [t; u; c] =>
      let doc_info := mkDoc (to_int64 (Z.of_nat (length (forward_index idx)))) t u c in
      (Some (length (forward_index idx)),
       mkIndex (forward_index idx ++ [doc_info]) (inverted_index idx) (jieba idx))
  | _ => (None, idx)
  end.

(** [++word_cnt_map[word].title_cnt] after [to_lower(word)]. *)
Definition count_title (m : gmap bytes WordCnt) (word : bytes) : outcome (gmap bytes WordCnt) :=
  let word := boost_to_lower word in
  let c := default WordCnt_init (m !! word) in
  n ← int_res (title_cnt c + 1);
  Ret (<[word := mkCnt n (content_cnt c)]> m).

Definition count_content (m : gmap bytes WordCnt) (word : bytes) : outcome (gmap bytes WordCnt) :=
  let word := boost_to_lower word in
  let c := default WordCnt_init (m !! word) in
  n ← int_res (content_cnt c + 1);
  Ret (<[word := mkCnt (title_cnt c) n]> m).

(** The last loop of [BuildInverted]: the weight of a word is appended to the
    list of the word. *)
Definition add_weight (id : Z) (inv : gmap bytes InvertedList) (word_pair : bytes * WordCnt) :
    outcome (gmap bytes InvertedList) :=
  ten ← int_res (10 * title_cnt word_pair.2);
  w ← int_res (ten + content_cnt word_pair.2);
  let inverted_list := default [] (inv !! word_pair.1) in
  Ret (<[word_pair.1 := inverted_list ++ [mkWeight id w word_pair.1]]> inv).

Definition BuildInverted (idx : Index) (doc_info : DocInfo) : outcome Index :=
  let title_token := CutWord idx (title doc_info) [] in
  m ← foldM count_title title_token ∅;
  let content_token := CutWord idx (content doc_info) [] in
  word_cnt_map ← foldM count_content content_token m;
  inv ← foldM (add_weight (doc_id doc_info)) (umap_iter word_cnt_map) (inverted_index idx);
  Ret (mkIndex (forward_index idx) inv (jieba idx)).

(** The body of the loop of [Build]: a line that is no record is skipped. *)
Definition Build_step (idx : Index) (line : bytes) : outcome Index :=
  match BuildForward idx line with
  | (None, idx) => Ret idx
  | (Some p, idx) =>
      match forward_index idx !! p with
      | None => Undef NullDeref
      | Some doc_info => BuildInverted idx doc_info
      end
  end.

Definition Build (files : file_store) (idx : Index) (input_path : bytes) : outcome (bool * Index) :=
  match files !! input_path with
  | None => Ret (false, idx)
  | Some text =>
      idx ← foldM Build_step (getlines text) idx;
      Ret (true, idx)
  end.

(** ** What the inverted index must hold *)

Definition tokens (j : Jieba) (s : bytes) : list bytes := boost_to_lower <$> CutForSearch j s [].

(** How often [w] occurs in [l]. *)
Definition occ (w : bytes) (l : list bytes) : Z := Z.of_nat (length (filter (λ x, x = w) l)).

Definition doc_tokens (j : Jieba) (d : DocInfo) : list bytes :=
  tokens j (title d) ++ tokens j (content d).

(** Ten points per occurrence in the title, one per occurrence in the text. *)
Definition doc_weight (j : Jieba) (d : DocInfo) (w : bytes) : Z :=
  10 * occ w (tokens j (title d)) + occ w (tokens j (content d)).

Definition posting (j : Jieba) (w : bytes) (d : DocInfo) : list Weight :=
  if bool_decide (w ∈ doc_tokens j d) then [mkWeight (doc_id d) (doc_weight j d w) w] else [].

Definition postings (j : Jieba) (docs : list DocInfo) (w : bytes) : list Weight :=
  docs ≫= posting j w.

(** The index holds exactly the postings of its documents, whose ids are their
    positions. *)
Record index_ok (idx : Index) : Prop := {
  ok_ids : ∀ i d, forward_index idx !! i = Some d → doc_id d = Z.of_nat i;
  ok_postings : ∀ w, default [] (inverted_index idx !! w) =
                     postings (jieba idx) (forward_index idx) w;
  ok_nonempty : ∀ w, inverted_index idx !! w ≠ Some [];
}.

(** ** Counting words *)

Definition cnt (m : gmap bytes WordCnt) (w : bytes) : WordCnt := default WordCnt_init (m !! w).

Lemma occ_nil w : occ w [] = 0%Z.
Proof. done. Qed.

Lemma occ_cons w x l : occ w (x :: l) = ((if bool_decide (x = w) then 1 else 0) + occ w l)%Z.
Proof.
  unfold occ. rewrite filter_cons. case_bool_decide; case_decide; try done; simpl; lia.
Qed.

Lemma occ_bound w l : (0 <= occ w l <= Z.of_nat (length l))%Z.
Proof. unfold occ. pose proof (length_filter (λ x, x = w) l). lia. Qed.

Lemma occ_zero w l : w ∉ l → occ w l = 0%Z.
Proof.
  induction l as [|x l IH]; intros Hw; [done|]. rewrite occ_cons.
  rewrite bool_decide_false by set_solver. rewrite IH by set_solver. done.
Qed.

Lemma occ_pos w l : w ∈ l → (0 < occ w l)%Z.
Proof.
  induction l as [|x l IH]; intros Hw; [by apply not_elem_of_nil in Hw|]. rewrite occ_cons.
  pose proof (occ_bound w l). case_bool_decide; [lia|]. apply IH. set_solver.
Qed.

(** What a counting loop over [l] must do to the counters of every word. *)
Definition counted (get : WordCnt → Z) (other : WordCnt → Z) (l : list bytes)
    (m m' : gmap bytes WordCnt) : Prop :=
  ∀ w, get (cnt m' w) = (get (cnt m w) + occ w l)%Z ∧ other (cnt m' w) = other (cnt m w) ∧
       (m' !! w = None ↔ m !! w = None ∧ w ∉ l).

Lemma count_loop (get other : WordCnt → Z) (body : gmap bytes WordCnt → bytes → outcome _) l m :
  (∀ m x, (get (cnt m (boost_to_lower x)) + 1 <= INT_MAX)%Z →
          (0 <= get (cnt m (boost_to_lower x)))%Z →
          ∃ m', body m x = Ret m' ∧ counted get other [boost_to_lower x] m m') →
  (∀ w, 0 <= get (cnt m w) ∧ get (cnt m w) + Z.of_nat (length l) <= INT_MAX)%Z →
  ∃ m', foldM body l m = Ret m' ∧ counted get other (boost_to_lower <$> l) m m'.
Proof.
  intros Hbody. revert m. induction l as [|x l IH]; intros m Hm.
  { exists m. split; [done|]. intros w. cbn. rewrite occ_nil. split; [lia|]. set_solver. }
  set (lx := boost_to_lower x).
  destruct (Hbody m x) as (m1 & Hm1 & Hc); [pose proof (Hm lx); simpl in *; fold lx; lia..|].
  fold lx in Hc.
  destruct (IH m1) as (m' & Hm' & Hc').
  { intros w. destruct (Hc w) as (-> & _). pose proof (occ_bound w [lx]).
    specialize (Hm w). simpl length in *. lia. }
  exists m'. cbn. rewrite Hm1. split; [done|]. fold lx. intros w.
  destruct (Hc w) as (E1 & E2 & E3). destruct (Hc' w) as (E1' & E2' & E3').
  rewrite E1', E2', E3', E1, E2, E3, (occ_cons w lx (_ <$> _)), (occ_cons w lx []), occ_nil.
  split; [lia|]. set_solver.
Qed.

Lemma count_one (get other : WordCnt → Z) m x c :
  get c = (get (cnt m x) + 1)%Z → other c = other (cnt m x) →
  counted get other [x] m (<[x := c]> m).
Proof.
  intros Hg Ho w. unfold cnt in *. rewrite occ_cons, occ_nil. case_bool_decide as Hw; [subst w|].
  - rewrite lookup_insert_eq. simpl. rewrite Hg, Ho. split; [lia|]. set_solver.
  - rewrite lookup_insert_ne by done. split; [lia|]. set_solver.
Qed.

Lemma count_title_loop l m :
  (∀ w, 0 <= title_cnt (cnt m w) ∧ title_cnt (cnt m w) + Z.of_nat (length l) <= INT_MAX)%Z →
  ∃ m', foldM count_title l m = Ret m' ∧ counted title_cnt content_cnt (boost_to_lower <$> l) m m'.
Proof.
  apply count_loop. intros m1 x Hmax Hmin. unfold count_title. fold (cnt m1 (boost_to_lower x)).
  rewrite int_res_ok by (unfold INT_MIN; lia). eexists. split; [reflexivity|]. by apply count_one.
Qed.

Lemma count_content_loop l m :
  (∀ w, 0 <= content_cnt (cnt m w) ∧ content_cnt (cnt m w) + Z.of_nat (length l) <= INT_MAX)%Z →
  ∃ m', foldM count_content l m = Ret m' ∧
        counted content_cnt title_cnt (boost_to_lower <$> l) m m'.
Proof.
  apply count_loop. intros m1 x Hmax Hmin. unfold count_content. fold (cnt m1 (boost_to_lower x)).
  rewrite int_res_ok by (unfold INT_MIN; lia). eexists. split; [reflexivity|]. by apply count_one.
Qed.

(** ** Appending the weights *)

Definition cnt_weight (c : WordCnt) : Z := 10 * title_cnt c + content_cnt c.

Definition cnt_fits (c : WordCnt) : Prop :=
  (0 <= title_cnt c)%Z ∧ (0 <= content_cnt c)%Z ∧ (cnt_weight c <= INT_MAX)%Z.

Lemma add_weight_ok id inv w c :
  cnt_fits c →
  add_weight id inv (w, c) =
    Ret (<[w := default [] (inv !! w) ++ [mkWeight id (cnt_weight c) w]]> inv).
Proof.
  intros (Ht & Hc & Hw). unfold cnt_weight in *. unfold add_weight. cbn [fst snd].
  rewrite int_res_ok by (unfold INT_MIN; lia). cbn [mbind outcome_bind].
  by rewrite int_res_ok by (unfold INT_MIN; lia).
Qed.

Lemma add_weight_loop id l inv :
  NoDup l.*1 → Forall (λ p, cnt_fits p.2) l →
  ∃ inv', foldM (add_weight id) l inv = Ret inv' ∧
    (∀ w c, (w, c) ∈ l →
       inv' !! w = Some (default [] (inv !! w) ++ [mkWeight id (cnt_weight c) w])) ∧
    (∀ w, w ∉ l.*1 → inv' !! w = inv !! w).
Proof.
  revert inv. induction l as [|[x c] l IH]; intros inv Hnd Hfit; cbn [foldM].
  { exists inv. split; [done|]. split; [|done]. intros w c Hin. by apply not_elem_of_nil in Hin. }
  apply Forall_cons_1 in Hfit as [Hc Hfit]. apply NoDup_cons in Hnd as [Hx Hnd].
  rewrite add_weight_ok by done. cbn [mbind outcome_bind].
  edestruct IH as (inv' & Hl & Hin & Hout); [done|done|]. exists inv'. split; [exact Hl|]. split.
  - intros w c' [[= -> ->]|Hw]%elem_of_cons.
    + rewrite Hout by done. apply lookup_insert_eq.
    + rewrite (Hin _ _ Hw). rewrite lookup_insert_ne; [done|].
      intros ->. apply Hx. apply list_elem_of_fmap. by exists (w, c').
  - intros w Hw. apply not_elem_of_cons in Hw as [Hne Hw].
    rewrite Hout by done. by apply lookup_insert_ne.
Qed.

(** A document none of whose weights leaves the range of [int]. *)
Definition doc_fits (j : Jieba) (d : DocInfo) : Prop :=
  (10 * Z.of_nat (length (CutForSearch j (title d) [])) +
   Z.of_nat (length (CutForSearch j (content d) [])) <= INT_MAX)%Z.

(** The two counting loops give every word its number of occurrences. *)
Lemma count_words j d :
  doc_fits j d →
  ∃ m m', foldM count_title (CutForSearch j (title d) []) ∅ = Ret m ∧
    foldM count_content (CutForSearch j (content d) []) m = Ret m' ∧
    (∀ w, m' !! w = if bool_decide (w ∈ doc_tokens j d)
                    then Some (mkCnt (occ w (tokens j (title d))) (occ w (tokens j (content d))))
                    else None) ∧
    (∀ w c, m' !! w = Some c → cnt_fits c).
Proof.
  intros Hfit. unfold doc_fits in Hfit.
  destruct (count_title_loop (CutForSearch j (title d) []) ∅) as (m & Hm & Hc).
  { intros w. unfold cnt. rewrite lookup_empty. cbn. lia. }
  destruct (count_content_loop (CutForSearch j (content d) []) m) as (m' & Hm' & Hc').
  { intros w. destruct (Hc w) as (_ & -> & _). unfold cnt. rewrite lookup_empty. cbn. lia. }
  assert (∀ w, m' !! w = if bool_decide (w ∈ doc_tokens j d)
     then Some (mkCnt (occ w (tokens j (title d))) (occ w (tokens j (content d)))) else None) as Hl.
  { intros w. destruct (Hc w) as (E1 & E2 & E3). destruct (Hc' w) as (E1' & E2' & E3').
    unfold cnt in *. rewrite lookup_empty in E1, E2. cbn in E1, E2.
    unfold doc_tokens, tokens. rewrite bool_decide_decide. destruct (decide _) as [Hw|Hw].
    - destruct (m' !! w) as [[tc cc]|]; cbn in *; [do 2 f_equal; lia|].
      exfalso. rewrite E3 in E3'. set_solver.
    - apply E3'. rewrite E3. set_solver. }
  exists m, m'. split_and!; [done..|]. intros w c Hwc. rewrite Hl in Hwc.
  case_bool_decide; [|done]. injection Hwc as <-. unfold cnt_fits, cnt_weight. cbn.
  pose proof (occ_bound w (tokens j (title d))). pose proof (occ_bound w (tokens j (content d))).
  unfold tokens in *. rewrite !length_fmap in *. lia.
Qed.

(** [BuildInverted] appends to the list of every word of the document its
    posting and leaves the other lists alone, whatever the iteration order. *)
Lemma BuildInverted_effect `{!UnorderedIterLaws} idx d :
  doc_fits (jieba idx) d →
  ∃ inv', BuildInverted idx d = Ret (mkIndex (forward_index idx) inv' (jieba idx)) ∧
    ∀ w, inv' !! w =
      if bool_decide (w ∈ doc_tokens (jieba idx) d)
      then Some (default [] (inverted_index idx !! w) ++
                 [mkWeight (doc_id d) (doc_weight (jieba idx) d w) w])
      else inverted_index idx !! w.
Proof.
  intros Hfit. destruct (count_words _ _ Hfit) as (m & m' & Hm & Hm' & Hl & Hfits).
  assert (umap_iter m' ≡ₚ map_to_list m') as Hperm by apply umap_iter_permutation.
  destruct (add_weight_loop (doc_id d) (umap_iter m') (inverted_index idx))
    as (inv' & Hinv & Hin & Hout).
  { rewrite Hperm. apply NoDup_fst_map_to_list. }
  { rewrite Hperm. apply Forall_forall. intros [w c] Hwc%elem_of_map_to_list. eauto. }
  exists inv'. split.
  { unfold BuildInverted, CutWord. rewrite Hm. cbn [mbind outcome_bind]. rewrite Hm'.
    cbn [mbind outcome_bind]. by rewrite Hinv. }
  intros w. specialize (Hl w). case_bool_decide.
  - apply elem_of_map_to_list in Hl. rewrite <-Hperm in Hl. by rewrite (Hin _ _ Hl).
  - apply Hout. rewrite Hperm. intros ([w' c] & -> & Hwc)%list_elem_of_fmap.
    apply elem_of_map_to_list in Hwc. cbn in *. congruence.
Qed.

(** ** The index after [Build] *)

(** The fields of a line that is a record. *)
Definition line_fields (line : bytes) : option (bytes * bytes * bytes) :=
  match Util.Split line [chr 3] [] with
  | [t; u; c] => Some (t, u, c)
  | _ => None
  end.

Definition numbered (n : nat) (f : bytes * bytes * bytes) : DocInfo :=
  mkDoc (Z.of_nat n) f.1.1 f.1.2 f.2.

(** The documents with the given fields, numbered from [n] on. *)
Fixpoint number_from (n : nat) (fs : list (bytes * bytes * bytes)) : list DocInfo :=
  match fs with
  | [] => []
  | f :: fs => numbered n f :: number_from (S n) fs
  end.

Lemma BuildForward_eq idx line :
  (Z.of_nat (length (forward_index idx)) < 2 ^ 63)%Z →
  BuildForward idx line =
    match line_fields line with
    | Some f => (Some (length (forward_index idx)),
                 mkIndex (forward_index idx ++ [numbered (length (forward_index idx)) f])
                         (inverted_index idx) (jieba idx))
    | None => (None, idx)
    end.
Proof.
  intros Hlt. unfold BuildForward, line_fields.
  destruct (Util.Split line [chr 3] []) as [|t [|u [|c []]]]; try done.
  by rewrite to_int64_small by lia.
Qed.

(** Documents that all fit in [int] weights. *)
Definition fields_fit (j : Jieba) (f : bytes * bytes * bytes) : Prop := doc_fits j (numbered 0 f).

Lemma index_ok_new : index_ok Index_new.
Proof. split; cbn; [done|done|]. intros w. by rewrite lookup_empty. Qed.

Lemma posting_nil j w d : posting j w d = [] ↔ w ∉ doc_tokens j d.
Proof. unfold posting. case_bool_decide; naive_solver. Qed.

(** One line keeps the index right. *)
Lemma Build_step_ok `{!UnorderedIterLaws} idx line :
  index_ok idx → (Z.of_nat (length (forward_index idx)) < 2 ^ 63)%Z →
  (∀ f, line_fields line = Some f → fields_fit (jieba idx) f) →
  ∃ idx', Build_step idx line = Ret idx' ∧ index_ok idx' ∧ jieba idx' = jieba idx ∧
    forward_index idx' = forward_index idx ++
      number_from (length (forward_index idx)) (option_list (line_fields line)).
Proof.
  intros [Hids Hpost Hne] Hlt Hfit. unfold Build_step. rewrite BuildForward_eq by done.
  destruct (line_fields line) as [f|]; cbn [option_list number_from].
  2: { exists idx. rewrite app_nil_r. done. }
  specialize (Hfit f eq_refl). cbn [forward_index].
  rewrite lookup_app_r, Nat.sub_diag by lia. cbn.
  set (d := numbered (length (forward_index idx)) f).
  set (idx1 := mkIndex (forward_index idx ++ [d]) (inverted_index idx) (jieba idx)).
  destruct (BuildInverted_effect idx1 d) as (inv' & -> & Hinv); [exact Hfit|].
  subst idx1. cbn [forward_index inverted_index jieba] in *.
  eexists. split; [done|]. split; [|done]. split; cbn [forward_index inverted_index jieba].
  - intros i d' Hi. apply lookup_app_Some in Hi as [Hi|[Hi Hd]]; [by apply Hids|].
    apply list_lookup_singleton_Some in Hd as [Hz <-]. cbn. lia.
  - intros w. unfold postings. rewrite bind_app. fold (postings (jieba idx) (forward_index idx) w).
    rewrite <-Hpost, Hinv. cbn. rewrite app_nil_r. unfold posting.
    case_bool_decide; [done|]. by rewrite app_nil_r.
  - intros w. rewrite Hinv. case_bool_decide; [|apply Hne]. intros [= Hnil].
    by apply app_eq_nil in Hnil as [_ ?].
Qed.

(** The fields of the records of a file. *)
Definition text_fields (text : bytes) : list (bytes * bytes * bytes) :=
  omap line_fields (getlines text).

Lemma number_from_app n fs gs :
  number_from n (fs ++ gs) = number_from n fs ++ number_from (n + length fs) gs.
Proof.
  revert n. induction fs as [|f fs IH]; intros n; cbn; [by rewrite Nat.add_0_r|].
  by rewrite IH, Nat.add_succ_r.
Qed.

Lemma length_number_from n fs : length (number_from n fs) = length fs.
Proof. revert n. induction fs as [|f fs IH]; intros n; cbn; [done|]. by rewrite IH. Qed.

Lemma Build_loop `{!UnorderedIterLaws} lines idx :
  index_ok idx →
  (Z.of_nat (length (forward_index idx) + length lines) < 2 ^ 63)%Z →
  Forall (fields_fit (jieba idx)) (omap line_fields lines) →
  ∃ idx', foldM Build_step lines idx = Ret idx' ∧ index_ok idx' ∧ jieba idx' = jieba idx ∧
    forward_index idx' = forward_index idx ++
      number_from (length (forward_index idx)) (omap line_fields lines).
Proof.
  revert idx. induction lines as [|line lines IH]; intros idx Hok Hlen Hfit; cbn [foldM].
  { exists idx. by rewrite app_nil_r. }
  cbn [length] in Hlen.
  assert (omap line_fields (line :: lines) =
          option_list (line_fields line) ++ omap line_fields lines) as Hom.
  { cbn. by destruct (line_fields line). }
  rewrite Hom in Hfit |- *. apply Forall_app in Hfit as [Hfit1 Hfit].
  destruct (Build_step_ok idx line) as (idx1 & -> & Hok1 & Hj1 & Hf1); [done|lia| |].
  { intros f Hf. rewrite Hf in Hfit1. by inversion Hfit1. }
  destruct (IH idx1) as (idx' & Hb & Hok' & Hj' & Hf'); [done| |by rewrite Hj1|].
  { rewrite Hf1, length_app, length_number_from.
    assert (length (option_list (line_fields line)) ≤ 1) by (destruct (line_fields line); cbn; lia).
    lia. }
  exists idx'. cbn [mbind outcome_bind]. split; [done|]. split; [done|]. split; [congruence|].
  rewrite Hf', Hf1, length_app, length_number_from, number_from_app. by rewrite <-app_assoc.
Qed.

Lemma GetDocInfo_iff idx id d :
  index_ok idx → (Z.of_nat (length (forward_index idx)) < 2 ^ 63)%Z →
  (- 2 ^ 63 <= id < 2 ^ 63)%Z →
  GetDocInfo idx id = Some d ↔ d ∈ forward_index idx ∧ doc_id d = id.
Proof.
  intros Hok Hlen Hid. unfold GetDocInfo.
  destruct (Z.ltb_spec id 0) as [Hneg|Hpos]; cbn [orb].
  { split; [done|]. intros [[i Hi]%list_elem_of_lookup <-].
    rewrite (ok_ids _ Hok i d Hi) in Hneg. lia. }
  rewrite to_uint64_small by lia. destruct (Z.leb_spec (Z.of_nat (length (forward_index idx))) id).
  - split; [done|]. intros [[i Hi]%list_elem_of_lookup <-].
    rewrite (ok_ids _ Hok i d Hi) in *. apply lookup_lt_Some in Hi. lia.
  - split.
    + intros Hd. split; [by eapply list_elem_of_lookup_2|].
      rewrite (ok_ids _ Hok _ _ Hd). lia.
    + intros [[i Hi]%list_elem_of_lookup <-]. by rewrite (ok_ids _ Hok i d Hi), Nat2Z.id.
Qed.

Lemma elem_of_postings j docs w h :
  h ∈ postings j docs w ↔
  ∃ d, d ∈ docs ∧ w ∈ doc_tokens j d ∧ h = mkWeight (doc_id d) (doc_weight j d w) w.
Proof.
  unfold postings. rewrite list_elem_of_bind. unfold posting. split.
  - intros (d & Hh & Hd). exists d. case_bool_decide; set_solver.
  - intros (d & Hd & Hw & ->). exists d. rewrite bool_decide_true by done. set_solver.
Qed.

(** ** Properties *)

(** C2: refinement. On an index that is right (a new one, say), [Build] neither
    throws nor overflows, provided the weights of each document fit in [int]; it
    returns true, numbers the records of the file consecutively in file order
    (lines that are not records are skipped), and the resulting inverted index
    maps every word to exactly the postings of the documents that contain it,
    weighing ten per occurrence in the title and one per occurrence in the text. *)
Theorem Build_refines `{!UnorderedIterLaws} files idx path text :
  index_ok idx → files !! path = Some text →
  (Z.of_nat (length (forward_index idx) + length (getlines text)) < 2 ^ 63)%Z →
  Forall (fields_fit (jieba idx)) (text_fields text) →
  ∃ idx', Build files idx path = Ret (true, idx') ∧ jieba idx' = jieba idx ∧
    forward_index idx' = forward_index idx ++
      number_from (length (forward_index idx)) (text_fields text) ∧
    (∀ w, default [] (GetInvertedList idx' w) = postings (jieba idx) (forward_index idx') w) ∧
    index_ok idx'.
Proof.
  intros Hok Hf Hlen Hfit.
  destruct (Build_loop (getlines text) idx Hok Hlen Hfit) as (idx' & Hb & Hok' & Hj & Hfw).
  exists idx'. unfold Build. rewrite Hf, Hb. split_and!; try done.
  intros w. rewrite <-Hj. apply (ok_postings _ Hok').
Qed.

(** The documents determine the index. *)
Lemma index_ok_unique idx idx' :
  index_ok idx → index_ok idx' →
  forward_index idx = forward_index idx' → jieba idx = jieba idx' → idx = idx'.
Proof.
  intros Hok Hok' Hf Hj. destruct idx as [f inv j], idx' as [f' inv' j']. cbn in *. subst f' j'.
  f_equal. apply map_eq. intros w.
  pose proof (ok_postings _ Hok w) as E. pose proof (ok_postings _ Hok' w) as E'.
  pose proof (ok_nonempty _ Hok w) as N. pose proof (ok_nonempty _ Hok' w) as N'. cbn in *.
  rewrite <-E' in E. destruct (inv !! w), (inv' !! w); cbn in *; congruence.
Qed.

(** [GetDocInfo] returns null exactly when no document has the id, and
    otherwise the document with it; negative ids and ids past the end are
    rejected although the second comparison is unsigned. *)
Theorem GetDocInfo_spec idx id :
  index_ok idx → (Z.of_nat (length (forward_index idx)) < 2 ^ 63)%Z →
  (- 2 ^ 63 <= id < 2 ^ 63)%Z →
  (∀ d, GetDocInfo idx id = Some d ↔ d ∈ forward_index idx ∧ doc_id d = id) ∧
  (GetDocInfo idx id = None ↔ ∀ d, d ∈ forward_index idx → doc_id d ≠ id).
Proof.
  intros Hok Hlen Hid. pose proof (λ d, GetDocInfo_iff idx id d Hok Hlen Hid) as Hiff.
  split; [done|]. destruct (GetDocInfo idx id) as [d0|] eqn:E; naive_solver.
Qed.

End Index.

(** The order in which the hash table of word counts is traversed, which the
    standard leaves open, does not show: two traversal orders build the same
    index. *)
Theorem Build_order_irrelevant `{CppJieba, BoostString} (it1 it2 : UnorderedIter)
    files idx path :
  @UnorderedIterLaws it1 → @UnorderedIterLaws it2 → index_ok idx →
  (∀ text, files !! path = Some text →
     (Z.of_nat (length (forward_index idx) + length (getlines text)) < 2 ^ 63)%Z ∧
     Forall (fields_fit (jieba idx)) (text_fields text)) →
  @Build _ _ it1 files idx path = @Build _ _ it2 files idx path.
Proof.
  intros L1 L2 Hok Htext. unfold Build. destruct (files !! path) as [text|]; [|done].
  destruct (Htext text eq_refl) as [Hlen Hfit].
  destruct (@Build_loop _ _ it1 L1 (getlines text) idx) as (i1 & -> & Hok1 & Hj1 & Hf1); [done..|].
  destruct (@Build_loop _ _ it2 L2 (getlines text) idx) as (i2 & -> & Hok2 & Hj2 & Hf2); [done..|].
  cbn. do 2 f_equal. apply index_ok_unique; congruence.
Qed.

End Index.
