(* ===== verification/Searcher.v ===== *)
(** * The searcher (class Searcher of src/doc_searcher/searcher/searcher.{h,cc})

    A query is segmented into words, the inverted lists of the words are
    concatenated and sorted by weight, and each hit is rendered as a JSON object
    with the title, the URL and a description cut out of the text. *)

From S2P Require Import Prelude CxxString Interfaces Util Index.
Import Index.

Module Searcher.

(** ** Operations *)

(** [desc[desc.size() - 1] = '.'; desc[desc.size() - 2] = '.'; ...] *)
Definition ellipsis (desc : bytes) : outcome bytes :=
  i ← size_sub (length desc) 1;
  desc ← str_set desc i "."%char;
  i ← size_sub (length desc) 2;
  desc ← str_set desc i "."%char;
  i ← size_sub (length desc) 3;
  str_set desc i "."%char.

Definition GenerateDesc (content word : bytes) : outcome bytes :=
  match find content word 0 with
  | None =>
      if length content <? 160 then Ret content
      else desc ← substr content 0 160; ellipsis desc
  | Some first_pos =>
      desc_beg ← (if first_pos <? 60 then Ret 0 else size_sub first_pos 60);
      if length content <=? desc_beg + 160 then substr_from content desc_beg
      else desc ← substr content desc_beg 160; ellipsis desc
  end.

Section Searcher.
Context `{CppJieba, BoostString, UnorderedIter, StdSort, JsonCpp}.

Record Searcher := mkSearcher { index : Index }.

(** [Searcher() : index(new Index())] *)
Definition Searcher_new : Searcher := mkSearcher Index_new.

Definition Init (files : file_store) (s : Searcher) (input_path : bytes) :
    outcome (bool * Searcher) :=
  '(ret, idx) ← Build files (index s) input_path;
  Ret (ret, mkSearcher idx).

(** The body of the loop over the words of the query. *)
Definition trigger (idx : Index) (all_token_result : list Weight) (word : bytes) : list Weight :=
  match GetInvertedList idx (boost_to_lower word) with
  | None => all_token_result
  | Some inverted_list => all_token_result ++ inverted_list
  end.

(** [w1.weight > w2.weight] *)
Definition heavier (w1 w2 : Weight) : bool := (weight w2 <? weight w1)%Z.

(** The body of the loop that packs the hits. *)
Definition pack (idx : Index) (results : Value) (w : Weight) : outcome Value :=
  match GetDocInfo idx (w_doc_id w) with
  | None => Undef NullDeref
  | Some doc_info =>
      desc ← GenerateDesc (content doc_info) (word w);
      let result := Value_set Value_null (lit "title") (title doc_info) in
      let result := Value_set result (lit "url") (url doc_info) in
      let result := Value_set result (lit "desc") desc in
      Ret (Value_append results result)
  end.

Definition Search (s : Searcher) (query : bytes) (output : bytes) : outcome (bool * bytes) :=
  let tokens := CutWord (index s) query [] in
  let all_token_result := foldl (trigger (index s)) [] tokens in
  let all_token_result := std_sort heavier all_token_result in
  results ← foldM (pack (index s)) all_token_result Value_null;
  Ret (true, FastWriter_write results).

End Searcher.

(** ** Descriptions *)

Lemma ellipsis_app p a b c : ellipsis (p ++ [a; b; c]) = Ret (p ++ lit "...").
Proof.
  assert (∀ x y z, length (p ++ [x; y; z]) = length p + 3) as Hlen by (intros; by rewrite length_app).
  assert (∀ l : bytes, ∀ i, i < length l → ∀ k, k = length p + i →
    ∀ x, str_set (p ++ l) k x = Ret (p ++ <[i:=x]> l)) as Hset.
  { intros l i Hi k -> x. rewrite str_set_ok by (rewrite length_app; lia). by rewrite insert_app_r. }
  unfold ellipsis. rewrite Hlen, size_sub_ok by lia. cbn [mbind outcome_bind].
  rewrite (Hset _ 2) by (cbn; lia). cbn -[length app]. rewrite Hlen, size_sub_ok by lia.
  cbn -[length app]. rewrite (Hset _ 1) by (cbn; lia). cbn -[length app].
  rewrite Hlen, size_sub_ok by lia. cbn -[length app]. by rewrite (Hset _ 0) by (cbn; lia).
Qed.

Lemma ellipsis_eq desc :
  3 ≤ length desc → ellipsis desc = Ret (take (length desc - 3) desc ++ lit "...").
Proof.
  intros Hlen. set (n := length desc - 3).
  assert (length (drop n desc) = 3) as Hd by (rewrite length_drop; lia).
  rewrite <-(take_drop n desc) at 1.
  destruct (drop n desc) as [|a [|b [|c []]]]; try done. apply ellipsis_app.
Qed.

(** The description as a function of the text: everything, or 157 characters
    and three dots, from the start or from 60 characters before the word. *)
Definition desc_of (content word : bytes) : bytes :=
  match find content word 0 with
  | None => if length content <? 160 then content else take 157 content ++ lit "..."
  | Some pos =>
      if length content <=? (pos - 60) + 160 then drop (pos - 60) content
      else take 157 (drop (pos - 60) content) ++ lit "..."
  end.

Lemma window_ellipsis content beg :
  beg + 160 ≤ length content →
  (desc ← substr content beg 160; ellipsis desc) = Ret (take 157 (drop beg content) ++ lit "...").
Proof.
  intros Hlen. rewrite substr_ok by lia. cbn [mbind outcome_bind].
  assert (length (take 160 (drop beg content)) = 160) as Hw.
  { rewrite length_take, length_drop. lia. }
  rewrite ellipsis_eq by lia. rewrite Hw, take_take. done.
Qed.

Lemma GenerateDesc_eq content word : GenerateDesc content word = Ret (desc_of content word).
Proof.
  unfold GenerateDesc, desc_of. destruct (find content word 0) as [pos|] eqn:Hf.
  - apply find_bound in Hf.
    assert ((if pos <? 60 then Ret 0 else size_sub pos 60) = Ret (pos - 60)) as ->.
    { destruct (Nat.ltb_spec pos 60); [f_equal; lia|]. by apply size_sub_ok. }
    cbn [mbind outcome_bind]. destruct (Nat.leb_spec (length content) (pos - 60 + 160)).
    + by rewrite substr_from_ok by lia.
    + by apply window_ellipsis; lia.
  - destruct (Nat.ltb_spec (length content) 160); [done|].
    rewrite window_ellipsis by lia. by rewrite drop_0.
Qed.

Lemma length_desc_of content word : length (desc_of content word) ≤ 160.
Proof.
  unfold desc_of. destruct (find content word 0) as [pos|] eqn:Hf.
  - destruct (Nat.leb_spec (length content) (pos - 60 + 160)).
    + rewrite length_drop. lia.
    + rewrite length_app, length_take, length_drop. change (length (lit "...")) with 3. lia.
  - destruct (Nat.ltb_spec (length content) 160); [lia|].
    rewrite length_app, length_take. change (length (lit "...")) with 3. lia.
Qed.

Lemma occurs_at_take p s i n : occurs_at p s i → i + length p ≤ n → occurs_at p (take n s) i.
Proof.
  rewrite !occurs_at_split. intros (a & b & -> & <-) Hn.
  exists a, (take (n - length a - length p) b). split; [|done].
  rewrite take_app_ge by lia. f_equal. rewrite take_app_ge by lia. done.
Qed.

Lemma occurs_at_app_l p s t i : occurs_at p s i → occurs_at p (s ++ t) i.
Proof.
  rewrite !occurs_at_split. intros (a & b & -> & <-). exists a, (b ++ t).
  by rewrite <-!app_assoc.
Qed.

Lemma desc_of_shows content word i :
  occurs_at word content i → length word ≤ 97 → ∃ k, occurs_at word (desc_of content word) k.
Proof.
  intros Ho Hlen. unfold desc_of. destruct (find content word 0) as [pos|] eqn:Hf.
  2: { rewrite find_None in Hf. by apply Hf in Ho; [|lia]. }
  apply find_Some in Hf as (_ & Hp & _).
  assert (occurs_at word (drop (pos - 60) content) (pos - (pos - 60))) as Hd.
  { apply occurs_at_drop; [destruct Hp; lia|]. by replace (pos - 60 + (pos - (pos - 60))) with pos by lia. }
  exists (pos - (pos - 60)). destruct (_ <=? _); [done|].
  apply occurs_at_app_l, occurs_at_take; [done|lia].
Qed.

(** C6: [GenerateDesc] always returns (no index leaves the string, no
    subtraction wraps, [substr] never throws) a description of at most 160
    characters; it is a piece of the text, possibly with three dots in place of
    what follows; and it shows the word whenever the text contains it and the
    word has at most 97 characters. *)
Theorem GenerateDesc_spec content word :
  ∃ desc, GenerateDesc content word = Ret desc ∧ length desc ≤ 160 ∧
    (∃ beg, desc = drop beg content ∨ desc = take 157 (drop beg content) ++ lit "...") ∧
    ((∃ i, occurs_at word content i) → length word ≤ 97 → ∃ k, occurs_at word desc k).
Proof.
  exists (desc_of content word). split; [apply GenerateDesc_eq|]. split; [apply length_desc_of|].
  split; [|intros [i Hi]; by apply (desc_of_shows _ _ i)].
  unfold desc_of. destruct (find content word 0) as [pos|].
  - exists (pos - 60). destruct (_ <=? _); auto.
  - exists 0. rewrite drop_0. destruct (_ <? _); auto.
Qed.

(** ** Queries *)

Section Queries.
Context `{CppJieba, BoostString, UnorderedIter, StdSort, JsonCpp}.

(** The hits of a query, before they are sorted: the postings of its words. *)
Definition hits_of (idx : Index) (query : bytes) : list Weight :=
  tokens (jieba idx) query ≫= postings (jieba idx) (forward_index idx).

(** What is shown for a hit of [w] in [d]. *)
Definition entry (d : DocInfo) (h : Weight) : Value :=
  Value_set (Value_set (Value_set Value_null (lit "title") (title d))
                       (lit "url") (url d))
            (lit "desc") (desc_of (content d) (word h)).

(** [d] is the document the hit [h] points to. *)
Definition hit_doc (idx : Index) (h : Weight) (d : DocInfo) : Prop :=
  d ∈ forward_index idx ∧ doc_id d = w_doc_id h.

Lemma trigger_loop idx l acc :
  index_ok idx →
  foldl (trigger idx) acc l =
    acc ++ ((boost_to_lower <$> l) ≫= postings (jieba idx) (forward_index idx)).
Proof.
  intros Hok. revert acc. induction l as [|w l IH]; intros acc; cbn [foldl].
  { cbn. by rewrite app_nil_r. }
  rewrite IH. cbn. rewrite <-(ok_postings _ Hok). unfold trigger, GetInvertedList.
  destruct (inverted_index idx !! boost_to_lower w); cbn; [by rewrite <-app_assoc|done].
Qed.

Lemma hits_of_doc idx query h :
  h ∈ hits_of idx query → ∃ d, hit_doc idx h d.
Proof.
  unfold hits_of. rewrite list_elem_of_bind. intros (w & Hh & _).
  apply elem_of_postings in Hh as (d & Hd & _ & ->). by exists d.
Qed.

Lemma pack_ok idx v h d :
  index_ok idx → (Z.of_nat (length (forward_index idx)) < 2 ^ 63)%Z → hit_doc idx h d →
  pack idx v h = Ret (Value_append v (entry d h)).
Proof.
  intros Hok Hlen [Hd Hid]. unfold pack.
  assert (GetDocInfo idx (w_doc_id h) = Some d) as ->.
  { apply GetDocInfo_iff; [done|done| |done].
    apply list_elem_of_lookup in Hd as [i Hi]. rewrite <-Hid, (ok_ids _ Hok _ _ Hi).
    apply lookup_lt_Some in Hi. lia. }
  by rewrite GenerateDesc_eq.
Qed.

Lemma pack_loop idx hits v :
  index_ok idx → (Z.of_nat (length (forward_index idx)) < 2 ^ 63)%Z →
  Forall (λ h, ∃ d, hit_doc idx h d) hits →
  ∃ docs, Forall2 (hit_doc idx) hits docs ∧
    foldM (pack idx) hits v = Ret (foldl Value_append v (zip_with entry docs hits)).
Proof.
  intros Hok Hlen Hh. revert v. induction Hh as [|h hits [d Hd] _ IH]; intros v; cbn [foldM].
  { exists []. split; [constructor|done]. }
  rewrite (pack_ok idx v h d) by done. cbn [mbind outcome_bind].
  destruct (IH (Value_append v (entry d h))) as (docs & Hdocs & ->).
  exists (d :: docs). split; [by constructor|done].
Qed.

Lemma heavier_asym x y : heavier x y = true → heavier y x = false.
Proof. unfold heavier. rewrite Z.ltb_lt, Z.ltb_ge. lia. Qed.

Lemma heavier_trans x y z : heavier y x = false → heavier z y = false → heavier z x = false.
Proof. unfold heavier. rewrite !Z.ltb_ge. lia. Qed.

Lemma heavier_sorted l :
  StronglySorted (λ x y, heavier y x = false) l → StronglySorted (λ x y, (weight y <= weight x)%Z) l.
Proof.
  induction 1 as [|x l _ IH Hx]; constructor; [done|].
  eapply Forall_impl; [done|]. intros y Hy. unfold heavier in Hy. apply Z.ltb_ge in Hy. lia.
Qed.

(** The ids of an index that is right are pairwise different. *)
Lemma ok_split idx d :
  index_ok idx → d ∈ forward_index idx →
  ∃ l1 l2, forward_index idx = l1 ++ d :: l2 ∧
    Forall (λ x, doc_id x ≠ doc_id d) l1 ∧ Forall (λ x, doc_id x ≠ doc_id d) l2.
Proof.
  intros Hok [i Hi]%list_elem_of_lookup. exists (take i (forward_index idx)), (drop (S i) (forward_index idx)).
  split; [by rewrite take_drop_middle|].
  assert (∀ k x, k ≠ i → forward_index idx !! k = Some x → doc_id x ≠ doc_id d) as Hne.
  { intros k x Hk Hx. rewrite (ok_ids _ Hok _ _ Hx), (ok_ids _ Hok _ _ Hi). lia. }
  split; apply Forall_lookup; intros k x Hx.
  - apply lookup_take_Some in Hx as [Hx ?]. apply (Hne k); [lia|done].
  - rewrite lookup_drop in Hx. apply (Hne (S i + k)); [lia|done].
Qed.

Lemma filter_posting_other j w id docs :
  Forall (λ x, doc_id x ≠ id) docs → filter (λ h, w_doc_id h = id) (postings j docs w) = [].
Proof.
  intros Hall. unfold postings. induction Hall as [|x docs Hx _ IH]; [done|].
  cbn. rewrite filter_app, IH, app_nil_r. unfold posting. case_bool_decide; [|done].
  rewrite filter_cons, decide_False by done. done.
Qed.

(** A word has one posting per document that contains it. *)
Lemma filter_postings idx w d :
  index_ok idx → d ∈ forward_index idx →
  filter (λ h, w_doc_id h = doc_id d) (postings (jieba idx) (forward_index idx) w) =
    posting (jieba idx) w d.
Proof.
  intros Hok Hd. destruct (ok_split idx d Hok Hd) as (l1 & l2 & -> & H1' & H2').
  unfold postings. rewrite bind_app, bind_cons, !filter_app.
  fold (postings (jieba idx) l1 w) (postings (jieba idx) l2 w).
  rewrite !filter_posting_other by done. rewrite app_nil_r, app_nil_l.
  unfold posting. case_bool_decide; [|done]. by rewrite filter_cons, decide_True by done.
Qed.

(** The JSON value of a list of hits and their documents. *)
Definition rendered (docs : list DocInfo) (hits : list Weight) : Value :=
  foldl Value_append Value_null (zip_with entry docs hits).

(** [Search] on an index that is right, in terms of [hits_of]. *)
Lemma Search_eq s query out :
  index_ok (index s) → (Z.of_nat (length (forward_index (index s))) < 2 ^ 63)%Z →
  (∀ (lt : Weight → Weight → bool) l, std_sort lt l ≡ₚ l) →
  let hits := std_sort heavier (hits_of (index s) query) in
  ∃ docs, Forall2 (hit_doc (index s)) hits docs ∧
    Search s query out = Ret (true, FastWriter_write (rendered docs hits)).
Proof.
  intros Hok Hlen Hperm hits.
  destruct (pack_loop (index s) hits Value_null Hok Hlen) as (docs & Hdocs & Hl).
  { apply Forall_forall. intros h Hh. apply (hits_of_doc _ query). unfold hits in Hh.
    by rewrite Hperm in Hh. }
  exists docs. split; [done|]. unfold Search, CutWord. rewrite trigger_loop, app_nil_l by done.
  fold (tokens (jieba (index s)) query). fold (hits_of (index s) query). fold hits.
  by rewrite Hl.
Qed.

(** C3: on an index that is right, [Search] never dereferences null and returns
    true; its output is the JSON array of the hits of the words of the query,
    heaviest first, each shown with the title, the URL and a description of the
    document it points to. *)
Theorem Search_spec `{!StdSortLaws} s query out :
  index_ok (index s) → (Z.of_nat (length (forward_index (index s))) < 2 ^ 63)%Z →
  ∃ hits docs,
    Search s query out = Ret (true, FastWriter_write (rendered docs hits)) ∧
    hits ≡ₚ hits_of (index s) query ∧
    StronglySorted (λ x y, (weight y <= weight x)%Z) hits ∧
    Forall2 (hit_doc (index s)) hits docs.
Proof.
  intros Hok Hlen.
  destruct (Search_eq s query out Hok Hlen) as (docs & Hdocs & HS); [apply std_sort_permutation|].
  exists (std_sort heavier (hits_of (index s) query)), docs. split; [done|].
  split; [apply std_sort_permutation|]. split; [|done].
  apply heavier_sorted, std_sort_sorted; [apply heavier_asym|apply heavier_trans].
Qed.

(** The hits of a query in one document, in the order of the words. *)
Lemma filter_hits_of idx query d :
  index_ok idx → d ∈ forward_index idx →
  filter (λ h, w_doc_id h = doc_id d) (hits_of idx query) =
    tokens (jieba idx) query ≫= λ w, posting (jieba idx) w d.
Proof.
  intros Hok Hd. unfold hits_of. induction (tokens (jieba idx) query) as [|w l IH]; [done|].
  rewrite !bind_cons, filter_app, IH. by rewrite filter_postings by done.
Qed.

Lemma length_postings_of j d l :
  length (l ≫= λ w, posting j w d) = length (filter (λ w, w ∈ doc_tokens j d) l).
Proof.
  induction l as [|w l IH]; [done|]. rewrite bind_cons, filter_cons, length_app, IH.
  unfold posting. case_bool_decide; case_decide; done.
Qed.

(** C9: the hits a query shows are exact. On an index that is right, [Search]
    answers with the JSON text of a list of hits, each shown with the document
    it points to, and a document is hit exactly by the words of the query it
    contains, in the lower case [to_lower] gives both sides, with its weight for
    the word; it is listed once per such word of the query: a document that
    contains two words of the query appears twice. *)
Theorem hits_exact `{!StdSortLaws} s query out :
  index_ok (index s) → (Z.of_nat (length (forward_index (index s))) < 2 ^ 63)%Z →
  ∃ hits docs,
    Search s query out = Ret (true, FastWriter_write (rendered docs hits)) ∧
    Forall2 (hit_doc (index s)) hits docs ∧
    ∀ d, d ∈ forward_index (index s) →
      (∀ h, h ∈ hits ∧ w_doc_id h = doc_id d ↔
         ∃ w, w ∈ tokens (jieba (index s)) query ∧ w ∈ doc_tokens (jieba (index s)) d ∧
              h = mkWeight (doc_id d) (doc_weight (jieba (index s)) d w) w) ∧
      length (filter (λ h, w_doc_id h = doc_id d) hits) =
        length (filter (λ w, w ∈ doc_tokens (jieba (index s)) d) (tokens (jieba (index s)) query)).
Proof.
  intros Hok Hlen.
  destruct (Search_eq s query out Hok Hlen) as (docs & Hdocs & HS); [apply std_sort_permutation|].
  set (hits := std_sort heavier (hits_of (index s) query)) in *.
  exists hits, docs. split; [done|]. split; [done|]. intros d Hd.
  assert (filter (λ h, w_doc_id h = doc_id d) hits ≡ₚ
          tokens (jieba (index s)) query ≫= λ w, posting (jieba (index s)) w d) as Hf.
  { rewrite <-filter_hits_of by done. unfold hits. by rewrite std_sort_permutation. }
  split; [|by rewrite Hf, length_postings_of]. intros h.
  assert (h ∈ hits ∧ w_doc_id h = doc_id d ↔ h ∈ filter (λ h, w_doc_id h = doc_id d) hits) as ->.
  { rewrite list_elem_of_filter. tauto. }
  rewrite Hf, list_elem_of_bind. unfold posting. split.
  - intros (w & Hh & Hw). exists w. case_bool_decide; set_solver.
  - intros (w & Hw & Hdw & ->). exists w. rewrite bool_decide_true by done. set_solver.
Qed.

(** A query none of whose words is in the index yields the JSON text of the
    null value, which the page tests for. *)
Theorem Search_none `{!StdSortLaws} s query out :
  (∀ w, w ∈ tokens (jieba (index s)) query → GetInvertedList (index s) w = None) →
  Search s query out = Ret (true, FastWriter_write Value_null).
Proof.
  intros Hnone. unfold Search, CutWord.
  assert (∀ l, (∀ w, w ∈ boost_to_lower <$> l → GetInvertedList (index s) w = None) →
    foldl (trigger (index s)) [] l = []) as Hl.
  { intros l. induction l as [|w l IH]; intros Hw; [done|]. cbn [foldl].
    unfold trigger at 2. rewrite Hw by (cbn; left). apply IH. set_solver. }
  rewrite Hl by done.
  assert (std_sort heavier [] = []) as -> by (apply Permutation_nil_r, std_sort_permutation).
  done.
Qed.

End Queries.

End Searcher.
