(* ===== verification/Programs.v ===== *)
(** * The programs built on the searcher

    The HTTP server (src/doc_searcher/http_server/http_server.cc) and the two
    command-line programs beside the searcher: searcher_test.cc, which answers
    the words typed at a prompt, and index_test.cc, which lists the documents
    that contain a fixed word. *)

From S2P Require Import Prelude CxxString Interfaces Util Index Searcher.
From stdpp Require Import pretty.
Import Index Searcher.

Definition raw_input_path : bytes := lit "../data/tmp/raw_input.txt".

(** ** The HTTP server *)
Module HttpServer.
Section HttpServer.
Context `{CppJieba, BoostString, UnorderedIter, StdSort, JsonCpp, HttpLib}.

(** The error text, in the encoding of the source file. *)
Definition bad_request_text : bytes :=
  chr <$> [199; 235; 199; 243; 178; 206; 202; 253; 180; 237; 206; 243].

(** The handler registered for GET /searcher: the response, and the console, to which
    the result is printed too. *)
Definition handle_searcher (searcher : Searcher) (req : Request) (resp : Response) (cout : bytes) :
    outcome (Response * bytes) :=
  if negb (has_param req (lit "query")) then
    Ret (set_content resp bad_request_text (lit "text/plain;charset=utf-8"), cout)
  else
    let query := get_param_value req (lit "query") in
    '(_, results) ← Search searcher query [];
    Ret (set_content resp results (lit "application/json;charset=utf-8"), cout ++ results ++ [newline]).

(** [main] up to the call of [listen]: the exit code when the index cannot be
    built, otherwise the searcher the handlers share. *)
Definition main_init (files : file_store) : outcome (Z + Searcher) :=
  '(ret, searcher) ← Init files Searcher_new raw_input_path;
  if negb ret then Ret (inl 1%Z) else Ret (inr searcher).

(** What [main] tells httplib: the path of the handler, the directory of static files,
    and where to listen. *)
Record server_setup := mkSetup { route : bytes; base_dir : bytes; host : bytes; port : Z }.
Definition setup : server_setup := mkSetup (lit "/searcher") (lit "./wwwroot") (lit "0.0.0.0") 10001.

(** The message when the index cannot be built, in the encoding of the source file. *)
Definition init_failed_text : bytes :=
  lit "Searcher" ++ (chr <$> [179; 245; 202; 188; 187; 175; 202; 167; 176; 220]).

(** [main]: the exit code with what was printed, or the server that listens. *)
Definition main (files : file_store) : outcome (Z * bytes + Searcher * server_setup) :=
  r ← main_init files;
  Ret (match r with
       | inl code => inl (code, init_failed_text ++ [newline])
       | inr searcher => inr (searcher, setup)
       end).

(** Requests answered one after the other. *)
Fixpoint serve (searcher : Searcher) (reqs : list (Request * Response)) (cout : bytes) :
    outcome (list Response * bytes) :=
  match reqs with
  | [] => Ret ([], cout)
  | (req, resp) :: reqs =>
      '(resp, cout) ← handle_searcher searcher req resp cout;
      '(resps, cout) ← serve searcher reqs cout;
      Ret (resp :: resps, cout)
  end.

End HttpServer.

(** A byte sequence that is well-formed UTF-8 (RFC 3629). *)
Definition cont (c : ascii) : bool := let n := nat_of_ascii c in (128 <=? n) && (n <=? 191).
Definition in_range (lo hi : nat) (c : ascii) : bool := let n := nat_of_ascii c in (lo <=? n) && (n <=? hi).
Fixpoint utf8 (s : bytes) : bool :=
  match s with
  | [] => true
  | a :: s =>
      if in_range 0 127 a then utf8 s
      else match s with
           | [] => false
           | b :: s =>
               if in_range 194 223 a then cont b && utf8 s
               else match s with
                    | [] => false
                    | c :: s =>
                        if in_range 224 239 a then
                          cont b && cont c &&
                          (if in_range 224 224 a then in_range 160 191 b else true) &&
                          (if in_range 237 237 a then in_range 128 159 b else true) && utf8 s
                        else match s with
                             | [] => false
                             | d :: s =>
                                 in_range 240 244 a && cont b && cont c && cont d &&
                                 (if in_range 240 240 a then in_range 144 191 b else true) &&
                                 (if in_range 244 244 a then in_range 128 143 b else true) && utf8 s
                             end
                    end
           end
  end.
End HttpServer.

(** ** searcher_test *)
Module SearcherTest.

(** [isspace] in the "C" locale. *)
Definition is_space (c : ascii) : bool :=
  let n := nat_of_ascii c in (n =? 32) || ((9 <=? n) && (n <=? 13)).

Fixpoint skip_space (s : bytes) : bytes :=
  match s with
  | [] => []
  | c :: s' => if is_space c then skip_space s' else s
  end.

Fixpoint break_space (s : bytes) : bytes * bytes :=
  match s with
  | [] => ([], [])
  | c :: s' => if is_space c then ([], s) else let '(w, r) := break_space s' in (c :: w, r)
  end.

(** [std::cin >> query]: the word, the characters left, and [cin.good()]
    afterwards. Running into the end of the input, also right after a word, sets
    the end-of-file bit. *)
Definition extract (s : bytes) : bytes * bytes * bool :=
  match skip_space s with
  | [] => ([], [], false)
  | s => let '(w, r) := break_space s in (w, r, bool_decide (r ≠ []))
  end.

Definition prompt : bytes := lit "searcher> ".

Section SearcherTest.
Context `{CppJieba, BoostString, UnorderedIter, StdSort, JsonCpp}.

(** The loop of [main]: what it writes to standard output. Every good
    extraction consumes a character, so [length s] rounds are enough; [None] is
    a loop that needs more rounds. *)
Fixpoint loop (n : nat) (searcher : Searcher) (input : bytes) (out : bytes) :
    option (outcome bytes) :=
  match n with
  | 0 => None
  | S n =>
      let out := out ++ prompt in
      let '(query, rest, good) := extract input in
      if negb good then Some (Ret (out ++ lit "goodbye" ++ [newline]))
      else match Search searcher query [] with
           | Ret (_, results) => loop n searcher rest (out ++ results ++ [newline])
           | Throw e => Some (Throw e)
           | Undef u => Some (Undef u)
           end
  end.

Definition searcher_test_main (files : file_store) (input : bytes) : option (outcome (Z * bytes)) :=
  match Init files Searcher_new raw_input_path with
  | Ret (true, searcher) => fmap (M := outcome) (λ out, (0%Z, out)) <$> loop (S (length input)) searcher input []
  | Ret (false, _) => Some (Ret (1%Z, []))
  | Throw e => Some (Throw e)
  | Undef u => Some (Undef u)
  end.

End SearcherTest.
End SearcherTest.

(** ** index_test *)
Module IndexTest.
Section IndexTest.
Context `{CppJieba, BoostString, UnorderedIter}.

Definition decimal (z : Z) : bytes := lit (pretty z).

Definition endl (s : bytes) : bytes := s ++ [newline].

Definition show_weight (idx : Index) (out : bytes) (w : Weight) : outcome bytes :=
  let out := out ++ endl (lit "doc_id:" ++ decimal (w_doc_id w) ++ lit "weight:" ++ decimal (weight w)) in
  match GetDocInfo idx (w_doc_id w) with
  | None => Undef NullDeref
  | Some d =>
      Ret (out ++ endl (lit "title:" ++ title d) ++ endl (lit "url:" ++ url d) ++
           endl (lit "content:" ++ content d) ++
           endl (lit "================================================================"))
  end.

(** The loop after [Build]: [*inverted_list] is read without a test for null. *)
Definition show (idx : Index) : outcome bytes :=
  match GetInvertedList idx (lit "filesystem") with
  | None => Undef NullDeref
  | Some l => foldM (show_weight idx) l []
  end.

Definition index_test_main (files : file_store) : outcome (Z * bytes) :=
  '(ret, idx) ← Build files Index_new raw_input_path;
  if negb ret then Ret (1%Z, []) else
  out ← show idx;
  Ret (0%Z, out).

End IndexTest.
End IndexTest.

(** ** Properties of the server *)
Module HttpServerProps.
Import HttpServer.
Section Props.
Context `{CppJieba, BoostString, UnorderedIter, StdSort, JsonCpp, HttpLib, !StdSortLaws, !UnorderedIterLaws}.

(** What [Search] writes on an index that is right. *)
Lemma Search_returns s query :
  index_ok (index s) → (Z.of_nat (length (forward_index (index s))) < 2 ^ 63)%Z →
  ∃ results, ∀ out, Search s query out = Ret (true, results).
Proof.
  intros Hok Hlen.
  destruct (Search_eq s query [] Hok Hlen) as (docs & _ & Hs); [apply std_sort_permutation|].
  eexists. intros out. exact Hs.
Qed.

(** What is answered and what is printed for a request, when the searcher answers [f]. *)
Definition answer (f : bytes → bytes) (r : Request * Response) : Response :=
  if has_param r.1 (lit "query")
  then set_content r.2 (f (get_param_value r.1 (lit "query"))) (lit "application/json;charset=utf-8")
  else set_content r.2 bad_request_text (lit "text/plain;charset=utf-8").
Definition printed (f : bytes → bytes) (r : Request * Response) : bytes :=
  if has_param r.1 (lit "query") then f (get_param_value r.1 (lit "query")) ++ [newline] else [].

Lemma serve_answers s f reqs cout :
  (∀ q, Search s q [] = Ret (true, f q)) →
  serve s reqs cout = Ret (answer f <$> reqs, cout ++ mjoin (printed f <$> reqs)).
Proof.
  intros Hf. revert cout. induction reqs as [|[req resp] reqs IH]; intros cout; cbn; [by rewrite app_nil_r|].
  unfold handle_searcher, answer, printed. cbn [fst snd].
  destruct (has_param req (lit "query")); cbn [negb]; [rewrite Hf|]; cbn; rewrite IH; cbn; [|done].
  by rewrite <-!app_assoc.
Qed.

(** C10: the HTTP server over the preprocessed file listens on port 10001, and answers
    every sequence of requests to /searcher, each on its own: one without a query
    parameter by the error text, one with it by the JSON text [Search] writes for its
    value, which is printed on the console as well. When there is no preprocessed
    file it prints a message and returns 1. *)
Theorem handle_searcher_spec files text :
  files !! raw_input_path = Some text →
  (Z.of_nat (length (getlines text)) < 2 ^ 63)%Z →
  Forall (fields_fit (jieba Index_new)) (text_fields text) →
  (∃ s f, main files = Ret (inr (s, setup)) ∧ port setup = 10001%Z ∧
     (∀ q, Search s q [] = Ret (true, f q)) ∧
     ∀ reqs cout, serve s reqs cout = Ret (answer f <$> reqs, cout ++ mjoin (printed f <$> reqs))) ∧
  main (delete raw_input_path files) = Ret (inl (1%Z, init_failed_text ++ [newline])).
Proof.
  intros Hf Hlen Hfit. split.
  2:{ unfold main, main_init, Init, Build. by rewrite lookup_delete_eq. }
  destruct (Build_loop (getlines text) Index_new) as (idx & Hb & Hok & Hj & Hfw);
    [apply index_ok_new|done|done|].
  assert (Z.of_nat (length (forward_index (index (mkSearcher idx)))) < 2 ^ 63)%Z as Hsmall.
  { cbn [index]. rewrite Hfw. cbn [forward_index Index_new app]. rewrite length_number_from.
    assert (length (omap line_fields (getlines text)) ≤ length (getlines text)) by apply length_omap_le. lia. }
  set (s := mkSearcher idx). set (f := λ q, match Search s q [] with Ret (_, r) => r | _ => [] end).
  assert (∀ q, Search s q [] = Ret (true, f q)) as Hs.
  { intros q. destruct (Search_returns s q Hok Hsmall) as [r Hr]. unfold f. by rewrite !Hr. }
  exists s, f. split_and!; [|done|done|].
  - unfold main, main_init, Init, Build. cbn [index Searcher_new]. by rewrite Hf, Hb.
  - intros reqs cout. by apply serve_answers.
Qed.

(** The error answer declares UTF-8 but its body is not UTF-8: the text is
    in the encoding of the source file. *)
Theorem bad_request_not_utf8 searcher req resp cout :
  has_param req (lit "query") = false →
  ∃ body, handle_searcher searcher req resp cout =
            Ret (set_content resp body (lit "text/plain;charset=utf-8"), cout) ∧ utf8 body = false.
Proof.
  intros Hq. exists bad_request_text. unfold handle_searcher. rewrite Hq. split; reflexivity.
Qed.

End Props.
End HttpServerProps.

(** ** Properties of the prompt *)
Module SearcherTestProps.
Import SearcherTest.

(** A word that can be typed: not empty, without blanks. *)
Definition is_word (w : bytes) : Prop := w ≠ [] ∧ Forall (λ c, is_space c = false) w.

Lemma skip_space_word w s : is_word w → skip_space (w ++ s) = w ++ s.
Proof. intros [Hne Hw]. destruct Hw as [|c w Hc Hw]; [done|]. cbn. by rewrite Hc. Qed.

Lemma break_space_word w s : is_word w → break_space (w ++ newline :: s) = (w, newline :: s).
Proof.
  intros [_ Hw]. induction Hw as [|c w Hc _ IH]; [done|]. cbn [app break_space].
  by rewrite Hc, IH.
Qed.

Lemma break_space_last w : Forall (λ c, is_space c = false) w → break_space w = (w, []).
Proof. induction 1 as [|c w Hc _ IH]; [done|]. cbn. by rewrite Hc, IH. Qed.

Lemma extract_word w s : is_word w → extract (w ++ newline :: s) = (w, newline :: s, true).
Proof.
  intros Hw. unfold extract. rewrite skip_space_word, <-(break_space_word w s) by done.
  destruct w as [|c w]; [by destruct Hw|]. cbn [app]. destruct (break_space _) eqn:E.
  pose proof (break_space_word (c :: w) s Hw) as E'. cbn [app] in E'. rewrite E in E'.
  by injection E' as -> ->.
Qed.

(** A word that the end of the input cuts off leaves [cin] not good. *)
Lemma extract_last w : Forall (λ c, is_space c = false) w → (extract w).2 = false.
Proof.
  intros Hw. unfold extract. destruct w as [|c w]; [done|].
  rewrite <-(app_nil_r (c :: w)), skip_space_word, app_nil_r by done.
  by rewrite break_space_last by done.
Qed.

Lemma extract_newline s : extract (newline :: s) = extract s.
Proof. done. Qed.

Section Props.
Context `{CppJieba, BoostString, UnorderedIter, StdSort, JsonCpp}.

(** What the prompt prints for the words [ws], when the searcher answers [f]. *)
Definition transcript (f : bytes → bytes) (ws : list bytes) : bytes :=
  mjoin ((λ w, prompt ++ f w ++ [newline]) <$> ws).

Lemma loop_transcript s f ws last out n :
  (∀ w, Search s w [] = Ret (true, f w)) →
  Forall is_word ws → Forall (λ c, is_space c = false) last → length ws < n →
  ∀ b : bool, loop n s ((if b then [newline] else []) ++ unlines ws ++ last) out =
    Some (Ret (out ++ transcript f ws ++ prompt ++ lit "goodbye" ++ [newline])).
Proof.
  intros Hf Hws Hlast. revert n out. induction Hws as [|w ws Hw _ IH]; intros n out Hn b;
    (destruct n as [|n]; [cbn in Hn; lia|]).
  - cbn [loop unlines fmap list_fmap mjoin list_join app].
    assert (extract ((if b then [newline] else []) ++ last) = extract last) as ->.
    { destruct b; [apply extract_newline|done]. }
    pose proof (extract_last last Hlast) as Hg. destruct (extract last) as [[q r] g].
    cbn in Hg. subst g. cbn [negb]. by rewrite <-app_assoc.
  - assert (unlines (w :: ws) ++ last = w ++ newline :: (unlines ws ++ last)) as ->.
    { by rewrite unlines_cons, <-app_assoc. }
    cbn [loop].
    assert (extract ((if b then [newline] else []) ++ w ++ newline :: (unlines ws ++ last)) =
            (w, newline :: (unlines ws ++ last), true)) as ->.
    { destruct b; [cbn [app]; rewrite extract_newline|]; by apply extract_word. }
    cbn [negb]. rewrite Hf.
    rewrite (IH n _ ltac:(cbn in Hn; lia) true). unfold transcript. cbn.
    by rewrite <-!app_assoc.
Qed.

Lemma break_space_length s : length (break_space s).2 ≤ length s.
Proof.
  induction s as [|c s IH]; cbn; [lia|]. destruct (is_space c); cbn; [lia|].
  destruct (break_space s) as [w r]. cbn in *. lia.
Qed.

Lemma skip_space_length s : length (skip_space s) ≤ length s.
Proof. induction s as [|c s IH]; cbn; [lia|]. destruct (is_space c); cbn; lia. Qed.

Lemma skip_space_head s c s' : skip_space s = c :: s' → is_space c = false.
Proof.
  induction s as [|a s IH]; cbn; [done|]. destruct (is_space a) eqn:E; [done|].
  by intros [= <- <-].
Qed.

(** A good extraction consumes at least one character. *)
Lemma extract_progress s w r : extract s = (w, r, true) → length r < length s.
Proof.
  unfold extract. pose proof (skip_space_length s) as Hle.
  destruct (skip_space s) as [|c s'] eqn:E; [done|]. apply skip_space_head in E.
  cbn [break_space]. rewrite E. pose proof (break_space_length s') as Hb.
  destruct (break_space s') as [w' r']. cbn in *. intros [= <- <- _]. lia.
Qed.

(** The prompt always comes to an end: on any input the loop finishes within
    one round more than the input has characters. *)
Theorem loop_terminates s input out : loop (S (length input)) s input out ≠ None.
Proof.
  assert (∀ n s input out, length input < n → loop n s input out ≠ None) as Hgen.
  { clear. intros n s. induction n as [|n IH]; intros input out Hn; [lia|]. cbn [loop].
    destruct (extract input) as [[w r] [|]] eqn:E; cbn [negb]; [|done].
    apply extract_progress in E. destruct (Search s w []) as [[? ?]| |]; [|done..].
    apply IH. lia. }
  apply Hgen. lia.
Qed.

(** The prompt answers, in order, the words typed on the lines of the input
    and then says goodbye; a last word that is not followed by a newline is read
    but not answered, because reaching the end of the input while reading it
    makes [cin.good()] false. *)
Theorem loop_spec `{!StdSortLaws} s ws last :
  index_ok (index s) → (Z.of_nat (length (forward_index (index s))) < 2 ^ 63)%Z →
  Forall is_word ws → Forall (λ c, is_space c = false) last →
  ∃ f, (∀ w, Search s w [] = Ret (true, f w)) ∧
    loop (S (length (unlines ws ++ last))) s (unlines ws ++ last) [] =
      Some (Ret (transcript f ws ++ prompt ++ lit "goodbye" ++ [newline])).
Proof.
  intros Hok Hlen Hws Hlast.
  exists (λ w, match Search s w [] with Ret (_, r) => r | _ => [] end).
  assert (∀ w, Search s w [] = Ret (true, match Search s w [] with Ret (_, r) => r | _ => [] end)) as Hs.
  { intros w. destruct (Search_eq s w [] Hok Hlen) as (docs & _ & ->); [|done].
    apply std_sort_permutation. }
  split; [done|].
  rewrite <-(app_nil_l (unlines ws ++ last)) at 2.
  apply (loop_transcript s _ ws last [] _ Hs Hws Hlast) with (b := false).
  rewrite length_app. assert (length ws ≤ length (unlines ws)); [|lia].
  clear. induction ws as [|w ws IH]; [done|]. rewrite unlines_cons, length_app. cbn. lia.
Qed.

End Props.
End SearcherTestProps.

(** ** Properties of index_test *)
Module IndexTestProps.
Import IndexTest.
Section Props.
Context `{CppJieba, BoostString, UnorderedIter}.

(** On an index that is right, index_test runs into undefined behaviour (the
    null pointer [GetInvertedList] returned is dereferenced) exactly when no
    document contains the word "filesystem"; otherwise it prints its listing. *)
Theorem show_spec idx :
  index_ok idx → (Z.of_nat (length (forward_index idx)) < 2 ^ 63)%Z →
  (show idx = Undef NullDeref ↔
     ∀ d, d ∈ forward_index idx → lit "filesystem" ∉ doc_tokens (jieba idx) d) ∧
  ((∃ d, d ∈ forward_index idx ∧ lit "filesystem" ∈ doc_tokens (jieba idx) d) →
     ∃ out, show idx = Ret out).
Proof.
  intros Hok Hlen. unfold show. generalize (lit "filesystem"). intros fs.
  pose proof (ok_postings _ Hok fs) as Hp. pose proof (ok_nonempty _ Hok fs) as Hne.
  unfold GetInvertedList.
  destruct (inverted_index idx !! fs) as [l|] eqn:El; cbn in Hp.
  - assert (∃ out, foldM (show_weight idx) l [] = Ret out ∧ True) as (out & Hout & _).
    { apply foldM_inv; [done|]. intros out h Hh _. rewrite Hp in Hh.
      apply elem_of_postings in Hh as (d & Hd & _ & ->). unfold show_weight. cbn [w_doc_id].
      assert (GetDocInfo idx (doc_id d) = Some d) as ->; [|eauto].
      apply GetDocInfo_iff; [done|done| |done].
      apply list_elem_of_lookup in Hd as [i Hi]. rewrite (ok_ids _ Hok _ _ Hi).
      apply lookup_lt_Some in Hi. lia. }
    rewrite Hout. split; [|eauto]. split; [done|]. intros Hno. exfalso.
    destruct l as [|h l]; [done|].
    assert (h ∈ postings (jieba idx) (forward_index idx) fs) as Hh by (rewrite <-Hp; left).
    apply elem_of_postings in Hh as (d & Hd & Hw & _). by apply (Hno d).
  - assert (∀ d, d ∈ forward_index idx → fs ∉ doc_tokens (jieba idx) d) as Hno.
    { intros d Hd Hw.
      assert (mkWeight (doc_id d) (doc_weight (jieba idx) d fs) fs ∈
              postings (jieba idx) (forward_index idx) fs) as Hin by (apply elem_of_postings; eauto).
      rewrite <-Hp in Hin. by apply not_elem_of_nil in Hin. }
    split; [done|]. intros (d & Hd & Hw). by apply Hno in Hd.
Qed.

End Props.
End IndexTestProps.
