(* ===== verification/Pipeline.v ===== *)
(** * From the documentation tree to the answers

    The preprocessor and the searcher only meet in the file raw_input.txt. The
    theorems here follow a page through both programs: what the preprocessor
    writes is what [Build] reads, and a query finds exactly the pages that
    contain one of its words. *)

From S2P Require Import Prelude CxxString Interfaces Util Parser Index Searcher Programs.
Import Searcher.

Module Pipeline.

(** The file after the preprocessor has run. *)
Definition after_parser (files : file_store) (out : bytes) : file_store :=
  <[Parser.g_output_path := out]> files.

(** A document whose fields do not contain the characters that separate fields
    and records. *)
Definition clean_doc (d : Parser.DocInfo) : Prop :=
  (newline ∉ Parser.title d) ∧ (Parser.sep ∉ Parser.title d) ∧
  (newline ∉ Parser.url d) ∧ (Parser.sep ∉ Parser.url d) ∧
  (newline ∉ Parser.content d) ∧ (Parser.sep ∉ Parser.content d).

Definition fields (d : Parser.DocInfo) : bytes * bytes * bytes :=
  (Parser.title d, Parser.url d, Parser.content d).

Section Pipeline.
Context `{CppJieba, BoostString, UnorderedIter, StdSort, JsonCpp, !BoostStringLaws}.

Lemma record_fields t u c :
  Parser.sep ∉ t → Parser.sep ∉ u → Parser.sep ∉ c →
  Index.line_fields (Parser.record (Parser.mkDoc t u c)) = Some (t, u, c).
Proof.
  intros Ht Hu Hc. unfold Index.line_fields, Parser.record. cbn [Parser.title Parser.url Parser.content].
  by rewrite (Util.Split_three Parser.sep t u c []).
Qed.

Lemma record_no_newline d : clean_doc d → newline ∉ Parser.record d.
Proof.
  intros (? & ? & ? & ? & ? & ?). unfold Parser.record.
  assert (newline ≠ Parser.sep) by done. set_solver.
Qed.

Lemma text_fields_records ds :
  Forall clean_doc ds → Index.text_fields (unlines (Parser.record <$> ds)) = fields <$> ds.
Proof.
  intros Hds. unfold Index.text_fields. rewrite getlines_unlines.
  2: { apply Forall_fmap. eapply Forall_impl; [done|]. apply record_no_newline. }
  induction Hds as [|d ds Hd _ IH]; [done|]. rewrite !fmap_cons. cbn [omap list_omap].
  destruct d as [t u c]. destruct Hd as (? & ? & ? & ? & ? & ?).
  rewrite record_fields by done. unfold fields at 2. f_equal. exact IH.
Qed.

(** A line without a separator is no record. *)
Lemma line_fields_none l : Parser.sep ∉ l → Index.line_fields l = None.
Proof.
  intros Hl. unfold Index.line_fields, Util.Split.
  assert (boost_split l [chr 3] = [l]) as ->; [|done].
  apply boost_split_intro; [constructor|]. repeat constructor.
  intros x Hx. by apply list_elem_of_singleton in Hx as ->.
Qed.

Lemma WriteOutput_loop ds out :
  foldl (λ out d, Parser.WriteOutput d out) out ds = out ++ unlines (Parser.record <$> ds).
Proof.
  revert out. induction ds as [|d ds IH]; intros out; cbn [foldl]; [by rewrite app_nil_r|].
  rewrite IH, Parser.WriteOutput_record, fmap_cons, unlines_cons. by rewrite <-!app_assoc.
Qed.

(** The document the index keeps for the [i]th record of the file. *)
Definition indexed (i : nat) (d : Parser.DocInfo) : Index.DocInfo :=
  Index.mkDoc (Z.of_nat i) (Parser.title d) (Parser.url d) (Parser.content d).

Lemma number_from_fields n ds : Index.number_from n (fields <$> ds) = imap (λ i, indexed (n + i)) ds.
Proof.
  revert n. induction ds as [|d ds IH]; intros n; [done|].
  rewrite fmap_cons, imap_cons, Nat.add_0_r. cbn [Index.number_from]. f_equal.
  rewrite IH. apply imap_ext. intros i x _. cbn. f_equal. lia.
Qed.

(** Building a new index from a text whose records are those of clean documents. *)
Lemma Build_records `{!UnorderedIterLaws} files path ds :
  files !! path = Some (unlines (Parser.record <$> ds)) →
  (Z.of_nat (length ds) < 2 ^ 63)%Z →
  Forall clean_doc ds →
  Forall (λ d, Index.fields_fit (Index.jieba Index.Index_new) (fields d)) ds →
  ∃ idx, Index.Build files Index.Index_new path = Ret (true, idx) ∧ Index.index_ok idx ∧
    Index.jieba idx = Index.jieba Index.Index_new ∧
    Index.forward_index idx = imap indexed ds.
Proof.
  intros Hf Hlen Hclean Hfit.
  assert (Index.text_fields (unlines (Parser.record <$> ds)) = fields <$> ds) as Htf
    by by apply text_fields_records.
  unfold Index.text_fields in Htf.
  assert (getlines (unlines (Parser.record <$> ds)) = Parser.record <$> ds) as Hgl.
  { apply getlines_unlines, Forall_fmap. eapply Forall_impl; [exact Hclean|]. apply record_no_newline. }
  destruct (Index.Build_loop (getlines (unlines (Parser.record <$> ds))) Index.Index_new)
    as (idx & Hb & Hok & Hj & Hfw).
  { apply Index.index_ok_new. }
  { rewrite Hgl, length_fmap. cbn. lia. }
  { rewrite Htf. by apply Forall_fmap. }
  exists idx. unfold Index.Build. rewrite Hf, Hb. split_and!; try done.
  rewrite Hfw, Htf. apply (number_from_fields 0).
Qed.

(** C8: round trip. What the preprocessor writes for documents whose fields are
    clean and whose weights fit in [int] is read back by [Build]: a new index
    built from the file keeps exactly these documents, in order, each with its
    title, its URL and its text in their places, and [GetDocInfo] finds each one
    under its position in the file. *)
Theorem records_roundtrip `{!UnorderedIterLaws} files path ds :
  files !! path = Some (foldl (λ out d, Parser.WriteOutput d out) [] ds) →
  (Z.of_nat (length ds) < 2 ^ 63)%Z →
  Forall clean_doc ds →
  Forall (λ d, Index.fields_fit (Index.jieba Index.Index_new) (fields d)) ds →
  ∃ idx, Index.Build files Index.Index_new path = Ret (true, idx) ∧
    length (Index.forward_index idx) = length ds ∧
    ∀ i d, ds !! i = Some d →
      Index.GetDocInfo idx (Z.of_nat i) =
        Some (Index.mkDoc (Z.of_nat i) (Parser.title d) (Parser.url d) (Parser.content d)).
Proof.
  rewrite WriteOutput_loop, app_nil_l. intros Hf Hlen Hclean Hfit.
  destruct (Build_records files path ds Hf Hlen Hclean Hfit) as (idx & Hb & Hok & _ & Hfw).
  exists idx. split; [done|]. split; [by rewrite Hfw, length_imap|].
  intros i d Hi. pose proof (lookup_lt_Some _ _ _ Hi).
  apply Index.GetDocInfo_iff; [done|by rewrite Hfw, length_imap|lia|]. split; [|done].
  rewrite Hfw. apply (list_elem_of_lookup_2 _ i). by rewrite list_lookup_imap, Hi.
Qed.

(** A page whose title contains a line break does not survive the round
    trip: [ParseTitle] keeps the line break, the record is cut in two, the first
    line is no record and is dropped, and the document is indexed under the last
    line of its title only. *)
Theorem multiline_title_truncated a b u c :
  newline ∉ a → Parser.sep ∉ a →
  clean_doc (Parser.mkDoc b u c) →
  Index.text_fields (Parser.WriteOutput (Parser.mkDoc (a ++ newline :: b) u c) []) = [(b, u, c)].
Proof.
  intros Ha Ha' Hd.
  rewrite Parser.WriteOutput_record, app_nil_l.
  assert (Parser.record (Parser.mkDoc (a ++ newline :: b) u c) ++ [newline] =
          unlines [a; Parser.record (Parser.mkDoc b u c)]) as ->.
  { rewrite !unlines_cons. unfold Parser.record. cbn. by rewrite <-!app_assoc; cbn; rewrite <-!app_assoc. }
  unfold Index.text_fields. rewrite getlines_unlines.
  2: { repeat constructor; [done|]. by apply record_no_newline. }
  destruct Hd as (? & ? & ? & ? & ? & ?). cbn [omap list_omap].
  by rewrite line_fields_none, record_fields by done.
Qed.

(** ** End to end *)

(** What is shown for a page hit by the word [w]: its title, its URL and the
    description made of its text. *)
Definition page_entry (dw : Parser.DocInfo * bytes) : Value :=
  Value_set (Value_set (Value_set Value_null (lit "title") (Parser.title dw.1))
                       (lit "url") (Parser.url dw.1))
            (lit "desc") (desc_of (Parser.content dw.1) dw.2).

Definition page_words (j : Jieba) (d : Parser.DocInfo) : list bytes :=
  Index.tokens j (Parser.title d) ++ Index.tokens j (Parser.content d).

(** Ten per occurrence of the word in the title, one per occurrence in the text. *)
Definition page_weight (j : Jieba) (dw : Parser.DocInfo * bytes) : Z :=
  10 * Index.occ dw.2 (Index.tokens j (Parser.title dw.1)) +
  Index.occ dw.2 (Index.tokens j (Parser.content dw.1)).

(** All matches of a query among the pages: per word of the query, the pages
    that contain it. *)
Definition matches (j : Jieba) (ds : list Parser.DocInfo) (query : bytes) :
    list (Parser.DocInfo * bytes) :=
  w ← Index.tokens j query; (λ d, (d, w)) <$> filter (λ d, w ∈ page_words j d) ds.

(** What a query shows over the pages [ds]: the matches, each once, heaviest
    first. *)
Definition shows_exactly (s : Searcher) (ds : list Parser.DocInfo) (query : bytes) : Prop :=
  let j := Index.jieba (index s) in
  ∃ shown,
    Search s query [] =
      Ret (true, FastWriter_write (foldl Value_append Value_null (page_entry <$> shown))) ∧
    shown ≡ₚ matches j ds query ∧
    StronglySorted (λ x y, (page_weight j y <= page_weight j x)%Z) shown.

(** The matches with the positions of their pages, from which the hits and the
    documents they point to are read off. *)
Definition placed (j : Jieba) (ds : list Parser.DocInfo) (w : bytes) : list (nat * Parser.DocInfo) :=
  filter (λ p, w ∈ page_words j p.2) (imap pair ds).

Definition placed_matches (j : Jieba) (ds : list Parser.DocInfo) (query : bytes) :
    list (nat * Parser.DocInfo * bytes) :=
  w ← Index.tokens j query; (λ p, (p, w)) <$> placed j ds w.

Definition page_of (m : nat * Parser.DocInfo * bytes) : Parser.DocInfo * bytes := (m.1.2, m.2).

Definition hit_at (j : Jieba) (m : nat * Parser.DocInfo * bytes) : Index.Weight :=
  Index.mkWeight (Z.of_nat m.1.1) (page_weight j (page_of m)) m.2.

Lemma placed_lookup j ds w p : p ∈ placed j ds w → ds !! p.1 = Some p.2.
Proof.
  unfold placed. rewrite list_elem_of_filter, elem_of_lookup_imap.
  intros (_ & i & d & -> & Hi). done.
Qed.

Lemma placed_pages j ds w : (placed j ds w).*2 = filter (λ d, w ∈ page_words j d) ds.
Proof.
  unfold placed.
  enough (∀ n, (filter (λ p, w ∈ page_words j p.2) (imap (λ i, pair (n + i)) ds)).*2 =
               filter (λ d, w ∈ page_words j d) ds) as Hn by apply (Hn 0).
  induction ds as [|d ds IH]; intros n; [done|].
  rewrite imap_cons, !filter_cons. specialize (IH (S n)).
  assert (imap ((λ i, pair (n + i)) ∘ S) ds = imap (λ i, pair (S n + i)) ds) as ->.
  { apply imap_ext. intros i x _. cbn. f_equal. lia. }
  cbn [snd]. case_decide; [|done]. rewrite fmap_cons. by f_equal.
Qed.

Lemma postings_placed j ds w :
  Index.postings j (imap indexed ds) w = (λ p, hit_at j (p, w)) <$> placed j ds w.
Proof.
  unfold placed, Index.postings.
  enough (∀ n, imap (λ i, indexed (n + i)) ds ≫= Index.posting j w =
    (λ p, hit_at j (p, w)) <$>
      filter (λ p, w ∈ page_words j p.2) (imap (λ i, pair (n + i)) ds)) as Hn by apply (Hn 0).
  induction ds as [|d ds IH]; intros n; [done|].
  rewrite !imap_cons, bind_cons, filter_cons. specialize (IH (S n)).
  assert (imap ((λ i, pair (n + i)) ∘ S) ds = imap (λ i, pair (S n + i)) ds) as ->.
  { apply imap_ext. intros i x _. cbn. f_equal. lia. }
  assert (imap ((λ i, indexed (n + i)) ∘ S) ds = imap (λ i, indexed (S n + i)) ds) as ->.
  { apply imap_ext. intros i x _. cbn. f_equal. lia. }
  rewrite IH. unfold Index.posting. cbn [snd]. rewrite Nat.add_0_r.
  change (Index.doc_tokens j (indexed n d)) with (page_words j d).
  case_bool_decide; case_decide; done.
Qed.

Lemma hits_of_placed idx ds query :
  Index.forward_index idx = imap indexed ds →
  hits_of idx query = hit_at (Index.jieba idx) <$> placed_matches (Index.jieba idx) ds query.
Proof.
  intros Hfw. unfold hits_of, placed_matches. rewrite Hfw.
  induction (Index.tokens (Index.jieba idx) query) as [|w l IH]; [done|].
  rewrite !bind_cons, fmap_app, IH, postings_placed, <-list_fmap_compose. done.
Qed.

Lemma matches_placed j ds query : matches j ds query = page_of <$> placed_matches j ds query.
Proof.
  unfold matches, placed_matches. induction (Index.tokens j query) as [|w l IH]; [done|].
  rewrite !bind_cons, fmap_app, IH, <-placed_pages, <-!list_fmap_compose. done.
Qed.

(** The documents the hits point to are the pages they were placed at. *)
Lemma hit_docs_placed idx ds ms docs :
  Index.forward_index idx = imap indexed ds →
  Forall (λ m, ds !! m.1.1 = Some m.1.2) ms →
  Forall2 (hit_doc idx) (hit_at (Index.jieba idx) <$> ms) docs →
  zip_with entry docs (hit_at (Index.jieba idx) <$> ms) = page_entry ∘ page_of <$> ms.
Proof.
  intros Hfw Hms. revert docs. induction Hms as [|[[i d] w] ms Hm _ IH]; intros docs Hdocs.
  { by apply Forall2_nil_inv_l in Hdocs as ->. }
  rewrite fmap_cons in Hdocs. apply Forall2_cons_inv_l in Hdocs as (x & docs' & [Hx Hid] & Hd & ->).
  rewrite !fmap_cons. cbn [zip_with]. f_equal; [|by apply IH].
  rewrite Hfw, elem_of_lookup_imap in Hx. destruct Hx as (k & d' & -> & Hk).
  cbn in Hid, Hm. assert (k = i) as -> by lia. by assert (d' = d) as -> by congruence.
Qed.

Lemma shows_from_index `{!StdSortLaws} s ds query :
  Index.index_ok (index s) → (Z.of_nat (length ds) < 2 ^ 63)%Z →
  Index.forward_index (index s) = imap indexed ds →
  shows_exactly s ds query.
Proof.
  intros Hok Hlen Hfw. set (j := Index.jieba (index s)).
  destruct (Search_eq s query [] Hok) as (docs & Hdocs & HS).
  { by rewrite Hfw, length_imap. }
  { apply std_sort_permutation. }
  assert (std_sort heavier (hits_of (index s) query) ≡ₚ
          hit_at j <$> placed_matches j ds query) as Hp.
  { by rewrite std_sort_permutation, (hits_of_placed _ ds). }
  apply Permutation_map_inv in Hp as (ms & Hms & Hperm).
  pose proof (std_sort_sorted heavier (hits_of (index s) query) heavier_asym heavier_trans) as Hsort.
  apply heavier_sorted in Hsort. rewrite Hms in HS, Hdocs, Hsort.
  exists (page_of <$> ms). split_and!.
  - rewrite HS. unfold rendered. do 4 f_equal. rewrite <-list_fmap_compose.
    apply (hit_docs_placed (index s) ds); [done| |done]. rewrite <-Hperm. apply Forall_forall.
    intros m (w & Hm & _)%list_elem_of_bind. apply list_elem_of_fmap in Hm as (p & -> & Hm).
    by apply placed_lookup in Hm.
  - fold j. by rewrite matches_placed, Hperm.
  - fold j. clearbody j. clear -Hsort. induction ms as [|m ms IH]; cbn in *; [constructor|].
    apply StronglySorted_inv in Hsort as [Hs Hall]. constructor; [by apply IH|].
    apply Forall_fmap. rewrite List.Forall_map in Hall. exact Hall.
Qed.

(** C1: end to end. Preprocess an existing documentation tree whose documents
    have clean fields and weights that fit in [int], then start the searcher on
    the file written: both programs succeed, and for every query the answer is
    the JSON array with one entry (title, URL and description of the page) for
    every word of the query and every page of the tree that contains it, and
    nothing else, in the order of the weights. *)
Theorem pipeline_correct `{BoostFilesystem, !BoostFilesystemLaws, !UnorderedIterLaws, !StdSortLaws} files :
  fs_exists Parser.g_input_path = true →
  (Z.of_nat (length (Parser.html_paths Parser.g_input_path)) < 2 ^ 63)%Z →
  (∀ p d, p ∈ Parser.html_paths Parser.g_input_path → Parser.is_page files p d →
     clean_doc d ∧ Index.fields_fit (Index.jieba Index.Index_new) (fields d)) →
  ∃ out s ds,
    Parser.main files true = Ret (0%Z, Some out) ∧
    Init (after_parser files out) Searcher_new raw_input_path = Ret (true, s) ∧
    ds = omap (Parser.parsed files) (Parser.html_paths Parser.g_input_path) ∧
    (∀ d, d ∈ ds ↔ ∃ p, p ∈ Parser.html_paths Parser.g_input_path ∧ Parser.is_page files p d) ∧
    ∀ query, shows_exactly s ds query.
Proof.
  intros Hex Hlen Hgood.
  set (paths := Parser.html_paths Parser.g_input_path) in *.
  set (ds := omap (Parser.parsed files) paths).
  assert (∀ d, d ∈ ds ↔ ∃ p, p ∈ paths ∧ Parser.is_page files p d) as Hds.
  { intros d. unfold ds. rewrite list_elem_of_omap.
    split; intros (p & Hp & Hd); exists p; (split; [done|]);
      apply Parser.html_paths_under in Hp as [Hp _]; by apply Parser.parsed_is_page. }
  assert (length ds ≤ length paths) as Hle by apply length_omap_le.
  destruct (Build_records (after_parser files (unlines (Parser.record <$> ds)))
              raw_input_path ds) as (idx & Hb & Hok & Hj & Hfw).
  { apply lookup_insert_eq. }
  { lia. }
  1,2: apply Forall_forall; intros d (p & Hp & Hd)%Hds; by eapply Hgood.
  exists (unlines (Parser.record <$> ds)), (mkSearcher idx), ds. split_and!; try done.
  - unfold Parser.main. rewrite Parser.EnumFile_paths, Hex. cbn [negb].
    rewrite app_nil_l, Parser.main_loop; [done|]. apply Forall_forall. intros p Hp.
    by apply Parser.html_paths_under in Hp as [? _].
  - unfold Init. cbn [index Searcher_new]. by rewrite Hb.
  - intros query. apply shows_from_index; [done|lia|done].
Qed.

End Pipeline.
End Pipeline.
