(* ===== verification/Examples.v ===== *)
(** * Runs of the search engine on a small tree

    A documentation tree of three entries, one of which is a page, with the
    reference instances of the libraries. Each example instantiates a theorem
    about the programs at this tree. *)

From S2P Require Import Prelude CxxString Interfaces Util Parser Index Searcher Programs Pipeline.

Module Examples.

(** ** The tree *)
Definition demo_ext (p : bytes) : bytes :=
  if decide (lit ".html" `suffix_of` p) then lit ".html" else [].

Definition demo_fs : BoostFilesystem :=
  {| fs_exists := λ p, bool_decide (p = Parser.g_input_path);
     recursive_directory := λ root,
       [ {| entry_path := root ++ lit "html"; entry_is_regular := false |};
         {| entry_path := root ++ lit "html/fs.html"; entry_is_regular := true |};
         {| entry_path := root ++ lit "html/fs.css"; entry_is_regular := true |} ];
     path_extension := demo_ext |}.

Lemma demo_fs_laws : @BoostFilesystemLaws demo_fs.
Proof.
  split.
  - intros root e He. cbn in He. unfold elem_of in *.
    repeat (apply elem_of_cons in He as [->|He]; [cbn; by apply prefix_app_r|]).
    by apply not_elem_of_nil in He.
  - intros p. cbn. unfold demo_ext. case_decide; [done|apply suffix_nil].
Qed.

Definition demo_path : bytes := lit "../data/input/html/fs.html".

Definition demo_html : bytes :=
  lit "<html><title>Boost Filesystem</title>" ++ [newline] ++ lit "<p>a filesystem library</p></html>".

Definition demo_files : file_store := {[ demo_path := demo_html ]}.

(** The record the preprocessor writes for the page, and a line that is none. *)
Definition demo_raw : bytes :=
  lit "Boost Filesystem" ++ [chr 3] ++ lit "https://www.boost.org/doc/libs/1_53_0/doc/html/fs.html" ++
  [chr 3] ++ lit "Boost Filesystem a filesystem library " ++ [newline] ++
  lit "no record" ++ [newline].

Definition demo_store : file_store := {[ raw_input_path := demo_raw ]}.

#[local] Existing Instance ref_BoostString.
#[local] Existing Instance ref_BoostString_laws.
#[local] Existing Instance ref_StdSort.
#[local] Existing Instance ref_StdSort_laws.
#[local] Existing Instance ref_UnorderedIter.
#[local] Existing Instance ref_UnorderedIter_laws.
#[local] Existing Instance ref_CppJieba.
#[local] Existing Instance ref_JsonCpp.
#[local] Existing Instance demo_fs.
#[local] Existing Instance demo_fs_laws.

(** ** The preprocessor *)

Example parser_run :
  Parser.main demo_files true =
    Ret (0%Z, Some (lit "Boost Filesystem" ++ [chr 3] ++
                    lit "https://www.boost.org/doc/libs/1_53_0/doc/html/fs.html" ++ [chr 3] ++
                    lit "Boost Filesystem a filesystem library " ++ [newline])).
Proof. vm_compute. reflexivity. Qed.

Lemma EnumFile_witness :
  Parser.EnumFile Parser.g_input_path [] = (true, [demo_path]) ∧
  ∀ p, p ∈ Parser.html_paths Parser.g_input_path →
       Parser.g_input_path `prefix_of` p ∧ lit ".html" `suffix_of` p.
Proof. exact (Parser.EnumFile_spec Parser.g_input_path []). Defined.

Lemma main_witness :
  fs_exists Parser.g_input_path = true ∧
  ∃ docs,
    Parser.main demo_files true = Ret (0%Z, Some (unlines (Parser.record <$> docs))) ∧
    docs = omap (Parser.parsed demo_files) (Parser.html_paths Parser.g_input_path) ∧
    ∀ d, d ∈ docs ↔ ∃ p, p ∈ Parser.html_paths Parser.g_input_path ∧ Parser.is_page demo_files p d.
Proof. split; [reflexivity|]. apply (Parser.main_spec demo_files). reflexivity. Defined.

Lemma ParseTitle_witness :
  (∀ t, ¬ Parser.is_title (lit "no tags") t) ∧
  Parser.ParseTitle (lit "no tags") [] = Ret (false, []).
Proof.
  assert (∀ t, ¬ Parser.is_title (lit "no tags") t) as Hno.
  { intros t (_ & pre & post & Heq & _). apply (f_equal (λ l, "<"%char ∈ l)) in Heq.
    assert ("<"%char ∈ lit "no tags") as Hin.
    { rewrite Heq. apply elem_of_app. right. apply elem_of_app. left. left. }
    clear -Hin. cbn in Hin. rewrite !elem_of_cons, elem_of_nil in Hin. naive_solver. }
  split; [exact Hno|]. apply (proj2 (Parser.ParseTitle_spec (lit "no tags") [])). exact Hno.
Defined.

Lemma ParseUrl_witness :
  Parser.ParseUrl demo_path [] =
    Ret (true, Parser.g_url_head ++ lit "html/fs.html") ∧
  Parser.ParseUrl (lit "x.html") [] = Throw out_of_range.
Proof.
  split.
  - apply (proj1 (Parser.ParseUrl_spec demo_path []) Parser.g_input_path (lit "html/fs.html"));
      reflexivity.
  - apply (proj2 (Parser.ParseUrl_spec (lit "x.html") [])). vm_compute. lia.
Defined.

(** ** The index *)

Ltac fits := repeat constructor; vm_compute; discriminate.

Definition demo_index : Index.Index :=
  match Index.Build demo_store Index.Index_new raw_input_path with
  | Ret (_, idx) => idx
  | _ => Index.Index_new
  end.

Lemma demo_index_ok : Index.index_ok demo_index.
Proof.
  destruct (Index.Build_loop (getlines demo_raw) Index.Index_new) as (idx & Hb & Hok & _).
  - apply Index.index_ok_new.
  - vm_compute. reflexivity.
  - fits.
  - unfold demo_index, Index.Build. change (demo_store !! raw_input_path) with (Some demo_raw).
    cbn [Index.Index_new]. rewrite Hb. exact Hok.
Qed.

Lemma demo_index_small : (Z.of_nat (length (Index.forward_index demo_index)) < 2 ^ 63)%Z.
Proof. vm_compute. reflexivity. Qed.

Lemma Build_witness :
  Index.index_ok Index.Index_new ∧
  ∃ idx', Index.Build demo_store Index.Index_new raw_input_path = Ret (true, idx') ∧
    Index.jieba idx' = Index.jieba Index.Index_new ∧
    Index.forward_index idx' = Index.forward_index Index.Index_new ++
      Index.number_from (length (Index.forward_index Index.Index_new)) (Index.text_fields demo_raw) ∧
    (∀ w, default [] (Index.GetInvertedList idx' w) =
          Index.postings (Index.jieba Index.Index_new) (Index.forward_index idx') w) ∧
    Index.index_ok idx'.
Proof.
  split; [apply Index.index_ok_new|].
  apply (Index.Build_refines demo_store Index.Index_new raw_input_path demo_raw).
  - apply Index.index_ok_new.
  - reflexivity.
  - vm_compute. reflexivity.
  - fits.
Defined.

Lemma GetDocInfo_witness :
  Index.index_ok demo_index ∧
  (Index.GetDocInfo demo_index (-1) = None ↔
     ∀ d, d ∈ Index.forward_index demo_index → Index.doc_id d ≠ (-1)%Z).
Proof.
  split; [apply demo_index_ok|].
  apply (proj2 (Index.GetDocInfo_spec demo_index (-1) demo_index_ok demo_index_small ltac:(lia))).
Defined.

(** A second traversal order: the reference order backwards. *)
Definition rev_UnorderedIter : UnorderedIter := λ A m, reverse (map_to_list m).

Lemma rev_UnorderedIter_laws : @UnorderedIterLaws rev_UnorderedIter.
Proof. intros A m. apply reverse_Permutation. Qed.

Lemma Build_order_witness :
  @Index.Build _ _ ref_UnorderedIter demo_store Index.Index_new raw_input_path =
  @Index.Build _ _ rev_UnorderedIter demo_store Index.Index_new raw_input_path.
Proof.
  apply (Index.Build_order_irrelevant ref_UnorderedIter rev_UnorderedIter demo_store
           Index.Index_new raw_input_path).
  - apply ref_UnorderedIter_laws.
  - apply rev_UnorderedIter_laws.
  - apply Index.index_ok_new.
  - intros text [= <-]. split; [vm_compute; reflexivity|fits].
Defined.

(** ** The searcher *)

Definition demo_searcher : Searcher.Searcher := Searcher.mkSearcher demo_index.

Example search_run :
  Searcher.Search demo_searcher (lit "LIBRARY") [] =
    Ret (true, lit "[{title:Boost Filesystem,url:https://www.boost.org/doc/libs/1_53_0/doc/html/fs.html,desc:Boost Filesystem a filesystem library ,},]" ++ [newline]).
Proof. vm_compute. reflexivity. Qed.

(** The description falls back to the start of the text when the word occurs
    there with capitals only: the word is in lower case, the text is not. *)
Example desc_case :
  find (lit "Boost Filesystem") (lit "filesystem") 0 = None ∧
  find (lit "boost filesystem") (lit "filesystem") 0 = Some 6.
Proof. split; reflexivity. Qed.

Lemma GenerateDesc_witness :
  ∃ desc, Searcher.GenerateDesc (lit "boost filesystem") (lit "filesystem") = Ret desc ∧
    ∃ k, occurs_at (lit "filesystem") desc k.
Proof.
  destruct (Searcher.GenerateDesc_spec (lit "boost filesystem") (lit "filesystem"))
    as (desc & Hd & _ & _ & Hshow).
  exists desc. split; [exact Hd|]. apply Hshow.
  - exists 6. split; [vm_compute; lia|]. exists []. reflexivity.
  - vm_compute. lia.
Defined.

Lemma Search_witness :
  Index.index_ok (Searcher.index demo_searcher) ∧
  ∃ hits docs,
    Searcher.Search demo_searcher (lit "library") [] =
      Ret (true, FastWriter_write (Searcher.rendered docs hits)) ∧
    hits ≡ₚ Searcher.hits_of demo_index (lit "library") ∧
    StronglySorted (λ x y, (Index.weight y <= Index.weight x)%Z) hits ∧
    Forall2 (Searcher.hit_doc demo_index) hits docs.
Proof.
  split; [apply demo_index_ok|].
  apply (Searcher.Search_spec demo_searcher (lit "library") []).
  - apply demo_index_ok.
  - apply demo_index_small.
Defined.

Definition demo_doc : Index.DocInfo :=
  Index.mkDoc 0 (lit "Boost Filesystem") (lit "https://www.boost.org/doc/libs/1_53_0/doc/html/fs.html")
    (lit "Boost Filesystem a filesystem library ").

Lemma demo_doc_in : demo_doc ∈ Index.forward_index demo_index.
Proof. assert (Index.forward_index demo_index = [demo_doc]) as -> by (vm_compute; reflexivity). left. Qed.

Lemma hits_exact_witness :
  ∃ hits docs,
    Searcher.Search demo_searcher (lit "boost python library") [] =
      Ret (true, FastWriter_write (Searcher.rendered docs hits)) ∧
    length (filter (λ h, Index.w_doc_id h = Index.doc_id demo_doc) hits) =
    length (filter (λ w, w ∈ Index.doc_tokens (Index.jieba demo_index) demo_doc)
              (Index.tokens (Index.jieba demo_index) (lit "boost python library"))).
Proof.
  destruct (Searcher.hits_exact demo_searcher (lit "boost python library") []
              demo_index_ok demo_index_small) as (hits & docs & HS & _ & Hex).
  exists hits, docs. split; [exact HS|]. exact (proj2 (Hex demo_doc demo_doc_in)).
Defined.

Lemma Search_none_witness :
  Searcher.Search demo_searcher (lit "python") [] = Ret (true, FastWriter_write Value_null).
Proof.
  apply (Searcher.Search_none demo_searcher (lit "python") []).
  intros w Hw. assert (Index.tokens (Index.jieba demo_index) (lit "python") = [lit "python"]) as E
    by reflexivity.
  cbn [Searcher.index demo_searcher] in *. rewrite E in Hw.
  apply list_elem_of_singleton in Hw as ->. vm_compute. reflexivity.
Defined.

(** ** The programs *)

Definition demo_http : HttpLib :=
  {| Request := list (bytes * bytes);
     Response := bytes * bytes;
     has_param := λ r k, bool_decide (k ∈ r.*1);
     get_param_value := λ r k, default [] (list_to_map (M := gmap bytes bytes) r !! k);
     set_content := λ _ body type, (body, type) |}.
#[local] Existing Instance demo_http.

Lemma handle_searcher_witness :
  ∃ s results, HttpServer.main demo_store = Ret (inr (s, HttpServer.setup)) ∧
    HttpServer.serve s [([(lit "query", lit "boost")], ([], [])); ([], ([], []))] [] =
      Ret ([(results, lit "application/json;charset=utf-8");
            (HttpServer.bad_request_text, lit "text/plain;charset=utf-8")], results ++ [newline]).
Proof.
  destruct (HttpServerProps.handle_searcher_spec demo_store demo_raw) as [(s & f & Hs & _ & _ & Hreq) _];
    [reflexivity|vm_compute; reflexivity|fits|].
  exists s, (f (lit "boost")). split; [exact Hs|].
  rewrite Hreq. cbn. by rewrite app_nil_r.
Defined.

Lemma bad_request_witness :
  ∃ body, HttpServer.handle_searcher demo_searcher [] ([], []) [] =
            Ret ((body, lit "text/plain;charset=utf-8"), []) ∧ HttpServer.utf8 body = false.
Proof.
  apply (@HttpServerProps.bad_request_not_utf8 _ _ _ _ demo_http demo_searcher [] ([], []) []).
  reflexivity.
Defined.

Lemma loop_witness :
  ∃ f, (∀ w, Searcher.Search demo_searcher w [] = Ret (true, f w)) ∧
    SearcherTest.loop (S (length (unlines [lit "boost"] ++ lit "library"))) demo_searcher
      (unlines [lit "boost"] ++ lit "library") [] =
      Some (Ret (SearcherTestProps.transcript f [lit "boost"] ++ SearcherTest.prompt ++
                 lit "goodbye" ++ [newline])).
Proof.
  apply (SearcherTestProps.loop_spec demo_searcher [lit "boost"] (lit "library")).
  - apply demo_index_ok.
  - apply demo_index_small.
  - repeat constructor. discriminate.
  - repeat constructor.
Defined.

Lemma show_witness :
  ∃ out, IndexTest.show demo_index = Ret out.
Proof.
  apply (proj2 (IndexTestProps.show_spec demo_index demo_index_ok demo_index_small)).
  exists demo_doc. split; [apply demo_doc_in|].
  apply (bool_decide_unpack _). vm_compute. reflexivity.
Defined.

(** ** The pipeline *)

Definition small_doc : Parser.DocInfo := Parser.mkDoc (lit "t") (lit "u") (lit "c").

Lemma roundtrip_witness :
  ∃ idx,
    Index.Build {[raw_input_path := Parser.WriteOutput small_doc []]} Index.Index_new raw_input_path =
      Ret (true, idx) ∧
    length (Index.forward_index idx) = 1 ∧
    Index.GetDocInfo idx 0 = Some (Index.mkDoc 0 (lit "t") (lit "u") (lit "c")).
Proof.
  destruct (Pipeline.records_roundtrip {[raw_input_path := Parser.WriteOutput small_doc []]}
              raw_input_path [small_doc]) as (idx & Hb & Hlen & Hget).
  - reflexivity.
  - vm_compute. reflexivity.
  - repeat constructor; unfold Pipeline.clean_doc; apply (bool_decide_unpack _); vm_compute; reflexivity.
  - fits.
  - exists idx. split; [exact Hb|]. split; [exact Hlen|]. exact (Hget 0 small_doc eq_refl).
Defined.

Lemma multiline_witness :
  Index.text_fields
    (Parser.WriteOutput (Parser.mkDoc (lit "two" ++ newline :: lit "lines") (lit "u") (lit "c")) []) =
  [(lit "lines", lit "u", lit "c")].
Proof.
  apply (Pipeline.multiline_title_truncated (lit "two") (lit "lines") (lit "u") (lit "c"));
    unfold Pipeline.clean_doc; apply (bool_decide_unpack _); vm_compute; reflexivity.
Defined.

Lemma demo_pages p d :
  p ∈ Parser.html_paths Parser.g_input_path → Parser.is_page demo_files p d →
  Pipeline.clean_doc d ∧
  Index.fields_fit (Index.jieba Index.Index_new) (Pipeline.fields d).
Proof.
  intros Hp Hd. assert (Parser.html_paths Parser.g_input_path = [demo_path]) as E
    by (vm_compute; reflexivity).
  rewrite E in Hp. apply list_elem_of_singleton in Hp as ->.
  apply Parser.parsed_is_page in Hd; [|exists (lit "html/fs.html"); reflexivity].
  vm_compute in Hd. injection Hd as <-. split; [|vm_compute; discriminate].
  unfold Pipeline.clean_doc. apply (bool_decide_unpack _). vm_compute. reflexivity.
Qed.

Lemma pipeline_witness :
  ∃ out s ds,
    Parser.main demo_files true = Ret (0%Z, Some out) ∧
    Searcher.Init (Pipeline.after_parser demo_files out) Searcher.Searcher_new raw_input_path =
      Ret (true, s) ∧
    ds = omap (Parser.parsed demo_files) (Parser.html_paths Parser.g_input_path) ∧
    (∀ d, d ∈ ds ↔ ∃ p, p ∈ Parser.html_paths Parser.g_input_path ∧ Parser.is_page demo_files p d) ∧
    ∀ query, Pipeline.shows_exactly s ds query.
Proof.
  apply (Pipeline.pipeline_correct demo_files).
  - reflexivity.
  - vm_compute. reflexivity.
  - exact demo_pages.
Defined.

End Examples.
