(* ===== verification/HttpParser.v ===== *)
(** * The HTTP request parser of the Asio example servers

    (src/doc_searcher/data/input/html/boost_asio/example/http/server, and its
    copies in server2 and server3.) An incremental parser: a state machine that
    is fed one character at a time and fills in a request. [char] is signed, so
    bytes above 127 are negative and pass the tests for control characters. *)

From S2P Require Import Prelude CxxString.

Module HttpParser.

Record header := mkHeader { name : bytes; value : bytes }.

Record request := mkRequest {
  method : bytes;
  uri : bytes;
  http_version_major : Z;
  http_version_minor : Z;
  headers : list header;
}.

(** boost::tribool *)
Inductive tribool := yes | no | indeterminate.

Inductive state :=
  | method_start
  | in_method
  | in_uri
  | http_version_h
  | http_version_t_1
  | http_version_t_2
  | http_version_p
  | http_version_slash
  | version_major_start
  | version_major
  | version_minor_start
  | version_minor
  | expecting_newline_1
  | header_line_start
  | header_lws
  | header_name
  | space_before_header_value
  | header_value
  | expecting_newline_2
  | expecting_newline_3.

#[export] Instance state_eq_dec : EqDecision state.
Proof. solve_decision. Defined.

(** ** Character classes *)

Definition is_char (c : Z) : bool := (0 <=? c)%Z && (c <=? 127)%Z.

Definition is_ctl (c : Z) : bool := ((0 <=? c)%Z && (c <=? 31)%Z) || (c =? 127)%Z.

(** The cases of the switch: ( ) < > @ , ; : \ double quote / [ ] ? = { } blank tab. *)
Definition tspecials : list Z :=
  [40; 41; 60; 62; 64; 44; 59; 58; 92; 34; 47; 91; 93; 63; 61; 123; 125; 32; 9]%Z.
Definition is_tspecial (c : Z) : bool := bool_decide (c ∈ tspecials).

Definition is_digit (c : Z) : bool := (48 <=? c)%Z && (c <=? 57)%Z.

(** ** The state machine *)

Abbreviation step_result := (outcome (tribool * state * request)).

Definition stay (st : state) (req : request) : step_result := Ret (indeterminate, st, req).
Definition reject (st : state) (req : request) : step_result := Ret (no, st, req).

Definition add_method (req : request) (c : ascii) : request :=
  mkRequest (method req ++ [c]) (uri req) (http_version_major req) (http_version_minor req) (headers req).
Definition add_uri (req : request) (c : ascii) : request :=
  mkRequest (method req) (uri req ++ [c]) (http_version_major req) (http_version_minor req) (headers req).
Definition set_version (req : request) (major minor : Z) : request :=
  mkRequest (method req) (uri req) major minor (headers req).
Definition set_headers (req : request) (hs : list header) : request :=
  mkRequest (method req) (uri req) (http_version_major req) (http_version_minor req) hs.

(** [req.headers.back()] changed by [f]; undefined on an empty vector. *)
Definition on_back (f : header → header) (req : request) : outcome request :=
  match last (headers req) with
  | None => Undef OutOfBounds
  | Some h => Ret (set_headers req (removelast (headers req) ++ [f h]))
  end.
Definition add_name (c : ascii) (h : header) : header := mkHeader (name h ++ [c]) (value h).
Definition add_value (c : ascii) (h : header) : header := mkHeader (name h) (value h ++ [c]).

(** [v * 10 + input - '0'] on [int]. *)
Definition next_digit (v : Z) (input : ascii) : outcome Z :=
  a ← int_res (v * 10);
  b ← int_res (a + char_val input);
  int_res (b - 48).

Definition CR : ascii := chr 13.
Definition TAB : ascii := chr 9.

(** Not a token character: the test at the start and inside of names. *)
Definition not_token (c : ascii) : bool :=
  negb (is_char (char_val c)) || is_ctl (char_val c) || is_tspecial (char_val c).

(** States of the method and the URI. *)
Definition consume_line_start (st : state) (req : request) (input : ascii) : step_result :=
  match st with
  | method_start =>
      if not_token input then reject st req
      else stay in_method (add_method req input)
  | in_method =>
      if bool_decide (input = " "%char) then stay in_uri req
      else if not_token input then reject st req
      else stay in_method (add_method req input)
  | _ (* uri *) =>
      if bool_decide (input = " "%char) then stay http_version_h req
      else if is_ctl (char_val input) then reject st req
      else stay in_uri (add_uri req input)
  end.

(** A state that expects one fixed character. *)
Definition expect (x : ascii) (next st : state) (req : request) (input : ascii) : step_result :=
  if bool_decide (input = x) then stay next req else reject st req.

(** States of "HTTP/" and the version number. *)
Definition consume_version (st : state) (req : request) (input : ascii) : step_result :=
  match st with
  | http_version_h => expect "H"%char http_version_t_1 st req input
  | http_version_t_1 => expect "T"%char http_version_t_2 st req input
  | http_version_t_2 => expect "T"%char http_version_p st req input
  | http_version_p => expect "P"%char http_version_slash st req input
  | http_version_slash =>
      if bool_decide (input = "/"%char) then stay version_major_start (set_version req 0 0)
      else reject st req
  | version_major_start =>
      if is_digit (char_val input) then
        v ← next_digit (http_version_major req) input;
        stay version_major (set_version req v (http_version_minor req))
      else reject st req
  | version_major =>
      if bool_decide (input = "."%char) then stay version_minor_start req
      else if is_digit (char_val input) then
        v ← next_digit (http_version_major req) input;
        stay version_major (set_version req v (http_version_minor req))
      else reject st req
  | version_minor_start =>
      if is_digit (char_val input) then
        v ← next_digit (http_version_minor req) input;
        stay version_minor (set_version req (http_version_major req) v)
      else reject st req
  | _ (* http_version_minor *) =>
      if bool_decide (input = CR) then stay expecting_newline_1 req
      else if is_digit (char_val input) then
        v ← next_digit (http_version_minor req) input;
        stay version_minor (set_version req (http_version_major req) v)
      else reject st req
  end.

Definition is_lws (c : ascii) : bool := bool_decide (c = " "%char) || bool_decide (c = TAB).

(** States of the header lines. *)
Definition consume_headers (st : state) (req : request) (input : ascii) : step_result :=
  match st with
  | expecting_newline_1 => expect newline header_line_start st req input
  | header_line_start =>
      if bool_decide (input = CR) then stay expecting_newline_3 req
      else if negb (bool_decide (headers req = [])) && is_lws input then stay header_lws req
      else if not_token input then reject st req
      else
        req ← on_back (add_name input) (set_headers req (headers req ++ [mkHeader [] []]));
        stay header_name req
  | header_lws =>
      if bool_decide (input = CR) then stay expecting_newline_2 req
      else if is_lws input then stay header_lws req
      else if is_ctl (char_val input) then reject st req
      else
        req ← on_back (add_value input) req;
        stay header_value req
  | header_name =>
      if bool_decide (input = ":"%char) then stay space_before_header_value req
      else if not_token input then reject st req
      else
        req ← on_back (add_name input) req;
        stay header_name req
  | space_before_header_value => expect " "%char header_value st req input
  | header_value =>
      if bool_decide (input = CR) then stay expecting_newline_2 req
      else if is_ctl (char_val input) then reject st req
      else
        req ← on_back (add_value input) req;
        stay header_value req
  | expecting_newline_2 => expect newline header_line_start st req input
  | _ (* expecting_newline_3 *) =>
      Ret (if bool_decide (input = newline) then yes else no, st, req)
  end.

(** [request_parser::consume] *)
Definition consume (st : state) (req : request) (input : ascii) : step_result :=
  match st with
  | method_start | in_method | in_uri => consume_line_start st req input
  | http_version_h | http_version_t_1 | http_version_t_2 | http_version_p | http_version_slash
  | version_major_start | version_major | version_minor_start | version_minor =>
      consume_version st req input
  | _ => consume_headers st req input
  end.

(** [request_parser::reset] and the constructor. *)
Definition reset : state := method_start.

(** [request_parser::parse]: the result, the parser and the request afterwards,
    and the input that is left. *)
Fixpoint parse (st : state) (req : request) (input : bytes) :
    outcome (tribool * state * request * bytes) :=
  match input with
  | [] => Ret (indeterminate, st, req, [])
  | c :: rest =>
      '(result, st, req) ← consume st req c;
      match result with
      | indeterminate => parse st req rest
      | _ => Ret (result, st, req, rest)
      end
  end.

(** ** The grammar of requests *)

Definition token (s : bytes) : Prop := s ≠ [] ∧ Forall (λ c, not_token c = false) s.
Definition not_ctl (c : ascii) : Prop := is_ctl (char_val c) = false.
Definition uri_char (c : ascii) : Prop := not_ctl c ∧ c ≠ " "%char.
Definition digits (s : bytes) : Prop := s ≠ [] ∧ Forall (λ c, is_digit (char_val c) = true) s.
Definition blanks (s : bytes) : Prop := s ≠ [] ∧ Forall (λ c, is_lws c = true) s.

(** The value of a string of decimal digits. *)
Definition dec_val (s : bytes) : Z := foldl (λ v c, v * 10 + char_val c - 48)%Z 0%Z s.

Definition CRLF : bytes := [CR; newline].

(** A header with its value, before and after the end of its line. A line that
    starts with blanks continues the value of the header before it. *)
Inductive value_text : header → bytes → Prop :=
  | value_first n : token n → value_text (mkHeader n []) (n ++ [":"%char; " "%char])
  | value_fold h t l c :
      header_text h t → blanks l → is_lws c = false → not_ctl c →
      value_text (add_value c h) (t ++ l ++ [c])
  | value_char h t c : value_text h t → not_ctl c → value_text (add_value c h) (t ++ [c])
with header_text : header → bytes → Prop :=
  | header_end h t : value_text h t → header_text h (t ++ CRLF)
  | header_blank h t l : header_text h t → blanks l → header_text h (t ++ l ++ CRLF).

Scheme value_text_mut := Minimality for value_text Sort Prop
  with header_text_mut := Minimality for header_text Sort Prop.

Inductive headers_text : list header → bytes → Prop :=
  | headers_nil : headers_text [] []
  | headers_snoc hs t h u :
      headers_text hs t → header_text h u → headers_text (hs ++ [h]) (t ++ u).

(** The request line, as far as the version number. *)
Definition line_text (req : request) (maj min : bytes) : bytes :=
  method req ++ lit " " ++ uri req ++ lit " HTTP/" ++ maj ++ lit "." ++ min ++ CRLF.

Record line_ok (req : request) (maj min : bytes) : Prop := {
  ok_method : token (method req);
  ok_uri : Forall uri_char (uri req);
  ok_maj : digits maj;
  ok_min : digits min;
  ok_major : http_version_major req = dec_val maj;
  ok_minor : http_version_minor req = dec_val min;
}.

(** [text] is a request that says [req]. *)
Definition request_text (req : request) (text : bytes) : Prop :=
  ∃ maj min hs, line_ok req maj min ∧ headers_text (headers req) hs ∧
    text = line_text req maj min ++ hs ++ CRLF.

Definition empty_request : request := mkRequest [] [] 0 0 [].

(** ** Running the machine over a piece of text *)

Lemma parse_stay st req c s st' req' :
  consume st req c = stay st' req' → parse st req (c :: s) = parse st' req' s.
Proof. intros H. cbn [parse]. by rewrite H. Qed.

(** A loop of the machine: as long as each character is kept and recorded by
    [f], the state does not change. *)
Lemma parse_loop (P : ascii → Prop) (f : request → ascii → request) st req w s :
  (∀ req c, P c → consume st req c = stay st (f req c)) → Forall P w →
  parse st req (w ++ s) = parse st (foldl f req w) s.
Proof.
  intros Hstep Hw. revert req. induction Hw as [|c w Hc _ IH]; intros req; [done|].
  cbn [app foldl]. rewrite (parse_stay _ _ _ _ st (f req c)) by auto. apply IH.
Qed.

Lemma not_token_space : not_token " "%char = true.
Proof. reflexivity. Qed.

Lemma foldl_add_method req w :
  foldl add_method req w =
    mkRequest (method req ++ w) (uri req) (http_version_major req) (http_version_minor req) (headers req).
Proof.
  revert req. induction w as [|c w IH]; intros req; cbn; [rewrite app_nil_r; by destruct req|].
  rewrite IH. cbn. by rewrite <-app_assoc.
Qed.

Lemma foldl_add_uri req w :
  foldl add_uri req w =
    mkRequest (method req) (uri req ++ w) (http_version_major req) (http_version_minor req) (headers req).
Proof.
  revert req. induction w as [|c w IH]; intros req; cbn; [rewrite app_nil_r; by destruct req|].
  rewrite IH. cbn. by rewrite <-app_assoc.
Qed.

Lemma parse_method req m s :
  token m →
  parse method_start req (m ++ s) =
    parse in_method (mkRequest (method req ++ m) (uri req) (http_version_major req)
                       (http_version_minor req) (headers req)) s.
Proof.
  intros [Hne Hm]. destruct Hm as [|c m Hc Hm]; [done|]. cbn [app].
  rewrite (parse_stay _ _ _ _ in_method (add_method req c)) by (cbn; by rewrite Hc).
  rewrite (parse_loop (λ c, not_token c = false) add_method); [|clear; intros req c Hc|done].
  - rewrite foldl_add_method. cbn. by rewrite <-app_assoc.
  - cbn. rewrite bool_decide_false by (intros ->; by rewrite not_token_space in Hc). by rewrite Hc.
Qed.

Lemma parse_uri req u s :
  Forall uri_char u →
  parse in_uri req (u ++ s) =
    parse in_uri (mkRequest (method req) (uri req ++ u) (http_version_major req)
                    (http_version_minor req) (headers req)) s.
Proof.
  intros Hu. rewrite (parse_loop uri_char add_uri); [by rewrite foldl_add_uri| |done].
  intros r c [Hc Hsp]. cbn. rewrite bool_decide_false by done. by rewrite Hc.
Qed.

(** ** Version numbers *)

Definition dec_from (v : Z) (s : bytes) : Z := foldl (λ v c, v * 10 + char_val c - 48)%Z v s.

Lemma digit_range c : is_digit (char_val c) = true → (48 <= char_val c <= 57)%Z.
Proof. unfold is_digit. rewrite andb_true_iff, !Z.leb_le. lia. Qed.

Lemma dec_from_ge v w :
  Forall (λ c, is_digit (char_val c) = true) w → (0 <= v)%Z → (v <= dec_from v w)%Z.
Proof.
  intros Hw. revert v. induction Hw as [|c w Hc _ IH]; intros v Hv; cbn; [lia|].
  apply digit_range in Hc. etrans; [|apply IH]; lia.
Qed.

Lemma next_digit_ok v c :
  is_digit (char_val c) = true → (0 <= v)%Z → (v * 10 + char_val c <= INT_MAX)%Z →
  next_digit v c = Ret (v * 10 + char_val c - 48)%Z.
Proof.
  intros Hc%digit_range Hv Hmax. unfold next_digit, INT_MAX in *.
  rewrite int_res_ok by (unfold INT_MIN, INT_MAX; lia). cbn [mbind outcome_bind].
  rewrite int_res_ok by (unfold INT_MIN, INT_MAX; lia). cbn [mbind outcome_bind].
  by rewrite int_res_ok by (unfold INT_MIN, INT_MAX; lia).
Qed.

(** The loop over the digits of a number, for the major and the minor version
    alike: [get] reads the number and [put] replaces it. *)
Lemma parse_number (get : request → Z) (put : request → Z → request) st req w s :
  (∀ r v, get (put r v) = v) → (∀ r v v', put (put r v) v' = put r v') → (∀ r, put r (get r) = r) →
  (∀ r c, is_digit (char_val c) = true →
     consume st r c = (v ← next_digit (get r) c; stay st (put r v))) →
  Forall (λ c, is_digit (char_val c) = true) w → (0 <= get req)%Z →
  (dec_from (get req) w + 48 <= INT_MAX)%Z →
  parse st req (w ++ s) = parse st (put req (dec_from (get req) w)) s.
Proof.
  intros Hgp Hpp Hpg Hstep Hw. revert req. induction Hw as [|c w Hc Hw IH]; intros req Hv Hmax.
  { cbn. by rewrite Hpg. }
  cbn in Hmax. pose proof (digit_range c Hc) as Hr.
  pose proof (dec_from_ge (get req * 10 + char_val c - 48) w Hw ltac:(lia)) as Hge.
  cbn [app]. erewrite parse_stay.
  2: { rewrite Hstep, next_digit_ok by (done || unfold dec_from in *; lia). done. }
  rewrite IH; rewrite Hgp; [by rewrite Hpp|lia|done].
Qed.

Lemma digit_not_dot c : is_digit (char_val c) = true → c ≠ "."%char ∧ c ≠ CR.
Proof. intros Hc. split; intros ->; done. Qed.

Definition put_major (r : request) (v : Z) : request := set_version r v (http_version_minor r).
Definition put_minor (r : request) (v : Z) : request := set_version r (http_version_major r) v.

Lemma parse_major req w s :
  digits w → http_version_major req = 0%Z → (dec_val w + 48 <= INT_MAX)%Z →
  parse version_major_start req (w ++ s) = parse version_major (put_major req (dec_val w)) s.
Proof.
  intros [Hne Hw] Hz Hmax. destruct Hw as [|c w Hc Hw]; [done|].
  pose proof (digit_range c Hc) as Hr. cbn in Hmax.
  pose proof (dec_from_ge (0 * 10 + char_val c - 48) w Hw ltac:(lia)) as Hge. unfold dec_from in Hge.
  cbn [app]. erewrite parse_stay.
  2: { cbn [consume consume_version]. rewrite Hc, Hz, next_digit_ok by (done || lia). done. }
  rewrite (parse_number http_version_major put_major); [done|done|done|by intros []| |done|cbn; lia|done].
  intros r x Hx. cbn. rewrite bool_decide_false by (by apply digit_not_dot). by rewrite Hx.
Qed.

Lemma parse_minor req w s :
  digits w → http_version_minor req = 0%Z → (dec_val w + 48 <= INT_MAX)%Z →
  parse version_minor_start req (w ++ s) = parse version_minor (put_minor req (dec_val w)) s.
Proof.
  intros [Hne Hw] Hz Hmax. destruct Hw as [|c w Hc Hw]; [done|].
  pose proof (digit_range c Hc) as Hr. cbn in Hmax.
  pose proof (dec_from_ge (0 * 10 + char_val c - 48) w Hw ltac:(lia)) as Hge. unfold dec_from in Hge.
  cbn [app]. erewrite parse_stay.
  2: { cbn [consume consume_version]. rewrite Hc, Hz, next_digit_ok by (done || lia). done. }
  rewrite (parse_number http_version_minor put_minor); [done|done|done|by intros []| |done|cbn; lia|done].
  intros r x Hx. cbn. rewrite bool_decide_false by (by apply digit_not_dot). by rewrite Hx.
Qed.

(** ** Headers *)

Lemma on_back_snoc f req hs h :
  headers req = hs ++ [h] → on_back f req = Ret (set_headers req (hs ++ [f h])).
Proof. intros H. unfold on_back. by rewrite H, last_snoc, removelast_last. Qed.

Lemma lws_not_token c : is_lws c = true → not_token c = true ∧ c ≠ CR.
Proof.
  unfold is_lws. intros [H|H]%orb_true_iff; apply bool_decide_eq_true in H as ->; done.
Qed.

Lemma not_ctl_CR c : not_ctl c → c ≠ CR.
Proof. intros H ->. done. Qed.

Lemma token_char c : not_token c = false → c ≠ ":"%char ∧ c ≠ CR ∧ is_lws c = false.
Proof.
  intros H. split_and!; [by intros ->|by intros ->|].
  destruct (is_lws c) eqn:E; [|done]. apply lws_not_token in E as [E _]. congruence.
Qed.

(** A header name, from the start of its line. *)
Lemma parse_name req hs n s :
  token n → headers req = hs →
  parse header_line_start req (n ++ [":"%char; " "%char] ++ s) =
    parse header_value (set_headers req (hs ++ [mkHeader n []])) s.
Proof.
  intros [Hne Hn] Hhs. destruct Hn as [|c n Hc Hn]; [done|]. cbn [app].
  destruct (token_char c Hc) as (_ & Hcr & Hlws).
  rewrite (parse_stay _ _ _ _ header_name (set_headers req (hs ++ [mkHeader [c] []]))).
  2: { cbn. rewrite bool_decide_false by done. rewrite Hlws, andb_false_r, Hc.
       rewrite (on_back_snoc _ _ hs (mkHeader [] [])) by (cbn; by rewrite Hhs). done. }
  assert (∀ pre, parse header_name (set_headers req (hs ++ [mkHeader pre []])) (n ++ ":"%char :: " "%char :: s)
    = parse header_value (set_headers req (hs ++ [mkHeader (pre ++ n) []])) s) as Hgen.
  { clear -Hn. induction Hn as [|c n Hc _ IH]; intros pre.
    - rewrite app_nil_r. done.
    - cbn [app]. destruct (token_char c Hc) as (Hcol & _ & _). erewrite parse_stay.
      2: { cbn. rewrite bool_decide_false by done. rewrite Hc.
           rewrite (on_back_snoc _ _ hs (mkHeader pre [])) by done. done. }
      etrans; [exact (IH (pre ++ [c]))|]. by rewrite <-app_assoc. }
  apply (Hgen [c]).
Qed.

Lemma snoc_ne {A} (l : list A) x : l ++ [x] ≠ [].
Proof. by destruct l. Qed.

Lemma parse_blanks req l s :
  headers req ≠ [] → blanks l →
  parse header_line_start req (l ++ s) = parse header_lws req s.
Proof.
  intros Hne [Hl0 Hl]. destruct Hl as [|c l Hc Hl]; [done|]. cbn [app].
  destruct (lws_not_token c Hc) as [_ Hcr].
  rewrite (parse_stay _ _ _ _ header_lws req).
  2: { cbn. rewrite bool_decide_false by done. rewrite bool_decide_false by done. by rewrite Hc. }
  rewrite (parse_loop (λ c, is_lws c = true) (λ r _, r)); [|clear; intros req c Hc|done].
  - f_equal. clear. induction l; [done|]. cbn. auto.
  - destruct (lws_not_token c Hc) as [_ Hcr]. cbn. rewrite bool_decide_false by done. by rewrite Hc.
Qed.

Lemma parse_crlf req s : parse header_value req (CRLF ++ s) = parse header_line_start req s.
Proof. reflexivity. Qed.

Lemma parse_lws_crlf req s : parse header_lws req (CRLF ++ s) = parse header_line_start req s.
Proof. reflexivity. Qed.

Lemma set_headers_twice req a b : set_headers (set_headers req a) b = set_headers req b.
Proof. reflexivity. Qed.

Lemma parse_header_text h t :
  header_text h t → ∀ req s,
  parse header_line_start req (t ++ s) =
    parse header_line_start (set_headers req (headers req ++ [h])) s.
Proof.
  revert h t. apply (header_text_mut
    (λ h t, ∀ req s, parse header_line_start req (t ++ s) =
                     parse header_value (set_headers req (headers req ++ [h])) s)
    (λ h t, ∀ req s, parse header_line_start req (t ++ s) =
                     parse header_line_start (set_headers req (headers req ++ [h])) s)).
  - intros n Hn req s. rewrite <-app_assoc. by apply parse_name.
  - intros h t l c _ IH Hl Hlws Hctl req s. rewrite <-!app_assoc, IH.
    rewrite parse_blanks by (done || apply snoc_ne).
    cbn [app]. erewrite parse_stay; [done|]. cbn.
    rewrite bool_decide_false by (by apply not_ctl_CR). rewrite Hlws, Hctl.
    by rewrite (on_back_snoc _ _ (headers req) h) by done.
  - intros h t c _ IH Hctl req s. rewrite <-app_assoc, IH. cbn [app].
    erewrite parse_stay; [done|]. cbn.
    rewrite bool_decide_false by (by apply not_ctl_CR). rewrite Hctl.
    by rewrite (on_back_snoc _ _ (headers req) h) by done.
  - intros h t _ IH req s. by rewrite <-app_assoc, IH, parse_crlf.
  - intros h t l _ IH Hl req s. rewrite <-!app_assoc, IH.
    rewrite parse_blanks by (done || apply snoc_ne). by rewrite parse_lws_crlf.
Qed.

Lemma parse_headers_text hs t :
  headers_text hs t → ∀ req s, headers req = [] →
  parse header_line_start req (t ++ s) = parse header_line_start (set_headers req hs) s.
Proof.
  induction 1 as [|hs t h u _ IH Hu]; intros req s Hnil.
  - destruct req. cbn in *. by subst.
  - rewrite <-app_assoc, IH, (parse_header_text h u Hu) by done. done.
Qed.

(** Every request text is accepted and yields the request it says, if its
    version numbers leave room for the digit arithmetic in [int]. *)
Lemma parse_complete req text rest :
  request_text req text →
  (http_version_major req + 48 <= INT_MAX)%Z → (http_version_minor req + 48 <= INT_MAX)%Z →
  parse reset empty_request (text ++ rest) = Ret (yes, expecting_newline_3, req, rest).
Proof.
  intros (maj & min & ht & [Hm Hu Hmaj Hmin Emaj Emin] & Hht & ->) Bmaj Bmin.
  unfold line_text, lit. rewrite <-!app_assoc. cbn [String.list_ascii_of_string app].
  rewrite parse_method by done. cbn [method empty_request app].
  rewrite (parse_stay _ _ _ _ in_uri (mkRequest (method req) [] 0 0 [])) by done.
  rewrite parse_uri by done. cbn [method uri app].
  rewrite (parse_stay _ _ _ _ http_version_h (mkRequest (method req) (uri req) 0 0 [])) by done.
  do 5 (erewrite parse_stay by reflexivity).
  rewrite parse_major by (done || congruence).
  erewrite parse_stay by reflexivity.
  rewrite parse_minor by (done || congruence).
  unfold CRLF at 1. cbn [app].
  do 2 (erewrite parse_stay by reflexivity).
  rewrite (parse_headers_text (headers req)) by done.
  unfold CRLF. cbn [app]. erewrite parse_stay by reflexivity.
  cbn. rewrite <-Emaj, <-Emin. by destruct req.
Qed.

(** ** What each state stands for *)

(** The request line read so far is the method, the URI and [k]. *)
Definition line_pre (req : request) (s k : bytes) : Prop :=
  token (method req) ∧ Forall uri_char (uri req) ∧ headers req = [] ∧
  s = method req ++ lit " " ++ uri req ++ k.

(** The request line and the complete headers [hs] have been read, then [k]. *)
Definition after_line (req : request) (hs : list header) (s k : bytes) : Prop :=
  ∃ maj min ht, line_ok req maj min ∧ headers_text hs ht ∧ s = line_text req maj min ++ ht ++ k.

(** The text [s] takes the machine from its start to state [st] with [req]. *)
Definition reached (st : state) (req : request) (s : bytes) : Prop :=
  match st with
  | method_start => req = empty_request ∧ s = []
  | in_method => token (method req) ∧ uri req = [] ∧ headers req = [] ∧ s = method req
  | in_uri => line_pre req s []
  | http_version_h => line_pre req s (lit " ")
  | http_version_t_1 => line_pre req s (lit " H")
  | http_version_t_2 => line_pre req s (lit " HT")
  | http_version_p => line_pre req s (lit " HTT")
  | http_version_slash => line_pre req s (lit " HTTP")
  | version_major_start =>
      line_pre req s (lit " HTTP/") ∧ http_version_major req = 0%Z ∧ http_version_minor req = 0%Z
  | version_major =>
      ∃ maj, line_pre req s (lit " HTTP/" ++ maj) ∧ digits maj ∧
        http_version_major req = dec_val maj ∧ http_version_minor req = 0%Z
  | version_minor_start =>
      ∃ maj, line_pre req s (lit " HTTP/" ++ maj ++ lit ".") ∧ digits maj ∧
        http_version_major req = dec_val maj ∧ http_version_minor req = 0%Z
  | version_minor =>
      ∃ maj min, line_pre req s (lit " HTTP/" ++ maj ++ lit "." ++ min) ∧ line_ok req maj min
  | expecting_newline_1 =>
      ∃ maj min, line_pre req s (lit " HTTP/" ++ maj ++ lit "." ++ min ++ [CR]) ∧ line_ok req maj min
  | header_line_start => after_line req (headers req) s []
  | header_lws =>
      ∃ hs h t l, headers req = hs ++ [h] ∧ header_text h t ∧ blanks l ∧ after_line req hs s (t ++ l)
  | header_name =>
      ∃ hs n, headers req = hs ++ [mkHeader n []] ∧ token n ∧ after_line req hs s n
  | space_before_header_value =>
      ∃ hs n, headers req = hs ++ [mkHeader n []] ∧ token n ∧ after_line req hs s (n ++ [":"%char])
  | header_value =>
      ∃ hs h t, headers req = hs ++ [h] ∧ value_text h t ∧ after_line req hs s t
  | expecting_newline_2 =>
      ∃ hs h t, headers req = hs ++ [h] ∧ header_text h (t ++ [newline]) ∧ after_line req hs s t
  | expecting_newline_3 => after_line req (headers req) s [CR]
  end.

(** What a step from a reached state may do. *)
Definition step_ok (s : bytes) (c : ascii) (r : step_result) : Prop :=
  match r with
  | Ret (indeterminate, st, req) => reached st req (s ++ [c])
  | Ret (yes, _, req) => request_text req (s ++ [c])
  | Ret (no, _, _) => True
  | Throw _ => False
  | Undef u => u = IntOverflow
  end.

Lemma line_pre_snoc req s k c : line_pre req s k → line_pre req (s ++ [c]) (k ++ [c]).
Proof. intros (? & ? & ? & ->). split_and!; [done..|]. by rewrite <-!app_assoc. Qed.

Lemma after_line_snoc req hs s k c : after_line req hs s k → after_line req hs (s ++ [c]) (k ++ [c]).
Proof.
  intros (maj & min & ht & Hl & Hht & ->). exists maj, min, ht. split_and!; [done..|].
  by rewrite <-!app_assoc.
Qed.

Lemma after_line_headers req hs hs' s k :
  after_line req hs s k → after_line (set_headers req hs') hs s k.
Proof.
  intros (maj & min & ht & [] & Hht & ->). exists maj, min, ht. split_and!; [by split|done..].
Qed.

Lemma token_snoc s c : token s → not_token c = false → token (s ++ [c]).
Proof. intros [Hne Hs] Hc. split; [apply snoc_ne|]. apply Forall_app; auto. Qed.

Lemma digits_snoc s c : digits s → is_digit (char_val c) = true → digits (s ++ [c]).
Proof. intros [Hne Hs] Hc. split; [apply snoc_ne|]. apply Forall_app; auto. Qed.

Lemma blanks_snoc s c : blanks s → is_lws c = true → blanks (s ++ [c]).
Proof. intros [Hne Hs] Hc. split; [apply snoc_ne|]. apply Forall_app; auto. Qed.

Lemma dec_val_snoc s c : dec_val (s ++ [c]) = (dec_val s * 10 + char_val c - 48)%Z.
Proof. unfold dec_val. by rewrite foldl_app. Qed.

Lemma next_digit_inv v c :
  (∃ v', next_digit v c = Ret v' ∧ v' = v * 10 + char_val c - 48)%Z ∨ next_digit v c = Undef IntOverflow.
Proof.
  unfold next_digit, int_res.
  destruct (int_ok (v * 10)); cbn [mbind outcome_bind]; [|by right].
  destruct (int_ok (v * 10 + char_val c)); cbn [mbind outcome_bind]; [|by right].
  destruct (int_ok (v * 10 + char_val c - 48)); [left; eauto|by right].
Qed.

Lemma line_start_ok st req s c :
  reached st req s → (st = method_start ∨ st = in_method ∨ st = in_uri) →
  step_ok s c (consume_line_start st req c).
Proof.
  intros Hr [->|[->| ->]]; cbn [consume_line_start reached] in *.
  - destruct Hr as [-> ->]. destruct (not_token c) eqn:Hc; [done|]. cbn.
    split_and!; [split; [done|by constructor]|done..].
  - destruct Hr as (Hm & Hu & Hh & ->). case_bool_decide as Hsp; [subst c|].
    + cbn. unfold line_pre. rewrite Hu, app_nil_r. split_and!; [done|constructor|done|done].
    + destruct (not_token c) eqn:Hc; [done|]. cbn. split_and!; [by apply token_snoc|done..].
  - case_bool_decide as Hsp; [subst c; cbn; by apply (line_pre_snoc _ _ [])|].
    destruct (is_ctl (char_val c)) eqn:Hc; [done|]. cbn.
    destruct Hr as (Hm & Hu & Hh & ->). split_and!; cbn; [done|apply Forall_app; by repeat constructor|done|].
    by rewrite !app_nil_r, <-!app_assoc.
Qed.

Lemma step_ok_stay s c st req : reached st req (s ++ [c]) → step_ok s c (stay st req).
Proof. done. Qed.

Lemma expect_ok x next st req s c :
  reached st req s → (c = x → reached next req (s ++ [c])) → step_ok s c (expect x next st req c).
Proof. intros _ Hx. unfold expect. case_bool_decide; [by apply Hx|done]. Qed.

Lemma line_pre_version req s k a b : line_pre req s k → line_pre (set_version req a b) s k.
Proof. by intros (? & ? & ? & ->). Qed.

Lemma step_ok_bind {A} s c (m : outcome A) f :
  (∀ a, m = Ret a → step_ok s c (f a)) → (∀ e, m ≠ Throw e) → (∀ u, m = Undef u → u = IntOverflow) →
  step_ok s c (m ≫= f).
Proof. destruct m; cbn; naive_solver. Qed.

(** A step that takes one more digit into the number [v]. *)
Lemma digit_step s c v (f : Z → step_result) :
  step_ok s c (f (v * 10 + char_val c - 48)%Z) → step_ok s c (v ← next_digit v c; f v).
Proof.
  intros Hf. destruct (next_digit_inv v c) as [(v' & -> & ->)| ->]; [exact Hf|done].
Qed.

Lemma version_major_ok req s c maj :
  line_pre req s (lit " HTTP/" ++ maj) → (maj = [] ∨ digits maj) →
  is_digit (char_val c) = true →
  http_version_major req = dec_val maj → http_version_minor req = 0%Z →
  step_ok s c (v ← next_digit (http_version_major req) c;
               stay version_major (set_version req v (http_version_minor req))).
Proof.
  intros Hp Hmaj Hc Ev Em. apply digit_step, step_ok_stay. cbn [reached]. exists (maj ++ [c]). rewrite Ev, Em.
  split_and!; [|split; [apply snoc_ne|]|by rewrite dec_val_snoc|done].
  - rewrite app_assoc. by apply line_pre_version, line_pre_snoc.
  - apply Forall_app. split; [|by constructor]. destruct Hmaj as [->|[_ ?]]; [constructor|done].
Qed.

Lemma version_minor_ok req s c maj min :
  line_pre req s (lit " HTTP/" ++ maj ++ lit "." ++ min) → digits maj → (min = [] ∨ digits min) →
  is_digit (char_val c) = true →
  http_version_major req = dec_val maj → http_version_minor req = dec_val min →
  step_ok s c (v ← next_digit (http_version_minor req) c;
               stay version_minor (set_version req (http_version_major req) v)).
Proof.
  intros Hp Hmaj Hmin Hc Ev Em. apply digit_step, step_ok_stay. cbn [reached]. exists maj, (min ++ [c]). rewrite Ev, Em.
  pose proof Hp as (Hm & Hu & Hh & _). split.
  - rewrite !app_assoc. rewrite !app_assoc in Hp. by apply line_pre_version, line_pre_snoc.
  - split; cbn; [done|done|done| |done|by rewrite dec_val_snoc]. split; [apply snoc_ne|].
    apply Forall_app. split; [|by constructor]. destruct Hmin as [->|[_ ?]]; [constructor|done].
Qed.

Definition version_state (st : state) : bool :=
  match st with
  | http_version_h | http_version_t_1 | http_version_t_2 | http_version_p | http_version_slash
  | version_major_start | version_major | version_minor_start | version_minor => true
  | _ => false
  end.

Lemma version_ok st req s c :
  reached st req s → version_state st = true → step_ok s c (consume_version st req c).
Proof.
  intros Hr Hst. destruct st; try done; cbn [consume_version reached] in *.
  1-4: apply expect_ok; [exact Hr|intros ->; exact (line_pre_snoc _ _ _ _ Hr)].
  - case_bool_decide as Hc; [subst c|done]. apply step_ok_stay. split; [|done].
    exact (line_pre_version _ _ _ 0 0 (line_pre_snoc _ _ _ _ Hr)).
  - destruct Hr as (Hp & E1 & E2). destruct (is_digit (char_val c)) eqn:Hc; [|done].
    apply (version_major_ok _ _ _ []); auto.
  - destruct Hr as (maj & Hp & Hd & E1 & E2). case_bool_decide as Hdot; [subst c|].
    + apply step_ok_stay. exists maj. split_and!; [|done..]. rewrite app_assoc. by apply line_pre_snoc.
    + destruct (is_digit (char_val c)) eqn:Hc; [|done]. by apply (version_major_ok _ _ _ maj); auto.
  - destruct Hr as (maj & Hp & Hd & E1 & E2). destruct (is_digit (char_val c)) eqn:Hc; [|done].
    apply (version_minor_ok _ _ _ maj []); auto.
  - destruct Hr as (maj & min & Hp & Hl). case_bool_decide as Hcr; [subst c|].
    + apply step_ok_stay. exists maj, min. split; [|done]. rewrite !app_assoc in *. by apply line_pre_snoc.
    + destruct (is_digit (char_val c)) eqn:Hc; [|done]. destruct Hl.
      apply (version_minor_ok _ _ _ maj min); auto.
Qed.

(** A step that changes the last header. *)
Lemma back_step s c f req hs h st :
  headers req = hs ++ [h] → reached st (set_headers req (hs ++ [f h])) (s ++ [c]) →
  step_ok s c (req ← on_back f req; stay st req).
Proof. intros Hh Hr. rewrite (on_back_snoc f req hs h Hh). exact Hr. Qed.

Lemma after_line_next req hs h s t :
  headers req = hs ++ [h] → header_text h t → after_line req hs s t →
  after_line req (headers req) s [].
Proof.
  intros Hh Ht (maj & min & ht & Hl & Hht & ->). exists maj, min, (ht ++ t). rewrite Hh.
  split_and!; [done|by constructor|by rewrite app_nil_r].
Qed.

Lemma newline_1_ok req s c :
  reached expecting_newline_1 req s → step_ok s c (consume_headers expecting_newline_1 req c).
Proof.
  intros Hr. apply expect_ok; [done|]. intros ->.
  destruct Hr as (maj & min & (Hm & Hu & Hh & ->) & Hl). cbn [reached].
  exists maj, min, []. rewrite Hh. split_and!; [done|constructor|].
  unfold line_text, CRLF. by rewrite <-!app_assoc.
Qed.

Lemma header_line_start_ok req s c :
  reached header_line_start req s → step_ok s c (consume_headers header_line_start req c).
Proof.
  intros Hr. cbn [reached consume_headers] in *.
  case_bool_decide as Hcr; [subst c; cbn; by apply (after_line_snoc _ _ _ [])|].
  destruct (negb _ && is_lws c) eqn:Hl.
  - apply andb_true_iff in Hl as [Hne%negb_true_iff Hl]. apply bool_decide_eq_false in Hne. cbn.
    destruct Hr as (maj & min & ht & Hok & Hht & ->).
    inversion Hht as [Hnil|hs t h u Hhs Hu Hnil]; [congruence|].
    exists hs, h, u, [c]. split_and!; [done|done|split; [done|by constructor]|].
    exists maj, min, t. split_and!; [done..|]. by rewrite app_nil_r, <-!app_assoc.
  - destruct (not_token c) eqn:Hc; [done|].
    apply (back_step s c _ _ (headers req) (mkHeader [] [])); [done|]. cbn.
    exists (headers req), [c]. split_and!; [done|split; [done|by constructor]|].
    rewrite set_headers_twice. by apply after_line_headers, (after_line_snoc _ _ _ []).
Qed.

Lemma header_lws_ok req s c :
  reached header_lws req s → step_ok s c (consume_headers header_lws req c).
Proof.
  intros (hs & h & t & l & Hh & Ht & Hl & Hal). cbn [consume_headers].
  pose proof (after_line_snoc _ _ _ _ c Hal) as Hal'. rewrite <-app_assoc in Hal'.
  case_bool_decide as Hcr; [subst c|destruct (is_lws c) eqn:Hlws; [|destruct (is_ctl _) eqn:Hctl; [done|]]].
  - cbn. exists hs, h, (t ++ l ++ [CR]). split_and!; [done| |done].
    rewrite <-!app_assoc. by apply header_blank.
  - cbn. exists hs, h, t, (l ++ [c]). split_and!; [done|done|by apply blanks_snoc|done].
  - apply (back_step s c _ _ hs h); [done|]. cbn.
    exists hs, (add_value c h), (t ++ l ++ [c]). split_and!; [done|by apply value_fold|].
    by apply after_line_headers.
Qed.

Lemma header_name_ok req s c :
  reached header_name req s → step_ok s c (consume_headers header_name req c).
Proof.
  intros (hs & n & Hh & Hn & Hal). cbn [consume_headers].
  pose proof (after_line_snoc _ _ _ _ c Hal) as Hal'.
  case_bool_decide as Hcol; [subst c; cbn; eauto|]. destruct (not_token c) eqn:Hc; [done|].
  apply (back_step s c _ _ hs (mkHeader n [])); [done|]. cbn.
  exists hs, (n ++ [c]). split_and!; [done|by apply token_snoc|by apply after_line_headers].
Qed.

Lemma header_value_ok req s c :
  reached header_value req s → step_ok s c (consume_headers header_value req c).
Proof.
  intros (hs & h & t & Hh & Ht & Hal). cbn [consume_headers].
  pose proof (after_line_snoc _ _ _ _ c Hal) as Hal'.
  case_bool_decide as Hcr; [subst c|destruct (is_ctl _) eqn:Hctl; [done|]].
  - cbn. exists hs, h, (t ++ [CR]). split_and!; [done| |done].
    rewrite <-app_assoc. by apply header_end.
  - apply (back_step s c _ _ hs h); [done|]. cbn.
    exists hs, (add_value c h), (t ++ [c]). split_and!; [done|by apply value_char|].
    by apply after_line_headers.
Qed.

(** Every step from a reached state reaches a state, rejects, or completes a
    request text; the only undefined behaviour is overflow of a version number. *)
Lemma consume_ok st req s c : reached st req s → step_ok s c (consume st req c).
Proof.
  intros Hr. destruct st; cbn [consume]; try (by apply line_start_ok; auto); try (by apply version_ok).
  - by apply newline_1_ok.
  - by apply header_line_start_ok.
  - by apply header_lws_ok.
  - by apply header_name_ok.
  - apply expect_ok; [done|]. intros ->. destruct Hr as (hs & n & Hh & Hn & Hal).
    exists hs, (mkHeader n []), (n ++ [":"%char; " "%char]). split_and!; [done|by constructor|].
    apply (after_line_snoc _ _ _ _ " "%char) in Hal. by rewrite <-app_assoc in Hal.
  - by apply header_value_ok.
  - apply expect_ok; [done|]. intros ->. destruct Hr as (hs & h & t & Hh & Ht & Hal).
    apply (after_line_next _ _ _ _ _ Hh Ht). by apply after_line_snoc.
  - cbn. case_bool_decide as Hc; [subst c|done].
    destruct Hr as (maj & min & ht & Hl & Hht & ->). exists maj, min, ht. split_and!; [done..|].
    unfold CRLF. by rewrite <-!app_assoc.
Qed.

Lemma parse_reached input st req s :
  reached st req s →
  (∃ st' req', parse st req input = Ret (indeterminate, st', req', []) ∧ reached st' req' (s ++ input)) ∨
  (∃ st' req' text rest, parse st req input = Ret (yes, st', req', rest) ∧
     input = text ++ rest ∧ request_text req' (s ++ text)) ∨
  (∃ st' req' rest, parse st req input = Ret (no, st', req', rest)) ∨
  parse st req input = Undef IntOverflow.
Proof.
  revert st req s. induction input as [|c input IH]; intros st req s Hr.
  { left. exists st, req. split; [done|]. by rewrite app_nil_r. }
  pose proof (consume_ok st req s c Hr) as Hok. cbn [parse].
  destruct (consume st req c) as [[[[| |] st'] req']| |u]; cbn in Hok |- *.
  - right. left. by exists st', req', [c], input.
  - right. right. left. eauto.
  - destruct (IH st' req' (s ++ [c]) Hok)
      as [(st2 & req2 & -> & Hr2)|[(st2 & req2 & t & rest & -> & -> & Ht)|[(st2 & req2 & rest & ->)| ->]]].
    + left. exists st2, req2. by rewrite <-app_assoc in Hr2.
    + right. left. exists st2, req2, (c :: t), rest. by rewrite <-app_assoc in Ht.
    + right. right. left. eauto.
    + by do 3 right.
  - done.
  - do 3 right. by rewrite Hok.
Qed.

Lemma reached_start : reached reset empty_request [].
Proof. done. Qed.

(** C11: the parser accepts exactly the requests. It answers true on an input
    exactly when the input starts with a request text (method, URI, version,
    header lines with continuation lines, empty line); what it fills in is what
    that text says, and it stops right behind it. For the direction from the
    grammar to the parser the version numbers must leave room for the digit
    arithmetic in [int]. *)
Theorem parse_language :
  (∀ req text rest, request_text req text →
     (http_version_major req + 48 <= INT_MAX)%Z → (http_version_minor req + 48 <= INT_MAX)%Z →
     parse reset empty_request (text ++ rest) = Ret (yes, expecting_newline_3, req, rest)) ∧
  (∀ input st req rest, parse reset empty_request input = Ret (yes, st, req, rest) →
     ∃ text, input = text ++ rest ∧ request_text req text).
Proof.
  split; [apply parse_complete|]. intros input st req rest Hp.
  destruct (parse_reached input _ _ _ reached_start)
    as [(? & ? & E & _)|[(st2 & req2 & t & r & E & Hin & Ht)|[(? & ? & ? & E)|E]]];
    rewrite E in Hp; [done| |done|done].
  injection Hp as <- <- <-. by exists t.
Qed.

(** A text that leaves the parser waiting can be parsed piece by piece. *)
Lemma parse_more st req a st' req' rest b :
  parse st req a = Ret (indeterminate, st', req', rest) →
  parse st req (a ++ b) = parse st' req' b.
Proof.
  revert st req. induction a as [|c a IH]; intros st req Hp; cbn [app parse] in *.
  { by injection Hp as <- <- _. }
  destruct (consume st req c) as [[[[| |] st2] req2]| |]; cbn in *; [done|done|by apply IH|done|done].
Qed.

(** However the input is cut into pieces as it arrives from the network, the
    parser gives the same answer as on the whole: parsing the second piece from
    the state the first one left is parsing both. *)
Theorem parse_chunks st req a b :
  parse st req (a ++ b) =
    match parse st req a with
    | Ret (indeterminate, st', req', _) => parse st' req' b
    | Ret (r, st', req', rest) => Ret (r, st', req', rest ++ b)
    | Throw e => Throw e
    | Undef u => Undef u
    end.
Proof.
  revert st req. induction a as [|c a IH]; intros st req; [done|]. cbn [app parse].
  destruct (consume st req c) as [[[[| |] st'] req']| |]; cbn; auto.
Qed.

(** On any input the parser returns (it never touches the last header of an
    empty list), except that a version number may overflow [int]. *)
Theorem parse_safe input :
  (∃ r st req rest, parse reset empty_request input = Ret (r, st, req, rest)) ∨
  parse reset empty_request input = Undef IntOverflow.
Proof.
  destruct (parse_reached input _ _ _ reached_start) as [|[|[|]]]; naive_solver.
Qed.

(** And it does overflow: after a request line with eleven digits of major
    version the behaviour of the parser is undefined, whatever the method, the
    URI and the rest of the input. *)
Theorem version_overflow m u rest :
  token m → Forall uri_char u →
  parse reset empty_request (m ++ lit " " ++ u ++ lit " HTTP/99999999999" ++ rest) = Undef IntOverflow.
Proof.
  intros Hm Hu. unfold lit. cbn [String.list_ascii_of_string app].
  rewrite parse_method by done. cbn [method empty_request app].
  rewrite (parse_stay _ _ _ _ in_uri (mkRequest m [] 0 0 [])) by done.
  rewrite parse_uri by done. cbn [method uri app].
  do 15 (erewrite parse_stay by reflexivity). reflexivity.
Qed.

(** ** Examples *)
Definition sample_request : request :=
  mkRequest (lit "GET") (lit "/index.html") 1 0 [mkHeader (lit "Host") (lit "a b")].

Definition sample_text : bytes :=
  lit "GET /index.html HTTP/1.0" ++ CRLF ++ lit "Host: a" ++ CRLF ++ lit "  b" ++ CRLF ++ CRLF.

Example sample_folded :
  parse reset empty_request sample_text =
    Ret (yes, expecting_newline_3,
         mkRequest (lit "GET") (lit "/index.html") 1 0 [mkHeader (lit "Host") (lit "ab")], []).
Proof. vm_compute. reflexivity. Qed.

Ltac chars := repeat constructor; try (vm_compute; done); try discriminate.

Lemma sample_is_request :
  request_text sample_request
    (lit "GET /index.html HTTP/1.0" ++ CRLF ++ lit "Host: a b" ++ CRLF ++ CRLF).
Proof.
  exists (lit "1"), (lit "0"), (lit "Host: a b" ++ CRLF). split_and!.
  - split; chars.
  - apply (headers_snoc [] [] _ (lit "Host: a b" ++ CRLF)); [constructor|].
    apply header_end.
    apply (value_char (mkHeader (lit "Host") (lit "a ")) (lit "Host: a ") "b"%char); [|chars].
    apply (value_char (mkHeader (lit "Host") (lit "a")) (lit "Host: a") " "%char); [|chars].
    apply (value_char (mkHeader (lit "Host") []) (lit "Host: ") "a"%char); [|chars].
    apply (value_first (lit "Host")). chars.
  - reflexivity.
Qed.

Lemma parse_language_witness :
  parse reset empty_request
    ((lit "GET /index.html HTTP/1.0" ++ CRLF ++ lit "Host: a b" ++ CRLF ++ CRLF) ++ lit "next") =
  Ret (yes, expecting_newline_3, sample_request, lit "next").
Proof.
  apply (proj1 parse_language); [apply sample_is_request|vm_compute; discriminate|vm_compute; discriminate].
Defined.

Lemma version_overflow_witness :
  parse reset empty_request (lit "GET" ++ lit " " ++ lit "/" ++ lit " HTTP/99999999999" ++ lit ".0") =
    Undef IntOverflow.
Proof. apply (version_overflow (lit "GET") (lit "/") (lit ".0")); chars. Defined.

End HttpParser.
