(* ===== verification/HttpReply.v ===== *)
(** * Replies and the request handler of the Asio example servers

    (src/doc_searcher/data/input/html/boost_asio/example/http/server/{reply,
    mime_types,request_handler}.cpp.) A reply is a status, headers and a body
    that is sent as a sequence of buffers; the handler decodes the URI of a
    request to a path under the document root and sends the file back. *)

From S2P Require Import Prelude CxxString HttpParser.
Import HttpParser.

Module HttpReply.

(** ** reply *)

Inductive status_type :=
  | ok | created | accepted | no_content | multiple_choices | moved_permanently
  | moved_temporarily | not_modified | bad_request | unauthorized | forbidden | not_found
  | internal_server_error | not_implemented | bad_gateway | service_unavailable.

(** The values of the enumerators. *)
Definition status_code (s : status_type) : Z :=
  match s with
  | ok => 200 | created => 201 | accepted => 202 | no_content => 204
  | multiple_choices => 300 | moved_permanently => 301 | moved_temporarily => 302
  | not_modified => 304 | bad_request => 400 | unauthorized => 401 | forbidden => 403
  | not_found => 404 | internal_server_error => 500 | not_implemented => 501
  | bad_gateway => 502 | service_unavailable => 503
  end.

Record reply := mkReply { status : status_type; rep_headers : list header; rep_content : bytes }.

(** boost::lexical_cast<std::string>(n) for a [size_t]: the decimal digits. *)
Class LexicalCast := lexical_cast : nat → bytes.
Class LexicalCastLaws `{LexicalCast} : Prop :=
  lexical_cast_decimal n : digits (lexical_cast n) ∧ dec_val (lexical_cast n) = Z.of_nat n.

(** status_strings::to_buffer *)
Definition to_buffer (s : status_type) : bytes :=
  match s with
  | ok => lit "HTTP/1.0 200 OK" ++ CRLF
  | created => lit "HTTP/1.0 201 Created" ++ CRLF
  | accepted => lit "HTTP/1.0 202 Accepted" ++ CRLF
  | no_content => lit "HTTP/1.0 204 No Content" ++ CRLF
  | multiple_choices => lit "HTTP/1.0 300 Multiple Choices" ++ CRLF
  | moved_permanently => lit "HTTP/1.0 301 Moved Permanently" ++ CRLF
  | moved_temporarily => lit "HTTP/1.0 302 Moved Temporarily" ++ CRLF
  | not_modified => lit "HTTP/1.0 304 Not Modified" ++ CRLF
  | bad_request => lit "HTTP/1.0 400 Bad Request" ++ CRLF
  | unauthorized => lit "HTTP/1.0 401 Unauthorized" ++ CRLF
  | forbidden => lit "HTTP/1.0 403 Forbidden" ++ CRLF
  | not_found => lit "HTTP/1.0 404 Not Found" ++ CRLF
  | internal_server_error => lit "HTTP/1.0 500 Internal Server Error" ++ CRLF
  | not_implemented => lit "HTTP/1.0 501 Not Implemented" ++ CRLF
  | bad_gateway => lit "HTTP/1.0 502 Bad Gateway" ++ CRLF
  | service_unavailable => lit "HTTP/1.0 503 Service Unavailable" ++ CRLF
  end.

Definition name_value_separator : bytes := [":"%char; " "%char].
Definition crlf : bytes := CRLF.

(** The buffers pushed for one header. *)
Definition header_buffers (h : header) : list bytes := [name h; name_value_separator; value h; crlf].

(** reply::to_buffers *)
Definition to_buffers (rep : reply) : list bytes :=
  [to_buffer (status rep)] ++ (rep_headers rep ≫= header_buffers) ++ [crlf; rep_content rep].

(** stock_replies::to_string: a page with the title and the heading of the status. *)
Definition stock_page (title heading : bytes) : bytes :=
  lit "<html>" ++ lit "<head><title>" ++ title ++ lit "</title></head>" ++
  lit "<body><h1>" ++ heading ++ lit "</h1></body>" ++ lit "</html>".

Definition to_string (s : status_type) : bytes :=
  match s with
  | ok => []
  | created => stock_page (lit "Created") (lit "201 Created")
  | accepted => stock_page (lit "Accepted") (lit "202 Accepted")
  | no_content => stock_page (lit "No Content") (lit "204 Content")
  | multiple_choices => stock_page (lit "Multiple Choices") (lit "300 Multiple Choices")
  | moved_permanently => stock_page (lit "Moved Permanently") (lit "301 Moved Permanently")
  | moved_temporarily => stock_page (lit "Moved Temporarily") (lit "302 Moved Temporarily")
  | not_modified => stock_page (lit "Not Modified") (lit "304 Not Modified")
  | bad_request => stock_page (lit "Bad Request") (lit "400 Bad Request")
  | unauthorized => stock_page (lit "Unauthorized") (lit "401 Unauthorized")
  | forbidden => stock_page (lit "Forbidden") (lit "403 Forbidden")
  | not_found => stock_page (lit "Not Found") (lit "404 Not Found")
  | internal_server_error => stock_page (lit "Internal Server Error") (lit "500 Internal Server Error")
  | not_implemented => stock_page (lit "Not Implemented") (lit "501 Not Implemented")
  | bad_gateway => stock_page (lit "Bad Gateway") (lit "502 Bad Gateway")
  | service_unavailable => stock_page (lit "Service Unavailable") (lit "503 Service Unavailable")
  end.

Section Handler.
Context `{LexicalCast}.

Definition std_headers (content type : bytes) : list header :=
  [mkHeader (lit "Content-Length") (lexical_cast (length content));
   mkHeader (lit "Content-Type") type].

Definition stock_reply (s : status_type) : reply :=
  mkReply s (std_headers (to_string s) (lit "text/html")) (to_string s).

(** ** mime_types *)

Definition mappings : list (bytes * bytes) :=
  [(lit "gif", lit "image/gif"); (lit "htm", lit "text/html"); (lit "html", lit "text/html");
   (lit "jpg", lit "image/jpeg"); (lit "png", lit "image/png")].

(** The loop over the table, up to the entry that marks its end. *)
Fixpoint find_mapping (ms : list (bytes * bytes)) (extension : bytes) : bytes :=
  match ms with
  | [] => lit "text/plain"
  | (e, t) :: ms => if bool_decide (e = extension) then t else find_mapping ms extension
  end.

Definition extension_to_type (extension : bytes) : bytes := find_mapping mappings extension.

(** ** request_handler *)

Definition is_space (c : ascii) : bool :=
  let n := nat_of_ascii c in (n =? 32) || ((9 <=? n) && (n <=? 13)).

Definition hex_digit (c : ascii) : option Z :=
  let n := Z.of_nat (nat_of_ascii c) in
  if (48 <=? n)%Z && (n <=? 57)%Z then Some (n - 48)%Z
  else if (65 <=? n)%Z && (n <=? 70)%Z then Some (n - 55)%Z
  else if (97 <=? n)%Z && (n <=? 102)%Z then Some (n - 87)%Z
  else None.

(** The longest run of hexadecimal digits, after [v] and [some] digits. *)
Fixpoint hex_run (some : bool) (v : Z) (s : bytes) : option Z :=
  match s with
  | [] => if some then Some v else None
  | c :: s =>
      match hex_digit c with
      | Some d => hex_run true (v * 16 + d) s
      | None => if some then Some v else None
      end
  end.

Fixpoint skip_blanks (s : bytes) : bytes :=
  match s with
  | [] => []
  | c :: s' => if is_space c then skip_blanks s' else s
  end.

(** After the sign: an optional 0x, then digits. *)
Definition hex_unsigned (s : bytes) : option Z :=
  match s with
  | "0"%char :: "x"%char :: s' => hex_run false 0 s'
  | "0"%char :: "X"%char :: s' => hex_run false 0 s'
  | _ => hex_run false 0 s
  end.

(** [is >> std::hex >> value] on a string stream: blanks are skipped, a sign and
    a base prefix are accepted, and characters after the number are left. *)
Definition extract_hex (s : bytes) : option Z :=
  match skip_blanks s with
  | "-"%char :: s' => Z.opp <$> hex_unsigned s'
  | "+"%char :: s' => hex_unsigned s'
  | s' => hex_unsigned s'
  end.

(** [static_cast<char>(value)] *)
Definition to_char (v : Z) : ascii := chr (Z.to_nat (v mod 256)).

(** request_handler::url_decode from position [i] on ([input] is what is left);
    [None] is the return value false. *)
Fixpoint url_decode_from (input out : bytes) : option bytes :=
  match input with
  | [] => Some out
  | c :: rest =>
      if bool_decide (c = "%"%char) then
        match rest with
        | a :: b :: rest' =>
            match extract_hex [a; b] with
            | Some v => url_decode_from rest' (out ++ [to_char v])
            | None => None
            end
        | _ => None
        end
      else if bool_decide (c = "+"%char) then url_decode_from rest (out ++ [" "%char])
      else url_decode_from rest (out ++ [c])
  end.
Definition url_decode (input : bytes) : option bytes := url_decode_from input [].

(** [s.find_last_of(c)] *)
Fixpoint find_last_of (s : bytes) (c : ascii) : option nat :=
  match s with
  | [] => None
  | x :: s =>
      match find_last_of s c with
      | Some i => Some (S i)
      | None => if bool_decide (x = c) then Some 0 else None
      end
  end.

(** The string up to its first null character: what [c_str()] passes on. *)
Fixpoint c_str (s : bytes) : bytes :=
  match s with
  | [] => []
  | c :: s => if bool_decide (c = chr 0) then [] else c :: c_str s
  end.

(** [while (is.read(buf, 512).gcount() > 0) content.append(buf, is.gcount())]:
    every round takes a character at least, so [length s] rounds are enough. *)
Fixpoint read_all (n : nat) (s content : bytes) : bytes :=
  match n, s with
  | 0, _ => content
  | _, [] => content
  | S n, _ => read_all n (drop 512 s) (content ++ take 512 s)
  end.

(** The extension of a path: what follows the last dot, if that comes after the
    last slash. *)
Definition path_ext (path : bytes) : outcome bytes :=
  match find_last_of path "."%char, find_last_of path "/"%char with
  | Some last_dot_pos, Some last_slash_pos =>
      if last_slash_pos <? last_dot_pos then substr_from path (last_dot_pos + 1) else Ret []
  | _, _ => Ret []
  end.

(** request_handler::handle_request: the path opened, if any, and the reply. *)
Definition handle_request (files : file_store) (doc_root_ : bytes) (req : request) (rep : reply) :
    outcome (option bytes * reply) :=
  match url_decode (uri req) with
  | None => Ret (None, stock_reply bad_request)
  | Some request_path =>
      if bool_decide (request_path = []) || negb (bool_decide (head request_path = Some "/"%char))
         || bool_decide (find request_path (lit "..") 0 ≠ None)
      then Ret (None, stock_reply bad_request)
      else
        let request_path :=
          if bool_decide (last request_path = Some "/"%char)
          then request_path ++ lit "index.html" else request_path in
        extension ← path_ext request_path;
        let full_path := c_str (doc_root_ ++ request_path) in
        match files !! full_path with
        | None => Ret (Some full_path, stock_reply not_found)
        | Some text =>
            let content := read_all (length text) text (rep_content rep) in
            Ret (Some full_path,
                 mkReply ok (std_headers content (extension_to_type extension)) content)
        end
  end.

End Handler.

(** ** Replies on the wire *)

Definition header_ok (h : header) : Prop := token (name h) ∧ Forall not_ctl (value h).

Lemma value_text_plain n v : token n → Forall not_ctl v →
  value_text (mkHeader n v) (n ++ [":"%char; " "%char] ++ v).
Proof.
  intros Hn. induction v as [|c v IH] using rev_ind; intros Hv.
  - rewrite app_nil_r. by apply value_first.
  - apply Forall_app in Hv as [Hv Hc]. apply Forall_cons_1 in Hc as [Hc _].
    pose proof (value_char (mkHeader n v) (n ++ [":"%char; " "%char] ++ v) c (IH Hv) Hc) as Hx.
    by rewrite <-!app_assoc in Hx.
Qed.

Lemma header_buffers_text h : header_ok h → header_text h (mjoin (header_buffers h)).
Proof.
  intros [Hn Hv]. destruct h as [n v]. cbn in *.
  pose proof (header_end _ _ (value_text_plain n v Hn Hv)) as Hx.
  by rewrite <-!app_assoc in Hx.
Qed.

Lemma headers_buffers_text hs :
  Forall header_ok hs → headers_text hs (mjoin (hs ≫= header_buffers)).
Proof.
  induction hs as [|h hs IH] using rev_ind; intros Hhs; [constructor|].
  apply Forall_app in Hhs as [Hhs Hh]. apply Forall_cons_1 in Hh as [Hh _].
  rewrite bind_app, join_app. apply headers_snoc; [by apply IH|].
  cbn [mbind list_bind]. rewrite app_nil_r. by apply header_buffers_text.
Qed.

(** What is sent for a reply is its status line followed by text from which
    the header states of the request parser read back exactly the headers of the
    reply and stop in front of its body, provided names are tokens and values
    have no control characters. *)
Theorem to_buffers_roundtrip rep :
  Forall header_ok (rep_headers rep) →
  ∃ text, mjoin (to_buffers rep) = to_buffer (status rep) ++ text ∧
    parse header_line_start empty_request text =
      Ret (yes, expecting_newline_3, set_headers empty_request (rep_headers rep), rep_content rep).
Proof.
  intros Hh. exists (mjoin (rep_headers rep ≫= header_buffers) ++ crlf ++ rep_content rep). split.
  - unfold to_buffers. rewrite !join_app. cbn. by rewrite !app_nil_r.
  - rewrite (parse_headers_text (rep_headers rep)); [reflexivity|by apply headers_buffers_text|done].
Qed.

(** The status line carries the number of the enumerator. *)
Lemma to_buffer_code s :
  ∃ d reason, to_buffer s = lit "HTTP/1.0 " ++ d ++ lit " " ++ reason ++ CRLF ∧
    length d = 3 ∧ dec_val d = status_code s.
Proof.
  exists (take 3 (drop 9 (to_buffer s))), (take (length (to_buffer s) - 15) (drop 13 (to_buffer s))).
  by destruct s.
Qed.

(** ** The handler *)

Lemma read_all_enough n s content : length s ≤ n → read_all n s content = content ++ s.
Proof.
  revert s content. induction n as [|n IH]; intros s content Hn.
  { destruct s; [by rewrite app_nil_r|cbn in Hn; lia]. }
  destruct s as [|c s]; [by rewrite app_nil_r|].
  assert (length (drop 512 (c :: s)) ≤ n) as Hd by (rewrite length_drop; cbn [length] in *; lia).
  cbn [read_all]. rewrite IH by exact Hd. rewrite <-app_assoc. f_equal. apply take_drop.
Qed.

Lemma find_last_of_bound s c i : find_last_of s c = Some i → i < length s.
Proof.
  revert i. induction s as [|x s IH]; intros i; cbn; [done|].
  destruct (find_last_of s c) as [k|]; [intros [= <-]; specialize (IH k eq_refl); lia|].
  case_bool_decide; [intros [= <-]; lia|done].
Qed.

Lemma path_ext_total path : ∃ ext, path_ext path = Ret ext.
Proof.
  unfold path_ext. destruct (find_last_of path "."%char) as [d|] eqn:Ed; [|eauto].
  destruct (find_last_of path "/"%char); [|eauto]. destruct (_ <? d); [|eauto].
  apply find_last_of_bound in Ed. rewrite substr_from_ok by lia. eauto.
Qed.

Lemma c_str_prefix s : c_str s `prefix_of` s.
Proof.
  induction s as [|c s IH]; [done|]. cbn. case_bool_decide; [apply prefix_nil|].
  by apply prefix_cons.
Qed.

Lemma c_str_no_nul s : chr 0 ∉ c_str s.
Proof. induction s as [|c s IH]; cbn; [set_solver|]. case_bool_decide; set_solver. Qed.

Lemma c_str_app s t : chr 0 ∉ s → c_str (s ++ t) = s ++ c_str t.
Proof.
  induction s as [|c s IH]; intros Hs; [done|]. cbn [app c_str].
  rewrite bool_decide_false by set_solver. rewrite IH by set_solver. done.
Qed.

Definition dotdot : bytes := lit "..".

Lemma occurs_prefix p s t i : occurs_at p s i → s `prefix_of` t → occurs_at p t i.
Proof.
  rewrite !occurs_at_split. intros (a & b & -> & <-) [k ->].
  exists a, (b ++ k). by rewrite <-!app_assoc.
Qed.

(** Appending "index.html" to a path that ends in a slash adds no "..". *)
Lemma dotdot_index p i :
  last p = Some "/"%char → occurs_at dotdot (p ++ lit "index.html") i → occurs_at dotdot p i.
Proof.
  intros Hlast Ho. destruct (decide (i + 2 ≤ length p)) as [Hle|Hgt].
  - destruct Ho as [_ [k Hk]]. split; [lia|].
    rewrite drop_app_le in Hk by lia.
    apply (f_equal (take (length dotdot))) in Hk.
    rewrite take_app_length, take_app_le in Hk by (rewrite length_drop; cbn; lia).
    exists (drop 2 (drop i p)). change 2 with (length dotdot).
    rewrite <-Hk at 1. by rewrite take_drop.
  - exfalso.
    pose proof (occurs_at_lookup _ _ _ 0 "."%char Ho eq_refl) as H0.
    pose proof (occurs_at_lookup _ _ _ 1 "."%char Ho eq_refl) as H1.
    rewrite last_lookup in Hlast.
    destruct (decide (i < length p)) as [Hlt|Hge].
    + rewrite lookup_app_l in H0 by lia.
      replace (i + 0) with (pred (length p)) in H0 by lia. congruence.
    + rewrite lookup_app_r in H0, H1 by lia.
      remember (i - length p) as k eqn:Ek.
      replace (i + 0 - length p) with k in H0 by lia.
      replace (i + 1 - length p) with (S k) in H1 by lia. clear -H0 H1.
      do 11 (destruct k as [|k]; [done|]). cbn in H0. done.
Qed.

(** A path the handler serves: absolute and without "..". *)
Definition admitted (p : bytes) : Prop :=
  head p = Some "/"%char ∧ ∀ i, ¬ occurs_at dotdot p i.

(** The file it stands for. *)
Definition file_of (p : bytes) : bytes :=
  if bool_decide (last p = Some "/"%char) then p ++ lit "index.html" else p.

Lemma admitted_test p :
  (bool_decide (p = []) || negb (bool_decide (head p = Some "/"%char))
   || bool_decide (find p (lit "..") 0 ≠ None)) = false ↔ admitted p.
Proof.
  rewrite !orb_false_iff, negb_false_iff, bool_decide_eq_true, !bool_decide_eq_false.
  unfold admitted. rewrite <-(and_assoc (p ≠ [])). split.
  - intros (_ & Hh & Hf). split; [done|]. apply dec_stable in Hf. rewrite find_None in Hf.
    intros i. apply Hf. lia.
  - intros [Hh Hd]. split; [by destruct p|]. split; [done|]. intros Hf. apply Hf, find_None.
    intros i _. apply Hd.
Qed.

#[export] Instance admitted_dec p : Decision (admitted p).
Proof.
  destruct (bool_decide (p = []) || negb (bool_decide (head p = Some "/"%char))
            || bool_decide (find p (lit "..") 0 ≠ None)) eqn:E.
  - right. intros Ha%admitted_test. congruence.
  - left. by apply admitted_test.
Defined.

Lemma file_of_admitted p : admitted p → admitted (file_of p).
Proof.
  intros [Hh Hd]. unfold file_of. case_bool_decide as Hl; [|done]. split.
  - by destruct p.
  - intros i Hi. apply (Hd i). by apply dotdot_index.
Qed.

Section HandlerProps.
Context `{LexicalCast}.

(** The handler in one equation per case. *)
Lemma handle_request_eq files root req rep :
  handle_request files root req rep =
    match url_decode (uri req) with
    | Some p =>
        if decide (admitted p) then
          ext ← path_ext (file_of p);
          let full := c_str (root ++ file_of p) in
          match files !! full with
          | None => Ret (Some full, stock_reply not_found)
          | Some text =>
              let content := rep_content rep ++ text in
              Ret (Some full, mkReply ok (std_headers content (extension_to_type ext)) content)
          end
        else Ret (None, stock_reply bad_request)
    | None => Ret (None, stock_reply bad_request)
    end.
Proof.
  unfold handle_request. destruct (url_decode (uri req)) as [p|]; [|done].
  destruct (decide (admitted p)) as [Ha|Ha].
  - rewrite (proj2 (admitted_test p) Ha). fold (file_of p).
    destruct (path_ext (file_of p)); cbn [mbind outcome_bind]; [|done..].
    destruct (files !! _); [|done]. by rewrite read_all_enough by lia.
  - destruct (_ || _) eqn:E; [done|]. by apply admitted_test in E.
Qed.

Lemma handle_request_total files root req rep :
  ∃ opened rep', handle_request files root req rep = Ret (opened, rep').
Proof.
  rewrite handle_request_eq. destruct (url_decode (uri req)) as [p|]; [|eauto].
  case_decide; [|eauto]. destruct (path_ext_total (file_of p)) as [ext ->]. cbn [mbind outcome_bind].
  destruct (files !! _); eauto.
Qed.

(** C12: confinement. Whatever the request, the only file the handler opens is
    the document root followed by a path that starts with a slash and contains
    no "..", also after %-decoding and after the path is cut at a null character. *)
Theorem handle_request_confined files root req rep p rep' :
  chr 0 ∉ root → handle_request files root req rep = Ret (Some p, rep') →
  ∃ q, p = root ++ q ∧ head q = Some "/"%char ∧ (∀ i, ¬ occurs_at (lit "..") q i) ∧ chr 0 ∉ q.
Proof.
  intros Hroot. rewrite handle_request_eq.
  destruct (url_decode (uri req)) as [d|]; [|done]. case_decide as Ha; [|done].
  destruct (path_ext_total (file_of d)) as [ext ->]. cbn [mbind outcome_bind].
  apply file_of_admitted in Ha as [Hh Hd]. rewrite c_str_app by done.
  intros Hret. exists (c_str (file_of d)). split_and!.
  - destruct (files !! _); congruence.
  - destruct (file_of d) as [|c f]; [done|]. injection Hh as ->. done.
  - intros i Hi. apply (Hd i). eapply occurs_prefix; [exact Hi|apply c_str_prefix].
  - apply c_str_no_nul.
Qed.

(** The first header of a reply announces the length of its body. *)
Definition length_announced (rep : reply) : Prop :=
  ∃ v hs, rep_headers rep = mkHeader (lit "Content-Length") v :: hs ∧
    digits v ∧ dec_val v = Z.of_nat (length (rep_content rep)).

Lemma std_headers_announced `{!LexicalCastLaws} s content type :
  length_announced (mkReply s (std_headers content type) content).
Proof. eexists _, _. split; [done|]. apply lexical_cast_decimal. Qed.

(** C13: the handler always replies, the reply announces the length of its body,
    and its status says what happened: 400 exactly when the URI does not decode
    or the path is not admitted, otherwise 404 when there is no such file, and
    otherwise 200 with the contents of the file behind what the reply already
    held. *)
Theorem handle_request_spec `{!LexicalCastLaws} files root req rep :
  ∃ opened rep', handle_request files root req rep = Ret (opened, rep') ∧ length_announced rep' ∧
    (status rep' = bad_request ↔ ∀ p, url_decode (uri req) = Some p → ¬ admitted p) ∧
    (status rep' = not_found ↔ ∃ p, url_decode (uri req) = Some p ∧ admitted p ∧
       files !! c_str (root ++ file_of p) = None) ∧
    (∀ p text, url_decode (uri req) = Some p → admitted p →
       files !! c_str (root ++ file_of p) = Some text →
       status rep' = ok ∧ rep_content rep' = rep_content rep ++ text).
Proof.
  rewrite handle_request_eq. destruct (url_decode (uri req)) as [p|].
  2: { eexists _, _. split; [done|]. split; [apply std_headers_announced|]. naive_solver. }
  case_decide as Ha.
  2: { eexists _, _. split; [done|]. split; [apply std_headers_announced|]. naive_solver. }
  destruct (path_ext_total (file_of p)) as [ext ->]. cbn [mbind outcome_bind].
  destruct (files !! c_str (root ++ file_of p)) as [text|] eqn:Ef;
    eexists _, _; (split; [done|]); (split; [apply std_headers_announced|]); naive_solver.
Qed.

End HandlerProps.

(** ** URL encoding *)

Definition hex_char (n : nat) : ascii := if n <? 10 then chr (48 + n) else chr (55 + n).
Definition hex_hi (c : ascii) : ascii := hex_char (nat_of_ascii c / 16).
Definition hex_lo (c : ascii) : ascii := hex_char (nat_of_ascii c mod 16).

(** [encodes s t]: [t] is a URL encoding of [s]. Every character may be written
    as an escape, a blank as a plus sign. *)
Inductive encodes : bytes → bytes → Prop :=
  | enc_nil : encodes [] []
  | enc_plain c s t : c ≠ "%"%char → c ≠ "+"%char → encodes s t → encodes (c :: s) (c :: t)
  | enc_plus s t : encodes s t → encodes (" "%char :: s) ("+"%char :: t)
  | enc_escape c s t : encodes s t → encodes (c :: s) ("%"%char :: hex_hi c :: hex_lo c :: t).

Lemma extract_hex_pair c : ∃ v, extract_hex [hex_hi c; hex_lo c] = Some v ∧ to_char v = c.
Proof. destruct c as [[] [] [] [] [] [] [] []]; eexists; split; reflexivity. Qed.

Lemma url_decode_from_app s t k out :
  encodes s t → url_decode_from (t ++ k) out = url_decode_from k (out ++ s).
Proof.
  intros He. revert out. induction He as [|c s t Hp Hq _ IH|s t _ IH|c s t _ IH]; intros out.
  - by rewrite app_nil_r.
  - cbn [app url_decode_from]. rewrite !bool_decide_false by done. by rewrite IH, <-app_assoc.
  - cbn [app url_decode_from]. rewrite bool_decide_false, bool_decide_true by done.
    by rewrite IH, <-app_assoc.
  - cbn [app url_decode_from]. rewrite bool_decide_true by done.
    destruct (extract_hex_pair c) as (v & -> & ->). by rewrite IH, <-app_assoc.
Qed.

(** Decoding undoes every URL encoding, and an escape that the end of the
    URI cuts short makes it fail. *)
Theorem url_decode_encodes s t :
  encodes s t →
  url_decode t = Some s ∧ url_decode (t ++ lit "%") = None ∧
  ∀ a, url_decode (t ++ ["%"%char; a]) = None.
Proof.
  intros He. unfold url_decode. split_and!; [|by rewrite (url_decode_from_app s)..|].
  - rewrite <-(app_nil_r t). by rewrite (url_decode_from_app s).
  - intros a. by rewrite (url_decode_from_app s).
Qed.

(** ** Examples *)

(** The decimal digits of a number; a number has fewer digits than its successor
    is large, so that much fuel is enough. *)
Fixpoint dec_digits (fuel n : nat) : bytes :=
  match fuel with
  | 0 => []
  | S fuel => (if n <? 10 then [] else dec_digits fuel (n / 10)) ++ [chr (48 + n mod 10)]
  end.
Definition ref_LexicalCast : LexicalCast := λ n, dec_digits (S n) n.
#[local] Existing Instance ref_LexicalCast.

Lemma char_val_digit d : d < 10 → char_val (chr (48 + d)) = (48 + Z.of_nat d)%Z.
Proof. intros Hd. do 10 (destruct d as [|d]; [reflexivity|]). lia. Qed.

Lemma dec_digits_spec fuel n :
  n < fuel → digits (dec_digits fuel n) ∧ dec_val (dec_digits fuel n) = Z.of_nat n.
Proof.
  revert n. induction fuel as [|fuel IH]; intros n Hn; [lia|]. cbn [dec_digits].
  assert (n mod 10 < 10) as Hm by (apply Nat.mod_upper_bound; lia).
  assert (is_digit (char_val (chr (48 + n mod 10))) = true) as Hd.
  { rewrite char_val_digit by done. unfold is_digit. by bool_true. }
  destruct (Nat.ltb_spec n 10) as [Hlt|Hge].
  - split; [split; [done|by constructor]|]. cbn [app]. unfold dec_val. cbn [foldl].
    rewrite char_val_digit by done. rewrite Nat.mod_small by lia. lia.
  - assert (n / 10 < n) as Hdiv by (apply Nat.div_lt; lia).
    destruct (IH (n / 10)) as [Hds Hv]; [lia|]. split; [by apply digits_snoc|].
    rewrite dec_val_snoc, Hv, char_val_digit by done.
    pose proof (Nat.div_mod_eq n 10). lia.
Qed.

Lemma ref_LexicalCast_laws : @LexicalCastLaws ref_LexicalCast.
Proof. intros n. apply dec_digits_spec. lia. Qed.

Example decode_lenient :
  url_decode (lit "%-1") = Some [chr 255] ∧ url_decode (lit "% 1") = Some [chr 1] ∧
  url_decode (lit "%1g") = Some [chr 1] ∧ url_decode (lit "%0x") = None.
Proof. by vm_compute. Qed.

(** The type of the reply comes from the name before the cut at the null
    character, the contents from the file named after it. *)
Example nul_extension :
  ∃ rep, handle_request {[ lit "/srv/secret.txt" := lit "text" ]} (lit "/srv")
           (mkRequest (lit "GET") (lit "/secret.txt%00.html") 1 0 []) (mkReply ok [] []) =
         Ret (Some (lit "/srv/secret.txt"), rep) ∧
    rep_headers rep !! 1 = Some (mkHeader (lit "Content-Type") (lit "text/html")) ∧
    rep_content rep = lit "text".
Proof. eexists. split; [vm_compute; reflexivity|]. by vm_compute. Qed.

Lemma to_buffers_witness :
  ∃ text, mjoin (to_buffers (stock_reply not_found)) = to_buffer not_found ++ text ∧
    parse header_line_start empty_request text =
      Ret (yes, expecting_newline_3, set_headers empty_request (rep_headers (stock_reply not_found)),
           to_string not_found).
Proof.
  apply (to_buffers_roundtrip (stock_reply not_found)).
  repeat constructor; cbn; try discriminate; by vm_compute.
Defined.

Lemma handle_request_witness :
  ∃ opened rep', handle_request {[ lit "/srv/a.html" := lit "page" ]} (lit "/srv")
      (mkRequest (lit "GET") (lit "/a.html") 1 0 []) (mkReply ok [] []) = Ret (opened, rep') ∧
    length_announced rep' ∧ status rep' = ok ∧ rep_content rep' = lit "page".
Proof.
  destruct (@handle_request_spec ref_LexicalCast ref_LexicalCast_laws
              {[ lit "/srv/a.html" := lit "page" ]} (lit "/srv")
              (mkRequest (lit "GET") (lit "/a.html") 1 0 []) (mkReply ok [] []))
    as (opened & rep' & Hr & Hl & _ & _ & Hok).
  exists opened, rep'. split; [exact Hr|]. split; [exact Hl|].
  apply (Hok (lit "/a.html") (lit "page")); [reflexivity| |reflexivity].
  apply (bool_decide_unpack _). vm_compute. reflexivity.
Defined.

Lemma confined_witness :
  ∃ q, lit "/srv/a.html" = lit "/srv" ++ q ∧ head q = Some "/"%char ∧
    (∀ i, ¬ occurs_at (lit "..") q i) ∧ chr 0 ∉ q.
Proof.
  eapply (handle_request_confined ∅ (lit "/srv") (mkRequest (lit "GET") (lit "/a.html") 1 0 [])
            (mkReply ok [] [])); [|vm_compute; reflexivity].
  apply (bool_decide_unpack _). vm_compute. reflexivity.
Defined.

Lemma url_decode_witness :
  url_decode (lit "a%2B+") = Some (lit "a+ ") ∧ url_decode (lit "a%2B+%") = None.
Proof.
  assert (encodes (lit "a+ ") (lit "a%2B+")) as He.
  { apply enc_plain; [done..|]. apply (enc_escape "+"%char). apply enc_plus. constructor. }
  destruct (url_decode_encodes (lit "a+ ") (lit "a%2B+") He) as (H1 & H2 & _).
  split; [exact H1|exact H2].
Defined.

End HttpReply.
