(* ===== verification/Asio.v ===== *)
(** * Streams and error codes of the Asio programs

    What the example programs share: error codes, the console as an output stream,
    extraction from an input stream, and reading from a socket. What arrives on a
    socket is the list of pieces the network delivers, followed by an error that
    ends the stream; a composed read takes pieces until its condition holds. *)

From S2P Require Import Prelude CxxString HttpParser HttpReply.

Module Asio.

(** [boost::system::error_code], as far as the programs tell errors apart. *)
Inductive error_code :=
  | success | eof | would_block | not_found | operation_aborted | message_size
  | other_error (value : Z).

#[export] Instance error_code_eq_dec : EqDecision error_code.
Proof. solve_decision. Defined.

(** The conversion of an error code to bool. *)
Definition failed (e : error_code) : bool := negb (bool_decide (e = success)).

(** The texts Boost.System gives to an error: [message()], what [operator<<]
    prints, and [what()] of the exception that carries it. *)
Class ErrorText := {
  message : error_code → bytes;
  show_code : error_code → bytes;
  what : error_code → bytes;
}.

(** ** Output streams *)

Record ostream := mkOut { written : bytes; out_ok : bool }.

Definition console : ostream := mkOut [] true.

(** [os << text]: nothing is written once the stream has failed. *)
Definition put (o : ostream) (s : bytes) : ostream :=
  if out_ok o then mkOut (written o ++ s) true else o.

(** [os << &streambuf]: all characters; the stream fails when there are none. *)
Definition put_buf (o : ostream) (b : bytes) : ostream :=
  if out_ok o then mkOut (written o ++ b) (negb (bool_decide (b = []))) else o.

(** [os << n] for an unsigned number of at most 20 digits. *)
Fixpoint show_dec (fuel : nat) (z : Z) : bytes :=
  match fuel with
  | 0 => []
  | S fuel =>
      if (z <? 10)%Z then [chr (48 + Z.to_nat z)]
      else show_dec fuel (z / 10) ++ [chr (48 + Z.to_nat (z mod 10))]
  end.
Definition show_unsigned (z : Z) : bytes := show_dec 20 z.

(** ** Input streams

    The unread characters; [None] is a stream that has failed. *)

(** The characters up to the next white space. *)
Fixpoint span_word (s : bytes) : bytes * bytes :=
  match s with
  | [] => ([], [])
  | c :: s' => if HttpReply.is_space c then ([], s)
               else let '(w, r) := span_word s' in (c :: w, r)
  end.

(** [is >> word] *)
Definition extract_word (s : bytes) : option (bytes * bytes) :=
  match span_word (HttpReply.skip_blanks s) with
  | ([], _) => None
  | (w, r) => Some (w, r)
  end.

(** The run of decimal digits at the front. *)
Fixpoint span_digits (s : bytes) : bytes * bytes :=
  match s with
  | [] => ([], [])
  | c :: s' => if HttpParser.is_digit (char_val c) then
                 let '(w, r) := span_digits s' in (c :: w, r)
               else ([], s)
  end.

Definition UINT_MAX : Z := 4294967295.

(** The sign of a number: whether it is a minus, and what follows. *)
Definition take_sign (s : bytes) : bool * bytes :=
  match s with
  | "-"%char :: s' => (true, s')
  | "+"%char :: s' => (false, s')
  | _ => (false, s)
  end.

(** [is >> n] for an [unsigned int]: a sign is accepted and a negative number is
    taken modulo 2^32; a number out of range fails. *)
Definition extract_unsigned (s : bytes) : option (Z * bytes) :=
  let s := HttpReply.skip_blanks s in
  let '(neg, s) := take_sign s in
  match span_digits s with
  | ([], _) => None
  | (d, r) =>
      let v := HttpParser.dec_val d in
      if (UINT_MAX <? v)%Z then None
      else Some (if neg then (- v) mod (UINT_MAX + 1) else v, r)%Z
  end.

(** ** Reading from a socket *)

(** What the peer still sends, and how the stream ends. *)
Record inbound := mkIn { pieces : list bytes; closing : error_code }.

Definition occurs (p s : bytes) : bool := bool_decide (is_Some (find0 p s)).

(** [read_until(socket, buf, delim)]: nothing is read when the buffer holds the
    delimiter already. The error, the buffer and the pieces left. *)
Fixpoint read_until_pieces (delim buf : bytes) (l : list bytes) (fin : error_code) :
    error_code * bytes * list bytes :=
  if occurs delim buf then (success, buf, l)
  else
    match l with
    | [] => (fin, buf, [])
    | x :: l => read_until_pieces delim (buf ++ x) l fin
    end.

Definition read_until (delim buf : bytes) (i : inbound) : error_code * bytes * inbound :=
  let '(e, buf, l) := read_until_pieces delim buf (pieces i) (closing i) in
  (e, buf, mkIn l (closing i)).

(** [read(socket, buf, transfer_at_least(1))]: pieces until a byte has arrived. *)
Fixpoint read_some_pieces (buf : bytes) (l : list bytes) (fin : error_code) :
    error_code * bytes * list bytes :=
  match l with
  | [] => (fin, buf, [])
  | [] :: l => read_some_pieces buf l fin
  | x :: l => (success, buf ++ x, l)
  end.

Definition read_some (buf : bytes) (i : inbound) : error_code * bytes * inbound :=
  let '(e, buf, l) := read_some_pieces buf (pieces i) (closing i) in
  (e, buf, mkIn l (closing i)).

(** The whole of what arrives. *)
Definition all_of (i : inbound) : bytes := mjoin (pieces i).

(** ** Lemmas *)

Lemma put_ok o s : out_ok o = true → put o s = mkOut (written o ++ s) true.
Proof. intros H. unfold put. by rewrite H. Qed.

Lemma put_buf_ok o b : out_ok o = true → b ≠ [] → put_buf o b = mkOut (written o ++ b) true.
Proof. intros H Hb. unfold put_buf. by rewrite H, bool_decide_eq_false_2. Qed.

Lemma occurs_spec p s : occurs p s = true ↔ ∃ i, occurs_at p s i.
Proof.
  unfold occurs. rewrite bool_decide_eq_true. destruct (find0 p s) as [i|] eqn:E.
  - apply find0_Some in E as [E _]. split; eauto.
  - rewrite find0_None in E. split; [by intros []|]. intros [i Hi]. by destruct (E i).
Qed.

Lemma occurs_app p a b : occurs p (a ++ p ++ b) = true.
Proof.
  apply occurs_spec. exists (length a). unfold occurs_at.
  rewrite drop_app_length' by done. split; [rewrite length_app; lia|]. by apply prefix_app_r.
Qed.

(** [read_until] finds the delimiter when it is there, loses nothing, and fails
    only with everything read. *)
Lemma read_until_spec delim buf l fin e buf' l' :
  read_until_pieces delim buf l fin = (e, buf', l') →
  buf' ++ mjoin l' = buf ++ mjoin l ∧
  (occurs delim buf' = true ∧ e = success ∨
   occurs delim buf' = false ∧ e = fin ∧ l' = []).
Proof.
  revert buf. induction l as [|x l IH]; intros buf; cbn [read_until_pieces];
    destruct (occurs delim buf) eqn:E.
  1,3: by intros [= <- <- <-]; auto.
  - intros [= <- <- <-]. auto.
  - intros [H1 H2]%IH. split; [|done]. rewrite H1. cbn. by rewrite <-app_assoc.
Qed.

Lemma read_until_finds delim buf l fin :
  (∃ i, occurs_at delim (buf ++ mjoin l) i) →
  ∃ buf' l', read_until_pieces delim buf l fin = (success, buf', l') ∧
    buf' ++ mjoin l' = buf ++ mjoin l ∧ occurs delim buf' = true.
Proof.
  intros Hocc. destruct (read_until_pieces delim buf l fin) as [[e buf'] l'] eqn:E.
  apply read_until_spec in E as [E [[Ho ->]|(Ho & -> & ->)]]; [eauto|].
  cbn in E. rewrite app_nil_r in E. subst buf'. apply occurs_spec in Hocc. congruence.
Qed.

Lemma length_read_until delim buf l fin e buf' l' :
  read_until_pieces delim buf l fin = (e, buf', l') → length l' ≤ length l.
Proof.
  revert buf. induction l as [|x l IH]; intros buf; cbn [read_until_pieces];
    destruct (occurs delim buf); try (by intros [= <- <- <-]).
  intros H%IH. cbn. lia.
Qed.

(** The digits of an unsigned number are read back. *)
Lemma span_word_app w s :
  Forall (λ c, HttpReply.is_space c = false) w →
  match s with [] => True | c :: _ => HttpReply.is_space c = true end →
  span_word (w ++ s) = (w, s).
Proof.
  intros Hw Hs. induction Hw as [|c w Hc _ IH]; cbn.
  - destruct s as [|c s]; [done|]. cbn. by rewrite Hs.
  - by rewrite Hc, IH.
Qed.

Lemma extract_word_app w s :
  w ≠ [] → Forall (λ c, HttpReply.is_space c = false) w →
  match s with [] => True | c :: _ => HttpReply.is_space c = true end →
  extract_word (w ++ s) = Some (w, s).
Proof.
  intros Hne Hw Hs. unfold extract_word. destruct w as [|c w]; [done|].
  pose proof (Forall_inv Hw) as Hc. cbn [app HttpReply.skip_blanks]. rewrite Hc.
  change (c :: w ++ s) with ((c :: w) ++ s). by rewrite span_word_app.
Qed.

Lemma span_digits_app w s :
  Forall (λ c, HttpParser.is_digit (char_val c) = true) w →
  match s with [] => True | c :: _ => HttpParser.is_digit (char_val c) = false end →
  span_digits (w ++ s) = (w, s).
Proof.
  intros Hw Hs. induction Hw as [|c w Hc _ IH]; cbn.
  - destruct s as [|c s]; [done|]. cbn. by rewrite Hs.
  - by rewrite Hc, IH.
Qed.

Lemma digit_shape c : HttpParser.is_digit (char_val c) = true →
  HttpReply.is_space c = false ∧ c ≠ "-"%char ∧ c ≠ "+"%char.
Proof. destruct c as [[] [] [] [] [] [] [] []]; vm_compute; intuition congruence. Qed.

Lemma take_sign_none c r : c ≠ "-"%char → c ≠ "+"%char → take_sign (c :: r) = (false, c :: r).
Proof. intros H2 H3. destruct c as [[] [] [] [] [] [] [] []]; try done; by exfalso. Qed.

Lemma extract_unsigned_app w s :
  HttpParser.digits w → (HttpParser.dec_val w <= UINT_MAX)%Z →
  match s with [] => True | c :: _ => HttpParser.is_digit (char_val c) = false end →
  extract_unsigned (" "%char :: w ++ s) = Some (HttpParser.dec_val w, s).
Proof.
  intros [Hne Hw] Hv Hs. unfold extract_unsigned.
  change (HttpReply.skip_blanks (" "%char :: w ++ s)) with (HttpReply.skip_blanks (w ++ s)).
  destruct w as [|c w]; [done|]. pose proof (digit_shape c (Forall_inv Hw)) as (H1 & H2 & H3).
  cbn [app HttpReply.skip_blanks]. rewrite H1.
  rewrite take_sign_none by done. change (c :: w ++ s) with ((c :: w) ++ s). rewrite span_digits_app by done.
  cbv beta iota zeta. by rewrite (proj2 (Z.ltb_ge _ _)) by lia.
Qed.

End Asio.
