(* ===== verification/HttpClient.v ===== *)
(** * The HTTP clients of the Asio examples

    (src/doc_searcher/data/input/html/boost_asio/example/http/client/{async_client,
    sync_client}.cpp and iostreams/http_client.cpp.) All three send the same
    request and print the headers and the content of the reply. The first is a
    chain of completion handlers, the second blocks, the third uses a socket
    stream. The last section puts them together with the file server of
    HttpReply.v. *)

From S2P Require Import Prelude CxxString HttpParser HttpReply Asio.
Import HttpParser.
Import Asio.

Module HttpClient.
#[local] Existing Instance HttpReply.admitted_dec.

(** ** What the three programs share *)

(** The text of the request. *)
Definition get_request (server path : bytes) : bytes :=
  lit "GET " ++ path ++ lit " HTTP/1.0" ++ CRLF ++
  lit "Host: " ++ server ++ CRLF ++
  lit "Accept: */*" ++ CRLF ++
  lit "Connection: close" ++ CRLF ++ CRLF.

(** [>> http_version >> status_code] and [getline]: version, code and what is left
    in the buffer; [None] when the stream has failed. *)
Definition read_status (buf : bytes) : option (bytes * Z * bytes) :=
  '(http_version, s) ← extract_word buf;
  '(status_code, s) ← extract_unsigned s;
  '(_, s) ← getline s;
  Some (http_version, status_code, s).

(** The test of the status line. *)
Inductive status_check := invalid | refused (code : Z) | accepted (rest : bytes).
Definition check_status (buf : bytes) : status_check :=
  match read_status buf with
  | None => invalid
  | Some (http_version, status_code, rest) =>
      if bool_decide (take 5 http_version = lit "HTTP/") then
        if (status_code =? 200)%Z then accepted rest else refused status_code
      else invalid
  end.

Definition nl : bytes := [newline].

(** [while (getline(s, header) && header != "\r") cout << header << "\n";] A line
    takes a character at least, so one round more than there are characters is
    enough. *)
Fixpoint print_headers (fuel : nat) (o : ostream) (s : bytes) : ostream * bytes :=
  match fuel with
  | 0 => (o, s)
  | S fuel =>
      match getline s with
      | None => (o, s)
      | Some (header, s) =>
          if bool_decide (header = [CR]) then (o, s)
          else print_headers fuel (put (put o header) nl) s
      end
  end.
Definition process_headers (o : ostream) (s : bytes) : ostream * bytes :=
  let '(o, s) := print_headers (S (length s)) o s in (put o nl, s).

(** The messages for a status line that is not taken. *)
Definition invalid_response (o : ostream) : ostream := put o (lit "Invalid response" ++ nl).
Definition status_message (o : ostream) (code : Z) : ostream :=
  put (put (put o (lit "Response returned with status code ")) (show_unsigned code)) nl.

Section Clients.
Context {ET : ErrorText}.

(** ** async_client.cpp *)

(** The operation that is outstanding; [idle]: none, io_service::run returns. *)
Inductive op :=
  | resolving | connecting | sending | reading_status | reading_headers | reading_content | idle.

#[export] Instance op_eq_dec : EqDecision op.
Proof. solve_decision. Defined.

Record client := mkClient {
  request_ : bytes;
  response_ : bytes;
  cout : ostream;
  pending : op;
}.

Definition client_new (server path : bytes) : client :=
  mkClient (get_request server path) [] console resolving.

Definition next_op (c : client) (o : op) : client := mkClient (request_ c) (response_ c) (cout c) o.
Definition print (c : client) (s : bytes) : client :=
  mkClient (request_ c) (response_ c) (put (cout c) s) (pending c).
Definition set_response (c : client) (b : bytes) : client :=
  mkClient (request_ c) b (cout c) (pending c).

(** ["Error: " << text << "\n"], after which nothing is outstanding. *)
Definition report (c : client) (text : bytes) : client :=
  next_op (print (print (print c (lit "Error: ")) text) nl) idle.

Definition handle_resolve (c : client) (err : error_code) : client :=
  if failed err then report c (message err) else next_op c connecting.

Definition handle_connect (c : client) (err : error_code) : client :=
  if failed err then report c (message err) else next_op c sending.

Definition handle_write_request (c : client) (err : error_code) : client :=
  if failed err then report c (message err) else next_op c reading_status.

Definition handle_read_status_line (c : client) (err : error_code) : client :=
  if failed err then report c (show_code err)
  else
    match check_status (response_ c) with
    | invalid => mkClient (request_ c) (response_ c) (invalid_response (cout c)) idle
    | refused code => mkClient (request_ c) (response_ c) (status_message (cout c) code) idle
    | accepted rest => next_op (set_response c rest) reading_headers
    end.

Definition handle_read_headers (c : client) (err : error_code) : client :=
  if failed err then report c (show_code err)
  else
    let '(o, rest) := process_headers (cout c) (response_ c) in
    let '(o, rest) := if (0 <? length rest)%nat then (put_buf o rest, []) else (o, rest) in
    mkClient (request_ c) rest o reading_content.

Definition handle_read_content (c : client) (err : error_code) : client :=
  if failed err then
    if bool_decide (err = eof) then next_op c idle else report c (show_code err)
  else mkClient (request_ c) [] (put_buf (cout c) (response_ c)) reading_content.

(** The other end: the errors of the first three operations, what arrives, and
    (for the statements) what it was sent. *)
Record peer := mkPeer {
  resolve_ec : error_code;
  connect_ec : error_code;
  write_ec : error_code;
  incoming : inbound;
  received : bytes;
}.

Definition set_incoming (p : peer) (i : inbound) : peer :=
  mkPeer (resolve_ec p) (connect_ec p) (write_ec p) i (received p).
Definition send_to (p : peer) (s : bytes) : peer :=
  if failed (write_ec p) then p
  else mkPeer (resolve_ec p) (connect_ec p) (write_ec p) (incoming p) (received p ++ s).

(** The outstanding operation completes and its handler runs. *)
Definition complete (pc : peer * client) : peer * client :=
  let '(p, c) := pc in
  match pending c with
  | resolving => (p, handle_resolve c (resolve_ec p))
  | connecting => (p, handle_connect c (connect_ec p))
  | sending => (send_to p (request_ c), handle_write_request c (write_ec p))
  | reading_status =>
      let '(e, buf, i) := read_until CRLF (response_ c) (incoming p) in
      (set_incoming p i, handle_read_status_line (set_response c buf) e)
  | reading_headers =>
      let '(e, buf, i) := read_until (CRLF ++ CRLF) (response_ c) (incoming p) in
      (set_incoming p i, handle_read_headers (set_response c buf) e)
  | reading_content =>
      let '(e, buf, i) := read_some (response_ c) (incoming p) in
      (set_incoming p i, handle_read_content (set_response c buf) e)
  | idle => (p, c)
  end.

(** [io_service.run()] for [n] completions. *)
Fixpoint run (n : nat) (pc : peer * client) : peer * client :=
  match n with
  | 0 => pc
  | S n => run n (complete pc)
  end.

(** Resolving, connecting, sending, the status line, the headers, then one
    completion per piece and the last one. *)
Definition enough (p : peer) : nat := 6 + length (pieces (incoming p)).

Definition async_main (p : peer) (server path : bytes) : peer * client :=
  run (enough p) (p, client_new server path).

(** ** sync_client.cpp *)

(** The catch block. *)
Definition exception (o : ostream) (e : error_code) : ostream * Z :=
  (put (put (put o (lit "Exception: ")) (what e)) nl, 0%Z).

(** [while (read(socket, response, transfer_at_least(1), error)) cout << &response;]
    and the test of [error]; one round per piece and a last one. *)
Fixpoint read_rest (fuel : nat) (o : ostream) (i : inbound) : ostream * Z :=
  match fuel with
  | 0 => (o, 0%Z)
  | S fuel =>
      let '(error, buf, i) := read_some [] i in
      if failed error then
        if bool_decide (error = eof) then (o, 0%Z) else exception o error
      else read_rest fuel (put_buf o buf) i
  end.

(** [main] after the arguments have been checked: what was sent, the console and
    the exit code. *)
Definition sync_main (p : peer) (server path : bytes) : peer * (ostream * Z) :=
  let o := console in
  if failed (resolve_ec p) then (p, exception o (resolve_ec p))
  else if failed (connect_ec p) then (p, exception o (connect_ec p))
  else
    let request := get_request server path in
    let p := send_to p request in
    if failed (write_ec p) then (p, exception o (write_ec p))
    else
      let '(e, response, i) := read_until CRLF [] (incoming p) in
      let p := set_incoming p i in
      if failed e then (p, exception o e)
      else
        match check_status response with
        | invalid => (p, (invalid_response o, 1%Z))
        | refused code => (p, (status_message o code, 1%Z))
        | accepted rest =>
            let '(e, response, i) := read_until (CRLF ++ CRLF) rest (incoming p) in
            let p := set_incoming p i in
            if failed e then (p, exception o e)
            else
              let '(o, rest) := process_headers o response in
              let o := if (0 <? length rest)%nat then put_buf o rest else o in
              (p, read_rest (S (length (pieces (incoming p)))) o (incoming p))
        end.

(** ** iostreams/http_client.cpp

    A socket stream reads as far as an extraction needs, whatever the pieces; an
    error ends it like the end of the file. The request is flushed before the first
    extraction, which fails when that does. *)
Definition stream_main (p : peer) (server path : bytes) : peer * (ostream * Z) :=
  let o := console in
  let connected := if failed (resolve_ec p) then resolve_ec p else connect_ec p in
  if failed connected then (p, (put (put (put o (lit "Unable to connect: ")) (message connected)) nl, 1%Z))
  else
    let p := send_to p (get_request server path) in
    if failed (write_ec p) then (p, (invalid_response o, 1%Z))
    else
    match check_status (all_of (incoming p)) with
    | invalid => (p, (invalid_response o, 1%Z))
    | refused code => (p, (status_message o code, 1%Z))
    | accepted rest =>
        let '(o, rest) := process_headers o rest in
        (p, (put_buf o rest, 0%Z))
    end.

(** ** Well-formed replies *)

(** The status line. *)
Definition status_text (ver code reason : bytes) : bytes :=
  ver ++ " "%char :: code ++ " "%char :: reason ++ CRLF.

Record status_ok (ver code reason : bytes) : Prop := {
  ok_ver : ver ≠ [] ∧ Forall (λ c, HttpReply.is_space c = false) ver;
  ok_code : digits code ∧ (dec_val code <= UINT_MAX)%Z;
  ok_reason : newline ∉ reason;
}.

(** The header lines. *)
Definition header_block (lines : list bytes) : bytes := mjoin ((λ l, l ++ CRLF) <$> lines).
Definition header_line (l : bytes) : Prop := l ≠ [] ∧ newline ∉ l.

Lemma check_status_ok ver code reason rest :
  status_ok ver code reason →
  check_status (status_text ver code reason ++ rest) =
    if bool_decide (take 5 ver = lit "HTTP/") then
      if (dec_val code =? 200)%Z then accepted rest else refused (dec_val code)
    else invalid.
Proof.
  intros [[Hv1 Hv2] [Hc1 Hc2] Hr]. unfold check_status, read_status, status_text.
  rewrite <-app_assoc, extract_word_app by done. cbn [mbind option_bind app].
  rewrite <-app_assoc, extract_unsigned_app by done. cbn [mbind option_bind app].
  replace (" "%char :: (reason ++ CRLF) ++ rest) with ((" "%char :: reason ++ [CR]) ++ newline :: rest)
    by (cbn; by rewrite <-!app_assoc).
  rewrite getline_app; [done|]. apply not_elem_of_cons. split; [done|].
  rewrite elem_of_app. intros [?|Hx%list_elem_of_singleton]; [done|]. by vm_compute in Hx.
Qed.

(** Where the first newline is. *)
Lemma first_newline l r a t :
  l ++ newline :: r = a ++ newline :: t → newline ∉ l →
  (l = a ∧ r = t) ∨ ∃ a', a = l ++ newline :: a' ∧ r = a' ++ newline :: t.
Proof.
  revert a. induction l as [|c l IH]; intros [|d a]; cbn; intros Heq Hl.
  - left. by injection Heq as ->.
  - right. injection Heq as <- ->. eauto.
  - injection Heq as -> _. destruct Hl. left.
  - injection Heq as <- Heq. destruct (IH _ Heq) as [[-> ->]|(a' & -> & ->)];
      [intros ?; apply Hl; by right|by left|right; eauto].
Qed.

Lemma prefix_newline l r b :
  b `prefix_of` l ++ newline :: r → newline ∉ l → newline ∈ b →
  ∃ b', b = l ++ newline :: b' ∧ b' `prefix_of` r.
Proof.
  intros [k Hk] Hl [a [t Ht]]%list_elem_of_split. subst b.
  rewrite <-app_assoc in Hk. cbn in Hk. destruct (first_newline _ _ _ _ Hk Hl) as [[-> ->]|(a' & -> & ->)].
  - exists t. split; [done|]. by apply prefix_app_r.
  - exists (a' ++ newline :: t). split; [by rewrite <-app_assoc|]. exists k. by rewrite <-app_assoc.
Qed.

Lemma occurs_newline p s : newline ∈ p → occurs p s = true → newline ∈ s.
Proof.
  intros Hp [i (a & b & -> & _)%occurs_at_split]%occurs_spec.
  apply elem_of_app. right. apply elem_of_app. by left.
Qed.

Lemma not_newline_CR l : newline ∉ l → newline ∉ l ++ [CR].
Proof. intros H. rewrite elem_of_app. intros [?|Hx%list_elem_of_singleton]; [done|]. by vm_compute in Hx. Qed.

(** Reading up to the first CRLF leaves the whole status line in the buffer. *)
Lemma status_in_buffer ver code reason rest buf more :
  status_ok ver code reason → buf ++ more = status_text ver code reason ++ rest →
  occurs CRLF buf = true →
  ∃ rest', buf = status_text ver code reason ++ rest' ∧ rest' ++ more = rest.
Proof.
  intros [[_ Hv] [[_ Hc] _] Hr] Heq Ho. apply occurs_newline in Ho; [|right; left].
  set (l := ver ++ " "%char :: code ++ " "%char :: reason ++ [CR]).
  assert (newline ∉ l) as Hl.
  { assert (∀ c, c = newline → HttpReply.is_space c = false → False) as H1 by (by intros ? ->).
    assert (∀ c, c = newline → is_digit (char_val c) = true → False) as H2 by (by intros ? ->).
    unfold l. rewrite elem_of_app, elem_of_cons, elem_of_app, elem_of_cons.
    intros [Hx|[Hx|[Hx|[Hx|Hx]]]].
    - rewrite Forall_forall in Hv. eapply H1; [done|]. by apply Hv.
    - by vm_compute in Hx.
    - rewrite Forall_forall in Hc. eapply H2; [done|]. by apply Hc.
    - by vm_compute in Hx.
    - by apply not_newline_CR in Hr. }
  assert (status_text ver code reason = l ++ [newline]) as Hst.
  { unfold status_text, l. rewrite <-app_assoc. cbn. rewrite <-app_assoc. cbn. by rewrite <-app_assoc. }
  destruct (prefix_newline l rest buf) as (b' & -> & [k Hk]); [|done|done|].
  { exists more. rewrite Heq, Hst, <-app_assoc. done. }
  exists b'. rewrite Hst, <-!app_assoc in *. split; [done|].
  apply app_inv_head in Heq. cbn in Heq. by injection Heq as ->.
Qed.

Lemma header_block_cons x lines : header_block (x :: lines) = (x ++ [CR]) ++ newline :: header_block lines.
Proof. unfold header_block. cbn. by rewrite <-!app_assoc. Qed.

(** The blank line is in the buffer as soon as CRLF CRLF is. *)
Lemma blank_in_buffer lines body buf :
  Forall header_line lines → buf `prefix_of` header_block lines ++ CRLF ++ body →
  (CRLF `prefix_of` buf ∨ ∃ a k, buf = a ++ newline :: CRLF ++ k) →
  ∃ body', buf = header_block lines ++ CRLF ++ body'.
Proof.
  intros Hl. revert buf. induction Hl as [|x lines [Hx1 Hx2] _ IH]; intros buf Hpre Hcase.
  - destruct Hcase as [[k ->]|(a & k & ->)]; [by exists k|]. destruct Hpre as [t Ht]. cbn in Ht.
    destruct a as [|a0 [|a1 a]]; injection Ht as Ht1 Ht2.
    + by vm_compute in Ht1.
    + subst. by exists (CRLF ++ k).
    + subst. by exists (a ++ newline :: CRLF ++ k).
  - rewrite header_block_cons, <-app_assoc in Hpre. cbn [app] in Hpre.
    assert (newline ∈ buf) as Hnl.
    { destruct Hcase as [[k ->]|(a & k & ->)]; [right; left|]. apply elem_of_app. right. left. }
    destruct (prefix_newline _ _ _ Hpre (not_newline_CR x Hx2) Hnl) as (b' & -> & Hb').
    destruct (IH b' Hb') as [body' ->].
    + destruct Hcase as [[k Hk]|(a & k & Hk)].
      * exfalso. destruct x as [|c x]; [done|]. cbn in Hk. injection Hk as -> Hk.
        destruct x as [|d x]; cbn in Hk; [by vm_compute in Hk|]. injection Hk as -> _.
        apply Hx2. right. left.
      * destruct (first_newline _ _ _ _ Hk (not_newline_CR x Hx2)) as [[_ ->]|(a' & _ & ->)].
        -- left. by exists k.
        -- right. eauto.
    + exists body'. by rewrite header_block_cons, <-!app_assoc.
Qed.

Lemma print_headers_block fuel o lines body :
  out_ok o = true → Forall header_line lines → length (header_block lines) < fuel →
  print_headers fuel o (header_block lines ++ CRLF ++ body) = (mkOut (written o ++ header_block lines) true, body).
Proof.
  intros Ho Hl. revert fuel o Ho. induction Hl as [|x lines [Hx1 Hx2] _ IH]; intros fuel o Ho Hf.
  - destruct fuel as [|fuel]; [lia|]. change (header_block [] ++ CRLF ++ body) with ([CR] ++ newline :: body).
    cbn [print_headers]. rewrite getline_app by (apply not_newline_CR with (l := []); apply not_elem_of_nil).
    rewrite bool_decide_true by done. cbn. rewrite app_nil_r. destruct o; cbn in *. by subst.
  - destruct fuel as [|fuel]; [cbn in Hf; lia|]. rewrite header_block_cons in *.
    rewrite <-app_assoc. cbn [app print_headers]. rewrite getline_app by by apply not_newline_CR.
    rewrite bool_decide_false by (by destruct x as [|? [|]]).
    rewrite (put_ok o) by done. rewrite put_ok by done. rewrite IH; [|done|].
    + unfold nl. cbn [written]. f_equal. f_equal. by rewrite <-!app_assoc.
    + rewrite !length_app in Hf. cbn in Hf. lia.
Qed.

Lemma process_headers_block o lines body :
  out_ok o = true → Forall header_line lines →
  process_headers o (header_block lines ++ CRLF ++ body) =
    (mkOut (written o ++ header_block lines ++ nl) true, body).
Proof.
  intros Ho Hl. unfold process_headers.
  rewrite print_headers_block by (done || rewrite length_app; lia).
  rewrite put_ok by done. cbn. by rewrite <-app_assoc.
Qed.

(** Reading up to the end of the status line, and of the headers, however the text
    is cut into pieces. *)
Lemma read_until_status i ver code reason rest :
  status_ok ver code reason → all_of i = status_text ver code reason ++ rest →
  ∃ rest' l', read_until CRLF [] i = (success, status_text ver code reason ++ rest', mkIn l' (closing i)) ∧
    rest' ++ mjoin l' = rest ∧ length l' ≤ length (pieces i).
Proof.
  intros Hst Hall. unfold read_until.
  destruct (read_until_finds CRLF [] (pieces i) (closing i)) as (buf & l' & Hread & Heq & Ho).
  { apply occurs_spec. cbn. unfold all_of in Hall. rewrite Hall. unfold status_text.
    replace ((ver ++ " "%char :: code ++ " "%char :: reason ++ CRLF) ++ rest)
      with ((ver ++ " "%char :: code ++ " "%char :: reason) ++ CRLF ++ rest); [apply occurs_app|].
    by list_simplifier. }
  cbn [app] in Heq. unfold all_of in Hall. rewrite Hall in Heq.
  destruct (status_in_buffer _ _ _ _ _ _ Hst Heq Ho) as (rest' & -> & Hrest).
  exists rest', l'. rewrite Hread. split; [done|]. split; [done|]. by eapply length_read_until.
Qed.

Lemma read_until_headers i buf lines body :
  lines ≠ [] → Forall header_line lines → buf ++ all_of i = header_block lines ++ CRLF ++ body →
  ∃ body' l', read_until (CRLF ++ CRLF) buf i =
      (success, header_block lines ++ CRLF ++ body', mkIn l' (closing i)) ∧
    body' ++ mjoin l' = body ∧ length l' ≤ length (pieces i).
Proof.
  intros Hne Hl Hall. unfold read_until.
  destruct (read_until_finds (CRLF ++ CRLF) buf (pieces i) (closing i)) as (buf' & l' & Hread & Heq & Hocc).
  { apply occurs_spec. unfold all_of in Hall. rewrite Hall.
    destruct (exists_last Hne) as (ls & x & ->). unfold header_block. rewrite fmap_app, join_app.
    cbn. rewrite app_nil_r, <-!app_assoc. rewrite (app_assoc _ x). apply (occurs_app (CRLF ++ CRLF)). }
  pose proof (length_read_until _ _ _ _ _ _ _ Hread) as Hlen.
  unfold all_of in Hall. rewrite Hall in Heq.
  destruct (blank_in_buffer lines body buf' Hl) as [body' ->].
  { by exists (mjoin l'). }
  { right. apply occurs_spec in Hocc as [j (a & b & -> & _)%occurs_at_split].
    exists (a ++ [CR]), b. rewrite <-!app_assoc. done. }
  exists body', l'. rewrite Hread. split; [done|]. split; [|done].
  rewrite <-!app_assoc in Heq. by do 2 apply app_inv_head in Heq.
Qed.

(** ** The asynchronous client *)

(** What is printed when the connection ends while the content is read. *)
Definition ending (e : error_code) : bytes :=
  if bool_decide (e = eof) then [] else lit "Error: " ++ show_code e ++ nl.

(** The peer lets the client connect and send. *)
Definition answering (p : peer) : Prop :=
  resolve_ec p = success ∧ connect_ec p = success ∧ write_ec p = success ∧
  failed (closing (incoming p)) = true.

Lemma run_S n pc : run (S n) pc = run n (complete pc).
Proof. done. Qed.

Lemma run_idle n p c : pending c = idle → run n (p, c) = (p, c).
Proof. intros Hc. induction n as [|n IH]; [done|]. cbn. by rewrite Hc. Qed.

Lemma read_some_cases buf l fin :
  (read_some_pieces buf l fin = (fin, buf, []) ∧ mjoin l = []) ∨
  ∃ x l', x ≠ [] ∧ read_some_pieces buf l fin = (success, buf ++ x, l') ∧
    mjoin l = x ++ mjoin l' ∧ length l' < length l.
Proof.
  induction l as [|[|c x] l IH]; [by left|..].
  - destruct IH as [?|(x & l' & ? & ? & ? & ?)]; [by left|right]. exists x, l'. cbn in *.
    split_and!; [done..|lia].
  - right. exists (c :: x), l. cbn. split_and!; [done..|lia].
Qed.

Lemma print_ok c s : out_ok (cout c) = true →
  print c s = mkClient (request_ c) (response_ c) (mkOut (written (cout c) ++ s) true) (pending c).
Proof. intros Ho. unfold print. by rewrite put_ok. Qed.

Lemma report_ok c text : out_ok (cout c) = true →
  report c text = mkClient (request_ c) (response_ c)
    (mkOut (written (cout c) ++ lit "Error: " ++ text ++ nl) true) idle.
Proof.
  intros Ho. unfold report. rewrite (print_ok c) by done. rewrite print_ok by done. rewrite print_ok by done.
  cbn [written cout request_ response_ next_op]. by rewrite <-!app_assoc.
Qed.

Lemma run_content n p c :
  pending c = reading_content → response_ c = [] → out_ok (cout c) = true →
  failed (closing (incoming p)) = true → length (pieces (incoming p)) < n →
  ∃ p', run n (p, c) =
      (p', mkClient (request_ c) [] (mkOut (written (cout c) ++ all_of (incoming p) ++
                                            ending (closing (incoming p))) true) idle) ∧
    received p' = received p.
Proof.
  revert p c. induction n as [|n IH]; intros p c Hc Hr Ho Hfin Hn; [lia|].
  cbn [run complete]. rewrite Hc, Hr. unfold read_some.
  destruct (read_some_cases [] (pieces (incoming p)) (closing (incoming p)))
    as [[-> Hnil]|(x & l' & Hx & -> & Hall & Hlen)].
  - unfold handle_read_content. rewrite Hfin. unfold ending, all_of. rewrite Hnil, app_nil_l.
    case_bool_decide as He.
    + rewrite run_idle by done. eexists (set_incoming p _). split; [|reflexivity]. unfold next_op. cbn.
      rewrite app_nil_r. destruct c as [? ? [? ?] ?]; cbn in *; subst. reflexivity.
    + rewrite report_ok by done. rewrite run_idle by done. eexists. split; reflexivity.
  - unfold handle_read_content. change (failed success) with false. cbv iota.
    cbn [set_response response_ request_ cout app]. rewrite put_buf_ok by done.
    edestruct (IH (set_incoming p (mkIn l' (closing (incoming p))))) as (p' & -> & Hp');
      [| | | | |exists p'; split; [|exact Hp']]; [done..|cbn; lia|].
    cbn [cout request_ written]. f_equal. f_equal. unfold all_of. cbn. by rewrite Hall, <-!app_assoc.
Qed.

(** The completions that are left at most. *)
Definition rank (o : op) : nat :=
  match o with
  | resolving => 6 | connecting => 5 | sending => 4
  | reading_status => 3 | reading_headers => 2 | reading_content => 1 | idle => 0
  end.
Definition measure (pc : peer * client) : nat :=
  match pending pc.2 with idle => 0 | o => rank o + length (pieces (incoming pc.1)) end.

Lemma complete_decreases p c :
  failed (closing (incoming p)) = true → pending c ≠ idle →
  measure (complete (p, c)) < measure (p, c) ∧
  failed (closing (incoming (complete (p, c)).1)) = true.
Proof.
  intros Hfin Hc. unfold measure at 2, complete. cbn [fst snd].
  assert (∀ c0 text, measure (p, report c0 text) = 0) as Hrep by done.
  destruct (pending c) eqn:Ec; [..|done]; cbn [rank].
  - unfold handle_resolve. destruct (failed (resolve_ec p)); (split; [|done]); unfold measure; cbn; lia.
  - unfold handle_connect. destruct (failed (connect_ec p)); (split; [|done]); unfold measure; cbn; lia.
  - unfold send_to, handle_write_request.
    destruct (failed (write_ec p)); (split; [|done]); unfold measure; cbn; lia.
  - unfold read_until. destruct (read_until_pieces _ _ _ _) as [[e buf] l'] eqn:E.
    apply length_read_until in E. split; [|done]. unfold handle_read_status_line.
    destruct (failed e); [unfold measure; cbn; lia|].
    destruct (check_status _); unfold measure; cbn; lia.
  - unfold read_until. destruct (read_until_pieces _ _ _ _) as [[e buf] l'] eqn:E.
    apply length_read_until in E. split; [|done]. unfold handle_read_headers.
    destruct (failed e); [unfold measure; cbn; lia|].
    destruct (process_headers _ _) as [o r]. destruct (0 <? length r)%nat; unfold measure; cbn; lia.
  - unfold read_some.
    destruct (read_some_cases (response_ c) (pieces (incoming p)) (closing (incoming p)))
      as [[-> Hnil]|(x & l' & Hx & -> & Hall & Hlen)]; (split; [|done]); unfold handle_read_content.
    + rewrite Hfin. case_bool_decide; unfold measure; cbn; lia.
    + change (failed success) with false. unfold measure. cbn. lia.
Qed.

Lemma run_finishes n p c :
  failed (closing (incoming p)) = true → measure (p, c) ≤ n → pending (run n (p, c)).2 = idle.
Proof.
  revert p c. induction n as [|n IH]; intros p c Hfin Hn.
  - cbn. unfold measure in Hn. cbn in Hn. destruct (pending c); cbn in Hn; [lia..|done].
  - cbn [run]. destruct (decide (pending c = idle)) as [Hi|Hi].
    + cbn. rewrite Hi. by rewrite run_idle.
    + destruct (complete_decreases p c Hfin Hi) as [Hm Hf].
      destruct (complete (p, c)) as [p' c']. apply IH; [done|lia].
Qed.

(** The client has sent its request. *)
Lemma run_request p server path n :
  answering p →
  run (3 + n) (p, client_new server path) =
    run n (mkPeer success success success (incoming p) (received p ++ get_request server path),
           mkClient (get_request server path) [] console reading_status).
Proof. destruct p as [? ? ? ? ?]. intros (Hr & Hc & Hw & _). cbn in *. by subst. Qed.

(** The status line has arrived: the client stops or waits for the headers. *)
Lemma run_status n p c ver code reason rest :
  pending c = reading_status → response_ c = [] →
  status_ok ver code reason → all_of (incoming p) = status_text ver code reason ++ rest →
  ∃ rest' l', rest' ++ mjoin l' = rest ∧ length l' ≤ length (pieces (incoming p)) ∧
    run (S n) (p, c) =
      run n (set_incoming p (mkIn l' (closing (incoming p))),
             if bool_decide (take 5 ver = lit "HTTP/") then
               if (dec_val code =? 200)%Z
               then mkClient (request_ c) rest' (cout c) reading_headers
               else mkClient (request_ c) (status_text ver code reason ++ rest')
                      (status_message (cout c) (dec_val code)) idle
             else mkClient (request_ c) (status_text ver code reason ++ rest')
                    (invalid_response (cout c)) idle).
Proof.
  intros Hc Hr Hst Hall. rewrite run_S. cbn [complete]. rewrite Hc, Hr.
  destruct (read_until_status _ _ _ _ _ Hst Hall) as (rest' & l' & -> & Hrest & Hlen).
  exists rest', l'. split; [done|]. split; [done|].
  unfold handle_read_status_line. change (failed success) with false. cbv iota.
  cbn [set_response response_ request_ cout]. rewrite check_status_ok by done.
  case_bool_decide; [|done]. by destruct (dec_val code =? 200)%Z.
Qed.

(** The headers have arrived: they are printed, then the content. *)
Lemma run_headers n p c lines body :
  pending c = reading_headers → out_ok (cout c) = true → lines ≠ [] → Forall header_line lines →
  failed (closing (incoming p)) = true →
  response_ c ++ all_of (incoming p) = header_block lines ++ CRLF ++ body →
  length (pieces (incoming p)) < n →
  ∃ p', run (S n) (p, c) =
      (p', mkClient (request_ c) []
             (mkOut (written (cout c) ++ header_block lines ++ nl ++ body ++
                     ending (closing (incoming p))) true) idle) ∧
    received p' = received p.
Proof.
  intros Hc Ho Hne Hl Hfin Hall Hn. rewrite run_S. cbn [complete]. rewrite Hc.
  destruct (read_until_headers _ _ _ _ Hne Hl Hall) as (body' & l' & -> & <- & Hlen).
  unfold handle_read_headers. change (failed success) with false. cbv iota.
  cbn [set_response response_ request_ cout]. rewrite process_headers_block by done.
  set (o := if (0 <? length body')%nat then _ else _).
  assert (o = (mkOut (written (cout c) ++ header_block lines ++ nl ++ body') true, [])) as ->.
  { unfold o. destruct body' as [|d body']; cbn [length]; [by rewrite app_nil_r|]. bool_true.
    rewrite put_buf_ok by done. cbn. by rewrite <-!app_assoc. }
  edestruct (run_content n (set_incoming p (mkIn l' (closing (incoming p))))) as (p' & -> & Hp');
    [| | | | |exists p'; split; [|exact Hp']]; [done..|cbn; lia|].
  cbn [request_ written cout]. f_equal. f_equal. unfold all_of. cbn. by rewrite <-!app_assoc.
Qed.

(** CRLF CRLF does not come any more. *)
Lemma run_no_blank n p c :
  pending c = reading_headers → out_ok (cout c) = true → failed (closing (incoming p)) = true →
  occurs (CRLF ++ CRLF) (response_ c ++ all_of (incoming p)) = false →
  ∃ p' buf, run (S n) (p, c) =
    (p', mkClient (request_ c) buf
           (mkOut (written (cout c) ++ lit "Error: " ++ show_code (closing (incoming p)) ++ nl) true) idle).
Proof.
  intros Hc Ho Hfin Hno. cbn [run complete]. rewrite Hc. unfold read_until.
  destruct (read_until_pieces _ _ _ _) as [[e buf] l'] eqn:E.
  apply read_until_spec in E as [Heq [[Hocc _]|(_ & -> & ->)]].
  - exfalso. apply occurs_spec in Hocc as [i (a & b & -> & _)%occurs_at_split].
    unfold all_of in Hno. rewrite <-Heq, <-!app_assoc in Hno.
    pose proof (occurs_app (CRLF ++ CRLF) a (b ++ mjoin l')) as Hy. rewrite <-!app_assoc in Hy. congruence.
  - unfold handle_read_headers. rewrite Hfin, report_ok by done. rewrite run_idle by done. eauto.
Qed.

(** What the peer has received does not change after the request. *)
Lemma run_received n p c :
  pending c ∈ [reading_status; reading_headers; reading_content; idle] →
  received (run n (p, c)).1 = received p.
Proof.
  revert p c. induction n as [|n IH]; intros p c Hc; [done|]. cbn [run]. unfold complete.
  destruct (pending c) eqn:Ec.
  1-3: repeat (apply elem_of_cons in Hc as [?|Hc]; [done|]); by apply not_elem_of_nil in Hc.
  - destruct (read_until _ _ _) as [[e buf] i]. rewrite IH; [done|].
    unfold handle_read_status_line. destruct (failed e); [set_solver|]. destruct (check_status _); set_solver.
  - destruct (read_until _ _ _) as [[e buf] i]. rewrite IH; [done|].
    unfold handle_read_headers. destruct (failed e); [set_solver|]. destruct (process_headers _ _) as [o r].
    destruct (0 <? length r)%nat; set_solver.
  - destruct (read_some _ _) as [[e buf] i]. rewrite IH; [done|].
    unfold handle_read_content. destruct (failed e); [case_bool_decide|]; set_solver.
  - apply IH. set_solver.
Qed.

(** The asynchronous client against any peer that lets it connect and send and
    answers with a status line (version, code, reason), however the answer is cut
    into pieces and however the connection ends: io_service::run returns after at
    most six completions more than there are pieces, the peer has received exactly
    the request, and the console shows
    - "Invalid response" when the version does not begin with HTTP/,
    - the code when it is not 200,
    - for code 200 with at least one header line, the header lines as they are, an
      empty line and the content, byte for byte, then the error if the connection
      did not end with the end of the file,
    - for code 200 without CRLF CRLF after the status line, which is the case of an
      answer without headers, only the error. *)
Theorem client_prints p server path ver code reason rest :
  answering p → status_ok ver code reason →
  all_of (incoming p) = status_text ver code reason ++ rest →
  ∃ p' c, async_main p server path = (p', c) ∧ pending c = idle ∧
    received p' = received p ++ get_request server path ∧
    (take 5 ver ≠ lit "HTTP/" → written (cout c) = lit "Invalid response" ++ nl) ∧
    (take 5 ver = lit "HTTP/" → dec_val code ≠ 200%Z →
       written (cout c) = lit "Response returned with status code " ++ show_unsigned (dec_val code) ++ nl) ∧
    (take 5 ver = lit "HTTP/" → dec_val code = 200%Z →
       (∀ lines body, lines ≠ [] → Forall header_line lines → rest = header_block lines ++ CRLF ++ body →
          written (cout c) = header_block lines ++ nl ++ body ++ ending (closing (incoming p))) ∧
       (occurs (CRLF ++ CRLF) rest = false →
          written (cout c) = lit "Error: " ++ show_code (closing (incoming p)) ++ nl)).
Proof.
  intros Hp Hst Hall. pose proof Hp as (_ & _ & _ & Hfin). unfold async_main, enough.
  set (k := length (pieces (incoming p))).
  change (6 + k) with (3 + (S (S (S k)))). rewrite run_request by done.
  set (p1 := mkPeer _ _ _ (incoming p) _). set (c1 := mkClient _ _ _ reading_status).
  pose proof (run_finishes (S (S (S k))) p1 c1 Hfin) as Hidle.
  pose proof (run_received (S (S (S k))) p1 c1) as Hrec.
  destruct (run_status (S (S k)) p1 c1 ver code reason rest) as (rest' & l' & Hrest & Hlen & Erun); [done..|].
  rewrite Erun in *. destruct (run (S (S k)) _) as [p' c] eqn:E. exists p', c.
  split; [done|]. split; [apply Hidle; unfold measure; cbn; fold k; lia|].
  split; [apply Hrec; set_solver|]. cbn [p1 incoming c1 cout request_] in *. fold k in Hlen.
  case_bool_decide as Hver.
  2: { rewrite run_idle in E by done. injection E as <- <-. by split_and!. }
  destruct (dec_val code =? 200)%Z eqn:Ecode.
  2: { apply Z.eqb_neq in Ecode. rewrite run_idle in E by done. injection E as <- <-. by split_and!. }
  apply Z.eqb_eq in Ecode. split_and!; [done|done|]. intros _ _. split.
  - intros lines body Hne Hl ->.
    edestruct (run_headers (S k)) as (p2 & E2 & _); [..|rewrite E in E2; injection E2 as -> ->];
      [done..|by rewrite <-Hrest|cbn; lia|done].
  - intros Hno.
    edestruct (run_no_blank (S k)) as (p2 & buf & E2); [..|rewrite E in E2; injection E2 as -> ->];
      [done..|by rewrite <-Hrest in Hno|done].
Qed.

(** ** The blocking client *)

(** The same console, up to how the error that ended the run is reported. *)
Definition same_console (o1 o2 : ostream) : Prop :=
  o1 = o2 ∨
  ∃ shown e text, failed e = true ∧ (text = message e ∨ text = show_code e) ∧
    o1 = mkOut (shown ++ lit "Error: " ++ text ++ nl) true ∧
    o2 = mkOut (shown ++ lit "Exception: " ++ what e ++ nl) true.

Lemma exception_ok o e : out_ok o = true →
  exception o e = (mkOut (written o ++ lit "Exception: " ++ what e ++ nl) true, 0%Z).
Proof.
  intros Ho. unfold exception. rewrite (put_ok o) by done. rewrite put_ok by done. rewrite put_ok by done.
  cbn [written]. by rewrite <-!app_assoc.
Qed.

Lemma same_console_error c e text :
  out_ok (cout c) = true → failed e = true → text = message e ∨ text = show_code e →
  same_console (cout (report c text)) (exception (cout c) e).1.
Proof.
  intros Ho He Ht. right. exists (written (cout c)), e, text.
  rewrite report_ok, exception_ok by done. done.
Qed.

Lemma print_headers_out fuel o s : out_ok o = true → out_ok (print_headers fuel o s).1 = true.
Proof.
  revert o s. induction fuel as [|fuel IH]; intros o s Ho; [done|]. cbn.
  destruct (getline s) as [[h r]|]; [|done]. case_bool_decide; [done|]. apply IH.
  rewrite (put_ok o) by done. by rewrite put_ok.
Qed.

Lemma process_headers_out o s : out_ok o = true → out_ok (process_headers o s).1 = true.
Proof.
  intros Ho. unfold process_headers. pose proof (print_headers_out (S (length s)) o s Ho) as Hx.
  destruct (print_headers _ _ _) as [o' s']. cbn in *. by rewrite put_ok.
Qed.

Lemma read_rest_ok fuel o i :
  out_ok o = true → failed (closing i) = true → length (pieces i) < fuel →
  read_rest fuel o i =
    if bool_decide (closing i = eof) then (mkOut (written o ++ all_of i) true, 0%Z)
    else exception (mkOut (written o ++ all_of i) true) (closing i).
Proof.
  revert o i. induction fuel as [|fuel IH]; intros o [l fin] Ho Hfin Hn; [lia|]. cbn [read_rest].
  unfold read_some. cbn [pieces closing] in *.
  destruct (read_some_cases [] l fin) as [[-> Hnil]|(x & l' & Hx & -> & Hall & Hlen)].
  - unfold all_of. cbn [pieces]. rewrite Hfin, Hnil, app_nil_r. destruct o as [w ok]. cbn in *. by subst.
  - change (failed success) with false. cbn [app]. rewrite IH; cbn [pieces closing]; [|by rewrite put_buf_ok|done|lia].
    rewrite put_buf_ok by done. unfold all_of. cbn [pieces written]. by rewrite Hall, <-!app_assoc.
Qed.

(** After the status line both clients do the same. *)
Lemma same_content n p c :
  pending c = reading_content → response_ c = [] → out_ok (cout c) = true →
  failed (closing (incoming p)) = true → length (pieces (incoming p)) < n →
  same_console (cout (run n (p, c)).2) (read_rest (S (length (pieces (incoming p)))) (cout c) (incoming p)).1.
Proof.
  intros Hc Hr Ho Hfin Hn. destruct (run_content n p c) as (p' & -> & _); [done..|]. cbn [snd cout].
  rewrite read_rest_ok by (done || lia). unfold ending. case_bool_decide.
  - left. by rewrite app_nil_r.
  - right. rewrite exception_ok by done. cbn [fst written]. rewrite app_assoc. eauto 8.
Qed.

(** Both clients, operation by operation. *)
Lemma clients_same p server path :
  failed (closing (incoming p)) = true →
  received (async_main p server path).1 = received (sync_main p server path).1 ∧
  same_console (cout (async_main p server path).2) (sync_main p server path).2.1.
Proof.
  intros Hfin. unfold async_main, enough, sync_main. set (k := length (pieces (incoming p))).
  change (6 + k) with (S (S (S (S (S (S k)))))).
  rewrite run_S. cbn [complete client_new pending]. unfold handle_resolve.
  destruct (failed (resolve_ec p)) eqn:E1.
  { rewrite run_idle by done. split; [done|]. apply same_console_error; auto. }
  rewrite run_S. cbn [complete next_op pending]. unfold handle_connect. destruct (failed (connect_ec p)) eqn:E2.
  { rewrite run_idle by done. split; [done|]. apply same_console_error; auto. }
  rewrite run_S. cbn [complete next_op pending request_ response_]. unfold handle_write_request, send_to.
  destruct (failed (write_ec p)) eqn:E3.
  { rewrite E3. rewrite run_idle by done. split; [done|]. apply same_console_error; auto. }
  cbn [write_ec]. rewrite E3. set (p1 := mkPeer _ _ _ (incoming p) _).
  split.
  { rewrite run_received by set_solver. destruct (read_until _ _ _) as [[e buf] i].
    destruct (failed e); [done|]. destruct (check_status buf); [done..|].
    destruct (read_until _ _ _) as [[e' buf'] i']. destruct (failed e'); [done|].
    by destruct (process_headers _ _). }
  rewrite run_S. cbn [complete next_op pending request_ response_ cout]. unfold read_until.
  destruct (read_until_pieces _ _ _ _) as [[e buf] l] eqn:R1. unfold handle_read_status_line.
  pose proof (length_read_until _ _ _ _ _ _ _ R1) as L1. cbn [incoming p1] in L1. fold k in L1.
  destruct (failed e) eqn:E4.
  { rewrite run_idle by done. apply same_console_error; auto. }
  cbn [set_response response_]. destruct (check_status buf) as [|code|rest].
  1,2: rewrite run_idle by done; by left.
  rewrite run_S.
  cbn [complete next_op set_response pending response_ request_ cout set_incoming incoming pieces closing].
  unfold read_until. cbn [pieces closing incoming set_incoming p1].
  destruct (read_until_pieces (CRLF ++ CRLF) rest l (closing (incoming p))) as [[e' buf'] l'] eqn:R2. unfold handle_read_headers.
  pose proof (length_read_until _ _ _ _ _ _ _ R2) as L2.
  destruct (failed e') eqn:E5.
  { rewrite run_idle by done. apply same_console_error; auto. }
  cbn [set_response response_ cout request_ next_op].
  change (cout (client_new server path)) with console.
  pose proof (process_headers_out console buf' eq_refl) as Ho.
  destruct (process_headers console buf') as [o r]. cbn [fst] in Ho. cbn [snd].
  destruct (0 <? length r)%nat eqn:Er.
  - apply Nat.ltb_lt in Er.
    apply (same_content (S k) (set_incoming _ (mkIn l' _)) (mkClient _ [] (put_buf o r) reading_content));
      cbn; try done; [|lia]. rewrite put_buf_ok; [done..|]. intros ->. cbn in Er. lia.
  - apply Nat.ltb_ge in Er. destruct r; [|cbn in Er; lia].
    apply (same_content (S k) (set_incoming _ (mkIn l' _)) (mkClient _ [] o reading_content));
      cbn; try done. lia.
Qed.

(** C17: the asynchronous and the blocking client do the same. Whatever the errors
    of the operations, the text that arrives (also text that is no HTTP) and its
    cutting into pieces, the peer receives the same bytes and the consoles show the
    same, except that the client that waits for completions reports an error as
    "Error: ..." and the blocking one as the exception it has caught. The former
    always comes to rest, when everything that was sent has arrived. *)
Theorem clients_agree p server path :
  failed (closing (incoming p)) = true →
  pending (async_main p server path).2 = idle ∧
  received (async_main p server path).1 = received (sync_main p server path).1 ∧
  same_console (cout (async_main p server path).2) (sync_main p server path).2.1.
Proof.
  intros Hfin. split; [|by apply clients_same]. by apply run_finishes.
Qed.

(** ** The clients and the file server *)

(** A reply of the file server as the clients read it. *)
Definition reply_lines (rep : HttpReply.reply) : list bytes :=
  (λ h, name h ++ HttpReply.name_value_separator ++ value h) <$> HttpReply.rep_headers rep.

Lemma reply_block rep :
  header_block (reply_lines rep) = mjoin (HttpReply.rep_headers rep ≫= HttpReply.header_buffers).
Proof.
  unfold header_block, reply_lines. destruct rep as [? hs ?]. cbn [HttpReply.rep_headers].
  induction hs as [|h hs IH]; [done|]. cbn [fmap list_fmap]. cbn [mjoin list_join mbind list_bind].
  rewrite join_app, <-IH. cbn. f_equal. by rewrite <-app_assoc.
Qed.

Lemma reply_status st :
  ∃ code reason, HttpReply.to_buffer st = status_text (lit "HTTP/1.0") code reason ∧
    status_ok (lit "HTTP/1.0") code reason ∧ dec_val code = HttpReply.status_code st.
Proof.
  exists (take 3 (drop 9 (HttpReply.to_buffer st))),
    (take (length (HttpReply.to_buffer st) - 15) (drop 13 (HttpReply.to_buffer st))).
  destruct st; (split; [reflexivity|]); (split; [|reflexivity]); (split; [|unfold digits|]);
    apply (bool_decide_unpack _); vm_compute; exact I.
Qed.

Definition reply_wire (rep : HttpReply.reply) : bytes := mjoin (HttpReply.to_buffers rep).

Lemma reply_wire_eq rep :
  reply_wire rep = HttpReply.to_buffer (HttpReply.status rep) ++
    header_block (reply_lines rep) ++ CRLF ++ HttpReply.rep_content rep.
Proof.
  unfold reply_wire, HttpReply.to_buffers. rewrite !join_app, reply_block. cbn. by rewrite !app_nil_r.
Qed.

(** What the three clients show. *)
Definition consoles (p : peer) (server path : bytes) : list bytes :=
  [written (cout (async_main p server path).2);
   written (sync_main p server path).2.1;
   written (stream_main p server path).2.1].

(** A reply with headers that reaches the clients whole: the same on all consoles. *)
Definition reply_shown (rep : HttpReply.reply) : bytes :=
  if (HttpReply.status_code (HttpReply.status rep) =? 200)%Z
  then header_block (reply_lines rep) ++ nl ++ HttpReply.rep_content rep
  else lit "Response returned with status code " ++
       show_unsigned (HttpReply.status_code (HttpReply.status rep)) ++ nl.

Lemma async_shown p server path rep :
  answering p → closing (incoming p) = eof → all_of (incoming p) = reply_wire rep →
  reply_lines rep ≠ [] → Forall header_line (reply_lines rep) →
  written (cout (async_main p server path).2) = reply_shown rep.
Proof.
  intros Hp Heof Hall Hne Hl. pose proof Hp as (_ & _ & _ & Hfin). unfold async_main, enough, reply_shown.
  destruct (reply_status (HttpReply.status rep)) as (code & reason & Hbuf & Hst & Hcode).
  rewrite reply_wire_eq, Hbuf in Hall.
  set (k := length (pieces (incoming p))). change (6 + k) with (3 + S (S (S k))). rewrite run_request by done.
  edestruct (run_status (S (S k))) as (rest' & l' & Hrest & Hlen & ->); [done|done|exact Hst|exact Hall|].
  rewrite bool_decide_true by done. rewrite Hcode.
  destruct (_ =? 200)%Z eqn:E; [|by rewrite run_idle].
  edestruct (run_headers (S k)) as (p' & -> & _); [done|done|exact Hne|exact Hl|done|exact Hrest|cbn in *; lia|].
  cbn [cout snd written console app]. unfold ending. cbn [incoming set_incoming closing].
  rewrite Heof, bool_decide_true by done. by rewrite app_nil_r.
Qed.

Lemma sync_shown p server path rep :
  answering p → closing (incoming p) = eof → all_of (incoming p) = reply_wire rep →
  reply_lines rep ≠ [] → Forall header_line (reply_lines rep) →
  written (sync_main p server path).2.1 = reply_shown rep.
Proof.
  destruct p as [? ? ? i r]. intros (Hr & Hc & Hw & Hfin) Heof Hall Hne Hl. cbn in Hr, Hc, Hw. subst.
  cbn [incoming] in *. unfold sync_main, reply_shown.
  destruct (reply_status (HttpReply.status rep)) as (code & reason & Hbuf & Hst & Hcode).
  rewrite reply_wire_eq, Hbuf in Hall.
  change (failed (resolve_ec _)) with false. change (failed (connect_ec _)) with false. cbv iota.
  unfold send_to. cbn [write_ec]. change (failed success) with false. cbn [incoming write_ec].
  change (failed success) with false. cbv iota zeta.
  destruct (read_until_status _ _ _ _ _ Hst Hall) as (rest' & l' & -> & Hrest & Hlen).
  change (failed success) with false. cbv iota. rewrite check_status_ok by done.
  rewrite bool_decide_true by done. rewrite Hcode. destruct (_ =? 200)%Z eqn:E; [|done].
  cbn [incoming set_incoming].
  destruct (read_until_headers (mkIn l' (closing i)) rest' _ _ Hne Hl Hrest) as (body' & l2 & -> & Hb & Hlen2).
  change (failed success) with false. cbv iota. rewrite process_headers_block by done.
  cbn [snd incoming set_incoming]. rewrite read_rest_ok; cbn [closing pieces]; [|by destruct body'|done|lia].
  rewrite Heof, bool_decide_true by done. cbn [fst written]. unfold all_of. cbn [pieces].
  rewrite <-Hb. destruct body'; cbn; by rewrite <-!app_assoc.
Qed.

Lemma stream_shown p server path rep :
  answering p → all_of (incoming p) = reply_wire rep → Forall header_line (reply_lines rep) →
  written (stream_main p server path).2.1 = reply_shown rep.
Proof.
  destruct p as [? ? ? i r]. intros (Hr & Hc & Hw & Hfin) Hall Hl. cbn in Hr, Hc, Hw. subst.
  cbn [incoming] in *. unfold stream_main, reply_shown.
  destruct (reply_status (HttpReply.status rep)) as (code & reason & Hbuf & Hst & Hcode).
  rewrite reply_wire_eq, Hbuf in Hall. unfold send_to. cbn [write_ec resolve_ec connect_ec].
  change (failed success) with false. cbn [incoming write_ec]. change (failed success) with false.
  cbv iota zeta. change (failed (connect_ec _)) with false. cbv iota.
  rewrite Hall, check_status_ok by done. rewrite bool_decide_true by done. rewrite Hcode.
  destruct (_ =? 200)%Z eqn:E; [|done]. rewrite process_headers_block by done.
  cbn. by rewrite <-!app_assoc.
Qed.

Lemma no_newline_not_ctl v : Forall not_ctl v → newline ∉ v.
Proof. rewrite Forall_forall. intros Hv Hin%Hv. by vm_compute in Hin. Qed.

Lemma no_newline_token n : token n → n ≠ [] ∧ newline ∉ n.
Proof. intros [Hne Hn]. split; [done|]. rewrite Forall_forall in Hn. intros Hin%Hn. by vm_compute in Hin. Qed.

Lemma header_ok_lines rep :
  Forall HttpReply.header_ok (HttpReply.rep_headers rep) → Forall header_line (reply_lines rep).
Proof.
  intros Hh. apply Forall_fmap. eapply Forall_impl; [exact Hh|]. intros [n v] [Hn Hv]. cbn in *.
  apply no_newline_token in Hn as [Hn1 Hn2]. apply no_newline_not_ctl in Hv. split.
  - by destruct n.
  - rewrite elem_of_app, !elem_of_cons. intros [?|[Hx|[Hx|?]]]; [done| | |done]; by vm_compute in Hx.
Qed.

(** The request of the clients is one for the server's parser. *)
Definition get_headers (server : bytes) : list header :=
  [mkHeader (lit "Host") server; mkHeader (lit "Accept") (lit "*/*");
   mkHeader (lit "Connection") (lit "close")].

Definition get_of (server path : bytes) : request := mkRequest (lit "GET") path 1 0 (get_headers server).

Lemma get_request_parses server path :
  Forall uri_char path → Forall not_ctl server →
  parse reset empty_request (get_request server path) =
    Ret (yes, expecting_newline_3, get_of server path, []).
Proof.
  intros Hu Hs. rewrite <-(app_nil_r (get_request server path)).
  apply (parse_complete (get_of server path) (get_request server path) []); [|by vm_compute..].
  exists (lit "1"), (lit "0"), (mjoin (get_headers server ≫= HttpReply.header_buffers)). split_and!.
  - split; [apply (bool_decide_unpack _); vm_compute; exact I|exact Hu|..];
      unfold digits; apply (bool_decide_unpack _); vm_compute; exact I.
  - apply HttpReply.headers_buffers_text.
    repeat constructor; cbn; try exact Hs; unfold not_ctl; apply (bool_decide_unpack _); vm_compute; exact I.
  - unfold get_request, line_text, get_of, get_headers. cbn [method uri mbind list_bind mjoin list_join app].
    unfold HttpReply.header_buffers, HttpReply.name_value_separator, HttpReply.crlf. cbn [name value app mjoin list_join].
    change (lit "GET ") with (lit "GET" ++ lit " ").
    change (lit " HTTP/1.0") with (lit " HTTP/" ++ lit "1" ++ lit "." ++ lit "0").
    change (lit "Host: ") with (lit "Host" ++ [":"%char; " "%char]).
    change (lit "Accept: */*") with (lit "Accept" ++ [":"%char; " "%char] ++ lit "*/*").
    change (lit "Connection: close") with (lit "Connection" ++ [":"%char; " "%char] ++ lit "close").
    rewrite ?app_nil_r, <-!app_assoc. cbn [app]. do 9 f_equal. do 2 f_equal. by rewrite <-!app_assoc; cbn [app]; rewrite <-!app_assoc; cbn [app]; rewrite <-!app_assoc.
Qed.

Lemma digits_not_ctl d : digits d → Forall not_ctl d.
Proof.
  intros [_ Hd]. eapply Forall_impl; [exact Hd|]. clear. intros c. unfold not_ctl.
  destruct c as [[] [] [] [] [] [] [] []]; vm_compute; congruence.
Qed.

Lemma extension_not_ctl ext : Forall not_ctl (HttpReply.extension_to_type ext).
Proof.
  unfold HttpReply.extension_to_type, HttpReply.mappings. cbn [HttpReply.find_mapping]. unfold not_ctl.
  repeat case_bool_decide; apply (bool_decide_unpack _); vm_compute; exact I.
Qed.

Section WithServer.
Context {LC : HttpReply.LexicalCast} {LCL : @HttpReply.LexicalCastLaws LC}.

Lemma std_headers_ok content type :
  Forall not_ctl type → Forall HttpReply.header_ok (HttpReply.std_headers content type).
Proof using LCL.
  intros Ht. repeat constructor; cbn; try done; try (vm_compute; done).
  apply digits_not_ctl, LCL.
Qed.

(** Whatever the handler answers has headers the clients can read. *)
Lemma handler_reply_ok files root req opened rep :
  HttpReply.handle_request files root req (HttpReply.mkReply HttpReply.ok [] []) = Ret (opened, rep) →
  reply_lines rep ≠ [] ∧ Forall header_line (reply_lines rep).
Proof using LCL.
  assert (∀ st content type, Forall not_ctl type →
            let rep := HttpReply.mkReply st (HttpReply.std_headers content type) content in
            reply_lines rep ≠ [] ∧ Forall header_line (reply_lines rep)) as Hstd.
  { intros st content type Ht. split; [done|]. by apply header_ok_lines, std_headers_ok. }
  assert (Forall not_ctl (lit "text/html")) as Hhtml
    by (unfold not_ctl; apply (bool_decide_unpack _); vm_compute; exact I).
  rewrite HttpReply.handle_request_eq. destruct (HttpReply.url_decode (uri req)) as [q|].
  2: { intros [= _ <-]. by apply Hstd. }
  case_decide; [|intros [= _ <-]; by apply Hstd].
  destruct (HttpReply.path_ext_total (HttpReply.file_of q)) as [ext ->]. cbn [mbind outcome_bind].
  destruct (files !! _); intros [= _ <-]; apply Hstd; [apply extension_not_ctl|done].
Qed.

(** C16: a client and the file server, end to end. For a path of URI characters and
    a host name without control characters, the server's parser takes the request
    of the clients for what it is, with the path as URI, and its handler answers.
    However the answer is cut into pieces on its way, all three clients show the
    same: if the decoded path names a file of the server, the headers and the file
    byte for byte; if there is no such file, the code 404; if the path is refused,
    the code 400. *)
Theorem get_file files root server path :
  Forall uri_char path → Forall not_ctl server →
  ∃ opened rep,
    parse reset empty_request (get_request server path) =
      Ret (yes, expecting_newline_3, get_of server path, []) ∧
    HttpReply.handle_request files root (get_of server path) (HttpReply.mkReply HttpReply.ok [] []) =
      Ret (opened, rep) ∧
    ∀ p, answering p → closing (incoming p) = eof → all_of (incoming p) = reply_wire rep →
      Forall (λ shown,
        match HttpReply.url_decode path with
        | Some q =>
            if decide (HttpReply.admitted q) then
              match files !! HttpReply.c_str (root ++ HttpReply.file_of q) with
              | Some text => shown = header_block (reply_lines rep) ++ nl ++ text
              | None => shown = lit "Response returned with status code 404" ++ nl
              end
            else shown = lit "Response returned with status code 400" ++ nl
        | None => shown = lit "Response returned with status code 400" ++ nl
        end) (consoles p server path).
Proof using LCL.
  intros Hu Hs.
  destruct (HttpReply.handle_request_total files root (get_of server path)
              (HttpReply.mkReply HttpReply.ok [] [])) as (opened & rep & Hreq).
  exists opened, rep. split; [by apply get_request_parses|]. split; [done|].
  intros p Hp Heof Hall. destruct (handler_reply_ok _ _ _ _ _ Hreq) as [Hne Hl].
  unfold consoles. rewrite (async_shown p server path rep), (sync_shown p server path rep),
    (stream_shown p server path rep) by done.
  rewrite HttpReply.handle_request_eq in Hreq. cbn [get_of uri HttpReply.rep_content] in Hreq.
  apply Forall_replicate with (n := 3).
  destruct (HttpReply.url_decode path) as [q|]; [|by injection Hreq as <- <-].
  case_decide; [|by injection Hreq as <- <-].
  destruct (HttpReply.path_ext_total (HttpReply.file_of q)) as [ext Eext]. rewrite Eext in Hreq.
  cbn [mbind outcome_bind] in Hreq. destruct (files !! _); by injection Hreq as <- <-.
Qed.

End WithServer.

End Clients.
End HttpClient.

(** ** Examples *)
Module HttpClientExamples.
Import HttpClient.
#[local] Existing Instance HttpReply.ref_LexicalCast.
#[local] Existing Instance HttpReply.ref_LexicalCast_laws.

Definition texts : ErrorText :=
  Build_ErrorText (λ _, lit "message") (λ _, lit "code") (λ _, lit "what").
#[local] Existing Instance texts.

(** A peer that sends these pieces and closes the connection. *)
Definition says (l : list bytes) : peer := mkPeer success success success (mkIn l eof) [].

Definition hello : list bytes :=
  [lit "HTTP/1.0 20"; lit "0 OK" ++ [CR]; newline :: lit "A: b" ++ CRLF ++ [CR]; newline :: lit "he"; lit "llo"].

Lemma client_prints_witness :
  ∃ p' c, async_main (says hello) (lit "h") (lit "/") = (p', c) ∧
    written (cout c) = (lit "A: b" ++ CRLF) ++ nl ++ lit "hello" ++ [].
Proof.
  destruct (client_prints (says hello) (lit "h") (lit "/") (lit "HTTP/1.0") (lit "200") (lit "OK")
              (lit "A: b" ++ CRLF ++ CRLF ++ lit "hello")) as (p' & c & Hrun & _ & _ & _ & _ & H200).
  - by repeat split.
  - split; unfold digits; apply (bool_decide_unpack _); vm_compute; exact I.
  - vm_compute. reflexivity.
  - exists p', c. split; [exact Hrun|].
    apply (proj1 (H200 eq_refl eq_refl) [lit "A: b"] (lit "hello")); [done| |reflexivity].
    constructor; [|constructor]. split; apply (bool_decide_unpack _); vm_compute; exact I.
Defined.

Lemma clients_agree_witness :
  same_console (cout (async_main (says [lit "no http"]) (lit "h") (lit "/")).2)
    (sync_main (says [lit "no http"]) (lit "h") (lit "/")).2.1 ∧
  written (cout (async_main (says [lit "no http"]) (lit "h") (lit "/")).2) = lit "Error: code" ++ nl.
Proof.
  split; [|vm_compute; reflexivity].
  apply (clients_agree (says [lit "no http"]) (lit "h") (lit "/")). vm_compute. reflexivity.
Defined.

(** An answer without headers: the blank line follows the status line. The clients
    that wait for CRLF CRLF after it do not find it; the stream client shows the
    content. *)
Definition bare : list bytes := [lit "HTTP/1.0 200 OK" ++ CRLF ++ CRLF ++ lit "content"].

Example no_headers :
  consoles (says bare) (lit "h") (lit "/") =
    [lit "Error: code" ++ nl; lit "Exception: what" ++ nl; nl ++ lit "content"].
Proof. vm_compute. reflexivity. Qed.

Lemma get_file_witness :
  ∃ opened rep,
    HttpReply.handle_request {[lit "/www/a.txt" := lit "text"]} (lit "/www") (get_of (lit "h") (lit "/a.txt"))
      (HttpReply.mkReply HttpReply.ok [] []) = Ret (opened, rep) ∧
    Forall (λ shown, shown = header_block (reply_lines rep) ++ nl ++ lit "text")
      (consoles (says [reply_wire rep]) (lit "h") (lit "/a.txt")).
Proof.
  destruct (get_file {[lit "/www/a.txt" := lit "text"]} (lit "/www") (lit "h") (lit "/a.txt"))
    as (opened & rep & _ & Hreq & Hshown).
  - unfold uri_char, not_ctl. apply (bool_decide_unpack _). vm_compute. exact I.
  - unfold not_ctl. apply (bool_decide_unpack _). vm_compute. exact I.
  - exists opened, rep. split; [exact Hreq|].
    refine (Hshown (says [reply_wire rep]) _ eq_refl _); [by repeat split|].
    cbn. apply app_nil_r.
Defined.

End HttpClientExamples.
