(* ===== verification/HttpConnection.v ===== *)
(** * Connections and the server loop of the first Asio example server

    (src/doc_searcher/data/input/html/boost_asio/example/http/server/{connection,
    connection_manager,server}.cpp.) Asynchronous operations are modelled by what
    is outstanding: a connection waits for a read or a write to complete, the
    server for an accept and for a signal. A step of the server is the completion
    of one outstanding operation, with an error code the environment chooses, and
    the run of its handler. *)

From S2P Require Import Prelude CxxString HttpParser HttpReply.
Import HttpParser HttpReply.

Module HttpConnection.

Inductive error_code := success | operation_aborted | other_error.

#[export] Instance error_code_eq_dec : EqDecision error_code.
Proof. solve_decision. Defined.

(** The operation a connection has started and that has not completed. *)
Inductive pending := NoOp | Reading | Writing (buffers : list bytes).

Record connection := mkConn {
  request_parser_ : state;
  request_ : request;
  reply_ : reply;
  socket_open : bool;
  op : pending;
  received : bytes;   (* all the client has sent; not kept by the program *)
}.

Record server := mkServer {
  acceptor_open : bool;
  connections_ : gset nat;                (* connection_manager_ *)
  conns : gmap nat connection;            (* the connection objects *)
  new_connection_ : nat;
  accepting : bool;                       (* an async_accept is outstanding *)
}.

(** ** connection *)

Definition empty_reply : reply := mkReply ok [] [].

Definition connection_new : connection := mkConn reset empty_request empty_reply false NoOp [].

Definition set_op (c : connection) (o : pending) : connection :=
  mkConn (request_parser_ c) (request_ c) (reply_ c) (socket_open c) o (received c).

(** [connection::start]: the first async_read_some. *)
Definition start (c : connection) : connection := set_op c Reading.

(** [connection::stop]: the socket is closed; what is outstanding still completes. *)
Definition stop (c : connection) : connection :=
  mkConn (request_parser_ c) (request_ c) (reply_ c) false (op c) (received c).

Section Server.
Context `{LexicalCast} (files : file_store) (doc_root_ : bytes).

(** ** connection_manager *)

Definition put_conn (srv : server) (i : nat) (c : connection) : server :=
  mkServer (acceptor_open srv) (connections_ srv) (<[i := c]> (conns srv)) (new_connection_ srv)
    (accepting srv).

Definition set_managed (srv : server) (s : gset nat) : server :=
  mkServer (acceptor_open srv) s (conns srv) (new_connection_ srv) (accepting srv).

Definition manager_start (srv : server) (i : nat) : server :=
  let srv := set_managed srv (connections_ srv ∪ {[i]}) in
  match conns srv !! i with
  | Some c => put_conn srv i (start c)
  | None => srv
  end.

Definition manager_stop (srv : server) (i : nat) : server :=
  let srv := set_managed srv (connections_ srv ∖ {[i]}) in
  match conns srv !! i with
  | Some c => put_conn srv i (stop c)
  | None => srv
  end.

Definition manager_stop_all (srv : server) : server :=
  mkServer (acceptor_open srv) ∅
    (map_imap (λ i c, Some (if decide (i ∈ connections_ srv) then stop c else c)) (conns srv))
    (new_connection_ srv) (accepting srv).

(** ** The handlers of a connection *)

(** The block of [connection::handle_read] for a read without error. *)
Definition read_data (c : connection) (data : bytes) : outcome connection :=
  let got := received c ++ data in
  '(result, st, req, _) ← parse (request_parser_ c) (request_ c) data;
  match result with
  | yes =>
      '(_, rep) ← handle_request files doc_root_ req (reply_ c);
      Ret (mkConn st req rep (socket_open c) (Writing (to_buffers rep)) got)
  | no =>
      let rep := stock_reply bad_request in
      Ret (mkConn st req rep (socket_open c) (Writing (to_buffers rep)) got)
  | indeterminate => Ret (mkConn st req (reply_ c) (socket_open c) Reading got)
  end.

(** [connection::handle_read] *)
Definition handle_read (srv : server) (i : nat) (c : connection) (e : error_code) (data : bytes) :
    outcome server :=
  match e with
  | success => c ← read_data c data; Ret (put_conn srv i c)
  | operation_aborted => Ret srv
  | other_error => Ret (manager_stop srv i)
  end.

(** [connection::handle_write] (the shutdown before the close leaves no trace here). *)
Definition handle_write (srv : server) (i : nat) (e : error_code) : server :=
  match e with
  | operation_aborted => srv
  | _ => manager_stop srv i
  end.

(** ** The handlers of the server *)

(** [server::start_accept]: a new connection object, and an async_accept for it. *)
Definition start_accept (srv : server) : server :=
  let i := S (new_connection_ srv) in
  mkServer (acceptor_open srv) (connections_ srv) (<[i := connection_new]> (conns srv)) i true.

(** [server::handle_accept] *)
Definition handle_accept (srv : server) (e : error_code) : server :=
  if negb (acceptor_open srv) then srv
  else
    let srv := if decide (e = success) then manager_start srv (new_connection_ srv) else srv in
    start_accept srv.

(** [server::handle_stop] *)
Definition handle_stop (srv : server) : server :=
  manager_stop_all
    (mkServer false (connections_ srv) (conns srv) (new_connection_ srv) (accepting srv)).

(** The constructor, up to and including the first start_accept. *)
Definition server_new : server := start_accept (mkServer true ∅ ∅ 0 false).

(** ** The steps *)

(** The accept completes: on success the socket of the new connection is open.
    The handler of an accept that succeeded may run after the signal's handler
    has closed the acceptor; the socket is open then too. *)
Definition accepted_socket (srv : server) (e : error_code) : server :=
  let srv := mkServer (acceptor_open srv) (connections_ srv) (conns srv) (new_connection_ srv) false in
  match e, conns srv !! new_connection_ srv with
  | success, Some c =>
      put_conn srv (new_connection_ srv)
        (mkConn (request_parser_ c) (request_ c) (reply_ c) true (op c) (received c))
  | _, _ => srv
  end.

(** Asio reports [operation_aborted] for an operation on a socket that is open
    only when it is cancelled, which this server never does. *)
Inductive step : server → server → Prop :=
  | step_accept srv e :
      accepting srv = true → step srv (handle_accept (accepted_socket srv e) e)
  | step_read srv i c e data srv' :
      conns srv !! i = Some c → op c = Reading →
      (socket_open c = true → e ≠ operation_aborted) →
      handle_read (put_conn srv i (set_op c NoOp)) i (set_op c NoOp) e data = Ret srv' →
      step srv srv'
  | step_write srv i c e bufs :
      conns srv !! i = Some c → op c = Writing bufs →
      (socket_open c = true → e ≠ operation_aborted) →
      step srv (handle_write (put_conn srv i (set_op c NoOp)) i e)
  | step_signal srv : acceptor_open srv = true → step srv (handle_stop srv).

Definition reachable : server → Prop := rtc step server_new.

(** ** The invariant *)

(** [rep] is the answer to the client's [input]. *)
Definition answers (input : bytes) (rep : reply) : Prop :=
  ∃ r st req rest, parse reset empty_request input = Ret (r, st, req, rest) ∧
    match r with
    | yes => ∃ opened, handle_request files doc_root_ req empty_reply = Ret (opened, rep)
    | no => rep = stock_reply bad_request
    | indeterminate => False
    end.

(** What is true of a connection object. *)
Definition conn_ok (c : connection) : Prop :=
  match op c with
  | Reading =>
      parse reset empty_request (received c) = Ret (indeterminate, request_parser_ c, request_ c, []) ∧
      reply_ c = empty_reply
  | Writing bufs => bufs = to_buffers (reply_ c) ∧ answers (received c) (reply_ c)
  | NoOp => True
  end.

Lemma parse_indet_nil st req s st' req' rest :
  parse st req s = Ret (indeterminate, st', req', rest) → rest = [].
Proof.
  revert st req. induction s as [|a s IH]; intros st req Hp; cbn [parse] in Hp; [by injection Hp|].
  destruct (consume st req a) as [[[[| |] st2] req2]| |]; cbn in Hp; [done|done|by eapply IH|done|done].
Qed.

(** Handling what was read keeps the connection consistent and its socket as it
    was, and starts exactly one operation. *)
Lemma read_data_ok c data c' :
  op c = Reading → conn_ok c → read_data (set_op c NoOp) data = Ret c' →
  conn_ok c' ∧ socket_open c' = socket_open c ∧ op c' ≠ NoOp.
Proof.
  intros Hop Hok Hr. unfold conn_ok in Hok. rewrite Hop in Hok. destruct Hok as [Hp Hrep].
  unfold read_data in Hr. cbn [request_parser_ request_ reply_ socket_open received set_op] in Hr.
  pose proof (parse_more _ _ _ _ _ _ data Hp) as Hm. inv_ret.
  destruct a as [[[r st] req] rest]. rewrite Ha in Hm. rewrite Hrep in Hr.
  destruct r; cbn in Hr; inv_ret.
  - destruct a as [p rep]. cbn in Hr. injection Hr as <-.
    split_and!; [|done|done]. split; [done|]. exists yes, st, req, rest. split; [exact Hm|].
    by exists p.
  - split_and!; [|done|done]. split; [done|]. by exists no, st, req, rest.
  - split_and!; [|done|done]. split; [|done]. cbn. rewrite Hm.
    by rewrite (parse_indet_nil _ _ _ _ _ _ Ha).
Qed.

(** A connection that was accepted and never started. *)
Definition connection_accepted : connection := mkConn reset empty_request empty_reply true NoOp [].

(** The one connection with an open socket the manager may not know: it was
    accepted just before the server was stopped, and [handle_accept] returned
    without starting it. *)
Definition left_over (srv : server) (i : nat) (c : connection) : Prop :=
  acceptor_open srv = false ∧ accepting srv = false ∧ i = new_connection_ srv ∧
  c = connection_accepted.

Record inv (srv : server) : Prop := {
  inv_conns : ∀ i c, conns srv !! i = Some c → conn_ok c;
  (* managed connections are the ones with an open socket and work outstanding *)
  inv_managed : ∀ i, i ∈ connections_ srv →
    ∃ c, conns srv !! i = Some c ∧ socket_open c = true ∧ op c ≠ NoOp;
  inv_open : ∀ i c, conns srv !! i = Some c → socket_open c = true →
    i ∈ connections_ srv ∨ left_over srv i c;
  (* the connection waiting to be accepted is fresh *)
  inv_new : accepting srv = true →
    conns srv !! new_connection_ srv = Some connection_new;
  inv_fresh : ∀ i, new_connection_ srv < i → conns srv !! i = None;
  (* a stopped server manages nothing *)
  inv_stopped : acceptor_open srv = false → connections_ srv = ∅;
  inv_running : acceptor_open srv = true → accepting srv = true;
}.

Lemma put_put srv i c c' : put_conn (put_conn srv i c) i c' = put_conn srv i c'.
Proof. unfold put_conn. cbn. by rewrite insert_insert_eq. Qed.

(** A connection with work outstanding is not the one waiting to be accepted. *)
Lemma busy_not_new srv i c :
  inv srv → conns srv !! i = Some c → op c ≠ NoOp → accepting srv = true → i ≠ new_connection_ srv.
Proof. intros Hi Hc Hop Ha ->. rewrite (inv_new _ Hi Ha) in Hc. injection Hc as <-. done. Qed.

Lemma busy_managed srv i c :
  inv srv → conns srv !! i = Some c → op c ≠ NoOp → socket_open c = true → i ∈ connections_ srv.
Proof. intros Hi Hc Hop Hs. destruct (inv_open _ Hi i c Hc Hs) as [?|(_ & _ & _ & ->)]; done. Qed.

(** Replacing a busy connection that keeps its socket. *)
Lemma inv_put srv i c c' :
  inv srv → conns srv !! i = Some c → op c ≠ NoOp →
  conn_ok c' → socket_open c' = socket_open c → op c' ≠ NoOp → inv (put_conn srv i c').
Proof.
  intros Hi Hc Hop Hok Hs Hop'. pose proof (busy_not_new srv i c Hi Hc Hop) as Hnew. split; cbn.
  - intros j d [[-> <-]|[? Hd]]%lookup_insert_Some; [done|]. by eapply inv_conns.
  - intros j Hj. destruct (inv_managed _ Hi j Hj) as (d & Hd & Hso & Hod).
    destruct (decide (i = j)) as [->|Hne].
    + exists c'. rewrite lookup_insert_eq. assert (d = c) as -> by congruence.
      split_and!; [done|congruence|done].
    + exists d. by rewrite lookup_insert_ne.
  - intros j d [[-> <-]|[? Hd]]%lookup_insert_Some Hso; [|by apply (inv_open _ Hi)].
    left. apply (busy_managed srv j c); [done..|congruence].
  - intros Ha. rewrite lookup_insert_ne by auto. by apply inv_new.
  - intros j Hj. rewrite lookup_insert_ne; [by apply inv_fresh|]. intros ->.
    rewrite (inv_fresh _ Hi) in Hc by done. done.
  - apply (inv_stopped _ Hi).
  - apply (inv_running _ Hi).
Qed.

(** Stopping a connection whose operation has just completed. *)
Lemma inv_stop_conn srv i c :
  inv srv → conns srv !! i = Some c → op c ≠ NoOp →
  inv (manager_stop (put_conn srv i (set_op c NoOp)) i).
Proof.
  intros Hi Hc Hop. pose proof (busy_not_new srv i c Hi Hc Hop) as Hnew.
  unfold manager_stop. cbn [conns set_managed put_conn]. rewrite lookup_insert_eq.
  split; cbn; rewrite ?insert_insert_eq.
  - intros j d [[-> <-]|[? Hd]]%lookup_insert_Some; [done|]. by eapply inv_conns.
  - intros j [Hj Hne]%elem_of_difference. apply not_elem_of_singleton in Hne.
    destruct (inv_managed _ Hi j Hj) as (d & Hd & Hso & Hod).
    exists d. by rewrite lookup_insert_ne.
  - intros j d [[-> <-]|[? Hd]]%lookup_insert_Some Hso; [done|].
    destruct (inv_open _ Hi j d Hd Hso) as [?|?]; [left; set_solver|by right].
  - intros Ha. rewrite lookup_insert_ne by auto. by apply inv_new.
  - intros j Hj. rewrite lookup_insert_ne; [by apply inv_fresh|]. intros ->.
    rewrite (inv_fresh _ Hi) in Hc by done. done.
  - intros Hs. rewrite (inv_stopped _ Hi Hs). set_solver.
  - apply (inv_running _ Hi).
Qed.

(** An aborted operation of a closed connection just ends. *)
Lemma inv_abort srv i c :
  inv srv → conns srv !! i = Some c → op c ≠ NoOp → socket_open c = false →
  inv (put_conn srv i (set_op c NoOp)).
Proof.
  intros Hi Hc Hop Hcl. pose proof (busy_not_new srv i c Hi Hc Hop) as Hnew. split; cbn.
  - intros j d [[-> <-]|[? Hd]]%lookup_insert_Some; [done|]. by eapply inv_conns.
  - intros j Hj. destruct (inv_managed _ Hi j Hj) as (d & Hd & Hso & Hod).
    exists d. rewrite lookup_insert_ne; [done|]. intros ->. congruence.
  - intros j d [[-> <-]|[? Hd]]%lookup_insert_Some Hso; [cbn in Hso; congruence|by apply (inv_open _ Hi)].
  - intros Ha. rewrite lookup_insert_ne by auto. by apply inv_new.
  - intros j Hj. rewrite lookup_insert_ne; [by apply inv_fresh|]. intros ->.
    rewrite (inv_fresh _ Hi) in Hc by done. done.
  - apply (inv_stopped _ Hi).
  - apply (inv_running _ Hi).
Qed.

Lemma inv_read srv i c e data srv' :
  inv srv → conns srv !! i = Some c → op c = Reading →
  (socket_open c = true → e ≠ operation_aborted) →
  handle_read (put_conn srv i (set_op c NoOp)) i (set_op c NoOp) e data = Ret srv' → inv srv'.
Proof.
  intros Hi Hc Hop He Hr. assert (op c ≠ NoOp) as Hne by congruence.
  destruct e; cbn [handle_read] in Hr.
  - inv_ret. rewrite put_put.
    destruct (read_data_ok c data a Hop (inv_conns _ Hi i c Hc) Ha) as (Hok & Hs & Hw).
    by apply (inv_put srv i c).
  - injection Hr as <-. apply inv_abort; [done..|]. destruct (socket_open c); [by destruct He|done].
  - injection Hr as <-. by apply inv_stop_conn.
Qed.

Lemma inv_write srv i c e bufs :
  inv srv → conns srv !! i = Some c → op c = Writing bufs →
  (socket_open c = true → e ≠ operation_aborted) →
  inv (handle_write (put_conn srv i (set_op c NoOp)) i e).
Proof.
  intros Hi Hc Hop He. assert (op c ≠ NoOp) as Hne by congruence.
  destruct e; cbn; [by apply inv_stop_conn| |by apply inv_stop_conn].
  apply inv_abort; [done..|]. destruct (socket_open c); [by destruct He|done].
Qed.

Lemma inv_start_accept srv :
  (∀ i c, conns srv !! i = Some c → conn_ok c) →
  (∀ i, i ∈ connections_ srv → ∃ c, conns srv !! i = Some c ∧ socket_open c = true ∧ op c ≠ NoOp) →
  (∀ i c, conns srv !! i = Some c → socket_open c = true → i ∈ connections_ srv) →
  (∀ i, new_connection_ srv < i → conns srv !! i = None) →
  acceptor_open srv = true → inv (start_accept srv).
Proof.
  intros Hok Hm Ho Hf Ha. split; cbn.
  - intros j d [[<- <-]|[? Hd]]%lookup_insert_Some; [done|eauto].
  - intros j Hj. destruct (Hm j Hj) as (d & Hd & Hs). exists d. rewrite lookup_insert_ne; [done|].
    intros <-. rewrite (Hf (S (new_connection_ srv))) in Hd by lia. done.
  - intros j d [[<- <-]|[? Hd]]%lookup_insert_Some Hs; [done|eauto].
  - intros _. apply lookup_insert_eq.
  - intros j Hj. rewrite lookup_insert_ne by lia. apply Hf. lia.
  - congruence.
  - done.
Qed.

Lemma accepting_managed srv i c :
  inv srv → accepting srv = true → conns srv !! i = Some c → socket_open c = true →
  i ∈ connections_ srv.
Proof. intros Hi Ha Hc Hs. destruct (inv_open _ Hi i c Hc Hs) as [?|(_ & E & _)]; [done|congruence]. Qed.

(** The server was stopped before the handler of the accept ran. *)
Lemma inv_late_accept srv e :
  inv srv → accepting srv = true → acceptor_open srv = false →
  inv (handle_accept (accepted_socket srv e) e).
Proof.
  intros Hi Hacc Ho. pose proof (inv_new _ Hi Hacc) as Hnew. set (n := new_connection_ srv) in *.
  pose proof (λ i c, accepting_managed srv i c Hi Hacc) as Hopen.
  assert (handle_accept (accepted_socket srv e) e =
          mkServer false (connections_ srv)
            (if decide (e = success) then <[n := connection_accepted]> (conns srv) else conns srv)
            n false) as ->.
  { unfold handle_accept, accepted_socket. fold n. cbn [conns new_connection_ acceptor_open].
    rewrite Hnew, Ho. by destruct e. }
  case_decide; split; cbn; try apply Hi; try done.
  - intros j d [[<- <-]|[? Hd]]%lookup_insert_Some; [done|]. by eapply inv_conns.
  - intros j Hj. by rewrite (inv_stopped _ Hi Ho) in Hj.
  - intros j d [[<- <-]|[? Hd]]%lookup_insert_Some Hs; [by right|left; eauto].
  - intros j Hj. rewrite lookup_insert_ne; [by apply inv_fresh|]. fold n in Hj. lia.
  - intros _. by apply inv_stopped.
  - intros j d Hd Hs. left. eauto.
  - intros _. by apply inv_stopped.
Qed.

Lemma inv_accept srv e :
  inv srv → accepting srv = true → inv (handle_accept (accepted_socket srv e) e).
Proof.
  intros Hi Hacc. pose proof (inv_new _ Hi Hacc) as Hnew. set (n := new_connection_ srv) in *.
  destruct (acceptor_open srv) eqn:Ho.
  2: by apply inv_late_accept.
  unfold handle_accept, accepted_socket. fold n. cbn [conns new_connection_ acceptor_open]. rewrite Hnew, Ho.
  destruct e; cbn [negb acceptor_open put_conn new_connection_]; rewrite ?Ho; cbn [negb];
    [rewrite decide_True by done|rewrite decide_False by done..].
  - unfold manager_start. cbn [conns set_managed put_conn]. rewrite lookup_insert_eq.
    apply inv_start_accept; cbn; rewrite ?insert_insert_eq.
    + intros j d [[<- <-]|[? Hd]]%lookup_insert_Some; [done|]. by eapply inv_conns.
    + intros j [Hj|Hj]%elem_of_union.
      * destruct (inv_managed _ Hi j Hj) as (d & Hd & Hs & Hop). exists d.
        rewrite lookup_insert_ne; [done|]. intros <-. rewrite Hnew in Hd. injection Hd as <-. done.
      * apply elem_of_singleton in Hj as ->. eexists. rewrite lookup_insert_eq. done.
    + intros j d [[<- <-]|[? Hd]]%lookup_insert_Some Hs; [set_solver|].
      apply elem_of_union_l. by eapply accepting_managed.
    + intros j Hj. rewrite lookup_insert_ne by lia. by apply inv_fresh.
    + done.
  - apply inv_start_accept; cbn; try apply Hi; [|done]. intros j d. by apply accepting_managed.
  - apply inv_start_accept; cbn; try apply Hi; [|done]. intros j d. by apply accepting_managed.
Qed.

Lemma inv_signal srv : inv srv → inv (handle_stop srv).
Proof.
  intros Hi. unfold handle_stop, manager_stop_all. cbn. split; cbn.
  - intros j d Hj. rewrite map_lookup_imap in Hj.
    destruct (conns srv !! j) as [c|] eqn:Hc; [|done]. cbn in Hj. injection Hj as <-.
    apply (inv_conns _ Hi) in Hc. case_decide; [|done]. exact Hc.
  - intros j Hj. set_solver.
  - intros j d Hj Hs. rewrite map_lookup_imap in Hj.
    destruct (conns srv !! j) as [c|] eqn:Hc; [|done]. cbn in Hj. injection Hj as <-.
    case_decide as Hd; [done|].
    destruct (inv_open _ Hi j c Hc Hs) as [?|(_ & ? & ? & ?)]; [done|by right].
  - intros Ha. rewrite map_lookup_imap, (inv_new _ Hi Ha). cbn.
    by case_decide.
  - intros j Hj. by rewrite map_lookup_imap, (inv_fresh _ Hi).
  - done.
  - done.
Qed.

Lemma inv_new_server : inv server_new.
Proof.
  apply inv_start_accept; cbn; try done; intros;
    (set_solver || (exfalso; by rewrite lookup_empty in *)).
Qed.

Lemma inv_step srv srv' : inv srv → step srv srv' → inv srv'.
Proof.
  intros Hi Hs. destruct Hs; [by apply inv_accept|by eapply inv_read|by eapply inv_write|by apply inv_signal].
Qed.

Lemma reachable_inv srv : reachable srv → inv srv.
Proof.
  intros Hr. refine (rtc_ind_r inv server_new inv_new_server _ srv Hr).
  intros s1 s2 _ Hs Hi. by eapply inv_step.
Qed.

(** C14: in every state the server can get into, the connections its manager holds
    are exactly the ones with an open socket and an operation outstanding: none is
    forgotten and none is kept after it was closed. While the server runs an
    accept is outstanding and every open socket is managed; after the signal the
    manager is empty, and the only socket that can be open is that of a
    connection accepted before the signal whose handler ran after it: it was
    never started. *)
Theorem managed_exact srv :
  reachable srv →
  (∀ i, i ∈ connections_ srv ↔
     ∃ c, conns srv !! i = Some c ∧ socket_open c = true ∧ op c ≠ NoOp) ∧
  (acceptor_open srv = true →
     accepting srv = true ∧
     ∀ i c, conns srv !! i = Some c → socket_open c = true → i ∈ connections_ srv) ∧
  (acceptor_open srv = false →
     connections_ srv = ∅ ∧
     ∀ i c, conns srv !! i = Some c → socket_open c = true →
       i = new_connection_ srv ∧ c = connection_accepted ∧ accepting srv = false).
Proof.
  intros Hi%reachable_inv. split_and!.
  - intros i. split; [apply (inv_managed _ Hi)|].
    intros (c & Hc & Hs & Hop). by apply (busy_managed srv i c).
  - intros Ho. pose proof (inv_running _ Hi Ho) as Ha. split; [done|].
    intros i c. by apply accepting_managed.
  - intros Ho. pose proof (inv_stopped _ Hi Ho) as He. split; [done|]. intros i c Hc Hs.
    destruct (inv_open _ Hi i c Hc Hs) as [Hin|(_ & Ha & Hn & Hcc)]; [|done].
    rewrite He in Hin. set_solver.
Qed.

(** C15: what a connection sends is the answer to what its client has sent: when
    the bytes received so far begin with a request text, the handler's reply to
    exactly that request, and the stock reply 400 when the parser refused them;
    nothing is sent to a client whose request is not complete. *)
Theorem replies_are_answers srv i c bufs :
  reachable srv → conns srv !! i = Some c → op c = Writing bufs →
  bufs = to_buffers (reply_ c) ∧
  ((∃ text rest req opened, received c = text ++ rest ∧ request_text req text ∧
      handle_request files doc_root_ req empty_reply = Ret (opened, reply_ c)) ∨
   reply_ c = stock_reply bad_request ∧
   ∃ st req rest, parse reset empty_request (received c) = Ret (no, st, req, rest)).
Proof.
  intros Hi%reachable_inv Hc Hop. pose proof (inv_conns _ Hi i c Hc) as Hok.
  unfold conn_ok in Hok. rewrite Hop in Hok. destruct Hok as [Hb (r & st & req & rest & Hp & Hr)].
  split; [done|]. destruct r; [left|right|done].
  - destruct Hr as [opened Hr].
    destruct (parse_reached (received c) _ _ _ reached_start)
      as [(? & ? & E & _)|[(st2 & req2 & t & r & E & Hin & Ht)|[(? & ? & ? & E)|E]]];
      rewrite E in Hp; [done| |done|done].
    injection Hp as -> -> ->. by exists t, rest, req, opened.
  - split; [done|]. eauto.
Qed.

End Server.
End HttpConnection.

(** ** Witnesses: a client that sends a malformed request, then a signal *)

Module HttpConnectionExamples.
Import HttpConnection.
Local Existing Instance ref_LexicalCast.

Definition srv1 : server := handle_accept (accepted_socket server_new success) success.

Definition conn1 : connection := mkConn reset empty_request empty_reply true Reading [].

Definition conn2 : connection :=
  mkConn reset empty_request (stock_reply bad_request) true
    (Writing (to_buffers (stock_reply bad_request))) (lit "(").

Definition srv2 : server := put_conn srv1 1 conn2.

Lemma srv1_reachable : reachable ∅ [] srv1.
Proof. eapply rtc_once, step_accept. reflexivity. Qed.

Lemma srv2_reachable : reachable ∅ [] srv2.
Proof.
  eapply rtc_r; [exact srv1_reachable|].
  eapply (step_read _ _ srv1 1 conn1 success (lit "(")); [vm_compute; reflexivity|reflexivity|done|].
  cbn [handle_read]. unfold read_data. cbn [request_parser_ request_ set_op conn1].
  replace (parse reset empty_request (lit "(")) with (Ret (no, reset, empty_request, [] : bytes))
    by (vm_compute; reflexivity).
  cbn. unfold srv2, conn2. by rewrite put_put.
Qed.

(** The race: the signal arrives while a client is being accepted. *)
Definition srv3 : server := handle_accept (accepted_socket (handle_stop srv2) success) success.

Lemma srv3_reachable : reachable ∅ [] srv3.
Proof.
  eapply rtc_r; [eapply rtc_r; [exact srv2_reachable|]|].
  - apply step_signal. reflexivity.
  - apply step_accept. reflexivity.
Qed.

(** The server is stopped and manages nothing, and the socket of the second
    client stays open. *)
Example accepted_and_left_open :
  acceptor_open srv3 = false ∧ connections_ srv3 = ∅ ∧
  conns srv3 !! 2 = Some connection_accepted ∧ accepting srv3 = false.
Proof. vm_compute. done. Qed.

Lemma managed_exact_witness :
  reachable ∅ [] srv2 ∧ connections_ srv2 = {[1]} ∧ 1 ∈ connections_ srv2 ∧
  connections_ srv3 = ∅ ∧ 2 = new_connection_ srv3.
Proof.
  split; [exact srv2_reachable|]. split; [vm_compute; reflexivity|].
  destruct (managed_exact ∅ [] srv2 srv2_reachable) as (_ & Hrun & _).
  destruct (managed_exact ∅ [] srv3 srv3_reachable) as (_ & _ & Hstop).
  destruct (Hstop eq_refl) as [He Hone]. split.
  - apply (proj2 (Hrun eq_refl) 1 conn2); [apply lookup_insert_eq|reflexivity].
  - split; [exact He|]. apply (Hone 2 connection_accepted); vm_compute; reflexivity.
Defined.

Lemma replies_witness :
  reachable ∅ [] srv2 ∧ conns srv2 !! 1 = Some conn2 ∧
  to_buffers (stock_reply bad_request) = to_buffers (reply_ conn2) ∧
  ((∃ text rest req opened, received conn2 = text ++ rest ∧ request_text req text ∧
      handle_request ∅ [] req empty_reply = Ret (opened, reply_ conn2)) ∨
   reply_ conn2 = stock_reply bad_request ∧
   ∃ st req rest, parse reset empty_request (received conn2) = Ret (no, st, req, rest)).
Proof.
  split; [exact srv2_reachable|]. split; [apply lookup_insert_eq|].
  apply (replies_are_answers ∅ [] srv2 1 conn2); [exact srv2_reachable|apply lookup_insert_eq|reflexivity].
Defined.

End HttpConnectionExamples.
