(* ===== verification/HttpServer2.v ===== *)
(** * The second and third Asio example servers

    (src/doc_searcher/data/input/html/boost_asio/example/http/server2 and server3.)
    They share parser, replies and handler with the first server, textually. The
    second runs one io_service per thread and hands connections out to them in
    turn; the third runs one io_service from several threads. A connection is not
    registered anywhere: it lives as long as one of its operations is
    outstanding. *)

From S2P Require Import Prelude CxxString HttpParser HttpReply HttpConnection.
Import HttpParser HttpReply HttpConnection.

(** ** The pool of io_services *)

Module IoServicePool.

(** An io_service is known by its position; it is stopped or not. The [work_]
    objects are known by the io_service they keep busy. *)
Record io_service_pool := mkPool {
  io_services_ : list bool;   (* stopped *)
  work_ : list nat;
  next_io_service_ : nat;
}.

(** One round of the constructor's loop. *)
Definition add_service (p : io_service_pool) (i : nat) : io_service_pool :=
  mkPool (io_services_ p ++ [false]) (work_ p ++ [i]) (next_io_service_ p).

Definition pool_new (pool_size : nat) : outcome io_service_pool :=
  if pool_size =? 0 then Throw runtime_error
  else Ret (foldl add_service (mkPool [] [] 0) (seq 0 pool_size)).

Definition pool_stop (p : io_service_pool) : io_service_pool :=
  mkPool ((λ _, true) <$> io_services_ p) (work_ p) (next_io_service_ p).

Definition get_io_service (p : io_service_pool) : outcome (nat * io_service_pool) :=
  match io_services_ p !! next_io_service_ p with
  | None => Undef OutOfBounds
  | Some _ =>
      let next := S (next_io_service_ p) in
      let next := if next =? length (io_services_ p) then 0 else next in
      Ret (next_io_service_ p, mkPool (io_services_ p) (work_ p) next)
  end.

(** A thread returns from [io_service::run] when the io_service is stopped or
    has neither work nor a handler to run; [run] joins one thread for each. *)
Definition thread_done (p : io_service_pool) (i : nat) : bool :=
  match io_services_ p !! i with
  | Some st => st || negb (bool_decide (i ∈ work_ p))
  | None => true
  end.
Definition run_returns (p : io_service_pool) : bool :=
  forallb (thread_done p) (seq 0 (length (io_services_ p))).

(** The io_services [k] calls of [get_io_service] give. *)
Fixpoint draws (k : nat) (p : io_service_pool) : outcome (list nat * io_service_pool) :=
  match k with
  | 0 => Ret ([], p)
  | S k =>
      '(i, p) ← get_io_service p;
      '(l, p) ← draws k p;
      Ret (i :: l, p)
  end.

Lemma pool_new_eq n :
  0 < n → pool_new n = Ret (mkPool (replicate n false) (seq 0 n) 0).
Proof.
  intros Hn. unfold pool_new. destruct (Nat.eqb_spec n 0) as [->|_]; [lia|]. f_equal. clear Hn.
  induction n as [|n IH]; [done|].
  rewrite seq_S, foldl_app, IH. unfold add_service. cbn -[replicate seq].
  by rewrite replicate_S_end.
Qed.

(** The position follows the number of calls modulo the size. *)
Lemma get_io_service_mod l w n k :
  length l = n → 0 < n →
  get_io_service (mkPool l w (k mod n)) = Ret (k mod n, mkPool l w (S k mod n)).
Proof.
  intros Hl Hn. assert (k mod n < n) as Hlt by (apply Nat.mod_upper_bound; lia).
  unfold get_io_service. cbn [io_services_ next_io_service_ work_].
  destruct (lookup_lt_is_Some_2 l (k mod n)) as [b ->]; [lia|]. cbn zeta. rewrite Hl.
  do 3 f_equal. change (S k) with (1 + k). rewrite Nat.Div0.add_mod.
  destruct (decide (n = 1)) as [->|Hn1]; [done|]. rewrite (Nat.mod_small 1) by lia.
  destruct (Nat.eqb_spec (S (k mod n)) n) as [E|E].
  - replace (1 + k mod n) with n by lia. by rewrite Nat.Div0.mod_same.
  - symmetry. apply Nat.mod_small. lia.
Qed.

Lemma draws_mod n l w k m :
  length l = n → 0 < n →
  draws k (mkPool l w (m mod n)) =
    Ret ((λ i, i mod n) <$> seq m k, mkPool l w ((m + k) mod n)).
Proof.
  intros Hl Hn. revert m. induction k as [|k IH]; intros m; cbn [draws seq fmap list_fmap].
  { by rewrite Nat.add_0_r. }
  rewrite (get_io_service_mod l w n m) by done. cbn [mbind outcome_bind].
  rewrite (IH (S m)), Nat.add_succ_comm. done.
Qed.

(** The pool is fair. A pool of size 0 is refused; from any other the calls of
    get_io_service go round: the k-th call gives io_service k modulo the size,
    never one outside the vector, so that any [n] calls in a row give each
    io_service exactly once. *)
Theorem round_robin n k :
  (pool_new 0 = Throw runtime_error) ∧
  (0 < n → ∃ p p', pool_new n = Ret p ∧ draws k p = Ret ((λ i, i mod n) <$> seq 0 k, p') ∧
     ∃ l p'', draws n p' = Ret (l, p'') ∧ l ≡ₚ seq 0 n).
Proof.
  split; [done|]. intros Hn. eexists _, _. split; [by apply pool_new_eq|].
  assert (length (replicate n false) = n) as Hl by apply length_replicate.
  pose proof (draws_mod n _ (seq 0 n) k 0 Hl Hn) as Hd.
  rewrite (Nat.mod_small 0 n) in Hd by lia. split; [exact Hd|].
  eexists _, _. split; [by apply draws_mod|].
  apply NoDup_Permutation.
  - apply NoDup_fmap_2_strong; [|apply NoDup_seq].
    intros x y [Hx1 Hx2]%elem_of_seq [Hy1 Hy2]%elem_of_seq E.
    pose proof (Nat.div_mod_eq x n). pose proof (Nat.div_mod_eq y n).
    assert (x / n = y / n) as Hq; [|rewrite Hq in *; lia].
    pose proof (Nat.mod_upper_bound x n). pose proof (Nat.mod_upper_bound y n).
    destruct (Nat.lt_trichotomy (x / n) (y / n)) as [?|[?|?]]; [exfalso; nia|done|exfalso; nia].
  - apply NoDup_seq.
  - intros x. rewrite list_elem_of_fmap. setoid_rewrite elem_of_seq. split.
    + intros (y & -> & _). pose proof (Nat.mod_upper_bound y n). lia.
    + intros [_ Hx]. set (m := 0 + k).
      pose proof (Nat.div_mod_eq m n) as Hm. pose proof (Nat.mod_upper_bound m n).
      destruct (decide (m mod n ≤ x)).
      * exists (n * (m / n) + x). split; [|lia].
        rewrite Nat.add_comm, Nat.mul_comm, Nat.Div0.mod_add. symmetry. apply Nat.mod_small. lia.
      * exists (n * S (m / n) + x). split; [|lia].
        rewrite Nat.add_comm, Nat.mul_comm, Nat.Div0.mod_add. symmetry. apply Nat.mod_small. lia.
Qed.

Lemma round_robin_witness :
  0 < 3 ∧ ∃ p p', pool_new 3 = Ret p ∧ draws 5 p = Ret ([0; 1; 2; 0; 1], p') ∧
     ∃ l p'', draws 3 p' = Ret (l, p'') ∧ l ≡ₚ seq 0 3.
Proof. split; [lia|]. apply (round_robin 3 5). lia. Defined.

End IoServicePool.

(** ** The server with one io_service per thread *)

Module Server2.
Import IoServicePool.

(** The connection objects that are alive are the ones with an operation
    outstanding, each with the io_service its socket belongs to. *)
Record server2 := mkServer2 {
  io_service_pool_ : io_service_pool;
  signals_home : nat;
  acceptor_home : nat;
  new_id : nat;                        (* new_connection_ *)
  new_home : nat;
  live : gmap nat (nat * connection);
  accepting2 : bool;
}.

Section Server2.
Context `{LexicalCast} (files : file_store) (doc_root_ : bytes).

(** [connection::handle_read]: the connection afterwards, if it started an
    operation and so stays alive. *)
Definition handle_read2 (c : connection) (e : error_code) (data : bytes) :
    outcome (option connection) :=
  match e with
  | success => c ← read_data files doc_root_ c data; Ret (Some c)
  | _ => Ret None
  end.

(** [connection::handle_write] starts nothing, with or without an error. *)
Definition handle_write2 (c : connection) (e : error_code) : option connection := None.

Definition set_live (srv : server2) (l : gmap nat (nat * connection)) : server2 :=
  mkServer2 (io_service_pool_ srv) (signals_home srv) (acceptor_home srv) (new_id srv)
    (new_home srv) l (accepting2 srv).

(** What becomes of connection [i] after its handler has run. *)
Definition after_handler (srv : server2) (i home : nat) (c : option connection) : server2 :=
  set_live srv (match c with
                | Some c => <[i := (home, c)]> (live srv)
                | None => delete i (live srv)
                end).

(** [server::start_accept] *)
Definition start_accept2 (srv : server2) : outcome server2 :=
  '(home, pool) ← get_io_service (io_service_pool_ srv);
  Ret (mkServer2 pool (signals_home srv) (acceptor_home srv) (S (new_id srv)) home (live srv) true).

(** The new connection with the socket accept has opened, and its [start]. *)
Definition started : connection := start (mkConn reset empty_request empty_reply true NoOp []).

(** [server::handle_accept] *)
Definition handle_accept2 (srv : server2) (e : error_code) : outcome server2 :=
  start_accept2
    (match e with
     | success => set_live srv (<[new_id srv := (new_home srv, started)]> (live srv))
     | _ => srv
     end).

(** [server::handle_stop] *)
Definition handle_stop2 (srv : server2) : server2 :=
  mkServer2 (pool_stop (io_service_pool_ srv)) (signals_home srv) (acceptor_home srv) (new_id srv)
    (new_home srv) (live srv) (accepting2 srv).

(** The constructor. Connections are counted from 0. *)
Definition server2_new (io_service_pool_size : nat) : outcome server2 :=
  pool ← pool_new io_service_pool_size;
  '(signals, pool) ← get_io_service pool;
  '(acceptor, pool) ← get_io_service pool;
  '(home, pool) ← get_io_service pool;
  Ret (mkServer2 pool signals acceptor 0 home ∅ true).

(** Handlers run on the thread of their io_service, as long as it is not stopped. *)
Definition running (srv : server2) (home : nat) : Prop :=
  io_services_ (io_service_pool_ srv) !! home = Some false.

Inductive step2 : server2 → server2 → Prop :=
  | step2_accept srv e srv' :
      accepting2 srv = true → running srv (acceptor_home srv) →
      handle_accept2 srv e = Ret srv' → step2 srv srv'
  | step2_read srv i home c e data c' :
      live srv !! i = Some (home, c) → op c = Reading → running srv home →
      handle_read2 (set_op c NoOp) e data = Ret c' → step2 srv (after_handler srv i home c')
  | step2_write srv i home c e bufs :
      live srv !! i = Some (home, c) → op c = Writing bufs → running srv home →
      step2 srv (after_handler srv i home (handle_write2 (set_op c NoOp) e))
  | step2_signal srv :
      running srv (signals_home srv) → step2 srv (handle_stop2 srv).

Section Size.
Context (n : nat) (Hn : 0 < n).

Definition reachable2 (srv : server2) : Prop := ∃ srv0, server2_new n = Ret srv0 ∧ rtc step2 srv0 srv.

Record inv2 (srv : server2) : Prop := {
  (* either no io_service is stopped or all are *)
  inv2_pool : ∃ st, io_service_pool_ srv = mkPool (replicate n st) (seq 0 n) ((new_id srv + 3) mod n);
  inv2_signals : signals_home srv = 0;
  inv2_acceptor : acceptor_home srv = 1 mod n;
  inv2_home : new_home srv = (new_id srv + 2) mod n;
  inv2_live : ∀ i home c, live srv !! i = Some (home, c) →
    i < new_id srv ∧ home = (i + 2) mod n ∧ conn_ok files doc_root_ c ∧ op c ≠ NoOp;
  inv2_accepting : accepting2 srv = true;
}.

Lemma inv2_new srv : server2_new n = Ret srv → inv2 srv.
Proof using Hn.
  unfold server2_new. rewrite pool_new_eq by done. cbn [mbind outcome_bind].
  pose proof (length_replicate n false) as Hl.
  pose proof (get_io_service_mod _ (seq 0 n) n 0 Hl Hn) as H0.
  rewrite (Nat.mod_small 0 n) in H0 by lia. rewrite H0. cbn [mbind outcome_bind].
  rewrite (get_io_service_mod _ _ n 1) by done. cbn [mbind outcome_bind].
  rewrite (get_io_service_mod _ _ n 2) by done. cbn [mbind outcome_bind].
  intros [= <-]. split; cbn [io_service_pool_ signals_home acceptor_home new_id new_home live accepting2].
  - by exists false.
  - done.
  - done.
  - done.
  - intros i home c Hi. by rewrite lookup_empty in Hi.
  - done.
Qed.

Lemma inv2_accept_ok srv e : inv2 srv → ∃ srv', handle_accept2 srv e = Ret srv' ∧ inv2 srv'.
Proof using Hn.
  intros Hi. destruct (inv2_pool _ Hi) as [st Hp].
  pose proof (get_io_service_mod (replicate n st) (seq 0 n) n (new_id srv + 3)
                (length_replicate n st) Hn) as Hg.
  assert (∀ srv0, io_service_pool_ srv0 = io_service_pool_ srv →
            start_accept2 srv0 =
              Ret (mkServer2 (mkPool (replicate n st) (seq 0 n) (S (new_id srv + 3) mod n))
                     (signals_home srv0) (acceptor_home srv0) (S (new_id srv0))
                     ((new_id srv + 3) mod n) (live srv0) true)) as Hstart.
  { intros srv0 E. unfold start_accept2. by rewrite E, Hp, Hg. }
  unfold handle_accept2. rewrite Hstart by by destruct e. eexists. split; [reflexivity|].
  replace (S (new_id srv + 3)) with (S (new_id srv) + 3) by lia.
  replace (new_id srv + 3) with (S (new_id srv) + 2) by lia.
  split; destruct e;
    cbn [set_live io_service_pool_ signals_home acceptor_home new_id new_home live accepting2];
    try (exists st; reflexivity); try apply Hi; try reflexivity.
  1: intros i home c [[<- [= <- <-]]|[_ Hc]]%lookup_insert_Some;
       [rewrite (inv2_home _ Hi); split_and!; [lia|done|done|done]|].
  all: try intros i home c Hc; destruct (inv2_live _ Hi i home c Hc) as (? & ? & ? & ?);
    split_and!; [lia|done..].
Qed.

Lemma inv2_after srv i home c o :
  inv2 srv → live srv !! i = Some (home, c) →
  (∀ c', o = Some c' → conn_ok files doc_root_ c' ∧ op c' ≠ NoOp) →
  inv2 (after_handler srv i home o).
Proof.
  intros Hi Hc Ho.
  split; cbn [after_handler set_live io_service_pool_ signals_home acceptor_home new_id new_home live accepting2];
    try by apply Hi.
  intros j h d. destruct o as [c'|].
  - intros [[<- [= <- <-]]|[_ Hd]]%lookup_insert_Some; [|by apply inv2_live].
    destruct (inv2_live _ Hi i home c Hc) as (? & ? & ? & ?). destruct (Ho c' eq_refl). done.
  - intros [_ Hd]%lookup_delete_Some. by apply inv2_live.
Qed.

Lemma inv2_step srv srv' : inv2 srv → step2 srv srv' → inv2 srv'.
Proof using Hn.
  intros Hi Hs. destruct Hs as [srv e srv' Ha Hr He|srv i home c e data c' Hc Hop Hr He|srv i home c e b Hc Hop Hr|srv Hr].
  - destruct (inv2_accept_ok srv e Hi) as (srv2 & E & Hi2). congruence.
  - apply (inv2_after srv i home c); [done..|]. intros c2 ->.
    destruct e; cbn in He; inv_ret; [|done..].
    destruct (inv2_live _ Hi i home c Hc) as (_ & _ & Hok & _).
    by destruct (read_data_ok files doc_root_ c data _ Hop Hok Ha) as (? & _ & ?).
  - apply (inv2_after srv i home c); [done..|]. by intros c2 E.
  - destruct (inv2_pool _ Hi) as [st Hp]. split; cbn; try by apply Hi.
    exists true. unfold pool_stop. rewrite Hp. cbn. f_equal. by rewrite fmap_replicate.
Qed.

Lemma reachable2_inv srv : reachable2 srv → inv2 srv.
Proof using Hn.
  intros (srv0 & H0 & Hr). refine (rtc_ind_r inv2 srv0 (inv2_new _ H0) _ srv Hr).
  intros s1 s2 _ Hs Hi. by eapply inv2_step.
Qed.

Lemma run_returns_replicate st k :
  run_returns (mkPool (replicate n st) (seq 0 n) k) = true ↔ st = true.
Proof using Hn.
  unfold run_returns. cbn [io_services_]. rewrite length_replicate, forallb_forall. split.
  - intros Hall. specialize (Hall 0). unfold thread_done in Hall. cbn [io_services_ work_] in Hall.
    rewrite lookup_replicate_2 in Hall by done.
    rewrite bool_decide_true in Hall by (apply elem_of_seq; lia).
    rewrite orb_false_r in Hall. apply Hall, list_elem_of_In, elem_of_seq. lia.
  - intros -> i _. unfold thread_done. cbn [io_services_ work_].
    destruct (replicate n true !! i) as [b|] eqn:E; [|done].
    by apply lookup_replicate in E as [-> _].
Qed.

(** The second server, in every state it can get into: connection [i] is served
    by io_service [i + 2] modulo the size of the pool, has one operation
    outstanding, and what it sends is the answer to what it received; an accept
    always goes on to the next one; and the pool's [run] returns exactly when
    the signal has been handled, after which no handler runs any more. *)
Theorem server2_spec srv :
  reachable2 srv →
  (∀ i home c, live srv !! i = Some (home, c) →
     home = (i + 2) mod n ∧ op c ≠ NoOp ∧
     ∀ bufs, op c = Writing bufs → bufs = to_buffers (reply_ c) ∧
       answers files doc_root_ (received c) (reply_ c)) ∧
  (∀ e, ∃ srv', handle_accept2 srv e = Ret srv' ∧ accepting2 srv' = true) ∧
  (run_returns (io_service_pool_ srv) = true ↔ ¬ running srv (signals_home srv)) ∧
  (run_returns (io_service_pool_ srv) = true → ∀ srv', ¬ step2 srv srv').
Proof using Hn.
  intros Hi%reachable2_inv. destruct (inv2_pool _ Hi) as [st Hp]. split_and!.
  - intros i home c Hc. destruct (inv2_live _ Hi i home c Hc) as (_ & -> & Hok & Hop).
    split_and!; [done..|]. intros bufs E. unfold conn_ok in Hok. by rewrite E in Hok.
  - intros e. destruct (inv2_accept_ok srv e Hi) as (srv' & ? & Hi').
    exists srv'. split; [done|]. apply Hi'.
  - rewrite Hp, run_returns_replicate. unfold running.
    rewrite (inv2_signals _ Hi), Hp. cbn [io_services_]. rewrite lookup_replicate_2 by done.
    destruct st; naive_solver.
  - rewrite Hp, run_returns_replicate. intros -> srv' Hs.
    assert (∀ home, ¬ running srv home) as Hnr.
    { intros home Hr. unfold running in Hr. rewrite Hp in Hr. by apply lookup_replicate in Hr as [? _]. }
    by destruct Hs; eapply Hnr.
Qed.

End Size.
End Server2.

(** A server with two io_services that has accepted one client. *)
Lemma server2_witness :
  ∃ srv home c, reachable2 (H := ref_LexicalCast) ∅ [] 2 srv ∧ live srv !! 0 = Some (home, c) ∧
    home = (0 + 2) mod 2 ∧ op c ≠ NoOp.
Proof.
  assert (∃ srv home c, reachable2 (H := ref_LexicalCast) ∅ [] 2 srv ∧
            live srv !! 0 = Some (home, c)) as (srv & home & c & Hr & Hc).
  { eexists _, _, _. split; [|shelve]. eexists. split; [vm_compute; reflexivity|].
    apply rtc_once, (step2_accept _ _ _ success); [reflexivity|reflexivity|vm_compute; reflexivity].
    Unshelve. 3: vm_compute; reflexivity. }
  exists srv, home, c. split; [exact Hr|]. split; [exact Hc|].
  destruct (server2_spec (H := ref_LexicalCast) ∅ [] 2 (Nat.lt_0_succ 1) _ Hr) as (Hl & _).
  by destruct (Hl 0 home c Hc) as (? & ? & _).
Defined.

End Server2.
