(* ===== verification/HttpServer3.v ===== *)
(** * The third Asio example server: one io_service, several threads

    (src/doc_searcher/data/input/html/boost_asio/example/http/server3.) A handler
    is not atomic here: a thread of the pool takes the completion of an operation,
    does the handler's work, in which the next operation is started, and returns
    from the handler later; meanwhile other threads take other completions, among
    them that of the operation just started. What keeps the handlers of one
    connection apart is its strand: an operation whose handler was passed through
    [strand_.wrap] is taken only when no thread is in the strand, and the strand
    is left when the handler has returned.

    A connection object lives as long as something points to it: [new_connection_],
    the handler of an operation that is outstanding, or a handler that runs. *)

From S2P Require Import Prelude CxxString HttpParser HttpReply HttpConnection.
Import HttpParser HttpReply HttpConnection.

Module Server3.

(** The operations a connection starts. *)
Inductive op3 := Read3 | Write3 (buffers : list bytes).

(** An outstanding operation: the connection its handler points to, and whether
    the handler was wrapped by the strand of the connection. *)
Record outstanding := mkOp {
  op_conn : nat;
  op_what : op3;
  in_strand : bool;
}.

(** A handler a thread runs, with the arguments it was called with. *)
Inductive task :=
  | TAccept (e : error_code)
  | TRead (i : nat) (e : error_code) (data : bytes)
  | TWrite (i : nat) (e : error_code).

(** How far the handler is. [Started] is the point of [handle_accept] between
    the start of the new connection and [start_accept]; at [Returning] the
    handler has done its work and has not returned. *)
Inductive phase := Entered | Started | Returning.

Record running := mkRun { what : task; at_ : phase; holds_strand : bool }.

(** The connection a handler belongs to; the accept handler has none. *)
Definition task_conn (k : task) : option nat :=
  match k with
  | TAccept _ => None
  | TRead i _ _ | TWrite i _ => Some i
  end.

Record server3 := mkServer3 {
  stopped3 : bool;                     (* io_service_ is stopped *)
  threads : gmap nat running;          (* the threads that run a handler *)
  strands : gset nat;                  (* the connections whose strand a thread is in *)
  ops : list outstanding;              (* the operations of the connections *)
  accepting3 : bool;                   (* an async_accept is outstanding *)
  new_id3 : nat;                       (* new_connection_ *)
  live3 : gmap nat connection;         (* the connection objects *)
}.

Section Server3.
Context `{LexicalCast} (files : file_store) (doc_root_ : bytes) (thread_pool_size_ : nat).

(** ** connection *)

(** An operation on the socket of connection [i] whose handler is passed through
    [strand_.wrap]. *)
Definition strand_wrap (i : nat) (o : op3) : outstanding := mkOp i o true.

(** [connection::start] *)
Definition start3 (i : nat) : outstanding := strand_wrap i Read3.

(** [connection::handle_read]: the connection afterwards and the operation started. *)
Definition handle_read3 (i : nat) (c : connection) (e : error_code) (data : bytes) :
    outcome (connection * option outstanding) :=
  match e with
  | success =>
      let got := received c ++ data in
      '(result, st, req, _) ← parse (request_parser_ c) (request_ c) data;
      match result with
      | yes =>
          '(_, rep) ← handle_request files doc_root_ req (reply_ c);
          Ret (mkConn st req rep (socket_open c) NoOp got,
               Some (strand_wrap i (Write3 (to_buffers rep))))
      | no =>
          let rep := stock_reply bad_request in
          Ret (mkConn st req rep (socket_open c) NoOp got,
               Some (strand_wrap i (Write3 (to_buffers rep))))
      | indeterminate =>
          Ret (mkConn st req (reply_ c) (socket_open c) NoOp got, Some (strand_wrap i Read3))
      end
  | _ => Ret (c, None)
  end.

(** [connection::handle_write] starts nothing (the shutdown leaves no trace here). *)
Definition handle_write3 (c : connection) (e : error_code) : connection := c.

(** ** The io_service and the reference counts *)

(** A handler that runs points to the connection. *)
Definition held_by_thread (srv : server3) (i : nat) : Prop :=
  map_Exists (λ _ r, task_conn (what r) = Some i) (threads srv).

#[local] Instance held_by_thread_dec srv i : Decision (held_by_thread srv i).
Proof. unfold held_by_thread. apply _. Defined.

(** The connections an outstanding operation points to. *)
Definition op_conns (srv : server3) : list nat := op_conn <$> ops srv.

Definition referenced (srv : server3) (i : nat) : bool :=
  bool_decide (i = new_id3 srv) || bool_decide (i ∈ op_conns srv) ||
  bool_decide (held_by_thread srv i).

Definition set_live3 (srv : server3) (m : gmap nat connection) : server3 :=
  mkServer3 (stopped3 srv) (threads srv) (strands srv) (ops srv) (accepting3 srv) (new_id3 srv) m.

(** A pointer to the connection is gone: with the last one the object is destroyed. *)
Definition drop_ref (srv : server3) (i : nat) : server3 :=
  if referenced srv i then srv else set_live3 srv (delete i (live3 srv)).

Definition start_ops (srv : server3) (os : list outstanding) : server3 :=
  mkServer3 (stopped3 srv) (threads srv) (strands srv) (os ++ ops srv) (accepting3 srv) (new_id3 srv)
    (live3 srv).

Definition set_thread (srv : server3) (t : nat) (r : running) : server3 :=
  mkServer3 (stopped3 srv) (<[t := r]> (threads srv)) (strands srv) (ops srv) (accepting3 srv)
    (new_id3 srv) (live3 srv).

(** ** server *)

(** [server::start_accept]: [new_connection_] is reset to a new object, which
    drops the pointer to the one before. *)
Definition start_accept3 (srv : server3) : server3 :=
  let i := S (new_id3 srv) in
  drop_ref (mkServer3 (stopped3 srv) (threads srv) (strands srv) (ops srv) true i
              (<[i := connection_new]> (live3 srv))) (new_id3 srv).

(** [server::handle_accept], up to the call of [start_accept]. *)
Definition handle_accept3 (srv : server3) (e : error_code) : server3 :=
  match e with
  | success => start_ops srv [start3 (new_id3 srv)]
  | _ => srv
  end.

(** [server::handle_stop] *)
Definition handle_stop3 (srv : server3) : server3 :=
  mkServer3 true (threads srv) (strands srv) (ops srv) (accepting3 srv) (new_id3 srv) (live3 srv).

(** The constructor; its [start_accept] finds no connection to let go of. *)
Definition server3_new : server3 :=
  mkServer3 false ∅ ∅ [] true 0 {[ 0 := connection_new ]}.

(** ** The threads *)

Definition idle (srv : server3) (t : nat) : Prop :=
  t < thread_pool_size_ ∧ threads srv !! t = None.

Definition opened (c : connection) : connection :=
  mkConn (request_parser_ c) (request_ c) (reply_ c) true (op c) (received c).

(** A thread takes the completion of the accept; on success the socket is open. *)
Definition take_accept (srv : server3) (t : nat) (e : error_code) : server3 :=
  mkServer3 (stopped3 srv) (<[t := mkRun (TAccept e) Entered false]> (threads srv)) (strands srv)
    (ops srv) false (new_id3 srv)
    (match e with success => alter opened (new_id3 srv) (live3 srv) | _ => live3 srv end).

(** The handler of an operation, with the arguments it is called with. *)
Definition handler_of (o : outstanding) (e : error_code) (data : bytes) : task :=
  match op_what o with
  | Read3 => TRead (op_conn o) e data
  | Write3 _ => TWrite (op_conn o) e
  end.

(** A thread takes the completion of an operation, and enters the strand if the
    handler was wrapped. *)
Definition take_op (srv : server3) (t : nat) (o : outstanding) (rest : list outstanding)
    (e : error_code) (data : bytes) : server3 :=
  mkServer3 (stopped3 srv) (<[t := mkRun (handler_of o e data) Entered (in_strand o)]> (threads srv))
    (if in_strand o then {[op_conn o]} ∪ strands srv else strands srv)
    rest (accepting3 srv) (new_id3 srv) (live3 srv).

(** The work of a handler. *)
Definition work (srv : server3) (t : nat) (r : running) : outcome server3 :=
  match what r with
  | TAccept e => Ret (set_thread (handle_accept3 srv e) t (mkRun (what r) Started (holds_strand r)))
  | TRead i e data =>
      match live3 srv !! i with
      | Some c =>
          '(c, o) ← handle_read3 i c e data;
          Ret (set_thread (start_ops (set_live3 srv (<[i := c]> (live3 srv))) (option_list o)) t
                 (mkRun (what r) Returning (holds_strand r)))
      | None => Undef NullDeref
      end
  | TWrite i e =>
      match live3 srv !! i with
      | Some c =>
          Ret (set_thread (set_live3 srv (<[i := handle_write3 c e]> (live3 srv))) t
                 (mkRun (what r) Returning (holds_strand r)))
      | None => Undef NullDeref
      end
  end.

(** The end of [handle_accept]. *)
Definition rearm (srv : server3) (t : nat) (r : running) : server3 :=
  set_thread (start_accept3 srv) t (mkRun (what r) Returning (holds_strand r)).

(** The handler returns: the thread leaves the strand, and the handler's pointer
    to the connection is gone. *)
Definition finish (srv : server3) (t : nat) (r : running) : server3 :=
  let left := match task_conn (what r) with
              | Some i => if holds_strand r then strands srv ∖ {[i]} else strands srv
              | None => strands srv
              end in
  let srv := mkServer3 (stopped3 srv) (delete t (threads srv)) left (ops srv) (accepting3 srv)
               (new_id3 srv) (live3 srv) in
  match task_conn (what r) with
  | Some i => drop_ref srv i
  | None => srv
  end.

Inductive step3 : server3 → server3 → Prop :=
  | step3_accept srv t e :
      idle srv t → stopped3 srv = false → accepting3 srv = true →
      step3 srv (take_accept srv t e)
  | step3_take srv t o rest e data :
      idle srv t → stopped3 srv = false → ops srv ≡ₚ o :: rest →
      (in_strand o = true → op_conn o ∉ strands srv) →
      step3 srv (take_op srv t o rest e data)
  | step3_work srv t r srv' :
      threads srv !! t = Some r → at_ r = Entered → work srv t r = Ret srv' → step3 srv srv'
  | step3_rearm srv t r :
      threads srv !! t = Some r → at_ r = Started → step3 srv (rearm srv t r)
  | step3_finish srv t r :
      threads srv !! t = Some r → at_ r = Returning → step3 srv (finish srv t r)
  | step3_signal srv : stopped3 srv = false → step3 srv (handle_stop3 srv).

Definition reachable3 : server3 → Prop := rtc step3 server3_new.

(** [server::run] returns when the io_service is stopped and every thread is
    through with its handler. *)
Definition run3_returns (srv : server3) : Prop := stopped3 srv = true ∧ threads srv = ∅.

(** ** The invariant *)

(** What is true of a connection with the operation [o] outstanding. *)
Definition op3_ok (c : connection) (o : op3) : Prop :=
  match o with
  | Read3 => conn_ok files doc_root_ (set_op c Reading)
  | Write3 bufs => conn_ok files doc_root_ (set_op c (Writing bufs))
  end.

(** The object [new_connection_] points to is nobody else's yet. *)
Definition waiting (srv : server3) : Prop :=
  (new_id3 srv ∉ op_conns srv) ∧ ¬ held_by_thread srv (new_id3 srv) ∧
  ∃ c, live3 srv !! new_id3 srv = Some c ∧ op3_ok c Read3.

(** What a handler that runs finds. *)
Definition run_ok (srv : server3) (r : running) : Prop :=
  match what r, at_ r with
  | TAccept _, Entered => waiting srv
  | TAccept _, _ => True
  | TRead i _ _, Entered =>
      (i ∉ op_conns srv) ∧ ∃ c, live3 srv !! i = Some c ∧ op3_ok c Read3
  | TWrite i _, Entered => (i ∉ op_conns srv) ∧ is_Some (live3 srv !! i)
  | TRead i _ _, Returning | TWrite i _, Returning => is_Some (live3 srv !! i)
  | _, Started => False
  end.

(** A run of [handle_accept] that has not come to the end of [start_accept]. *)
Definition active (r : running) : Prop := task_conn (what r) = None ∧ at_ r ≠ Returning.

(** All but that nothing is kept alive in vain. *)
Record core (srv : server3) : Prop := {
  core_ops : ∀ o, o ∈ ops srv →
    in_strand o = true ∧ ∃ c, live3 srv !! op_conn o = Some c ∧ op3_ok c (op_what o);
  core_one : NoDup (op_conns srv);
  core_run : ∀ t r, threads srv !! t = Some r → run_ok srv r;
  core_strand : ∀ t r i, threads srv !! t = Some r → task_conn (what r) = Some i →
    holds_strand r = true;
  core_excl : ∀ t1 t2 r1 r2 i, threads srv !! t1 = Some r1 → threads srv !! t2 = Some r2 →
    task_conn (what r1) = Some i → task_conn (what r2) = Some i → t1 = t2;
  core_held : ∀ i, i ∈ strands srv ↔ held_by_thread srv i;
  core_new : is_Some (live3 srv !! new_id3 srv);
  core_bound : ∀ i c, live3 srv !! i = Some c → i ≤ new_id3 srv;
  core_waiting : accepting3 srv = true → waiting srv;
  core_active : ∀ t r, threads srv !! t = Some r → active r → accepting3 srv = false;
  core_active_one : ∀ t1 t2 r1 r2, threads srv !! t1 = Some r1 → threads srv !! t2 = Some r2 →
    active r1 → active r2 → t1 = t2;
  core_accept : accepting3 srv = false → ∃ t r, threads srv !! t = Some r ∧ active r;
}.

Definition no_leak (srv : server3) (i : nat) : Prop :=
  is_Some (live3 srv !! i) → referenced srv i = true.

Definition inv3 (srv : server3) : Prop := core srv ∧ ∀ i, no_leak srv i.

Lemma referenced_true srv i :
  referenced srv i = true ↔
  i = new_id3 srv ∨ i ∈ op_conns srv ∨ held_by_thread srv i.
Proof. unfold referenced. rewrite !orb_true_iff, !bool_decide_eq_true. tauto. Qed.

Lemma thread_conn_live srv t r i :
  core srv → threads srv !! t = Some r → task_conn (what r) = Some i → is_Some (live3 srv !! i).
Proof.
  intros Hc Ht E. pose proof (core_run _ Hc t r Ht) as Hr. unfold run_ok in Hr.
  destruct (what r), (at_ r); cbn in E; simplify_eq; naive_solver.
Qed.

(** A connection without an operation and without a handler may be destroyed. *)
Lemma inv3_drop srv i : core srv → (∀ j, j ≠ i → no_leak srv j) → inv3 (drop_ref srv i).
Proof.
  intros Hc Hl. unfold drop_ref. destruct (referenced srv i) eqn:E.
  { split; [done|]. intros j. destruct (decide (j = i)) as [->|]; [by intros _|by apply Hl]. }
  apply not_true_iff_false in E. rewrite referenced_true in E.
  assert (∀ j, j ≠ i → live3 (set_live3 srv (delete i (live3 srv))) !! j = live3 srv !! j) as Hne.
  { intros j Hj. cbn. by rewrite lookup_delete_ne. }
  split; [split; cbn; try apply Hc|].
  - intros o Ho. assert (op_conn o ≠ i) by (intros <-; apply E; right; left; set_solver).
    rewrite lookup_delete_ne by done. by apply (core_ops _ Hc).
  - intros t r Ht. pose proof (core_run _ Hc t r Ht) as Hr.
    assert (task_conn (what r) ≠ Some i) as Hri.
    { intros E2. apply E. right; right. by exists t, r. }
    unfold run_ok, waiting in *. cbn. destruct (what r), (at_ r); cbn in Hri; try done;
      rewrite lookup_delete_ne; naive_solver.
  - rewrite lookup_delete_ne by naive_solver. apply Hc.
  - intros j c [_ Hj]%lookup_delete_Some. by eapply core_bound.
  - intros Ha. destruct (core_waiting _ Hc Ha) as (? & ? & ?).
    unfold waiting. cbn. rewrite lookup_delete_ne by naive_solver. done.
  - intros j. unfold no_leak. cbn. intros [c [Hj Hd]%lookup_delete_Some].
    change (referenced srv j = true). apply Hl; [done|by eexists].
Qed.

(** The handlers of other connections do not see what happens to [i]. *)
Lemma run_ok_other srv srv' r i :
  run_ok srv r → task_conn (what r) ≠ Some i →
  (task_conn (what r) = None → at_ r = Entered → waiting srv → waiting srv') →
  (∀ j, j ≠ i → j ∈ op_conns srv' → j ∈ op_conns srv) →
  (∀ j, j ≠ i → live3 srv' !! j = live3 srv !! j) →
  run_ok srv' r.
Proof.
  intros Hr Hi Hw Ho Hl. unfold run_ok in *.
  destruct (what r) as [e|j e d|j e], (at_ r); cbn in Hi, Hw; try done; try (by apply Hw);
    rewrite Hl by congruence; try done;
    (destruct Hr as [Hn ?]; split; [|done]; contradict Hn; apply Ho; [congruence|done]).
Qed.

Lemma held_insert srv srv' t r i :
  threads srv' = <[t := r]> (threads srv) →
  held_by_thread srv' i ↔
    task_conn (what r) = Some i ∨
    ∃ t' r', t' ≠ t ∧ threads srv !! t' = Some r' ∧ task_conn (what r') = Some i.
Proof.
  intros E. unfold held_by_thread, map_Exists. rewrite E. split.
  - intros (t' & r' & [[<- <-]|[? ?]]%lookup_insert_Some & ?); [by left|right; eauto 6].
  - intros [?|(t' & r' & ? & ? & ?)]; [exists t, r; by rewrite lookup_insert_eq|].
    exists t', r'. by rewrite lookup_insert_ne.
Qed.

(** Changing only how far a handler is. *)
Lemma held_same srv srv' t r r' i :
  threads srv !! t = Some r → task_conn (what r) = task_conn (what r') →
  threads srv' = <[t := r']> (threads srv) → held_by_thread srv' i ↔ held_by_thread srv i.
Proof.
  intros Ht E Hth. rewrite (held_insert srv srv' t r' i Hth), <-E. unfold held_by_thread, map_Exists.
  split.
  - intros [?|(t' & r1 & _ & ? & ?)]; eauto.
  - intros (t' & r1 & Ht' & ?). destruct (decide (t' = t)) as [->|]; [left; congruence|right; eauto 6].
Qed.

Lemma held_new srv srv' t r i :
  threads srv !! t = None → threads srv' = <[t := r]> (threads srv) →
  held_by_thread srv' i ↔ task_conn (what r) = Some i ∨ held_by_thread srv i.
Proof.
  intros Ht Hth. rewrite (held_insert srv srv' t r i Hth). unfold held_by_thread, map_Exists.
  split; (intros [?|(t' & r1 & H1)]; [by left|right]).
  - destruct H1 as (_ & ? & ?). eauto.
  - destruct H1 as [H1 ?]. exists t', r1. split; [congruence|done].
Qed.

Lemma inv3_new : inv3 server3_new.
Proof.
  assert (∀ i, ¬ held_by_thread server3_new i) as Hn.
  { intros i (t & r & Ht & _). cbn in Ht. by rewrite lookup_empty in Ht. }
  split; [split|].
  - intros o Ho. by apply not_elem_of_nil in Ho.
  - constructor.
  - intros t r Ht. cbn in Ht. by rewrite lookup_empty in Ht.
  - intros t r i Ht. cbn in Ht. by rewrite lookup_empty in Ht.
  - intros t1 t2 r1 r2 i Ht. cbn in Ht. by rewrite lookup_empty in Ht.
  - intros i. split; [set_solver|]. intros Hi. by destruct (Hn i).
  - eexists. apply lookup_singleton_eq.
  - cbn. intros i c [<- _]%lookup_singleton_Some. done.
  - intros _. split; [apply not_elem_of_nil|]. split; [done|].
    exists connection_new. split; [apply lookup_singleton_eq|done].
  - intros t r Ht. cbn in Ht. by rewrite lookup_empty in Ht.
  - intros t1 t2 r1 r2 Ht. cbn in Ht. by rewrite lookup_empty in Ht.
  - done.
  - intros i [c Hi]. cbn in Hi. by apply lookup_singleton_Some in Hi as [<- _].
Qed.

(** ** The steps *)

Lemma take_accept_live srv t e i c :
  live3 (take_accept srv t e) !! i = Some c →
  ∃ c0, live3 srv !! i = Some c0 ∧ ∀ o, op3_ok c0 o → op3_ok c o.
Proof.
  cbn. destruct e; [|eauto..]. destruct (decide (i = new_id3 srv)) as [->|].
  - rewrite lookup_alter_eq. destruct (live3 srv !! new_id3 srv) as [c0|]; [|done].
    intros [= <-]. exists c0. split; [done|]. by intros [].
  - rewrite lookup_alter_ne by done. eauto.
Qed.

Lemma take_accept_keep srv t e i c0 :
  live3 srv !! i = Some c0 →
  ∃ c, live3 (take_accept srv t e) !! i = Some c ∧ ∀ o, op3_ok c0 o → op3_ok c o.
Proof.
  intros Hi. destruct (live3 (take_accept srv t e) !! i) as [c|] eqn:E.
  - exists c. split; [done|]. apply take_accept_live in E as (c1 & ? & ?). by simplify_eq.
  - exfalso. cbn in E. destruct e; [|congruence..].
    destruct (decide (i = new_id3 srv)) as [->|].
    + by rewrite lookup_alter_eq, Hi in E.
    + rewrite lookup_alter_ne in E by done. congruence.
Qed.

Lemma take_accept_waiting srv t e :
  threads srv !! t = None → waiting srv → waiting (take_accept srv t e).
Proof.
  intros Ht (Ho & Hh & c & Hc & Hok). split; [exact Ho|]. split.
  - rewrite (held_new srv _ t (mkRun (TAccept e) Entered false)) by done. by intros [|].
  - destruct (take_accept_keep srv t e _ c Hc) as (c' & ? & ?). exists c'. auto.
Qed.

Lemma inv3_take_accept srv t e :
  inv3 srv → threads srv !! t = None → accepting3 srv = true → inv3 (take_accept srv t e).
Proof.
  intros [Hc Hl] Ht Ha. set (r := mkRun (TAccept e) Entered false).
  assert (∀ i, held_by_thread (take_accept srv t e) i ↔ held_by_thread srv i) as Hh.
  { intros i. rewrite (held_new srv _ t r) by done. cbn. naive_solver. }
  pose proof (take_accept_waiting srv t e Ht (core_waiting _ Hc Ha)) as Hw.
  assert (∀ t' r', threads srv !! t' = Some r' → ¬ active r') as Hna.
  { intros t' r' Ht' Hact. rewrite (core_active _ Hc t' r' Ht' Hact) in Ha. done. }
  split; [split|].
  - intros o Ho. destruct (core_ops _ Hc o Ho) as (? & c & Hlo & Hok). split; [done|].
    destruct (take_accept_keep srv t e _ c Hlo) as (c' & ? & ?). eauto.
  - apply (core_one _ Hc).
  - cbn [threads take_accept]. intros t' r' [[<- <-]|[? Ht']]%lookup_insert_Some; [exact Hw|].
    pose proof (core_run _ Hc t' r' Ht') as Hr. unfold run_ok in *.
    assert (∀ i, is_Some (live3 srv !! i) → is_Some (live3 (take_accept srv t e) !! i)) as Hsome.
    { intros i [c Hi]. destruct (take_accept_keep srv t e i c Hi) as (c' & -> & _). done. }
    destruct (what r') as [e'|i ? ?|i ?], (at_ r'); try done; auto.
    + destruct Hr as (? & c & Hi & ?). split; [done|].
      destruct (take_accept_keep srv t e i c Hi) as (c' & ? & ?). eauto.
    + destruct Hr as [? ?]. split; [done|]. auto.
  - cbn [threads take_accept]. intros t' r' i [[<- <-]|[? Ht']]%lookup_insert_Some; [done|].
    by apply (core_strand _ Hc t').
  - cbn [threads take_accept]. intros t1 t2 r1 r2 i [[<- <-]|[? H1]]%lookup_insert_Some; [done|].
    intros [[<- <-]|[? H2]]%lookup_insert_Some; [done|]. by apply (core_excl _ Hc).
  - intros i. rewrite Hh. apply (core_held _ Hc).
  - destruct (core_new _ Hc) as [c Hn]. destruct (take_accept_keep srv t e _ c Hn) as (c' & E & _).
    exists c'. exact E.
  - intros i c (c0 & Hi & _)%take_accept_live. by eapply (core_bound _ Hc).
  - done.
  - done.
  - cbn [threads take_accept]. intros t1 t2 r1 r2 [[<- <-]|[? H1]]%lookup_insert_Some
      [[<- <-]|[? H2]]%lookup_insert_Some; [done|..]; intros A1 A2;
      [by destruct (Hna t2 r2)|by destruct (Hna t1 r1)..].
  - intros _. exists t, r. cbn. by rewrite lookup_insert_eq.
  - intros i [c (c0 & Hi & _)%take_accept_live]. rewrite referenced_true, Hh.
    apply (referenced_true srv), Hl. by eexists.
Qed.

Lemma inv3_take_op srv t o rest e data :
  inv3 srv → threads srv !! t = None → ops srv ≡ₚ o :: rest →
  (in_strand o = true → op_conn o ∉ strands srv) →
  inv3 (take_op srv t o rest e data).
Proof.
  intros [Hc Hl] Ht Hp Hs. set (srv' := take_op srv t o rest e data).
  assert (o ∈ ops srv) as Ho by (rewrite Hp; left).
  destruct (core_ops _ Hc o Ho) as (Hin & c & Hlive & Hok). specialize (Hs Hin).
  rewrite (core_held _ Hc) in Hs.
  assert (task_conn (handler_of o e data) = Some (op_conn o)) as Htc
    by (unfold handler_of; by destruct (op_what o)).
  assert (∀ i, held_by_thread srv' i ↔ i = op_conn o ∨ held_by_thread srv i) as Hh.
  { intros i. rewrite (held_new srv srv' t (mkRun (handler_of o e data) Entered (in_strand o))) by done.
    cbn [what]. rewrite Htc. naive_solver. }
  assert (op_conns srv ≡ₚ op_conn o :: (op_conn <$> rest)) as Hpc by (unfold op_conns; by rewrite Hp).
  pose proof (core_one _ Hc) as Hnd. fold (op_conns srv) in Hnd. rewrite Hpc in Hnd.
  apply NoDup_cons in Hnd as [Hni Hnd].
  assert (∀ j, j ∈ op_conns srv' → j ∈ op_conns srv) as Hsub by (intros j Hj; rewrite Hpc; by right).
  assert (waiting srv → waiting srv') as Hwait.
  { intros (Hn & Hb & Hlw). split; [|split; [|done]].
    - intros Hj. by apply Hn, Hsub.
    - change (new_id3 srv') with (new_id3 srv). rewrite Hh. intros [E|?]; [|done].
      apply Hn. rewrite Hpc, E. left. }
  split; [split|].
  - intros o' Ho'. apply (core_ops _ Hc). rewrite Hp. by right.
  - exact Hnd.
  - cbn [threads take_op srv']. intros t' r' [[<- <-]|[Hne Ht']]%lookup_insert_Some.
    + unfold run_ok, handler_of. cbn. destruct (op_what o); cbn; [eauto|]. split; [done|by eexists].
    + apply (run_ok_other srv srv' r' (op_conn o)); [by apply (core_run _ Hc t')| |done|auto|done].
      intros E. apply Hs. by exists t', r'.
  - cbn [threads take_op srv']. intros t' r' i [[<- <-]|[? Ht']]%lookup_insert_Some; [done|].
    by apply (core_strand _ Hc t').
  - cbn [threads take_op srv']. intros t1 t2 r1 r2 i [[<- <-]|[? H1]]%lookup_insert_Some
      [[<- <-]|[? H2]]%lookup_insert_Some; cbn [what]; rewrite ?Htc; intros E1 E2; [done|..].
    + destruct Hs. exists t2, r2. split; [done|congruence].
    + destruct Hs. exists t1, r1. split; [done|congruence].
    + by apply (core_excl _ Hc t1 t2 r1 r2 i).
  - intros i. rewrite Hh. cbn. rewrite Hin, elem_of_union, elem_of_singleton. by rewrite (core_held _ Hc).
  - apply (core_new _ Hc).
  - apply (core_bound _ Hc).
  - intros Ha. by apply Hwait, (core_waiting _ Hc).
  - cbn [threads take_op srv']. intros t' r' [[<- <-]|[? Ht']]%lookup_insert_Some.
    { intros [E _]. cbn [what] in E. congruence. }
    by apply (core_active _ Hc t').
  - cbn [threads take_op srv']. intros t1 t2 r1 r2 [[<- <-]|[? H1]]%lookup_insert_Some
      [[<- <-]|[? H2]]%lookup_insert_Some; [done|..].
    + intros [E _]. cbn [what] in E. congruence.
    + intros _ [E _]. cbn [what] in E. congruence.
    + by apply (core_active_one _ Hc).
  - intros Ha. destruct (core_accept _ Hc Ha) as (t' & r' & ? & ?). exists t', r'.
    cbn. rewrite lookup_insert_ne; [done|congruence].
  - intros i Hi. specialize (Hl i Hi). rewrite referenced_true in Hl |- *. rewrite Hh.
    rewrite Hpc, elem_of_cons in Hl. change (new_id3 srv') with (new_id3 srv).
    change (op_conns srv') with (op_conn <$> rest). tauto.
Qed.

(** The work of a handler of connection [i]: the connection changes, and at most
    one operation on it is started. *)
Lemma inv3_work_conn srv t r i c c' os :
  inv3 srv → threads srv !! t = Some r → at_ r = Entered → task_conn (what r) = Some i →
  live3 srv !! i = Some c → i ∉ op_conns srv →
  (os = [] ∨ ∃ o, os = [strand_wrap i o] ∧ op3_ok c' o) →
  inv3 (set_thread (start_ops (set_live3 srv (<[i := c']> (live3 srv))) os) t
          (mkRun (what r) Returning (holds_strand r))).
Proof.
  intros [Hc Hl] Ht Hat Htc Hi Hno Hos. set (r' := mkRun (what r) Returning (holds_strand r)).
  set (srv' := set_thread _ t r').
  assert (threads srv' = <[t := r']> (threads srv)) as Hth by done.
  assert (∀ j, held_by_thread srv' j ↔ held_by_thread srv j) as Hh.
  { intros j. by apply (held_same srv srv' t r r'). }
  assert (held_by_thread srv i) as Hheld by by exists t, r.
  assert (∀ j, j ≠ i → live3 srv' !! j = live3 srv !! j) as Hlive.
  { intros j Hj. cbn. by rewrite lookup_insert_ne. }
  assert (∀ j, j ∈ op_conns srv' → j = i ∨ j ∈ op_conns srv) as Hsub.
  { intros j. unfold op_conns. cbn. destruct Hos as [->|(o & -> & _)]; cbn; set_solver. }
  assert (∀ j, j ∈ op_conns srv → j ∈ op_conns srv') as Hsup.
  { intros j. unfold op_conns. cbn. rewrite fmap_app. set_solver. }
  assert (waiting srv → waiting srv') as Hwait.
  { intros (Hn & Hb & Hlw). assert (new_id3 srv ≠ i) as Hni by (intros E; apply Hb; by rewrite E).
    split; [|split]; change (new_id3 srv') with (new_id3 srv).
    - by intros [?|?]%Hsub.
    - by rewrite Hh.
    - by rewrite Hlive. }
  assert (∀ t' r2, threads srv' !! t' = Some r2 → (t' = t ∧ r2 = r') ∨ t' ≠ t ∧ threads srv !! t' = Some r2) as Hlook.
  { rewrite Hth. intros t' r2 [[<- <-]|[? ?]]%lookup_insert_Some; auto. }
  split; [split|].
  - intros o Ho. cbn in Ho. apply elem_of_app in Ho as [Ho|Ho].
    + destruct Hos as [->|(o' & -> & Hok)]; [by apply not_elem_of_nil in Ho|].
      apply list_elem_of_singleton in Ho as ->. split; [done|]. exists c'. cbn. by rewrite lookup_insert_eq.
    + rewrite Hlive; [by apply (core_ops _ Hc)|]. intros E. apply Hno. rewrite <-E.
      unfold op_conns. set_solver.
  - change (NoDup (op_conns srv')). unfold op_conns. cbn. rewrite fmap_app.
    pose proof (core_one _ Hc). destruct Hos as [->|(o' & -> & _)]; cbn; [done|]. by constructor.
  - intros t' r2 [[-> ->]|[Hne Ht']]%Hlook.
    + unfold run_ok. cbn. destruct (what r); cbn in Htc; simplify_eq; by rewrite lookup_insert_eq.
    + apply (run_ok_other srv srv' r2 i); [by apply (core_run _ Hc t')| |done|naive_solver|done].
      intros E. apply Hne. by apply (core_excl _ Hc t' t r2 r i).
  - intros t' r2 j [[-> ->]|[Hne Ht']]%Hlook; cbn; [by apply (core_strand _ Hc t r j)|by apply (core_strand _ Hc t' r2 j)].
  - intros t1 t2 r1 r2 j [[-> ->]|[Hne1 Ht1]]%Hlook [[-> ->]|[Hne2 Ht2]]%Hlook E1 E2; [done|..].
    + by apply (core_excl _ Hc t t2 r r2 j).
    + by apply (core_excl _ Hc t1 t r1 r j).
    + by apply (core_excl _ Hc t1 t2 r1 r2 j).
  - intros j. rewrite Hh. apply (core_held _ Hc).
  - change (new_id3 srv') with (new_id3 srv). cbn.
    destruct (decide (i = new_id3 srv)) as [->|]; [by rewrite lookup_insert_eq|].
    rewrite lookup_insert_ne by done. apply (core_new _ Hc).
  - intros j d. cbn. intros [[<- _]|[_ Hd]]%lookup_insert_Some; by eapply (core_bound _ Hc).
  - intros Ha. by apply Hwait, (core_waiting _ Hc).
  - intros t' r2 [[-> ->]|[Hne Ht']]%Hlook; [by intros [_ ?]|]. by apply (core_active _ Hc t').
  - intros t1 t2 r1 r2 [[-> ->]|[Hne1 Ht1]]%Hlook [[-> ->]|[Hne2 Ht2]]%Hlook A1 A2; [done|..].
    + by destruct A1.
    + by destruct A2.
    + by apply (core_active_one _ Hc t1 t2 r1 r2).
  - intros Ha. destruct (core_accept _ Hc Ha) as (t' & r2 & Ht' & Hact). exists t', r2.
    rewrite Hth, lookup_insert_ne; [done|]. intros <-. destruct Hact. congruence.
  - intros j Hj. rewrite referenced_true, Hh. destruct (decide (j = i)) as [->|Hji]; [by right; right|].
    unfold no_leak in Hl. rewrite Hlive in Hj by done. apply Hl in Hj.
    apply (referenced_true srv) in Hj as [?|[?|?]]; [by left|right; left; auto|by right; right].
Qed.

(** The work of the accept handler: the new connection is started. *)
Lemma inv3_work_accept srv t r e :
  inv3 srv → threads srv !! t = Some r → at_ r = Entered → what r = TAccept e →
  inv3 (set_thread (handle_accept3 srv e) t (mkRun (what r) Started (holds_strand r))).
Proof.
  intros [Hc Hl] Ht Hat Hw. set (r' := mkRun (what r) Started (holds_strand r)).
  set (srv' := set_thread _ t r').
  assert (active r) as Hact by (split; [by rewrite Hw|congruence]).
  assert (waiting srv) as (Hn & Hb & c & Hcn & Hok).
  { pose proof (core_run _ Hc t r Ht) as Hr. unfold run_ok in Hr. by rewrite Hw, Hat in Hr. }
  pose proof (core_active _ Hc t r Ht Hact) as Hacc.
  assert (threads srv' = <[t := r']> (threads srv)) as Hth by (unfold srv'; by destruct e).
  assert (live3 srv' = live3 srv) as Hlive by (unfold srv'; by destruct e).
  assert (new_id3 srv' = new_id3 srv) as Hnew by (unfold srv'; by destruct e).
  assert (strands srv' = strands srv) as Hst by (unfold srv'; by destruct e).
  assert (accepting3 srv' = false) as Hacc' by (unfold srv'; by destruct e).
  assert (ops srv' = ops srv ∨ ops srv' = start3 (new_id3 srv) :: ops srv) as Hops
    by (unfold srv'; destruct e; auto).
  assert (∀ j, held_by_thread srv' j ↔ held_by_thread srv j) as Hh.
  { intros j. by apply (held_same srv srv' t r r'). }
  assert (∀ j, j ≠ new_id3 srv → j ∈ op_conns srv' → j ∈ op_conns srv) as Hsub.
  { intros j Hj. unfold op_conns. destruct Hops as [->| ->]; cbn; set_solver. }
  assert (∀ j, j ∈ op_conns srv → j ∈ op_conns srv') as Hsup.
  { intros j. unfold op_conns. destruct Hops as [->| ->]; cbn; set_solver. }
  assert (∀ t' r2, threads srv' !! t' = Some r2 → (t' = t ∧ r2 = r') ∨ t' ≠ t ∧ threads srv !! t' = Some r2) as Hlook.
  { rewrite Hth. intros t' r2 [[<- <-]|[? ?]]%lookup_insert_Some; auto. }
  assert (active r') as Hact' by (split; [by apply Hact|done]).
  split; [split|]; rewrite ?Hlive, ?Hnew, ?Hst, ?Hacc'; try done.
  - intros o Ho. destruct Hops as [E|E]; rewrite E in Ho; [by apply (core_ops _ Hc)|].
    apply elem_of_cons in Ho as [->|Ho]; [|by apply (core_ops _ Hc)]. split; [done|eauto].
  - pose proof (core_one _ Hc). unfold op_conns in *. destruct Hops as [E|E]; rewrite E; cbn; [done|]. by constructor.
  - intros t' r2 [[-> ->]|[Hne Ht']]%Hlook; [unfold run_ok; cbn; by rewrite Hw|].
    apply (run_ok_other srv srv' r2 (new_id3 srv)); [by apply (core_run _ Hc t')| | |done|by rewrite Hlive].
    + intros E. apply Hb. by exists t', r2.
    + intros E1 E2. destruct Hne. apply (core_active_one _ Hc t' t r2 r); [done..| |done].
      split; [done|congruence].
  - intros t' r2 j [[-> ->]|[Hne Ht']]%Hlook; cbn; [by rewrite Hw|]. by apply (core_strand _ Hc t').
  - intros t1 t2 r1 r2 j [[-> ->]|[Hne1 Ht1]]%Hlook [[-> ->]|[Hne2 Ht2]]%Hlook E1 E2; [done|..].
    + cbn in E1. by rewrite Hw in E1.
    + cbn in E2. by rewrite Hw in E2.
    + by apply (core_excl _ Hc t1 t2 r1 r2 j).
  - intros j. rewrite Hh. apply (core_held _ Hc).
  - apply (core_bound _ Hc).
  - intros t1 t2 r1 r2 [[-> ->]|[Hne1 Ht1]]%Hlook [[-> ->]|[Hne2 Ht2]]%Hlook A1 A2; [done|..].
    + by apply (core_active_one _ Hc t t2 r r2).
    + by apply (core_active_one _ Hc t1 t r1 r).
    + by apply (core_active_one _ Hc t1 t2 r1 r2).
  - intros _. exists t, r'. by rewrite Hth, lookup_insert_eq.
  - intros j Hj. rewrite Hlive in Hj. apply Hl in Hj. rewrite referenced_true, Hh, Hnew.
    apply (referenced_true srv) in Hj as [?|[?|?]]; [by left|right; left; auto|by right; right].
Qed.

(** [start_accept] at the end of the accept handler. *)
Lemma inv3_rearm srv t r :
  inv3 srv → threads srv !! t = Some r → at_ r = Started → inv3 (rearm srv t r).
Proof.
  intros [Hc Hl] Ht Hat. set (r' := mkRun (what r) Returning (holds_strand r)).
  assert (task_conn (what r) = None) as Htc.
  { pose proof (core_run _ Hc t r Ht) as Hr. unfold run_ok in Hr. rewrite Hat in Hr. by destruct (what r). }
  assert (active r) as Hact by (split; [done|congruence]).
  set (n := S (new_id3 srv)).
  set (srv1 := mkServer3 (stopped3 srv) (<[t := r']> (threads srv)) (strands srv) (ops srv) true n
                 (<[n := connection_new]> (live3 srv))).
  assert (∀ j, held_by_thread srv1 j ↔ held_by_thread srv j) as Hh.
  { intros j. by apply (held_same srv srv1 t r r'). }
  assert (rearm srv t r = drop_ref srv1 (new_id3 srv)) as ->.
  { unfold rearm, start_accept3, drop_ref. fold n.
    match goal with |- set_thread (if ?b then _ else _) _ _ = _ =>
      assert (b = referenced srv1 (new_id3 srv)) as Hb end.
    { apply eq_true_iff_eq. rewrite !referenced_true. rewrite Hh. done. }
    rewrite Hb. by destruct (referenced srv1 (new_id3 srv)). }
  assert (live3 srv !! n = None) as Hfresh.
  { destruct (live3 srv !! n) eqn:E; [|done]. apply (core_bound _ Hc) in E. lia. }
  assert (∀ j, is_Some (live3 srv !! j) → live3 srv1 !! j = live3 srv !! j) as Hlive.
  { intros j [d Hj]. cbn. rewrite lookup_insert_ne; [done|congruence]. }
  assert (∀ t' r2, threads srv1 !! t' = Some r2 → (t' = t ∧ r2 = r') ∨ t' ≠ t ∧ threads srv !! t' = Some r2) as Hlook.
  { cbn. intros t' r2 [[<- <-]|[? ?]]%lookup_insert_Some; auto. }
  assert (∀ t' r2, t' ≠ t → threads srv !! t' = Some r2 → ¬ active r2) as Hna.
  { intros t' r2 Hne Ht' A. by apply Hne, (core_active_one _ Hc t' t r2 r). }
  apply inv3_drop; [split|].
  - intros o Ho. destruct (core_ops _ Hc o Ho) as (? & d & Hd & ?). split; [done|]. exists d.
    rewrite Hlive; [done|by eexists].
  - apply (core_one _ Hc).
  - intros t' r2 [[-> ->]|[Hne Ht']]%Hlook; [unfold run_ok; cbn; by destruct (what r)|].
    apply (run_ok_other srv srv1 r2 n); [by apply (core_run _ Hc t')| | |done|].
    + intros E. destruct (thread_conn_live srv t' r2 n Hc Ht' E) as [? ?]. congruence.
    + intros E1 E2. destruct (Hna t' r2 Hne Ht'). split; [done|congruence].
    + intros j Hj. cbn. by rewrite lookup_insert_ne.
  - intros t' r2 j [[-> ->]|[Hne Ht']]%Hlook E; [cbn in E; congruence|]. by apply (core_strand _ Hc t' r2 j).
  - intros t1 t2 r1 r2 j [[-> ->]|[Hne1 Ht1]]%Hlook [[-> ->]|[Hne2 Ht2]]%Hlook E1 E2; [done|..].
    + cbn in E1. congruence.
    + cbn in E2. congruence.
    + by apply (core_excl _ Hc t1 t2 r1 r2 j).
  - intros j. rewrite Hh. apply (core_held _ Hc).
  - cbn. rewrite lookup_insert_eq. by eexists.
  - cbn. intros j d [[<- _]|[_ Hd]]%lookup_insert_Some; [done|]. apply (core_bound _ Hc) in Hd. lia.
  - intros _. split; [|split].
    + intros (o & Ho & Hin)%list_elem_of_fmap. destruct (core_ops _ Hc o Hin) as (_ & d & Hd & _).
      cbn in Ho. congruence.
    + rewrite Hh. intros (t' & r2 & Ht' & E). destruct (thread_conn_live srv t' r2 n Hc Ht' E). congruence.
    + exists connection_new. cbn. by rewrite lookup_insert_eq.
  - intros t' r2 [[-> ->]|[Hne Ht']]%Hlook A; [by destruct A|]. by destruct (Hna t' r2).
  - intros t1 t2 r1 r2 [[-> ->]|[Hne1 Ht1]]%Hlook [[-> ->]|[Hne2 Ht2]]%Hlook A1 A2; [done|..].
    + by destruct A1.
    + by destruct A2.
    + by destruct (Hna t1 r1).
  - done.
  - intros j Hj. unfold no_leak. cbn. rewrite lookup_insert_is_Some'. intros [<-|Hs].
    + apply referenced_true. by left.
    + apply Hl in Hs. rewrite referenced_true, Hh. apply (referenced_true srv) in Hs as [?|[?|?]]; auto; done.
Qed.

(** A handler returns. *)
Lemma inv3_finish srv t r :
  inv3 srv → threads srv !! t = Some r → at_ r = Returning → inv3 (finish srv t r).
Proof.
  intros [Hc Hl] Ht Hat.
  set (left := match task_conn (what r) with
               | Some i => if holds_strand r then strands srv ∖ {[i]} else strands srv
               | None => strands srv
               end).
  set (srv1 := mkServer3 (stopped3 srv) (delete t (threads srv)) left (ops srv) (accepting3 srv)
                 (new_id3 srv) (live3 srv)).
  assert (¬ active r) as Hnact by (by intros [_ ?]).
  assert (∀ j, held_by_thread srv1 j ↔ held_by_thread srv j ∧ task_conn (what r) ≠ Some j) as Hh.
  { intros j. split.
    - intros (t' & r2 & Ht' & E). cbn in Ht'. apply lookup_delete_Some in Ht' as [Hne Ht']. split; [by exists t', r2|].
      intros E2. by apply Hne, (core_excl _ Hc t t' r r2 j).
    - intros [(t' & r2 & Ht' & E) Hn]. exists t', r2. split; [|done]. cbn.
      rewrite lookup_delete_ne; [done|]. intros <-. congruence. }
  assert (∀ t' r2, threads srv1 !! t' = Some r2 → threads srv !! t' = Some r2) as Hlook.
  { cbn. intros t' r2 [_ ?]%lookup_delete_Some. done. }
  assert (waiting srv → waiting srv1) as Hwait.
  { intros (? & Hb & ?). split_and!; [done| |done]. rewrite Hh. by intros [? _]. }
  assert (core srv1) as Hc1.
  { split; try apply Hc.
    - intros t' r2 Ht'%Hlook. pose proof (core_run _ Hc t' r2 Ht') as Hr. unfold run_ok in *.
      destruct (what r2), (at_ r2); auto.
    - intros t' r2 j Ht'%Hlook. by apply (core_strand _ Hc t').
    - intros t1 t2 r1 r2 j H1%Hlook H2%Hlook. by apply (core_excl _ Hc).
    - intros j. rewrite Hh, <-(core_held _ Hc). cbn. unfold left.
      destruct (task_conn (what r)) as [i|] eqn:E; [|naive_solver].
      rewrite (core_strand _ Hc t r i Ht E), elem_of_difference, elem_of_singleton. naive_solver.
    - intros Ha. by apply Hwait, (core_waiting _ Hc).
    - intros t' r2 Ht'%Hlook. by apply (core_active _ Hc t').
    - intros t1 t2 r1 r2 H1%Hlook H2%Hlook. by apply (core_active_one _ Hc).
    - intros Ha. destruct (core_accept _ Hc Ha) as (t' & r2 & Ht' & A). exists t', r2. split; [|done].
      cbn. rewrite lookup_delete_ne; [done|]. intros <-. congruence. }
  assert (∀ j, task_conn (what r) ≠ Some j → no_leak srv1 j) as Hl1.
  { intros j Hne Hs. apply Hl in Hs. rewrite referenced_true, Hh.
    apply (referenced_true srv) in Hs as [?|[?|?]]; auto. }
  unfold finish. fold left. fold srv1. destruct (task_conn (what r)) as [i|].
  - apply inv3_drop; [done|]. intros j Hj. apply Hl1. congruence.
  - split; [done|]. intros j. by apply Hl1.
Qed.

Lemma handle_read3_ok i c e data c' o :
  op3_ok c Read3 → handle_read3 i c e data = Ret (c', o) →
  o = None ∨ ∃ w, o = Some (strand_wrap i w) ∧ op3_ok c' w.
Proof.
  intros Hok Hr. destruct e; cbn [handle_read3] in Hr; [|injection Hr as <- <-; by left..].
  assert (∃ c2, read_data files doc_root_ (set_op (set_op c Reading) NoOp) data = Ret c2 ∧
    ((∃ b, op c2 = Writing b ∧ o = Some (strand_wrap i (Write3 b))) ∨
     (op c2 = Reading ∧ o = Some (strand_wrap i Read3))) ∧
    ∀ p, set_op c' p = set_op c2 p) as (c2 & Hr2 & Ho & Hc2).
  { unfold read_data. cbn [set_op request_parser_ request_ reply_ socket_open received].
    destruct (parse (request_parser_ c) (request_ c) data) as [[[[[] st] req] ?]| |];
      cbn [mbind outcome_bind] in Hr |- *; try done.
    - destruct (handle_request files doc_root_ req (reply_ c)) as [[p rep]| |];
        cbn [mbind outcome_bind] in Hr |- *; try done. injection Hr as <- <-. naive_solver.
    - injection Hr as <- <-. naive_solver.
    - injection Hr as <- <-. naive_solver. }
  destruct (read_data_ok files doc_root_ (set_op c Reading) data c2) as (Hok2 & _ & _); [done..|].
  assert (∀ p, op c2 = p → conn_ok files doc_root_ (set_op c' p)) as Hall.
  { intros p <-. rewrite Hc2. by destruct c2. }
  right. destruct Ho as [(b & Hb & ->)|[Hb ->]]; eexists; (split; [done|]); by apply Hall.
Qed.

Lemma inv3_work srv t r srv' :
  inv3 srv → threads srv !! t = Some r → at_ r = Entered → work srv t r = Ret srv' → inv3 srv'.
Proof.
  intros Hi Ht Hat Hw. pose proof (core_run _ (proj1 Hi) t r Ht) as Hr. unfold run_ok in Hr.
  rewrite Hat in Hr. unfold work in Hw. destruct (what r) as [e|i e data|i e] eqn:Hwhat.
  - injection Hw as <-. rewrite <-Hwhat. by apply inv3_work_accept.
  - destruct Hr as (Hn & c & Hc & Hok). rewrite Hc in Hw. inv_ret. destruct a as [c' o].
    cbn in Hw. injection Hw as <-. rewrite <-Hwhat.
    apply (inv3_work_conn srv t r i c c'); [done..|by rewrite Hwhat|done|done|].
    destruct (handle_read3_ok i c e data c' o Hok Ha) as [->|(w & -> & ?)]; [by left|right; eauto].
  - destruct Hr as (Hn & c & Hc). rewrite Hc in Hw. injection Hw as <-. rewrite <-Hwhat.
    change (set_live3 srv (<[i:=handle_write3 c e]> (live3 srv))) with
      (start_ops (set_live3 srv (<[i:=handle_write3 c e]> (live3 srv))) []).
    apply (inv3_work_conn srv t r i c); [done..|by rewrite Hwhat|done|done|by left].
Qed.

Lemma inv3_signal srv : inv3 srv → inv3 (handle_stop3 srv).
Proof. intros [Hc Hl]. split; [split; apply Hc|exact Hl]. Qed.

Lemma inv3_step srv srv' : inv3 srv → step3 srv srv' → inv3 srv'.
Proof.
  intros Hi Hs. destruct Hs as [srv t e [_ ?]|srv t o rest e data [_ ?]|srv t r srv'|srv t r|srv t r|srv].
  - by apply inv3_take_accept.
  - by apply inv3_take_op.
  - by eapply inv3_work.
  - by apply inv3_rearm.
  - by apply inv3_finish.
  - by apply inv3_signal.
Qed.

Lemma reachable3_inv srv : reachable3 srv → inv3 srv.
Proof.
  intros Hr. refine (rtc_ind_r inv3 server3_new inv3_new _ srv Hr).
  intros s1 s2 _ Hs Hi. by eapply inv3_step.
Qed.

(** The work of a handler never meets a connection that is gone. *)
Lemma work_no_null srv t r :
  inv3 srv → threads srv !! t = Some r → at_ r = Entered → work srv t r ≠ Undef NullDeref.
Proof.
  intros [Hc _] Ht Hat E. pose proof (core_run _ Hc t r Ht) as Hr. unfold run_ok in Hr.
  rewrite Hat in Hr. unfold work in E. destruct (what r) as [e|i e data|i e]; [done|..].
  - destruct Hr as (_ & c & Hci & [Hp _]). rewrite Hci in E.
    destruct e; cbn [handle_read3] in E; [|done..]. cbn in Hp.
    destruct (parse_reached (received c ++ data) _ _ _ reached_start)
      as [(? & ? & E1 & _)|[(st2 & req2 & ? & ? & E1 & _)|[(? & ? & ? & E1)|E1]]];
      rewrite (parse_more _ _ _ _ _ _ data Hp) in E1; rewrite E1 in E; cbn in E; try done.
    destruct (handle_request_total files doc_root_ req2 (reply_ c)) as (p & rep & E2).
    by rewrite E2 in E.
  - destruct Hr as (_ & c & Hci). by rewrite Hci in E.
Qed.

(** C19: however the threads of the third server interleave, the strand keeps the
    handlers of one connection apart: from the moment a handler is entered until
    it has returned no other thread is in a handler of the same connection, even
    though the operation the handler starts can complete before it returns. A
    connection never has two operations outstanding; a handler finds its
    connection alive; a connection stays alive only as long as [new_connection_],
    an operation or a handler points to it; what is being sent is the answer to
    what was received; two threads are never both before the end of
    [start_accept], and an accept is outstanding unless one of them is; and once
    run has returned nothing happens any more. *)
Theorem server3_exclusive srv :
  reachable3 srv →
  (∀ t1 t2 r1 r2 i, threads srv !! t1 = Some r1 → threads srv !! t2 = Some r2 →
     task_conn (what r1) = Some i → task_conn (what r2) = Some i → t1 = t2) ∧
  NoDup (op_conns srv) ∧
  (∀ t r, threads srv !! t = Some r → at_ r = Entered → work srv t r ≠ Undef NullDeref) ∧
  (∀ i, is_Some (live3 srv !! i) ↔
     i = new_id3 srv ∨ i ∈ op_conns srv ∨ held_by_thread srv i) ∧
  (∀ o bufs, o ∈ ops srv → op_what o = Write3 bufs →
     ∃ c, live3 srv !! op_conn o = Some c ∧ bufs = to_buffers (reply_ c) ∧
       answers files doc_root_ (received c) (reply_ c)) ∧
  (∀ t1 t2 r1 r2, threads srv !! t1 = Some r1 → threads srv !! t2 = Some r2 →
     active r1 → active r2 → t1 = t2) ∧
  (accepting3 srv = true ↔ ∀ t r, threads srv !! t = Some r → ¬ active r) ∧
  (run3_returns srv → ∀ srv', ¬ step3 srv srv').
Proof.
  intros Hi%reachable3_inv. pose proof Hi as [Hc Hl]. split_and!.
  - apply (core_excl _ Hc).
  - apply (core_one _ Hc).
  - intros t r Ht Hat. by apply work_no_null.
  - intros i. split; [by intros ?%Hl%referenced_true|]. intros [->|[Hin|(t & r & Ht & E)]].
    + apply (core_new _ Hc).
    + apply list_elem_of_fmap in Hin as (o & -> & Ho). destruct (core_ops _ Hc o Ho) as (_ & c & ? & _).
      by exists c.
    + by eapply thread_conn_live.
  - intros o bufs Ho Hw. destruct (core_ops _ Hc o Ho) as (_ & c & ? & Hok). exists c.
    rewrite Hw in Hok. split; [done|exact Hok].
  - apply (core_active_one _ Hc).
  - split.
    + intros Ha t r Ht A. rewrite (core_active _ Hc t r Ht A) in Ha. done.
    + intros Hno. destruct (accepting3 srv) eqn:E; [done|].
      destruct (core_accept _ Hc E) as (t & r & Ht & A). by destruct (Hno t r Ht).
  - intros [Hst Hth] srv' Hs. destruct Hs; try congruence; rewrite Hth in *; by rewrite lookup_empty in *.
Qed.

End Server3.

Local Existing Instance ref_LexicalCast.

(** One client connected and has sent its request: thread 0 has started to write
    the answer and has not returned from [handle_read]; thread 1 handles the next
    accept. *)
Definition answered : connection :=
  mkConn reset empty_request (stock_reply bad_request) true NoOp (lit "(").

Definition busy : server3 :=
  mkServer3 false
    {[ 0 := mkRun (TRead 0 success (lit "(")) Returning true;
       1 := mkRun (TAccept success) Entered false ]}
    {[ 0 ]} [mkOp 0 (Write3 (to_buffers (stock_reply bad_request))) true] false 1
    {[ 0 := answered; 1 := opened connection_new ]}.

Lemma busy_reachable : reachable3 ∅ [] 2 busy.
Proof.
  eapply rtc_l; [apply (step3_accept _ _ _ _ 0 success); [split; [lia|done]|done|done]|].
  eapply rtc_l; [eapply (step3_work _ _ _ _ 0); [apply lookup_insert_eq|reflexivity|reflexivity]|].
  eapply rtc_l; [eapply (step3_rearm _ _ _ _ 0); [apply lookup_insert_eq|reflexivity]|].
  eapply rtc_l; [eapply (step3_finish _ _ _ _ 0); [apply lookup_insert_eq|reflexivity]|].
  eapply rtc_l.
  { eapply (step3_take _ _ _ _ 0 (start3 0) [] success (lit "("));
      [split; [lia|vm_compute; done]|vm_compute; done|vm_compute; done|vm_compute; set_solver]. }
  eapply rtc_l; [eapply (step3_work _ _ _ _ 0); [apply lookup_insert_eq|reflexivity|]|].
  { vm_compute. reflexivity. }
  eapply rtc_l; [apply (step3_accept _ _ _ _ 1 success); [split; [lia|vm_compute; done]|vm_compute; done..]|].
  match goal with |- rtc _ ?a busy => replace a with busy by (vm_compute; reflexivity) end.
  apply rtc_refl.
Qed.

Lemma server3_witness :
  reachable3 ∅ [] 2 busy ∧
  NoDup (op_conns busy) ∧ is_Some (live3 busy !! 0) ∧ (accepting3 busy = false).
Proof.
  split; [exact busy_reachable|].
  destruct (server3_exclusive ∅ [] 2 busy busy_reachable)
    as (_ & Hone & _ & Hlive & _). split; [exact Hone|]. split; [|reflexivity].
  apply Hlive. right; left. left.
Defined.

End Server3.
