(* ===== verification/HttpServer4.v ===== *)
(** * The fourth Asio example server: stackless coroutines

    (src/doc_searcher/data/input/html/boost_asio/example/http/server4.) The parser
    and the server are coroutines: a member function whose body resumes after the
    [yield] it last left by. The position is the line number of that [yield], kept
    in [value_]; here it is a label. A block of the body, from a point of resumption
    to the next [yield] or [return], is a definition of its own. *)

From S2P Require Import Prelude CxxString HttpParser HttpReply HttpConnection.
Import HttpParser HttpReply HttpConnection.

(** ** coroutine.hpp *)

Module Coroutine.

(** [value_]: 0 at the start, the line of a yield (or of a fork, negated in the
    child), -1 when complete. *)
Definition is_child (value_ : Z) : bool := (value_ <? 0)%Z.
Definition is_parent (value_ : Z) : bool := negb (is_child value_).
Definition is_complete (value_ : Z) : bool := (value_ =? -1)%Z.

(** [coroutine_ref] during one [reenter]: what was assigned last, if anything.
    The destructor marks the coroutine complete when nothing was. *)
Record coroutine_ref := mkRef { ref_value : Z; modified_ : bool }.
Definition ref_new (value_ : Z) : coroutine_ref := mkRef value_ false.
Definition ref_assign (v : Z) : coroutine_ref := mkRef v true.
Definition ref_destroy (r : coroutine_ref) : Z := if modified_ r then ref_value r else (-1)%Z.

(** How a block ends: at a yield, with the line it stands on, or by leaving the
    body (by return or at its end), which assigns nothing. *)
Inductive exit := Yield (line : Z) | Leave.

Definition reenter (value_ : Z) (x : exit) : Z :=
  ref_destroy (match x with
               | Yield line => ref_assign line
               | Leave => ref_new value_
               end).

Lemma reenter_leave v : is_complete (reenter v Leave) = true.
Proof. done. Qed.

Lemma reenter_yield v line : reenter v (Yield line) = line.
Proof. done. Qed.

End Coroutine.

(** ** request_parser.cpp *)

Module Parser4.
Import Coroutine.

(** boost::lexical_cast<std::size_t>; [None] stands for bad_lexical_cast. *)
Class LexicalCastSize := size_of_string : bytes → option nat.

(** The fields of the other servers' request, and the content. *)
Record request4 := mkRequest4 { head4 : request; content4 : bytes }.

(** The points of resumption. *)
Inductive label :=
  | at_start
  | after_method | after_space_1 | after_uri | after_space_2
  | after_H | after_T_1 | after_T_2 | after_P | after_slash
  | after_major | after_dot | after_minor | after_CR_1 | after_LF_1
  | after_lws | after_name | after_colon | after_space_3 | after_value | after_CR_2 | after_LF_2
  | after_CR_3 | after_content
  | completed.

(** The line of the yield: [value_]. *)
Definition line_of (l : label) : Z :=
  match l with
  | at_start => 0
  | after_method => 40 | after_space_1 => 47 | after_uri => 53 | after_space_2 => 59
  | after_H => 63 | after_T_1 => 65 | after_T_2 => 67 | after_P => 69 | after_slash => 73
  | after_major => 80 | after_dot => 85 | after_minor => 92 | after_CR_1 => 97 | after_LF_1 => 99
  | after_lws => 110 | after_name => 121 | after_colon => 126 | after_space_3 => 128
  | after_value => 135 | after_CR_2 => 140 | after_LF_2 => 142
  | after_CR_3 => 147 | after_content => 170
  | completed => -1
  end%Z.

Record parser4 := mkParser4 { value_ : label; content_length_ : nat }.

Definition parser4_new : parser4 := mkParser4 at_start 0.

(** What a block leaves: [yield return boost::indeterminate] with the label
    reached, [return false], or the end of the body. *)
Inductive result4 :=
  | Yields (l : label) (req : request4) (len : nat)
  | Fails (req : request4) (len : nat)
  | Ends (req : request4) (len : nat).

Definition on_head (f : request → request) (req : request4) : request4 :=
  mkRequest4 (f (head4 req)) (content4 req).
Definition back4 (f : header → header) (req : request4) : outcome request4 :=
  r ← on_back f (head4 req); Ret (mkRequest4 r (content4 req)).

(** The test for a token character, as the loops have it. *)
Definition tok (c : ascii) : bool :=
  is_char (char_val c) && negb (is_ctl (char_val c)) && negb (is_tspecial (char_val c)).

Definition neq (c d : ascii) : bool := negb (bool_decide (c = d)).

(** [if (c != x) return false; yield return boost::indeterminate;] *)
Definition expect4 (x : ascii) (l : label) (req : request4) (len : nat) (c : ascii) : outcome result4 :=
  if neq c x then Ret (Fails req len) else Ret (Yields l req len).

Section Parser4.
Context `{LexicalCastSize}.

(** Request method and the space after it. *)
Definition method_loop (req : request4) (len : nat) (c : ascii) : outcome result4 :=
  if tok c && neq c " " then Ret (Yields after_method (on_head (λ r, add_method r c) req) len)
  else if bool_decide (method (head4 req) = []) then Ret (Fails req len)
  else expect4 " " after_space_1 req len c.

(** URI and the space after it. *)
Definition uri_loop (req : request4) (len : nat) (c : ascii) : outcome result4 :=
  if negb (is_ctl (char_val c)) && neq c " " then
    Ret (Yields after_uri (on_head (λ r, add_uri r c) req) len)
  else if bool_decide (uri (head4 req) = []) then Ret (Fails req len)
  else expect4 " " after_space_2 req len c.

(** Major version number and the dot. *)
Definition major_loop (req : request4) (len : nat) (c : ascii) : outcome result4 :=
  if is_digit (char_val c) then
    v ← next_digit (http_version_major (head4 req)) c;
    Ret (Yields after_major (on_head (λ r, set_version r v (http_version_minor r)) req) len)
  else expect4 "." after_dot req len c.

(** Minor version number and the end of the request line. *)
Definition minor_loop (req : request4) (len : nat) (c : ascii) : outcome result4 :=
  if is_digit (char_val c) then
    v ← next_digit (http_version_minor (head4 req)) c;
    Ret (Yields after_minor (on_head (λ r, set_version r (http_version_major r) v) req) len)
  else expect4 CR after_CR_1 req len c.

(** Header name and the colon. *)
Definition name_loop (req : request4) (len : nat) (c : ascii) : outcome result4 :=
  if tok c && neq c ":" then
    req ← back4 (add_name c) req;
    Ret (Yields after_name req len)
  else expect4 ":" after_colon req len c.

(** Header value and the end of its line. *)
Definition value_loop (req : request4) (len : nat) (c : ascii) : outcome result4 :=
  if is_char (char_val c) && negb (is_ctl (char_val c)) && neq c CR then
    req ← back4 (add_value c) req;
    Ret (Yields after_value req len)
  else expect4 CR after_CR_2 req len c.

(** White space at the start of a continuation line. *)
Definition lws_loop (req : request4) (len : nat) (c : ascii) : outcome result4 :=
  if is_lws c then Ret (Yields after_lws req len) else value_loop req len c.

(** The loop over the header lines and the start of the empty line. *)
Definition headers_loop (req : request4) (len : nat) (c : ascii) : outcome result4 :=
  if (tok c && neq c CR) || is_lws c then
    if is_lws c then
      if bool_decide (headers (head4 req) = []) then Ret (Fails req len)
      else lws_loop req len c
    else name_loop (on_head (λ r, set_headers r (headers r ++ [mkHeader [] []])) req) len c
  else expect4 CR after_CR_3 req len c.

(** std::tolower in the "C" locale. *)
Definition tolower (c : ascii) : ascii :=
  let n := nat_of_ascii c in if (65 <=? n) && (n <=? 90) then chr (n + 32) else c.

Definition tolower_compare (a b : ascii) : bool := bool_decide (tolower a = tolower b).

Definition headers_equal (a b : bytes) : bool :=
  if negb (length a =? length b) then false
  else forallb (λ ab, tolower_compare ab.1 ab.2) (zip a b).

Definition content_length_name_ : bytes := lit "Content-Length".

(** The optional Content-Length header; the last one counts. *)
Fixpoint find_content_length (hs : list header) (len : nat) : option nat :=
  match hs with
  | [] => Some len
  | h :: hs =>
      if headers_equal (name h) content_length_name_ then
        match size_of_string (value h) with
        | Some n => find_content_length hs n
        | None => None
        end
      else find_content_length hs len
  end.

Definition content_loop (req : request4) (len : nat) : result4 :=
  if length (content4 req) <? len then Yields after_content req len else Ends req len.

(** The newline of the empty line, the Content-Length and the content. *)
Definition after_headers (req : request4) (len : nat) (c : ascii) : outcome result4 :=
  if neq c newline then Ret (Fails req len)
  else
    match find_content_length (headers (head4 req)) len with
    | Some len => Ret (content_loop req len)
    | None => Ret (Fails req len)
    end.

(** The body, from each point of resumption. *)
Definition body (l : label) (req : request4) (len : nat) (c : ascii) : outcome result4 :=
  match l with
  | at_start => method_loop (mkRequest4 (mkRequest [] [] 0 0 []) []) 0 c
  | after_method => method_loop req len c
  | after_space_1 | after_uri => uri_loop req len c
  | after_space_2 => expect4 "H" after_H req len c
  | after_H => expect4 "T" after_T_1 req len c
  | after_T_1 => expect4 "T" after_T_2 req len c
  | after_T_2 => expect4 "P" after_P req len c
  | after_P => expect4 "/" after_slash req len c
  | after_slash => if negb (is_digit (char_val c)) then Ret (Fails req len) else major_loop req len c
  | after_major => major_loop req len c
  | after_dot => if negb (is_digit (char_val c)) then Ret (Fails req len) else minor_loop req len c
  | after_minor => minor_loop req len c
  | after_CR_1 => expect4 newline after_LF_1 req len c
  | after_LF_1 | after_LF_2 => headers_loop req len c
  | after_lws => lws_loop req len c
  | after_name => name_loop req len c
  | after_colon => expect4 " " after_space_3 req len c
  | after_space_3 | after_value => value_loop req len c
  | after_CR_2 => expect4 newline after_LF_2 req len c
  | after_CR_3 => after_headers req len c
  | after_content => Ret (content_loop (mkRequest4 (head4 req) (content4 req ++ [c])) len)
  | completed => Ret (Ends req len)
  end.

(** [request_parser::consume]: behind the body stands [return true]. *)
Definition consume4 (p : parser4) (req : request4) (c : ascii) :
    outcome (tribool * parser4 * request4) :=
  r ← body (value_ p) req (content_length_ p) c;
  Ret (match r with
       | Yields l req len => (indeterminate, mkParser4 l len, req)
       | Fails req len => (no, mkParser4 completed len, req)
       | Ends req len => (yes, mkParser4 completed len, req)
       end).

(** [request_parser::parse] *)
Fixpoint parse4 (p : parser4) (req : request4) (input : bytes) :
    outcome (tribool * parser4 * request4 * bytes) :=
  match input with
  | [] => Ret (indeterminate, p, req, [])
  | c :: rest =>
      '(result, p, req) ← consume4 p req c;
      match result with
      | indeterminate => parse4 p req rest
      | _ => Ret (result, p, req, rest)
      end
  end.

(** ** The labels are the coroutine's positions *)

Definition exit_of (r : result4) : exit :=
  match r with
  | Yields l _ _ => Yield (line_of l)
  | _ => Leave
  end.

(** No two yields stand on the same line, so that the position determines where
    the body resumes; and [consume4] moves it the way [reenter] does. *)
Lemma line_of_inj l1 l2 : line_of l1 = line_of l2 → l1 = l2.
Proof. by destruct l1, l2. Qed.

Lemma consume4_reenter p req c r :
  body (value_ p) req (content_length_ p) c = Ret r →
  ∃ t p' req', consume4 p req c = Ret (t, p', req') ∧
    line_of (value_ p') = reenter (line_of (value_ p)) (exit_of r).
Proof. intros E. unfold consume4. rewrite E. destruct r; cbn; eauto. Qed.

(** ** Simulation by the parser of the other servers *)

(** The state of the other parser at a label. *)
Definition state_of (l : label) : state :=
  match l with
  | at_start => method_start
  | after_method => in_method
  | after_space_1 | after_uri => in_uri
  | after_space_2 => http_version_h
  | after_H => http_version_t_1
  | after_T_1 => http_version_t_2
  | after_T_2 => http_version_p
  | after_P => http_version_slash
  | after_slash => version_major_start
  | after_major => version_major
  | after_dot => version_minor_start
  | after_minor => version_minor
  | after_CR_1 => expecting_newline_1
  | after_LF_1 | after_LF_2 => header_line_start
  | after_lws => header_lws
  | after_name => header_name
  | after_colon => space_before_header_value
  | after_space_3 | after_value => header_value
  | after_CR_2 => expecting_newline_2
  | _ => expecting_newline_3
  end.

(** The labels inside the request line and the headers. *)
Definition in_head (l : label) : bool :=
  match l with
  | after_content | completed => false
  | _ => true
  end.

(** Where the version number has not been read yet. *)
Definition before_version (st : state) : bool :=
  match st with
  | in_method | in_uri | http_version_h | http_version_t_1 | http_version_t_2
  | http_version_p | http_version_slash => true
  | _ => false
  end.

Definition before_space (st : state) : bool :=
  match st with
  | method_start | in_method | in_uri => true
  | _ => false
  end.

Definition ascii_char (c : ascii) : Prop := is_char (char_val c) = true.

(** What this parser asks for beyond the other: a URI, and 7-bit header values. *)
Definition strict (st : state) (req : request) : Prop :=
  (before_space st = false → uri req ≠ []) ∧
  Forall (λ h, Forall ascii_char (value h)) (headers req).

Record sim (p : parser4) (req4 : request4) (st : state) (req : request) : Prop := {
  sim_label : in_head (value_ p) = true;
  sim_state : st = state_of (value_ p);
  sim_head : match value_ p with
             | at_start => req = empty_request
             | _ => req4 = mkRequest4 req [] ∧ content_length_ p = 0
             end;
  sim_version : before_version st = true → http_version_major req = 0%Z ∧ http_version_minor req = 0%Z;
  sim_strict : strict st req;
}.

(** How one step of this parser relates to the same step of the other: it fails
    where the other fails, and also where what the other accepts is not strict;
    at the end of the headers it goes on to the content. *)
Definition agree (r : step_result) (r4 : outcome (tribool * parser4 * request4)) : Prop :=
  match r with
  | Ret (indeterminate, st, req) =>
      (∃ p req4, r4 = Ret (indeterminate, p, req4) ∧ sim p req4 st req) ∨
      (¬ strict st req ∧ ∃ p req4, r4 = Ret (no, p, req4))
  | Ret (no, _, _) => ∃ p req4, r4 = Ret (no, p, req4)
  | Ret (yes, st, req) =>
      strict st req ∧
      match find_content_length (headers req) 0 with
      | Some 0 => ∃ p, r4 = Ret (yes, p, mkRequest4 req [])
      | Some len => r4 = Ret (indeterminate, mkParser4 after_content len, mkRequest4 req [])
      | None => ∃ p req4, r4 = Ret (no, p, req4)
      end
  | Throw _ => False
  | Undef u => r4 = Undef u
  end.

Lemma tok_not_token c : tok c = negb (not_token c).
Proof. unfold tok, not_token. by rewrite !negb_orb, negb_involutive. Qed.

Lemma tok_neq c x : not_token x = true → tok c && neq c x = negb (not_token c).
Proof.
  intros Hx. rewrite tok_not_token. unfold neq. destruct (decide (c = x)) as [->|Hne].
  - by rewrite Hx.
  - rewrite bool_decide_false by done. apply andb_true_r.
Qed.

Lemma ctl_neq c : negb (is_ctl (char_val c)) && neq c CR = negb (is_ctl (char_val c)).
Proof.
  unfold neq. destruct (decide (c = CR)) as [->|Hne]; [done|].
  rewrite bool_decide_false by done. apply andb_true_r.
Qed.

Lemma agree_keep l st req :
  in_head l = true → l ≠ at_start → st = state_of l →
  (before_version st = true → http_version_major req = 0%Z ∧ http_version_minor req = 0%Z) →
  strict st req →
  agree (stay st req) (Ret (indeterminate, mkParser4 l 0, mkRequest4 req [])).
Proof. intros Hl Hs Hst Hv Hstr. left. eexists _, _. split; [done|]. split; [done..| |done|done]. by destruct l. Qed.

(** Both parsers refuse the character. *)
Ltac rejects := by eexists _, _.

Lemma strict_head st st' req req' :
  strict st req → uri req' = uri req → headers req' = headers req →
  before_space st' = before_space st → strict st' req'.
Proof. unfold strict. intros [Hu Hh] -> -> ->. done. Qed.

Lemma strict_early st st' req req' :
  strict st req → headers req' = headers req → before_space st' = true → strict st' req'.
Proof. unfold strict. intros [_ Hh] -> ->. done. Qed.

Lemma agree_expect x next l l' st req c :
  (∀ req4 len, body l req4 len c = expect4 x l' req4 len c) →
  in_head l' = true → l' ≠ at_start → next = state_of l' → before_space next = before_space st →
  (before_version next = true → http_version_major req = 0%Z ∧ http_version_minor req = 0%Z) →
  strict st req →
  agree (expect x next st req c) (consume4 (mkParser4 l 0) (mkRequest4 req []) c).
Proof.
  intros Hbody Hl Hs Hst Hb Hv Hstr. unfold consume4. cbn [value_ content_length_].
  rewrite Hbody. unfold expect, expect4, neq. case_bool_decide; cbn; [|rejects].
  apply (agree_keep l'); [done..|]. by apply (strict_head st _ req).
Qed.

Lemma agree_method req4 req len c s :
  reached in_method req s → sim (mkParser4 after_method len) req4 in_method req →
  agree (consume in_method req c) (consume4 (mkParser4 after_method len) req4 c).
Proof.
  intros ([Hm _] & Hu & _) [_ _ [-> Hlen] Hver Hstr]. cbn in Hlen. subst len.
  unfold consume4. cbn [value_ content_length_ body consume consume_line_start].
  unfold method_loop. rewrite (tok_neq c " ") by done. cbn [head4].
  rewrite (bool_decide_false (method req = [])) by done. unfold expect4, neq.
  case_bool_decide as Hc.
  - subst c. cbn. apply (agree_keep after_space_1); [done..|]. by apply (strict_early in_method _ req).
  - destruct (not_token c); [rejects|]. cbn. unfold on_head. cbn.
    apply (agree_keep after_method); [done..|]. by apply (strict_early in_method _ req).
Qed.

Lemma agree_uri l req4 req len c s :
  state_of l = in_uri → reached in_uri req s → sim (mkParser4 l len) req4 in_uri req →
  agree (consume in_uri req c) (consume4 (mkParser4 l len) req4 c).
Proof.
  intros Hl _ [_ _ Hhead Hver Hstr].
  assert (req4 = mkRequest4 req [] ∧ len = 0) as [-> ->] by by destruct l.
  assert (consume4 (mkParser4 l 0) (mkRequest4 req []) c =
          consume4 (mkParser4 after_uri 0) (mkRequest4 req []) c) as -> by by destruct l.
  unfold consume4. cbn [value_ content_length_ body consume consume_line_start].
  unfold uri_loop. cbn [head4]. unfold expect4, neq. case_bool_decide as Hc.
  - subst c. rewrite andb_false_r. case_bool_decide as Hu; cbn.
    + right. split; [|eauto]. intros [Hn _]. by apply Hn.
    + apply (agree_keep after_space_2); [done..|]. split; [done|apply Hstr].
  - destruct (is_ctl (char_val c)); cbn.
    + case_bool_decide; rejects.
    + apply (agree_keep after_uri); [done..|]. by apply (strict_early in_uri _ req).
Qed.

Lemma agree_digit v c (f : Z → step_result) (g : Z → outcome (tribool * parser4 * request4)) :
  (∀ v, agree (f v) (g v)) → agree (v ← next_digit v c; f v) (v ← next_digit v c; g v).
Proof.
  intros Hfg. destruct (next_digit v c) as [a|e|u] eqn:E; cbn; [apply Hfg| |done].
  unfold next_digit, int_res in E. repeat (case_match; cbn in E; try done).
Qed.

Lemma agree_version l req4 req len c :
  sim (mkParser4 l len) req4 (state_of l) req → before_space (state_of l) = false →
  version_state (state_of l) = true ∨ state_of l = expecting_newline_1 →
  agree (consume (state_of l) req c) (consume4 (mkParser4 l len) req4 c).
Proof.
  intros [_ _ Hhead Hver Hstr] Hb Hl. cbn [value_ content_length_] in *.
  assert (∀ v w, strict (state_of l) (set_version req v w)) as Hset by (intros; done).
  destruct l; try done; try (by destruct Hl); destruct Hhead as [-> ->];
    cbn [state_of consume consume_version consume_headers] in *;
    try (by eapply agree_expect).
  - (* the slash *) unfold consume4. cbn. unfold expect4, neq. case_bool_decide; [|rejects].
    assert (set_version req 0 0 = req) as ->.
    { destruct (Hver eq_refl) as [E1 E2]. unfold set_version. rewrite <-E1 at 1. rewrite <-E2.
      by destruct req. }
    by apply (agree_keep after_slash).
  - unfold consume4. cbn. destruct (is_digit (char_val c)) eqn:E; [cbn|rejects].
    unfold major_loop. rewrite E, bind_assoc. cbn [head4].
    apply agree_digit. intros v. cbn. by apply (agree_keep after_major).
  - unfold consume4. cbn. unfold major_loop, expect4, neq. case_bool_decide as Hc; cbn.
    { subst c. cbn. by apply (agree_keep after_dot). }
    destruct (is_digit (char_val c)) eqn:E; [|rejects].
    rewrite bind_assoc. cbn [head4]. apply agree_digit. intros v. cbn. by apply (agree_keep after_major).
  - unfold consume4. cbn. destruct (is_digit (char_val c)) eqn:E; [cbn|rejects].
    unfold minor_loop. rewrite E, bind_assoc. cbn [head4].
    apply agree_digit. intros v. cbn. by apply (agree_keep after_minor).
  - unfold consume4. cbn. unfold minor_loop, expect4, neq. case_bool_decide as Hc; cbn.
    { subst c. cbn. by apply (agree_keep after_CR_1). }
    destruct (is_digit (char_val c)) eqn:E; [|rejects].
    rewrite bind_assoc. cbn [head4]. apply agree_digit. intros v. cbn. by apply (agree_keep after_minor).
Qed.

(** ** The header lines *)

(** Only the last header changes, and its value at most at the end. *)
Lemma strict_back st st' req hs h f :
  headers req = hs ++ [h] → before_space st = false → before_space st' = false → strict st req →
  (Forall ascii_char (value h) → Forall ascii_char (value (f h))) →
  strict st' (set_headers req (hs ++ [f h])).
Proof.
  intros E Hb Hb' [Hu Hh] Hf. rewrite E, Forall_app in Hh. destruct Hh as [Hh [Hl _]%Forall_cons_1].
  split; cbn; [intros _; by apply Hu|]. apply Forall_app. split; [done|]. by constructor; [apply Hf|].
Qed.

Lemma not_strict_back st req hs h c :
  is_char (char_val c) = false → ¬ strict st (set_headers req (hs ++ [add_value c h])).
Proof.
  intros Hc [_ Hh]. cbn in Hh. apply Forall_app in Hh as [_ [Hl _]%Forall_cons_1]. cbn in Hl.
  apply Forall_app in Hl as [_ [Hc' _]%Forall_cons_1]. unfold ascii_char in Hc'. congruence.
Qed.

(** A character of a header value, in the two states that take one. *)
Lemma agree_value st req c hs h :
  headers req = hs ++ [h] → before_space st = false → strict st req →
  agree (if bool_decide (c = CR) then stay expecting_newline_2 req
         else if is_ctl (char_val c) then reject st req
         else req ← on_back (add_value c) req; stay header_value req)
        (r ← value_loop (mkRequest4 req []) 0 c;
         Ret (match r with
              | Yields l req len => (indeterminate, mkParser4 l len, req)
              | Fails req len => (no, mkParser4 completed len, req)
              | Ends req len => (yes, mkParser4 completed len, req)
              end)).
Proof.
  intros E Hb Hstr. unfold value_loop. rewrite <-andb_assoc, ctl_neq.
  unfold back4, expect4, neq. cbn [head4 content4]. rewrite !(on_back_snoc _ _ _ _ E).
  case_bool_decide as Hc.
  { subst c. cbn. apply (agree_keep after_CR_2); [done..|].
    by apply (strict_head st _ req). }
  destruct (is_ctl (char_val c)) eqn:Hctl; [rewrite andb_false_r; rejects|].
  rewrite andb_true_r. destruct (is_char (char_val c)) eqn:Hch; cbn.
  - apply (agree_keep after_value); [done..|]. apply (strict_back st); [done..|].
    intros Hv. apply Forall_app. split; [done|]. by constructor.
  - right. split; [|eauto]. by apply not_strict_back.
Qed.

Lemma agree_header_line_start l req c :
  state_of l = header_line_start → strict header_line_start req →
  agree (consume header_line_start req c) (consume4 (mkParser4 l 0) (mkRequest4 req []) c).
Proof.
  intros Hl Hstr.
  assert (consume4 (mkParser4 l 0) (mkRequest4 req []) c =
          consume4 (mkParser4 after_LF_1 0) (mkRequest4 req []) c) as -> by by destruct l.
  unfold consume4. cbn [value_ content_length_ body consume consume_headers].
  unfold headers_loop, lws_loop, name_loop. rewrite !(tok_neq c) by done. cbn [head4].
  destruct (is_lws c) eqn:Hlws.
  - destruct (lws_not_token c Hlws) as [Hnt Hcr]. rewrite (bool_decide_false (c = CR)) by done.
    rewrite Hnt, orb_true_r. case_bool_decide; cbn; [rejects|].
    by apply (agree_keep after_lws).
  - rewrite orb_false_r, andb_false_r. destruct (not_token c) eqn:Hnt; cbn.
    + unfold expect4, neq. case_bool_decide; cbn; [|rejects]. by apply (agree_keep after_CR_3).
    + destruct (token_char c Hnt) as (_ & Hcr & _). rewrite (bool_decide_false (c = CR)) by done.
      unfold back4. cbn [head4].
      rewrite !(on_back_snoc _ (set_headers req (headers req ++ [mkHeader [] []])) (headers req) (mkHeader [] []))
        by done.
      cbn. apply (agree_keep after_name); [done..|]. destruct Hstr as [Hu Hh]. split; [done|]. cbn.
      apply Forall_app. split; [done|]. by constructor.
Qed.

Lemma agree_headers l req c s :
  in_head l = true → before_space (state_of l) = false → version_state (state_of l) = false →
  state_of l ≠ expecting_newline_1 → reached (state_of l) req s → strict (state_of l) req →
  agree (consume (state_of l) req c) (consume4 (mkParser4 l 0) (mkRequest4 req []) c).
Proof.
  intros Hin Hb Hv Hnl Hr Hstr.
  destruct l; try done; try (by apply agree_header_line_start); cbn [state_of] in *.
  - (* header_lws *) destruct Hr as (hs & h & _ & _ & E & _).
    unfold consume4. cbn [value_ content_length_ body consume consume_headers]. unfold lws_loop.
    destruct (is_lws c) eqn:Hlws.
    + destruct (lws_not_token c Hlws) as [_ Hcr]. rewrite (bool_decide_false (c = CR)) by done.
      by apply (agree_keep after_lws).
    + pose proof (agree_value header_lws req c hs h E eq_refl Hstr) as Ha. exact Ha.
  - (* header_name *) destruct Hr as (hs & n & E & _ & _).
    unfold consume4. cbn [value_ content_length_ body consume consume_headers].
    unfold name_loop, back4, expect4, neq. fold (neq c ":"). rewrite (tok_neq c) by done. cbn [head4].
    rewrite (on_back_snoc _ _ _ _ E). unfold neq. case_bool_decide as Hc.
    + subst c. cbn. by apply (agree_keep after_colon).
    + destruct (not_token c); cbn; [rejects|]. apply (agree_keep after_name); [done..|].
      by apply (strict_back header_name).
  - by eapply agree_expect.
  - destruct Hr as (hs & h & _ & E & _). exact (agree_value header_value req c hs h E eq_refl Hstr).
  - destruct Hr as (hs & h & _ & E & _). exact (agree_value header_value req c hs h E eq_refl Hstr).
  - by eapply agree_expect.
  - (* the last newline *)
    unfold consume4. cbn [value_ content_length_ body consume consume_headers].
    unfold after_headers, neq. case_bool_decide; cbn; [|rejects]. split; [done|].
    destruct (find_content_length (headers req) 0) as [[|len]|]; cbn; eauto.
Qed.

(** Every step before the content agrees. *)
Lemma agree_step p req4 st req s c :
  sim p req4 st req → reached st req s → agree (consume st req c) (consume4 p req4 c).
Proof.
  intros Hsim Hr. destruct p as [l len]. pose proof (sim_state _ _ _ _ Hsim) as E. cbn in E.
  destruct (before_space st) eqn:Hb; [|destruct (version_state st || bool_decide (st = expecting_newline_1)) eqn:Hv].
  - destruct st; try done; [|..].
    + assert (l = at_start) as -> by by destruct l. pose proof (sim_head _ _ _ _ Hsim) as Hq. cbn in Hq.
      unfold consume4. cbn [value_ content_length_ body consume consume_line_start].
      rewrite Hq. unfold method_loop. rewrite (tok_neq c " ") by done.
      destruct (not_token c); [rejects|]. cbn. by apply (agree_keep after_method).
    + assert (l = after_method) as -> by by destruct l. by eapply agree_method.
    + by eapply agree_uri.
  - subst st. apply agree_version; [done..|]. apply orb_true_iff in Hv as [?|?%bool_decide_eq_true]; auto.
  - apply orb_false_iff in Hv as [Hv Hn%bool_decide_eq_false]. subst st.
    destruct Hsim as [Hin _ Hhead _ Hstr]. cbn in Hin, Hhead.
    assert (req4 = mkRequest4 req [] ∧ len = 0) as [-> ->] by by destruct l.
    by eapply agree_headers.
Qed.

(** ** Whole inputs *)

Lemma consume_yes st req c st' req' :
  consume st req c = Ret (yes, st', req') → st = expecting_newline_3 ∧ st' = expecting_newline_3.
Proof.
  intros E. destruct st; cbn in E; unfold expect in E;
    repeat (case_match; inv_ret; try done).
Qed.

(** The URI and the header values only grow: what is strict in the end was
    strict before. *)
Definition values_ascii (req : request) : Prop :=
  Forall (λ h, Forall ascii_char (value h)) (headers req).

Definition grows (st : state) (req : request) (st' : state) (req' : request) : Prop :=
  (values_ascii req' → values_ascii req) ∧
  (before_space st = false → before_space st' = false ∧ uri req' = uri req).

Lemma grows_strict st req st' req' : grows st req st' req' → strict st' req' → strict st req.
Proof. intros [Hv Hu] [Hu' Hv']. split; [|by apply Hv]. intros Hb. destruct (Hu Hb) as [Hb' <-]. by apply Hu'. Qed.

Lemma grows_line_start st req c r st' req' :
  consume_line_start st req c = Ret (r, st', req') → before_space st = true → grows st req st' req'.
Proof.
  intros E Hb. split; [|congruence].
  assert (headers req' = headers req) as Hh; [|unfold values_ascii; by rewrite Hh].
  destruct st; try done; cbn [consume_line_start] in E; unfold stay, reject in E;
    repeat (case_match; [by injection E as <- <- <-|]); by injection E as <- <- <-.
Qed.

Lemma grows_version st req c r st' req' :
  consume_version st req c = Ret (r, st', req') → before_space st = false → grows st req st' req'.
Proof.
  intros E Hb.
  assert (headers req' = headers req ∧ uri req' = uri req ∧ before_space st' = false) as (Hh & Hu & Hb');
    [|split; [unfold values_ascii; by rewrite Hh|done]].
  destruct st; try done; cbn [consume_version] in E; unfold expect, stay, reject in E;
    repeat (case_match; [inv_ret; done|]); inv_ret; done.
Qed.

Lemma grows_back f st req req' st' :
  on_back f req = Ret req' → (∀ h, Forall ascii_char (value (f h)) → Forall ascii_char (value h)) →
  before_space st' = false → grows st req st' req'.
Proof.
  intros E Hf Hb. unfold on_back in E. destruct (last (headers req)) as [h|] eqn:Eh; [|done].
  apply last_Some in Eh as [hs Eh]. rewrite Eh, removelast_last in E. injection E as <-.
  split; [|done]. unfold values_ascii. cbn. rewrite Eh, !Forall_app.
  intros [? [? _]%Forall_cons_1]. split; [done|]. constructor; auto.
Qed.

Lemma grows_refl st req st' : before_space st' = false → grows st req st' req.
Proof. done. Qed.

Lemma grows_headers st req c r st' req' :
  consume_headers st req c = Ret (r, st', req') → before_space st = false → grows st req st' req'.
Proof.
  assert (∀ c h, Forall ascii_char (value (add_value c h)) → Forall ascii_char (value h)) as Hval.
  { intros c0 h Hh. cbn in Hh. by apply Forall_app in Hh as [? _]. }
  intros E Hb. destruct st; try done; cbn [consume_headers] in E; unfold expect, stay, reject in E;
    repeat (case_match; [inv_ret; by apply grows_refl|]); inv_ret; try (by apply grows_refl).
  - apply (grows_back (add_name c) header_line_start) with (st' := header_name) in Ha; [|done|done].
    destruct Ha as [Hv Hu]. split; [|done]. intros Hv'%Hv. unfold values_ascii in *. cbn in Hv'.
    apply Forall_app in Hv' as [? _]. done.
  - apply (grows_back (add_value c)); [done|apply Hval|done].
  - by apply (grows_back (add_name c)).
  - apply (grows_back (add_value c)); [done|apply Hval|done].
Qed.

Lemma strict_mono st req c r st' req' :
  consume st req c = Ret (r, st', req') → strict st' req' → strict st req.
Proof.
  intros E. apply grows_strict.
  destruct st; cbn [consume] in E;
    first [by eapply grows_line_start|by eapply grows_version|by eapply grows_headers].
Qed.

Lemma strict_mono_parse st req s r st' req' rest :
  parse st req s = Ret (r, st', req', rest) → strict st' req' → strict st req.
Proof.
  revert st req. induction s as [|c s IH]; intros st req E Hs; cbn [parse] in E; [by injection E as _ -> -> _|].
  destruct (consume st req c) as [[[q st2] req2]| |] eqn:Ec; cbn in E; [|done|done].
  apply (strict_mono _ _ _ _ _ _ Ec). destruct q; [by injection E as _ -> -> _..|by eapply IH].
Qed.

Lemma sim_start req4 : sim parser4_new req4 reset empty_request.
Proof. by split. Qed.

(** The content: as many bytes as are missing are taken. *)
Lemma parse4_content len req con w rest :
  length con + length w = len → w ≠ [] →
  parse4 (mkParser4 after_content len) (mkRequest4 req con) (w ++ rest) =
    Ret (yes, mkParser4 completed len, mkRequest4 req (con ++ w), rest).
Proof.
  revert con. induction w as [|c w IH]; intros con Hlen Hne; [done|]. cbn [app parse4].
  unfold consume4. cbn [value_ content_length_ body mbind outcome_bind head4 content4].
  unfold content_loop. cbn [content4]. rewrite length_app. cbn [length] in *.
  destruct w as [|d w].
  - cbn in Hlen. by bool_false.
  - cbn in Hlen. bool_true. cbn zeta. rewrite (IH (con ++ [c])); [|rewrite length_app; cbn in *; lia|done].
    by rewrite <-app_assoc.
Qed.

Lemma parse4_content_inv len req con input p q rest :
  length con < len →
  parse4 (mkParser4 after_content len) (mkRequest4 req con) input = Ret (yes, p, q, rest) →
  ∃ body, input = body ++ rest ∧ q = mkRequest4 req (con ++ body) ∧ length con + length body = len.
Proof.
  revert con. induction input as [|c input IH]; intros con Hlen; [done|]. cbn [parse4].
  unfold consume4. cbn [value_ content_length_ body mbind outcome_bind head4 content4].
  unfold content_loop. cbn [content4]. rewrite length_app. cbn [length].
  destruct (Nat.ltb_spec (length con + 1) len) as [Hlt|Hge].
  - intros (body & -> & -> & Hb)%IH; [|rewrite length_app; cbn; lia].
    exists (c :: body). rewrite <-app_assoc. rewrite length_app in Hb. cbn in *. split_and!; [done..|lia].
  - cbn. intros [= <- <- <-]. exists [c]. split_and!; [done|done|cbn; lia].
Qed.

(** From the headers on: what accepting means for both parsers. *)
Lemma parse4_sound input p req4 st req s p' q rest :
  sim p req4 st req → reached st req s → parse4 p req4 input = Ret (yes, p', q, rest) →
  ∃ text, input = text ++ content4 q ++ rest ∧
    parse st req text = Ret (yes, expecting_newline_3, head4 q, []) ∧
    strict expecting_newline_3 (head4 q) ∧
    find_content_length (headers (head4 q)) 0 = Some (length (content4 q)).
Proof.
  revert p req4 st req s. induction input as [|c input IH]; intros p req4 st req s Hsim Hr Hp; [done|].
  cbn [parse4] in Hp. pose proof (agree_step p req4 st req s c Hsim Hr) as Ha.
  pose proof (consume_ok st req s c Hr) as Hok. unfold agree in Ha.
  destruct (consume st req c) as [[[r st'] req']|e|u] eqn:Ec; [|done|by rewrite Ha in Hp].
  destruct r.
  - destruct Ha as [Hstr Ha]. destruct (consume_yes _ _ _ _ _ Ec) as [_ ->].
    destruct (find_content_length (headers req') 0) as [[|len]|] eqn:Ef.
    + destruct Ha as [p2 Ha]. rewrite Ha in Hp. cbn in Hp. injection Hp as <- <- <-.
      exists [c]. split_and!; [done|cbn [parse]; by rewrite Ec|done|done].
    + rewrite Ha in Hp. cbn [mbind outcome_bind] in Hp.
      apply parse4_content_inv in Hp as (body & -> & -> & Hb); [|cbn; lia].
      exists [c]. cbn in Hb |- *. rewrite Ec. cbn. rewrite Hb. by split_and!.
    + destruct Ha as (? & ? & Ha). by rewrite Ha in Hp.
  - destruct Ha as (? & ? & Ha). by rewrite Ha in Hp.
  - destruct Ha as [(p2 & req2 & Ha & Hsim2)|(_ & ? & ? & Ha)]; rewrite Ha in Hp; [|done].
    cbn [mbind outcome_bind] in Hp. destruct (IH _ _ _ _ _ Hsim2 Hok Hp) as (text & -> & Hpt & ?).
    exists (c :: text). split_and!; [done| |naive_solver..]. cbn [parse]. by rewrite Ec.
Qed.

Lemma parse4_complete text p req4 st req s q body rest :
  sim p req4 st req → reached st req s →
  parse st req text = Ret (yes, expecting_newline_3, q, []) → strict expecting_newline_3 q →
  find_content_length (headers q) 0 = Some (length body) →
  ∃ p', parse4 p req4 (text ++ body ++ rest) = Ret (yes, p', mkRequest4 q body, rest).
Proof.
  revert p req4 st req s. induction text as [|c text IH]; intros p req4 st req s Hsim Hr Hp Hstr Hlen; [done|].
  cbn [parse] in Hp. pose proof (agree_step p req4 st req s c Hsim Hr) as Ha.
  pose proof (consume_ok st req s c Hr) as Hok. unfold agree in Ha.
  destruct (consume st req c) as [[[r st'] req']|e|u] eqn:Ec; [|done|done].
  cbn [mbind outcome_bind app parse4] in *. destruct r; [|done|].
  - injection Hp as -> -> ->. cbn [app]. destruct Ha as [_ Ha]. rewrite Hlen in Ha.
    destruct body as [|b body].
    + destruct Ha as [p2 Ha]. cbn in Ha. rewrite Ha. cbn. eauto.
    + cbn [length] in Ha. rewrite Ha. cbn [mbind outcome_bind].
      rewrite (parse4_content (S (length body)) q [] (b :: body)) by done. eauto.
  - destruct Ha as [(p2 & req2 & Ha & Hsim2)|(Hn & _)].
    + rewrite Ha. cbn [mbind outcome_bind]. by eapply IH.
    + destruct Hn. by eapply strict_mono_parse.
Qed.

(** C18: the coroutine parser accepts an input exactly when the input is a text
    the state-machine parser of the other servers accepts whole, with a URI and
    with 7-bit header values, followed by as many bytes of content as the
    Content-Length header announces (none without one); it fills in the same
    request, and the content, whatever the request held before. *)
Theorem parse4_equiv req0 input q rest :
  (∃ p, parse4 parser4_new req0 input = Ret (yes, p, q, rest)) ↔
  ∃ text, input = text ++ content4 q ++ rest ∧
    (∃ st, parse reset empty_request text = Ret (yes, st, head4 q, [])) ∧
    uri (head4 q) ≠ [] ∧ Forall (λ h, Forall ascii_char (value h)) (headers (head4 q)) ∧
    find_content_length (headers (head4 q)) 0 = Some (length (content4 q)).
Proof.
  split.
  - intros [p Hp]. destruct (parse4_sound _ _ _ _ _ _ _ _ _ (sim_start req0) reached_start Hp)
      as (text & -> & Hpt & [Hu Hv] & Hl). exists text. split_and!; [done|eauto|by apply Hu|done|done].
  - intros (text & -> & [st Hpt] & Hu & Hv & Hl). destruct q as [q body]. cbn [head4 content4] in *.
    assert (st = expecting_newline_3) as ->; [|by eapply parse4_complete; [apply sim_start|apply reached_start|..]].
    clear -Hpt. revert Hpt. generalize reset, empty_request.
    induction text as [|c text IH]; intros st0 req0 E; [done|]. cbn [parse] in E.
    destruct (consume st0 req0 c) as [[[[| |] st2] req2]| |] eqn:Ec; cbn in E; [|done|by eapply IH|done|done].
    injection E as -> _ _. by apply consume_yes in Ec as [_ ->].
Qed.

Lemma parse4_more p req a p' req' rest b :
  parse4 p req a = Ret (indeterminate, p', req', rest) →
  rest = [] ∧ parse4 p req (a ++ b) = parse4 p' req' b.
Proof.
  revert p req. induction a as [|c a IH]; intros p req Hp; cbn [app parse4] in *.
  { by injection Hp as <- <- <-. }
  destruct (consume4 p req c) as [[[[| |] p2] req2]| |]; cbn in *; [done|done|by apply IH|done|done].
Qed.

End Parser4.

(** A decimal reading of lexical_cast<std::size_t>, for evaluation. *)
Definition ref_size : LexicalCastSize := λ s,
  if bool_decide (s = []) || negb (forallb (λ c, is_digit (char_val c)) s) then None
  else Some (Z.to_nat (dec_val s)).

Definition post_text : bytes :=
  lit "POST /a HTTP/1.0" ++ CRLF ++ lit "content-length: 3" ++ CRLF ++ CRLF ++ lit "abcXYZ".

Example parse4_post :
  ∃ p, parse4 (H := ref_size) parser4_new (mkRequest4 empty_request []) post_text =
    Ret (yes, p, mkRequest4 (mkRequest (lit "POST") (lit "/a") 1 0
                               [mkHeader (lit "content-length") (lit "3")]) (lit "abc"), lit "XYZ").
Proof. eexists. vm_compute. reflexivity. Qed.

(** Called again after it has failed, the parser answers true. *)
Example parse4_after_failure :
  ∃ p q p' q', consume4 (H := ref_size) parser4_new (mkRequest4 empty_request []) "(" = Ret (no, p, q) ∧
    consume4 (H := ref_size) p q "(" = Ret (yes, p', q').
Proof. eexists _, _, _, _. split; vm_compute; reflexivity. Qed.

End Parser4.

(** ** server.cpp *)

Module Server4.
Import Coroutine Parser4.

(** The points the server coroutine resumes at, with what it waits for. *)
Inductive place := at_begin | at_accept | at_read | at_write (buffers : list bytes) | at_end.

Definition place_line (l : place) : Z :=
  match l with
  | at_begin => 0 | at_accept => 54 | at_read => 77 | at_write _ => 103 | at_end => -1
  end%Z.

(** A copy of the server object, passed as completion handler. *)
Record coro := mkCoro {
  place_ : place;
  request_parser4 : parser4;
  request4_ : request4;
  reply4_ : reply;
  received4 : bytes;   (* all the client has sent; not kept by the program *)
}.

Section Server4.
Context `{LexicalCast} `{LexicalCastSize} (files : file_store) (doc_root_ : bytes).

(** [file_handler::operator()], a copy of the other servers' handle_request. *)
Definition file_handler (req : request4) (rep : reply) : outcome (option bytes * reply) :=
  handle_request files doc_root_ (head4 req) rep.

Definition new_request4 : request4 := mkRequest4 empty_request [].

Definition server4_new : coro := mkCoro at_begin parser4_new new_request4 empty_reply [].

Definition set_place (co : coro) (l : place) : coro :=
  mkCoro l (request_parser4 co) (request4_ co) (reply4_ co) (received4 co).

(** Start of the accept loop: a new socket and [yield async_accept]. *)
Definition accept_block (co : coro) : coro := set_place co at_accept.

(** Behind the loop: the buffer, the request and [yield async_read_some]. *)
Definition request_block (co : coro) : coro :=
  mkCoro at_read (request_parser4 co) new_request4 (reply4_ co) (received4 co).

(** One side of the fork on line 61: the child resumes with the negated line, the
    parent with the line; the loop goes on in the parent. *)
Definition fork_side (co : coro) (v : Z) : coro :=
  if is_parent v then accept_block co else request_block co.

(** The read loop and what follows it up to [yield async_write]. *)
Definition read_block (co : coro) (data : bytes) : outcome coro :=
  let got := received4 co ++ data in
  '(valid_request_, p, req, _) ← parse4 (request_parser4 co) (request4_ co) data;
  match valid_request_ with
  | indeterminate => Ret (mkCoro at_read p req (reply4_ co) got)
  | yes =>
      '(_, rep) ← file_handler req empty_reply;
      Ret (mkCoro (at_write (to_buffers rep)) p req rep got)
  | no =>
      let rep := stock_reply bad_request in
      Ret (mkCoro (at_write (to_buffers rep)) p req rep got)
  end.

(** [server::operator()]: the coroutines that wait for an operation afterwards,
    the object itself first. *)
Definition call (co : coro) (ec : error_code) (data : bytes) : outcome (list coro) :=
  match ec with
  | success =>
      match place_ co with
      | at_begin => Ret [accept_block co]
      | at_accept => Ret [fork_side co 61; fork_side co (-61)]
      | at_read => co ← read_block co data; Ret [co]
      | at_write _ => Ret []
      | at_end => Ret []
      end
  | _ => Ret []
  end.

(** The coroutines alive, and a step: an operation completes. *)
Inductive step4 : list coro → list coro → Prop :=
  | step4_call l1 co l2 ec data new :
      call co ec data = Ret new → step4 (l1 ++ co :: l2) (l1 ++ new ++ l2).

Definition initial4 : list coro := [accept_block server4_new].

Definition reachable4 : list coro → Prop := rtc step4 initial4.

Definition accepts (co : coro) : bool :=
  match place_ co with
  | at_accept => true
  | _ => false
  end.

Definition acceptors (l : list coro) : nat := length (filter (λ co, accepts co = true) l).

(** [rep] is the answer to [input]. *)
Definition answers4 (input : bytes) (rep : reply) : Prop :=
  ∃ r p req rest, parse4 parser4_new new_request4 input = Ret (r, p, req, rest) ∧
    match r with
    | yes => ∃ opened, file_handler req empty_reply = Ret (opened, rep)
    | no => rep = stock_reply bad_request
    | indeterminate => False
    end.

Definition coro_ok (co : coro) : Prop :=
  match place_ co with
  | at_accept => request_parser4 co = parser4_new ∧ received4 co = []
  | at_read => parse4 parser4_new new_request4 (received4 co) =
                 Ret (indeterminate, request_parser4 co, request4_ co, [])
  | at_write bufs => bufs = to_buffers (reply4_ co) ∧ answers4 (received4 co) (reply4_ co)
  | _ => False
  end.

Lemma read_block_ok co data co' :
  place_ co = at_read → coro_ok co → read_block co data = Ret co' → coro_ok co' ∧ accepts co' = false.
Proof.
  intros Hpl Hok Hr. unfold coro_ok in Hok. rewrite Hpl in Hok. unfold read_block in Hr.
  destruct (parse4_more _ _ _ _ _ _ data Hok) as [_ Hm]. inv_ret.
  destruct a as [[[r p] req] rest]. rewrite Ha in Hm. destruct r; cbn in Hr; inv_ret.
  - destruct a as [o rep]. cbn in Hr. injection Hr as <-. split; [|done]. split; [done|].
    exists yes, p, req, rest. split; [exact Hm|]. by exists o.
  - split; [|done]. split; [done|]. by exists no, p, req, rest.
  - split; [|done]. unfold coro_ok. cbn. rewrite Hm.
    by destruct (parse4_more _ _ _ _ _ _ [] Ha) as [-> _].
Qed.

(** A call keeps the coroutines consistent; only a successful accept leaves one
    that accepts. *)
Lemma call_ok co ec data new :
  coro_ok co → call co ec data = Ret new →
  Forall coro_ok new ∧
  acceptors new = (if accepts co then if decide (ec = success) then 1 else 0 else 0).
Proof.
  intros Hok Hc. unfold call in Hc. unfold accepts.
  destruct ec; [|injection Hc as <-; split; [constructor|by destruct (place_ co)]..].
  unfold coro_ok in Hok. destruct (place_ co) eqn:Hpl; try done.
  - destruct Hok as [Hp Hg]. injection Hc as <-. split; [|done].
    repeat constructor; unfold coro_ok; cbn; rewrite ?Hp, ?Hg; done.
  - inv_ret. destruct (read_block_ok co data a Hpl) as [Hok' Ha'];
      [unfold coro_ok; by rewrite Hpl|done|].
    split; [by repeat constructor|]. unfold acceptors. rewrite filter_cons_False by congruence. done.
  - injection Hc as <-. by split.
Qed.

Lemma acceptors_app l1 l2 : acceptors (l1 ++ l2) = acceptors l1 + acceptors l2.
Proof. unfold acceptors. by rewrite filter_app, length_app. Qed.

Lemma acceptors_cons co l : acceptors (co :: l) = (if accepts co then 1 else 0) + acceptors l.
Proof.
  unfold acceptors. rewrite filter_cons. destruct (accepts co); case_decide; cbn; congruence.
Qed.

Lemma step4_inv l l' :
  Forall coro_ok l → step4 l l' → Forall coro_ok l' ∧ acceptors l' ≤ acceptors l.
Proof.
  intros Hok Hs. destruct Hs as [l1 co l2 ec data new Hc].
  apply Forall_app in Hok as [H1 [Hco H2]%Forall_cons_1].
  destruct (call_ok co ec data new Hco Hc) as [Hnew Hacc]. split.
  - apply Forall_app. split; [done|]. by apply Forall_app.
  - rewrite !acceptors_app, acceptors_cons, Hacc. destruct (accepts co); [case_decide|]; lia.
Qed.

Lemma steps4_inv l l' :
  rtc step4 l l' → Forall coro_ok l → Forall coro_ok l' ∧ acceptors l' ≤ acceptors l.
Proof.
  induction 1 as [l|l1 l2 l3 Hs _ IH]; intros Hok; [done|].
  destruct (step4_inv _ _ Hok Hs) as [Hok2 ?]. destruct (IH Hok2). split; [done|lia].
Qed.

Lemma initial4_ok : Forall coro_ok initial4.
Proof. by repeat constructor. Qed.

(** In every state of the coroutine server each coroutine waits for one
    operation; what one sends is the answer to what it has received; and at most
    one accepts. An accept that fails ends accepting for good: from then on no
    sequence of completions makes the server accept a connection again. *)
Theorem server4_spec l :
  reachable4 l →
  (∀ co, co ∈ l → accepts co = true ∨ place_ co = at_read ∨
     ∃ bufs, place_ co = at_write bufs ∧ bufs = to_buffers (reply4_ co) ∧
       answers4 (received4 co) (reply4_ co)) ∧
  acceptors l ≤ 1 ∧
  (∀ l1 co l2 ec data new l', l = l1 ++ co :: l2 → accepts co = true → ec ≠ success →
     call co ec data = Ret new → rtc step4 (l1 ++ new ++ l2) l' → acceptors l' = 0).
Proof.
  intros Hr. destruct (steps4_inv _ _ Hr initial4_ok) as [Hok Hacc]. split_and!.
  - intros co Hco. rewrite Forall_forall in Hok. specialize (Hok co Hco).
    unfold coro_ok in Hok. unfold accepts. destruct (place_ co) eqn:E; try done; eauto.
  - exact Hacc.
  - intros l1 co l2 ec data new l' -> Ha Hec Hc Hr'.
    destruct (step4_inv _ _ Hok (step4_call l1 co l2 ec data new Hc)) as [Hok' _].
    destruct (steps4_inv _ _ Hr' Hok') as [_ Hle].
    apply Forall_app in Hok as [_ [Hco _]%Forall_cons_1].
    destruct (call_ok co ec data new Hco Hc) as [_ Hn]. rewrite Ha, decide_False in Hn by done.
    rewrite !acceptors_app, acceptors_cons, Ha in Hacc. rewrite !acceptors_app, Hn in Hle.
    change (acceptors initial4) with 1 in Hacc. lia.
Qed.

End Server4.

(** A client has connected; then accepting fails. *)
Definition child4 : coro := request_block server4_new.
Definition parent4 : coro := accept_block server4_new.

Lemma two_reachable :
  reachable4 (H := ref_LexicalCast) (H0 := ref_size) ∅ [] [parent4; child4].
Proof. apply rtc_once. 
  exact (step4_call (H := ref_LexicalCast) (H0 := ref_size) ∅ [] [] parent4 [] success []
           [parent4; child4] eq_refl). Qed.

Lemma server4_witness :
  reachable4 (H := ref_LexicalCast) (H0 := ref_size) ∅ [] [parent4; child4] ∧
  accepts parent4 = true ∧
  ∀ l', rtc (step4 (H := ref_LexicalCast) (H0 := ref_size) ∅ []) [child4] l' → acceptors l' = 0.
Proof.
  split; [exact two_reachable|]. split; [reflexivity|]. intros l' Hl.
  destruct (server4_spec (H := ref_LexicalCast) (H0 := ref_size) ∅ [] _ two_reachable) as (_ & _ & Hf).
  by apply (Hf [] parent4 [child4] other_error [] [] l').
Defined.

End Server4.
