(* ===== verification/HttpCopies.v ===== *)
(** * The sources the HTTP servers share

    (src/doc_searcher/data/input/html/boost_asio/example/http/server{2,3,4}.) The second
    and the third server have the request parser, the replies, the table of MIME types and
    the request handler of the first one in namespaces of their own, and the fourth the
    replies, the table, the character classes and the decoding of URLs; but for the names
    of the namespaces and of the include guards these are the same, character by
    character. What is defined and proved of the first server's in HttpParser.v and
    HttpReply.v is thereby defined and proved of theirs; HttpServer2.v, HttpServer3.v and
    HttpServer4.v use it under the first server's names. A connection of the second and
    third server has the members of the first server's but for its manager; the third
    server's also has the strand of HttpServer3.v. *)

From S2P Require Import Prelude CxxString HttpParser HttpReply HttpConnection.

(** ** namespace http::server2 *)
Module server2.

Definition header2 := HttpParser.header.
Definition request2 := HttpParser.request.
Definition reply2 := HttpReply.reply.
Definition connection2 := HttpConnection.connection.
Definition state2 := HttpParser.state.
Definition parse2 := HttpParser.parse.
Definition reset2 := HttpParser.reset.
Definition consume_line_start2 := HttpParser.consume_line_start.
Definition consume_version2 := HttpParser.consume_version.
Definition consume_headers2 := HttpParser.consume_headers.
Definition consume2 := HttpParser.consume.
Definition is_char2 := HttpParser.is_char.
Definition is_ctl2 := HttpParser.is_ctl.
Definition is_tspecial2 := HttpParser.is_tspecial.
Definition is_digit2 := HttpParser.is_digit.
Definition status_type2 := HttpReply.status_type.
Definition to_buffer2 := HttpReply.to_buffer.
Definition to_buffers2 := HttpReply.to_buffers.
Definition to_string2 := HttpReply.to_string.
Definition stock_reply2 `{HttpReply.LexicalCast} := HttpReply.stock_reply.
Definition mappings2 := HttpReply.mappings.
Definition extension_to_type2 := HttpReply.extension_to_type.
Definition handle_request2 `{HttpReply.LexicalCast} := HttpReply.handle_request.
Definition url_decode2 := HttpReply.url_decode.

End server2.

(** ** namespace http::server3 *)
Module server3.

Definition header3 := HttpParser.header.
Definition request3 := HttpParser.request.
Definition reply3 := HttpReply.reply.
Definition connection3 := HttpConnection.connection.
Definition state3 := HttpParser.state.
Definition parse3 := HttpParser.parse.
Definition reset3 := HttpParser.reset.
Definition consume_line_start3 := HttpParser.consume_line_start.
Definition consume_version3 := HttpParser.consume_version.
Definition consume_headers3 := HttpParser.consume_headers.
Definition consume3 := HttpParser.consume.
Definition is_char3 := HttpParser.is_char.
Definition is_ctl3 := HttpParser.is_ctl.
Definition is_tspecial3 := HttpParser.is_tspecial.
Definition is_digit3 := HttpParser.is_digit.
Definition status_type3 := HttpReply.status_type.
Definition to_buffer3 := HttpReply.to_buffer.
Definition to_buffers3 := HttpReply.to_buffers.
Definition to_string3 := HttpReply.to_string.
Definition stock_reply3 `{HttpReply.LexicalCast} := HttpReply.stock_reply.
Definition mappings3 := HttpReply.mappings.
Definition extension_to_type3 := HttpReply.extension_to_type.
Definition handle_request3 `{HttpReply.LexicalCast} := HttpReply.handle_request.
Definition url_decode3 := HttpReply.url_decode.

End server3.

(** ** namespace http::server4 *)
Module server4.

Definition header4 := HttpParser.header.
Definition reply4 := HttpReply.reply.
Definition is_char4 := HttpParser.is_char.
Definition is_ctl4 := HttpParser.is_ctl.
Definition is_tspecial4 := HttpParser.is_tspecial.
Definition is_digit4 := HttpParser.is_digit.
Definition status_type4 := HttpReply.status_type.
Definition to_buffer4 := HttpReply.to_buffer.
Definition to_buffers4 := HttpReply.to_buffers.
Definition to_string4 := HttpReply.to_string.
Definition stock_reply4 `{HttpReply.LexicalCast} := HttpReply.stock_reply.
Definition mappings4 := HttpReply.mappings.
Definition extension_to_type4 := HttpReply.extension_to_type.
Definition url_decode4 := HttpReply.url_decode.

End server4.
