(* ===== verification/Chat.v ===== *)
(** * The Asio chat example

    (src/doc_searcher/data/input/html/boost_asio/example/chat/{chat_message.hpp,
    chat_server.cpp,chat_client.cpp}.) A message is a fixed array: a header of four
    characters that says the length of the body, and the body. The server keeps a
    room with the participants and the last hundred messages; a session reads
    messages from its client, hands them to the room, and queues what the room
    delivers for writing. Steps are the completions of outstanding operations. *)

From S2P Require Import Prelude CxxString HttpParser HttpReply HttpConnection.
Import HttpParser HttpReply.

(** ** chat_message.hpp *)

Module ChatMessage.

Definition header_length : nat := 4.
Definition max_body_length : nat := 512.

Record chat_message := mkMsg { data_ : bytes; body_length_ : nat }.

(** The array of a new message is not initialised: [junk]. *)
Definition chat_message_new (junk : bytes) : chat_message := mkMsg junk 0.

Definition msg_length (m : chat_message) : nat := header_length + body_length_ m.

(** [body()], as far as [body_length()]. *)
Definition msg_body (m : chat_message) : bytes := take (body_length_ m) (drop header_length (data_ m)).

(** The bytes [data()] to [data() + length()] that are sent. *)
Definition wire (m : chat_message) : bytes := take (msg_length m) (data_ m).

Definition set_body_length (m : chat_message) (new_length : nat) : chat_message :=
  mkMsg (data_ m) (if max_body_length <? new_length then max_body_length else new_length).

(** std::atoi on a text without null characters. *)
Fixpoint dec_run (v : Z) (s : bytes) : Z :=
  match s with
  | c :: s => if is_digit (char_val c) then dec_run (v * 10 + char_val c - 48)%Z s else v
  | [] => v
  end.
Definition atoi (s : bytes) : Z :=
  match skip_blanks s with
  | "-"%char :: s => (- dec_run 0 s)%Z
  | "+"%char :: s => dec_run 0 s
  | s => dec_run 0 s
  end.

(** The int result is stored in a size_t: a negative length wraps around. *)
Definition decode_header (m : chat_message) : bool * chat_message :=
  let header := c_str (take header_length (data_ m)) in
  let n := to_uint64 (atoi header) in
  if (Z.of_nat max_body_length <? n)%Z then (false, mkMsg (data_ m) 0)
  else (true, mkMsg (data_ m) (Z.to_nat n)).

(** sprintf with format %4d *)
Definition format_4d (n : nat) : bytes :=
  let d := dec_digits (S n) n in replicate (4 - length d) " "%char ++ d.

Definition encode_header (m : chat_message) : chat_message :=
  mkMsg (take header_length (format_4d (body_length_ m)) ++ drop header_length (data_ m))
    (body_length_ m).

(** Bytes stored into the array from offset [k] on; outside it is undefined. *)
Definition store (m : chat_message) (k : nat) (s : bytes) : outcome chat_message :=
  if k + length s <=? length (data_ m) then
    Ret (mkMsg (take k (data_ m) ++ s ++ drop (k + length s) (data_ m)) (body_length_ m))
  else Undef OutOfBounds.

(** The array has its size and the length fits. *)
Definition msg_ok (m : chat_message) : Prop :=
  length (data_ m) = header_length + max_body_length ∧ body_length_ m ≤ max_body_length.

Lemma decode_header_ok m :
  length (data_ m) = header_length + max_body_length →
  msg_ok (decode_header m).2 ∧ data_ (decode_header m).2 = data_ m.
Proof.
  intros Hl. unfold decode_header. case_match eqn:E; cbn [snd]; (split; [split; [done|]|done]);
    cbn [body_length_].
  - unfold max_body_length. lia.
  - apply Z.ltb_ge in E. lia.
Qed.

Lemma store_length m k s m' :
  store m k s = Ret m' → length (data_ m') = length (data_ m) ∧ body_length_ m' = body_length_ m.
Proof.
  unfold store. destruct (Nat.leb_spec (k + length s) (length (data_ m))); [|done].
  intros [= <-]. cbn. split; [|done]. rewrite !length_app, length_take, length_drop. lia.
Qed.

(** Reads go inside the array, whatever the client sent. *)
Lemma store_ok m k s :
  length (data_ m) = header_length + max_body_length → k + length s ≤ header_length + max_body_length →
  ∃ m', store m k s = Ret m' ∧ length (data_ m') = length (data_ m) ∧ body_length_ m' = body_length_ m.
Proof.
  intros Hd Hk. destruct (store m k s) as [m'| |u] eqn:E.
  - exists m'. split; [done|]. by apply store_length in E.
  - unfold store in E. by case_match.
  - unfold store in E. by rewrite (proj2 (Nat.leb_le _ _)) in E by lia.
Qed.

(** Every length there is comes back from its header. *)
Lemma format_4d_atoi n :
  n ≤ max_body_length →
  length (format_4d n) = header_length ∧ c_str (format_4d n) = format_4d n ∧
  atoi (format_4d n) = Z.of_nat n.
Proof.
  intros Hn.
  assert (forallb (λ n, bool_decide (length (format_4d n) = header_length ∧
            c_str (format_4d n) = format_4d n ∧ atoi (format_4d n) = Z.of_nat n)) (seq 0 513) = true)
    as Hall by (vm_compute; reflexivity).
  rewrite forallb_forall in Hall. unfold max_body_length in Hn.
  apply (bool_decide_unpack _), Is_true_true, (Hall n), in_seq. lia.
Qed.

(** ** The sender: main of chat_client.cpp *)

(** The body of the input loop; [line] is what getline stored, up to 512
    characters without a null. *)
Definition client_message (junk line : bytes) : outcome chat_message :=
  let msg := set_body_length (chat_message_new junk) (length line) in
  msg ← store msg header_length (take (body_length_ msg) line);
  Ret (encode_header msg).

(** Reading a message: the header into the array, then as much as it says. *)
Definition receive (m : chat_message) (text : bytes) : outcome (bool * chat_message) :=
  m ← store m 0 (take header_length text);
  let '(good, m) := decode_header m in
  if good then
    m ← store m header_length (take (body_length_ m) (drop header_length text));
    Ret (true, m)
  else Ret (false, m).

(** A message with its header in place, [line] as its body and [d] behind it. *)
Definition framed (line d : bytes) : chat_message :=
  mkMsg (format_4d (length line) ++ line ++ d) (length line).

Section Framed.
Context (line : bytes) (Hline : length line ≤ max_body_length).

Lemma wire_framed d : wire (framed line d) = format_4d (length line) ++ line.
Proof using Hline.
  destruct (format_4d_atoi (length line) Hline) as (Hfl & _).
  unfold wire, msg_length. cbn [data_ body_length_ framed]. rewrite app_assoc.
  rewrite take_app_le by (rewrite length_app; lia). by rewrite take_ge by (rewrite length_app; lia).
Qed.

Lemma body_framed d : msg_body (framed line d) = line.
Proof using Hline.
  destruct (format_4d_atoi (length line) Hline) as (Hfl & _).
  unfold msg_body. cbn [data_ body_length_ framed]. rewrite drop_app_ge by lia.
  rewrite Hfl, Nat.sub_diag, drop_0, take_app_le, take_ge by lia. done.
Qed.

Lemma framed_ok d : length d = max_body_length - length line → msg_ok (framed line d).
Proof using Hline.
  intros Hd. destruct (format_4d_atoi (length line) Hline) as (Hfl & _).
  split; cbn [data_ body_length_ framed]; [|lia]. rewrite !length_app. lia.
Qed.

Lemma client_message_framed junk :
  length junk = header_length + max_body_length →
  client_message junk line = Ret (framed line (drop (header_length + length line) junk)).
Proof using Hline.
  intros Hj. destruct (format_4d_atoi (length line) Hline) as (Hfl & _).
  unfold client_message, set_body_length. cbn [body_length_ chat_message_new data_].
  rewrite (proj2 (Nat.ltb_ge _ _)) by lia. cbn [body_length_]. rewrite (take_ge line) by lia.
  unfold store. cbn [data_ body_length_]. rewrite (proj2 (Nat.leb_le _ _)) by lia.
  cbn [mbind outcome_bind]. unfold encode_header, framed. cbn [data_ body_length_]. do 3 f_equal.
  - by rewrite take_ge by lia.
  - rewrite drop_app_ge; rewrite length_take; [|lia].
    by replace (header_length - header_length `min` length junk) with 0 by lia.
Qed.

Lemma receive_framed mine rest :
  msg_ok mine →
  receive mine (format_4d (length line) ++ line ++ rest) =
    Ret (true, framed line (drop (header_length + length line) (data_ mine))).
Proof using Hline.
  intros [Hm Hmb]. destruct (format_4d_atoi (length line) Hline) as (Hfl & Hfc & Hfa).
  unfold receive, store. set (fmt := format_4d (length line)) in *.
  rewrite (take_app_le fmt), (take_ge fmt) by lia.
  rewrite (proj2 (Nat.leb_le _ _)) by lia. cbn [mbind outcome_bind].
  unfold decode_header. cbn [data_ body_length_]. rewrite take_0. cbn [app].
  rewrite (take_app_le fmt), (take_ge fmt) by lia.
  rewrite Hfc, Hfa, to_uint64_small by (unfold max_body_length in *; lia).
  rewrite (proj2 (Z.ltb_ge _ _)) by lia. cbn [body_length_ data_]. rewrite Nat2Z.id.
  rewrite (drop_app_ge fmt) by lia. rewrite Hfl, Nat.sub_diag, drop_0.
  rewrite (take_app_le line), (take_ge line) by lia.
  rewrite (proj2 (Nat.leb_le _ _)) by (rewrite length_app, length_drop; lia).
  cbn [mbind outcome_bind]. rewrite (take_app_le fmt), (take_ge fmt) by lia.
  unfold framed. fold fmt. do 5 f_equal.
  rewrite drop_app_ge by lia. rewrite drop_drop. f_equal. lia.
Qed.

End Framed.

(** Messages round-trip. The message a client makes of a line of at most 512
    characters is sent as a header of four characters and the line; whatever
    follows it on the connection and whatever was in the receiver's array, the
    receiver reads exactly that line back as the body. *)
Theorem message_roundtrip junk line mine rest :
  length junk = header_length + max_body_length → length line ≤ max_body_length → msg_ok mine →
  ∃ m m', client_message junk line = Ret m ∧ msg_ok m ∧ msg_body m = line ∧
    length (wire m) = header_length + length line ∧
    receive mine (wire m ++ rest) = Ret (true, m') ∧ msg_ok m' ∧
    body_length_ m' = length line ∧ msg_body m' = line ∧ wire m' = wire m.
Proof.
  intros Hj Hline Hmine. pose proof (client_message_framed line Hline junk Hj) as Hc.
  pose proof (receive_framed line Hline mine rest Hmine) as Hr.
  eexists _, (framed line _). split; [exact Hc|]. rewrite !wire_framed by done.
  rewrite <-app_assoc. destruct (format_4d_atoi (length line) Hline) as (Hfl & _).
  split_and!; [|by rewrite body_framed|rewrite length_app; lia|exact Hr| |done|by rewrite body_framed
    |done];
    apply framed_ok; try done; rewrite length_drop; [lia|]. destruct Hmine. lia.
Qed.

Lemma message_roundtrip_witness :
  ∃ m m', client_message (replicate 516 (chr 0)) (lit "hello") = Ret m ∧
    receive m (wire m ++ lit "   2") = Ret (true, m') ∧ msg_body m' = lit "hello".
Proof.
  assert (msg_ok (mkMsg (replicate 516 (chr 7)) 3)) as Hok by (split; cbn; [reflexivity|unfold max_body_length; lia]).
  destruct (client_message (replicate 516 (chr 0)) (lit "hello")) as [m| |] eqn:E; [|vm_compute in E; discriminate..].
  assert (msg_ok m) as Hm.
  { vm_compute in E. injection E as <-. split; cbn; [reflexivity|unfold max_body_length; lia]. }
  destruct (message_roundtrip (replicate 516 (chr 0)) (lit "hello") m (lit "   2"))
    as (m1 & m2 & E1 & _ & _ & _ & E2 & _ & _ & E3 & _); [reflexivity|vm_compute; lia|exact Hm|].
  rewrite E in E1. injection E1 as <-. by exists m, m2.
Defined.

End ChatMessage.

(** ** chat_server.cpp *)

Module ChatServer.
Import HttpConnection ChatMessage.

Definition max_recent_msgs : nat := 100.

(** The read a session has outstanding. *)
Inductive reading := no_read | read_header | read_body.

Record session := mkSession {
  read_msg_ : chat_message;
  write_msgs_ : list chat_message;
  reads : reading;
  writing : bool;              (* an async_write is outstanding *)
  written : list chat_message; (* what has been written; not kept by the program *)
  since : nat;                 (* how many messages the room had when it joined; not kept *)
}.

Record room := mkRoom {
  participants_ : gset nat;
  recent_msgs_ : list chat_message;
  sessions : gmap nat session;    (* the session objects *)
  next_session : nat;             (* the one waiting to be accepted *)
  log : list chat_message;        (* all messages delivered; not kept by the program *)
}.

(** [chat_session::deliver] *)
Definition session_deliver (s : session) (msg : chat_message) : session :=
  let write_in_progress := negb (bool_decide (write_msgs_ s = [])) in
  mkSession (read_msg_ s) (write_msgs_ s ++ [msg]) (reads s)
    (if write_in_progress then writing s else true) (written s) (since s).

(** [while (recent_msgs_.size() > max_recent_msgs) recent_msgs_.pop_front();] *)
Fixpoint trim (l : list chat_message) : list chat_message :=
  match l with
  | [] => []
  | _ :: t => if max_recent_msgs <? length l then trim t else l
  end.

Definition set_sessions (r : room) (ss : gmap nat session) : room :=
  mkRoom (participants_ r) (recent_msgs_ r) ss (next_session r) (log r).

Definition put_session (r : room) (i : nat) (s : session) : room :=
  set_sessions r (<[i := s]> (sessions r)).

(** [chat_room::deliver] *)
Definition room_deliver (r : room) (msg : chat_message) : room :=
  mkRoom (participants_ r) (trim (recent_msgs_ r ++ [msg]))
    (map_imap (λ i s, Some (if decide (i ∈ participants_ r) then session_deliver s msg else s))
       (sessions r))
    (next_session r) (log r ++ [msg]).

(** [chat_room::join] *)
Definition join (r : room) (i : nat) (s : session) : room :=
  let s := foldl session_deliver s (recent_msgs_ r) in
  mkRoom (participants_ r ∪ {[i]}) (recent_msgs_ r) (<[i := s]> (sessions r)) (next_session r) (log r).

(** [chat_room::leave] *)
Definition leave (r : room) (i : nat) : room :=
  mkRoom (participants_ r ∖ {[i]}) (recent_msgs_ r) (sessions r) (next_session r) (log r).

Definition set_read (s : session) (m : chat_message) (rd : reading) : session :=
  mkSession m (write_msgs_ s) rd (writing s) (written s) (since s).

Definition with_session (r : room) (i : nat) (f : session → outcome room) : outcome room :=
  match sessions r !! i with
  | Some s => f s
  | None => Undef NullDeref
  end.

Section Chat.
Context (junk : bytes) (Hjunk : length junk = header_length + max_body_length).

(** [chat_session::start] *)
Definition session_start (r : room) (i : nat) : room :=
  join r i (mkSession (chat_message_new junk) [] read_header false [] (length (log r))).

(** [chat_session::handle_read_header]: the read of [hdr] into the array of the
    message has completed. *)
Definition handle_read_header (r : room) (i : nat) (e : error_code) (hdr : bytes) : outcome room :=
  with_session r i (λ s,
    m ← store (read_msg_ s) 0 hdr;
    let '(good, m) := match e with success => decode_header m | _ => (false, m) end in
    if good then Ret (put_session r i (set_read s m read_body))
    else Ret (leave (put_session r i (set_read s m no_read)) i)).

(** [chat_session::handle_read_body] *)
Definition handle_read_body (r : room) (i : nat) (e : error_code) (text : bytes) : outcome room :=
  with_session r i (λ s,
    m ← store (read_msg_ s) header_length text;
    match e with
    | success => Ret (room_deliver (put_session r i (set_read s m read_header)) m)
    | _ => Ret (leave (put_session r i (set_read s m no_read)) i)
    end).

(** [chat_session::handle_write]; pop_front of an empty queue is undefined. *)
Definition handle_write (r : room) (i : nat) (e : error_code) : outcome room :=
  with_session r i (λ s,
    match e with
    | success =>
        match write_msgs_ s with
        | [] => Undef OutOfBounds
        | m :: rest =>
            Ret (put_session r i (mkSession (read_msg_ s) rest (reads s)
                   (negb (bool_decide (rest = []))) (written s ++ [m]) (since s)))
        end
    | _ => Ret (leave (put_session r i (mkSession (read_msg_ s) (write_msgs_ s) (reads s) false
                         (written s) (since s))) i)
    end).

(** [chat_server::handle_accept], and [start_accept] for the next session. *)
Definition handle_accept (r : room) (e : error_code) : room :=
  let r := match e with success => session_start r (next_session r) | _ => r end in
  mkRoom (participants_ r) (recent_msgs_ r) (sessions r) (S (next_session r)) (log r).

Definition chat_new : room := mkRoom ∅ [] ∅ 0 [].

(** What is read is at most what was asked for, and exactly that without an error. *)
Inductive step : room → outcome room → Prop :=
  | step_accept r e : step r (Ret (handle_accept r e))
  | step_header r i s e hdr :
      sessions r !! i = Some s → reads s = read_header → length hdr ≤ header_length →
      (e = success → length hdr = header_length) → step r (handle_read_header r i e hdr)
  | step_body r i s e text :
      sessions r !! i = Some s → reads s = read_body → length text ≤ body_length_ (read_msg_ s) →
      (e = success → length text = body_length_ (read_msg_ s)) → step r (handle_read_body r i e text)
  | step_write r i s e :
      sessions r !! i = Some s → writing s = true → step r (handle_write r i e).

Inductive chat_reachable : room → Prop :=
  | reach_new : chat_reachable chat_new
  | reach_step r r' : chat_reachable r → step r (Ret r') → chat_reachable r'.

(** ** The invariant *)

Record session_ok (r : room) (i : nat) (s : session) : Prop := {
  ok_read : msg_ok (read_msg_ s);
  ok_writing : writing s = true → write_msgs_ s ≠ [];
  ok_since : since s ≤ length (log r);
  ok_member : i ∈ participants_ r →
    written s ++ write_msgs_ s = drop (since s - max_recent_msgs) (log r) ∧
    (write_msgs_ s ≠ [] → writing s = true);
}.

Record inv (r : room) : Prop := {
  inv_sessions : ∀ i s, sessions r !! i = Some s → session_ok r i s;
  inv_members : ∀ i, i ∈ participants_ r → is_Some (sessions r !! i);
  inv_recent : recent_msgs_ r = drop (length (log r) - max_recent_msgs) (log r);
  inv_next : ∀ i s, sessions r !! i = Some s → i < next_session r;
  inv_log : Forall msg_ok (log r);
}.

Lemma trim_drop l : trim l = drop (length l - max_recent_msgs) l.
Proof.
  induction l as [|m l IH]; [done|]. cbn [trim length].
  destruct (Nat.ltb_spec max_recent_msgs (S (length l))) as [Hlt|Hge].
  - rewrite IH. by replace (S (length l) - max_recent_msgs) with (S (length l - max_recent_msgs)) by lia.
  - by replace (S (length l) - max_recent_msgs) with 0 by lia.
Qed.

(** Delivering appends to the queue and starts a write if none is in progress. *)
Lemma deliver_all s ms :
  (write_msgs_ s ≠ [] → writing s = true) →
  let s' := foldl session_deliver s ms in
  write_msgs_ s' = write_msgs_ s ++ ms ∧ written s' = written s ∧ since s' = since s ∧
  read_msg_ s' = read_msg_ s ∧ reads s' = reads s ∧ (write_msgs_ s' ≠ [] → writing s' = true) ∧
  ((writing s = true → write_msgs_ s ≠ []) → writing s' = true → write_msgs_ s' ≠ []).
Proof.
  revert s. induction ms as [|m ms IH]; intros s Hw; cbn [foldl].
  { rewrite app_nil_r. by split_and!. }
  assert (write_msgs_ (session_deliver s m) ≠ [] → writing (session_deliver s m) = true) as Hd.
  { intros _. cbn. case_bool_decide; cbn; [done|]. by apply Hw. }
  destruct (IH (session_deliver s m) Hd) as (H1 & H2 & H3 & H4 & H5 & H6 & H7). cbn zeta.
  rewrite H1, H2, H3, H4, H5. cbn [session_deliver write_msgs_ written since read_msg_ reads].
  rewrite <-app_assoc. rewrite H1 in H6. cbn [session_deliver write_msgs_] in H6.
  rewrite <-app_assoc in H6. split_and!; [done..| |].
  - done.
  - intros _ _. by destruct (write_msgs_ s).
Qed.

(** Changing what a session reads, or letting one leave, disturbs nothing. *)
Lemma inv_set_read r i s m rd :
  inv r → sessions r !! i = Some s → msg_ok m → inv (put_session r i (set_read s m rd)).
Proof.
  intros Hi Hs Hm. split; cbn; try apply Hi.
  - intros j s' [[<- <-]|[_ Hj]]%lookup_insert_Some; [|by destruct (inv_sessions _ Hi j s' Hj)].
    by destruct (inv_sessions _ Hi i s Hs).
  - intros j Hj. destruct (decide (i = j)) as [->|]; [rewrite lookup_insert_eq; eauto|].
    rewrite lookup_insert_ne by done. by apply inv_members.
  - intros j s' [[<- <-]|[_ Hj]]%lookup_insert_Some; by eapply inv_next.
Qed.

Lemma inv_leave r i : inv r → inv (leave r i).
Proof.
  intros Hi. split; cbn; try apply Hi.
  - intros j s Hj. destruct (inv_sessions _ Hi j s Hj) as [? ? ? Hm]. split; [done..|].
    cbn. intros [? _]%elem_of_difference. by apply Hm.
  - intros j [? _]%elem_of_difference. by apply inv_members.
Qed.

Lemma inv_deliver r m : inv r → msg_ok m → inv (room_deliver r m).
Proof.
  intros Hi Hm.
  assert (∀ i s', sessions (room_deliver r m) !! i = Some s' → ∃ s, sessions r !! i = Some s ∧
            s' = if decide (i ∈ participants_ r) then session_deliver s m else s) as Hlook.
  { intros i s'. cbn. rewrite map_lookup_imap. destruct (sessions r !! i) as [s|]; [|done].
    cbn. intros [= <-]. eauto. }
  split; cbn [room_deliver participants_ recent_msgs_ next_session log].
  - intros i s' (s & Hs & ->)%Hlook. destruct (inv_sessions _ Hi i s Hs) as [Hrd Hwr Hsi Hmem].
    case_decide as Hd.
    + destruct (Hmem Hd) as [Hall Hgo].
      split; cbn [session_deliver read_msg_ write_msgs_ writing since written room_deliver participants_ log];
        [done|by destruct (write_msgs_ s)|rewrite length_app; lia|]. intros _. split.
      * rewrite app_assoc, Hall, drop_app_le by lia. done.
      * intros _. case_bool_decide; cbn; [done|]. by apply Hgo.
    + split; cbn [room_deliver participants_ log]; [done|done|rewrite length_app; lia|done].
  - intros i Hp. cbn. rewrite map_lookup_imap. destruct (inv_members _ Hi i Hp) as [s ->]. cbn. eauto.
  - rewrite trim_drop, (inv_recent _ Hi), !length_app, length_drop. cbn [length].
    unfold max_recent_msgs. rewrite !drop_app_le by (rewrite ?length_drop; lia). rewrite drop_drop. do 2 f_equal. lia.
  - intros i s' (s & Hs & _)%Hlook. by eapply inv_next.
  - apply Forall_app. split; [apply Hi|by constructor].
Qed.

Lemma chat_inv_accept r e : inv r → inv (handle_accept r e).
Proof using Hjunk.
  intros Hi.
  assert (inv (mkRoom (participants_ r) (recent_msgs_ r) (sessions r) (S (next_session r)) (log r))) as Hskip.
  { split; cbn; try apply Hi.
    - intros i s Hs. by destruct (inv_sessions _ Hi i s Hs).
    - intros i s Hs. apply (inv_next _ Hi) in Hs. lia. }
  destruct e; [|exact Hskip|exact Hskip]. unfold handle_accept, session_start, join.
  set (s0 := mkSession _ _ _ _ _ _).
  destruct (deliver_all s0 (recent_msgs_ r)) as (Hq & Hw & Hsi & Hr & _ & Hgo & Hne); [done|].
  cbn zeta in Hgo, Hne. set (s1 := foldl session_deliver s0 (recent_msgs_ r)) in *.
  split; cbn.
  - intros i s [[<- <-]|[Hne' Hs]]%lookup_insert_Some.
    + split; cbn.
      * rewrite Hr. split; [done|]. cbn. unfold max_body_length. lia.
      * by apply Hne.
      * by rewrite Hsi.
      * intros _. split; [|done]. rewrite Hw, Hq, Hsi. cbn. apply (inv_recent _ Hi).
    + destruct (inv_sessions _ Hi i s Hs) as [? ? ? Hm]. split; [done..|]. cbn.
      intros [?|?%elem_of_singleton]%elem_of_union; [by apply Hm|congruence].
  - intros i [Hp|Hp]%elem_of_union.
    + destruct (decide (next_session r = i)) as [<-|]; [rewrite lookup_insert_eq; eauto|].
      rewrite lookup_insert_ne by done. by apply inv_members.
    + apply elem_of_singleton in Hp as ->. rewrite lookup_insert_eq. eauto.
  - apply (inv_recent _ Hi).
  - intros i s [[<- <-]|[_ Hs]]%lookup_insert_Some; [lia|]. apply (inv_next _ Hi) in Hs. lia.
  - apply Hi.
Qed.

Lemma inv_header r i s e hdr :
  inv r → sessions r !! i = Some s → length hdr ≤ header_length →
  ∃ r', handle_read_header r i e hdr = Ret r' ∧ inv r'.
Proof.
  intros Hi Hs Hh. destruct (inv_sessions _ Hi i s Hs) as [[Hd Hb] _ _ _].
  unfold handle_read_header, with_session. rewrite Hs.
  destruct (store_ok (read_msg_ s) 0 hdr) as (m & -> & Hl & Hbm); [done|lia|]. cbn [mbind outcome_bind].
  destruct (match e with success => decode_header m | _ => (false, m) end) as [good m'] eqn:E.
  assert (msg_ok m') as Hm'.
  { destruct e; [|injection E as <- <-; split; lia..].
    pose proof (decode_header_ok m) as Hok. rewrite E in Hok. apply Hok. lia. }
  pose proof (inv_set_read r i s m' (if good then read_body else no_read) Hi Hs Hm') as Hset.
  destruct good; eexists; (split; [reflexivity|]); [done|]. by apply inv_leave.
Qed.

Lemma inv_body r i s e text :
  inv r → sessions r !! i = Some s → length text ≤ body_length_ (read_msg_ s) →
  ∃ r', handle_read_body r i e text = Ret r' ∧ inv r'.
Proof.
  intros Hi Hs Ht. destruct (inv_sessions _ Hi i s Hs) as [[Hd Hb] _ _ _].
  unfold handle_read_body, with_session. rewrite Hs.
  destruct (store_ok (read_msg_ s) header_length text) as (m & -> & Hl & Hbm); [done|lia|].
  assert (msg_ok m) as Hm by (split; lia). cbn [mbind outcome_bind].
  destruct e; eexists; (split; [reflexivity|]).
  - apply inv_deliver; [|done]. by apply inv_set_read.
  - apply inv_leave. by apply inv_set_read.
  - apply inv_leave. by apply inv_set_read.
Qed.

Lemma chat_inv_write r i s e :
  inv r → sessions r !! i = Some s → writing s = true → ∃ r', handle_write r i e = Ret r' ∧ inv r'.
Proof.
  intros Hi Hs Hw. destruct (inv_sessions _ Hi i s Hs) as [Hrd Hwr Hsi Hmem].
  assert (∀ s', read_msg_ s' = read_msg_ s → since s' = since s →
            (writing s' = true → write_msgs_ s' ≠ []) → ∀ P : gset nat,
            (∀ j, j ∈ P → j ∈ participants_ r) →
            (i ∈ P → written s' ++ write_msgs_ s' = written s ++ write_msgs_ s ∧
               (write_msgs_ s' ≠ [] → writing s' = true)) →
            inv (mkRoom P (recent_msgs_ r) (<[i := s']> (sessions r)) (next_session r) (log r))) as Hput.
  { intros s' E1 E2 Hw' P HP Hin. split; cbn; try apply Hi.
    - intros j d [[<- <-]|[_ Hj]]%lookup_insert_Some.
      + split; rewrite ?E1, ?E2; [done..|]. cbn. intros Hp. destruct (Hin Hp) as [-> ?].
        split; [|done]. by apply Hmem, HP.
      + destruct (inv_sessions _ Hi j d Hj) as [? ? ? Hm]. split; [done..|]. cbn. auto.
    - intros j Hj. destruct (decide (i = j)) as [->|]; [rewrite lookup_insert_eq; eauto|].
      rewrite lookup_insert_ne by done. by apply inv_members, HP.
    - intros j d [[<- <-]|[_ Hj]]%lookup_insert_Some; by eapply inv_next. }
  unfold handle_write, with_session. rewrite Hs.
  assert (∀ e', inv (leave (put_session r i (mkSession (read_msg_ s) (write_msgs_ s) (reads s) e'
                       (written s) (since s))) i) ∨ e' = true) as Hleave.
  { intros [|]; [by right|left]. apply Hput; [done..| |]; set_solver. }
  destruct e; [|by destruct (Hleave false); [eauto|]..].
  destruct (write_msgs_ s) as [|m rest] eqn:Eq; [by destruct Hwr|]. eexists. split; [reflexivity|].
  apply Hput; [done|done| |done|]; cbn [writing write_msgs_ written].
  - by case_bool_decide.
  - intros _. rewrite <-app_assoc. split; [done|]. intros Hne. by rewrite bool_decide_false.
Qed.

Lemma inv_chat_new : inv chat_new.
Proof. split; cbn; [|set_solver|done| |done]; intros i s Hs; by rewrite lookup_empty in Hs. Qed.

Lemma inv_chat_step r o : inv r → step r o → ∃ r', o = Ret r' ∧ inv r'.
Proof using Hjunk.
  intros Hi Hs. destruct Hs.
  - eexists. split; [done|]. by apply chat_inv_accept.
  - by eapply inv_header.
  - by eapply inv_body.
  - by eapply chat_inv_write.
Qed.

Lemma chat_reachable_inv r : chat_reachable r → inv r.
Proof using Hjunk.
  induction 1 as [|r r' _ IH Hs]; [apply inv_chat_new|].
  by destruct (inv_chat_step _ _ IH Hs) as (? & [= <-] & ?).
Qed.

(** Delivery. In every state of the chat server, each participant has been
    sent, or has queued to be sent, exactly the last hundred messages before it
    joined and all messages since, each once and in the order the room delivered
    them; a write is outstanding exactly while its queue is not empty; and the
    room remembers the last hundred messages. *)
Theorem chat_delivery r i :
  chat_reachable r → i ∈ participants_ r →
  recent_msgs_ r = drop (length (log r) - 100) (log r) ∧
  ∃ s, sessions r !! i = Some s ∧
    written s ++ write_msgs_ s = drop (since s - 100) (log r) ∧
    (writing s = true ↔ write_msgs_ s ≠ []).
Proof using Hjunk.
  intros Hi%chat_reachable_inv Hp. split; [apply (inv_recent _ Hi)|].
  destruct (inv_members _ Hi i Hp) as [s Hs]. exists s.
  destruct (inv_sessions _ Hi i s Hs) as [_ Hw _ Hm]. destruct (Hm Hp). by split_and!.
Qed.

(** Nothing a client sends makes a handler of the chat server run into
    undefined behaviour: every completion in every reachable state is handled and
    leads to a state again, no read goes outside the array of a message, no message
    is taken from an empty queue, and no message in the room is longer than its
    array. *)
Theorem chat_safe r o :
  chat_reachable r → step r o → Forall msg_ok (log r) ∧ ∃ r', o = Ret r' ∧ chat_reachable r'.
Proof using Hjunk.
  intros Hr Hs. pose proof (chat_reachable_inv _ Hr) as Hi. split; [apply Hi|].
  destruct (inv_chat_step _ _ Hi Hs) as (r' & -> & _). exists r'. split; [done|]. by eapply reach_step.
Qed.

End Chat.

(** ** A client joins and says something *)

Definition zeros : bytes := replicate 516 (chr 0).

Definition joined : room := handle_accept zeros chat_new success.

Definition hello : chat_message := mkMsg (lit "   2hi" ++ replicate 510 (chr 0)) 2.

(** The state after the header and the body of the message have been read. *)
Definition header_read : room :=
  put_session joined 0
    (mkSession (mkMsg (lit "   2" ++ replicate 512 (chr 0)) 2) [] read_body false [] 0).

Definition spoken : room :=
  mkRoom {[0]} [hello] {[ 0 := mkSession hello [hello] read_header true [] 0 ]} 1 [hello].

Lemma spoken_reachable : chat_reachable zeros spoken.
Proof.
  assert (chat_reachable zeros header_read) as Hh.
  { eapply reach_step; [eapply reach_step; [apply reach_new|apply (step_accept zeros _ success)]|].
    replace (Ret header_read) with (handle_read_header joined 0 success (lit "   2"))
      by (vm_compute; reflexivity).
    eapply step_header; [vm_compute; reflexivity|reflexivity|vm_compute; lia|reflexivity]. }
  eapply reach_step; [exact Hh|].
  replace (Ret spoken) with (handle_read_body header_read 0 success (lit "hi"))
    by (vm_compute; reflexivity).
  eapply step_body; [vm_compute; reflexivity|reflexivity|vm_compute; lia|reflexivity].
Qed.

Lemma chat_delivery_witness :
  chat_reachable zeros spoken ∧ 0 ∈ participants_ spoken ∧
  ∃ s, sessions spoken !! 0 = Some s ∧ written s ++ write_msgs_ s = [hello] ∧ writing s = true.
Proof.
  split; [exact spoken_reachable|]. assert (0 ∈ participants_ spoken) as Hin by (cbn; set_solver).
  split; [exact Hin|].
  destruct (chat_delivery zeros eq_refl spoken 0 spoken_reachable Hin) as (_ & s & Hs & Hq & Hw).
  exists s. split; [exact Hs|]. vm_compute in Hs. injection Hs as <-. split; [exact Hq|]. by apply Hw.
Defined.

Lemma chat_safe_witness :
  ∃ r', handle_write spoken 0 other_error = Ret r' ∧ chat_reachable zeros r'.
Proof.
  destruct (chat_safe zeros eq_refl spoken (handle_write spoken 0 other_error) spoken_reachable)
    as (_ & r' & Hr & Hreach); [|by exists r'].
  eapply step_write; [vm_compute; reflexivity|reflexivity].
Defined.

End ChatServer.
