(* ===== verification/Icmp.v ===== *)
(** * The Asio ping example

    (src/doc_searcher/data/input/html/boost_asio/example/icmp/{icmp_header.hpp,
    ipv4_header.hpp,ping.cpp}.) Headers are arrays of [unsigned char], here lists
    of integers from 0 to 255; [unsigned short] and [unsigned int] are kept at 16
    and 32 bits. *)

From S2P Require Import Prelude CxxString.

(** ** Octets *)

Module Octets.

Definition octet (z : Z) : Prop := (0 <= z < 256)%Z.
Definition u16 (z : Z) : Z := (z mod 2 ^ 16)%Z.
Definition u32 (z : Z) : Z := (z mod 2 ^ 32)%Z.

(** An element of an array; the indices in the source are constants. *)
Definition at_ (rep : list Z) (i : nat) : Z := default 0%Z (rep !! i).

(** [decode] and [encode] of both headers: two octets, high octet first. *)
Definition decode (rep : list Z) (a b : nat) : Z := u16 (Z.shiftl (at_ rep a) 8 + at_ rep b).
Definition encode (rep : list Z) (a b : nat) (n : Z) : list Z :=
  <[b := Z.land n 255]> (<[a := (Z.shiftr n 8 mod 256)%Z]> rep).

Lemma shiftl_8 z : Z.shiftl z 8 = (z * 256)%Z.
Proof. by rewrite Z.shiftl_mul_pow2 by lia. Qed.
Lemma shiftr_8 z : Z.shiftr z 8 = (z / 256)%Z.
Proof. by rewrite Z.shiftr_div_pow2 by lia. Qed.
Lemma land_255 z : Z.land z 255 = (z mod 256)%Z.
Proof. change 255%Z with (Z.ones 8). by rewrite Z.land_ones by lia. Qed.

Lemma u16_small z : (0 <= z < 65536)%Z → u16 z = z.
Proof. intros. apply Z.mod_small. lia. Qed.

Lemma decode_encode rep a b n :
  a < length rep → b < length rep → a ≠ b → (0 <= n < 65536)%Z → decode (encode rep a b n) a b = n.
Proof.
  intros Ha Hb Hab Hn. unfold decode, encode, at_.
  rewrite list_lookup_insert_ne, list_lookup_insert_eq, list_lookup_insert_eq
    by (rewrite ?length_insert; lia). cbn [default].
  rewrite shiftl_8, shiftr_8, land_255. cbn [from_option id].
  pose proof (Z.div_mod n 256). pose proof (Z.mod_pos_bound n 256).
  assert (0 <= n / 256 < 256)%Z by (split; [apply Z.div_pos|apply Z.div_lt_upper_bound]; lia).
  rewrite (Z.mod_small (n / 256) 256) by lia. rewrite u16_small; lia.
Qed.

(** ** The Internet checksum: RFC 1071

    One's complement sum of the 16-bit words, an odd octet padded with a zero. *)
Fixpoint words (s : list Z) : list Z :=
  match s with
  | [] => []
  | [a] => [(a * 256)%Z]
  | a :: b :: rest => (a * 256 + b)%Z :: words rest
  end.

Definition ones_add (a b : Z) : Z := if (65535 <? a + b)%Z then (a + b - 65535)%Z else (a + b)%Z.
Definition ones_sum (ws : list Z) : Z := foldl ones_add 0%Z ws.

Definition zsum (ws : list Z) : Z := foldr Z.add 0%Z ws.

Definition word (z : Z) : Prop := (0 <= z <= 65535)%Z.

(** Induction two elements at a time. *)
Lemma pair_ind {A} (P : list A → Prop) :
  P [] → (∀ a, P [a]) → (∀ a b s, P s → P (a :: b :: s)) → ∀ s, P s.
Proof.
  intros H0 H1 H2. fix go 1. intros [|a [|b s]]; [exact H0|apply H1|apply H2, go].
Qed.

Lemma words_word s : Forall octet s → Forall word (words s).
Proof.
  induction s as [|a|a b s IH] using pair_ind; intros Hs; cbn [words]; [constructor|..].
  - apply Forall_cons_1 in Hs as [Ha _]. constructor; [unfold octet, word in *; lia|constructor].
  - apply Forall_cons_1 in Hs as [Ha [Hb Hs]%Forall_cons_1].
    constructor; [unfold octet, word in *; lia|by apply IH].
Qed.

(** The one's complement sum is the sum modulo 65535, with 65535 for zero unless
    all words are zero. *)
Lemma ones_fold ws acc :
  Forall word ws → word acc →
  word (foldl ones_add acc ws) ∧ (foldl ones_add acc ws mod 65535 = (acc + zsum ws) mod 65535)%Z ∧
  (0 < acc + zsum ws → 0 < foldl ones_add acc ws)%Z.
Proof.
  revert acc. induction ws as [|w ws IH]; intros acc Hws Hacc; cbn [foldl zsum foldr].
  { rewrite Z.add_0_r. done. }
  apply Forall_cons_1 in Hws as [Hw Hws].
  assert (0 <= zsum ws)%Z as Hpos.
  { clear IH. induction Hws as [|x ws Hx _ IH]; cbn; [lia|]. unfold word in Hx. unfold zsum in IH. lia. }
  assert (word (ones_add acc w)) as Hadd.
  { unfold ones_add, word in *. destruct (Z.ltb_spec 65535 (acc + w)); lia. }
  destruct (IH (ones_add acc w) Hws Hadd) as (H1 & H2 & H3). fold (zsum ws). split_and!; [done| |].
  - rewrite H2, Z.add_assoc. unfold ones_add. destruct (Z.ltb_spec 65535 (acc + w)); [|done].
    replace (acc + w - 65535 + zsum ws)%Z with (acc + w + zsum ws + (-1) * 65535)%Z by lia.
    by rewrite Z_mod_plus_full.
  - intros Hgt. apply H3. unfold ones_add, word in *. destruct (Z.ltb_spec 65535 (acc + w)); lia.
Qed.

Lemma ones_sum_full ws :
  Forall word ws → (0 < zsum ws)%Z → (zsum ws mod 65535 = 0)%Z → ones_sum ws = 65535%Z.
Proof.
  intros Hws Hpos Hmod. destruct (ones_fold ws 0 Hws) as (Hr & Hm & Hp); [unfold word; lia|].
  rewrite Z.add_0_l in *. specialize (Hp Hpos). fold (ones_sum ws) in *. unfold word in Hr.
  rewrite Hmod in Hm. apply Z.mod_divide in Hm as [k Hk]; [|lia]. nia.
Qed.

End Octets.

(** ** icmp_header.hpp *)

Module IcmpHeader.
Import Octets.

Definition echo_reply : Z := 0.
Definition echo_request : Z := 8.

Definition icmp_header := list Z.   (* rep_, eight octets *)

Definition icmp_new : icmp_header := replicate 8 0%Z.

Definition type (h : icmp_header) : Z := at_ h 0.
Definition code (h : icmp_header) : Z := at_ h 1.
Definition checksum (h : icmp_header) : Z := decode h 2 3.
Definition identifier (h : icmp_header) : Z := decode h 4 5.
Definition sequence_number (h : icmp_header) : Z := decode h 6 7.

Definition set_type (h : icmp_header) (n : Z) : icmp_header := <[0 := n]> h.
Definition set_code (h : icmp_header) (n : Z) : icmp_header := <[1 := n]> h.
Definition set_checksum (h : icmp_header) (n : Z) : icmp_header := encode h 2 3 n.
Definition set_identifier (h : icmp_header) (n : Z) : icmp_header := encode h 4 5 n.
Definition set_sequence_number (h : icmp_header) (n : Z) : icmp_header := encode h 6 7 n.

(** The loop of compute_checksum over the body, in unsigned int. *)
Fixpoint sum_body (sum : Z) (body : list Z) : Z :=
  match body with
  | [] => sum
  | [a] => u32 (sum + Z.shiftl a 8)
  | a :: b :: rest => sum_body (u32 (u32 (sum + Z.shiftl a 8) + b)) rest
  end.

Definition compute_checksum (h : icmp_header) (body : list Z) : icmp_header :=
  let sum := u32 (Z.shiftl (type h) 8 + code h + identifier h + sequence_number h) in
  let sum := sum_body sum body in
  let sum := u32 (Z.shiftr sum 16 + Z.land sum 65535) in
  let sum := u32 (sum + Z.shiftr sum 16) in
  set_checksum h (u16 (Z.lnot sum)).

Lemma sum_body_exact body sum :
  Forall octet body → (0 <= sum)%Z → (sum + 65536 * Z.of_nat (length body) < 2 ^ 32)%Z →
  sum_body sum body = (sum + zsum (words body))%Z ∧
  (0 <= zsum (words body) <= 65536 * Z.of_nat (length body))%Z.
Proof.
  revert sum. induction body as [|a|a b s IH] using pair_ind; intros sum Hb H0 Hlt;
    cbn [sum_body words zsum foldr length] in *; [lia|..]; rewrite ?shiftl_8.
  - apply Forall_cons_1 in Hb as [Ha _]. unfold octet in Ha.
    unfold u32. rewrite Z.mod_small by lia. lia.
  - apply Forall_cons_1 in Hb as [Ha [Hb Hs]%Forall_cons_1]. unfold octet in Ha, Hb. fold (zsum (words s)).
    unfold u32. rewrite (Z.mod_small (sum + a * 256)) by lia.
    rewrite (Z.mod_small (sum + a * 256 + b)) by lia.
    destruct (IH (sum + a * 256 + b)%Z Hs) as [-> ?]; lia.
Qed.

(** Folding the carries twice gives the sum modulo 65535 in 16 bits. *)
Lemma fold_carries s :
  (0 <= s < 2 ^ 32)%Z →
  let s1 := u32 (Z.shiftr s 16 + Z.land s 65535) in
  let s2 := u32 (s1 + Z.shiftr s1 16) in
  ∃ r, u16 (Z.lnot s2) = (65535 - r)%Z ∧ (0 <= r <= 65535)%Z ∧ (∃ k, 0 <= k ∧ s = r + 65535 * k)%Z.
Proof.
  intros Hs. cbn zeta.
  assert (Z.land s 65535 = s mod 65536)%Z as ->.
  { change 65535%Z with (Z.ones 16). by rewrite Z.land_ones by lia. }
  rewrite !(Z.shiftr_div_pow2 s) by lia. change (2 ^ 16)%Z with 65536%Z in *.
  pose proof (Z.div_mod s 65536) as Hdm. pose proof (Z.mod_pos_bound s 65536) as Hmb.
  assert (0 <= s / 65536 < 65536)%Z as Hq.
  { split; [apply Z.div_pos|apply Z.div_lt_upper_bound]; lia. }
  set (q := (s / 65536)%Z) in *. set (m := (s mod 65536)%Z) in *.
  unfold u32. rewrite (Z.mod_small (q + m)) by lia. rewrite Z.shiftr_div_pow2 by lia.
  change (2 ^ 16)%Z with 65536%Z. set (x := (q + m)%Z) in *.
  assert (x / 65536 = if (x <? 65536)%Z then 0 else 1)%Z as ->.
  { destruct (Z.ltb_spec x 65536); [by apply Z.div_small; lia|].
    symmetry. apply (Z.div_unique _ _ _ (x - 65536)); lia. }
  unfold u16, Z.lnot. change (2 ^ 16)%Z with 65536%Z.
  destruct (Z.ltb_spec x 65536); rewrite (Z.mod_small _ (2 ^ 32)) by lia.
  - exists x. split_and!; [|lia|lia|exists q; lia].
    symmetry. apply (Z.mod_unique_pos _ _ (-1)); lia.
  - exists (x + 1 - 65536)%Z. split_and!; [|lia|lia|exists (q + 1)%Z; lia].
    symmetry. apply (Z.mod_unique_pos _ _ (-2)); lia.
Qed.

(** A header of eight octets. *)
Definition icmp_ok (h : icmp_header) : Prop := length h = 8 ∧ Forall octet h.

Lemma decode_two a b : octet a → octet b → u16 (Z.shiftl a 8 + b) = (a * 256 + b)%Z.
Proof. unfold octet. intros. rewrite shiftl_8. apply u16_small. lia. Qed.

(** The sum of the words but the checksum. *)
Definition header_sum (h : icmp_header) : Z :=
  (type h * 256 + code h + identifier h + sequence_number h)%Z.

Lemma header_sum_bound h : icmp_ok h → (0 <= header_sum h < 4 * 65536)%Z.
Proof.
  intros [Hl Hh]. destruct h as [|t [|c [|k1 [|k2 [|i1 [|i2 [|s1 [|s2 [|]]]]]]]]]; try done. clear Hl.
  repeat (apply Forall_cons_1 in Hh as [? Hh]).
  unfold header_sum, type, code, identifier, sequence_number, decode, at_. cbn.
  rewrite !decode_two by done. unfold octet in *. lia.
Qed.

(** A packet with checksum [n]: its words, and that the other fields keep. *)
Lemma set_checksum_words h n body :
  icmp_ok h → (0 <= n < 65536)%Z →
  Forall octet (set_checksum h n) ∧
  zsum (words (set_checksum h n ++ body)) = (header_sum h + n + zsum (words body))%Z ∧
  type (set_checksum h n) = type h ∧ code (set_checksum h n) = code h ∧
  identifier (set_checksum h n) = identifier h ∧
  sequence_number (set_checksum h n) = sequence_number h.
Proof.
  intros [Hl Hh] Hn. destruct h as [|t [|c [|k1 [|k2 [|i1 [|i2 [|s1 [|s2 [|]]]]]]]]]; try done. clear Hl.
  repeat (apply Forall_cons_1 in Hh as [? Hh]).
  unfold set_checksum, encode. rewrite land_255, shiftr_8. cbn [insert list_insert app].
  pose proof (Z.div_mod n 256). pose proof (Z.mod_pos_bound n 256).
  assert (0 <= n / 256 < 256)%Z by (split; [apply Z.div_pos|apply Z.div_lt_upper_bound]; lia).
  rewrite (Z.mod_small (n / 256) 256) by lia. split_and!; [|..|done|done|done|done].
  - repeat (constructor; [done || (unfold octet; lia)|]). constructor.
  - cbn [words zsum foldr]. fold (zsum (words body)).
    unfold header_sum, type, code, identifier, sequence_number, decode, at_. cbn [lookup list_lookup default from_option id].
    rewrite !decode_two by done. lia.
Qed.

(** The lemma behind the next theorem, with the length of the header. *)
Lemma checksum_valid h body :
  icmp_ok h → Forall octet body → (Z.of_nat (length body) <= 65507)%Z →
  ones_sum (words (compute_checksum h body ++ body)) = 65535%Z ∧
  length (compute_checksum h body) = 8 ∧
  type (compute_checksum h body) = type h ∧ code (compute_checksum h body) = code h ∧
  identifier (compute_checksum h body) = identifier h ∧
  sequence_number (compute_checksum h body) = sequence_number h.
Proof.
  intros Hh Hb Hlen. unfold compute_checksum.
  assert (u32 (Z.shiftl (type h) 8 + code h + identifier h + sequence_number h) = header_sum h) as ->.
  { rewrite shiftl_8. apply Z.mod_small. pose proof (header_sum_bound h Hh). unfold header_sum in *. lia. }
  pose proof (header_sum_bound h Hh) as Hs.
  destruct (sum_body_exact body (header_sum h) Hb) as [-> Hbs]; [lia|lia|].
  destruct (fold_carries (header_sum h + zsum (words body))) as (r & Hn & Hr & k & Hk0 & Hk); [lia|].
  cbn zeta in Hn. rewrite Hn.
  destruct (set_checksum_words h (65535 - r) body Hh) as (Ho & Hz & Hf); [lia|].
  split; [|split; [|exact Hf]].
  2: { unfold set_checksum, encode. rewrite !length_insert. apply Hh. }
  apply ones_sum_full.
  - apply words_word, Forall_app. done.
  - rewrite Hz. lia.
  - rewrite Hz. replace (header_sum h + (65535 - r) + zsum (words body))%Z with (0 + (k + 1) * 65535)%Z by lia.
    by rewrite Z_mod_plus_full.
Qed.

(** The checksum is the one of RFC 1071: for every header and every body
    an IPv4 packet can carry, after compute_checksum the one's complement sum of
    all 16-bit words of the packet, the checksum included, is FFFF (as a receiver
    verifies it); the other fields are unchanged. *)
Theorem compute_checksum_valid h body :
  icmp_ok h → Forall octet body → (Z.of_nat (length body) <= 65507)%Z →
  ones_sum (words (compute_checksum h body ++ body)) = 65535%Z ∧
  type (compute_checksum h body) = type h ∧ code (compute_checksum h body) = code h ∧
  identifier (compute_checksum h body) = identifier h ∧
  sequence_number (compute_checksum h body) = sequence_number h.
Proof. intros Hh Hb Hl. by destruct (checksum_valid h body Hh Hb Hl) as (? & _ & ?). Qed.

Lemma compute_checksum_witness :
  ones_sum (words (compute_checksum [8; 0; 0; 0; 18; 52; 0; 1]%Z [104; 105; 33]%Z ++ [104; 105; 33]%Z)) = 65535%Z.
Proof.
  apply (compute_checksum_valid [8; 0; 0; 0; 18; 52; 0; 1]%Z [104; 105; 33]%Z);
    [split; [reflexivity|]| |cbn; lia]; repeat constructor; unfold octet; lia.
Defined.

End IcmpHeader.

(** ** ipv4_header.hpp *)

Module Ipv4Header.
Import Octets.

(** A std::istream over a received packet. *)
Record istream := mkStream { left : list Z; good : bool }.

(** [is.read(p, n)]: what is stored, and the stream afterwards. *)
Definition read (is_ : istream) (n : nat) : list Z * istream :=
  if good is_ then
    if n <=? length (left is_) then (take n (left is_), mkStream (drop n (left is_)) true)
    else (left is_, mkStream [] false)
  else ([], is_).

(** [is.setstate(std::ios::failbit)] *)
Definition set_fail (is_ : istream) : istream := mkStream (left is_) false.

(** Bytes stored into an array from offset [k] on. *)
Definition fill (rep : list Z) (k : nat) (s : list Z) : list Z :=
  take k rep ++ s ++ drop (k + length s) rep.

Definition ipv4_header := list Z.   (* rep_, sixty octets *)
Definition ipv4_new : ipv4_header := replicate 60 0%Z.

Definition version (h : ipv4_header) : Z := Z.land (Z.shiftr (at_ h 0) 4) 15.
Definition header_length (h : ipv4_header) : Z := (Z.land (at_ h 0) 15 * 4)%Z.
Definition type_of_service (h : ipv4_header) : Z := at_ h 1.
Definition total_length (h : ipv4_header) : Z := decode h 2 3.
Definition identification (h : ipv4_header) : Z := decode h 4 5.
Definition dont_fragment (h : ipv4_header) : bool := negb (Z.land (at_ h 6) 64 =? 0)%Z.
Definition more_fragments (h : ipv4_header) : bool := negb (Z.land (at_ h 6) 32 =? 0)%Z.
Definition fragment_offset (h : ipv4_header) : Z := Z.land (decode h 6 7) 8191.
Definition time_to_live (h : ipv4_header) : Z := at_ h 8.
Definition protocol (h : ipv4_header) : Z := at_ h 9.
Definition header_checksum (h : ipv4_header) : Z := decode h 10 11.
Definition source_address (h : ipv4_header) : list Z := [at_ h 12; at_ h 13; at_ h 14; at_ h 15].
Definition destination_address (h : ipv4_header) : list Z := [at_ h 16; at_ h 17; at_ h 18; at_ h 19].

(** [operator>>]: the first twenty octets, then the check of version and length
    and the options. *)
Definition read_options (is_ : istream) (h : ipv4_header) : istream * ipv4_header :=
  let is_ := if negb (version h =? 4)%Z then set_fail is_ else is_ in
  let options_length := (header_length h - 20)%Z in
  if (options_length <? 0)%Z || (40 <? options_length)%Z then (set_fail is_, h)
  else
    let '(s, is_) := read is_ (Z.to_nat options_length) in
    (is_, fill h 20 s).

Definition read_ipv4 (is_ : istream) (h : ipv4_header) : istream * ipv4_header :=
  let '(s, is_) := read is_ 20 in read_options is_ (fill h 0 s).

End Ipv4Header.

(** ** ping.cpp *)

Module Ping.
Import Octets IcmpHeader Ipv4Header.

(** [operator>>] of icmp_header *)
Definition read_icmp (is_ : istream) (h : icmp_header) : istream * icmp_header :=
  let '(s, is_) := read is_ 8 in (is_, fill h 0 s).

(** What the timer waits for; a cancelled wait completes at once. *)
Inductive timer := waiting_reply (cancelled : bool) | waiting_next.

Record pinger := mkPinger {
  sequence_number_ : Z;     (* unsigned short *)
  num_replies_ : nat;
  timer_ : timer;
}.

(** The line printed for a reply, without the time. *)
Record report := mkReport { rep_bytes : Z; rep_from : list Z; rep_seq : Z; rep_ttl : Z }.

(** "Hello!" from Asio ping. *)
Definition ping_body : list Z :=
  [34; 72; 101; 108; 108; 111; 33; 34; 32; 102; 114; 111; 109; 32; 65; 115; 105; 111; 32;
   112; 105; 110; 103; 46]%Z.

Section Ping.
Context (get_identifier : Z).   (* the process id as unsigned short *)

(** [start_send]: the packet sent, and the pinger with its timer set. *)
Definition start_send (p : pinger) : list Z * pinger :=
  let seq := u16 (sequence_number_ p + 1) in
  let h := set_type icmp_new echo_request in
  let h := set_code h 0 in
  let h := set_identifier h get_identifier in
  let h := set_sequence_number h seq in
  let h := compute_checksum h ping_body in
  (h ++ ping_body, mkPinger seq 0 (waiting_reply false)).

(** [handle_timeout]: whether "Request timed out" is printed. *)
Definition handle_timeout (p : pinger) : bool * pinger :=
  (num_replies_ p =? 0, mkPinger (sequence_number_ p) (num_replies_ p) waiting_next).

(** [timer_.cancel()]. The wait for the next request is cancelled only by a first reply
    that comes after [handle_timeout], and then its expiry, one second after the request,
    is four seconds past: it completes at once with or without the call, and
    [start_send] does not look at the error code. *)
Definition cancel (t : timer) : timer :=
  match t with
  | waiting_reply _ => waiting_reply true
  | waiting_next => waiting_next
  end.

(** [handle_receive]: what is printed, and the pinger. *)
Definition handle_receive (p : pinger) (packet : list Z) : option report * pinger :=
  let '(is_, ipv4_hdr) := read_ipv4 (mkStream packet true) ipv4_new in
  let '(is_, icmp_hdr) := read_icmp is_ icmp_new in
  if good is_ && (type icmp_hdr =? echo_reply)%Z && (identifier icmp_hdr =? get_identifier)%Z
     && (sequence_number icmp_hdr =? sequence_number_ p)%Z then
    (Some (mkReport (Z.of_nat (length packet) - header_length ipv4_hdr) (source_address ipv4_hdr)
             (sequence_number icmp_hdr) (time_to_live ipv4_hdr)),
     mkPinger (sequence_number_ p) (S (num_replies_ p))
       (if num_replies_ p =? 0 then cancel (timer_ p) else timer_ p))
  else (None, p).

(** ** What an answer is *)

(** A packet with an IPv4 header of 20 octets and [opts], an ICMP header and any
    payload, which answers request [seq]. *)
Definition is_reply (seq : Z) (packet : list Z) : Prop :=
  ∃ hdr opts icmp payload, packet = hdr ++ opts ++ icmp ++ payload ∧
    length hdr = 20 ∧ length icmp = 8 ∧ version hdr = 4%Z ∧
    header_length hdr = (20 + Z.of_nat (length opts))%Z ∧
    type icmp = echo_reply ∧ identifier icmp = get_identifier ∧ sequence_number icmp = seq.

Lemma at_app_l (s t : list Z) i : i < length s → at_ (s ++ t) i = at_ s i.
Proof. intros Hi. unfold at_. by rewrite lookup_app_l. Qed.

Lemma header_length_bound h : (0 <= header_length h <= 60)%Z.
Proof.
  unfold header_length. change 15%Z with (Z.ones 4). rewrite Z.land_ones by lia.
  pose proof (Z.mod_pos_bound (at_ h 0) (2 ^ 4)). lia.
Qed.

(** Only the first octet decides about version and length. *)
Lemma first_octet h h' :
  at_ h 0 = at_ h' 0 → version h = version h' ∧ header_length h = header_length h'.
Proof. unfold version, header_length. by intros ->. Qed.

Lemma read_icmp_spec s :
  8 ≤ length s → read_icmp (mkStream s true) icmp_new = (mkStream (drop 8 s) true, take 8 s).
Proof.
  intros Hl. unfold read_icmp, read. cbn [good left]. bool_true. f_equal.
  unfold fill. rewrite take_0, length_take. replace (0 + 8 `min` length s) with 8 by lia.
  cbn [app]. by rewrite app_nil_r.
Qed.

Lemma read_options_fails is_ h :
  good is_ = false ∨ version h ≠ 4%Z → good (read_options is_ h).1 = false.
Proof.
  intros Hf. unfold read_options.
  assert (good (if negb (version h =? 4)%Z then set_fail is_ else is_) = false) as Hg.
  { destruct (Z.eqb_spec (version h) 4); cbn; [|done]. by destruct Hf. }
  cbn zeta. destruct (_ || _); [done|]. unfold read. by rewrite Hg.
Qed.

(** An IPv4 header with its options at the start of a packet. *)
Definition has_header (packet hdr opts tail : list Z) : Prop :=
  packet = hdr ++ opts ++ tail ∧ length hdr = 20 ∧ version hdr = 4%Z ∧
  header_length hdr = (20 + Z.of_nat (length opts))%Z.

Lemma has_header_take packet hdr opts tail :
  has_header packet hdr opts tail →
  20 ≤ length packet ∧ hdr = take 20 packet ∧ opts ++ tail = drop 20 packet.
Proof.
  intros (-> & Hl & _). rewrite length_app, take_app_length', drop_app_length' by done. by split_and!; [lia|..].
Qed.

(** Reading it: the stream is good exactly when there is one. *)
Lemma read_ipv4_spec packet is1 ip :
  read_ipv4 (mkStream packet true) ipv4_new = (is1, ip) →
  if good is1 then ∃ hdr opts, has_header packet hdr opts (left is1)
  else ∀ hdr opts tail, ¬ has_header packet hdr opts tail.
Proof.
  unfold read_ipv4, read. cbn [good left]. destruct (Nat.leb_spec 20 (length packet)) as [Hl|Hl].
  2: { intros E. pose proof (read_options_fails (mkStream [] false) (fill ipv4_new 0 packet)) as Hf.
    rewrite E in Hf. cbn [fst] in Hf. rewrite Hf by by left. intros hdr opts tail (? & _)%has_header_take. lia. }
  set (hdr := take 20 packet). assert (length hdr = 20) as Hhdr by (unfold hdr; rewrite length_take; lia).
  destruct (first_octet (fill ipv4_new 0 hdr) hdr) as [Ev Eh].
  { unfold fill. rewrite take_0. cbn [app]. apply at_app_l. lia. }
  destruct (decide (version hdr = 4%Z)) as [Hv|Hv].
  2: { intros E. pose proof (read_options_fails (mkStream (drop 20 packet) true) (fill ipv4_new 0 hdr)) as Hf.
    rewrite E in Hf. cbn [fst] in Hf. rewrite Hf by (right; congruence).
    intros h opts tail Hh. pose proof Hh as (_ & -> & _)%has_header_take. by destruct Hh as (_ & _ & ? & _). }
  unfold read_options. rewrite Ev, Eh, Hv. cbn [Z.eqb Pos.eqb negb].
  pose proof (header_length_bound hdr) as Hb.
  destruct (Z.ltb_spec (header_length hdr - 20) 0) as [Hneg|Hneg]; cbn [orb].
  { intros [= <- _]. cbn. intros h opts tail Hh. pose proof Hh as (_ & -> & _)%has_header_take.
    destruct Hh as (_ & _ & _ & E). fold hdr in E. lia. }
  rewrite (proj2 (Z.ltb_ge 40 _)) by lia. unfold read. cbn [good left].
  destruct (Nat.leb_spec (Z.to_nat (header_length hdr - 20)) (length (drop 20 packet))) as [Ho|Ho].
  - intros [= <- _]. cbn [good left]. exists hdr, (take (Z.to_nat (header_length hdr - 20)) (drop 20 packet)).
    split_and!; [|done|done|rewrite length_take; lia]. unfold hdr. by rewrite !take_drop.
  - intros [= <- _]. cbn [good]. intros h opts tail Hh.
    pose proof Hh as (_ & -> & Ht)%has_header_take. destruct Hh as (_ & _ & _ & E). fold hdr in E.
    rewrite <-Ht, length_app in Ho. lia.
Qed.

(** Two readings of the start of a packet agree. *)
Lemma has_header_fun packet hdr opts tail hdr' opts' tail' :
  has_header packet hdr opts tail → has_header packet hdr' opts' tail' → tail = tail'.
Proof.
  intros Hh Hh'. pose proof Hh as (_ & E1 & E2)%has_header_take.
  pose proof Hh' as (_ & E1' & E2')%has_header_take.
  destruct Hh as (_ & _ & _ & Hl). destruct Hh' as (_ & _ & _ & Hl'). subst hdr hdr'.
  rewrite <-E2' in E2. apply app_inj_1 in E2 as [_ E]; [done|lia].
Qed.

(** A packet is counted exactly when it is a reply. *)
Lemma receive_counts p packet :
  (handle_receive p packet = (None, p) ∧ ¬ is_reply (sequence_number_ p) packet) ∨
  (is_reply (sequence_number_ p) packet ∧
   ∃ r, handle_receive p packet = (Some r, mkPinger (sequence_number_ p) (S (num_replies_ p))
          (if num_replies_ p =? 0 then cancel (timer_ p) else timer_ p))).
Proof.
  unfold handle_receive. destruct (read_ipv4 (mkStream packet true) ipv4_new) as [[tail g] ip] eqn:E1.
  apply read_ipv4_spec in E1. cbn [good left] in E1. destruct g.
  2: { left. unfold read_icmp, read. cbn. split; [done|].
    intros (hdr & opts & icmp & payload & E & ? & ? & ? & ? & _). by destruct (E1 hdr opts (icmp ++ payload)). }
  destruct E1 as (hdr & opts & Hh). destruct (decide (8 ≤ length tail)) as [Hl|Hl].
  - rewrite read_icmp_spec by done. cbn [good].
    destruct (_ && _ && _ && _) eqn:Eb; [right|left].
    + rewrite !andb_true_iff, !Z.eqb_eq in Eb. destruct Eb as [[[_ ?] ?] ?]. split; [|eauto].
      destruct Hh as (-> & ? & ? & ?). exists hdr, opts, (take 8 tail), (drop 8 tail).
      rewrite take_drop. split_and!; try done. rewrite length_take. lia.
    + split; [done|]. intros (hdr2 & opts2 & icmp & payload & E & Hl1 & Hl2 & Hv & Hhl & Ht & Hid & Hsq).
      rewrite (has_header_fun _ _ _ _ hdr2 opts2 (icmp ++ payload) Hh) in Eb by done.
      by rewrite take_app_length', Ht, Hid, Hsq, !Z.eqb_refl in Eb.
  - left. unfold read_icmp, read. cbn [good left]. rewrite (proj2 (Nat.leb_gt _ _)) by lia. cbn [good].
    split; [done|]. intros (hdr2 & opts2 & icmp & payload & E & Hl1 & Hl2 & Hv & Hhl & _).
    apply Hl. rewrite (has_header_fun _ _ _ _ hdr2 opts2 (icmp ++ payload) Hh) by done.
    rewrite length_app. lia.
Qed.

(** Any packets after a request: the timer is cancelled by the first reply. *)
Lemma receive_all packets p :
  timer_ p = waiting_reply (negb (num_replies_ p =? 0)) →
  let p' := foldl (λ p k, (handle_receive p k).2) p packets in
  sequence_number_ p' = sequence_number_ p ∧
  timer_ p' = waiting_reply (negb (num_replies_ p' =? 0)) ∧
  (num_replies_ p' = 0 ↔
     num_replies_ p = 0 ∧ Forall (λ k, ¬ is_reply (sequence_number_ p) k) packets).
Proof.
  revert p. induction packets as [|k packets IH]; intros p Ht; cbn [foldl]; [by split_and!; [|..|]; naive_solver|].
  destruct (receive_counts p k) as [[E Hn]|[Hy [r E]]]; rewrite E; cbn [snd].
  - destruct (IH p Ht) as (H1 & H2 & H3). cbn zeta. split_and!; [done..|].
    rewrite H3, Forall_cons. naive_solver.
  - destruct (IH (mkPinger (sequence_number_ p) (S (num_replies_ p))
                   (if num_replies_ p =? 0 then cancel (timer_ p) else timer_ p))) as (H1 & H2 & H3).
    { cbn [timer_ num_replies_]. by destruct (num_replies_ p =? 0) eqn:E0; rewrite Ht. }
    cbn zeta. split_and!; [exact H1|exact H2|]. rewrite H3, Forall_cons. cbn. naive_solver.
Qed.

(** The echo request: a header with its fields, followed by the text. *)
Lemma request_header seq :
  (0 <= get_identifier < 65536)%Z → (0 <= seq < 65536)%Z →
  let h := set_sequence_number (set_identifier (set_code (set_type icmp_new echo_request) 0) get_identifier) seq in
  icmp_ok h ∧ type h = echo_request ∧ identifier h = get_identifier ∧ sequence_number h = seq.
Proof.
  intros Hid Hseq. cbn zeta. unfold icmp_ok, set_sequence_number, set_identifier, set_code, set_type, icmp_new, type,
    identifier, sequence_number.
  split_and!; [done| |done| |by apply decode_encode; [cbn; lia..|done|]].
  - unfold encode. cbn [replicate insert list_insert]. rewrite !land_255, !shiftr_8.
    repeat constructor; unfold octet, echo_request; try lia;
      first [apply Z.mod_pos_bound; lia | split; [apply Z.div_pos|apply Z.div_lt_upper_bound]; lia].
  - pose proof (decode_encode (<[1:=0%Z]> (<[0:=echo_request]> (replicate 8 0%Z))) 4 5 get_identifier) as Hd.
    apply Hd; [cbn; lia..|done|done].
Qed.

Lemma start_send_state p :
  (start_send p).2 = mkPinger (u16 (sequence_number_ p + 1)) 0 (waiting_reply false).
Proof. done. Qed.

(** The packet [start_send] sends. *)
Lemma request_sent p :
  (0 <= get_identifier < 65536)%Z →
  let packet := (start_send p).1 in
  ones_sum (words packet) = 65535%Z ∧ drop 8 packet = ping_body ∧
  type (take 8 packet) = echo_request ∧ identifier (take 8 packet) = get_identifier ∧
  sequence_number (take 8 packet) = ((sequence_number_ p + 1) mod 65536)%Z.
Proof.
  intros Hid. unfold start_send. change (u16 ?x) with (x mod 65536)%Z. set (seq := ((sequence_number_ p + 1) mod 65536)%Z).
  assert (0 <= seq < 65536)%Z as Hseq by (apply Z.mod_pos_bound; lia).
  destruct (request_header seq Hid Hseq) as (Hok & Ht & Hi & Hs). cbn zeta in Hok, Ht, Hi, Hs.
  set (h := set_sequence_number _ seq) in *.
  assert (Forall octet ping_body) as Hb by (repeat constructor; unfold octet; lia).
  destruct (checksum_valid h ping_body Hok Hb) as (Hsum & Hlen & Ht' & _ & Hi' & Hs'); [cbn; lia|].
  cbn zeta. cbn [fst]. rewrite take_app_length', drop_app_length' by done.
  split_and!; [done|done|congruence|congruence|congruence].
Qed.

(** A round of ping. The packet sent is an echo request with the process's
    identifier, the next sequence number (modulo 65536) and a checksum a receiver
    finds correct. After it, whatever packets the host receives, "Request timed
    out" is printed when the timer expires exactly when none of them was an echo
    reply to that request (an IPv4 header with any options, then an ICMP header of
    type 0 with this identifier and sequence number), and the wait is cut short
    exactly when one was. *)
Theorem ping_round p packets :
  (0 <= get_identifier < 65536)%Z →
  let '(packet, p1) := start_send p in
  let p2 := foldl (λ p k, (handle_receive p k).2) p1 packets in
  ones_sum (words packet) = 65535%Z ∧ drop 8 packet = ping_body ∧
  type (take 8 packet) = echo_request ∧ identifier (take 8 packet) = get_identifier ∧
  sequence_number (take 8 packet) = ((sequence_number_ p + 1) mod 65536)%Z ∧
  ((handle_timeout p2).1 = true ↔
     Forall (λ k, ¬ is_reply ((sequence_number_ p + 1) mod 65536) k) packets) ∧
  (timer_ p2 = waiting_reply true ↔
     ¬ Forall (λ k, ¬ is_reply ((sequence_number_ p + 1) mod 65536) k) packets).
Proof.
  intros Hid. pose proof (request_sent p Hid) as Hpk. cbn zeta in Hpk.
  pose proof (start_send_state p) as Hst. change (u16 ?x) with (x mod 65536)%Z in Hst.
  destruct (start_send p) as [packet p1]. cbn [fst snd] in Hpk, Hst. subst p1. destruct (receive_all packets (mkPinger ((sequence_number_ p + 1) mod 65536) 0 (waiting_reply false)) eq_refl)
    as (_ & Htm & Hn).
  cbn zeta in Htm, Hn |- *. set (p2 := foldl _ _ _) in *. cbn [sequence_number_ num_replies_] in Hn.
  destruct Hpk as (H1 & H2 & H3 & H4 & H5). split_and!; [done..| |].
  - cbn [handle_timeout fst]. rewrite Nat.eqb_eq, Hn. naive_solver.
  - rewrite Htm. destruct (Nat.eqb_spec (num_replies_ p2) 0); cbn; naive_solver.
Qed.

End Ping.

(** An answer to request 1 of process 4660, in a packet without options. *)
Definition sample_reply : list Z :=
  [69; 0; 0; 28; 0; 0; 0; 0; 64; 1; 0; 0; 127; 0; 0; 1; 127; 0; 0; 1]%Z ++
  [0; 0; 237; 202; 18; 52; 0; 1]%Z.

Lemma ping_round_witness :
  (handle_timeout (foldl (λ p k, (handle_receive 4660 p k).2)
     (start_send 4660 (mkPinger 0 0 waiting_next)).2 [sample_reply])).1 = false ∧
  is_reply 4660 1 sample_reply.
Proof.
  assert (is_reply 4660 1 sample_reply) as Hr.
  { exists (take 20 sample_reply), [], (drop 20 sample_reply), []. by split_and!. }
  split; [|exact Hr].
  pose proof (ping_round 4660 (mkPinger 0 0 waiting_next) [sample_reply] ltac:(lia)) as Hp.
  cbn [start_send snd] in Hp |- *. destruct Hp as (_ & _ & _ & _ & _ & Hto & _).
  apply not_true_is_false. intros E%Hto. apply Forall_cons_1 in E as [Hn _]. by destruct Hn.
Defined.

End Ping.
