(* ===== verification/Pinger.v ===== *)
(** * The ping program

    (src/doc_searcher/data/input/html/boost_asio/example/icmp/ping.cpp.) The class
    pinger with its clock, its timer and its receives, around the packets and handlers of
    Icmp.v. Times are in milliseconds; a timer may fire late, never early, and a
    wait that is cancelled ends at once. *)

From S2P Require Import Prelude Icmp.
Import Octets IcmpHeader Ipv4Header Ping.

Module Pinger.
#[local] Open Scope Z_scope.

(** A line of the console: a reply with the time it took, or a timeout. The number of the
    request it belongs to, counted from 0, is history. *)
Inductive line := reply (r : report) (ms : Z) | timed_out (request : nat).

Record program := mkProgram {
  core : pinger;                    (* sequence_number_, num_replies_, what timer_ waits for *)
  time_sent_ : Z;
  expiry : Z;                       (* of timer_ *)
  receiving : bool;                 (* async_receive is outstanding *)
  now : Z;
  requests : list (Z * list Z);     (* what was sent, and when (history) *)
  cout : list (Z * line);           (* what was printed, and when (history) *)
}.

Section Program.
Context (pid : Z).

(** The process id as unsigned short. *)
Definition get_identifier : Z := u16 pid.

(** [start_send] *)
Definition send (g : program) : program :=
  let sent := start_send get_identifier (core g) in
  mkProgram sent.2 (now g) (now g + 5000) (receiving g) (now g) (requests g ++ [(now g, sent.1)]) (cout g).

(** [start_receive] *)
Definition start_receive (g : program) : program :=
  mkProgram (core g) (time_sent_ g) (expiry g) true (now g) (requests g) (cout g).

(** The constructor at time [t]. *)
Definition pinger_new (t : Z) : program :=
  start_receive (send (mkProgram (mkPinger 0 0 waiting_next) t t false t [] [])).

(** [handle_timeout] *)
Definition timeout (g : program) : program :=
  let '(out, p) := handle_timeout (core g) in
  mkProgram p (time_sent_ g) (time_sent_ g + 1000) (receiving g) (now g) (requests g)
    (cout g ++ if out then [(now g, timed_out (length (requests g) - 1)%nat)] else []).

(** [handle_receive] *)
Definition receive (g : program) (packet : list Z) : program :=
  let '(r, p) := handle_receive get_identifier (core g) packet in
  start_receive (mkProgram p (time_sent_ g) (expiry g) false (now g) (requests g)
    (cout g ++ match r with Some r => [(now g, reply r (now g - time_sent_ g))] | None => [] end)).

Definition pass (g : program) (d : Z) : program :=
  mkProgram (core g) (time_sent_ g) (expiry g) (receiving g) (now g + d) (requests g) (cout g).

Inductive step : program → program → Prop :=
  | step_receive g packet : receiving g = true → step g (receive g packet)
  | step_timeout g c :
      timer_ (core g) = waiting_reply c → c = true ∨ expiry g <= now g → step g (timeout g)
  | step_send g : timer_ (core g) = waiting_next → expiry g <= now g → step g (send g)
  | step_pass g d : 0 <= d → step g (pass g d).

Definition reachable (t : Z) : program → Prop := rtc step (pinger_new t).

(** ** The invariant *)

(** The request sent as number [k]. *)
Definition request_ok (k : nat) (packet : list Z) : Prop :=
  ∃ p, sequence_number_ p = Z.of_nat k mod 65536 ∧ packet = (start_send get_identifier p).1.

Record inv (g : program) : Prop := {
  inv_receiving : receiving g = true;
  inv_sent : ∃ packet, last (requests g) = Some (time_sent_ g, packet);
  inv_now : time_sent_ g <= now g;
  inv_sequence : sequence_number_ (core g) = Z.of_nat (length (requests g)) mod 65536;
  inv_timer : match timer_ (core g) with
              | waiting_reply c => expiry g = time_sent_ g + 5000 ∧ (c = true → num_replies_ (core g) ≠ 0%nat)
              | waiting_next => expiry g = time_sent_ g + 1000
              end;
  inv_requests : ∀ k t packet, requests g !! k = Some (t, packet) → request_ok k packet;
  inv_spacing : ∀ k t1 t2 p1 p2, requests g !! k = Some (t1, p1) → requests g !! S k = Some (t2, p2) → t1 + 1000 <= t2;
  inv_timeouts : ∀ i t k, cout g !! i = Some (t, timed_out k) →
    ∃ t0 packet, requests g !! k = Some (t0, packet) ∧ t0 + 5000 <= t;
  inv_once : ∀ i j t t' k, cout g !! i = Some (t, timed_out k) → cout g !! j = Some (t', timed_out k) → i = j;
  inv_current : ∀ i t k, cout g !! i = Some (t, timed_out k) → (∃ c, timer_ (core g) = waiting_reply c) →
    (S k < length (requests g))%nat;
  inv_replies : ∀ i t r ms, cout g !! i = Some (t, reply r ms) →
    ∃ k t0 packet, requests g !! k = Some (t0, packet) ∧ rep_seq r = Z.of_nat (S k) mod 65536 ∧ ms = t - t0;
}.

Lemma handle_receive_cases id p packet :
  (handle_receive id p packet = (None, p)) ∨
  ∃ r, handle_receive id p packet = (Some r, mkPinger (sequence_number_ p) (S (num_replies_ p))
         (if (num_replies_ p =? 0)%nat then cancel (timer_ p) else timer_ p)) ∧ rep_seq r = sequence_number_ p.
Proof.
  unfold handle_receive. destruct (read_ipv4 _ _) as [i1 h4]. destruct (read_icmp _ _) as [i2 h].
  destruct (_ && _) eqn:E; [|by left]. right. eexists. split; [done|].
  apply andb_true_iff in E as [_ E]. by apply Z.eqb_eq in E.
Qed.

Lemma lookup_old {A} (l : list A) x k y : (l ++ [x]) !! k = Some y → (k < length l)%nat → l !! k = Some y.
Proof. intros H Hk. by rewrite lookup_app_l in H. Qed.

Lemma inv_start t : inv (pinger_new t).
Proof.
  split; cbn -[start_send]; rewrite ?start_send_state; try done; try lia.
  - by eexists.
  - assert (request_ok 0 (start_send get_identifier (mkPinger 0 0 waiting_next)).1) as H.
    { exists (mkPinger 0 0 waiting_next). split; [done|reflexivity]. }
    revert H. generalize (start_send get_identifier (mkPinger 0 0 waiting_next)).1.
    intros pk H [|k] t1 packet; [|done]. by intros [= <- <-].
Qed.

Lemma inv_receive g packet : inv g → inv (receive g packet).
Proof.
  intros [Hr Hs Hn Hq Ht Hrq Hsp Hto Ho Hc Hre]. unfold receive.
  destruct (handle_receive_cases get_identifier (core g) packet) as [->|(r & -> & Hseq)]; split; cbn; rewrite ?app_nil_r; try done.
  - destruct (timer_ (core g)) as [c|]; destruct (num_replies_ (core g) =? 0)%nat; cbn; try done; destruct Ht; split; done.
  - intros i t k [[_ Hx]|[_ Hx]]%lookup_snoc_Some; [by apply (Hto i)|done].
  - intros i j t t' k [[_ Hx]|[_ Hx]]%lookup_snoc_Some; [|done].
    intros [[_ Hy]|[_ Hy]]%lookup_snoc_Some; [by apply (Ho i j t t' k)|done].
  - intros i t k [[_ Hx]|[_ Hx]]%lookup_snoc_Some [c Hcc]; [|done]. apply (Hc i t k Hx).
    destruct (timer_ (core g)) as [c'|]; [by eexists|]. by destruct (num_replies_ (core g) =? 0)%nat.
  - intros i t r' ms [[_ Hx]|[_ [= <- <- <-]]]%lookup_snoc_Some; [by apply (Hre i t)|].
    destruct Hs as [pk Hlast]. rewrite last_lookup in Hlast. exists (pred (length (requests g))), (time_sent_ g), pk.
    split_and!; [done| |done]. rewrite Hseq, Hq. apply lookup_lt_Some in Hlast. do 2 f_equal. lia.
Qed.

Lemma inv_timeout g c :
  inv g → timer_ (core g) = waiting_reply c → c = true ∨ expiry g <= now g → inv (timeout g).
Proof.
  intros [Hr Hs Hn Hq Ht Hrq Hsp Hto Ho Hc Hre] Htm Hdue. rewrite Htm in Ht. destruct Ht as [He Hcan].
  destruct Hs as [packet Hlast]. assert (0 < length (requests g))%nat as Hlen by (destruct (requests g); [done|cbn; lia]).
  unfold timeout. destruct (handle_timeout (core g)) as [out p] eqn:E. injection E as <- <-.
  destruct (num_replies_ (core g) =? 0)%nat eqn:Enum.
  - assert (expiry g <= now g) as Hle.
    { destruct Hdue as [->|]; [|done]. apply Nat.eqb_eq in Enum. by destruct (Hcan eq_refl). }
    split; cbn; try done; [by eexists| | |by intros i t k _ [? [=]]|].
    + intros i t k [[_ Hx]|[_ [= <- <-]]]%lookup_snoc_Some; [by apply (Hto i)|].
      rewrite last_lookup in Hlast. exists (time_sent_ g), packet. split; [|lia].
      by replace (length (requests g) - 1)%nat with (pred (length (requests g))) by lia.
    + intros i j t t' k [[Hi Hx]|[-> Hx]]%lookup_snoc_Some [[Hj Hy]|[-> Hy]]%lookup_snoc_Some; [by apply (Ho i j t t' k)|..|done].
      * injection Hy as _ <-. pose proof (Hc i t _ Hx ltac:(by eexists)). lia.
      * injection Hx as _ <-. pose proof (Hc j t' _ Hy ltac:(by eexists)). lia.
    + intros i t r ms [[_ Hx]|[_ Hx]]%lookup_snoc_Some; [by apply (Hre i t)|done].
  - split; cbn; rewrite ?app_nil_r; try done; [by eexists|by intros i t k _ [? [=]]].
Qed.

Lemma inv_send g : inv g → timer_ (core g) = waiting_next → expiry g <= now g → inv (send g).
Proof.
  intros [Hr [packet Hlast] Hn Hq Ht Hrq Hsp Hto Ho Hc Hre] Htm Hdue. rewrite Htm in Ht.
  split; cbn -[start_send]; rewrite ?start_send_state; try done; try lia.
  - rewrite last_snoc. by eexists.
  - cbn. unfold u16. rewrite Hq, length_app. cbn. change (2 ^ 16) with 65536. rewrite Zplus_mod_idemp_l. f_equal. lia.
  - assert (request_ok (length (requests g)) (start_send get_identifier (core g)).1) as Hnew.
    { exists (core g). split; [done|reflexivity]. }
    revert Hnew. generalize (start_send get_identifier (core g)).1. intros new Hnew.
    intros k t pk [[_ Hx]|[-> [= <- <-]]]%lookup_snoc_Some; [by apply (Hrq k t)|done].
  - generalize (start_send get_identifier (core g)).1. intros new k t1 t2 p1 p2 Hx Hy. apply lookup_snoc_Some in Hy as [[Hl Hy]|[Hl [= <- <-]]].
    + eapply Hsp; [|exact Hy]. eapply lookup_old; [exact Hx|lia].
    + apply lookup_old in Hx; [|lia]. rewrite last_lookup in Hlast.
      replace (pred (length (requests g))) with k in Hlast by lia. rewrite Hx in Hlast. injection Hlast as -> _. lia.
  - intros i t k Hx. destruct (Hto i t k Hx) as (t0 & pk & Hk & Hle). exists t0, pk.
    split; [|done]. rewrite lookup_app_l; [done|by eapply lookup_lt_Some].
  - intros i t k Hx _. destruct (Hto i t k Hx) as (t0 & pk & Hk & _). apply lookup_lt_Some in Hk.
    rewrite length_app. cbn. lia.
  - intros i t r ms Hx. destruct (Hre i t r ms Hx) as (k & t0 & pk & Hk & Hrest). exists k, t0, pk.
    split; [|done]. rewrite lookup_app_l; [done|by eapply lookup_lt_Some].
Qed.

Lemma ping_inv t g : reachable t g → inv g.
Proof.
  intros Hr. pose proof (inv_start t) as H0. revert H0. unfold reachable in Hr.
  induction Hr as [g|g1 g2 g3 Hst _ IH]; [done|]. intros Hi. apply IH.
  destruct Hst as [g packet _|g c Ht Hd|g Ht Hd|g d Hd].
  - by apply inv_receive.
  - by eapply inv_timeout.
  - by apply inv_send.
  - destruct Hi. split; cbn; try done. lia.
Qed.

(** C29: the pace of ping. In every reachable state a receive is outstanding. Request
    number [k], counted from 0, is an echo request with a correct checksum, the process's
    identifier and sequence number [k + 1] modulo 65536, sent at least a second after the
    one before. A timeout is printed at most once for a request, at least five seconds
    after it was sent; and a reply that is printed names the sequence number of a
    request, with the time since that request was sent. *)
Theorem ping_pace t g :
  reachable t g →
  receiving g = true ∧
  (∀ k t0 packet, requests g !! k = Some (t0, packet) →
     ones_sum (words packet) = 65535 ∧ type (take 8 packet) = echo_request ∧
     identifier (take 8 packet) = get_identifier ∧ sequence_number (take 8 packet) = Z.of_nat (S k) mod 65536) ∧
  (∀ k t1 t2 p1 p2, requests g !! k = Some (t1, p1) → requests g !! S k = Some (t2, p2) → t1 + 1000 <= t2) ∧
  (∀ i t1 k, cout g !! i = Some (t1, timed_out k) →
     (∃ t0 packet, requests g !! k = Some (t0, packet) ∧ t0 + 5000 <= t1) ∧
     ∀ j t2, cout g !! j = Some (t2, timed_out k) → i = j) ∧
  (∀ i t1 r ms, cout g !! i = Some (t1, reply r ms) →
     ∃ k t0 packet, requests g !! k = Some (t0, packet) ∧ rep_seq r = Z.of_nat (S k) mod 65536 ∧ ms = t1 - t0).
Proof.
  intros Hr. destruct (ping_inv t g Hr) as [Hrc Hs Hn Hq Ht Hrq Hsp Hto Ho Hc Hre]. split_and!; [done| |done| |done].
  - intros k t0 packet Hk. destruct (Hrq k t0 packet Hk) as (p & Hp & ->).
    assert (0 <= get_identifier < 65536) as Hid by (apply Z.mod_pos_bound; lia).
    destruct (request_sent get_identifier p Hid) as (H1 & _ & H2 & H3 & H4). split_and!; [done..|].
    rewrite H4, Hp, Zplus_mod_idemp_l. f_equal. lia.
  - intros i t1 k Hx. split; [by apply (Hto i)|]. intros j t2 Hy. by apply (Ho i j t1 t2 k).
Qed.

End Program.

End Pinger.

Module PingerExamples.
Import Pinger.
#[local] Open Scope Z_scope.

(** No reply comes: a timeout after five seconds, then the next request. *)
Definition silent : program := send 4660 (timeout (pass (pinger_new 4660 0) 5000)).

Lemma silent_reachable : reachable 4660 0 silent.
Proof.
  eapply rtc_l; [by apply (step_pass 4660 _ 5000)|].
  eapply rtc_l; [apply (step_timeout 4660 _ false); [reflexivity|right; cbn; lia]|].
  eapply rtc_l; [apply (step_send 4660); [reflexivity|cbn; lia]|]. apply rtc_refl.
Qed.

Lemma ping_pace_witness : ∃ t0 packet, requests silent !! 0%nat = Some (t0, packet) ∧ t0 + 5000 <= 5000.
Proof.
  destruct (ping_pace 4660 0 silent silent_reachable) as (_ & _ & _ & H & _).
  exact (proj1 (H 0%nat 5000 0%nat eq_refl)).
Defined.

End PingerExamples.
