(* ===== verification/Socks4.v ===== *)
(** * The SOCKS 4 messages of the Asio example

    (src/doc_searcher/data/input/html/boost_asio/example/socks4/socks4.hpp.) The
    request and the reply as the program lays them out on the wire, against a
    reader and a writer for the other side of the protocol. *)

From S2P Require Import Prelude CxxString Icmp.
Import Octets.

Module Socks4.

Definition version : Z := 4.

Inductive command_type := connect | bind.
Definition command_value (c : command_type) : Z :=
  match c with connect => 1 | bind => 2 end%Z.

#[export] Instance command_type_eq_dec : EqDecision command_type.
Proof. solve_decision. Defined.

(** tcp::endpoint: the port in host order, and the address. *)
Inductive address := v4 (octets : list Z) | v6 (octets : list Z).
Record endpoint := mkEndpoint { ep_address : address; ep_port : Z }.

Record request := mkRequest {
  version_ : Z;
  command_ : Z;
  port_high_byte_ : Z;
  port_low_byte_ : Z;
  address_ : list Z;
  user_id_ : list Z;
  null_byte_ : Z;
}.

(** The constructor; only IPv4 is supported. *)
Definition request_new (cmd : command_type) (ep : endpoint) (user_id : list Z) : outcome request :=
  match ep_address ep with
  | v6 _ => Throw system_error
  | v4 octets =>
      Ret (mkRequest version (command_value cmd) (Z.land (Z.shiftr (ep_port ep) 8) 255)
             (Z.land (ep_port ep) 255) octets user_id 0)
  end.

(** [request::buffers] *)
Definition request_buffers (r : request) : list (list Z) :=
  [[version_ r]; [command_ r]; [port_high_byte_ r]; [port_low_byte_ r]; address_ r; user_id_ r;
   [null_byte_ r]].

Inductive status_type :=
  | request_granted | request_failed | request_failed_no_identd | request_failed_bad_user_id.
Definition status_value (s : status_type) : Z :=
  match s with
  | request_granted => 90
  | request_failed => 91
  | request_failed_no_identd => 92
  | request_failed_bad_user_id => 93
  end%Z.

Record reply := mkReply {
  rnull_byte_ : Z;
  status_ : Z;
  rport_high_byte_ : Z;
  rport_low_byte_ : Z;
  raddress_ : list Z;
}.

(** [reply::buffers] filled by a read of the eight octets of the reply. *)
Definition reply_read (s : list Z) : reply :=
  mkReply (at_ s 0) (at_ s 1) (at_ s 2) (at_ s 3) (take 4 (drop 4 s)).

Definition success (r : reply) : bool :=
  (rnull_byte_ r =? 0)%Z && (status_ r =? status_value request_granted)%Z.

(** [reply::endpoint], with the intermediate values as unsigned short. *)
Definition reply_endpoint (r : reply) : endpoint :=
  let port := rport_high_byte_ r in
  let port := u16 (Z.land (Z.shiftl port 8) 65280) in
  let port := u16 (Z.lor port (rport_low_byte_ r)) in
  mkEndpoint (v4 (raddress_ r)) port.

(** ** The other side *)

(** What a SOCKS 4 server reads: version, command, port, address, and a user id up
    to the first null octet; what follows it is left. *)
Fixpoint split_null (s : list Z) : option (list Z * list Z) :=
  match s with
  | [] => None
  | c :: s =>
      if (c =? 0)%Z then Some ([], s)
      else match split_null s with
           | Some (u, rest) => Some (c :: u, rest)
           | None => None
           end
  end.

Definition server_reads (s : list Z) : option (command_type * endpoint * list Z * list Z) :=
  match s with
  | v :: c :: ph :: pl :: a1 :: a2 :: a3 :: a4 :: s =>
      if negb (v =? 4)%Z then None
      else
        match (if (c =? 1)%Z then Some connect else if (c =? 2)%Z then Some bind else None), split_null s with
        | Some cmd, Some (user, rest) =>
            Some (cmd, mkEndpoint (v4 [a1; a2; a3; a4]) (ph * 256 + pl)%Z, user, rest)
        | _, _ => None
        end
  | _ => None
  end.

(** What a server sends. *)
Definition server_writes (s : Z) (octets : list Z) (port : Z) : list Z :=
  [0%Z; s; (port / 256)%Z; (port mod 256)%Z] ++ octets.

Lemma split_null_app u rest : Forall (λ c, c ≠ 0%Z) u → split_null (u ++ 0%Z :: rest) = Some (u, rest).
Proof.
  induction 1 as [|c u Hc _ IH]; [done|]. cbn. rewrite (proj2 (Z.eqb_neq _ _)) by done. by rewrite IH.
Qed.

Lemma four (l : list Z) : length l = 4 → ∃ a b c d, l = [a; b; c; d].
Proof. destruct l as [|a [|b [|c [|d [|]]]]]; try done. eauto. Qed.

(** Two octets put together with shift and or. *)
Lemma join_octets h l : octet h → octet l → u16 (Z.lor (u16 (Z.land (Z.shiftl h 8) 65280)) l) = (h * 256 + l)%Z.
Proof.
  unfold octet. intros Hh Hl.
  assert (Z.land (Z.shiftl h 8) 65280 = Z.shiftl h 8) as ->.
  { change 65280%Z with (Z.shiftl 255 8). rewrite <-Z.shiftl_land. f_equal.
    rewrite land_255. by apply Z.mod_small. }
  rewrite (u16_small (Z.shiftl h 8)) by (rewrite shiftl_8; lia).
  assert (Z.lor (Z.shiftl h 8) l = Z.shiftl h 8 + l)%Z as ->.
  { rewrite <-Z.add_lor_land. assert (Z.land (Z.shiftl h 8) l = 0)%Z as ->; [|lia].
    replace l with (Z.land l 255) by (rewrite land_255; by apply Z.mod_small).
    rewrite (Z.land_comm l), Z.land_assoc. rewrite land_255, shiftl_8, Z_mod_mult. apply Z.land_0_l. }
  rewrite shiftl_8. apply u16_small. lia.
Qed.

(** The SOCKS 4 messages. A request for an IPv4 endpoint, with a user id
    without null octets, is read back by a server as the same command, endpoint and
    user id, and nothing of what follows it is taken; a request for an IPv6
    endpoint is refused with an exception; and of a reply the client reads the
    endpoint the server wrote, and success exactly for status 5A. *)
Theorem socks4_roundtrip cmd octets port user rest s :
  length octets = 4 → (0 <= port < 65536)%Z → Forall (λ c, c ≠ 0%Z) user →
  (∃ r, request_new cmd (mkEndpoint (v4 octets) port) user = Ret r ∧
     server_reads (mjoin (request_buffers r) ++ rest) = Some (cmd, mkEndpoint (v4 octets) port, user, rest)) ∧
  (∀ a, request_new cmd (mkEndpoint (v6 a) port) user = Throw system_error) ∧
  reply_endpoint (reply_read (server_writes s octets port)) = mkEndpoint (v4 octets) port ∧
  (success (reply_read (server_writes s octets port)) = true ↔ s = 90%Z).
Proof.
  intros (a & b & c & d & ->)%four Hp Hu.
  assert (0 <= port / 256 < 256)%Z as Hq by (split; [apply Z.div_pos|apply Z.div_lt_upper_bound]; lia).
  pose proof (Z.mod_pos_bound port 256) as Hm. pose proof (Z.div_mod port 256) as Hd.
  split_and!; [|done| |].
  - eexists. split; [reflexivity|]. cbn [request_buffers mjoin list_join app version_ command_
      port_high_byte_ port_low_byte_ address_ user_id_ null_byte_ ep_port].
    unfold server_reads. rewrite !land_255, shiftr_8, (Z.mod_small (port / 256)) by lia.
    replace ((user ++ [0%Z]) ++ rest) with (user ++ 0%Z :: rest) by by rewrite <-app_assoc.
    rewrite split_null_app by done. replace (port / 256 * 256 + port mod 256)%Z with port by lia.
    by destruct cmd.
  - unfold reply_endpoint, reply_read, server_writes. cbn -[u16 Z.land Z.lor Z.shiftl].
    f_equal. rewrite join_octets by (unfold octet; lia). lia.
  - unfold success. cbn. by rewrite Z.eqb_eq.
Qed.

Lemma socks4_witness :
  ∃ r, request_new connect (mkEndpoint (v4 [127; 0; 0; 1]%Z) 8080) [114; 111; 111; 116]%Z = Ret r ∧
    server_reads (mjoin (request_buffers r) ++ [7%Z]) =
      Some (connect, mkEndpoint (v4 [127; 0; 0; 1]%Z) 8080, [114; 111; 111; 116]%Z, [7%Z]).
Proof.
  apply (socks4_roundtrip connect [127; 0; 0; 1]%Z 8080 [114; 111; 111; 116]%Z [7%Z] 90);
    [reflexivity|lia|repeat constructor; lia].
Defined.

End Socks4.
