(* ===== verification/SocksClient.v ===== *)
(** * The SOCKS 4 client program

    (src/doc_searcher/data/input/html/boost_asio/example/socks4/sync_client.cpp.) The
    program asks a SOCKS 4 server to connect it to an HTTP server, sends a request
    through the connection and prints what comes back. It is put together with the
    messages of Socks4.v and with the other side's reader and writer there. *)

From S2P Require Import Prelude CxxString Icmp Socks4 Asio.
Import Octets Asio.

Module SocksClient.

(** [unsigned char] and [char] have the same bits. *)
Definition to_char (z : Z) : ascii := chr (Z.to_nat (z mod 256)).
Definition to_octet (c : ascii) : Z := Z.of_nat (Ascii.nat_of_ascii c).

(** [boost::asio::error::address_family_not_supported] (EAFNOSUPPORT on Linux) *)
Definition address_family_not_supported : error_code := other_error 97.

(** [boost::asio::read(socket, buffers)] of [n] bytes: pieces until they are there. The
    bytes and what is left on the socket, or the error that ended the stream before. *)
Fixpoint read_full (n : nat) (l : list bytes) (fin : error_code) : error_code + (bytes * list bytes) :=
  match n, l with
  | 0, _ => inr ([], l)
  | _, [] => inl fin
  | _, x :: l =>
      if (n <=? length x)%nat then inr (take n x, drop n x :: l)
      else match read_full (n - length x) l fin with
           | inl e => inl e
           | inr (r, l) => inr (x ++ r, l)
           end
  end.

(** [socket.read_some(buffer, error)] with a buffer of [n] bytes: a piece, or as much
    of it as fits; no bytes and the error at the end of the stream. *)
Fixpoint receive_some (n : nat) (l : list bytes) (fin : error_code) : error_code * bytes * list bytes :=
  match l with
  | [] => (fin, [], [])
  | [] :: l => receive_some n l fin
  | x :: l => if (length x <=? n)%nat then (success, x, l) else (success, take n x, drop n x :: l)
  end.

(** [boost::array<char, 512> response] *)
Definition response_size : nat := 512.

(** The loop: [while (s = socket.read_some(...)) std::cout.write(...)]. What is printed
    and the error it ends with. *)
Fixpoint print_response (fuel : nat) (l : list bytes) (fin : error_code) : option (bytes * error_code) :=
  match fuel with
  | 0 => None
  | S fuel =>
      match receive_some response_size l fin with
      | (error, [], _) => Some ([], error)
      | (_, data, l) =>
          match print_response fuel l fin with
          | Some (out, error) => Some (data ++ out, error)
          | None => None
          end
      end
  end.

(** One round for each byte that arrives, and one for the end. *)
Definition rounds (l : list bytes) : nat := S (length (mjoin l)).

Definition crlf : bytes := [chr 13; chr 10].
Definition http_request : bytes :=
  lit "GET / HTTP/1.0" ++ crlf ++ lit "Host: www.boost.org" ++ crlf ++ lit "Accept: */*" ++ crlf
  ++ lit "Connection: close" ++ crlf ++ crlf.

Definition usage : bytes :=
  lit "Usage: sync_client <socks4server> <socks4port> <user>" ++ [newline]
  ++ lit "Examples:" ++ [newline]
  ++ lit "  sync_client 127.0.0.1 1080 chris" ++ [newline]
  ++ lit "  sync_client localhost socks chris" ++ [newline].

(** What the network does: resolving and connecting to the SOCKS server, the endpoint
    of the web site, the two writes (an error and how much was sent before it) and
    what arrives. *)
Record network := mkNet {
  resolve_socks : error_code;
  connect_socks : error_code;
  resolve_http : error_code + Socks4.endpoint;
  write_socks : error_code * nat;
  write_http : error_code * nat;
  arrives : inbound;
}.

(** How the program ends: what it sent, what it printed, its exit status. *)
Record ending := mkEnd { sent : bytes; cout : bytes; status : Z }.

Definition write (s : bytes) (w : error_code * nat) : bytes := if failed w.1 then take w.2 s else s.

Section Program.
Context `{ErrorText}.

(** The handler of the exceptions: the text is printed and 0 returned. *)
Definition caught (sent out : bytes) (e : error_code) : ending :=
  mkEnd sent (out ++ lit "Exception: " ++ what e ++ [newline]) 0.

(** [std::hex << socks_reply.status()]: the status is an unsigned char, which the
    stream inserts as a character, whatever its base. *)
Definition put_status (r : Socks4.reply) : bytes := [to_char (Socks4.status_ r)].

(** After the request has been granted. *)
Definition fetch (n : network) (sent : bytes) (l : list bytes) : ending :=
  let sent := sent ++ write http_request (write_http n) in
  if failed (write_http n).1 then caught sent [] (write_http n).1
  else
    match print_response (rounds l) l (closing (arrives n)) with
    | None => mkEnd sent [] 0
    | Some (out, error) =>
        if negb (bool_decide (error = eof)) then caught sent out error else mkEnd sent out 0
    end.

(** [main] with the arguments after the name of the program. *)
Definition main (args : list bytes) (n : network) : ending :=
  match args with
  | [_; _; user] =>
      if failed (resolve_socks n) then caught [] [] (resolve_socks n)
      else if failed (connect_socks n) then caught [] [] (connect_socks n)
      else
        match resolve_http n with
        | inl e => caught [] [] e
        | inr http_endpoint =>
            match Socks4.request_new Socks4.connect http_endpoint (to_octet <$> user) with
            | Ret r =>
                let sent := write (to_char <$> mjoin (Socks4.request_buffers r)) (write_socks n) in
                if failed (write_socks n).1 then caught sent [] (write_socks n).1
                else
                  match read_full 8 (pieces (arrives n)) (closing (arrives n)) with
                  | inl e => caught sent [] e
                  | inr (octets, l) =>
                      let socks_reply := Socks4.reply_read (to_octet <$> octets) in
                      if negb (Socks4.success socks_reply) then
                        mkEnd sent (lit "Connection failed." ++ [newline] ++ lit "status = 0x"
                                    ++ put_status socks_reply) 1
                      else fetch n sent l
                  end
            | _ => caught [] [] address_family_not_supported
            end
        end
  | _ => mkEnd [] usage 1
  end.

End Program.

(** ** Reading *)

Lemma read_full_spec n l fin :
  if (n <=? length (mjoin l))%nat
  then ∃ l', read_full n l fin = inr (take n (mjoin l), l') ∧ mjoin l' = drop n (mjoin l)
  else read_full n l fin = inl fin.
Proof.
  revert n. induction l as [|x l IH]; intros [|n]; [by eexists|done|by eexists|].
  change (mjoin (x :: l)) with (x ++ mjoin l). rewrite length_app. cbn [read_full]. destruct (Nat.leb_spec (S n) (length x)) as [Hx|Hx].
  - bool_true. eexists. split; [by rewrite take_app_le by lia|]. cbn. by rewrite drop_app_le by lia.
  - specialize (IH (S n - length x)). revert IH.
    destruct (Nat.leb_spec (S n - length x) (length (mjoin l))); intros IH.
    + bool_true. destruct IH as (l' & -> & IH). exists l'.
      rewrite take_app_ge, drop_app_ge by lia. by rewrite IH.
    + bool_false. by rewrite IH.
Qed.

Lemma receive_some_spec n l fin e data l' :
  0 < n → receive_some n l fin = (e, data, l') →
  mjoin l = data ++ mjoin l' ∧ (data = [] → e = fin ∧ mjoin l = []).
Proof.
  intros Hn. induction l as [|[|c x] l IH]; cbn -[Nat.leb].
  - by intros [= <- <- <-].
  - intros (H1 & H2)%IH. done.
  - destruct (Nat.leb_spec (S (length x)) n); intros [= <- <- <-].
    + done.
    + destruct n as [|n]; [lia|]. cbn. split; [|done]. by rewrite app_assoc, take_drop.
Qed.

Lemma print_response_spec fuel l fin :
  length (mjoin l) < fuel → print_response fuel l fin = Some (mjoin l, fin).
Proof.
  revert l. induction fuel as [|fuel IH]; intros l Hf; [lia|]. cbn [print_response].
  destruct (receive_some response_size l fin) as [[e data] l'] eqn:E.
  apply receive_some_spec in E as [E1 E2]; [|cbv; lia]. destruct data as [|c data].
  - destruct E2 as [-> ->]; done.
  - rewrite E1 in *. rewrite length_app in Hf. cbn in Hf. by rewrite IH by lia.
Qed.

Lemma to_octet_char z : octet z → to_octet (to_char z) = z.
Proof.
  unfold octet, to_octet, to_char, chr. intros Hz. rewrite Z.mod_small by lia.
  rewrite Ascii.nat_ascii_embedding; lia.
Qed.

Lemma octets_chars s : Forall octet s → to_octet <$> (to_char <$> s) = s.
Proof.
  induction 1 as [|z s Hz _ IH]; [done|]. cbn. rewrite to_octet_char by done. f_equal. exact IH.
Qed.

Lemma to_octet_range c : octet (to_octet c).
Proof. unfold octet, to_octet. pose proof (Ascii.nat_ascii_bounded c). lia. Qed.

(** ** The session *)

(** Nothing fails on the way to the SOCKS server, and the web site is at [ep]. *)
Record reaches (n : network) (ep : Socks4.endpoint) : Prop := {
  reach_resolve : resolve_socks n = success;
  reach_connect : connect_socks n = success;
  reach_http : resolve_http n = inr ep;
  reach_write : failed (write_socks n).1 = false;
  reach_request : failed (write_http n).1 = false;
}.

(** The request on the wire. *)
Definition request_bytes (octets : list Z) (port : Z) (user : bytes) : bytes :=
  to_char <$> ([4; 1; port / 256; port mod 256]%Z ++ octets ++ (to_octet <$> user) ++ [0%Z]).

Lemma request_new_bytes octets port user :
  (0 <= port < 65536)%Z →
  ∃ r, Socks4.request_new Socks4.connect (Socks4.mkEndpoint (Socks4.v4 octets) port) (to_octet <$> user) = Ret r ∧
    to_char <$> mjoin (Socks4.request_buffers r) = request_bytes octets port user.
Proof.
  intros Hp. eexists. split; [reflexivity|]. unfold request_bytes.
  cbn [Socks4.request_buffers mjoin list_join Socks4.version_ Socks4.command_ Socks4.port_high_byte_
       Socks4.port_low_byte_ Socks4.address_ Socks4.user_id_ Socks4.null_byte_ Socks4.ep_port].
  rewrite !land_255, shiftr_8, (Z.mod_small (port / 256)).
  - done.
  - split; [apply Z.div_pos|apply Z.div_lt_upper_bound]; lia.
Qed.

Lemma http_request_octets : to_char <$> (to_octet <$> http_request) = http_request.
Proof. reflexivity. Qed.

(** [main] up to the reply of the SOCKS server. *)
Lemma main_reply `{ErrorText} h p octets port user n :
  reaches n (Socks4.mkEndpoint (Socks4.v4 octets) port) → (0 <= port < 65536)%Z →
  main [h; p; user] n =
    match read_full 8 (pieces (arrives n)) (closing (arrives n)) with
    | inl e => caught (request_bytes octets port user) [] e
    | inr (o, l) =>
        let r := Socks4.reply_read (to_octet <$> o) in
        if negb (Socks4.success r) then
          mkEnd (request_bytes octets port user)
            (lit "Connection failed." ++ [newline] ++ lit "status = 0x" ++ put_status r) 1
        else fetch n (request_bytes octets port user) l
    end.
Proof.
  intros [H1 H2 H3 H4 H5] Hp. unfold main. rewrite H1, H2, H3. cbn [failed].
  destruct (request_new_bytes octets port user Hp) as (r & -> & Hr).
  unfold write. rewrite H4, Hr. done.
Qed.

Lemma fetch_all `{ErrorText} n sent l :
  failed (write_http n).1 = false →
  fetch n sent l =
    if bool_decide (closing (arrives n) = eof) then mkEnd (sent ++ http_request) (mjoin l) 0
    else caught (sent ++ http_request) (mjoin l) (closing (arrives n)).
Proof.
  intros Hw. unfold fetch, write. rewrite Hw, print_response_spec by (unfold rounds; lia).
  by case_bool_decide.
Qed.

(** C38: the SOCKS 4 client against a SOCKS 4 server. With a user name as the command
    line can hold (no null character), whatever the pieces in which the network
    delivers: the server reads from the wire the command, the endpoint of the web site
    and the user name, and, after them, nothing but the HTTP request. When the server
    answers with status 5A, the program prints exactly the bytes that follow the eight
    of the reply, and returns 0; after an end other than that of the stream it
    prints the exception after them. With any other status it sends no HTTP request,
    prints the status (as a character) and returns 1; and when fewer than eight bytes
    arrive it reports how the stream ended. *)
Theorem socks_session `{ErrorText} h p octets port user n st octets' port' response :
  reaches n (Socks4.mkEndpoint (Socks4.v4 octets) port) →
  length octets = 4 → Forall octet octets → (0 <= port < 65536)%Z →
  Forall (λ c, to_octet c ≠ 0%Z) user →
  octet st → length octets' = 4 → Forall octet octets' → (0 <= port' < 65536)%Z →
  Socks4.server_reads (to_octet <$> request_bytes octets port user ++ http_request) =
    Some (Socks4.connect, Socks4.mkEndpoint (Socks4.v4 octets) port, to_octet <$> user, to_octet <$> http_request) ∧
  (all_of (arrives n) = (to_char <$> Socks4.server_writes st octets' port') ++ response →
   main [h; p; user] n =
     if (st =? 90)%Z then
       if bool_decide (closing (arrives n) = eof)
       then mkEnd (request_bytes octets port user ++ http_request) response 0
       else caught (request_bytes octets port user ++ http_request) response (closing (arrives n))
     else mkEnd (request_bytes octets port user)
            (lit "Connection failed." ++ [newline] ++ lit "status = 0x" ++ [to_char st]) 1) ∧
  (length (all_of (arrives n)) < 8 →
   main [h; p; user] n = caught (request_bytes octets port user) [] (closing (arrives n))).
Proof.
  intros Hn (a & b & c & d & ->)%Socks4.four Ho Hp Hu Hst (a' & b' & c' & d' & ->)%Socks4.four Ho' Hp'.
  assert (∀ q, 0 <= q < 65536 → octet (q / 256) ∧ octet (q mod 256))%Z as Hq.
  { intros q ?. unfold octet. pose proof (Z.mod_pos_bound q 256).
    split; [split; [apply Z.div_pos|apply Z.div_lt_upper_bound]|]; lia. }
  split_and!.
  - rewrite fmap_app. unfold request_bytes. rewrite octets_chars.
    2:{ repeat first [apply Forall_app; split|apply Forall_cons; split|apply Forall_nil];
        try (by apply Hq); try (cbv; lia); try done;
        [by repeat (apply Forall_cons in Ho as [? Ho])..|]. apply Forall_fmap, Forall_true. apply to_octet_range. }
    cbn [app Socks4.server_reads]. rewrite <-app_assoc. cbn [app].
    rewrite Socks4.split_null_app by (by apply Forall_fmap).
    pose proof (Z.div_mod port 256). replace (port / 256 * 256 + port mod 256)%Z with port by lia. done.
  - intros Ha. rewrite (main_reply h p [a; b; c; d] port user n Hn Hp).
    pose proof (read_full_spec 8 (pieces (arrives n)) (closing (arrives n))) as Hr.
    unfold all_of in Ha. rewrite Ha in Hr. rewrite length_app in Hr. cbn [Nat.leb length fmap list_fmap app
      Socks4.server_writes Nat.add] in Hr. destruct Hr as (l & -> & Hl). cbn in Hl.
    rewrite fetch_all, Hl, drop_0 by apply Hn. cbn -[to_octet to_char lit].
    unfold Socks4.success, put_status, Socks4.reply_read. cbn -[to_octet to_char lit].
    rewrite !to_octet_char by done. by destruct (st =? 90)%Z.
  - intros Hl. rewrite (main_reply h p [a; b; c; d] port user n Hn Hp).
    pose proof (read_full_spec 8 (pieces (arrives n)) (closing (arrives n))) as Hr. unfold all_of in Hl.
    rewrite (proj2 (Nat.leb_gt _ _)) in Hr by lia. by rewrite Hr.
Qed.

End SocksClient.

Module SocksClientExamples.
Import SocksClient.

#[local] Instance plain_text : ErrorText := {
  message := λ _, lit "error"; show_code := λ _, lit "error"; what := λ _, lit "error";
}.

(** A grant, cut in the middle of the reply and of the page. *)
Definition granted : network :=
  mkNet success success (inr (Socks4.mkEndpoint (Socks4.v4 [10; 0; 0; 1]%Z) 80)) (success, 0) (success, 0)
    (mkIn [to_char <$> [0; 90; 0]%Z; (to_char <$> [80; 10; 0; 0; 1]%Z) ++ lit "<p"; lit ">hi"] eof).

Example granted_prints :
  main [lit "localhost"; lit "socks"; lit "chris"] granted =
    mkEnd (request_bytes [10; 0; 0; 1]%Z 80 (lit "chris") ++ http_request) (lit "<p>hi") 0.
Proof. vm_compute. reflexivity. Qed.

Lemma socks_session_witness :
  reaches granted (Socks4.mkEndpoint (Socks4.v4 [10; 0; 0; 1]%Z) 80) ∧
  main [lit "localhost"; lit "socks"; lit "chris"] granted =
    mkEnd (request_bytes [10; 0; 0; 1]%Z 80 (lit "chris") ++ http_request) (lit "<p>hi") 0.
Proof.
  assert (reaches granted (Socks4.mkEndpoint (Socks4.v4 [10; 0; 0; 1]%Z) 80)) as Hr by (by split).
  split; [exact Hr|].
  refine (proj1 (proj2 (socks_session (lit "localhost") (lit "socks") [10; 0; 0; 1]%Z 80 (lit "chris") granted
    90 [10; 0; 0; 1]%Z 80 (lit "<p>hi") Hr _ _ _ _ _ _ _ _)) _); try reflexivity; try (unfold octet; lia).
  all: repeat apply Forall_cons_2; try apply Forall_nil_2; first [unfold octet; lia|discriminate].
Defined.

(** A refusal shows the status 5B as the character it stands for. *)
Example refused_prints :
  cout (main [lit "localhost"; lit "socks"; lit "chris"]
    (mkNet success success (inr (Socks4.mkEndpoint (Socks4.v4 [10; 0; 0; 1]%Z) 80)) (success, 0) (success, 0)
      (mkIn [to_char <$> [0; 91; 0; 80; 10; 0; 0; 1]%Z] eof))) =
  lit "Connection failed." ++ [newline] ++ lit "status = 0x[".
Proof. vm_compute. reflexivity. Qed.

End SocksClientExamples.
