(* ===== verification/Framing.v ===== *)
(** * Messages with hexadecimal fields: serialization and porthopper

    (src/doc_searcher/data/input/html/boost_asio/example/serialization/connection.hpp
    and porthopper/{protocol.hpp,server.cpp}.) Both write numbers with
    [std::setw(w) << std::hex] into fields of fixed width and read them back with
    [>> std::hex]. *)

From S2P Require Import Prelude CxxString HttpParser HttpReply HttpConnection.
Import HttpParser HttpReply.

(** ** Fields *)

Module HexField.

(** The digit the stream writes for a value below 16. *)
Definition hex_char (d : Z) : ascii :=
  if (d <? 10)%Z then chr (Z.to_nat (48 + d)) else chr (Z.to_nat (87 + d)).

(** The digits of a number; sixteen are enough for 64 bits. *)
Fixpoint hex_text (fuel : nat) (n : Z) : bytes :=
  match fuel with
  | 0 => []
  | S fuel => (if (n <? 16)%Z then [] else hex_text fuel (n / 16)) ++ [hex_char (n mod 16)]
  end.

(** [os << std::setw(w) << std::hex << n]: padded on the left, never cut. *)
Definition put_hex (w : nat) (n : Z) : bytes :=
  let t := hex_text 16 n in replicate (w - length t) " "%char ++ t.

Lemma hex_char_digit d : (0 <= d < 16)%Z → hex_digit (hex_char d) = Some d.
Proof.
  intros Hd. assert (d = 0 ∨ d = 1 ∨ d = 2 ∨ d = 3 ∨ d = 4 ∨ d = 5 ∨ d = 6 ∨ d = 7 ∨ d = 8 ∨ d = 9 ∨
    d = 10 ∨ d = 11 ∨ d = 12 ∨ d = 13 ∨ d = 14 ∨ d = 15)%Z as Hc by lia.
  by repeat (destruct Hc as [->|Hc]; [done|]); subst.
Qed.

(** Reading digits one by one. *)
Definition hex_val (v : Z) (s : bytes) : Z := foldl (λ v c, v * 16 + default 0 (hex_digit c))%Z v s.

Definition hex_chars (s : bytes) : Prop := Forall (λ c, is_Some (hex_digit c)) s.

Lemma hex_run_val s b v : hex_chars s → b = true ∨ s ≠ [] → hex_run b v s = Some (hex_val v s).
Proof.
  intros Hs. revert b v. induction Hs as [|c s [d Hd] Hs IH]; intros b v Hb; cbn [hex_run hex_val foldl].
  - by destruct Hb as [->|].
  - rewrite Hd. cbn. rewrite IH by auto. done.
Qed.

Lemma hex_text_spec fuel n :
  (0 <= n < 16 ^ Z.of_nat fuel)%Z → 0 < fuel →
  hex_chars (hex_text fuel n) ∧ hex_text fuel n ≠ [] ∧ hex_val 0 (hex_text fuel n) = n.
Proof.
  revert n. induction fuel as [|fuel IH]; intros n Hn Hf; [lia|]. cbn [hex_text].
  pose proof (Z.mod_pos_bound n 16) as Hm. pose proof (Z.div_mod n 16) as Hd.
  pose proof (hex_char_digit (n mod 16)) as Hc.
  assert (∀ s, s ++ [hex_char (n mod 16)] ≠ []) as Hne by (intros []; done).
  destruct (Z.ltb_spec n 16) as [Hlt|Hge].
  - split_and!; [|apply Hne|]; cbn [app].
    + constructor; [|constructor]. rewrite Hc by lia. eauto.
    + unfold hex_val. cbn [foldl]. rewrite Hc by lia. cbn. rewrite Z.mod_small by lia. done.
  - assert (0 <= n / 16 < 16 ^ Z.of_nat fuel)%Z as Hq.
    { rewrite Nat2Z.inj_succ, Z.pow_succ_r in Hn by lia.
      split; [apply Z.div_pos; lia|apply Z.div_lt_upper_bound; lia]. }
    assert (0 < fuel) as Hf'.
    { destruct fuel; [|lia]. cbn in Hq. assert (1 <= n / 16)%Z by (apply Z.div_le_lower_bound; lia). lia. }
    destruct (IH (n / 16)%Z Hq Hf') as (H1 & _ & H3). split_and!; [|apply Hne|].
    + apply Forall_app. split; [done|]. constructor; [|constructor]. rewrite Hc by lia. eauto.
    + unfold hex_val in *. rewrite foldl_app, H3. cbn [foldl]. rewrite Hc by lia. cbn. lia.
Qed.

(** A number below 16^w has at most [w] digits. *)
Lemma hex_text_length fuel n w :
  (0 <= n < 16 ^ Z.of_nat w)%Z → 0 < w → length (hex_text fuel n) ≤ w.
Proof.
  revert n w. induction fuel as [|fuel IH]; intros n w Hn Hw; cbn [hex_text length]; [lia|].
  rewrite length_app. cbn [length]. destruct (Z.ltb_spec n 16) as [Hlt|Hge]; [cbn; lia|].
  destruct w as [|w]; [lia|]. rewrite Nat2Z.inj_succ, Z.pow_succ_r in Hn by lia.
  assert (0 <= n / 16 < 16 ^ Z.of_nat w)%Z by (split; [apply Z.div_pos|apply Z.div_lt_upper_bound]; lia).
  destruct w as [|w]; [|specialize (IH (n / 16)%Z (S w)); lia].
  assert (1 <= n / 16)%Z by (apply Z.div_le_lower_bound; lia). cbn in *. lia.
Qed.

(** And one from 16^w on has more. *)
Lemma hex_text_long fuel n w :
  (16 ^ Z.of_nat w <= n < 16 ^ Z.of_nat fuel)%Z → w < length (hex_text fuel n).
Proof.
  revert n w. induction fuel as [|fuel IH]; intros n w Hn.
  { cbn in Hn. assert (0 < 16 ^ Z.of_nat w)%Z by (apply Z.pow_pos_nonneg; lia). lia. }
  cbn [hex_text]. rewrite length_app. cbn [length].
  destruct w as [|w]; [lia|]. rewrite !Nat2Z.inj_succ, !Z.pow_succ_r in Hn by lia.
  assert (0 < 16 ^ Z.of_nat w)%Z as Hp by (apply Z.pow_pos_nonneg; lia).
  rewrite (proj2 (Z.ltb_ge n 16)) by lia. specialize (IH (n / 16)%Z w).
  assert (16 ^ Z.of_nat w <= n / 16)%Z by (apply Z.div_le_lower_bound; lia).
  assert (n / 16 < 16 ^ Z.of_nat fuel)%Z by (apply Z.div_lt_upper_bound; lia). lia.
Qed.

Lemma skip_pad k s : skip_blanks (replicate k " "%char ++ s) = skip_blanks s.
Proof. by induction k. Qed.

(** A hexadecimal digit is neither a blank nor a sign nor the x of a prefix. *)
Lemma hex_digit_plain c :
  is_Some (hex_digit c) →
  is_space c = false ∧ c ≠ "-"%char ∧ c ≠ "+"%char ∧ c ≠ "x"%char ∧ c ≠ "X"%char.
Proof.
  intros Hc. assert (∀ x, hex_digit x = None → c ≠ x) as Hne by (intros x Hx ->; by destruct Hc; congruence).
  split_and!; [|by apply Hne..]. destruct (is_space c) eqn:E; [|done]. exfalso.
  revert Hc. unfold is_space, hex_digit in *. intros [d Hd].
  apply orb_true_iff in E as [E%Nat.eqb_eq|[E1%Nat.leb_le E2%Nat.leb_le]%andb_true_iff];
    revert Hd; bool_false; cbn; done.
Qed.

Lemma extract_plain s :
  hex_chars s → s ≠ [] → extract_hex s = Some (hex_val 0 s).
Proof.
  intros Hs Hne. destruct Hs as [|c s Hc Hs]; [done|].
  destruct (hex_digit_plain c Hc) as (Hsp & Hm & Hp & _).
  unfold extract_hex. cbn [skip_blanks]. rewrite Hsp.
  assert (hex_unsigned (c :: s) = hex_run false 0 (c :: s)) as Hu.
  { destruct Hs as [|d s Hd Hs]; [by destruct c as [[] [] [] [] [] [] [] []]|].
    destruct (hex_digit_plain d Hd) as (_ & _ & _ & Hx & HX).
    unfold hex_unsigned. destruct (decide (c = "0"%char)) as [->|Hc0].
    - destruct d as [[] [] [] [] [] [] [] []]; try reflexivity; by (destruct Hx + destruct HX).
    - by destruct c as [[] [] [] [] [] [] [] []]. }
  assert (hex_run false 0 (c :: s) = Some (hex_val 0 (c :: s))) as Hr.
  { apply hex_run_val; [by constructor|by right]. }
  rewrite <-Hr, <-Hu. by destruct c as [[] [] [] [] [] [] [] []].
Qed.

(** A number that fits its field is read back. *)
Lemma put_hex_spec w n :
  0 < w ≤ 16 → (0 <= n < 16 ^ Z.of_nat w)%Z →
  length (put_hex w n) = w ∧ extract_hex (put_hex w n) = Some n.
Proof.
  intros Hw Hn. assert (16 ^ Z.of_nat w <= 16 ^ Z.of_nat 16)%Z as Hp by (apply Z.pow_le_mono_r; lia).
  destruct (hex_text_spec 16 n) as (H1 & H2 & H3); [lia|lia|].
  pose proof (hex_text_length 16 n w Hn ltac:(lia)) as Hl. unfold put_hex.
  split; [rewrite length_app, length_replicate; lia|].
  pose proof (extract_plain _ H1 H2) as He. rewrite H3 in He. rewrite <-He.
  unfold extract_hex. by rewrite skip_pad.
Qed.

End HexField.

(** ** serialization/connection.hpp *)

Module Serialization.
Import HttpConnection HexField.

Definition header_length : nat := 8.

(** boost::archive::text_oarchive and text_iarchive for a type: what is written,
    and what is read back, if the text is an archive. *)
Class TextArchive (T : Type) := {
  save : T → bytes;
  load : bytes → option T;
}.
Class TextArchiveLaws (T : Type) `{TextArchive T} : Prop := load_save : ∀ t, load (save t) = Some t.

(** What a handler is called with. *)
Inductive error := no_error | invalid_argument | socket_error (e : error_code).

Section Connection.
Context `{TextArchive T}.

(** [connection::async_write]: the two buffers written, or an error. *)
Definition async_write (t : T) : error + (bytes * bytes) :=
  let outbound_data_ := save t in
  let header := put_hex header_length (Z.of_nat (length outbound_data_)) in
  if negb (length header =? header_length) then inl invalid_argument
  else inr (header, outbound_data_).

(** std::vector<char>::resize; sizes from 2^63 on are refused. *)
Definition resize (n : Z) : outcome nat :=
  if (2 ^ 63 <=? n)%Z then Throw length_error else Ret (Z.to_nat n).

(** [connection::handle_read_header]: an error for the handler, or the number of
    octets to read next. *)
Definition handle_read_header (e : error_code) (inbound_header_ : bytes) : outcome (error + nat) :=
  match e with
  | success =>
      match extract_hex inbound_header_ with
      | None => Ret (inl invalid_argument)
      | Some v => n ← resize (to_uint64 v); Ret (inr n)
      end
  | _ => Ret (inl (socket_error e))
  end.

(** [connection::handle_read_data]: [&inbound_data_[0]] needs an element. *)
Definition handle_read_data (e : error_code) (inbound_data_ : bytes) : outcome (error * option T) :=
  match e with
  | success =>
      match inbound_data_ with
      | [] => Undef OutOfBounds
      | _ =>
          match load inbound_data_ with
          | Some t => Ret (no_error, Some t)
          | None => Ret (invalid_argument, None)
          end
      end
  | _ => Ret (socket_error e, None)
  end.

(** [connection::async_read] against the octets that arrive; a read for which they
    do not suffice completes with an error. *)
Definition async_read (input : bytes) : outcome (error * option T * bytes) :=
  if length input <? header_length then Ret (socket_error other_error, None, [])
  else
    r ← handle_read_header success (take header_length input);
    let input := drop header_length input in
    match r with
    | inl e => Ret (e, None, input)
    | inr n =>
        if length input <? n then Ret (socket_error other_error, None, [])
        else
          '(e, t) ← handle_read_data success (take n input);
          Ret (e, t, drop n input)
    end.

(** A value with a short archive is read back. *)
Lemma s11n_read_back `{!TextArchiveLaws T} t rest :
  save t ≠ [] → (Z.of_nat (length (save t)) < 2 ^ 32)%Z →
  ∃ header, async_write t = inr (header, save t) ∧ length header = 8 ∧
    async_read (header ++ save t ++ rest) = Ret (no_error, Some t, rest).
Proof.
  intros Hne Hlt. unfold async_write.
  destruct (put_hex_spec header_length (Z.of_nat (length (save t)))) as [Hl He];
    [unfold header_length; lia|unfold header_length; lia|].
  rewrite Hl, Nat.eqb_refl. cbn [negb]. eexists. split; [reflexivity|]. split; [done|].
  unfold async_read. rewrite !length_app, (proj2 (Nat.ltb_ge _ _)) by lia.
  rewrite take_app_length', drop_app_length' by done. cbn [handle_read_header]. rewrite He.
  rewrite to_uint64_small by lia. unfold resize. rewrite (proj2 (Z.leb_gt _ _)) by lia.
  cbn [mbind outcome_bind]. rewrite Nat2Z.id, length_app, (proj2 (Nat.ltb_ge _ _)) by lia.
  rewrite take_app_length, drop_app_length. unfold handle_read_data. rewrite load_save.
  by destruct (save t).
Qed.

(** C37: messages of the serialization connection round-trip. A value whose archive
    is shorter than 4 GB is sent as a header of eight characters and the archive,
    and the peer reads exactly that value back and leaves what follows; a longer
    archive is refused before anything is written. *)
Theorem s11n_roundtrip `{!TextArchiveLaws T} t rest :
  save t ≠ [] → (Z.of_nat (length (save t)) < 2 ^ 64)%Z →
  if (Z.of_nat (length (save t)) <? 2 ^ 32)%Z then
    ∃ header, async_write t = inr (header, save t) ∧ length header = 8 ∧
      async_read (header ++ save t ++ rest) = Ret (no_error, Some t, rest)
  else async_write t = inl invalid_argument.
Proof.
  intros Hne Hsz. destruct (Z.ltb_spec (Z.of_nat (length (save t))) (2 ^ 32)) as [Hlt|Hge].
  - by apply s11n_read_back.
  - unfold async_write, put_hex. rewrite length_app, length_replicate.
    pose proof (hex_text_long 16 (Z.of_nat (length (save t))) header_length) as Hl.
    rewrite (proj2 (Nat.eqb_neq _ _)); [done|]. unfold header_length in *. cbn [Z.of_nat] in Hl.
    specialize (Hl ltac:(lia)). lia.
Qed.

(** A header that says length zero: the peer's next step is undefined. *)
Lemma zero_length_undefined rest :
  async_read (put_hex 8 0 ++ rest) = Undef OutOfBounds.
Proof.
  unfold async_read. rewrite length_app.
  change (length (put_hex 8 0)) with 8. rewrite (proj2 (Nat.ltb_ge _ _)) by (unfold header_length; lia).
  rewrite take_app_length', drop_app_length' by done.
  replace (handle_read_header success (put_hex 8 0)) with (Ret (inr 0) : outcome (error + nat)) by done.
  cbn. done.
Qed.

(** A header with a minus sign: an exception leaves the handler. *)
Lemma negative_length_throws rest :
  async_read (lit "      -1" ++ rest) = Throw length_error.
Proof.
  unfold async_read. rewrite length_app.
  change (length (lit "      -1")) with 8. rewrite (proj2 (Nat.ltb_ge _ _)) by (unfold header_length; lia).
  rewrite take_app_length' by done.
  by replace (handle_read_header success (lit "      -1")) with (Throw length_error : outcome (error + nat)).
Qed.

End Connection.

(** An archive of texts: a mark in front. *)
#[local] Instance ref_archive : TextArchive bytes := {
  save t := "T"%char :: t;
  load s := match s with "T"%char :: t => Some t | _ => None end;
}.

Lemma ref_archive_laws : TextArchiveLaws bytes.
Proof. by intros t. Qed.

Lemma s11n_witness :
  ∃ header, async_write (lit "stock") = inr (header, save (lit "stock")) ∧ length header = 8 ∧
    async_read (header ++ save (lit "stock") ++ lit "more") = Ret (no_error, Some (lit "stock"), lit "more").
Proof.
  pose proof (s11n_roundtrip (TextArchiveLaws0 := ref_archive_laws) (lit "stock") (lit "more")) as Hr.
  apply Hr; [done|cbn; lia].
Defined.

End Serialization.

(** ** porthopper/protocol.hpp and server.cpp *)

Module Porthopper.
Import HexField.

Definition encoded_port_size : nat := 4.
Definition control_request_size : nat := encoded_port_size * 2.
Definition payload_size : nat := 32.
Definition encoded_number_size : nat := 8.
Definition frame_size : nat := encoded_number_size + payload_size.

(** An ostrstream over an array of [size] characters: what does not fit is lost,
    the rest of the array keeps what it held. *)
Definition os_write (size : nat) (old text : bytes) : bytes :=
  take size text ++ drop (length (take size text)) old.

(** [is >> std::hex >> n] into an unsigned integer below [2^bits]; on failure the
    initial 0 stays. *)
Definition read_unsigned (bits : Z) (s : bytes) : Z :=
  match extract_hex s with
  | Some v => (v mod 2 ^ bits)%Z
  | None => 0%Z
  end.

Record control_request := mkControl { cdata_ : bytes }.

(** The constructor, on an array that held [junk]. *)
Definition control_new (junk : bytes) (old_port_number new_port_number : Z) : control_request :=
  mkControl (os_write control_request_size junk
               (put_hex encoded_port_size old_port_number ++ put_hex encoded_port_size new_port_number)).

Definition control_start (junk : bytes) (port : Z) : control_request := control_new junk 0 port.
Definition control_stop (junk : bytes) (port : Z) : control_request := control_new junk port 0.
Definition control_change (junk : bytes) (old_port new_port : Z) : control_request :=
  control_new junk old_port new_port.

Definition old_port (r : control_request) : Z :=
  read_unsigned 16 (take encoded_port_size (cdata_ r)).
Definition new_port (r : control_request) : Z :=
  read_unsigned 16 (take encoded_port_size (drop encoded_port_size (cdata_ r))).

Record frame := mkFrame { fdata_ : bytes }.

(** [os << std::setw(w) << s] pads a text on the left. *)
Definition put_text (w : nat) (s : bytes) : bytes := replicate (w - length s) " "%char ++ s.

Definition frame_new (junk : bytes) (frame_number : Z) (payload_data : bytes) : frame :=
  mkFrame (os_write frame_size junk
             (put_hex encoded_number_size frame_number ++ put_text payload_size (take payload_size payload_data))).

Definition frame_number (f : frame) : Z := read_unsigned 64 (take encoded_number_size (fdata_ f)).
Definition frame_payload (f : frame) : bytes := take payload_size (drop encoded_number_size (fdata_ f)).

(** ** The server's subscriptions *)

(** An endpoint: the client's address and a port. *)
Definition udp_endpoint : Type := bytes * Z.

Record hopper := mkHopper {
  subscribers_ : gset (bytes * Z);
  next_frame_number_ : Z;      (* unsigned long *)
}.

Definition hopper_new : hopper := mkHopper ∅ 1.

(** [server::handle_control_request_timer]; [None] when remote_endpoint fails. *)
Definition handle_control_request_timer (s : hopper) (remote : option bytes) (r : control_request) : hopper :=
  match remote with
  | None => s
  | Some addr =>
      let subs := if (old_port r =? 0)%Z then subscribers_ s else subscribers_ s ∖ {[ (addr, old_port r) ]} in
      let subs := if (new_port r =? 0)%Z then subs else subs ∪ {[ (addr, new_port r) ]} in
      mkHopper subs (next_frame_number_ s)
  end.

(** The payload: a star at [char_index], which the sine of the frame number gives. *)
Definition payload_of (char_index : Z) : bytes :=
  (λ i, if (Z.of_nat i =? char_index)%Z then "*"%char else "."%char) <$> seq 0 payload_size.

(** [server::handle_timer]: the frame, and who it is sent to. *)
Definition handle_timer (char_index : Z → Z) (junk : bytes) (s : hopper) :
    frame * gset (bytes * Z) * hopper :=
  (frame_new junk (next_frame_number_ s) (payload_of (char_index (next_frame_number_ s))),
   subscribers_ s, mkHopper (subscribers_ s) (to_uint64 (next_frame_number_ s + 1))).

Lemma os_write_exact size old text : length text = size → os_write size old text = text ++ drop size old.
Proof. intros Hl. unfold os_write. rewrite take_ge by lia. by rewrite Hl. Qed.

Lemma control_fields junk o n :
  (0 <= o < 65536)%Z → (0 <= n < 65536)%Z →
  old_port (control_new junk o n) = o ∧ new_port (control_new junk o n) = n.
Proof.
  intros Ho Hn.
  destruct (put_hex_spec encoded_port_size o) as [Hlo Heo]; [unfold encoded_port_size; lia|exact Ho|].
  destruct (put_hex_spec encoded_port_size n) as [Hln Hen]; [unfold encoded_port_size; lia|exact Hn|].
  unfold old_port, new_port, control_new, read_unsigned. cbn [cdata_].
  rewrite os_write_exact by (rewrite length_app; unfold control_request_size; lia).
  rewrite <-app_assoc, take_app_length', drop_app_length', take_app_length' by done.
  rewrite Heo, Hen, !Z.mod_small by lia. done.
Qed.

Lemma payload_length i : length (payload_of i) = payload_size.
Proof. unfold payload_of. by rewrite length_fmap, length_seq. Qed.

Lemma frame_fields junk n payload :
  (0 <= n < 2 ^ 32)%Z → length payload = payload_size →
  frame_number (frame_new junk n payload) = n ∧ frame_payload (frame_new junk n payload) = payload.
Proof.
  intros Hn Hp.
  destruct (put_hex_spec encoded_number_size n) as [Hl He]; [unfold encoded_number_size; lia|exact Hn|].
  assert (put_text payload_size (take payload_size payload) = payload) as Ht.
  { unfold put_text. rewrite take_ge by lia. by replace (payload_size - length payload) with 0 by lia. }
  unfold frame_number, frame_payload, frame_new, read_unsigned. cbn [fdata_]. rewrite Ht.
  rewrite os_write_exact by (rewrite length_app; unfold frame_size; lia).
  rewrite <-app_assoc, take_app_length', drop_app_length', take_app_length' by done.
  rewrite He, Z.mod_small by lia. done.
Qed.

(** Porthopper. For every pair of ports the server finds in a control request
    the ports the client put in: start subscribes the client's address with the
    port, stop takes that subscription away, change does both, and no other
    subscription is touched; and each frame sent, the first four thousand million,
    says its number and carries the payload. *)
Theorem porthopper_protocol junk s addr o n char_index :
  (0 < o < 65536)%Z → (0 < n < 65536)%Z → (0 <= next_frame_number_ s < 2 ^ 32)%Z →
  subscribers_ (handle_control_request_timer s (Some addr) (control_start junk n)) =
    subscribers_ s ∪ {[ (addr, n) ]} ∧
  subscribers_ (handle_control_request_timer s (Some addr) (control_stop junk o)) =
    subscribers_ s ∖ {[ (addr, o) ]} ∧
  subscribers_ (handle_control_request_timer s (Some addr) (control_change junk o n)) =
    subscribers_ s ∖ {[ (addr, o) ]} ∪ {[ (addr, n) ]} ∧
  (∀ r, handle_control_request_timer s None r = s) ∧
  let '(f, to, s') := handle_timer char_index junk s in
  frame_number f = next_frame_number_ s ∧ frame_payload f = payload_of (char_index (next_frame_number_ s)) ∧
  to = subscribers_ s ∧ next_frame_number_ s' = (next_frame_number_ s + 1)%Z.
Proof.
  intros Ho Hn Hf.
  destruct (control_fields junk 0 n) as [S1 S2]; [lia|lia|].
  destruct (control_fields junk o 0) as [P1 P2]; [lia|lia|].
  destruct (control_fields junk o n) as [C1 C2]; [lia|lia|].
  destruct (frame_fields junk (next_frame_number_ s) (payload_of (char_index (next_frame_number_ s))))
    as [F1 F2]; [done|apply payload_length|].
  unfold handle_control_request_timer, control_start, control_stop, control_change.
  rewrite S1, S2, P1, P2, C1, C2. cbn [Z.eqb subscribers_].
  rewrite !(proj2 (Z.eqb_neq o 0)), !(proj2 (Z.eqb_neq n 0)) by lia.
  split_and!; [done..|]. cbn. split_and!; [done|done|done|]. apply to_uint64_small. lia.
Qed.

Lemma porthopper_witness :
  subscribers_ (handle_control_request_timer hopper_new (Some (lit "::1")) (control_start [] 8080)) =
    ∅ ∪ {[ (lit "::1", 8080%Z) ]}.
Proof. apply (porthopper_protocol [] hopper_new (lit "::1") 1 8080 id); cbn; lia. Defined.

End Porthopper.
