(* ===== verification/PriorityQueue.v ===== *)
(** * Prioritised handlers

    (src/doc_searcher/data/input/html/boost_asio/example/invocation/
    prioritised_handlers.cpp.) Completion handlers are put into a
    std::priority_queue and run by [execute_all]. Among handlers of equal priority
    std::priority_queue promises no order, so that the loop is a relation. *)

From S2P Require Import Prelude.

Module PriorityQueue.

(** A queued handler: its priority, a name, and what running it adds to the queue. *)
Inductive queued_handler :=
  mkHandler (priority_ : Z) (name : nat) (adds : list queued_handler).

Definition priority (h : queued_handler) : Z := let 'mkHandler p _ _ := h in p.
Definition adds (h : queued_handler) : list queued_handler := let 'mkHandler _ _ l := h in l.

(** [operator<] *)
Definition less (a b : queued_handler) : bool := (priority a <? priority b)%Z.

(** std::priority_queue keeps its elements so that the first is [top()]: no other
    is greater. *)
Definition handler_priority_queue : Type := list queued_handler.

Definition heap (q : handler_priority_queue) : Prop :=
  match q with
  | [] => True
  | t :: rest => ∀ h, h ∈ rest → less t h = false
  end.

(** [add]: push of one element. *)
Definition add (q : handler_priority_queue) (h : queued_handler) (q' : handler_priority_queue) : Prop :=
  q' ≡ₚ h :: q ∧ heap q'.

(** [pop()] removes the first element. *)
Definition pop (q q' : handler_priority_queue) : Prop :=
  ∃ t, q ≡ₚ t :: q' ∧ head q = Some t ∧ heap q'.

(** [handler.execute()]: the handler's own calls of [add]. *)
Inductive add_all : handler_priority_queue → list queued_handler → handler_priority_queue → Prop :=
  | add_none q : add_all q [] q
  | add_one q h q1 l q2 : add q h q1 → add_all q1 l q2 → add_all q (h :: l) q2.

Definition execute (h : queued_handler) (q q' : handler_priority_queue) : Prop := add_all q (adds h) q'.

(** One round of the loop of [execute_all]: the top is copied and run, then the
    top, which may be another by then, is removed. *)
Inductive round : handler_priority_queue → queued_handler → handler_priority_queue → Prop :=
  | round_intro q h q1 q2 : head q = Some h → execute h q q1 → pop q1 q2 → round q h q2.

(** Rounds, with the handlers run in order. *)
Inductive rounds : handler_priority_queue → list queued_handler → handler_priority_queue → Prop :=
  | rounds_nil q : rounds q [] q
  | rounds_cons q h q1 l q2 : round q h q1 → rounds q1 l q2 → rounds q (h :: l) q2.

(** [execute_all] runs [l]: the loop ends when the queue is empty. *)
Definition execute_all (q : handler_priority_queue) (l : list queued_handler) : Prop := rounds q l [].

(** A handler that adds none. *)
Definition quiet (h : queued_handler) : Prop := adds h = [].

(** Any elements can be arranged with a greatest one first. *)
Lemma heap_exists q : ∃ q', q' ≡ₚ q ∧ heap q'.
Proof.
  induction q as [|h q (q' & Hp & Hh)]; [by exists []|].
  destruct q' as [|t r]; [exists [h]; split; [by rewrite Hp|cbn; set_solver]|].
  destruct (less t h) eqn:E.
  - exists (h :: t :: r). split; [by rewrite Hp|]. cbn. intros x [->|Hx]%elem_of_cons.
    + unfold less in *. apply Z.ltb_lt in E. apply Z.ltb_ge. lia.
    + specialize (Hh x Hx). unfold less in *. apply Z.ltb_lt in E. apply Z.ltb_ge in Hh. apply Z.ltb_ge. lia.
  - exists (t :: h :: r). split; [rewrite <-Hp; apply Permutation_swap|]. cbn.
    intros x [->|Hx]%elem_of_cons; [done|by apply Hh].
Qed.

(** A round that runs a quiet handler removes that handler. *)
Lemma round_quiet q h q' : quiet h → round q h q' → heap q' ∧ q ≡ₚ h :: q'.
Proof.
  intros Hq Hr. destruct Hr as [q h q1 q2 Hh He Hp]. unfold execute in He. rewrite Hq in He.
  inversion He; subst. destruct Hp as (t & Hp & Ht & Hheap). split; [done|]. congruence.
Qed.

Lemma heap_top q h : heap q → head q = Some h → ∀ x, x ∈ q → (priority x <= priority h)%Z.
Proof.
  destruct q as [|t r]; [done|]. intros Hh [= ->] x [->|Hx]%elem_of_cons; [lia|].
  by apply Z.ltb_ge, Hh.
Qed.

Lemma rounds_quiet q l q' :
  rounds q l q' → heap q → Forall quiet q →
  q ≡ₚ l ++ q' ∧ StronglySorted (λ a b, priority b <= priority a)%Z l.
Proof.
  induction 1 as [q|q h q1 l q2 Hr Hrs IH]; intros Hheap Hq; [by split; [|constructor]|].
  assert (head q = Some h) as Hh by by destruct Hr.
  assert (quiet h) as Hqh.
  { rewrite Forall_forall in Hq. apply Hq. destruct q; [done|]. injection Hh as ->. by left. }
  destruct (round_quiet q h q1 Hqh Hr) as [Hheap1 Hp].
  assert (Forall quiet q1) as Hq1 by (rewrite Hp in Hq; by apply Forall_cons_1 in Hq as [_ ?]).
  destruct (IH Hheap1 Hq1) as [H1 H2]. split; [by rewrite Hp, H1|].
  constructor; [done|]. rewrite Forall_forall. intros x Hx.
  apply (heap_top q h Hheap Hh). rewrite Hp, H1. apply elem_of_cons. right. apply elem_of_app. by left.
Qed.

(** The loop always gets to the end. *)
Lemma execute_all_quiet q : heap q → Forall quiet q → ∃ l, execute_all q l.
Proof.
  remember (length q) as n eqn:Hn. revert q Hn. induction n as [|n IH]; intros q Hn Hheap Hq.
  { destruct q; [|done]. exists []. constructor. }
  destruct q as [|h r]; [done|]. apply Forall_cons_1 in Hq as [Hh Hr].
  destruct (heap_exists r) as (r' & Hp & Hr').
  destruct (IH r') as [l Hl]; [|done|by rewrite Hp|].
  { rewrite Hp. cbn in Hn. lia. }
  exists (h :: l). eapply rounds_cons; [|exact Hl].
  eapply (round_intro _ _ (h :: r)); [done|unfold execute; rewrite Hh; constructor|].
  exists h. split_and!; [by rewrite Hp|done|done].
Qed.

(** When no handler adds another, as in the program, execute_all ends, runs
    every handler that is queued exactly once, and runs them in order of falling
    priority, however the queue orders handlers of equal priority. *)
Theorem execute_all_spec q :
  heap q → Forall quiet q →
  (∃ l, execute_all q l) ∧
  ∀ l, execute_all q l → l ≡ₚ q ∧ StronglySorted (λ a b, priority b <= priority a)%Z l.
Proof.
  intros Hheap Hq. split; [by apply execute_all_quiet|]. intros l Hl.
  destruct (rounds_quiet q l [] Hl Hheap Hq) as [Hp Hs]. split; [|done]. by rewrite Hp, app_nil_r.
Qed.

(** ** A handler that adds a more urgent one *)

Section Urgent.
Context (p : Z) (name : nat) (urgent : queued_handler) (Hurgent : (p < priority urgent)%Z).

Definition first : queued_handler := mkHandler p name [urgent].

(** After [first] has run the top of the queue is the one it added, and that is
    what is removed: the round ends where it began. *)
Lemma round_urgent h q : round [first] h q → h = first ∧ q = [first].
Proof using Hurgent.
  intros Hr. inversion Hr as [q0 h0 q1 q2 Hh He Hp]; subst. injection Hh as <-. split; [done|].
  unfold execute in He. cbn in He. inversion He as [|? ? q3 ? ? Hadd Hnone]; subst.
  inversion Hnone; subst. destruct Hadd as [Hperm Hheap]. destruct Hp as (t & Hpop & Ht & _).
  symmetry in Hperm. apply Permutation_length_2_inv in Hperm as [->| ->].
  - injection Ht as <-. apply Permutation_cons_inv in Hpop.
    by apply Permutation_length_1_inv in Hpop.
  - specialize (Hheap urgent ltac:(left)). unfold less in Hheap. apply Z.ltb_ge in Hheap. cbn in Hheap. lia.
Qed.

(** So execute_all never ends: it runs the first handler again and again, and the
    more urgent one never. *)
Lemma execute_all_livelock :
  round [first] first [first] ∧
  (∀ l q, rounds [first] l q → q = [first] ∧ Forall (λ h, h = first) l) ∧
  ∀ l, ¬ execute_all [first] l.
Proof using Hurgent.
  assert (∀ l q, rounds [first] l q → q = [first] ∧ Forall (λ h, h = first) l) as Hall.
  { intros l q Hr. remember [first] as q0 eqn:E. induction Hr as [q|q h q1 l q2 Hr Hrs IH]; subst; [done|].
    apply round_urgent in Hr as [-> ->]. destruct (IH eq_refl) as [-> ?]. by split; [|constructor]. }
  split_and!; [|done|].
  - eapply (round_intro _ _ [urgent; first]); [done| |].
    + eapply add_one; [|constructor]. split; [done|]. cbn. intros x ->%list_elem_of_singleton.
      unfold less. cbn. apply Z.ltb_ge. lia.
    + exists urgent. split_and!; [done|done|]. cbn. intros x Hx. by apply not_elem_of_nil in Hx.
  - intros l [Hq _]%Hall. done.
Qed.

End Urgent.

(** The three handlers of the program. *)
Definition sample : handler_priority_queue := [mkHandler 100 2 []; mkHandler 0 0 []; mkHandler 42 1 []].

Lemma execute_all_witness :
  (∃ l, execute_all sample l) ∧
  ∀ l, execute_all sample l → l ≡ₚ sample ∧ StronglySorted (λ a b, priority b <= priority a)%Z l.
Proof.
  apply (execute_all_spec sample); [|by repeat constructor]. cbn. intros h Hh.
  apply elem_of_cons in Hh as [->|Hh]; [done|]. by apply list_elem_of_singleton in Hh as ->.
Defined.

End PriorityQueue.

(** ** The program *)
Module PriorityMain.
Import PriorityQueue.

(** A wrapped handler, by its priority and the handler it wraps; calling it calls that
    handler, with whatever arguments. *)
Record wrapped_handler := mkWrapped { priority_ : Z; handler_ : nat }.

Definition wrap (priority : Z) (handler : nat) : wrapped_handler := mkWrapped priority handler.

(** [asio_handler_invoke]: what the io_service is about to call goes to the queue. *)
Definition function_of (h : wrapped_handler) : queued_handler := mkHandler (priority_ h) (handler_ h) [].
Definition asio_handler_invoke (h : wrapped_handler) (q q' : handler_priority_queue) : Prop :=
  add q (function_of h) q'.

Definition low_priority_handler : nat := 0.
Definition middle_priority_handler : nat := 1.
Definition high_priority_handler : nat := 2.

(** What the handlers print. *)
Definition prints (h : queued_handler) : string :=
  let 'mkHandler _ name _ := h in
  match name with
  | 0 => "Low priority handler"
  | 1 => "Middle priority handler"
  | _ => "High priority handler"
  end.

(** What main gives to the io_service: a posted handler, an accept whose connection has
    been made, and a timer that has expired. *)
Definition posted : list wrapped_handler :=
  [wrap 0 low_priority_handler; wrap 100 high_priority_handler; wrap 42 middle_priority_handler].

(** [run_one] or [poll_one] finds one of the operations complete. *)
Inductive deliver : list wrapped_handler * handler_priority_queue → list wrapped_handler * handler_priority_queue → Prop :=
  | deliver_one l h l' q q' : l ≡ₚ h :: l' → asio_handler_invoke h q q' → deliver (l, q) (l', q').

(** The loop: [run_one] returns 0 when no operation is left; otherwise it delivers one,
    [poll_one] as many more as are complete, and [execute_all] empties the queue. The
    handlers run in each round. *)
Inductive main_loop : list wrapped_handler → list (list queued_handler) → Prop :=
  | loop_end : main_loop [] []
  | loop_round l s l' q run rest :
      deliver (l, []) s → rtc deliver s (l', q) → execute_all q run → main_loop l' rest →
      main_loop l (run :: rest).

(** The lines on the console. *)
Definition console (runs : list (list queued_handler)) : list string := prints <$> mjoin runs.

Definition falling : list queued_handler → Prop := StronglySorted (λ a b, priority b <= priority a)%Z.

Lemma deliver_many s s' :
  rtc deliver s s' → heap s.2 → heap s'.2 ∧ (function_of <$> s.1) ++ s.2 ≡ₚ (function_of <$> s'.1) ++ s'.2.
Proof.
  induction 1 as [s|s1 s2 s3 Hst _ IH]; [done|]. intros _. destruct Hst as [l h l' q q' Hl [Hq Hh]].
  destruct (IH Hh) as [H1 H2]. split; [done|]. rewrite <-H2. cbn. rewrite Hq, Hl. cbn.
  by rewrite Permutation_middle.
Qed.

Lemma quiet_posted l : Forall quiet (function_of <$> l).
Proof. apply Forall_fmap, Forall_true. done. Qed.

(** A round runs what has been delivered, by falling priority. *)
Lemma round_runs l s l' q run :
  deliver (l, []) s → rtc deliver s (l', q) → execute_all q run →
  function_of <$> l ≡ₚ run ++ (function_of <$> l') ∧ falling run ∧ length l' < length l.
Proof.
  intros Hd Hr He. assert (rtc deliver (l, []) (l', q)) as Hall by by eapply rtc_l.
  destruct (deliver_many _ _ Hall) as [Hh Hp]; [done|]. cbn in Hh, Hp. rewrite app_nil_r in Hp.
  assert (Forall quiet q) as Hq.
  { pose proof (quiet_posted l) as H. rewrite Hp in H. by apply Forall_app in H as [_ ?]. }
  destruct (rounds_quiet q run [] He Hh Hq) as [Hrun Hs]. rewrite app_nil_r in Hrun.
  split_and!; [by rewrite Hp, Hrun, (comm (++))|done|].
  assert (∀ a b, rtc deliver a b → length b.1 ≤ length a.1) as Hle.
  { induction 1 as [|a b c Hab _ IH]; [done|]. destruct Hab as [m h m' p p' Hm _]. cbn in *.
    apply Permutation_length in Hm. cbn in Hm. lia. }
  apply Hle in Hr. inversion Hd as [m h m' p p' Hm _]; subst. apply Permutation_length in Hm. cbn in *. lia.
Qed.

(** Every operation can be delivered, all at once. *)
Lemma pq_deliver_all l q : heap q → ∃ q', rtc deliver (l, q) ([], q') ∧ heap q'.
Proof.
  revert q. induction l as [|h l IH]; intros q Hq; [by exists q|].
  destruct (heap_exists (function_of h :: q)) as (q1 & Hp & Hh).
  destruct (IH q1 Hh) as (q' & Hr & Hh'). exists q'. split; [|done].
  eapply rtc_l; [|exact Hr]. by eapply deliver_one.
Qed.

Lemma main_loop_runs l runs :
  main_loop l runs → mjoin runs ≡ₚ function_of <$> l ∧ Forall falling runs ∧ length runs ≤ length l.
Proof.
  induction 1 as [|l s l' q run rest Hd Hr He _ (IH1 & IH2 & IH3)]; [done|].
  destruct (round_runs l s l' q run Hd Hr He) as (Hp & Hs & Hlt). split_and!.
  - cbn. by rewrite IH1, Hp.
  - by constructor.
  - cbn. lia.
Qed.

(** C40: the program with prioritised handlers. However the io_service finds the three
    operations complete, the loop ends after at most three rounds; each handler runs
    exactly once, and those of one round by falling priority. The loop can always
    be run to its end. When all three are complete in the first round, the program
    prints the high, the middle and the low priority line in this order, although the low
    priority handler was posted first. *)
Theorem prioritised_main :
  (∃ runs, main_loop posted runs) ∧
  (∀ runs, main_loop posted runs →
     mjoin runs ≡ₚ function_of <$> posted ∧ Forall falling runs ∧ length runs ≤ 3) ∧
  (∀ run, main_loop posted [run] →
     console [run] = ["High priority handler"; "Middle priority handler"; "Low priority handler"]).
Proof.
  split_and!.
  - destruct (heap_exists [function_of (wrap 0 low_priority_handler)]) as (q1 & Hp1 & Hh1).
    destruct (pq_deliver_all [wrap 100 high_priority_handler; wrap 42 middle_priority_handler] q1 Hh1) as (q & Hr & Hh).
    destruct (deliver_many _ _ Hr Hh1) as [_ Hp]. cbn in Hp.
    destruct (execute_all_quiet q) as [run Hrun]; [done| |].
    { rewrite <-Hp, Hp1. repeat constructor. }
    exists [run]. eapply loop_round; [|exact Hr|exact Hrun|constructor].
    by apply (deliver_one _ (wrap 0 low_priority_handler) _ [] q1).
  - intros runs Hr. by apply (main_loop_runs posted).
  - intros run Hr. destruct (main_loop_runs posted [run] Hr) as (Hp & Hs & _). cbn in Hp. rewrite app_nil_r in Hp.
    apply Forall_cons_1 in Hs as [Hs _].
    assert (run = [mkHandler 100 2 []; mkHandler 42 1 []; mkHandler 0 0 []]) as ->; [|done].
    eapply (StronglySorted_unique_strong (λ a b, priority b <= priority a)%Z); [|exact Hs| |].
    + intros x y Hx Hy Hxy Hyx. rewrite Hp in Hx. cbn in Hx, Hy.
      rewrite !elem_of_cons in Hx, Hy. destruct Hx as [->|[->|[->|Hx]]]; [..|by apply not_elem_of_nil in Hx];
        (destruct Hy as [->|[->|[->|Hy]]]; [..|by apply not_elem_of_nil in Hy]); cbn in *; try done; lia.
    + repeat constructor; cbn; lia.
    + rewrite Hp. cbn. apply (Permutation_app_comm [_] [_; _]).
Qed.

End PriorityMain.
