(* ===== verification/Timeouts.v ===== *)
(** * The Asio server with deadlines

    (src/doc_searcher/data/input/html/boost_asio/example/timeouts/server.cpp.) A
    channel passes every line a client sends on to all its subscribers: the sessions
    and a UDP broadcaster. A session consists of four actors, chains of handlers
    that start one operation after the other: the reader, the writer, and one that
    watches the deadline of each. Time is the number of seconds; a timer that moves
    completes the waits on it, so that a watcher may run at any time. *)

From S2P Require Import Prelude CxxString HttpConnection.
Import HttpConnection.

Module Timeouts.

(** What the writer is doing: waiting for the queue, about to run after the wait
    has completed, writing the front of the queue, or finished. *)
Inductive writer := w_asleep | w_woken | w_writing | w_finished.

Record tcp_session := mkSession {
  is_open : bool;                     (* socket_ *)
  input_buffer_ : bytes;
  input_deadline_ : option Z;         (* None is pos_infin *)
  output_queue_ : list bytes;
  output_deadline_ : option Z;
  reader : bool;                      (* an async_read_until is outstanding *)
  output : writer;
  input_watch : bool;                 (* check_deadline is waiting *)
  output_watch : bool;
  sent : list bytes;                  (* what has been written; not kept by the program *)
  since : nat;                        (* datagrams before it joined; not kept *)
}.

Record server := mkServer {
  now : Z;
  subscribers_ : gset nat;            (* the sessions in the channel *)
  sessions : gmap nat tcp_session;
  next_session : nat;
  datagrams : list bytes;             (* what was delivered to the broadcaster *)
}.

(** ** tcp_session *)

Definition session_new (n : nat) : tcp_session :=
  mkSession true [] None [] None false w_finished false false [] n.

(** [non_empty_output_queue_.expires_at(neg_infin)] wakes the writer. *)
Definition wake (s : tcp_session) : tcp_session :=
  mkSession (is_open s) (input_buffer_ s) (input_deadline_ s) (output_queue_ s) (output_deadline_ s)
    (reader s) (match output s with w_asleep => w_woken | w => w end)
    (input_watch s) (output_watch s) (sent s) (since s).

Definition push_back (s : tcp_session) (m : bytes) : tcp_session :=
  mkSession (is_open s) (input_buffer_ s) (input_deadline_ s) (output_queue_ s ++ [m]) (output_deadline_ s)
    (reader s) (output s) (input_watch s) (output_watch s) (sent s) (since s).

(** [deliver] *)
Definition deliver (msg : bytes) (s : tcp_session) : tcp_session :=
  wake (push_back s (msg ++ [newline])).

(** [start_read] at time [t]. *)
Definition start_read (t : Z) (s : tcp_session) : tcp_session :=
  mkSession (is_open s) (input_buffer_ s) (Some (t + 30)%Z) (output_queue_ s) (output_deadline_ s)
    true (output s) (input_watch s) (output_watch s) (sent s) (since s).

Definition set_output (s : tcp_session) (w : writer) : tcp_session :=
  mkSession (is_open s) (input_buffer_ s) (input_deadline_ s) (output_queue_ s) (output_deadline_ s)
    (reader s) w (input_watch s) (output_watch s) (sent s) (since s).

(** [start_write] at time [t]. *)
Definition start_write (t : Z) (s : tcp_session) : tcp_session :=
  mkSession (is_open s) (input_buffer_ s) (input_deadline_ s) (output_queue_ s) (Some (t + 30)%Z)
    (reader s) w_writing (input_watch s) (output_watch s) (sent s) (since s).

(** [await_output] *)
Definition await_output (t : Z) (s : tcp_session) : tcp_session :=
  if negb (is_open s) then set_output s w_finished
  else if bool_decide (output_queue_ s = []) then set_output s w_asleep
  else start_write t s.

Definition set_watch (s : tcp_session) (input output_ : bool) : tcp_session :=
  mkSession (is_open s) (input_buffer_ s) (input_deadline_ s) (output_queue_ s) (output_deadline_ s)
    (reader s) (output s) input output_ (sent s) (since s).

(** [stop], as far as the session itself: the socket is closed and the timers are
    cancelled. *)
Definition close_session (s : tcp_session) : tcp_session :=
  wake (mkSession false (input_buffer_ s) (input_deadline_ s) (output_queue_ s) (output_deadline_ s)
          (reader s) (output s) (input_watch s) (output_watch s) (sent s) (since s)).

(** ** channel and server *)

Definition put (v : server) (i : nat) (s : tcp_session) : server :=
  mkServer (now v) (subscribers_ v) (<[i := s]> (sessions v)) (next_session v) (datagrams v).

(** [channel::join] and [channel::leave] *)
Definition join (v : server) (i : nat) : server :=
  mkServer (now v) (subscribers_ v ∪ {[i]}) (sessions v) (next_session v) (datagrams v).
Definition leave (v : server) (i : nat) : server :=
  mkServer (now v) (subscribers_ v ∖ {[i]}) (sessions v) (next_session v) (datagrams v).

(** [channel::deliver]: to the sessions in the channel, and to the broadcaster. *)
Definition channel_deliver (v : server) (msg : bytes) : server :=
  mkServer (now v) (subscribers_ v)
    (map_imap (λ i s, Some (if decide (i ∈ subscribers_ v) then deliver msg s else s)) (sessions v))
    (next_session v) (datagrams v ++ [msg]).

(** [udp_broadcaster::deliver]: the message as one datagram, and the error is ignored; a
    message longer than a datagram of the protocol ([limit]) is an error. *)
Definition udp_deliver (limit : Z) (msg : bytes) : list bytes :=
  if (Z.of_nat (length msg) <=? limit)%Z then [msg] else [].
(** What is broadcast, apart from losses. *)
Definition broadcast (limit : Z) (v : server) : list bytes := datagrams v ≫= udp_deliver limit.

(** [stop] *)
Definition stop (v : server) (i : nat) (s : tcp_session) : server :=
  put (leave v i) i (close_session s).

(** [start] *)
Definition start (v : server) (i : nat) (s : tcp_session) : server :=
  let v := join v i in
  let s := start_read (now v) s in
  let s := set_watch s true false in
  let s := await_output (now v) s in
  let s := set_watch s true true in
  put v i s.

Definition with_session (v : server) (i : nat) (f : tcp_session → outcome server) : outcome server :=
  match sessions v !! i with
  | Some s => f s
  | None => Undef NullDeref
  end.

(** What has arrived is in the buffer. *)
Definition fill_buffer (s : tcp_session) (data : bytes) : tcp_session :=
  mkSession (is_open s) (input_buffer_ s ++ data) (input_deadline_ s) (output_queue_ s)
    (output_deadline_ s) (reader s) (output s) (input_watch s) (output_watch s) (sent s) (since s).

(** The reader starts no further read. *)
Definition end_reader (s : tcp_session) : tcp_session :=
  mkSession (is_open s) (input_buffer_ s) (input_deadline_ s) (output_queue_ s)
    (output_deadline_ s) false (output s) (input_watch s) (output_watch s) (sent s) (since s).

(** The message is taken out of the buffer. *)
Definition take_line (s : tcp_session) : bytes * tcp_session :=
  let '(msg, rest) := break_line (input_buffer_ s) in
  (msg, mkSession (is_open s) rest (input_deadline_ s) (output_queue_ s) (output_deadline_ s)
          (reader s) (output s) (input_watch s) (output_watch s) (sent s) (since s)).

(** [handle_read], after [data] has been received into the buffer. *)
Definition handle_read (v : server) (i : nat) (ec : error_code) (data : bytes) : outcome server :=
  with_session v i (λ s,
    let s := fill_buffer s data in
    if negb (is_open s) then Ret (put v i (end_reader s))
    else
      match ec with
      | success =>
          let '(msg, s) := take_line s in
          let v := put v i s in
          let v :=
            if negb (bool_decide (msg = [])) then channel_deliver v msg
            else if bool_decide (output_queue_ s = []) then put v i (wake (push_back s [newline]))
            else v in
          with_session v i (λ s, Ret (put v i (start_read (now v) s)))
      | _ => Ret (stop v i (end_reader s))
      end).

(** [handle_write]; pop_front of an empty queue is undefined. *)
Definition handle_write (v : server) (i : nat) (ec : error_code) : outcome server :=
  with_session v i (λ s,
    let s := set_output s w_finished in
    if negb (is_open s) then Ret (put v i s)
    else
      match ec with
      | success =>
          match output_queue_ s with
          | [] => Undef OutOfBounds
          | m :: rest =>
              let s := mkSession (is_open s) (input_buffer_ s) (input_deadline_ s) rest (output_deadline_ s)
                         (reader s) (output s) (input_watch s) (output_watch s) (sent s ++ [m]) (since s) in
              Ret (put v i (await_output (now v) s))
          end
      | _ => Ret (stop v i s)
      end).

(** The two deadlines a watcher is bound to. *)
Inductive which := input_side | output_side.
Definition deadline_of (s : tcp_session) (d : which) : option Z :=
  match d with input_side => input_deadline_ s | output_side => output_deadline_ s end.
Definition watch_of (s : tcp_session) (d : which) : bool :=
  match d with input_side => input_watch s | output_side => output_watch s end.
Definition put_watch (s : tcp_session) (d : which) (b : bool) : tcp_session :=
  match d with
  | input_side => set_watch s b (output_watch s)
  | output_side => set_watch s (input_watch s) b
  end.

(** [deadline->expires_at() <= now()] *)
Definition expired (t : Z) (d : option Z) : bool :=
  match d with
  | Some d => (d <=? t)%Z
  | None => false
  end.

(** [check_deadline] *)
Definition check_deadline (v : server) (i : nat) (d : which) : outcome server :=
  with_session v i (λ s,
    let s := put_watch s d false in
    if negb (is_open s) then Ret (put v i s)
    else if expired (now v) (deadline_of s d) then Ret (stop v i s)
    else Ret (put v i (put_watch s d true))).

(** [server::handle_accept], and [start_accept] for the next session. *)
Definition handle_accept (v : server) (ec : error_code) : server :=
  let v := match ec with
           | success => start v (next_session v) (session_new (length (datagrams v)))
           | _ => v
           end in
  mkServer (now v) (subscribers_ v) (sessions v) (S (next_session v)) (datagrams v).

Definition server_new (t : Z) : server := mkServer t ∅ ∅ 0 [].

(** ** The steps *)

Inductive step : server → outcome server → Prop :=
  | step_time v t : (now v <= t)%Z →
      step v (Ret (mkServer t (subscribers_ v) (sessions v) (next_session v) (datagrams v)))
  | step_accept v ec : step v (Ret (handle_accept v ec))
  | step_read v i s ec data :
      sessions v !! i = Some s → reader s = true →
      (ec = success → newline ∈ input_buffer_ s ++ data) → step v (handle_read v i ec data)
  | step_wake v i s :
      sessions v !! i = Some s → output s = w_woken → step v (Ret (put v i (await_output (now v) s)))
  | step_write v i s ec :
      sessions v !! i = Some s → output s = w_writing → step v (handle_write v i ec)
  | step_check v i s d :
      sessions v !! i = Some s → watch_of s d = true → step v (check_deadline v i d).

Inductive reachable (t0 : Z) : server → Prop :=
  | reach_new : reachable t0 (server_new t0)
  | reach_step v v' : reachable t0 v → step v (Ret v') → reachable t0 v'.

(** ** The invariant *)

(** The messages among what is queued: everything but heartbeats. *)
Definition messages (l : list bytes) : list bytes := filter (λ m, m ≠ [newline]) l.

Record open_ok (v : server) (i : nat) (s : tcp_session) : Prop := {
  ok_member : i ∈ subscribers_ v;
  ok_reader : reader s = true;
  ok_writer : match output s with
              | w_asleep => output_queue_ s = []
              | w_woken => True
              | w_writing => output_queue_ s ≠ []
              | w_finished => False
              end;
  ok_watch : input_watch s = true ∧ output_watch s = true;
  ok_deadline : ∃ d, input_deadline_ s = Some d ∧ (d <= now v + 30)%Z;
  ok_messages : messages (sent s ++ output_queue_ s) =
                  (λ m, m ++ [newline]) <$> drop (since s) (datagrams v);
  ok_since : since s ≤ length (datagrams v);
}.

Record inv (v : server) : Prop := {
  inv_sessions : ∀ i s, sessions v !! i = Some s →
    i < next_session v ∧ if is_open s then open_ok v i s else i ∉ subscribers_ v;
  inv_members : ∀ i, i ∈ subscribers_ v → is_Some (sessions v !! i);
  inv_datagrams : Forall (λ m, m ≠ []) (datagrams v);
}.

(** Replacing one session. *)
Lemma timeouts_inv_put v i s s' :
  inv v → sessions v !! i = Some s →
  (if is_open s' then open_ok v i s' else i ∉ subscribers_ v) → inv (put v i s').
Proof.
  intros Hi Hs Hok. destruct (inv_sessions _ Hi i s Hs) as [Hn _]. split; cbn.
  - intros j d [[<- <-]|[_ Hj]]%lookup_insert_Some.
    + split; [done|]. destruct (is_open s'); [|done]. by destruct Hok.
    + destruct (inv_sessions _ Hi j d Hj) as [? Hd]. split; [done|]. destruct (is_open d); [|done]. by destruct Hd.
  - intros j Hj. destruct (decide (i = j)) as [->|]; [rewrite lookup_insert_eq; eauto|].
    rewrite lookup_insert_ne by done. by apply inv_members.
  - apply Hi.
Qed.

Lemma timeouts_inv_stop v i s s0 : inv v → sessions v !! i = Some s0 → inv (stop v i s).
Proof.
  intros Hi Hs. destruct (inv_sessions _ Hi i s0 Hs) as [Hn _]. split; cbn.
  - intros j d [[<- <-]|[Hne Hj]]%lookup_insert_Some; [cbn; split; [done|set_solver]|].
    destruct (inv_sessions _ Hi j d Hj) as [? Hd]. split; [done|].
    destruct (is_open d); [|set_solver]. destruct Hd. split; try done. cbn. set_solver.
  - intros j [Hj _]%elem_of_difference. destruct (decide (i = j)) as [->|]; [rewrite lookup_insert_eq; eauto|].
    rewrite lookup_insert_ne by done. by apply inv_members.
  - apply Hi.
Qed.

Lemma messages_app a b : messages (a ++ b) = messages a ++ messages b.
Proof. apply filter_app. Qed.

Lemma messages_line m : m ≠ [] → messages [m ++ [newline]] = [m ++ [newline]].
Proof.
  intros Hm. unfold messages. rewrite filter_cons_True; [done|]. by destruct m as [|a [|]].
Qed.

(** Waking the writer never loses it. *)
Lemma writer_ok_wake s m :
  match output s with
  | w_asleep => output_queue_ s = [] | w_woken => True | w_writing => output_queue_ s ≠ [] | w_finished => False
  end →
  match output (wake (push_back s m)) with
  | w_asleep => output_queue_ (wake (push_back s m)) = [] | w_woken => True
  | w_writing => output_queue_ (wake (push_back s m)) ≠ [] | w_finished => False
  end.
Proof. destruct s as [? ? ? q ? ? w]. cbn. destruct w; cbn; try done. by destruct q. Qed.

Lemma timeouts_inv_channel v msg : inv v → msg ≠ [] → inv (channel_deliver v msg).
Proof.
  intros Hi Hm.
  assert (∀ i s', sessions (channel_deliver v msg) !! i = Some s' → ∃ s, sessions v !! i = Some s ∧
            s' = if decide (i ∈ subscribers_ v) then deliver msg s else s) as Hlook.
  { intros i s'. cbn. rewrite map_lookup_imap. destruct (sessions v !! i) as [s|]; [|done].
    cbn. intros [= <-]. eauto. }
  split; cbn [channel_deliver subscribers_ next_session datagrams].
  - intros i s' (s & Hs & ->)%Hlook. destruct (inv_sessions _ Hi i s Hs) as [Hn Hok]. split; [done|].
    case_decide as Hd.
    + assert (is_open s = true) as Ho by (destruct (is_open s); [done|contradiction]).
      cbn [deliver wake push_back is_open]. rewrite Ho in *. destruct Hok as [? Hr Hw Hwa Hdl Hms Hsi].
      split; try done; cbn [channel_deliver datagrams].
      * by apply writer_ok_wake.
      * cbn [deliver wake push_back sent output_queue_ since].
        rewrite app_assoc, messages_app, Hms, messages_line by done.
        by rewrite drop_app_le, fmap_app by done.
      * rewrite length_app. cbn [deliver wake push_back since]. lia.
    + destruct (is_open s); [by destruct Hok|done].
  - intros i Hp. cbn. rewrite map_lookup_imap. destruct (inv_members _ Hi i Hp) as [s ->]. cbn. eauto.
  - apply Forall_app. split; [apply Hi|]. by constructor.
Qed.

Lemma open_ok_read v i s t :
  open_ok v i s → (t <= now v)%Z → open_ok v i (start_read t s).
Proof. intros [] Ht. split; try done. cbn. exists (t + 30)%Z. split; [done|lia]. Qed.

Lemma timeouts_inv_read v i s ec data :
  inv v → sessions v !! i = Some s → (ec = success → newline ∈ input_buffer_ s ++ data) →
  ∃ v', handle_read v i ec data = Ret v' ∧ inv v'.
Proof.
  intros Hi Hs Hnl. destruct (inv_sessions _ Hi i s Hs) as [Hn Hok].
  unfold handle_read, with_session at 1. rewrite Hs. cbn zeta.
  change (is_open (fill_buffer s data)) with (is_open s).
  destruct (is_open s) eqn:Ho; cbn [negb].
  2: { eexists. split; [done|]. apply (timeouts_inv_put v i s); [done..|]. cbn. by rewrite Ho. }
  destruct ec; [|by eexists; split; [done|]; eapply timeouts_inv_stop..].
  unfold take_line. destruct (break_line (input_buffer_ (fill_buffer s data))) as [msg rest].
  set (s1 := mkSession _ rest _ _ _ _ _ _ _ _ _).
  assert (open_ok v i s1) as Hok1 by (by destruct Hok).
  assert (inv (put v i s1)) as Hi1.
  { apply (timeouts_inv_put v i s); [done..|]. cbn. by rewrite Ho. }
  cbn zeta. set (v1 := put v i s1) in *.
  assert (sessions v1 !! i = Some s1) as Hs1 by apply lookup_insert_eq.
  match goal with |- context [with_session ?w i _] => set (v2 := w) end.
  assert (inv v2 ∧ ∃ s2, sessions v2 !! i = Some s2 ∧ is_open s2 = true) as (Hi2 & s2 & Hs2 & Ho2).
  { unfold v2. case_bool_decide as Hm; cbn [negb].
    - case_bool_decide as Hq.
      + split; [|eexists; split; [apply lookup_insert_eq|by cbn]].
        apply (timeouts_inv_put v1 i s1); [done..|]. cbn [wake push_back is_open s1]. cbn. rewrite Ho.
        destruct Hok1 as [Hmem Hr Hw Hwa Hdl Hms Hsi].
        split; try done; [by apply writer_ok_wake|]. cbn [wake push_back sent output_queue_ since].
        rewrite app_assoc, messages_app, Hms. by rewrite app_nil_r.
      + split; [done|]. by exists s1.
    - split; [by apply timeouts_inv_channel|]. cbn. rewrite map_lookup_imap, lookup_insert_eq. cbn.
      eexists. split; [done|]. by case_decide. }
  unfold with_session. rewrite Hs2. eexists. split; [done|].
  apply (timeouts_inv_put v2 i s2); [done..|]. cbn [start_read is_open]. rewrite Ho2.
  destruct (inv_sessions _ Hi2 i s2 Hs2) as [_ Hok2]. rewrite Ho2 in Hok2. by apply open_ok_read.
Qed.

Lemma await_output_ok v i s :
  is_open s = true → open_ok v i (set_output s w_woken) →
  open_ok v i (await_output (now v) s) ∧ is_open (await_output (now v) s) = true.
Proof.
  intros Ho []. unfold await_output. rewrite Ho. cbn [negb]. case_bool_decide; (split; [by split|done]).
Qed.

Lemma timeouts_inv_wake v i s :
  inv v → sessions v !! i = Some s → output s = w_woken → inv (put v i (await_output (now v) s)).
Proof.
  intros Hi Hs Hw. destruct (inv_sessions _ Hi i s Hs) as [_ Hok]. apply (timeouts_inv_put v i s); [done..|].
  destruct (is_open s) eqn:Ho.
  - destruct (await_output_ok v i s Ho) as [H1 H2]; [by destruct Hok|]. by rewrite H2.
  - unfold await_output. rewrite Ho. cbn. by rewrite Ho.
Qed.

Lemma timeouts_inv_write v i s ec :
  inv v → sessions v !! i = Some s → output s = w_writing → ∃ v', handle_write v i ec = Ret v' ∧ inv v'.
Proof.
  intros Hi Hs Hw. destruct (inv_sessions _ Hi i s Hs) as [_ Hok].
  unfold handle_write, with_session. rewrite Hs. cbn zeta.
  change (is_open (set_output s w_finished)) with (is_open s).
  destruct (is_open s) eqn:Ho; cbn [negb].
  2: { eexists. split; [done|]. apply (timeouts_inv_put v i s); [done..|]. cbn. by rewrite Ho. }
  destruct ec; [|by eexists; split; [done|]; eapply timeouts_inv_stop..].
  destruct Hok as [Hmem Hr Hwr Hwa Hdl Hms Hsi]. rewrite Hw in Hwr. cbn [set_output output_queue_].
  destruct (output_queue_ s) as [|m q] eqn:Eq; [done|]. eexists. split; [done|].
  apply (timeouts_inv_put v i s); [done..|].
  edestruct (await_output_ok v i) as [H1 H2]; [| |rewrite H2; exact H1]; cbn.
  - done.
  - split; try done. cbn. rewrite <-app_assoc. exact Hms.
Qed.

Lemma timeouts_inv_check v i s d :
  inv v → sessions v !! i = Some s → watch_of s d = true → ∃ v', check_deadline v i d = Ret v' ∧ inv v'.
Proof.
  intros Hi Hs Hw. destruct (inv_sessions _ Hi i s Hs) as [_ Hok].
  unfold check_deadline, with_session. rewrite Hs. cbn zeta.
  assert (is_open (put_watch s d false) = is_open s) as -> by by destruct d.
  destruct (is_open s) eqn:Ho; cbn [negb].
  2: { eexists. split; [done|]. apply (timeouts_inv_put v i s); [done..|]. by destruct d; cbn; rewrite Ho. }
  destruct (expired _ _); eexists; (split; [done|]); [by eapply timeouts_inv_stop|].
  apply (timeouts_inv_put v i s); [done..|].
  assert (put_watch (put_watch s d false) d true = s) as ->; [|by rewrite Ho].
  destruct s, d; cbn in *; by subst.
Qed.

Lemma timeouts_inv_accept v ec : inv v → inv (handle_accept v ec).
Proof.
  intros Hi. unfold handle_accept.
  assert (∀ w, inv w → inv (mkServer (now w) (subscribers_ w) (sessions w) (S (next_session w)) (datagrams w)))
    as Hskip.
  { intros w Hw. split; cbn; [|apply Hw..]. intros i s Hs. destruct (inv_sessions _ Hw i s Hs) as [? Hok].
    split; [lia|]. destruct (is_open s); [by destruct Hok|done]. }
  destruct ec; [|by apply Hskip..]. set (n := next_session v).
  assert (sessions v !! n = None) as Hfresh.
  { destruct (sessions v !! n) as [s|] eqn:E; [|done]. apply (inv_sessions _ Hi) in E as [? _]. lia. }
  split; cbn.
  - intros i s [[<- <-]|[Hne Hs]]%lookup_insert_Some.
    + split; [lia|]. cbn. split; cbn; try done; [set_solver|exists (now v + 30)%Z; split; [done|lia]|].
      by rewrite drop_ge.
    + destruct (inv_sessions _ Hi i s Hs) as [? Hok]. split; [lia|].
      destruct (is_open s); [destruct Hok; split; try done; cbn; set_solver|].
      apply not_elem_of_union. split; [done|]. apply not_elem_of_singleton. congruence.
  - intros i [Hp|Hp]%elem_of_union.
    + destruct (decide (n = i)) as [<-|]; [rewrite lookup_insert_eq; eauto|].
      rewrite lookup_insert_ne by done. by apply inv_members.
    + apply elem_of_singleton in Hp as ->. rewrite lookup_insert_eq. eauto.
  - apply Hi.
Qed.

Lemma timeouts_inv_time v t :
  inv v → (now v <= t)%Z →
  inv (mkServer t (subscribers_ v) (sessions v) (next_session v) (datagrams v)).
Proof.
  intros Hi Ht. split; cbn; [|apply Hi..]. intros i s Hs. destruct (inv_sessions _ Hi i s Hs) as [? Hok].
  split; [done|]. destruct (is_open s); [|done]. destruct Hok as [? ? ? ? (d & ? & ?) ? ?].
  split; try done. exists d. cbn. split; [done|lia].
Qed.

Lemma timeouts_step_inv v o : inv v → step v o → ∃ v', o = Ret v' ∧ inv v'.
Proof.
  intros Hi Hs. destruct Hs as [v t Ht|v ec|v i s ec data Hs Hr Hn|v i s Hs Hw|v i s ec Hs Hw|v i s d Hs Hw].
  - eexists. split; [done|]. by apply timeouts_inv_time.
  - eexists. split; [done|]. by apply timeouts_inv_accept.
  - by eapply timeouts_inv_read.
  - eexists. split; [done|]. by apply timeouts_inv_wake.
  - by eapply timeouts_inv_write.
  - by eapply timeouts_inv_check.
Qed.

Lemma timeouts_reachable_inv t0 v : reachable t0 v → inv v.
Proof.
  induction 1 as [|v v' _ IH Hs].
  - split; cbn; [|set_solver|constructor]. intros i s Hs. by rewrite lookup_empty in Hs.
  - by destruct (timeouts_step_inv _ _ IH Hs) as (? & [= <-] & ?).
Qed.


(** What is broadcast are the messages the sessions get, in order, but for those that do
    not fit a datagram; and none is empty. *)
Lemma broadcast_spec t0 v limit :
  reachable t0 v →
  broadcast limit v = filter (λ m, (Z.of_nat (length m) <= limit)%Z) (datagrams v) ∧
  Forall (λ m, m ≠ []) (broadcast limit v).
Proof.
  intros Hr. pose proof (inv_datagrams _ (timeouts_reachable_inv _ _ Hr)) as Hne.
  assert (broadcast limit v = filter (λ m, (Z.of_nat (length m) <= limit)%Z) (datagrams v)) as E.
  { unfold broadcast. generalize (datagrams v) as l. induction l as [|m l IH]; [done|].
    rewrite bind_cons, filter_cons, IH. unfold udp_deliver. destruct (Z.leb_spec (Z.of_nat (length m)) limit).
    - by rewrite decide_True by lia.
    - by rewrite decide_False by lia. }
  split; [done|]. rewrite E. apply Forall_forall. intros m [_ Hm]%list_elem_of_filter.
  rewrite Forall_forall in Hne. by apply Hne.
Qed.

(** A client joins at time 100 and sends a line; the writer is woken. *)
Definition joined : server := handle_accept (server_new 100) success.

Definition spoken : server :=
  mkServer 100 {[0]}
    {[ 0 := mkSession true [] (Some 130%Z) [lit "hi" ++ [newline]] None true w_woken true true [] 0 ]}
    1 [lit "hi"].

Lemma spoken_state : reachable 100 spoken.
Proof.
  eapply reach_step; [eapply reach_step; [apply reach_new|apply (step_accept _ success)]|].
  replace (Ret spoken) with (handle_read joined 0 success (lit "hi" ++ [newline]))
    by (vm_compute; reflexivity).
  eapply step_read; [vm_compute; reflexivity|reflexivity|]. intros _. cbn. set_solver.
Qed.

(** The output deadline is not moved when a write completes. A session that has
    sent everything, whose client has been heard of 20 seconds ago, is closed by the
    watcher of its output. *)
Definition idle : tcp_session :=
  mkSession true [] (Some 140%Z) [] (Some 130%Z) true w_asleep true true [lit "hi" ++ [newline]] 0.

Definition quiet : server := mkServer 130 {[0]} {[ 0 := idle ]} 1 [lit "hi"].

Lemma reach_ret t0 v o v' : reachable t0 v → step v o → o = Ret v' → reachable t0 v'.
Proof. intros Hr Hs ->. by eapply reach_step. Qed.

Lemma idle_closed :
  reachable 100 quiet ∧ output_queue_ idle = [] ∧ output idle = w_asleep ∧
  ∃ v s, check_deadline quiet 0 output_side = Ret v ∧ sessions v !! 0 = Some s ∧ is_open s = false.
Proof.
  split_and!; [|done|done|by eexists _, _; split; [reflexivity|]; split; [apply lookup_insert_eq|]].
  set (at_ := λ t s, mkServer t {[0]} {[ 0 := s ]} 1 [lit "hi"]).
  set (busy := λ d, mkSession true [] (Some d) [lit "hi" ++ [newline]] (Some 130%Z) true w_writing true true [] 0).
  assert (∀ t s, sessions (at_ t s) !! 0 = Some s) as Hat by (intros; apply lookup_insert_eq).
  assert (reachable 100 (at_ 100 (busy 130)))%Z as H1.
  { eapply reach_ret; [exact spoken_state|eapply (step_wake _ 0); [apply lookup_insert_eq|done]|].
    vm_compute. reflexivity. }
  assert (reachable 100 (at_ 110 (busy 130)))%Z as H2 by (eapply reach_step; [exact H1|by apply step_time]).
  assert (reachable 100 (at_ 110 (busy 140)))%Z as H3.
  { eapply reach_ret; [exact H2|apply (step_read _ 0 _ success [newline] (Hat _ _)); [done|cbn; set_solver]|].
    vm_compute. reflexivity. }
  assert (reachable 100 (at_ 110 idle))%Z as H4.
  { eapply reach_ret; [exact H3|apply (step_write _ 0 _ success (Hat _ _)); done|]. vm_compute. reflexivity. }
  eapply reach_step; [exact H4|by apply step_time].
Qed.


End Timeouts.
