(* ===== verification/TcpClient.v ===== *)
(** * The asynchronous client with deadlines

    (src/doc_searcher/data/input/html/boost_asio/example/timeouts/async_tcp_client.cpp.)
    A client tries the endpoints of a server one after the other, then reads lines
    and sends a newline every ten seconds. One deadline, watched by an actor of its
    own, covers connecting (60 seconds) and reading (30 seconds): when it passes the
    watcher closes the socket, and the handler of the cancelled operation goes on to
    the next endpoint or stops the client. Time is the number of seconds. *)

From S2P Require Import Prelude CxxString Asio.
Import Asio.

Module TcpClient.

(** An endpoint is known by its number. *)
Definition endpoint : Type := nat.

(** What the client prints. *)
Inductive event :=
  | Trying (e : endpoint) | ConnectTimedOut | ConnectError (ec : error_code) | Connected (e : endpoint)
  | Received (line : bytes) | ReceiveError (ec : error_code) | HeartbeatError (ec : error_code).

(** The operations that are outstanding: the connect with the iterator its handler
    is bound to, the read, the heartbeat, the wait before the next heartbeat with
    its time, and the wait of the watcher. *)
Record operations := mkOps {
  connect_op : option (list endpoint);
  read_op : bool;
  write_op : bool;
  beat_op : option Z;
  watch_op : bool;
}.

Record client := mkClient {
  stopped_ : bool;
  is_open : bool;                (* socket_ *)
  input_buffer_ : bytes;
  deadline_ : option Z;          (* None is pos_infin *)
  ops : operations;
  now : Z;
  log : list event;              (* the console *)
  got : bytes;                   (* all that was read; not kept by the program *)
  heard : Z;                     (* when the last read was started; not kept *)
}.

Definition no_ops : operations := mkOps None false false None false.

Definition client_new (t : Z) : client := mkClient false false [] None no_ops t [] [] t.

Definition set_ops (c : client) (o : operations) : client :=
  mkClient (stopped_ c) (is_open c) (input_buffer_ c) (deadline_ c) o (now c) (log c) (got c) (heard c).
Definition say (c : client) (e : event) : client :=
  mkClient (stopped_ c) (is_open c) (input_buffer_ c) (deadline_ c) (ops c) (now c) (log c ++ [e]) (got c) (heard c).
Definition set_socket (c : client) (b : bool) : client :=
  mkClient (stopped_ c) b (input_buffer_ c) (deadline_ c) (ops c) (now c) (log c) (got c) (heard c).
Definition set_deadline (c : client) (d : option Z) : client :=
  mkClient (stopped_ c) (is_open c) (input_buffer_ c) d (ops c) (now c) (log c) (got c) (heard c).
Definition set_now (c : client) (t : Z) : client :=
  mkClient (stopped_ c) (is_open c) (input_buffer_ c) (deadline_ c) (ops c) t (log c) (got c) (heard c).

Definition set_connect (o : operations) (x : option (list endpoint)) : operations :=
  mkOps x (read_op o) (write_op o) (beat_op o) (watch_op o).
Definition set_read (o : operations) (x : bool) : operations :=
  mkOps (connect_op o) x (write_op o) (beat_op o) (watch_op o).
Definition set_write (o : operations) (x : bool) : operations :=
  mkOps (connect_op o) (read_op o) x (beat_op o) (watch_op o).
Definition set_beat (o : operations) (x : option Z) : operations :=
  mkOps (connect_op o) (read_op o) (write_op o) x (watch_op o).
Definition set_watch (o : operations) (x : bool) : operations :=
  mkOps (connect_op o) (read_op o) (write_op o) (beat_op o) x.

(** [stop]: the socket is closed and the waits are cancelled; their handlers, like
    those of the other operations, still run. *)
Definition stop (c : client) : client :=
  mkClient true false (input_buffer_ c) (deadline_ c) (ops c) (now c) (log c) (got c) (heard c).

(** [start_connect]; [async_connect] opens the socket. *)
Definition start_connect (c : client) (endpoint_iter : list endpoint) : client :=
  match endpoint_iter with
  | e :: _ =>
      let c := say c (Trying e) in
      let c := set_deadline c (Some (now c + 60)%Z) in
      let c := set_socket c true in
      set_ops c (set_connect (ops c) (Some endpoint_iter))
  | [] => stop c
  end.

(** [start] *)
Definition start (c : client) (endpoint_iter : list endpoint) : client :=
  let c := start_connect c endpoint_iter in
  set_ops c (set_watch (ops c) true).

(** [start_read] *)
Definition start_read (c : client) : client :=
  mkClient (stopped_ c) (is_open c) (input_buffer_ c) (Some (now c + 30)%Z) (set_read (ops c) true)
    (now c) (log c) (got c) (now c).

(** [start_write] *)
Definition start_write (c : client) : client :=
  if stopped_ c then c else set_ops c (set_write (ops c) true).

(** [handle_connect]; the iterator is not the end iterator. *)
Definition handle_connect (c : client) (ec : error_code) (endpoint_iter : list endpoint) : outcome client :=
  if stopped_ c then Ret c
  else
    match endpoint_iter with
    | [] => Undef NullDeref
    | e :: next =>
        if negb (is_open c) then Ret (start_connect (say c ConnectTimedOut) next)
        else if failed ec then
          Ret (start_connect (set_socket (say c (ConnectError ec)) false) next)
        else Ret (start_write (start_read (say c (Connected e))))
    end.

(** [getline(is, line)] on the buffer. *)
Definition take_line (c : client) : bytes * client :=
  let '(line, rest) := break_line (input_buffer_ c) in
  (line, mkClient (stopped_ c) (is_open c) rest (deadline_ c) (ops c) (now c) (log c) (got c) (heard c)).

(** [handle_read] *)
Definition handle_read (c : client) (ec : error_code) : client :=
  if stopped_ c then c
  else if failed ec then stop (say c (ReceiveError ec))
  else
    let '(line, c) := take_line c in
    let c := if bool_decide (line = []) then c else say c (Received line) in
    start_read c.

(** [handle_write] *)
Definition handle_write (c : client) (ec : error_code) : client :=
  if stopped_ c then c
  else if failed ec then stop (say c (HeartbeatError ec))
  else set_ops c (set_beat (ops c) (Some (now c + 10)%Z)).

Definition expired (c : client) : bool :=
  match deadline_ c with
  | Some d => (d <=? now c)%Z
  | None => false
  end.

(** [check_deadline] *)
Definition check_deadline (c : client) : client :=
  if stopped_ c then c
  else
    let c := if expired c then set_deadline (set_socket c false) None else c in
    set_ops c (set_watch (ops c) true).

(** What a read has put into the buffer. *)
Definition fill_buffer (c : client) (data : bytes) : client :=
  mkClient (stopped_ c) (is_open c) (input_buffer_ c ++ data) (deadline_ c) (ops c) (now c) (log c)
    (got c ++ data) (heard c).

(** ** The steps

    Handlers run when they are due: before time goes on past a deadline its watcher
    runs, operations on a socket that was closed complete, and a heartbeat whose
    time has come is sent. *)
Definition calm (c : client) (t : Z) : Prop :=
  stopped_ c = true ∨
  is_open c = true ∧ (∀ d, deadline_ c = Some d → (t <= d)%Z) ∧
  (∀ b, beat_op (ops c) = Some b → (t <= b)%Z).

Inductive step : client → outcome client → Prop :=
  | step_time c t : (now c <= t)%Z → calm c t → step c (Ret (set_now c t))
  | step_connect c iter ec :
      connect_op (ops c) = Some iter →
      step c (handle_connect (set_ops c (set_connect (ops c) None)) ec iter)
  | step_read c ec data :
      read_op (ops c) = true → (ec = success → newline ∈ input_buffer_ c ++ data) →
      step c (Ret (handle_read (set_ops (fill_buffer c data) (set_read (ops c) false)) ec))
  | step_write c ec :
      write_op (ops c) = true →
      step c (Ret (handle_write (set_ops c (set_write (ops c) false)) ec))
  | step_beat c b :
      beat_op (ops c) = Some b → (b <= now c)%Z ∨ stopped_ c = true →
      step c (Ret (start_write (set_ops c (set_beat (ops c) None))))
  | step_watch c :
      watch_op (ops c) = true →
      step c (Ret (check_deadline (set_ops c (set_watch (ops c) false)))).

Inductive reachable (t0 : Z) (eps : list endpoint) : client → Prop :=
  | reach_start : reachable t0 eps (start (client_new t0) eps)
  | reach_step c c' : reachable t0 eps c → step c (Ret c') → reachable t0 eps c'.

(** The endpoints that have been tried, and the lines shown. *)
Definition tried (l : list event) : list endpoint :=
  omap (λ e, match e with Trying x => Some x | _ => None end) l.
Definition shown (l : list event) : list bytes :=
  omap (λ e, match e with Received x => Some x | _ => None end) l.

(** ** The invariant *)

(** Connecting to the first of [iter]. *)
Record connecting_ok (t0 : Z) (eps : list endpoint) (c : client) (iter : list endpoint) : Prop := {
  co_iter : ∃ pre, eps = pre ++ iter ∧ tried (log c) = pre ++ take 1 iter ∧
      (now c <= t0 + 60 * (Z.of_nat (length pre) + 1))%Z ∧
      ∀ d, deadline_ c = Some d → (d <= t0 + 60 * (Z.of_nat (length pre) + 1))%Z;
  co_some : iter ≠ [];
  co_none : read_op (ops c) = false ∧ write_op (ops c) = false ∧ beat_op (ops c) = None;
}.

(** Reading lines and sending heartbeats. *)
Record connected_ok (eps : list endpoint) (c : client) : Prop := {
  cd_read : read_op (ops c) = true;
  cd_beat : write_op (ops c) = true ∧ beat_op (ops c) = None ∨
            write_op (ops c) = false ∧ ∃ b, beat_op (ops c) = Some b ∧ (now c <= b <= now c + 10)%Z;
  cd_heard : (heard c <= now c <= heard c + 30)%Z;
  cd_deadline : ∀ d, deadline_ c = Some d → d = (heard c + 30)%Z;
  cd_tried : tried (log c) `prefix_of` eps;
}.

Record running (t0 : Z) (eps : list endpoint) (c : client) : Prop := {
  ru_watch : watch_op (ops c) = true;
  ru_due : ∀ d, deadline_ c = Some d → (now c <= d)%Z;
  ru_open : is_open c = true → is_Some (deadline_ c);
  ru_phase : match connect_op (ops c) with
             | Some iter => connecting_ok t0 eps c iter
             | None => connected_ok eps c
             end;
}.

(** Lines are shown as they were read, empty ones left out. *)
Definition lines_ok (c : client) : Prop :=
  ∃ ls, Forall (λ l, newline ∉ l) ls ∧ got c = unlines ls ++ input_buffer_ c ∧
    shown (log c) = filter (λ l, l ≠ []) ls.

Record inv (t0 : Z) (eps : list endpoint) (c : client) : Prop := {
  inv_run : stopped_ c = false → running t0 eps c;
  inv_stop : stopped_ c = true → is_open c = false ∧ tried (log c) `prefix_of` eps;
  inv_lines : lines_ok c;
}.

Lemma tried_app a b : tried (a ++ b) = tried a ++ tried b.
Proof. apply omap_app. Qed.
Lemma shown_app a b : shown (a ++ b) = shown a ++ shown b.
Proof. apply omap_app. Qed.

(** Lines depend on the log, the buffer and what was read only. *)
Lemma lines_ok_same c c' :
  lines_ok c → got c' = got c → input_buffer_ c' = input_buffer_ c → shown (log c') = shown (log c) → lines_ok c'.
Proof. intros (ls & ? & ? & ?) Hg Hb Hl. exists ls. by rewrite Hg, Hb, Hl. Qed.

Lemma lines_ok_say c e :
  lines_ok c → match e with Received _ => False | _ => True end → lines_ok (say c e).
Proof.
  intros Hl He. apply (lines_ok_same c); [done..|]. cbn. rewrite shown_app. cbn.
  destruct e; cbn; by rewrite ?app_nil_r.
Qed.

(** A handler that stops the client. *)
Lemma inv_stopped t0 eps c : tried (log c) `prefix_of` eps → lines_ok c → inv t0 eps (stop c).
Proof. intros Ht Hl. split; [done|done|]. by apply (lines_ok_same c). Qed.

Lemma inv_tried t0 eps c : inv t0 eps c → tried (log c) `prefix_of` eps.
Proof.
  intros [Hr Hs _]. destruct (stopped_ c); [by apply Hs|]. destruct (Hr eq_refl) as [_ _ _ Hp].
  destruct (connect_op (ops c)) as [iter|]; [|apply Hp].
  destruct Hp as [(pre & -> & -> & _) _ _]. apply prefix_app. by exists (drop 1 iter); rewrite take_drop.
Qed.

(** A stopped client takes no notice of completions. *)
Lemma inv_ignored t0 eps c c' :
  inv t0 eps c → stopped_ c = true → stopped_ c' = true → is_open c' = is_open c →
  log c' = log c → lines_ok c' → inv t0 eps c'.
Proof.
  intros [_ Hs _] E E' Ho Hl Hlines. split; [congruence| |done]. rewrite Ho, Hl. intros _. by apply Hs.
Qed.

Lemma inv_start_connect t0 eps c pre iter :
  stopped_ c = false → watch_op (ops c) = true → eps = pre ++ iter → tried (log c) = pre →
  (now c <= t0 + 60 * Z.of_nat (length pre))%Z → lines_ok c →
  read_op (ops c) = false → write_op (ops c) = false → beat_op (ops c) = None →
  inv t0 eps (start_connect c iter).
Proof.
  intros Hs Hw -> Ht Hn Hl Hrd Hwr Hb. destruct iter as [|e iter]; cbn [start_connect].
  { apply inv_stopped; [|done]. rewrite Ht. by apply prefix_app_r. }
  split; [|cbn; congruence|by apply lines_ok_say with (e := Trying e) in Hl].
  intros _. split; cbn; [done| |eauto|].
  - intros d [= <-]. lia.
  - split; [|done|done]. exists pre. cbn. split; [done|]. split; [by rewrite tried_app, Ht|].
    split; [lia|]. intros d [= <-]. lia.
Qed.

Lemma inv_connect t0 eps c iter ec :
  inv t0 eps c → connect_op (ops c) = Some iter →
  ∃ c', handle_connect (set_ops c (set_connect (ops c) None)) ec iter = Ret c' ∧ inv t0 eps c'.
Proof.
  intros Hi Hop. pose proof Hi as [Hr Hs Hl]. unfold handle_connect. cbn [stopped_ set_ops is_open].
  destruct (stopped_ c) eqn:Es.
  { eexists. split; [done|]. by apply (inv_ignored t0 eps c). }
  destruct (Hr eq_refl) as [Hw Hdue Hopen Hph]. rewrite Hop in Hph.
  destruct Hph as [(pre & Heps & Ht & Hn & Hd) Hne (Hrd & Hwr & Hb)]. destruct iter as [|e next]; [done|].
  assert (∀ c1, stopped_ c1 = false → ops c1 = set_connect (ops c) None → now c1 = now c →
            tried (log c1) = tried (log c) → lines_ok c1 → inv t0 eps (start_connect c1 next)) as Hnext.
  { intros c1 H1 H2 H3 H4 H5. apply (inv_start_connect t0 eps c1 (pre ++ [e]) next); rewrite ?H2; try done.
    - by rewrite Heps, <-app_assoc.
    - by rewrite H4, Ht.
    - rewrite H3, length_app. cbn. lia. }
  destruct (is_open c) eqn:Eo; cbn [negb].
  2: { eexists. split; [done|]. apply Hnext; cbn; try done.
       - by rewrite tried_app, app_nil_r.
       - by apply lines_ok_say with (e := ConnectTimedOut) in Hl. }
  destruct (failed ec).
  { eexists. split; [done|]. apply Hnext; cbn; try done.
    - by rewrite tried_app, app_nil_r.
    - by apply lines_ok_say with (e := ConnectError ec) in Hl. }
  eexists. split; [done|]. unfold start_write. cbn [start_read say stopped_ set_ops]. rewrite Es.
  split; [|cbn; congruence|by apply lines_ok_say with (e := Connected e) in Hl].
  intros _. split; cbn; [done|intros d [= <-]; lia|eauto|]. split; cbn; try done.
  - by left.
  - lia.
  - by intros d [= <-].
  - rewrite tried_app, Ht, Heps. cbn. rewrite app_nil_r. apply prefix_app. by exists next.
Qed.

(** The line that is taken out of the buffer. *)
Lemma lines_ok_take c line rest :
  lines_ok c → newline ∈ input_buffer_ c → break_line (input_buffer_ c) = (line, rest) →
  ∀ c', got c' = got c → input_buffer_ c' = rest →
    shown (log c') = shown (log c) ++ (if bool_decide (line = []) then [] else [line]) → lines_ok c'.
Proof.
  intros (ls & Hls & Hg & Hs) Hnl Hb c' Hg' Hb' Hl'. exists (ls ++ [line]). split_and!.
  - apply Forall_app. split; [done|]. constructor; [|done]. by eapply break_line_no_newline.
  - rewrite Hg', Hg, Hb'. unfold unlines. rewrite fmap_app, join_app. cbn. rewrite app_nil_r, <-!app_assoc.
    f_equal. by apply break_line_join.
  - rewrite Hl', Hs, filter_app. f_equal. rewrite filter_cons. case_bool_decide as E.
    + by rewrite decide_False by (by intros []).
    + by rewrite decide_True.
Qed.

Lemma lines_ok_fill c data : lines_ok c → lines_ok (fill_buffer c data).
Proof. intros (ls & ? & Hg & ?). exists ls. split_and!; [done| |done]. cbn. by rewrite Hg, <-app_assoc. Qed.

Lemma client_inv_read t0 eps c ec data :
  inv t0 eps c → read_op (ops c) = true → (ec = success → newline ∈ input_buffer_ c ++ data) →
  inv t0 eps (handle_read (set_ops (fill_buffer c data) (set_read (ops c) false)) ec).
Proof.
  intros Hi Hop Hnl. pose proof Hi as [Hr Hs Hl]. apply (lines_ok_fill c data) in Hl.
  unfold handle_read. cbn [stopped_ set_ops fill_buffer]. destruct (stopped_ c) eqn:Es.
  { by apply (inv_ignored t0 eps c). }
  destruct (failed ec) eqn:Ef.
  { apply inv_stopped.
    - cbn. rewrite tried_app, app_nil_r. by eapply inv_tried.
    - by apply lines_ok_say with (e := ReceiveError ec) in Hl. }
  destruct (Hr eq_refl) as [Hw Hdue Hopen Hph]. destruct (connect_op (ops c)) as [iter|] eqn:Ec.
  { destruct Hph as [_ _ [? _]]. congruence. }
  destruct Hph as [_ Hbeat Hheard _ Htried].
  assert (ec = success) as -> by (by destruct ec).
  unfold take_line. cbn [input_buffer_ set_ops fill_buffer].
  destruct (break_line (input_buffer_ c ++ data)) as [line rest] eqn:Eb.
  set (c1 := mkClient _ _ rest _ _ _ _ _ _). set (c2 := if bool_decide _ then _ else _).
  assert (log c2 = log c ++ (if bool_decide (line = []) then [] else [Received line])) as Hlog
    by (unfold c2; case_bool_decide; cbn; by rewrite ?app_nil_r).
  assert (stopped_ c2 = false ∧ ops c2 = set_read (ops c) false ∧ now c2 = now c ∧
          input_buffer_ c2 = rest ∧ got c2 = got c ++ data) as (H1 & H2 & H3 & H4 & H5)
    by (unfold c2; case_bool_decide; cbn; auto).
  split; cbn [start_read stopped_ ops].
  - intros _. split; cbn; rewrite ?H2, ?H3; cbn; [done|intros d [= <-]; lia|eauto|]. rewrite Ec.
    split; cbn; rewrite ?H2, ?H3; cbn; try done; [lia|by intros d [= <-]|].
    rewrite Hlog, tried_app. destruct (bool_decide _); cbn; by rewrite app_nil_r.
  - congruence.
  - apply (lines_ok_take (fill_buffer c data) line rest); cbn; try done; [by apply Hnl|].
    rewrite Hlog, shown_app. f_equal. by case_bool_decide.
Qed.

Lemma client_inv_write t0 eps c ec :
  inv t0 eps c → write_op (ops c) = true →
  inv t0 eps (handle_write (set_ops c (set_write (ops c) false)) ec).
Proof.
  intros Hi Hop. pose proof Hi as [Hr Hs Hl]. unfold handle_write. cbn [stopped_ set_ops].
  destruct (stopped_ c) eqn:Es.
  { by apply (inv_ignored t0 eps c). }
  destruct (failed ec) eqn:Ef.
  { apply inv_stopped.
    - cbn. rewrite tried_app, app_nil_r. by eapply inv_tried.
    - by apply lines_ok_say with (e := HeartbeatError ec) in Hl. }
  destruct (Hr eq_refl) as [Hw Hdue Hopen Hph]. destruct (connect_op (ops c)) as [iter|] eqn:Ec.
  { destruct Hph as [_ _ [_ [? _]]]. congruence. }
  destruct Hph. split; cbn; [|congruence|done]. intros _. split; cbn; try done. rewrite Ec.
  split; cbn; try done. right. split; [done|]. eexists. split; [done|lia].
Qed.

Lemma inv_beat t0 eps c b :
  inv t0 eps c → beat_op (ops c) = Some b →
  inv t0 eps (start_write (set_ops c (set_beat (ops c) None))).
Proof.
  intros Hi Hop. pose proof Hi as [Hr Hs Hl]. unfold start_write. cbn [stopped_ set_ops].
  destruct (stopped_ c) eqn:Es.
  { by apply (inv_ignored t0 eps c). }
  destruct (Hr eq_refl) as [Hw Hdue Hopen Hph]. destruct (connect_op (ops c)) as [iter|] eqn:Ec.
  { destruct Hph as [_ _ (_ & _ & ?)]. congruence. }
  destruct Hph. split; cbn; [|congruence|done]. intros _. split; cbn; try done. rewrite Ec.
  split; cbn; try done. by left.
Qed.

Lemma inv_watch t0 eps c :
  inv t0 eps c → inv t0 eps (check_deadline (set_ops c (set_watch (ops c) false))).
Proof.
  intros Hi. pose proof Hi as [Hr Hs Hl]. unfold check_deadline. cbn [stopped_ set_ops].
  destruct (stopped_ c) eqn:Es.
  { by apply (inv_ignored t0 eps c). }
  destruct (Hr eq_refl) as [Hw Hdue Hopen Hph].
  destruct (expired _); (split; [|cbn; congruence|done]); intros _; split; cbn; try done;
    (destruct (connect_op (ops c)) as [iter|];
     [destruct Hph as [(pre & ? & ? & ? & ?) ? ?]; split; try done; exists pre; by split_and!
     |destruct Hph; split; done]).
Qed.

Lemma inv_time t0 eps c t : inv t0 eps c → (now c <= t)%Z → calm c t → inv t0 eps (set_now c t).
Proof.
  intros Hi Ht Hcalm. pose proof Hi as [Hr Hs Hl]. split; [|done|done]. cbn. intros Es.
  destruct (Hr Es) as [Hw Hdue Hopen Hph]. destruct Hcalm as [?|(Ho & Hd & Hb)]; [congruence|].
  destruct (Hopen Ho) as [d Ed]. specialize (Hd d Ed).
  split; cbn; [done| |done|].
  - intros d'. rewrite Ed. by intros [= <-].
  - destruct (connect_op (ops c)) as [iter|].
    + destruct Hph as [(pre & ? & ? & ? & Hle) ? ?]. split; try done. exists pre. cbn.
      specialize (Hle d Ed). split_and!; [done..|lia|]. intros d'. rewrite Ed. intros [= <-]. lia.
    + destruct Hph as [? Hbeat Hheard Hdl ?]. specialize (Hdl d Ed). split; cbn; try done; [|lia|].
      * destruct Hbeat as [?|(? & b & Eb & ?)]; [by left|right]. split; [done|]. exists b.
        specialize (Hb b Eb). split; [done|lia].
      * intros d'. rewrite Ed. by intros [= <-].
Qed.

Lemma client_step_inv t0 eps c o : inv t0 eps c → step c o → ∃ c', o = Ret c' ∧ inv t0 eps c'.
Proof.
  intros Hi Hst. destruct Hst as [c t Ht Hc|c iter ec Hop|c ec data Hop Hnl|c ec Hop|c b Hop Hdue|c Hop].
  - eexists. split; [done|]. by apply inv_time.
  - by apply inv_connect.
  - eexists. split; [done|]. by apply client_inv_read.
  - eexists. split; [done|]. by apply client_inv_write.
  - eexists. split; [done|]. by eapply inv_beat.
  - eexists. split; [done|]. by apply inv_watch.
Qed.

Lemma client_reachable_inv t0 eps c : reachable t0 eps c → inv t0 eps c.
Proof.
  induction 1 as [|c c' _ IH Hs].
  - assert (lines_ok (client_new t0)) as Hl by (exists []; cbn; auto).
    destruct eps as [|e eps].
    + split; [done| |done]. cbn. split; [done|]. apply prefix_nil.
    + split; [|done|done]. intros _. split; cbn; [done|intros d [= <-]; lia|eauto|].
      split; [|done|done]. exists []. cbn. split_and!; [done..|lia|]. intros d [= <-]. lia.
  - by destruct (client_step_inv _ _ _ _ IH Hs) as (? & [= <-] & ?).
Qed.

(** ** The theorems *)

(** The actors of the client. As long as it is not stopped, the watcher waits
    and either one connect is outstanding, to the endpoint printed last, the
    endpoints before it having been tried in their order, or one read and exactly one of
    a heartbeat and the wait before the next are; an open socket always has a
    deadline, and no deadline that has been passed by goes unnoticed. What is shown
    is what was read, line by line, without the empty lines, which are heartbeats.
    A stopped client has its socket closed. No completion makes a handler
    undefined. *)
Theorem client_actors t0 eps c :
  reachable t0 eps c →
  (stopped_ c = false →
     watch_op (ops c) = true ∧ (is_open c = true → ∃ d, deadline_ c = Some d ∧ (now c <= d)%Z) ∧
     match connect_op (ops c) with
     | Some iter => iter ≠ [] ∧ (∃ pre, eps = pre ++ iter ∧ tried (log c) = pre ++ take 1 iter) ∧
         read_op (ops c) = false ∧ write_op (ops c) = false ∧ beat_op (ops c) = None
     | None => read_op (ops c) = true ∧
         (write_op (ops c) = true ∧ beat_op (ops c) = None ∨
          write_op (ops c) = false ∧ is_Some (beat_op (ops c)))
     end) ∧
  (stopped_ c = true → is_open c = false) ∧
  (∃ ls, Forall (λ l, newline ∉ l) ls ∧ got c = unlines ls ++ input_buffer_ c ∧
     shown (log c) = filter (λ l, l ≠ []) ls) ∧
  (∀ o, step c o → ∃ c', o = Ret c' ∧ reachable t0 eps c').
Proof.
  intros Hreach. pose proof (client_reachable_inv _ _ _ Hreach) as Hi. pose proof Hi as [Hr Hs Hl]. split_and!.
  - intros Es. destruct (Hr Es) as [Hw Hdue Hopen Hph]. split; [done|]. split.
    { intros [d Ed]%Hopen. eauto. }
    destruct (connect_op (ops c)) as [iter|].
    + destruct Hph as [(pre & ? & ? & _) ? ?]. eauto 6.
    + destruct Hph as [? Hbeat _ _ _]. split; [done|]. destruct Hbeat as [?|(? & b & -> & _)]; eauto.
  - intros Es. by apply Hs.
  - exact Hl.
  - intros o Ho. destruct (client_step_inv _ _ _ _ Hi Ho) as (c' & -> & _). exists c'. split; [done|].
    by eapply reach_step.
Qed.

(** The operations that are outstanding. *)
Definition outstanding (c : client) : nat :=
  match connect_op (ops c) with Some _ => 1 | None => 0 end + (if read_op (ops c) then 1 else 0) +
  (if write_op (ops c) then 1 else 0) + match beat_op (ops c) with Some _ => 1 | None => 0 end +
  (if watch_op (ops c) then 1 else 0).

Lemma stopped_step c c' :
  stopped_ c = true → step c (Ret c') →
  stopped_ c' = true ∧ log c' = log c ∧ (outstanding c' < outstanding c ∨ c' = set_now c (now c')).
Proof.
  intros Es Hst. inversion Hst as [? t Ht Hc E1 E2|? iter ec Hop E1 E2|? ec data Hop Hnl E1 E2|? ec Hop E1 E2
                                  |? b Hop Hdue E1 E2|? Hop E1 E2]; subst.
  - auto.
  - unfold handle_connect in E2. cbn [stopped_ set_ops] in E2. rewrite Es in E2. injection E2 as <-.
    split_and!; [done..|left]. unfold outstanding. cbn. rewrite Hop. lia.
  - unfold handle_read. cbn [stopped_ set_ops fill_buffer]. rewrite Es.
    split_and!; [done..|left]. unfold outstanding. cbn. rewrite Hop. lia.
  - unfold handle_write. cbn [stopped_ set_ops]. rewrite Es.
    split_and!; [done..|left]. unfold outstanding. cbn. rewrite Hop. lia.
  - unfold start_write. cbn [stopped_ set_ops]. rewrite Es.
    split_and!; [done..|left]. unfold outstanding. cbn. rewrite Hop. lia.
  - unfold check_deadline. cbn [stopped_ set_ops]. rewrite Es.
    split_and!; [done..|left]. unfold outstanding. cbn. rewrite Hop. lia.
Qed.

(** Once handlers have caught up, the client has stopped or time can go on. *)
Definition settled (c : client) : Prop := stopped_ c = true ∨ ∃ t, (now c < t)%Z ∧ calm c t.

(** A closed socket: the outstanding operation fails, the client goes on. *)
Lemma settle_closed t0 eps c :
  inv t0 eps c → stopped_ c = false → is_open c = false →
  ∃ c', step c (Ret c') ∧ now c' = now c ∧ settled c'.
Proof.
  intros Hi Es Eo. destruct (inv_run _ _ _ Hi Es) as [Hw Hdue Hopen Hph].
  destruct (connect_op (ops c)) as [iter|] eqn:Ec.
  - pose proof (step_connect c iter operation_aborted Ec) as Hst.
    destruct Hph as [_ Hne (_ & _ & Hb)]. destruct iter as [|e next]; [done|].
    unfold handle_connect in Hst. cbn [stopped_ set_ops is_open] in Hst. rewrite Es, Eo in Hst. cbn [negb] in Hst.
    eexists. split; [exact Hst|]. destruct next as [|e' next]; cbn; [split; [done|by left]|].
    split; [done|]. right. exists (now c + 1)%Z. split; [cbn; lia|]. right. cbn. split; [done|].
    split; [intros d [= <-]; lia|]. by rewrite Hb.
  - pose proof (step_read c operation_aborted [] (cd_read _ _ Hph)) as Hst.
    eexists. split; [apply Hst; done|]. unfold handle_read. cbn [stopped_ set_ops fill_buffer]. rewrite Es.
    split; [done|by left].
Qed.

Lemma settles t0 eps c :
  inv t0 eps c → ∃ c', rtc (λ a b, step a (Ret b)) c c' ∧ now c' = now c ∧ settled c'.
Proof.
  intros Hi. destruct (stopped_ c) eqn:Es; [exists c; split; [apply rtc_refl|]; split; [done|by left]|].
  destruct (inv_run _ _ _ Hi Es) as [Hw Hdue Hopen Hph].
  destruct (is_open c) eqn:Eo.
  2: { destruct (settle_closed _ _ _ Hi Es Eo) as (c' & Hst & ? & ?). exists c'.
       split; [by apply rtc_once|done]. }
  destruct (Hopen eq_refl) as [d Ed]. pose proof (Hdue d Ed) as Hd.
  destruct (decide (d = now c)) as [->|Hne].
  - (* the watcher is due *)
    pose proof (step_watch c Hw) as Hst. set (c1 := check_deadline _) in Hst.
    assert (stopped_ c1 = false ∧ is_open c1 = false ∧ now c1 = now c) as (H1 & H2 & H3).
    { unfold c1, check_deadline. cbn [stopped_ set_ops]. rewrite Es. unfold expired. cbn [set_ops deadline_ now].
      rewrite Ed. by bool_true. }
    destruct (settle_closed t0 eps c1) as (c' & Hst' & Hn & Hset); [by apply inv_watch|done..|].
    exists c'. split; [by eapply rtc_l, rtc_once|]. split; [congruence|done].
  - destruct (beat_op (ops c)) as [b|] eqn:Eb.
    + destruct (decide (b <= now c)%Z) as [Hb|Hb].
      * (* a heartbeat is due *)
        pose proof (step_beat c b Eb (or_introl Hb)) as Hst. eexists. split; [by apply rtc_once|].
        unfold start_write. cbn [stopped_ set_ops]. rewrite Es. split; [done|]. right.
        exists (now c + 1)%Z. split; [cbn; lia|]. right. cbn. split; [done|].
        split; [|done]. intros d'. rewrite Ed. intros [= <-]. lia.
      * exists c. split; [apply rtc_refl|]. split; [done|]. right. exists (now c + 1)%Z. split; [lia|]. right.
        split; [done|]. split; [intros d'; rewrite Ed; intros [= <-]; lia|].
        intros b'. rewrite Eb. intros [= <-]. lia.
    + exists c. split; [apply rtc_refl|]. split; [done|]. right. exists (now c + 1)%Z. split; [lia|]. right.
      split; [done|]. split; [intros d'; rewrite Ed; intros [= <-]; lia|]. by rewrite Eb.
Qed.

(** C26: the client gives up in time. While it is connecting at most sixty seconds
    have passed for each endpoint tried so far; while it is connected at most thirty
    have since the connection was made or the last line came. So against servers
    that do not answer it is stopped sixty seconds per endpoint after the start,
    and when a server falls silent, thirty seconds later. Time is never kept from going on: from
    every state a few completions lead to one where it can, or to a stopped client.
    And a stopped client starts nothing: each completion leaves fewer operations
    outstanding and changes nothing else, until io_service::run returns. *)
Theorem gives_up t0 eps c :
  reachable t0 eps c →
  (stopped_ c = false →
     match connect_op (ops c) with
     | Some _ => (now c <= t0 + 60 * Z.of_nat (length (tried (log c))))%Z
     | None => (now c <= heard c + 30)%Z
     end ∧ tried (log c) `prefix_of` eps) ∧
  (∃ c', rtc (λ a b, step a (Ret b)) c c' ∧ now c' = now c ∧ settled c') ∧
  (stopped_ c = true → ∀ c', step c (Ret c') →
     stopped_ c' = true ∧ log c' = log c ∧ (outstanding c' < outstanding c ∨ c' = set_now c (now c'))).
Proof.
  intros Hreach. pose proof (client_reachable_inv _ _ _ Hreach) as Hi. split_and!.
  - intros Es. split; [|by eapply inv_tried]. destruct (inv_run _ _ _ Hi Es) as [_ _ _ Hph].
    destruct (connect_op (ops c)) as [iter|].
    + destruct Hph as [(pre & _ & -> & Hn & _) Hne _]. rewrite length_app.
      destruct iter; [done|]. cbn. lia.
    + apply Hph.
  - by eapply settles.
  - intros Es c' Hst. by apply stopped_step.
Qed.

(** ** Examples *)

(** Two endpoints: the first does not answer within a minute, the second does and
    says a line. *)
Definition timed_out : client :=
  set_now (start (client_new 0) [1; 2]) 60.

Definition second : client :=
  mkClient false true [] (Some 120%Z) (mkOps (Some [2]) false false None true) 60
    [Trying 1; ConnectTimedOut; Trying 2] [] 0.

Definition heard_line : client :=
  mkClient false true [] (Some 90%Z) (mkOps None true true None true) 60
    [Trying 1; ConnectTimedOut; Trying 2; Connected 2; Received (lit "hi")] (lit "hi" ++ [newline]) 60.

Lemma client_reach_ret t0 eps c o c' : reachable t0 eps c → step c o → o = Ret c' → reachable t0 eps c'.
Proof. intros Hr Hs ->. by eapply reach_step. Qed.

Lemma second_reachable : reachable 0 [1; 2] second.
Proof.
  eapply client_reach_ret; [eapply client_reach_ret; [eapply client_reach_ret; [apply reach_start|..]|..]|..].
  - apply (step_time _ 60); [vm_compute; discriminate|]. right. split; [done|].
    split; [|done]. cbn. by intros d [= <-].
  - reflexivity.
  - by apply step_watch.
  - reflexivity.
  - by apply (step_connect _ [1; 2] operation_aborted).
  - vm_compute. reflexivity.
Qed.

Lemma heard_line_reachable : reachable 0 [1; 2] heard_line.
Proof.
  eapply client_reach_ret; [eapply client_reach_ret; [apply second_reachable|..]|..].
  - by apply (step_connect _ [2] success).
  - reflexivity.
  - apply (step_read _ success (lit "hi" ++ [newline])); [done|]. intros _. cbn. set_solver.
  - vm_compute. reflexivity.
Qed.

Lemma client_actors_witness :
  reachable 0 [1; 2] heard_line ∧ stopped_ heard_line = false ∧
  ∃ ls, got heard_line = unlines ls ++ [] ∧ shown (log heard_line) = filter (λ l, l ≠ []) ls.
Proof.
  split; [apply heard_line_reachable|]. split; [reflexivity|].
  destruct (client_actors 0 [1; 2] heard_line heard_line_reachable) as (_ & _ & (ls & _ & Hg & Hs) & _).
  by exists ls.
Defined.

Lemma gives_up_witness :
  reachable 0 [1; 2] second ∧ stopped_ second = false ∧ (now second <= 0 + 60 * 2)%Z.
Proof.
  split; [apply second_reachable|]. split; [reflexivity|].
  apply (gives_up 0 [1; 2] second second_reachable). reflexivity.
Defined.

End TcpClient.
