(* ===== verification/BlockingClient.v ===== *)
(** * The blocking clients with deadlines

    (src/doc_searcher/data/input/html/boost_asio/example/timeouts/
    {blocking_tcp_client,blocking_udp_client}.cpp.) Each call starts an asynchronous
    operation and runs the io_service, one handler at a time, until the operation
    has set its error code. An actor watches the deadline of the call: the TCP
    client closes the socket when it has passed, the UDP client cancels the
    operation. What happens during a call is a list of events. The calls are first
    defined for any list; then the io_service is added, which finds out the events of
    a call from what reaches the client and when, and from the state of the client:
    it runs a handler when it is due, and never before. Asio promises that no
    operation fails with [would_block]. *)

From S2P Require Import Prelude CxxString Asio.
Import Asio.

Module BlockingClient.

(** The client: its socket, whether the outstanding operation has been cut off, the
    deadline (None is pos_infin), the time, the input buffer, and what has been
    read and written on the socket (not kept by the program). *)
Record client := mkClient {
  is_open : bool;
  cut : bool;
  deadline_ : option Z;
  now : Z;
  input_buffer_ : bytes;
  got : bytes;
  sent : bytes;
}.

(** A handler the io_service runs, or time that passes before the next. *)
Inductive event :=
  | Pass (t : Z)                           (* it is [t] seconds *)
  | Done (ec : error_code) (data : bytes)  (* the operation completes, with what it has read *)
  | Watch.                                 (* the wait of the watcher completes *)

Definition set_deadline (c : client) (d : option Z) : client :=
  mkClient (is_open c) (cut c) d (now c) (input_buffer_ c) (got c) (sent c).

(** [deadline_.expires_from_now(timeout)] and the start of an operation. *)
Definition begin (c : client) (timeout : Z) : client :=
  mkClient (is_open c) false (Some (now c + timeout)%Z) (now c) (input_buffer_ c) (got c) (sent c).

Definition expired (c : client) : bool :=
  match deadline_ c with
  | Some d => (d <=? now c)%Z
  | None => false
  end.

Section Loop.
(** What the watcher does to the socket when the deadline has passed. *)
Variable cut_off : client → client.

(** [check_deadline]; the watcher always waits again. *)
Definition check_deadline (c : client) : client :=
  if expired c then set_deadline (cut_off c) None else c.

(** Whether the operation has what it waits for once a read has succeeded. *)
Variable finished : client → bool.

(** [io_service_.run_one()] with the variable [ec] of the call. A successful read
    of a composed operation that is not finished starts the next one. *)
Definition run_one (c : client) (ec : error_code) (e : event) : client * error_code :=
  match e with
  | Pass t => (mkClient (is_open c) (cut c) (deadline_ c) t (input_buffer_ c) (got c) (sent c), ec)
  | Done ec' data =>
      let c := mkClient (is_open c) (cut c) (deadline_ c) (now c) (input_buffer_ c ++ data) (got c ++ data) (sent c) in
      (c, if failed ec' || finished c then ec' else ec)
  | Watch => (check_deadline c, ec)
  end.

(** [do io_service_.run_one(); while (ec == would_block);] on the events that
    come; [inl] when they are used up and the call is still blocked. *)
Fixpoint run_loop (c : client) (es : list event) : client + (client * error_code * list event) :=
  match es with
  | [] => inl c
  | e :: es =>
      let '(c, ec) := run_one c would_block e in
      if bool_decide (ec = would_block) then run_loop c es else inr (c, ec, es)
  end.

(** ** The io_service

    What reaches the client, in order, with the time: a step of the operation, and
    whether its handler comes before that of the watcher if both are due; or the wait
    of the watcher that [expires_from_now] has cancelled, whose handler runs too. *)
Inductive arrival :=
  | Arrives (t : Z) (first : bool) (ec : error_code) (data : bytes)
  | Woken (t : Z).

Definition arrival_event (a : arrival) : Z * event :=
  match a with
  | Arrives t _ ec data => (t, Done ec data)
  | Woken t => (t, Watch)
  end.

(** Whether [a] is handled before the wait for the deadline [d] is over. *)
Definition comes_before (a : arrival) (d : Z) : bool :=
  match a with
  | Arrives t first _ _ => (t <? d)%Z || first && (t =? d)%Z
  | Woken t => (t <=? d)%Z
  end.

(** The next handler that is due, and the time at which it is: that of the operation
    which was cut off at once, with what had come already or with
    [operation_aborted]; otherwise what comes first, an arrival or the deadline.
    [None] is the case that nothing ever comes. *)
Definition next_due (c : client) (arr : list arrival) : option (Z * event * list arrival) :=
  if cut c then
    match arr with
    | a :: rest =>
        if ((arrival_event a).1 <=? now c)%Z then Some (now c, (arrival_event a).2, rest)
        else Some (now c, Done operation_aborted [], arr)
    | [] => Some (now c, Done operation_aborted [], [])
    end
  else
    match deadline_ c, arr with
    | Some d, a :: rest =>
        if comes_before a d then Some (Z.max (now c) (arrival_event a).1, (arrival_event a).2, rest)
        else Some (Z.max (now c) d, Watch, arr)
    | Some d, [] => Some (Z.max (now c) d, Watch, [])
    | None, a :: rest => Some (Z.max (now c) (arrival_event a).1, (arrival_event a).2, rest)
    | None, [] => None
    end.

(** The events of a call that begins in the state [c]: the io_service runs one handler
    after the other until the variable [ec] of the call is set. *)
Fixpoint dispatch (fuel : nat) (c : client) (arr : list arrival) : list event :=
  match fuel with
  | 0 => []
  | S fuel =>
      match next_due c arr with
      | None => []
      | Some (t, e, rest) =>
          let '(c, _) := run_one c would_block (Pass t) in
          let '(c, ec) := run_one c would_block e in
          Pass t :: e :: (if bool_decide (ec = would_block) then dispatch fuel c rest else [])
      end
  end.
End Loop.

(** The outcome of a call: blocked when the events end, or its result, the client
    and the events that are left. *)
Inductive call (A : Type) :=
  | Blocked (c : client)
  | Returns (r : A) (c : client) (es : list event)
  | Throws (ec : error_code) (c : client) (es : list event).
Arguments Blocked {A} _.
Arguments Returns {A} _ _ _.
Arguments Throws {A} _ _ _.

(** ** blocking_tcp_client.cpp *)

(** [socket_.close()] cancels the outstanding operation. *)
Definition tcp_cut_off (c : client) : client :=
  mkClient false true (deadline_ c) (now c) (input_buffer_ c) (got c) (sent c).
Definition tcp_check_deadline : client → client := check_deadline tcp_cut_off.

(** The constructor: the first run of the watcher finds no deadline. *)
Definition tcp_client (t : Z) : client := tcp_check_deadline (mkClient false false None t [] [] []).

(** A connect or a write that has succeeded is done; [async_read_until] is when
    there is a newline in the buffer. *)
Definition done_at_once (c : client) : bool := true.
Definition has_line (c : client) : bool := bool_decide (newline ∈ input_buffer_ c).

Definition open_socket (c : client) : client :=
  mkClient true (cut c) (deadline_ c) (now c) (input_buffer_ c) (got c) (sent c).

(** [connect]; [async_connect] opens the socket. *)
Definition connect (c : client) (resolved : error_code) (timeout : Z) (es : list event) : call unit :=
  if failed resolved then Throws resolved c es
  else
    let c := open_socket (begin c timeout) in
    match run_loop tcp_cut_off done_at_once c es with
    | inl c => Blocked c
    | inr (c, ec, es) =>
        if failed ec || negb (is_open c) then Throws (if failed ec then ec else operation_aborted) c es
        else Returns tt c es
    end.

(** [read_line] *)
Definition read_line (c : client) (timeout : Z) (es : list event) : call bytes :=
  match run_loop tcp_cut_off has_line (begin c timeout) es with
  | inl c => Blocked c
  | inr (c, ec, es) =>
      if failed ec then Throws ec c es
      else
        let '(line, rest) := break_line (input_buffer_ c) in
        Returns line (mkClient (is_open c) (cut c) (deadline_ c) (now c) rest (got c) (sent c)) es
  end.

(** [write_line] *)
Definition write_line (c : client) (line : bytes) (timeout : Z) (es : list event) : call unit :=
  let data := line ++ [newline] in
  match run_loop tcp_cut_off done_at_once (begin c timeout) es with
  | inl c => Blocked c
  | inr (c, ec, es) =>
      if failed ec then Throws ec c es
      else Returns tt (mkClient (is_open c) (cut c) (deadline_ c) (now c) (input_buffer_ c) (got c) (sent c ++ data)) es
  end.

(** The loop of [main] that waits for the line that was sent: every round takes an
    event, so one more than there are is enough. *)
Fixpoint await_line (fuel : nat) (c : client) (msg : bytes) (es : list event) : call unit :=
  match fuel with
  | 0 => Blocked c
  | S fuel =>
      match read_line c 10 es with
      | Blocked c => Blocked c
      | Throws ec c es => Throws ec c es
      | Returns line c es =>
          if bool_decide (line = msg) then Returns tt c es else await_line fuel c msg es
      end
  end.

(** [main]: connect, send the message, wait for it to come back. *)
Definition tcp_main (t : Z) (resolved : error_code) (msg : bytes) (es : list event) : call unit :=
  match connect (tcp_client t) resolved 10 es with
  | Blocked c => Blocked c
  | Throws ec c es => Throws ec c es
  | Returns _ c es =>
      match write_line c msg 10 es with
      | Blocked c => Blocked c
      | Throws ec c es => Throws ec c es
      | Returns _ c es => await_line (S (length es)) c msg es
      end
  end.

(** ** blocking_udp_client.cpp *)

(** [socket_.cancel()] leaves the socket open. *)
Definition udp_cut_off (c : client) : client :=
  mkClient (is_open c) true (deadline_ c) (now c) (input_buffer_ c) (got c) (sent c).
Definition udp_check_deadline : client → client := check_deadline udp_cut_off.

Definition udp_client (t : Z) : client := udp_check_deadline (mkClient true false None t [] [] []).

(** [receive] into the buffer of the caller: the error code and the bytes. *)
Definition empty_buffer (c : client) : client :=
  mkClient (is_open c) (cut c) (deadline_ c) (now c) [] (got c) (sent c).
Definition receive (c : client) (timeout : Z) (es : list event) : call (error_code * bytes) :=
  match run_loop udp_cut_off done_at_once (begin (empty_buffer c) timeout) es with
  | inl c => Blocked c
  | inr (c, ec, es) => Returns (ec, input_buffer_ c) c es
  end.

(** [main]: what each call of [receive] brings, until the events end. *)
Fixpoint udp_main (fuel : nat) (c : client) (es : list event) : list (error_code * bytes) * client :=
  match fuel with
  | 0 => ([], c)
  | S fuel =>
      match receive c 10 es with
      | Returns r c es => let '(rs, c) := udp_main fuel c es in (r :: rs, c)
      | Blocked c | Throws _ c _ => ([], c)
      end
  end.

(** ** The loop *)

Section LoopFacts.
Variable cut_off : client → client.
Variable finished : client → bool.
Hypothesis cut_off_cuts : ∀ c, cut (cut_off c) = true ∧ now (cut_off c) = now c.






(** What was written stays, what is read is added to the buffer; the operation
    ends as it promises. *)
Hypothesis cut_off_keeps : ∀ c,
  input_buffer_ (cut_off c) = input_buffer_ c ∧ got (cut_off c) = got c ∧ sent (cut_off c) = sent c.

Lemma run_loop_data c es c' ec es' :
  run_loop cut_off finished c es = inr (c', ec, es') →
  sent c' = sent c ∧ (∃ data, input_buffer_ c' = input_buffer_ c ++ data ∧ got c' = got c ++ data) ∧
  (ec = success → finished c' = true) ∧ length es' < length es.
Proof using cut_off_keeps.
  revert c. induction es as [|e es IH]; intros c; [done|]. cbn [run_loop].
  destruct e as [t|ec0 data|]; cbn [run_one].
  - rewrite bool_decide_true by done. intros (? & ? & ? & ?)%IH. cbn.
    split_and!; [done..|lia].
  - set (c1 := mkClient _ _ _ _ _ _ _). case_bool_decide as E.
    + intros (H1 & (data' & H2 & H3) & H4 & H5)%IH. cbn in *. split_and!; [done| |done|lia].
      exists (data ++ data'). by rewrite H2, H3, <-!app_assoc.
    + intros [= <- <- <-]. cbn. split_and!; [done|by exists data| |lia].
      destruct (finished c1); [done|]. destruct (failed ec0) eqn:Ef; cbn; [|done].
      by intros ->.
  - rewrite bool_decide_true by done. intros (H1 & (data & H2 & H3) & H4 & H5)%IH. unfold check_deadline in *.
    destruct (cut_off_keeps c) as (K1 & K2 & K3).
    destruct (expired c); cbn in *; rewrite ?K1, ?K2, ?K3 in *; (split_and!; [done|by exists data|done|lia]).
Qed.
End LoopFacts.

Lemma tcp_keeps c : input_buffer_ (tcp_cut_off c) = input_buffer_ c ∧ got (tcp_cut_off c) = got c ∧
  sent (tcp_cut_off c) = sent c.
Proof. done. Qed.





(** ** The round trip *)

(** All that was read is the lines [ls] and what is still in the buffer. *)
Definition lines_read (c : client) (ls : list bytes) : Prop :=
  Forall (λ l, newline ∉ l) ls ∧ got c = unlines ls ++ input_buffer_ c.

Lemma read_line_returns c ls timeout es line c' es' :
  lines_read c ls → read_line c timeout es = Returns line c' es' →
  lines_read c' (ls ++ [line]) ∧ sent c' = sent c ∧ length es' < length es.
Proof.
  intros [Hnl Hg] Hcall. unfold read_line in Hcall.
  destruct (run_loop _ _ _ _) as [c0|[[c0 ec] es0]] eqn:E; [done|].
  apply (run_loop_data _ _ tcp_keeps) in E as (Hs & (data & Hb & Hgot) & Hfin & Hlen).
  destruct (failed ec) eqn:Ef; [done|]. assert (ec = success) as -> by (by destruct ec).
  specialize (Hfin eq_refl). apply bool_decide_eq_true in Hfin.
  destruct (break_line (input_buffer_ c0)) as [l rest] eqn:El. injection Hcall as <- <- <-.
  pose proof (break_line_no_newline _ _ _ El) as Hl. apply break_line_join in El; [|done].
  cbn [begin input_buffer_ got sent] in *. split_and!; [|done|done]. split; cbn.
  - apply Forall_app. by repeat constructor.
  - unfold unlines. rewrite fmap_app, join_app. cbn. rewrite app_nil_r, <-!app_assoc. cbn.
    rewrite <-El, Hgot, Hg, Hb. by rewrite <-app_assoc.
Qed.

Lemma await_line_returns fuel c ls msg es c' es' :
  lines_read c ls → await_line fuel c msg es = Returns tt c' es' →
  ∃ ls', Forall (λ l, l ≠ msg) ls' ∧ lines_read c' (ls ++ ls' ++ [msg]) ∧ sent c' = sent c.
Proof.
  revert c ls es. induction fuel as [|fuel IH]; intros c ls es Hl; [done|]. cbn [await_line].
  destruct (read_line c 10 es) as [|line c1 es1|] eqn:E; [done| |done].
  destruct (read_line_returns _ _ _ _ _ _ _ Hl E) as (Hl1 & Hs1 & _).
  case_bool_decide as Hm.
  - intros [= <- <-]. subst line. exists []. by split_and!.
  - intros (ls' & Hne & Hl' & Hs')%(IH _ (ls ++ [line])); [|done]. exists (line :: ls'). split_and!.
    + by constructor.
    + by rewrite <-app_assoc in Hl'.
    + congruence.
Qed.

(** The fuel of the loop is enough: it ends only because a call does. *)
Lemma await_line_fuel n m c ls msg es :
  lines_read c ls → length es < n → length es < m → await_line n c msg es = await_line m c msg es.
Proof.
  revert m c ls es. induction n as [|n IH]; intros [|m] c ls es Hl Hn Hm; [lia..|]. cbn [await_line].
  destruct (read_line c 10 es) as [|line c1 es1|] eqn:E; [done| |done].
  destruct (read_line_returns _ _ _ _ _ _ _ Hl E) as (Hl1 & _ & Hlen).
  case_bool_decide; [done|]. eapply IH; [done|lia..].
Qed.

Lemma has_line_no c : newline ∉ input_buffer_ c → has_line c = false.
Proof. intros H. by apply bool_decide_eq_false. Qed.

(** The pieces of a line are read until the newline comes. *)
Lemma run_loop_pieces ps c :
  newline ∉ input_buffer_ c → newline ∉ mjoin ps →
  run_loop tcp_cut_off has_line c ((Done success <$> ps) ++ [Done success [newline]]) =
    inr (mkClient (is_open c) (cut c) (deadline_ c) (now c) (input_buffer_ c ++ mjoin ps ++ [newline])
           (got c ++ mjoin ps ++ [newline]) (sent c), success, []).
Proof.
  revert c. induction ps as [|x ps IH]; intros c Hb Hps.
  - cbn [fmap list_fmap app run_loop run_one]. unfold has_line. cbn [input_buffer_].
    rewrite (bool_decide_true (newline ∈ input_buffer_ c ++ [newline])) by (apply elem_of_app; right; left). done.
  - cbn in Hps. rewrite elem_of_app in Hps. cbn [fmap list_fmap app run_loop run_one].
    rewrite has_line_no by (cbn; rewrite elem_of_app; tauto).
    change (if failed success || false then success else would_block) with would_block. cbv beta iota zeta.
    rewrite bool_decide_true by done.
    rewrite IH; [|cbn; rewrite elem_of_app; tauto|tauto]. cbn. by rewrite <-!app_assoc.
Qed.

(** After connecting and writing nothing has been read as a line. *)
Lemma connect_write t msg es c1 es1 c2 es2 :
  connect (tcp_client t) success 10 es = Returns tt c1 es1 →
  write_line c1 msg 10 es1 = Returns tt c2 es2 → lines_read c2 [] ∧ sent c2 = msg ++ [newline].
Proof.
  unfold connect. change (failed success) with false. cbv iota zeta.
  destruct (run_loop _ _ _ _) as [?|[[c0 ec] es0]] eqn:R1; [done|].
  apply (run_loop_data _ _ tcp_keeps) in R1 as (S1 & (d1 & B1 & G1) & _).
  destruct (_ || _); [done|]. intros [= <- <-]. unfold write_line.
  destruct (run_loop _ _ _ es0) as [?|[[c3 ec'] es3]] eqn:R2; [done|].
  apply (run_loop_data _ _ tcp_keeps) in R2 as (S2 & (d2 & B2 & G2) & _).
  destruct (failed ec'); [done|]. intros [= <- <-]. cbn in *.
  split; [split; [done|]|by rewrite S2, S1]. cbn. by rewrite B2, G2, B1, G1.
Qed.

(** When the program reports a round trip, it has sent exactly the message and
    a newline, and what it has read begins with lines that differ from the message,
    followed by the message as a line: the time is that of the first line equal to
    it. If the peer sends back the line at once, in any number of pieces and before the
    deadline, the program does report it. *)
Theorem tcp_round_trip t msg es :
  (∀ c es', tcp_main t success msg es = Returns tt c es' →
     sent c = msg ++ [newline] ∧
     ∃ ls, Forall (λ l, l ≠ msg ∧ newline ∉ l) ls ∧ (newline ∉ msg) ∧
       got c = unlines (ls ++ [msg]) ++ input_buffer_ c) ∧
  (newline ∉ msg → ∀ pieces, mjoin pieces = msg →
     es = [Done success []; Done success []] ++ (Done success <$> pieces) ++ [Done success [newline]] →
     ∃ c, tcp_main t success msg es = Returns tt c []).
Proof.
  split.
  - intros c es'. unfold tcp_main.
    destruct (connect _ _ _ _) as [|[] c1 es1|] eqn:E1; [done| |done].
    destruct (write_line _ _ _ _) as [|[] c2 es2|] eqn:E2; [done| |done]. intros Hmain.
    destruct (connect_write _ _ _ _ _ _ _ E1 E2) as [Hl Hs].
    destruct (await_line_returns _ _ _ _ _ _ _ Hl Hmain) as (ls & Hne & [Hnl Hg] & Hsent).
    cbn [app] in *. apply Forall_app in Hnl as [Hnl1 Hnl2]. apply Forall_cons_1 in Hnl2 as [Hm _].
    split; [congruence|]. exists ls. split_and!; [|done|done]. apply Forall_and. done.
  - intros Hmsg pieces Hp ->. set (tail := (Done success <$> pieces) ++ [Done success [newline]]).
    cbn [app]. unfold tcp_main.
    assert (connect (tcp_client t) success 10 (Done success [] :: Done success [] :: tail) =
              Returns tt (mkClient true false (Some (t + 10)%Z) t [] [] []) (Done success [] :: tail))
      as -> by reflexivity.
    assert (write_line (mkClient true false (Some (t + 10)%Z) t [] [] []) msg 10 (Done success [] :: tail) =
              Returns tt (mkClient true false (Some (t + 10)%Z) t [] [] (msg ++ [newline])) tail)
      as -> by reflexivity.
    assert (newline ∉ mjoin pieces) as Hmp by (by rewrite Hp).
    cbn [await_line]. unfold read_line, tail. rewrite run_loop_pieces; [|apply not_elem_of_nil|done]. rewrite Hp.
    cbn [failed]. change (failed success) with false. cbv iota. cbn [begin input_buffer_ app].
    rewrite (break_line_app msg []) by done. rewrite bool_decide_true by done. eauto.
Qed.

(** ** Examples *)

(** A server that does not answer: the read ends at its deadline with the error of
    the operation that was cut off; and one whose line comes in two pieces. *)
Definition silent : list event :=
  [Done success []; Done success []; Pass 10; Watch; Done operation_aborted []].

Example silent_main :
  tcp_main 0 success (lit "hi") silent =
    Throws operation_aborted (mkClient false true None 10 [] [] (lit "hi" ++ [newline])) [].
Proof. vm_compute. reflexivity. Qed.

(** The line comes in pieces, too slowly: one of them after the deadline. *)
Definition slow : list arrival :=
  [Woken 0; Arrives 4 false success (lit "h"); Arrives 12 false success (lit "i" ++ [newline])].

Definition connected : client := mkClient true false None 0 [] [] [].

Example slow_events :
  dispatch tcp_cut_off has_line 5 (begin connected 10) slow =
    [Pass 0; Watch; Pass 4; Done success (lit "h"); Pass 10; Watch; Pass 10; Done operation_aborted []].
Proof. vm_compute. reflexivity. Qed.


Lemma tcp_round_trip_witness :
  ∃ c, tcp_main 0 success (lit "hi")
         ([Done success []; Done success []] ++ (Done success <$> [lit "h"; lit "i"]) ++ [Done success [newline]]) =
       Returns tt c [].
Proof.
  apply (proj2 (tcp_round_trip 0 (lit "hi") _)) with (pieces := [lit "h"; lit "i"]); [|reflexivity..].
  apply (bool_decide_unpack _). vm_compute. exact I.
Defined.

(** The UDP client: a timeout, then a datagram. *)
Example udp_timeout :
  (udp_main 2 (udp_client 0) [Pass 10; Watch; Done operation_aborted []; Pass 12; Done success (lit "x")]).1 =
    [(operation_aborted, []); (success, lit "x")].
Proof. vm_compute. reflexivity. Qed.

End BlockingClient.
