(* ===== verification/Echo.v ===== *)
(** * Echo servers and their clients

    (src/doc_searcher/data/input/html/boost_asio/example/echo/*.cpp, ssl/server.cpp
    and ssl/client.cpp, local/stream_server.cpp, local/stream_client.cpp,
    local/iostream_client.cpp.) A session reads what has come and writes it back,
    until an operation fails. The TCP and the SSL server allocate sessions with new;
    a session deletes itself in the handler that starts no further operation. *)

From S2P Require Import Prelude CxxString HttpReply Asio.
Import Asio.

(** ** Sessions that delete themselves *)
Module EchoServer.

Definition max_length : nat := 1024.

(** The operations; [async_write] is given the first [n] bytes of the buffer. *)
Inductive op := accepting | handshaking | reading | writing (n : nat).

#[export] Instance op_eq_dec : EqDecision op.
Proof. solve_decision. Defined.

Record session := mkSession {
  data_ : bytes;        (* the bytes of the buffer that have been read into it *)
}.

(** The sessions on the heap and the operations outstanding, each with the pointer
    [this] its handler was bound to, which says nothing about whether the session is
    still there; what has been read from and written to the socket of each session
    that was made, which outlives the session and is not kept by the program. *)
Record server := mkServer {
  heap : gmap nat session;
  ops : list (nat * op);
  next_session : nat;
  wires : gmap nat (bytes * bytes);
}.

Definition put (v : server) (i : nat) (s : session) : server :=
  mkServer (<[i := s]> (heap v)) (ops v) (next_session v) (wires v).

(** [delete this] *)
Definition delete_session (v : server) (i : nat) : server :=
  mkServer (delete i (heap v)) (ops v) (next_session v) (wires v).

(** An operation is started with a handler bound to the session [i]. *)
Definition async_op (v : server) (i : nat) (o : op) : server :=
  mkServer (heap v) ((i, o) :: ops v) (next_session v) (wires v).

Definition record (v : server) (i : nat) (got sent : bytes) : server :=
  mkServer (heap v) (ops v) (next_session v)
    (<[i := let '(a, b) := default ([], []) (wires v !! i) in (a ++ got, b ++ sent)]> (wires v)).

(** A handler runs with [this]; a session that was deleted must not be used. *)
Definition with_session (v : server) (i : nat) (f : session → outcome server) : outcome server :=
  match heap v !! i with
  | Some s => f s
  | None => Undef NullDeref
  end.

(** [session::start] of the TCP and of the SSL server. *)
Definition start (v : server) (i : nat) : server := async_op v i reading.
Definition ssl_start (v : server) (i : nat) : server := async_op v i handshaking.

(** [session::handle_handshake] *)
Definition handle_handshake (v : server) (i : nat) (error : error_code) : outcome server :=
  with_session v i (λ s,
    if failed error then Ret (delete_session v i) else Ret (async_op v i reading)).

(** [session::handle_read], [data] being what was read into the buffer. *)
Definition handle_read (v : server) (i : nat) (error : error_code) (data : bytes) : outcome server :=
  with_session v i (λ s,
    if failed error then Ret (delete_session v i)
    else Ret (async_op (put (record v i data []) i (mkSession data)) i (writing (length data)))).

(** [session::handle_write], after [n] bytes of the buffer have been written. *)
Definition handle_write (v : server) (i : nat) (error : error_code) (n : nat) : outcome server :=
  with_session v i (λ s,
    let v := record v i [] (take n (data_ s)) in
    if failed error then Ret (delete_session v i) else Ret (async_op v i reading)).

(** [server::start_accept]: [new session]. *)
Definition start_accept (v : server) : server :=
  let i := next_session v in
  async_op (mkServer (<[i := mkSession []]> (heap v)) (ops v) (S i) (<[i := ([], [])]> (wires v)))
    i accepting.

(** [server::handle_accept]; [begin] is the [start] of the session. *)
Definition handle_accept (begin : server → nat → server) (v : server) (i : nat) (error : error_code) :
    outcome server :=
  with_session v i (λ s,
    let v := if failed error then delete_session v i else begin v i in
    Ret (start_accept v)).

Definition server_new : server := start_accept (mkServer ∅ [] 0 ∅).

(** The SSL server has the same handlers on its encrypted stream, and its own
    [start]. *)
Definition ssl_server_read : server → nat → error_code → bytes → outcome server := handle_read.
Definition ssl_server_write : server → nat → error_code → nat → outcome server := handle_write.
Definition ssl_server_accept : server → nat → error_code → outcome server := handle_accept ssl_start.
Definition ssl_server_start_accept : server → server := start_accept.

Definition with_ops (v : server) (l : list (nat * op)) : server :=
  mkServer (heap v) l (next_session v) (wires v).

(** An operation completes, and its handler is called with the pointer it was bound
    to. [async_write] succeeds when everything has been written; a read brings a byte
    at least and at most the buffer. *)
Inductive step (begin : server → nat → server) : server → outcome server → Prop :=
  | step_accept v i l error :
      ops v ≡ₚ (i, accepting) :: l → step begin v (handle_accept begin (with_ops v l) i error)
  | step_handshake v i l error :
      ops v ≡ₚ (i, handshaking) :: l → step begin v (handle_handshake (with_ops v l) i error)
  | step_read v i l error data :
      ops v ≡ₚ (i, reading) :: l →
      (error = success → 0 < length data ≤ max_length) →
      step begin v (handle_read (with_ops v l) i error data)
  | step_write v i l k error n :
      ops v ≡ₚ (i, writing k) :: l → n ≤ k → (error = success → n = k) →
      step begin v (handle_write (with_ops v l) i error n).

Inductive reachable (begin : server → nat → server) : server → Prop :=
  | reach_new : reachable begin server_new
  | reach_step v v' : reachable begin v → step begin v (Ret v') → reachable begin v'.

(** ** The invariant *)

(** What is being written is the whole of what was read last. *)
Definition in_progress (o : op) (s : session) : bytes :=
  match o with writing _ => data_ s | _ => [] end.

Definition op_ok (v : server) (i : nat) (o : op) : Prop :=
  ∃ s got sent, heap v !! i = Some s ∧ wires v !! i = Some (got, sent) ∧
    got = sent ++ in_progress o s ∧
    (∀ n, o = writing n → n = length (data_ s) ∧ 0 < n ≤ max_length).

Record inv (v : server) : Prop := {
  inv_ops : ∀ i o, (i, o) ∈ ops v → op_ok v i o;
  inv_one : NoDup (ops v).*1;
  inv_heap : ∀ i, is_Some (heap v !! i) → i < next_session v ∧ i ∈ (ops v).*1;
  inv_wires : ∀ i got sent, wires v !! i = Some (got, sent) → i < next_session v ∧ sent `prefix_of` got;
  inv_accept : ∃ i, ∀ j, (j, accepting) ∈ ops v ↔ j = i;
}.

(** Where the operation of a session stands among the others. *)
Lemma op_other v i o l :
  inv v → ops v ≡ₚ (i, o) :: l →
  NoDup l.*1 ∧ (i ∉ l.*1) ∧ op_ok v i o ∧ (∀ j o', (j, o') ∈ l → j ≠ i ∧ (j, o') ∈ ops v) ∧
  (∀ j, j ≠ i → is_Some (heap v !! j) → j ∈ l.*1).
Proof.
  intros Hi Hp. pose proof (inv_one _ Hi) as Hn. rewrite Hp in Hn. cbn in Hn.
  apply NoDup_cons in Hn as [Hni Hn]. split_and!; [done|done| | |].
  - apply (inv_ops _ Hi). rewrite Hp. left.
  - intros j o' Hj. split; [|rewrite Hp; by right]. intros ->. apply Hni.
    by apply (list_elem_of_fmap_2 fst) in Hj.
  - intros j Hne [_ Hj]%(inv_heap _ Hi). rewrite Hp in Hj. cbn in Hj. set_solver.
Qed.

(** A session other than [i] does not see what happens to [i]. *)
Lemma op_ok_other v v' i j o :
  op_ok v j o → j ≠ i → (∀ k, k ≠ i → heap v' !! k = heap v !! k) →
  (∀ k, k ≠ i → wires v' !! k = wires v !! k) → op_ok v' j o.
Proof.
  intros (s & got & sent & H1 & H2 & H3) Hne Hh Hw. exists s, got, sent. by rewrite Hh, Hw.
Qed.

(** A session whose operation has completed and that starts another. *)
Lemma echo_inv_put v i o l s' o' got sent w :
  inv v → ops v ≡ₚ (i, o) :: l → o ≠ accepting → o' ≠ accepting →
  w = <[i := (got, sent)]> (wires v) → got = sent ++ in_progress o' s' →
  (∀ n, o' = writing n → n = length (data_ s') ∧ 0 < n ≤ max_length) →
  inv (mkServer (<[i := s']> (heap v)) ((i, o') :: l) (next_session v) w).
Proof.
  intros Hi Hp Ho Ho' -> Hgot Hlen. destruct (op_other v i o l Hi Hp) as (Hn & Hni & Hok & Hoth & Hin).
  assert (is_Some (heap v !! i)) as Hsi by (destruct Hok as (s & ? & ? & ? & _); by exists s).
  destruct (inv_heap _ Hi i Hsi) as [Hlt _]. split; cbn.
  - intros j p [[= -> ->]|Hj]%elem_of_cons.
    + exists s', got, sent. cbn. by rewrite !lookup_insert_eq.
    + destruct (Hoth j p Hj) as [Hne Hv]. apply (op_ok_other v _ i); [by apply (inv_ops _ Hi)|done|..];
        intros k Hk; cbn; by rewrite lookup_insert_ne.
  - by constructor.
  - intros j Hj. destruct (decide (j = i)) as [->|Hne]; [split; [done|left]|].
    rewrite lookup_insert_ne in Hj by done. split; [by apply (inv_heap _ Hi)|]. right. by apply Hin.
  - intros j g t [[<- [= <- <-]]|[Hne Hj]]%lookup_insert_Some; [|by apply (inv_wires _ Hi)].
    split; [done|]. rewrite Hgot. by apply prefix_app_r.
  - destruct (inv_accept _ Hi) as [k Hk]. exists k. intros j. rewrite <-Hk, Hp. set_solver.
Qed.

(** A session that deletes itself. *)
Lemma inv_delete v i o l got sent w :
  inv v → ops v ≡ₚ (i, o) :: l → o ≠ accepting →
  w = <[i := (got, sent)]> (wires v) → sent `prefix_of` got →
  inv (mkServer (delete i (heap v)) l (next_session v) w).
Proof.
  intros Hi Hp Ho -> Hpre. destruct (op_other v i o l Hi Hp) as (Hn & Hni & Hok & Hoth & Hin).
  assert (is_Some (heap v !! i)) as Hsi by (destruct Hok as (s & ? & ? & ? & _); by exists s).
  destruct (inv_heap _ Hi i Hsi) as [Hlt _]. split; cbn.
  - intros j p Hj. destruct (Hoth j p Hj) as [Hne Hv].
    apply (op_ok_other v _ i); [by apply (inv_ops _ Hi)|done|..]; intros k Hk; cbn;
      [by rewrite lookup_delete_ne|by rewrite lookup_insert_ne].
  - done.
  - intros j [s [Hne Hj]%lookup_delete_Some].
    split; [apply (inv_heap _ Hi); by exists s|apply Hin; [done|by exists s]].
  - intros j g t [[<- [= <- <-]]|[Hne Hj]]%lookup_insert_Some; [done|]. by apply (inv_wires _ Hi).
  - destruct (inv_accept _ Hi) as [k Hk]. exists k. intros j. rewrite <-Hk, Hp. set_solver.
Qed.

Lemma record_eq v i got sent a b :
  wires v !! i = Some (got, sent) → wires (record v i a b) = <[i := (got ++ a, sent ++ b)]> (wires v).
Proof. intros H. unfold record. cbn. by rewrite H. Qed.

(** [start] and [ssl_start]: one operation on the session, and nothing else. *)
Definition begins (begin : server → nat → server) : Prop :=
  ∃ o, o ∈ [handshaking; reading] ∧ ∀ v i, begin v i = async_op v i o.

Lemma inv_accept_step begin v i l error :
  begins begin → inv v → ops v ≡ₚ (i, accepting) :: l →
  ∃ v', handle_accept begin (with_ops v l) i error = Ret v' ∧ inv v'.
Proof.
  intros (o & Ho & Hb) Hi Hp.
  destruct (op_other v i accepting l Hi Hp) as (Hn & Hni & (s & got & sent & Hs & Hw & Hg & _) & Hoth & Hin).
  cbn in Hg. unfold handle_accept, with_session. cbn [heap with_ops]. rewrite Hs.
  eexists. split; [reflexivity|]. destruct (inv_accept _ Hi) as [k Hk].
  assert (i = k) as <- by (apply Hk; rewrite Hp; left).
  assert (∀ j, (j, accepting) ∉ l) as Hno.
  { intros j Hj. destruct (Hoth j _ Hj) as [Hne Hv]. by apply Hne, Hk. }
  assert (∀ j, is_Some (heap v !! j) → j < next_session v) as Hlt by (intros j Hj; by apply (inv_heap _ Hi)).
  assert (i < next_session v) as Hi_lt by (apply Hlt; by exists s).
  assert (∀ j p, (j, p) ∈ l → op_ok v j p ∧ j ≠ i ∧ j < next_session v) as Hl.
  { intros j p Hj. destruct (Hoth j p Hj) as [Hne Hv]. pose proof (inv_ops _ Hi j p Hv) as Hok.
    split_and!; [done..|]. destruct Hok as (s0 & ? & ? & ? & _). apply Hlt. by exists s0. }
  set (n := next_session v) in *.
  assert (∀ j p (h : gmap nat session) (os : list (nat * op)), j < n → op_ok v j p →
     (∀ k, k = j → h !! k = heap v !! k) →
     op_ok (mkServer (<[n := mkSession []]> h) os (S n) (<[n := ([], [])]> (wires v))) j p) as Hfresh.
  { intros j p h os Hj (s0 & g & t & H1 & H2 & H3) Hh. exists s0, g, t. cbn.
    rewrite !lookup_insert_ne by lia. by rewrite Hh. }
  assert (∀ os, op_ok (mkServer (<[n := mkSession []]> os) [] (S n) (<[n := ([], [])]> (wires v))) n accepting) as Hnew.
  { intros os. exists (mkSession []), [], []. cbn. by rewrite !lookup_insert_eq. }
  assert (∀ j g t, <[n := ([], [])]> (wires v) !! j = Some (g, t) → j < S n ∧ t `prefix_of` g) as Hwires.
  { intros j g t [[<- [= <- <-]]|[Hne Hj]]%lookup_insert_Some; [split; [lia|done]|].
    destruct (inv_wires _ Hi j g t Hj). fold n in H. split; [lia|done]. }
  assert (n ∉ l.*1) as Hnl by (intros ([j p] & E & Hj)%list_elem_of_fmap; cbn in E; destruct (Hl j p Hj) as (_ & _ & ?); lia).
  destruct (failed error).
  - unfold start_accept, delete_session, with_ops, async_op. cbn. fold n. split; cbn; [| | |done|].
    + intros j p [[= -> ->]|Hj]%elem_of_cons; [apply Hnew|]. destruct (Hl j p Hj) as (Hok & Hne & ?).
      apply Hfresh; [done..|]. intros k ->. by rewrite lookup_delete_ne.
    + by constructor.
    + intros j. rewrite lookup_insert_is_Some'. intros [<-|[s0 [Hne Hj]%lookup_delete_Some]]; [split; [lia|left]|].
      specialize (Hlt j ltac:(by exists s0)). split; [lia|]. right. apply Hin; [done|by exists s0].
    + exists n. intros j. rewrite elem_of_cons. split; [intros [[= ->]|Hj]; [done|by destruct (Hno j)]|].
      intros ->. by left.
  - rewrite Hb. unfold start_accept, with_ops, async_op. cbn. fold n. split; cbn; [| | |done|].
    + intros j p [[= -> ->]|[[= -> ->]|Hj]%elem_of_cons]%elem_of_cons.
      * apply Hnew.
      * apply Hfresh; [done| |done]. exists s, got, sent. split_and!; [done|done| |].
        -- rewrite Hg. set_solver.
        -- intros m ->. set_solver.
      * destruct (Hl j p Hj) as (Hok & Hne & ?). by apply Hfresh.
    + constructor; [|by constructor]. rewrite elem_of_cons. intros [?|?]; [lia|done].
    + intros j. rewrite lookup_insert_is_Some'. intros [<-|Hj]; [split; [lia|left]|].
      specialize (Hlt j Hj). split; [lia|]. right. destruct (decide (j = i)) as [->|]; [left|right; by apply Hin].
    + exists n. intros j. rewrite !elem_of_cons. split.
      * intros [[= ->]|[[= -> <-]|Hj]]; [done|set_solver|by destruct (Hno j)].
      * intros ->. by left.
Qed.

Lemma echo_step_inv begin v o : begins begin → inv v → step begin v o → ∃ v', o = Ret v' ∧ inv v'.
Proof.
  intros Hbegin Hi Hst.
  destruct Hst as [v i l e Hp|v i l e Hp|v i l e data Hp Hd|v i l k e n Hp Hle Hn].
  - by apply inv_accept_step.
  - destruct (op_other v i _ l Hi Hp) as (_ & _ & (s & got & sent & Hs & Hw & Hg & _) & _ & _).
    cbn in Hg. rewrite app_nil_r in Hg. subst got.
    assert (wires v = <[i := (sent, sent)]> (wires v)) as Hid by by rewrite insert_id.
    unfold handle_handshake, with_session. cbn [heap with_ops]. rewrite Hs.
    destruct (failed e); eexists; (split; [reflexivity|]).
    + by apply (inv_delete v i handshaking l sent sent).
    + unfold async_op, with_ops. cbn. rewrite <-(insert_id (heap v) i s Hs).
      apply (echo_inv_put v i handshaking l s reading sent sent); [done..|by rewrite app_nil_r|done].
  - destruct (op_other v i _ l Hi Hp) as (_ & _ & (s & got & sent & Hs & Hw & Hg & _) & _ & _).
    cbn in Hg. rewrite app_nil_r in Hg. subst got.
    unfold handle_read, with_session. cbn [heap with_ops]. rewrite Hs.
    destruct (failed e) eqn:Ef; eexists; (split; [reflexivity|]).
    + apply (inv_delete v i reading l sent sent); [done..| |done]. cbn. by rewrite insert_id.
    + assert (e = success) as -> by (by destruct e).
      apply (echo_inv_put v i reading l (mkSession data) (writing (length data)) (sent ++ data) sent); try done.
      * change (wires (record (with_ops v l) i data []) = <[i := (sent ++ data, sent)]> (wires v)).
        by rewrite (record_eq _ _ _ _ _ _ (Hw : wires (with_ops v l) !! i = _)), app_nil_r.
      * intros m [= <-]. split; [done|]. by apply Hd.
  - destruct (op_other v i _ l Hi Hp) as (_ & _ & (s & got & sent & Hs & Hw & Hg & Hk) & _ & _).
    cbn in Hg. subst got. destruct (Hk k eq_refl) as [-> _].
    unfold handle_write, with_session. cbn [heap with_ops]. rewrite Hs.
    destruct (failed e) eqn:Ef; eexists; (split; [reflexivity|]).
    + eapply (inv_delete v i (writing _) l); [done..|by apply (record_eq (with_ops v l))|].
      rewrite app_nil_r. apply prefix_app. by exists (drop n (data_ s)); rewrite take_drop.
    + assert (e = success) as -> by (by destruct e). rewrite (Hn eq_refl).
      unfold async_op. cbn [heap ops next_session record with_ops]. rewrite <-(insert_id (heap v) i s Hs).
      eapply (echo_inv_put v i (writing _) l s reading (sent ++ data_ s) (sent ++ data_ s)); [done..| |by rewrite app_nil_r|done].
      by rewrite (record_eq _ _ _ _ _ _ (Hw : wires (with_ops v l) !! i = _)), app_nil_r, firstn_all.
Qed.

Lemma inv_new : inv server_new.
Proof.
  split; cbn.
  - intros i o [= -> ->]%list_elem_of_singleton. exists (mkSession []), [], []. cbn. by rewrite !lookup_insert_eq.
  - apply NoDup_singleton.
  - intros i. rewrite lookup_insert_is_Some'. intros [<-|[s Hx]]; [split; [lia|left]|by rewrite lookup_empty in Hx].
  - intros i g t [[<- [= <- <-]]|[? Hx]]%lookup_insert_Some; [split; [lia|done]|by rewrite lookup_empty in Hx].
  - exists 0. intros j. rewrite list_elem_of_singleton. naive_solver.
Qed.

Lemma echo_reachable_inv begin v : begins begin → reachable begin v → inv v.
Proof.
  intros Hbegin. induction 1 as [|v v' _ IH Hs]; [apply inv_new|].
  by destruct (echo_step_inv _ _ _ Hbegin IH Hs) as (? & [= <-] & ?).
Qed.

Lemma begins_either begin : begin = start ∨ begin = ssl_start → begins begin.
Proof. intros [-> | ->]; [exists reading|exists handshaking]; (split; [set_solver|done]). Qed.

(** C23: the echo servers that manage their sessions with new and delete, over TCP
    and over SSL. In every reachable state, whatever operation completes, its handler
    finds the session it was bound to alive, and is defined. No session has two
    operations outstanding, the sessions with an operation are exactly those on the
    heap (no handler is bound to a deleted session, and no session is leaked), and
    exactly one waits for the next connection. Each session has written back exactly
    what it has read, in order, except for the piece it is just writing, which is
    still in its buffer; and a session that is gone has written a prefix of what it
    has read. *)
Theorem echo_sessions begin v :
  begin = start ∨ begin = ssl_start → reachable begin v →
  (∀ o, step begin v o → ∃ v', o = Ret v' ∧ reachable begin v') ∧
  NoDup (ops v).*1 ∧
  (∀ i, i ∈ (ops v).*1 ↔ is_Some (heap v !! i)) ∧
  (∃ i, ∀ j, (j, accepting) ∈ ops v ↔ j = i) ∧
  (∀ i o, (i, o) ∈ ops v → ∃ s got sent,
     heap v !! i = Some s ∧ wires v !! i = Some (got, sent) ∧
     match o with
     | writing n => got = sent ++ data_ s ∧ n = length (data_ s) ∧ 0 < n ≤ max_length
     | _ => got = sent
     end) ∧
  (∀ i got sent, wires v !! i = Some (got, sent) → sent `prefix_of` got).
Proof.
  intros Hbegin%begins_either Hr. pose proof (echo_reachable_inv _ _ Hbegin Hr) as Hi. split_and!.
  - intros o Ho. destruct (echo_step_inv _ _ _ Hbegin Hi Ho) as (v' & -> & _). exists v'. split; [done|].
    by eapply reach_step.
  - apply (inv_one _ Hi).
  - intros i. split; [|by intros [_ ?]%(inv_heap _ Hi)].
    intros ([j o] & -> & Hj)%list_elem_of_fmap. destruct (inv_ops _ Hi j o Hj) as (s & ? & ? & ? & _). by exists s.
  - apply (inv_accept _ Hi).
  - intros i o Hin. destruct (inv_ops _ Hi i o Hin) as (s & got & sent & Hs & Hw & Hg & Hn).
    exists s, got, sent. split_and!; [done|done|]. destruct o; cbn in Hg; rewrite ?app_nil_r in Hg; try done.
    split; [done|]. by apply Hn.
  - intros i got sent Hx. by destruct (inv_wires _ Hi i got sent Hx).
Qed.

End EchoServer.

(** ** Sessions held by shared pointers

    (local/stream_server.cpp.) The handler bound to an operation holds a reference
    to its session; the session goes away with the last one. *)
Module SharedEcho.
Import EchoServer.

Record sp_server := mkSp {
  base : server;
  refs : gmap nat nat;      (* the use count of each session *)
}.

(** A copy of the shared pointer is made. *)
Definition acquire (v : sp_server) (i : nat) : sp_server :=
  mkSp (base v) (alter S i (refs v)).

(** A copy is destroyed; with the last one the session is deleted. *)
Definition release (v : sp_server) (i : nat) : sp_server :=
  match refs v !! i with
  | Some (S (S n)) => mkSp (base v) (<[i := S n]> (refs v))
  | _ => mkSp (delete_session (base v) i) (delete i (refs v))
  end.

Definition sp_with_session (v : sp_server) (i : nat) (f : session → sp_server) : outcome sp_server :=
  match heap (base v) !! i with
  | Some s => Ret (release (f s) i)      (* the handler is destroyed after its call *)
  | None => Undef NullDeref
  end.

(** An operation is started with a handler that holds [shared_from_this()]. *)
Definition start_op (v : sp_server) (i : nat) (o : op) : sp_server :=
  acquire (mkSp (async_op (base v) i o) (refs v)) i.

(** [session::start] *)
Definition sp_start (v : sp_server) (i : nat) : sp_server := start_op v i reading.

(** [session::handle_read] *)
Definition sp_handle_read (v : sp_server) (i : nat) (error : error_code) (data : bytes) : outcome sp_server :=
  sp_with_session v i (λ s,
    if failed error then v
    else start_op (mkSp (put (record (base v) i data []) i (mkSession data)) (refs v)) i
           (writing (length data))).

(** [session::handle_write] *)
Definition sp_handle_write (v : sp_server) (i : nat) (error : error_code) (n : nat) : outcome sp_server :=
  sp_with_session v i (λ s,
    let v := mkSp (record (base v) i [] (take n (data_ s))) (refs v) in
    if failed error then v else start_op v i reading).

(** [new session] whose only reference is the one in the handler of the accept. *)
Definition sp_accept_next (v : sp_server) : sp_server :=
  mkSp (start_accept (base v)) (<[next_session (base v) := 1]> (refs v)).

(** [server::handle_accept]: the reset of [new_session] destroys the reference to
    the session that was accepted. *)
Definition sp_handle_accept (v : sp_server) (i : nat) (error : error_code) : outcome sp_server :=
  match heap (base v) !! i with
  | Some s =>
      let v := if failed error then v else sp_start v i in
      Ret (sp_accept_next (release v i))
  | None => Undef NullDeref
  end.

Definition sp_server_new : sp_server := sp_accept_next (mkSp (mkServer ∅ [] 0 ∅) ∅).

(** Between handlers every session has one reference: that of its operation. *)
Definition refs_ok (v : sp_server) : Prop :=
  (∀ i, refs v !! i = (λ _, 1) <$> heap (base v) !! i) ∧
  ∀ i s, heap (base v) !! i = Some s → i < next_session (base v).

Lemma release_started v i o s0 :
  refs_ok v → heap (base v) !! i = Some s0 →
  release (start_op v i o) i = mkSp (async_op (base v) i o) (refs v).
Proof.
  intros [Hr _] Hs. unfold release, start_op, acquire. cbn. rewrite lookup_alter_eq, Hr, Hs. cbn.
  f_equal. apply map_eq. intros j. destruct (decide (i = j)) as [->|Hne].
  - rewrite lookup_insert_eq. by rewrite Hr, Hs.
  - rewrite lookup_insert_ne, lookup_alter_ne by done. done.
Qed.

Lemma release_last v i s0 :
  refs_ok v → heap (base v) !! i = Some s0 →
  release v i = mkSp (delete_session (base v) i) (delete i (refs v)).
Proof. intros [Hr _] Hs. unfold release. by rewrite Hr, Hs. Qed.

Lemma refs_ok_put v i s s0 :
  refs_ok v → heap (base v) !! i = Some s0 → refs_ok (mkSp (put (base v) i s) (refs v)).
Proof.
  intros [Hr Hn] Hs. split; cbn.
  - intros j. rewrite Hr. destruct (decide (i = j)) as [->|Hne].
    + by rewrite lookup_insert_eq, Hs.
    + by rewrite lookup_insert_ne by done.
  - intros j s' [[<- <-]|[_ Hj]]%lookup_insert_Some; by eapply Hn.
Qed.

Lemma refs_ok_delete v i :
  refs_ok v → refs_ok (mkSp (delete_session (base v) i) (delete i (refs v))).
Proof.
  intros [Hr Hn]. split; cbn.
  - intros j. destruct (decide (i = j)) as [->|Hne]; [by rewrite !lookup_delete_eq|].
    by rewrite !lookup_delete_ne by done.
  - intros j s' [_ Hj]%lookup_delete_Some. by eapply Hn.
Qed.

Lemma refs_ok_async v i o : refs_ok v → refs_ok (mkSp (async_op (base v) i o) (refs v)).
Proof. done. Qed.

Lemma refs_ok_record v i a b : refs_ok v → refs_ok (mkSp (record (base v) i a b) (refs v)).
Proof. done. Qed.

Lemma refs_ok_accept v : refs_ok v → refs_ok (sp_accept_next v).
Proof.
  intros [Hr Hn]. split; cbn.
  - intros j. destruct (decide (next_session (base v) = j)) as [<-|Hne]; [by rewrite !lookup_insert_eq|].
    by rewrite !lookup_insert_ne by done.
  - intros j s' [[<- <-]|[_ Hj]]%lookup_insert_Some; [lia|]. apply Hn in Hj. lia.
Qed.

(** Reference counting does what the explicit delete does. From a state in which
    each session has the reference of its outstanding operation and no other, every
    handler of the server with shared pointers has the effect of the handler of the
    server that deletes its sessions, on every outcome of the operation, and leaves
    such a state: a session is destroyed exactly where the other server deletes it,
    never earlier and never leaked. *)
Theorem shared_equiv v i error data n :
  refs_ok v → is_Some (heap (base v) !! i) →
  (base <$> sp_handle_accept v i error = handle_accept start (base v) i error ∧
   base <$> sp_handle_read v i error data = handle_read (base v) i error data ∧
   base <$> sp_handle_write v i error n = handle_write (base v) i error n) ∧
  (∀ v', sp_handle_accept v i error = Ret v' ∨ sp_handle_read v i error data = Ret v' ∨
         sp_handle_write v i error n = Ret v' → refs_ok v').
Proof.
  intros Hok [s Hs].
  unfold sp_handle_accept, sp_handle_read, sp_handle_write, sp_with_session, sp_start.
  unfold handle_accept, handle_read, handle_write, with_session. cbn [base]. rewrite Hs.
  assert (∀ a b, heap (base (mkSp (record (base v) i a b) (refs v))) !! i = Some s) as Hs' by done.
  destruct (failed error) eqn:Ef; cbn [base].
  - erewrite (release_last v), (release_last (mkSp (record _ _ _ _) _)) by (done || by apply refs_ok_record).
    split; [done|]. intros v' [[= <-]|[[= <-]|[= <-]]].
    + apply refs_ok_accept. by apply refs_ok_delete.
    + by apply refs_ok_delete.
    + apply (refs_ok_delete (mkSp (record (base v) i [] (take n (data_ s))) (refs v))). by apply refs_ok_record.
  - assert (refs_ok (mkSp (put (record (base v) i data []) i (mkSession data)) (refs v))) as Hput.
    { by apply (refs_ok_put (mkSp (record (base v) i data []) (refs v)) i (mkSession data) s), Hs'. }
    rewrite (release_started _ i reading s Hok Hs).
    rewrite (release_started _ i (writing (length data)) (mkSession data) Hput) by apply lookup_insert_eq.
    rewrite (release_started (mkSp (record (base v) i [] (take n (data_ s))) (refs v)) i reading s) by done.
    split; [done|]. intros v' [[= <-]|[[= <-]|[= <-]]]; [by apply refs_ok_accept|done..].
Qed.

Lemma refs_ok_new : refs_ok sp_server_new.
Proof. apply refs_ok_accept. split; cbn; [done|]. intros i s Hx. by rewrite lookup_empty in Hx. Qed.

End SharedEcho.

(** ** The clients *)
Module EchoClient.
Import EchoServer.

(** [cin.getline(request, max_length)] and [strlen(request)]: the line, cut at 1023
    characters and at a null character. *)
Definition typed_request (cin : bytes) : bytes :=
  HttpReply.c_str (take (max_length - 1) (break_line cin).1).

(** [read(s, buffer(reply, n))]: exactly [n] bytes, or the error that ended the
    stream before. A piece that has more leaves the rest on the socket. *)
Fixpoint read_exactly (n : nat) (l : list bytes) (fin : error_code) : error_code + bytes :=
  match n with
  | 0 => inr []
  | _ =>
      match l with
      | [] => inl fin
      | x :: l =>
          if (n <=? length x)%nat then inr (take n x)
          else match read_exactly (n - length x) l fin with
               | inl e => inl e
               | inr r => inr (x ++ r)
               end
      end
  end.

Definition prompt : bytes := lit "Enter message: ".
Definition reply_is (reply : bytes) : bytes := lit "Reply is: " ++ reply ++ [newline].

(** blocking_tcp_echo_client.cpp, with the errors of connecting (which is preceded by
    resolving the name) and of writing: the bytes sent, the console, and the exception
    that was caught, if any. *)
Definition tcp_client (connect_ec write_ec : error_code) (cin : bytes) (i : inbound) :
    bytes * bytes * option error_code :=
  if failed connect_ec then ([], [], Some connect_ec) else
  let request := typed_request cin in
  if failed write_ec then ([], prompt, Some write_ec) else
  match read_exactly (length request) (pieces i) (closing i) with
  | inl e => (request, prompt, Some e)
  | inr reply => (request, prompt ++ reply_is reply, None)
  end.

(** local/stream_client.cpp: the same on a local socket. *)
Definition stream_client (connect_ec write_ec : error_code) (cin : bytes) (i : inbound) :
    bytes * bytes * option error_code :=
  tcp_client connect_ec write_ec cin i.

(** local/iostream_client.cpp: [s.read(reply, length)] may get fewer bytes; [length]
    bytes of the array are written all the same, [junk] being what it held. *)
Definition iostream_client (cin junk : bytes) (i : inbound) : bytes * bytes :=
  let request := typed_request cin in
  let n := length request in
  let got := take n (all_of i) in
  (request, prompt ++ reply_is (take n (got ++ drop (length got) junk))).

(** ssl/client.cpp: the chain of handlers. *)
Inductive ssl_op := connecting | shaking | sending | receiving | finished.

Record ssl_client := mkSsl {
  ssl_pending : ssl_op;
  request_ : bytes;
  ssl_out : bytes;
}.

Section Ssl.
Context {ET : ErrorText}.

Definition ssl_fail (c : ssl_client) (text : bytes) (e : error_code) : ssl_client :=
  mkSsl finished (request_ c) (ssl_out c ++ text ++ message e ++ [newline]).

Definition ssl_handle_connect (c : ssl_client) (error : error_code) : ssl_client :=
  if failed error then ssl_fail c (lit "Connect failed: ") error
  else mkSsl shaking (request_ c) (ssl_out c).

Definition ssl_handle_handshake (c : ssl_client) (error : error_code) (cin : bytes) : ssl_client :=
  if failed error then ssl_fail c (lit "Handshake failed: ") error
  else mkSsl sending (typed_request cin) (ssl_out c ++ prompt).

(** The read asks for as many bytes as were written. *)
Definition ssl_handle_write (c : ssl_client) (error : error_code) : ssl_client :=
  if failed error then ssl_fail c (lit "Write failed: ") error
  else mkSsl receiving (request_ c) (ssl_out c).

Definition ssl_handle_read (c : ssl_client) (reply : error_code + bytes) : ssl_client :=
  match reply with
  | inl e => ssl_fail c (lit "Read failed: ") e
  | inr reply => mkSsl finished (request_ c) (ssl_out c ++ lit "Reply: " ++ reply ++ [newline])
  end.

(** The run of the client, operation by operation. *)
Definition ssl_run (connect_ec shake_ec write_ec : error_code) (cin : bytes) (i : inbound) : ssl_client :=
  let c := ssl_handle_connect (mkSsl connecting [] []) connect_ec in
  match ssl_pending c with
  | shaking =>
      let c := ssl_handle_handshake c shake_ec cin in
      match ssl_pending c with
      | sending =>
          let c := ssl_handle_write c write_ec in
          match ssl_pending c with
          | receiving => ssl_handle_read c (read_exactly (length (request_ c)) (pieces i) (closing i))
          | _ => c
          end
      | _ => c
      end
  | _ => c
  end.
End Ssl.

Lemma read_exactly_all n l fin : length (mjoin l) = n → read_exactly n l fin = inr (mjoin l).
Proof.
  revert n. induction l as [|x l IH]; intros n Hn.
  - cbn in Hn. by subst.
  - change (mjoin (x :: l)) with (x ++ mjoin l) in *. rewrite length_app in Hn.
    destruct n as [|n]; cbn [read_exactly].
    + by destruct x, (mjoin l).
    + destruct (S n <=? length x)%nat eqn:E.
      * apply Nat.leb_le in E. rewrite take_ge by lia. assert (length (mjoin l) = 0) as H0 by lia.
        apply length_zero_iff_nil in H0. by rewrite H0, app_nil_r.
      * apply Nat.leb_gt in E. rewrite IH by lia. done.
Qed.

(** C24: client and server together. Take any reachable state of the echo server in
    which a session has read the request of a client and waits for more. What it has
    written reaches the client, in whatever pieces: the TCP, the local, the stream
    and the SSL client all show the line that was typed, up to its first 1023
    characters and to a null character. *)
Theorem echo_round_trip {ET : ErrorText} begin v i cin sent l junk :
  begin = start ∨ begin = ssl_start → reachable begin v → (i, reading) ∈ ops v →
  wires v !! i = Some (typed_request cin, sent) → mjoin l = sent →
  tcp_client success success cin (mkIn l eof) = (typed_request cin, prompt ++ reply_is (typed_request cin), None) ∧
  stream_client success success cin (mkIn l eof) = (typed_request cin, prompt ++ reply_is (typed_request cin), None) ∧
  iostream_client cin junk (mkIn l eof) = (typed_request cin, prompt ++ reply_is (typed_request cin)) ∧
  ssl_out (ssl_run success success success cin (mkIn l eof)) =
    prompt ++ lit "Reply: " ++ typed_request cin ++ [newline].
Proof.
  intros Hb%begins_either Hr Hs Hw Hl.
  destruct (inv_ops _ (echo_reachable_inv _ _ Hb Hr) i reading Hs) as (s & got & sent' & _ & Hw' & Hg & _).
  rewrite Hw in Hw'. injection Hw' as <- <-. unfold in_progress in Hg. rewrite app_nil_r in Hg.
  rewrite <-Hg in Hl.
  assert (read_exactly (length (typed_request cin)) l eof = inr (typed_request cin)) as Hread
    by (rewrite <-Hl at 1 2; by apply read_exactly_all).
  unfold stream_client, tcp_client. change (failed success) with false. cbn [pieces closing].
  rewrite Hread. split_and!; [done|done| |].
  - unfold iostream_client, all_of. cbn [pieces]. rewrite Hl.
    rewrite (firstn_all (typed_request cin)). by rewrite take_app_length.
  - change (ssl_run success success success cin (mkIn l eof)) with
      (ssl_handle_read (mkSsl receiving (typed_request cin) ([] ++ prompt))
         (read_exactly (length (typed_request cin)) l eof)). by rewrite Hread.
Qed.

(** The stream client writes bytes of the array that were never set when the
    answer is short. *)
Example iostream_short :
  iostream_client (lit "abc") (lit "????") (mkIn [lit "a"] eof) =
    (lit "abc", prompt ++ reply_is (lit "a??")).
Proof. vm_compute. reflexivity. Qed.

End EchoClient.

(** ** UDP and the blocking servers *)
Module EchoUdp.

Definition endpoint : Type := nat.

(** A datagram the socket delivers, or the error of the receive operation. *)
Record delivery := mkDelivery { del_error : error_code; sender : endpoint; payload : bytes }.

Definition udp_max_length : nat := 1024.

(** The operation outstanding on the socket of async_udp_echo_server.cpp. *)
Inductive udp_op := receiving | sending.

Record udp_server := mkUdp {
  udp_pending : udp_op;
  sender_endpoint_ : endpoint;
  udp_data_ : bytes;
  sent : list (endpoint * bytes);    (* the datagrams sent; not kept by the program *)
}.

Definition udp_server_new : udp_server := mkUdp receiving 0 [] [].

(** [handle_receive_from] *)
Definition handle_receive_from (v : udp_server) (d : delivery) : udp_server :=
  if negb (failed (del_error d)) && (0 <? length (payload d))%nat then
    mkUdp sending (sender d) (payload d) (sent v)
  else mkUdp receiving (sender d) (payload d) (sent v).

(** [handle_send_to]: the error is ignored. [went]: the datagram was sent. *)
Definition handle_send_to (v : udp_server) (went : bool) : udp_server :=
  mkUdp receiving (sender_endpoint_ v) (udp_data_ v)
    (sent v ++ if went then [(sender_endpoint_ v, udp_data_ v)] else []).

(** The server takes deliveries one after the other: the next receive is started
    when the answer to the last has been sent. *)
Fixpoint run_server (v : udp_server) (l : list (delivery * bool)) : udp_server :=
  match l with
  | [] => v
  | (d, went) :: l =>
      let v := handle_receive_from v d in
      let v := match udp_pending v with sending => handle_send_to v went | receiving => v end in
      run_server v l
  end.

(** blocking_udp_echo_server.cpp: an error of [receive_from] or [send_to] leaves
    the loop as an exception. *)
Fixpoint blocking_server (l : list (delivery * error_code)) : list (endpoint * bytes) * option error_code :=
  match l with
  | [] => ([], None)
  | (d, send_error) :: l =>
      if failed (del_error d) then ([], Some (del_error d))
      else if failed send_error then ([], Some send_error)
      else let '(out, e) := blocking_server l in ((sender d, payload d) :: out, e)
  end.

(** blocking_udp_echo_client.cpp: it shows the first datagram that comes, whoever
    sent it. *)
Definition udp_client (resolve_ec send_ec : error_code) (cin : bytes) (d : delivery) :
    bytes * bytes * option error_code :=
  if failed resolve_ec then ([], [], Some resolve_ec) else
  let request := EchoClient.typed_request cin in
  if failed send_ec then ([], EchoClient.prompt, Some send_ec)
  else if failed (del_error d) then (request, EchoClient.prompt, Some (del_error d))
  else (request, EchoClient.prompt ++ EchoClient.reply_is (take udp_max_length (payload d)), None).

(** What an echo service answers. *)
Definition answers (l : list (delivery * bool)) : list (endpoint * bytes) :=
  omap (λ '(d, went), if decide (del_error d = success ∧ payload d ≠ [] ∧ went = true)
                      then Some (sender d, payload d) else None) l.

Lemma typed_request_length cin : length (EchoClient.typed_request cin) ≤ udp_max_length.
Proof.
  unfold EchoClient.typed_request, udp_max_length.
  etransitivity; [apply prefix_length, HttpReply.c_str_prefix|]. rewrite length_take. unfold EchoServer.max_length. lia.
Qed.

Lemma run_server_sent v l :
  udp_pending v = receiving →
  udp_pending (run_server v l) = receiving ∧ sent (run_server v l) = sent v ++ answers l.
Proof.
  revert v. induction l as [|[d went] l IH]; intros v Hv; [by rewrite app_nil_r|].
  cbn [run_server]. unfold handle_receive_from.
  destruct (failed (del_error d)) eqn:Ef; cbn [negb andb].
  - cbn [udp_pending]. destruct (IH (mkUdp receiving (sender d) (payload d) (sent v)) eq_refl) as [-> ->].
    split; [done|]. cbn. rewrite decide_False; [done|]. intros [E _]. by rewrite E in Ef.
  - assert (del_error d = success) as Es by (by destruct (del_error d)).
    destruct (payload d) as [|c p] eqn:Ep; cbn [length Nat.ltb Nat.leb udp_pending].
    + destruct (IH (mkUdp receiving (sender d) [] (sent v)) eq_refl) as [-> ->].
      split; [done|]. cbn. rewrite Ep, decide_False by naive_solver. done.
    + edestruct IH as [-> ->]; [|split; [done|]]; [done|]. cbn. rewrite Ep. destruct went.
      * rewrite decide_True by done. by rewrite <-app_assoc.
      * rewrite decide_False by naive_solver. by rewrite app_nil_r.
Qed.

(** The UDP echo servers. The asynchronous one answers every datagram that is
    received without error and is not empty, to its sender, with its bytes, once
    and in order, and nothing else; errors do not stop it. The blocking one sends the
    same answers as long as no operation fails and no datagram is empty; an empty
    datagram it answers too, and the first error ends it. A client whose line is not
    empty gets its request back from either. *)
Theorem udp_echo l :
  sent (run_server udp_server_new l) = answers l ∧
  udp_pending (run_server udp_server_new l) = receiving ∧
  (∀ l', Forall (λ x, del_error x.1 = success ∧ x.2 = success) l' →
     (blocking_server l').2 = None ∧
     (blocking_server l').1 = (λ x, (sender x.1, payload x.1)) <$> l' ∧
     (Forall (λ x, payload x.1 ≠ []) l' →
        (blocking_server l').1 = answers ((λ x, (x.1, true)) <$> l'))) ∧
  (∀ l1 d e l2, Forall (λ x, del_error x.1 = success ∧ x.2 = success) l1 → failed (del_error d) = true →
     (blocking_server (l1 ++ (d, e) :: l2)).2 = Some (del_error d)) ∧
  (∀ cin me server_ep, let request := EchoClient.typed_request cin in request ≠ [] →
     sent (run_server udp_server_new [(mkDelivery success me request, true)]) = [(me, request)] ∧
     (blocking_server [(mkDelivery success me request, success)]).1 = [(me, request)] ∧
     udp_client success success cin (mkDelivery success server_ep request) =
       (request, EchoClient.prompt ++ EchoClient.reply_is request, None)).
Proof.
  split_and!.
  - by destruct (run_server_sent udp_server_new l).
  - by destruct (run_server_sent udp_server_new l).
  - intros l' Hl. induction Hl as [|[d e] l' [Hd He] Hl IH]; [done|]. cbn in Hd, He. cbn [blocking_server].
    rewrite Hd, He. change (failed success) with false. cbv iota.
    destruct (blocking_server l') as [out x]. cbn in IH. destruct IH as (-> & -> & Hans). cbn.
    split_and!; [done..|]. intros [Hp Hps]%Forall_cons_1. cbn in Hp. rewrite decide_True by done.
    f_equal. by apply Hans.
  - intros l1 d e l2 Hl Hd. induction Hl as [|[d1 e1] l1 [H1 H2] Hl IH]; cbn [app blocking_server].
    + by rewrite Hd.
    + cbn in H1, H2. rewrite H1, H2. change (failed success) with false. cbv iota.
      by destruct (blocking_server (l1 ++ (d, e) :: l2)).
  - intros cin me ep request Hne. split_and!; [|done|].
    + destruct (run_server_sent udp_server_new [(mkDelivery success me request, true)]) as [_ ->]; [done|].
      cbn. by rewrite decide_True.
    + unfold udp_client. cbn [del_error payload]. change (failed success) with false. cbv iota zeta.
      fold request. rewrite take_ge; [done|]. apply typed_request_length.
Qed.

(** The blocking client sends an empty datagram for an empty line and waits for the
    answer; only the blocking server gives one. *)
Example udp_empty :
  sent (run_server udp_server_new [(mkDelivery success 1 [], true)]) = [] ∧
  (blocking_server [(mkDelivery success 1 [], success)]).1 = [(1, [])].
Proof. done. Qed.

(** ** The session of blocking_tcp_echo_server.cpp *)

(** How the thread of a session ends. *)
Inductive ending := running | closed | thrown (e : error_code).

(** Each round: the result of [read_some] and the error of [write]. *)
Fixpoint tcp_session (l : list (error_code * bytes * error_code)) : bytes * ending :=
  match l with
  | [] => ([], running)
  | (error, data, write_error) :: l =>
      if bool_decide (error = eof) then ([], closed)
      else if failed error then ([], thrown error)
      else if failed write_error then ([], thrown write_error)
      else let '(out, e) := tcp_session l in (data ++ out, e)
  end.

Lemma tcp_session_echo l rest :
  Forall (λ x, x.1.1 = success ∧ x.2 = success) l →
  tcp_session (l ++ rest) = (mjoin ((λ x, x.1.2) <$> l) ++ (tcp_session rest).1, (tcp_session rest).2).
Proof.
  intros Hl. induction Hl as [|[[e data] w] l [He Hw] Hl IH]; cbn; [by destruct (tcp_session rest)|].
  cbn in He, Hw. rewrite He, Hw, IH. cbn. by rewrite <-app_assoc.
Qed.

End EchoUdp.

(** ** Examples *)
Module EchoExamples.
Import EchoServer SharedEcho EchoClient.

(** A session has read "hi" and written it back. *)
Definition echoed : server :=
  mkServer {[0 := mkSession (lit "hi"); 1 := mkSession []]} [(0, reading); (1, accepting)] 2
    {[0 := (lit "hi", lit "hi"); 1 := ([], [])]}.

Lemma echo_reach_ret begin v o v' : reachable begin v → step begin v o → o = Ret v' → reachable begin v'.
Proof. intros Hr Hs ->. by eapply reach_step. Qed.

Lemma echoed_reachable : reachable start echoed.
Proof.
  eapply echo_reach_ret; [eapply echo_reach_ret; [eapply echo_reach_ret; [apply reach_new|..]|..]|..].
  - apply (step_accept start _ 0 [] success). reflexivity.
  - reflexivity.
  - apply (step_read start _ 0 [(1, accepting)] success (lit "hi"));
      [vm_compute; apply Permutation_swap|cbn; unfold max_length; lia].
  - reflexivity.
  - apply (step_write start _ 0 [(1, accepting)] 2 success 2); [vm_compute; reflexivity|done|done].
  - vm_compute. reflexivity.
Qed.

Lemma echo_sessions_witness :
  reachable start echoed ∧ is_Some (heap echoed !! 0) ∧
  ∀ i got sent, wires echoed !! i = Some (got, sent) → sent `prefix_of` got.
Proof.
  split; [apply echoed_reachable|].
  destruct (echo_sessions start echoed (or_introl eq_refl) echoed_reachable) as (_ & _ & Hh & _ & _ & Hw).
  split; [|exact Hw]. apply Hh. left.
Defined.

Definition texts : ErrorText :=
  Build_ErrorText (λ _, lit "message") (λ _, lit "code") (λ _, lit "what").

Lemma echo_round_trip_witness :
  EchoClient.tcp_client success success (lit "hi" ++ [newline]) (mkIn [lit "h"; lit "i"] eof) =
    (lit "hi", prompt ++ reply_is (lit "hi"), None).
Proof.
  refine (proj1 (@echo_round_trip texts start echoed 0 (lit "hi" ++ [newline])
           (lit "hi") [lit "h"; lit "i"] [] (or_introl eq_refl) echoed_reachable _ _ eq_refl)).
  - left.
  - apply lookup_insert_eq.
Defined.

Lemma shared_equiv_witness :
  base <$> sp_handle_accept sp_server_new 0 success = handle_accept start (base sp_server_new) 0 success.
Proof.
  refine (proj1 (proj1 (shared_equiv sp_server_new 0 success [] 0 refs_ok_new _))).
  eexists. vm_compute. reflexivity.
Defined.

Lemma udp_echo_witness :
  EchoUdp.sent (EchoUdp.run_server EchoUdp.udp_server_new
    [(EchoUdp.mkDelivery success 7 (lit "a"), true); (EchoUdp.mkDelivery success 8 [], true)]) =
  [(7, lit "a")].
Proof.
  destruct (EchoUdp.udp_echo [(EchoUdp.mkDelivery success 7 (lit "a"), true);
                              (EchoUdp.mkDelivery success 8 [], true)]) as [-> _].
  vm_compute. reflexivity.
Defined.

End EchoExamples.
