(* ===== verification/Allocation.v ===== *)
(** * Custom memory allocation for handlers

    (src/doc_searcher/data/input/html/boost_asio/example/allocation/server.cpp.) An
    echo session owns a block of 1024 bytes; the memory Asio needs for the handler of
    an outstanding operation comes from it, or from the heap when it is taken or too
    small. Asio frees that memory before it calls the handler. *)

From S2P Require Import Prelude CxxString Asio.
Import Asio.

Module Allocation.

(** ** handler_allocator *)

(** What [allocate] returns: the address of [storage_] or of a heap block. *)
Inductive pointer := Storage | Heap (n : nat).

#[export] Instance pointer_eq_dec : EqDecision pointer.
Proof. solve_decision. Defined.

(** [storage_.size] *)
Definition storage_size : nat := 1024.

(** The allocator, and the blocks that were obtained from the heap and not yet
    given back, with their sizes. *)
Record handler_allocator := mkAlloc {
  in_use_ : bool;
  blocks : gmap nat nat;
  next_block : nat;
}.

Definition allocator_new : handler_allocator := mkAlloc false ∅ 0.

(** [allocate]; [::operator new] gives a new block. *)
Definition allocate (a : handler_allocator) (size : nat) : handler_allocator * pointer :=
  if negb (in_use_ a) && (size <? storage_size)%nat then
    (mkAlloc true (blocks a) (next_block a), Storage)
  else
    (mkAlloc (in_use_ a) (<[next_block a := size]> (blocks a)) (S (next_block a)), Heap (next_block a)).

(** [deallocate]; [::operator delete] of what is not a live block is undefined. *)
Definition deallocate (a : handler_allocator) (p : pointer) : outcome handler_allocator :=
  match p with
  | Storage => Ret (mkAlloc false (blocks a) (next_block a))
  | Heap n =>
      match blocks a !! n with
      | Some _ => Ret (mkAlloc (in_use_ a) (delete n (blocks a)) (next_block a))
      | None => Undef NullDeref
      end
  end.

(** The bytes behind a pointer. *)
Definition capacity (a : handler_allocator) (p : pointer) : option nat :=
  match p with
  | Storage => Some storage_size
  | Heap n => blocks a !! n
  end.

(** ** What an allocator promises

    A client holds the pointers it was given and has not returned, with the sizes it
    asked for. *)
Definition held : Type := list (pointer * nat).

Inductive use : handler_allocator * held → outcome (handler_allocator * held) → Prop :=
  | use_allocate a l size :
      use (a, l) (let '(a', p) := allocate a size in Ret (a', (p, size) :: l))
  | use_deallocate a l1 p size l2 :
      use (a, l1 ++ (p, size) :: l2) (a' ← deallocate a p; Ret (a', l1 ++ l2)).

Inductive used : handler_allocator * held → Prop :=
  | used_new : used (allocator_new, [])
  | used_step x x' : used x → use x (Ret x') → used x'.

Record alloc_ok (a : handler_allocator) (l : held) : Prop := {
  ok_distinct : NoDup l.*1;
  ok_storage : in_use_ a = true ↔ Storage ∈ l.*1;
  ok_blocks : ∀ n, is_Some (blocks a !! n) ↔ Heap n ∈ l.*1;
  ok_fits : ∀ p size, (p, size) ∈ l → ∃ c, capacity a p = Some c ∧ size ≤ c;
  ok_next : ∀ n, is_Some (blocks a !! n) → n < next_block a;
}.

Lemma alloc_ok_allocate a l size a' p :
  alloc_ok a l → allocate a size = (a', p) → alloc_ok a' ((p, size) :: l).
Proof.
  intros [Hd Hs Hb Hf Hn]. unfold allocate.
  destruct (negb (in_use_ a) && (size <? storage_size)%nat) eqn:Ec; intros [= <- <-].
  - apply andb_true_iff in Ec as [Eu%negb_true_iff Es%Nat.ltb_lt].
    assert (Storage ∉ l.*1) as Hni by (intros ?%Hs; congruence). split; cbn.
    + by constructor.
    + split; [intros _; left|done].
    + intros n. rewrite Hb, elem_of_cons. naive_solver.
    + intros p0 s0 [[= -> ->]|Hin]%elem_of_cons; [|by apply Hf].
      eexists. split; [done|]. lia.
    + done.
  - assert (blocks a !! next_block a = None) as Hfresh.
    { apply eq_None_not_Some. intros Hx%Hn. lia. }
    assert (Heap (next_block a) ∉ l.*1) as Hni by (rewrite <-Hb, Hfresh; by intros []).
    split; cbn.
    + by constructor.
    + rewrite elem_of_cons, Hs. naive_solver.
    + intros n. rewrite lookup_insert_is_Some', elem_of_cons, Hb. naive_solver.
    + intros p0 s0 [[= -> ->]|Hin]%elem_of_cons.
      { exists size. cbn. by rewrite lookup_insert_eq. }
      destruct (Hf p0 s0 Hin) as (c & Hc & Hle). exists c. split; [|done].
      destruct p0 as [|n]; [done|]. cbn in *. rewrite lookup_insert_ne; [done|]. intros Hx. congruence.
    + intros n. rewrite lookup_insert_is_Some'. intros [->|Hx]; [lia|]. apply Hn in Hx. lia.
Qed.

Lemma alloc_ok_deallocate a l1 p size l2 :
  alloc_ok a (l1 ++ (p, size) :: l2) →
  ∃ a', deallocate a p = Ret a' ∧ alloc_ok a' (l1 ++ l2).
Proof.
  intros [Hd Hs Hb Hf Hn]. rewrite fmap_app, fmap_cons in *. cbn [fst] in *.
  assert ((p ∉ (l1 ++ l2).*1) ∧ NoDup (l1 ++ l2).*1) as [Hp Hd'].
  { rewrite fmap_app. apply NoDup_app in Hd as (H1 & H2 & H3). apply NoDup_cons in H3 as [H3 H4].
    split.
    - rewrite elem_of_app. intros [Hx|?]; [|done]. apply (H2 p Hx). left.
    - apply NoDup_app. split_and!; [done| |done]. intros x Hx Hx2. apply (H2 x Hx). by right. }
  assert (∀ q, q ∈ (l1 ++ l2).*1 ↔ q ∈ l1.*1 ++ p :: l2.*1 ∧ q ≠ p) as Hother.
  { intros q. rewrite fmap_app in *. rewrite !elem_of_app, elem_of_cons in *. split; [|naive_solver].
    intros Hq. split; [naive_solver|]. intros ->. naive_solver. }
  assert (∀ q s, (q, s) ∈ l1 ++ l2 → (q, s) ∈ l1 ++ (p, size) :: l2 ∧ q ≠ p) as Hin.
  { intros q s Hq. split.
    - rewrite !elem_of_app, elem_of_cons in *. naive_solver.
    - intros ->. apply Hp. apply list_elem_of_fmap. by exists (p, s). }
  destruct p as [|n]; cbn [deallocate].
  - eexists. split; [done|]. split; cbn; [done| | | |done].
    + rewrite Hother. naive_solver.
    + intros n. rewrite Hb, Hother. naive_solver.
    + intros q s Hq. destruct (Hin q s Hq) as [Hq1 Hq2]. destruct (Hf q s Hq1) as (c & Hc & Hle). by exists c; destruct q.
  - assert (is_Some (blocks a !! n)) as [k Hk] by (apply Hb, elem_of_app; right; left).
    rewrite Hk. eexists. split; [done|]. split; cbn; [done| | | |].
    + rewrite Hother, Hs. naive_solver.
    + intros m. rewrite lookup_delete_is_Some, Hb, Hother. naive_solver.
    + intros q s Hq. destruct (Hin q s Hq) as [Hq1 Hq2]. destruct (Hf q s Hq1) as (c & Hc & Hle). exists c.
      split; [|done]. destruct q as [|m]; [done|]. cbn in *. rewrite lookup_delete_ne; [done|]. congruence.
    + intros m [_ Hm]%lookup_delete_is_Some. by apply Hn.
Qed.

Lemma use_ok a l o :
  alloc_ok a l → use (a, l) o → ∃ a' l', o = Ret (a', l') ∧ alloc_ok a' l'.
Proof.
  intros Hok Hu. remember (a, l) as x eqn:Ex. destruct Hu as [a0 l0 size|a0 l1 p size l2]; injection Ex as Ea El; subst.
  - destruct (allocate a size) as [a' p] eqn:E. eexists _, _. split; [done|]. by eapply alloc_ok_allocate.
  - destruct (alloc_ok_deallocate _ _ _ _ _ Hok) as (a' & -> & Hok'). eexists _, _. by split.
Qed.

Lemma used_ok a l : used (a, l) → alloc_ok a l.
Proof.
  intros Hu. remember (a, l) as x eqn:Ex. revert a l Ex. induction Hu as [|[a0 l0] x' _ IH Hst]; intros a l Ex.
  - injection Ex as <- <-. split; cbn; try done; try apply NoDup_nil_2.
    + split; [done|]. by intros ?%not_elem_of_nil.
    + intros n. rewrite lookup_empty. split; [by intros []|]. by intros ?%not_elem_of_nil.
    + by intros p s ?%not_elem_of_nil.
    + intros n. rewrite lookup_empty. by intros [].
  - subst x'. destruct (use_ok _ _ _ (IH _ _ eq_refl) Hst) as (a' & l' & [= <- <-] & ?). done.
Qed.

(** Nothing is in use when nothing is held. *)
Lemma alloc_ok_nil a : alloc_ok a [] → in_use_ a = false ∧ blocks a = ∅.
Proof.
  intros [_ Hs Hb _ _]. split.
  - destruct (in_use_ a); [|done]. by apply proj1, (λ f, f eq_refl), not_elem_of_nil in Hs.
  - apply map_empty. intros n. destruct (blocks a !! n) eqn:E; [|done]. exfalso.
    specialize (Hb n). rewrite E in Hb. apply (not_elem_of_nil (Heap n)), Hb. eauto.
Qed.

(** C36: the allocator keeps the promise of an allocator, however allocations and
    deallocations are interleaved and whatever their sizes, as long as only pointers
    that are held are given back: no call is undefined; the pointers held at any time
    are distinct and each has room for what was asked; and the block of the session is
    marked in use exactly while its address is held, and the heap blocks that exist
    are exactly the ones held, so that nothing leaks. *)
Theorem allocator_safe a l :
  used (a, l) →
  (∀ o, use (a, l) o → ∃ x, o = Ret x ∧ used x) ∧
  NoDup l.*1 ∧
  (∀ p size, (p, size) ∈ l → ∃ c, capacity a p = Some c ∧ size ≤ c) ∧
  (in_use_ a = true ↔ Storage ∈ l.*1) ∧
  (∀ n, is_Some (blocks a !! n) ↔ Heap n ∈ l.*1) ∧
  (l = [] → in_use_ a = false ∧ blocks a = ∅).
Proof.
  intros Hu. pose proof (used_ok _ _ Hu) as Hok. pose proof Hok as [Hd Hs Hb Hf Hn]. split_and!; try done.
  - intros o Ho. destruct (use_ok _ _ _ Hok Ho) as (a' & l' & -> & _). eexists. split; [done|]. by eapply used_step.
  - intros ->. by apply alloc_ok_nil.
Qed.


(** ** session

    The memory of the outstanding operation and the size it was asked for;
    [remaining] is what [async_write] has still to write. *)
Inductive op :=
  | reading (p : pointer) (size : nat)
  | writing (p : pointer) (size : nat) (remaining : bytes).

Definition memory (o : op) : held :=
  match o with reading p size | writing p size _ => [(p, size)] end.

Record session := mkSession {
  pending : option op;
  data_ : bytes;
  allocator_ : handler_allocator;
}.


(** [asio_handler_allocate] and [asio_handler_deallocate] of
    [custom_alloc_handler]: they use the allocator of the session. *)
Definition asio_handler_allocate (s : session) (size : nat) : session * pointer :=
  let '(a, p) := allocate (allocator_ s) size in (mkSession (pending s) (data_ s) a, p).
Definition asio_handler_deallocate (s : session) (p : pointer) : outcome session :=
  a ← deallocate (allocator_ s) p; Ret (mkSession (pending s) (data_ s) a).

(** [socket_.async_read_some(...)] and one step of [async_write(...)]: Asio asks for
    memory of a [size] it chooses. *)
Definition async_read_some (s : session) (size : nat) : session :=
  let '(s, p) := asio_handler_allocate s size in
  mkSession (Some (reading p size)) (data_ s) (allocator_ s).
Definition async_write (s : session) (b : bytes) (size : nat) : session :=
  let '(s, p) := asio_handler_allocate s size in
  mkSession (Some (writing p size b)) (data_ s) (allocator_ s).

Definition session_new : session := mkSession None [] allocator_new.

Definition start (s : session) (size : nat) : session := async_read_some s size.

Definition handle_read (s : session) (error : error_code) (data : bytes) (size : nat) : session :=
  if failed error then s else async_write (mkSession (pending s) data (allocator_ s)) data size.

Definition handle_write (s : session) (error : error_code) (size : nat) : session :=
  if failed error then s else async_read_some s size.

(** Asio gives the memory back before it goes on: it calls the handler, or, when a
    write was partial, starts the next one. *)
Definition take_op (s : session) (p : pointer) : outcome session :=
  s ← asio_handler_deallocate s p; Ret (mkSession None (data_ s) (allocator_ s)).

Definition read_done (s : session) (p : pointer) (error : error_code) (data : bytes) (size : nat) :
    outcome session :=
  s ← take_op s p; Ret (handle_read s error data size).

Definition write_done (s : session) (p : pointer) (rest : bytes) (error : error_code) (n size : nat) :
    outcome session :=
  s ← take_op s p;
  if failed error || (length rest <=? n)%nat then Ret (handle_write s error size)
  else Ret (async_write s (drop n rest) size).

(** A run of one session, with the sizes Asio asks for below [limit], what was read
    and what was written. *)
Inductive run (limit : nat) : outcome session → bytes → bytes → Prop :=
  | run_start size : size < limit → run limit (Ret (start session_new size)) [] []
  | run_read s p k got sent error data size :
      run limit (Ret s) got sent → pending s = Some (reading p k) → size < limit →
      run limit (read_done s p error data size) (if failed error then got else got ++ data) sent
  | run_write s p k rest got sent error n size :
      run limit (Ret s) got sent → pending s = Some (writing p k rest) → size < limit → n ≤ length rest →
      run limit (write_done s p rest error n size) got (sent ++ take n rest).

(** What holds between handlers. *)
Record session_ok (limit : nat) (s : session) (got sent : bytes) : Prop := {
  ok_memory : alloc_ok (allocator_ s) (from_option memory [] (pending s));
  ok_bound : match pending s with Some (reading _ k | writing _ k _) => k < limit | None => True end;
  ok_heap : limit ≤ storage_size → next_block (allocator_ s) = 0;
  ok_echo : match pending s with
            | Some (reading _ _) => got = sent
            | Some (writing _ _ rest) => got = sent ++ rest
            | None => sent `prefix_of` got
            end;
}.

Lemma allocate_idle a size :
  alloc_ok a [] → size < storage_size → allocate a size = (mkAlloc true (blocks a) (next_block a), Storage).
Proof.
  intros [_ Hs _ _ _] Hlt. unfold allocate. destruct (in_use_ a).
  - by apply proj1, (λ f, f eq_refl), not_elem_of_nil in Hs.
  - apply Nat.ltb_lt in Hlt. rewrite Hlt. done.
Qed.

(** Starting an operation when none is outstanding. *)
Lemma allocate_session limit s size s' p :
  alloc_ok (allocator_ s) [] → (limit ≤ storage_size → next_block (allocator_ s) = 0) → size < limit →
  asio_handler_allocate s size = (s', p) →
  alloc_ok (allocator_ s') [(p, size)] ∧ (limit ≤ storage_size → next_block (allocator_ s') = 0).
Proof.
  unfold asio_handler_allocate. destruct (allocate (allocator_ s) size) as [a q] eqn:E.
  intros Hok Hh Hlt [= <- <-]. split; [by eapply alloc_ok_allocate|]. cbn. intros Hl.
  rewrite allocate_idle in E by (done || lia). injection E as <- _. by apply Hh.
Qed.

Lemma read_some_ok limit s got size :
  session_ok limit s got got → pending s = None → size < limit →
  session_ok limit (async_read_some s size) got got.
Proof.
  intros [Hok _ Hh _] Hp Hlt. rewrite Hp in Hok. unfold async_read_some.
  destruct (asio_handler_allocate s size) as [s' p] eqn:E.
  apply (allocate_session limit) in E as [??]; done.
Qed.

Lemma async_write_ok limit s got sent b size :
  session_ok limit s got sent → pending s = None → size < limit → got = sent ++ b →
  session_ok limit (async_write s b size) got sent.
Proof.
  intros [Hok _ Hh _] Hp Hlt Hg. rewrite Hp in Hok. unfold async_write.
  destruct (asio_handler_allocate s size) as [s' p] eqn:E.
  apply (allocate_session limit) in E as [??]; done.
Qed.

(** The memory of an operation goes back before its handler runs. *)
Lemma take_op_ok limit s got sent p k got' sent' :
  session_ok limit s got sent → from_option memory [] (pending s) = [(p, k)] →
  sent' `prefix_of` got' →
  ∃ s', take_op s p = Ret s' ∧ pending s' = None ∧ session_ok limit s' got' sent'.
Proof.
  intros [Hok _ Hh _] Hp Hpre. rewrite Hp in Hok.
  destruct (alloc_ok_deallocate _ [] _ _ [] Hok) as (a & Ha & Hoka).
  unfold take_op, asio_handler_deallocate. rewrite Ha. cbn. eexists. split_and!; [done..|].
  split; cbn; try done. intros Hl. specialize (Hh Hl). destruct p; cbn in Ha.
  - by injection Ha as <-.
  - destruct (blocks (allocator_ s) !! n); [|done]. by injection Ha as <-.
Qed.

Lemma run_ok limit o got sent :
  run limit o got sent → ∃ s, o = Ret s ∧ session_ok limit s got sent.
Proof.
  intros Hr. remember o as o' eqn:Eo. clear Eo o.
  induction Hr as [size Hlt|s p k got sent error data size _ IH Hp Hlt|s p k rest got sent error n size _ IH Hp Hlt Hn].
  - eexists. split; [done|]. apply read_some_ok; [|done..]. split; cbn; try done. by apply used_ok, used_new.
  - destruct IH as (s0 & [= <-] & Hok). pose proof (ok_echo _ _ _ _ Hok) as He. rewrite Hp in He. subst sent.
    unfold read_done. destruct (failed error) eqn:Ee.
    + destruct (take_op_ok _ _ _ _ p k got got Hok) as (s1 & -> & Hp1 & Hok1); [by rewrite Hp|done|].
      cbn. unfold handle_read. rewrite Ee. eauto.
    + destruct (take_op_ok _ _ _ _ p k (got ++ data) got Hok) as (s1 & -> & Hp1 & Hok1);
        [by rewrite Hp|by apply prefix_app_r|].
      cbn. unfold handle_read. rewrite Ee. eexists. split; [done|]. apply async_write_ok; [|done..].
      destruct Hok1. by split.
  - destruct IH as (s0 & [= <-] & Hok). pose proof (ok_echo _ _ _ _ Hok) as He. rewrite Hp in He. subst got.
    unfold write_done.
    assert (sent ++ rest = (sent ++ take n rest) ++ drop n rest) as Hsplit
      by (by rewrite <-app_assoc, take_drop).
    destruct (take_op_ok _ _ _ _ p k (sent ++ rest) (sent ++ take n rest) Hok) as (s1 & -> & Hp1 & Hok1);
      [by rewrite Hp|rewrite Hsplit; by apply prefix_app_r|]. cbn.
    destruct (failed error) eqn:Ee; cbn; [unfold handle_write; rewrite Ee; eauto|].
    destruct (Nat.leb_spec (length rest) n) as [Hle|Hgt].
    + rewrite firstn_all2 in * by done. unfold handle_write. rewrite Ee. eexists. split; [done|].
      by apply read_some_ok.
    + eexists. split; [done|]. by apply async_write_ok.
Qed.

(** Below the size of the block nothing comes from the heap. *)
Lemma idle_heap limit s got sent o :
  session_ok limit s got sent → pending s = Some o → limit ≤ storage_size →
  blocks (allocator_ s) = ∅ ∧ in_use_ (allocator_ s) = true.
Proof.
  intros [Hok _ Hh _] Ho Hl. rewrite Ho in Hok. cbn in Hok. specialize (Hh Hl). destruct Hok as [_ Hs Hbl _ Hn].
  assert (∀ n, blocks (allocator_ s) !! n = None) as Hnone.
  { intros n. apply eq_None_not_Some. intros Hx%Hn. lia. }
  split; [by apply map_empty|]. apply Hs.
  assert (∀ q, q ∈ (memory o).*1 → q = Storage) as Hall.
  { intros [|n] Hq; [done|]. apply Hbl in Hq. rewrite Hnone in Hq. by destruct Hq. }
  destruct o; cbn in *; rewrite list_elem_of_singleton; symmetry; apply Hall; left.
Qed.

(** A session that gets the memory for its operations from its allocator never
    does anything undefined, echoes what it reads, holds memory exactly for the one
    operation that is outstanding, and, as long as Asio asks for less than the 1024
    bytes of the block, never takes anything from the heap. *)
Theorem session_memory limit o got sent :
  run limit o got sent →
  ∃ s, o = Ret s ∧ sent `prefix_of` got ∧
    alloc_ok (allocator_ s) (from_option memory [] (pending s)) ∧
    (limit ≤ storage_size → blocks (allocator_ s) = ∅ ∧
       (in_use_ (allocator_ s) = true ↔ is_Some (pending s))).
Proof.
  intros (s & -> & Hsok)%run_ok. pose proof Hsok as [Hok Hb Hh He]. exists s. split_and!; [done| |done|].
  - destruct (pending s) as [[]|]; subst; (done || by apply prefix_app_r).
  - intros Hl. destruct (pending s) as [o|] eqn:Ho.
    + destruct (idle_heap limit s got sent o Hsok Ho Hl) as [-> ->]. split; [done|]. split; eauto.
    + destruct (alloc_ok_nil _ Hok) as [-> ->]. split; [done|]. split; [done|by intros []].
Qed.

End Allocation.

(** ** server

    Sessions by number, with what each has read and written (history). A session is held
    by the handler of the accept it is made for or of its outstanding operation, and is
    destroyed, with its allocator, when neither is left. *)
Module AllocationServer.
Import Allocation.

(** [custom_alloc_handler]: a handler with the allocator of its session; calling it calls
    the handler. *)
Record custom_alloc_handler (H : Type) := mkCustom { owner : nat; handler_ : H }.
Arguments mkCustom {H} _ _.
Arguments owner {H} _.
Arguments handler_ {H} _.
Definition make_custom_alloc_handler {H} (a : nat) (h : H) : custom_alloc_handler H := mkCustom a h.
Definition invoke {A B} (h : custom_alloc_handler (A → B)) (arg : A) : B := handler_ h arg.

Record server := mkServer {
  accepting : nat;                                   (* the session of async_accept *)
  sessions : gmap nat (session * bytes * bytes);
  next : nat;
}.

Definition start_accept (v : server) : server :=
  mkServer (next v) (<[next v := (session_new, [], [])]> (sessions v)) (S (next v)).

Definition server_new : server := start_accept (mkServer 0 ∅ 0).

(** A session is kept while an operation is outstanding. *)
Definition keep (v : server) (i : nat) (s : session) (got sent : bytes) : server :=
  mkServer (accepting v)
    (match pending s with Some _ => <[i := (s, got, sent)]> (sessions v) | None => delete i (sessions v) end) (next v).

Definition handle_accept (v : server) (error : error_code) (size : nat) : server :=
  let i := accepting v in
  match sessions v !! i with
  | Some (s, got, sent) => start_accept (keep v i (if failed error then s else start s size) got sent)
  | None => v
  end.

(** The completions; [size] is what Asio asks for next, below [limit]. *)
Inductive event :=
  | accepted (error : error_code) (size : nat)
  | read_some (i : nat) (error : error_code) (data : bytes) (size : nat)
  | wrote_some (i : nat) (error : error_code) (n size : nat).

Definition handle (v : server) (e : event) : outcome server :=
  match e with
  | accepted error size => Ret (handle_accept v error size)
  | read_some i error data size =>
      match sessions v !! i with
      | Some (s, got, sent) =>
          match pending s with
          | Some (reading p _) =>
              s ← invoke (make_custom_alloc_handler i (λ e, read_done s p e data size)) error;
              Ret (keep v i s (if failed error then got else got ++ data) sent)
          | _ => Ret v
          end
      | None => Ret v
      end
  | wrote_some i error n size =>
      match sessions v !! i with
      | Some (s, got, sent) =>
          match pending s with
          | Some (writing p _ rest) =>
              s ← invoke (make_custom_alloc_handler i (λ e, write_done s p rest e n size)) error;
              Ret (keep v i s got (sent ++ take n rest))
          | _ => Ret v
          end
      | None => Ret v
      end
  end.

Definition enabled (limit : nat) (v : server) (e : event) : Prop :=
  match e with
  | accepted _ size => size < limit
  | read_some i _ _ size =>
      size < limit ∧ ∃ s got sent p k, sessions v !! i = Some (s, got, sent) ∧ pending s = Some (reading p k)
  | wrote_some i _ n size =>
      size < limit ∧ ∃ s got sent p k rest, sessions v !! i = Some (s, got, sent) ∧
        pending s = Some (writing p k rest) ∧ n ≤ length rest
  end.

Inductive reachable (limit : nat) : server → Prop :=
  | reachable_new : reachable limit server_new
  | reachable_step v e v' : reachable limit v → enabled limit v e → handle v e = Ret v' → reachable limit v'.

(** The accepting session is untouched, and every other is in a run of its own with an
    operation outstanding. *)
Record inv (limit : nat) (v : server) : Prop := {
  inv_accepting : sessions v !! accepting v = Some (session_new, [], []);
  inv_next : ∀ i x, sessions v !! i = Some x → i < next v;
  inv_run : ∀ i s got sent, sessions v !! i = Some (s, got, sent) → i ≠ accepting v →
    run limit (Ret s) got sent ∧ is_Some (pending s);
}.

Lemma inv_keep limit v i s got sent :
  inv limit v → i ≠ accepting v → i < next v → run limit (Ret s) got sent → inv limit (keep v i s got sent).
Proof.
  intros [Ha Hn Hr] Hi Hlt Hrun. unfold keep. destruct (pending s) as [o|] eqn:E; split; cbn.
  - by rewrite lookup_insert_ne.
  - intros j x [[<- _]|[_ Hj]]%lookup_insert_Some; [done|by apply (Hn j x)].
  - intros j s' g n [[<- ?]|[_ Hj]]%lookup_insert_Some Hja; [simplify_eq; rewrite E; eauto|by apply (Hr j)].
  - by rewrite lookup_delete_ne.
  - intros j x [_ Hj]%lookup_delete_Some. by apply (Hn j x).
  - intros j s' g n [_ Hj]%lookup_delete_Some. by apply (Hr j).
Qed.

Lemma inv_accepted limit v error size : inv limit v → size < limit → inv limit (handle_accept v error size).
Proof.
  intros [Ha Hn Hr] Hlt. pose proof (Hn _ _ Ha) as Hacc. unfold handle_accept. rewrite Ha. unfold keep, start_accept.
  assert (∀ i x, sessions v !! i = Some x → i ≠ next v) as Hne by (intros i x Hx%Hn; lia).
  destruct (failed error).
  - cbn [pending session_new]. split; cbn.
    + by rewrite lookup_insert_eq.
    + intros j x [[<- _]|[_ [_ Hj]%lookup_delete_Some]]%lookup_insert_Some; [lia|]. apply Hn in Hj. lia.
    + intros j s got sent [[<- _]|[_ [Hja Hj]%lookup_delete_Some]]%lookup_insert_Some Hx; [done|]. by apply (Hr j).
  - destruct (pending (start session_new size)) as [o|] eqn:E.
    2:{ exfalso. unfold start, async_read_some in E.
        destruct (asio_handler_allocate session_new size). done. }
    split; cbn.
    + by rewrite lookup_insert_eq.
    + intros j x [[<- _]|[_ [[<- _]|[_ Hj]]%lookup_insert_Some]]%lookup_insert_Some; [lia|lia|]. apply Hn in Hj. lia.
    + intros j s got sent [[<- _]|[_ [[<- ?]|[Hja Hj]]%lookup_insert_Some]]%lookup_insert_Some Hx; [done| |by apply (Hr j)].
      simplify_eq. split; [by apply run_start|]. by rewrite E.
Qed.

Lemma as_inv_handle limit v e : inv limit v → enabled limit v e → ∃ v', handle v e = Ret v' ∧ inv limit v'.
Proof.
  intros Hi He. pose proof Hi as [Ha Hn Hr]. destruct e as [error size|i error data size|i error n size]; cbn in He |- *.
  - eexists. split; [reflexivity|]. by apply inv_accepted.
  - destruct He as (Hlt & s & got & sent & p & k & Hs & Hp). rewrite Hs, Hp.
    assert (i ≠ accepting v) as Hne by (intros ->; rewrite Ha in Hs; by simplify_eq).
    destruct (Hr i s got sent Hs Hne) as [Hrun _].
    pose proof (run_read limit s p k got sent error data size Hrun Hp Hlt) as Hrun'.
    destruct (run_ok _ _ _ _ Hrun') as (s' & E & _). unfold invoke. cbn. rewrite E. cbn.
    eexists. split; [reflexivity|]. apply inv_keep; [done..|by apply (Hn i _ Hs)|by rewrite <-E].
  - destruct He as (Hlt & s & got & sent & p & k & rest & Hs & Hp & Hle). rewrite Hs, Hp.
    assert (i ≠ accepting v) as Hne by (intros ->; rewrite Ha in Hs; by simplify_eq).
    destruct (Hr i s got sent Hs Hne) as [Hrun _].
    pose proof (run_write limit s p k rest got sent error n size Hrun Hp Hlt Hle) as Hrun'.
    destruct (run_ok _ _ _ _ Hrun') as (s' & E & _). unfold invoke. cbn. rewrite E. cbn.
    eexists. split; [reflexivity|]. apply inv_keep; [done..|by apply (Hn i _ Hs)|by rewrite <-E].
Qed.

Lemma as_reachable_inv limit v : reachable limit v → inv limit v.
Proof.
  induction 1 as [|v e v' _ IH He Hv].
  - split; cbn; [by rewrite lookup_insert_eq| |].
    + intros i x [[<- _]|[_ Hx]]%lookup_insert_Some; [lia|by rewrite lookup_empty in Hx].
    + intros i s got sent [[<- _]|[_ Hx]]%lookup_insert_Some Hne; [done|by rewrite lookup_empty in Hx].
  - destruct (as_inv_handle limit v e IH He) as (v2 & Hv2 & Hi). rewrite Hv in Hv2. by injection Hv2 as <-.
Qed.

(** The server with custom allocation, in every reachable state: whatever completes
    next, its handler is defined; an accept is outstanding; every other session has
    exactly one operation outstanding, whose memory is the only one its allocator has
    given out, has echoed what it read but for what it is writing, and, as long as Asio
    asks for less than the 1024 bytes of a block, the memory comes from the session's
    block and nothing from the heap. *)
Theorem allocation_server limit v :
  reachable limit v →
  (∀ e, enabled limit v e → ∃ v', handle v e = Ret v' ∧ reachable limit v') ∧
  is_Some (sessions v !! accepting v) ∧
  (∀ i s got sent, sessions v !! i = Some (s, got, sent) → i ≠ accepting v →
     sent `prefix_of` got ∧
     ∃ o, pending s = Some o ∧ alloc_ok (allocator_ s) (memory o) ∧
       (limit ≤ storage_size → blocks (allocator_ s) = ∅ ∧ in_use_ (allocator_ s) = true)).
Proof.
  intros Hv. pose proof (as_reachable_inv limit v Hv) as Hi. pose proof Hi as [Ha Hn Hr]. split_and!.
  - intros e He. destruct (as_inv_handle limit v e Hi He) as (v' & Hv' & _). exists v'. split; [done|]. by eapply reachable_step.
  - by rewrite Ha.
  - intros i s got sent Hs Hne. destruct (Hr i s got sent Hs Hne) as [Hrun [o Ho]].
    destruct (run_ok _ _ _ _ Hrun) as (s' & [= <-] & Hsok). pose proof Hsok as [Hok Hb Hh He].
    rewrite Ho in Hok, He. split.
    + destruct o; subst; [done|by apply prefix_app_r].
    + exists o. split_and!; [done..|]. by apply (idle_heap limit s got sent o).
Qed.

End AllocationServer.

Module AllocationExamples.
Import Allocation.

Lemma allocator_safe_witness :
  used (mkAlloc true {[0 := 2000]} 1, [(Storage, 100); (Heap 0, 2000)]) ∧
  NoDup [Storage; Heap 0].
Proof.
  assert (used (mkAlloc true {[0 := 2000]} 1, [(Storage, 100); (Heap 0, 2000)])) as Hu.
  { apply (used_step (mkAlloc false {[0 := 2000]} 1, [(Heap 0, 2000)])); [|apply use_allocate with (size := 100)].
    apply (used_step (allocator_new, [])); [apply used_new|apply use_allocate with (size := 2000)]. }
  split; [exact Hu|].
  exact (proj1 (proj2 (allocator_safe _ _ Hu))).
Defined.

Lemma session_memory_witness :
  ∃ s got, run 1024 (Ret s) got got ∧ got = lit "hi" ∧ blocks (allocator_ s) = ∅.
Proof.
  assert (run 1024 (write_done (mkSession (Some (writing Storage 64 (lit "hi"))) (lit "hi") (mkAlloc true ∅ 0))
    Storage (lit "hi") success 2 80) (lit "hi") (lit "hi")) as Hr.
  { apply (run_write 1024 _ Storage 64 (lit "hi") (lit "hi") [] success 2 80); [|reflexivity|lia|cbn; lia].
    apply (run_read 1024 (start session_new 80) Storage 80 [] [] success (lit "hi") 64); [|reflexivity|lia].
    apply run_start. lia. }
  eexists _, (lit "hi"). split; [exact Hr|]. split; [reflexivity|].
  destruct (session_memory _ _ _ _ Hr) as (s & [= <-] & _ & _ & Hheap).
  apply Hheap. unfold storage_size. lia.
Defined.

End AllocationExamples.
