(* ===== verification/Services.v ===== *)
(** * A logging service and a socket service that logs

    (src/doc_searcher/data/input/html/boost_asio/example/services/{logger_service,
    basic_logger,stream_socket_service}.hpp and daytime_client.cpp.) The debugging
    socket service forwards every call to the service of Asio it wraps and logs what
    it does; the logger hands its texts to a thread that writes them to a file. *)

From S2P Require Import Prelude CxxString Asio.
Import Asio.

(** ** logger_service.hpp *)
Module Logger.

(** The work that is posted to the private io_service. *)
Inductive work := use_file_impl (file : bytes) | log_impl (text : bytes).

(** The queue of the private io_service; the file the stream has open, whether the
    stream is good, and the files on disk. *)
Record logger_service := mkLogger {
  work_io_service_ : list work;
  ofstream_ : option bytes;
  good : bool;
  files : gmap bytes bytes;
}.

(** [logger_impl], and the pointer to one. *)
Record logger_impl := mkImpl { identifier : bytes }.
Definition impl_type : Type := option logger_impl.

Definition service_new (disk : gmap bytes bytes) : logger_service := mkLogger [] None true disk.

Definition null : impl_type := None.
Definition create (identifier : bytes) : impl_type := Some (mkImpl identifier).

(** [destroy]: deleting a null pointer does nothing. *)
Definition impl_destroy (impl : impl_type) : impl_type := null.

Definition post (s : logger_service) (w : work) : logger_service :=
  mkLogger (work_io_service_ s ++ [w]) (ofstream_ s) (good s) (files s).

Definition use_file (s : logger_service) (impl : impl_type) (file : bytes) : logger_service :=
  post s (use_file_impl file).

(** The text of a message. *)
Definition log_text (impl : logger_impl) (message : bytes) : bytes := identifier impl ++ lit ": " ++ message.

Definition log (s : logger_service) (impl : impl_type) (message : bytes) : outcome logger_service :=
  match impl with
  | Some impl => Ret (post s (log_impl (log_text impl message)))
  | None => Undef NullDeref
  end.

Section Thread.
(** Whether a file can be opened for writing. *)
Variable can_open : bytes → bool.

(** [use_file_impl] and [log_impl]: opening truncates the file; a stream that is not
    open fails when it is written to and writes nothing. *)
Definition perform (s : logger_service) (w : work) : logger_service :=
  match w with
  | use_file_impl file =>
      if can_open file then mkLogger (work_io_service_ s) (Some file) true (<[file := []]> (files s))
      else mkLogger (work_io_service_ s) None false (files s)
  | log_impl text =>
      match ofstream_ s with
      | Some file =>
          if good s then
            mkLogger (work_io_service_ s) (Some file) true
              (alter (λ old, old ++ text ++ [newline]) file (files s))
          else s
      | None => mkLogger (work_io_service_ s) None false (files s)
      end
  end.

(** The thread runs the oldest work. *)
Definition run_one (s : logger_service) : logger_service :=
  match work_io_service_ s with
  | [] => s
  | w :: rest => perform (mkLogger rest (ofstream_ s) (good s) (files s)) w
  end.

(** The destructor gives up the work that kept the thread alive and joins it: what
    was posted is done first. *)
Fixpoint drain (fuel : nat) (s : logger_service) : logger_service :=
  match fuel with
  | 0 => s
  | S fuel => drain fuel (run_one s)
  end.
Definition service_destroy (s : logger_service) : logger_service :=
  drain (length (work_io_service_ s)) s.

(** *** What the file holds in the end *)

Definition texts_of (l : list bytes) : bytes := mjoin ((λ t, t ++ [newline]) <$> l).

Lemma perform_queue s w : work_io_service_ (perform s w) = work_io_service_ s.
Proof.
  destruct w as [file|text]; cbn; [by destruct (can_open file)|].
  by destruct (ofstream_ s); [destruct (good s)|].
Qed.

Lemma drain_perform l s :
  work_io_service_ s = l →
  drain (length l) s = foldl perform (mkLogger [] (ofstream_ s) (good s) (files s)) l.
Proof.
  revert s. induction l as [|w l IH]; intros s Hs.
  - destruct s. cbn in *. by subst.
  - cbn [length drain foldl]. unfold run_one. rewrite Hs.
    rewrite IH by (by rewrite perform_queue). f_equal.
    destruct w as [file|text]; cbn; [by destruct (can_open file)|].
    by destruct (ofstream_ s); [destruct (good s)|].
Qed.

(** The thread may have done part of the work when the service is destroyed. *)
Lemma destroy_run_one s : service_destroy (run_one s) = service_destroy s.
Proof.
  unfold service_destroy. destruct (work_io_service_ s) as [|w l] eqn:E.
  - unfold run_one. rewrite E. by rewrite E.
  - cbn [length drain]. unfold run_one. rewrite E. by rewrite perform_queue.
Qed.

Lemma foldl_logs s file l :
  ofstream_ s = Some file → good s = true → is_Some (files s !! file) →
  foldl perform s (log_impl <$> l) =
    mkLogger (work_io_service_ s) (Some file) true (alter (λ old, old ++ texts_of l) file (files s)).
Proof.
  revert s. induction l as [|t l IH]; intros s Hf Hg [x Hx].
  - destruct s. cbn in *. subst. f_equal. apply map_eq. intros k. unfold texts_of. cbn.
    destruct (decide (k = file)) as [->|Hne].
    + rewrite lookup_alter_eq, Hx. cbn. by rewrite app_nil_r.
    + by rewrite lookup_alter_ne.
  - cbn [fmap list_fmap foldl perform]. rewrite Hf, Hg. rewrite IH; [|done|done|].
    2: { cbn [files]. rewrite lookup_alter_eq, Hx. by eexists. }
    cbn [work_io_service_ files]. f_equal. apply map_eq. intros k.
    destruct (decide (k = file)) as [->|Hne].
    + rewrite !lookup_alter_eq, Hx. cbn. unfold texts_of. cbn. by rewrite <-!app_assoc.
    + by rewrite !lookup_alter_ne.
Qed.

(** After a file was set, it holds what was logged since then and nothing else. *)
Lemma destroy_file s pre file l :
  work_io_service_ s = pre ++ use_file_impl file :: (log_impl <$> l) → can_open file = true →
  files (service_destroy s) !! file = Some (texts_of l).
Proof.
  intros Hq Hopen. unfold service_destroy. rewrite (drain_perform _ _ eq_refl), Hq.
  rewrite foldl_app. cbn [foldl]. set (s0 := foldl perform _ pre).
  cbn [perform]. rewrite Hopen. rewrite (foldl_logs _ file); [|done..|cbn; rewrite lookup_insert_eq; by eexists].
  cbn [files]. by rewrite lookup_alter_eq, lookup_insert_eq.
Qed.

(** Without a file nothing is written. *)
Lemma destroy_no_file s l :
  work_io_service_ s = log_impl <$> l → ofstream_ s = None → files (service_destroy s) = files s.
Proof.
  intros Hq Hf. unfold service_destroy. rewrite (drain_perform _ _ eq_refl), Hq. clear Hq.
  set (s0 := mkLogger [] _ _ _). assert (ofstream_ s0 = None ∧ files s0 = files s) as [H1 H2] by done.
  clearbody s0. revert s0 H1 H2. induction l as [|t l IH]; intros s0 H1 H2; [done|].
  cbn [fmap list_fmap foldl perform]. rewrite H1. by apply IH.
Qed.
End Thread.

(** *** basic_logger.hpp *)

(** A logger keeps the pointer its service has made. *)
Record basic_logger := mkBasic { impl_ : impl_type }.

Definition logger_new (identifier : bytes) : basic_logger := mkBasic (create identifier).
Definition logger_destroy (l : basic_logger) : basic_logger := mkBasic (impl_destroy (impl_ l)).
Definition logger_use_file (s : logger_service) (l : basic_logger) (file : bytes) : logger_service :=
  use_file s (impl_ l) file.
Definition logger_log (s : logger_service) (l : basic_logger) (message : bytes) : outcome logger_service :=
  log s (impl_ l) message.

End Logger.

(** ** The interface of a stream socket service *)
Module Sockets.

Definition impl : Type := nat.
Definition endpoint : Type := nat.

(** The text of an endpoint, as lexical_cast gives it. *)
Class EndpointText := show_endpoint : endpoint → bytes.

(** The calls that complete at once. *)
Inductive request :=
  | Construct (i : impl) | Destroy (i : impl)
  | Open (i : impl) (protocol : Z) | Assign (i : impl) (protocol native_socket : Z)
  | IsOpen (i : impl) | Close (i : impl) | AtMark (i : impl) | Available (i : impl)
  | Bind (i : impl) (e : endpoint) | Connect (i : impl) (e : endpoint)
  | SetOption (i : impl) (option : Z) | GetOption (i : impl) (option : Z) | IoControl (i : impl) (command : Z)
  | LocalEndpoint (i : impl) | RemoteEndpoint (i : impl) | Shutdown (i : impl) (what : Z)
  | Send (i : impl) (buffers : bytes) (flags : Z) | Receive (i : impl) (size : nat) (flags : Z).

(** The error code, the value returned and the bytes received. *)
Record response := mkResponse { resp_ec : error_code; resp_value : Z; resp_data : bytes }.

(** The calls that start an asynchronous operation. *)
Inductive async_request :=
  | AsyncConnect (i : impl) (e : endpoint)
  | AsyncSend (i : impl) (buffers : bytes) (flags : Z)
  | AsyncReceive (i : impl) (size : nat) (flags : Z).

(** The operation that completes, with its error code and the bytes it has
    transferred. *)
Record event := mkEvent { which : nat; event_ec : error_code; event_data : bytes }.

(** A service whose state holds handlers of type [H]: calls, asynchronous
    operations, and the completion of one, which gives the handler to be called.
    [rename] replaces the handlers. *)
Class SocketService (W : Type → Type) := {
  call : ∀ {H}, request → W H → outcome (response * W H);
  start : ∀ {H}, async_request → H → W H → outcome (W H);
  completion : ∀ {H}, event → W H → outcome (option (H * W H));
  rename : ∀ {H K}, (H → K) → W H → W K;
}.

(** Handlers are stored and handed out, never looked at. *)
Class LawfulService (W : Type → Type) {S : SocketService W} := {
  call_rename {H K} (f : H → K) r (w : W H) :
    call r (rename f w) = (λ '(x, w'), (x, rename f w')) <$> call r w;
  start_rename {H K} (f : H → K) r h (w : W H) :
    start r (f h) (rename f w) = rename f <$> start r h w;
  completion_rename {H K} (f : H → K) e (w : W H) :
    completion e (rename f w) =
      (λ c : option (H * W H), (λ '(h, w'), (f h, rename f w')) <$> c) <$> completion e w;
}.

(** Programs that use a service, and what their handlers do: [A] is the state of
    the application. *)
Inductive prog (H A : Type) :=
  | Done (a : A)
  | Call (r : request) (k : response → prog H A)
  | Start (r : async_request) (h : H) (p : prog H A).
Arguments Done {H A} _.
Arguments Call {H A} _ _.
Arguments Start {H A} _ _ _.

Definition handlers (H A : Type) : Type := H → error_code → bytes → A → prog H A.

Section Run.
Context {W : Type → Type} {SV : SocketService W} {H A : Type}.

Fixpoint interp (p : prog H A) (w : W H) : outcome (A * W H) :=
  match p with
  | Done a => Ret (a, w)
  | Call r k => '(x, w) ← call r w; interp (k x) w
  | Start r h p => w ← start r h w; interp p w
  end.

(** [io_service::run]: an operation completes, its handler is called. *)
Definition run_event (handle : handlers H A) (e : event) (x : A * W H) : outcome (A * W H) :=
  let '(a, w) := x in
  c ← completion e w;
  match c with
  | Some (h, w) => interp (handle h (event_ec e) (event_data e) a) w
  | None => Ret (a, w)
  end.

Fixpoint run_events (handle : handlers H A) (es : list event) (x : A * W H) : outcome (A * W H) :=
  match es with
  | [] => Ret x
  | e :: es => x ← run_event handle e x; run_events handle es x
  end.
End Run.

End Sockets.

(** ** stream_socket_service.hpp *)
Module DebugSocket.
Import Logger Sockets.

(** The handler classes that wrap the handler of the caller. *)
Inductive handler (H : Type) :=
  | connect_handler (h : H) | send_handler (h : H) | receive_handler (h : H).
Arguments connect_handler {H} _.
Arguments send_handler {H} _.
Arguments receive_handler {H} _.

(** The handler inside. *)
Definition unwrap {H} (h : handler H) : H :=
  match h with connect_handler h | send_handler h | receive_handler h => h end.

(** The service: the one it wraps, the logger, and the logger service. *)
Record stream_socket_service (W : Type → Type) (H : Type) := mkDebug {
  service_impl_ : W (handler H);
  logger_ : basic_logger;
  logs : logger_service;
}.
Arguments mkDebug {W H} _ _ _.
Arguments service_impl_ {W H} _.
Arguments logger_ {W H} _.
Arguments logs {W H} _.

Section Methods.
Context {ET : ErrorText} {EP : EndpointText} {W : Type → Type} {SV : SocketService W} {H : Type}.
Implicit Types d : stream_socket_service W H.

Definition service_ctor (w : W (handler H)) (s : logger_service) : stream_socket_service W H :=
  mkDebug w (logger_new (lit "stream_socket")) s.

(** [logger_.log(message)] *)
Definition say d (message : bytes) : outcome (stream_socket_service W H) :=
  s ← logger_log (logs d) (logger_ d) message; Ret (mkDebug (service_impl_ d) (logger_ d) s).

(** The call of the wrapped service. *)
Definition forward d (r : request) : outcome (response * stream_socket_service W H) :=
  '(x, w) ← call r (service_impl_ d); Ret (x, mkDebug w (logger_ d) (logs d)).
Definition forward_start d (r : async_request) (h : handler H) : outcome (stream_socket_service W H) :=
  w ← start r h (service_impl_ d); Ret (mkDebug w (logger_ d) (logs d)).

Definition construct d i := forward d (Construct i).
Definition destroy d i := forward d (Destroy i).
Definition open d i protocol := d ← say d (lit "Opening new socket"); forward d (Open i protocol).
Definition assign d i protocol native_socket :=
  d ← say d (lit "Assigning from a native socket"); forward d (Assign i protocol native_socket).
Definition is_open d i := d ← say d (lit "Checking if socket is open"); forward d (IsOpen i).
Definition close d i := d ← say d (lit "Closing socket"); forward d (Close i).
Definition at_mark d i :=
  d ← say d (lit "Checking if socket is at out-of-band data mark"); forward d (AtMark i).
Definition available d i :=
  d ← say d (lit "Determining number of bytes available for reading"); forward d (Available i).
Definition bind d i e := d ← say d (lit "Binding socket"); forward d (Bind i e).
Definition connect d i e :=
  d ← say d (lit "Connecting socket to " ++ show_endpoint e); forward d (Connect i e).
Definition set_option d i option := d ← say d (lit "Setting socket option"); forward d (SetOption i option).
Definition get_option d i option := d ← say d (lit "Getting socket option"); forward d (GetOption i option).
Definition io_control d i command :=
  d ← say d (lit "Performing IO control command on socket"); forward d (IoControl i command).
Definition local_endpoint d i := d ← say d (lit "Getting socket's local endpoint"); forward d (LocalEndpoint i).
Definition remote_endpoint d i :=
  d ← say d (lit "Getting socket's remote endpoint"); forward d (RemoteEndpoint i).
Definition shutdown d i what := d ← say d (lit "Shutting down socket"); forward d (Shutdown i what).
Definition send d i buffers flags := d ← say d (lit "Sending data on socket"); forward d (Send i buffers flags).
Definition receive d i size flags := d ← say d (lit "Receiving data on socket"); forward d (Receive i size flags).

Definition async_connect d i e (h : H) :=
  d ← say d (lit "Starting asynchronous connect to " ++ show_endpoint e);
  forward_start d (AsyncConnect i e) (connect_handler h).
Definition async_send d i buffers flags (h : H) :=
  d ← say d (lit "Starting asynchronous send"); forward_start d (AsyncSend i buffers flags) (send_handler h).
Definition async_receive d i size flags (h : H) :=
  d ← say d (lit "Starting asynchronous receive");
  forward_start d (AsyncReceive i size flags) (receive_handler h).

(** [operator()] of the handler classes, up to the call of the handler inside. *)
Definition connect_done (e : error_code) : bytes :=
  if failed e then lit "Asynchronous connect failed: " ++ message e else lit "Asynchronous connect succeeded".
Definition send_done (e : error_code) : bytes :=
  if failed e then lit "Asynchronous send failed: " ++ message e else lit "Asynchronous send succeeded".
Definition receive_done (e : error_code) : bytes :=
  if failed e then lit "Asynchronous receive failed: " ++ message e else lit "Asynchronous receive succeeded".

Definition handler_call d (h : handler H) (e : error_code) : outcome (H * stream_socket_service W H) :=
  match h with
  | connect_handler h => d ← say d (connect_done e); Ret (h, d)
  | send_handler h => d ← say d (send_done e); Ret (h, d)
  | receive_handler h => d ← say d (receive_done e); Ret (h, d)
  end.

(** The methods behind the interface. *)
Definition debug_call (r : request) d : outcome (response * stream_socket_service W H) :=
  match r with
  | Construct i => construct d i
  | Destroy i => destroy d i
  | Open i protocol => open d i protocol
  | Assign i protocol native_socket => assign d i protocol native_socket
  | IsOpen i => is_open d i
  | Close i => close d i
  | AtMark i => at_mark d i
  | Available i => available d i
  | Bind i e => bind d i e
  | Connect i e => connect d i e
  | SetOption i option => set_option d i option
  | GetOption i option => get_option d i option
  | IoControl i command => io_control d i command
  | LocalEndpoint i => local_endpoint d i
  | RemoteEndpoint i => remote_endpoint d i
  | Shutdown i what => shutdown d i what
  | Send i buffers flags => send d i buffers flags
  | Receive i size flags => receive d i size flags
  end.

Definition debug_start (r : async_request) (h : H) d : outcome (stream_socket_service W H) :=
  match r with
  | AsyncConnect i e => async_connect d i e h
  | AsyncSend i buffers flags => async_send d i buffers flags h
  | AsyncReceive i size flags => async_receive d i size flags h
  end.

Definition debug_completion (e : event) d : outcome (option (H * stream_socket_service W H)) :=
  c ← completion e (service_impl_ d);
  match c with
  | Some (h, w) => x ← handler_call (mkDebug w (logger_ d) (logs d)) h (event_ec e); Ret (Some x)
  | None => Ret None
  end.
End Methods.

Definition handler_map {H K} (f : H → K) (h : handler H) : handler K :=
  match h with
  | connect_handler h => connect_handler (f h)
  | send_handler h => send_handler (f h)
  | receive_handler h => receive_handler (f h)
  end.

#[export] Instance debug_service {ET : ErrorText} {EP : EndpointText} (W : Type → Type) {SV : SocketService W} :
  SocketService (stream_socket_service W) := {
  call H r d := debug_call r d;
  start H r h d := debug_start r h d;
  completion H e d := debug_completion e d;
  rename H K f d := mkDebug (rename (handler_map f) (service_impl_ d)) (logger_ d) (logs d);
}.

(** *** What is logged *)

Section Trace.
Context {ET : ErrorText} {EP : EndpointText}.

Definition call_message (r : request) : list bytes :=
  match r with
  | Construct _ | Destroy _ => []
  | Open _ _ => [lit "Opening new socket"]
  | Assign _ _ _ => [lit "Assigning from a native socket"]
  | IsOpen _ => [lit "Checking if socket is open"]
  | Close _ => [lit "Closing socket"]
  | AtMark _ => [lit "Checking if socket is at out-of-band data mark"]
  | Available _ => [lit "Determining number of bytes available for reading"]
  | Bind _ _ => [lit "Binding socket"]
  | Connect _ e => [lit "Connecting socket to " ++ show_endpoint e]
  | SetOption _ _ => [lit "Setting socket option"]
  | GetOption _ _ => [lit "Getting socket option"]
  | IoControl _ _ => [lit "Performing IO control command on socket"]
  | LocalEndpoint _ => [lit "Getting socket's local endpoint"]
  | RemoteEndpoint _ => [lit "Getting socket's remote endpoint"]
  | Shutdown _ _ => [lit "Shutting down socket"]
  | Send _ _ _ => [lit "Sending data on socket"]
  | Receive _ _ _ => [lit "Receiving data on socket"]
  end.

Definition start_message (r : async_request) : bytes :=
  match r with
  | AsyncConnect _ e => lit "Starting asynchronous connect to " ++ show_endpoint e
  | AsyncSend _ _ _ => lit "Starting asynchronous send"
  | AsyncReceive _ _ _ => lit "Starting asynchronous receive"
  end.

Definition wrap {H} (r : async_request) (h : H) : handler H :=
  match r with
  | AsyncConnect _ _ => connect_handler h
  | AsyncSend _ _ _ => send_handler h
  | AsyncReceive _ _ _ => receive_handler h
  end.

Definition done_message {H} (h : handler H) (e : error_code) : bytes :=
  match h with
  | connect_handler _ => connect_done e
  | send_handler _ => send_done e
  | receive_handler _ => receive_done e
  end.

Context {W : Type → Type} {SV : SocketService W} {H A : Type}.

(** The program on the wrapped service, with the texts that belong to it. *)
Fixpoint traced (p : prog H A) (w : W (handler H)) : outcome (A * W (handler H) * list bytes) :=
  match p with
  | Done a => Ret (a, w, [])
  | Call r k =>
      '(x, w) ← call r w;
      '(a, w, l) ← traced (k x) w; Ret (a, w, call_message r ++ l)
  | Start r h p =>
      w ← start r (wrap r h) w;
      '(a, w, l) ← traced p w; Ret (a, w, start_message r :: l)
  end.

Definition traced_event (handle : handlers H A) (e : event) (x : A * W (handler H)) :
    outcome (A * W (handler H) * list bytes) :=
  let '(a, w) := x in
  c ← completion e w;
  match c with
  | Some (h, w) =>
      '(a, w, l) ← traced (handle (unwrap h) (event_ec e) (event_data e) a) w;
      Ret (a, w, done_message h (event_ec e) :: l)
  | None => Ret (a, w, [])
  end.

Fixpoint traced_events (handle : handlers H A) (es : list event) (x : A * W (handler H)) :
    outcome (A * W (handler H) * list bytes) :=
  match es with
  | [] => Ret (x, [])
  | e :: es =>
      '(a, w, l) ← traced_event handle e x;
      '(a, w, l') ← traced_events handle es (a, w); Ret (a, w, l ++ l')
  end.

(** Texts posted one after the other. *)
Definition post_all (s : logger_service) (l : list bytes) : logger_service :=
  mkLogger (work_io_service_ s ++ (log_impl <$> l)) (ofstream_ s) (good s) (files s).

Lemma post_all_nil s : post_all s [] = s.
Proof. destruct s. unfold post_all. cbn. by rewrite app_nil_r. Qed.

Lemma post_all_app s l1 l2 : post_all (post_all s l1) l2 = post_all s (l1 ++ l2).
Proof. unfold post_all. cbn. by rewrite fmap_app, app_assoc. Qed.

(** The state of the debugging service after a traced run. *)
Definition logged (d : stream_socket_service W H) (i : logger_impl) (x : A * W (handler H) * list bytes) :
    A * stream_socket_service W H :=
  let '(a, w, l) := x in (a, mkDebug w (logger_ d) (post_all (logs d) (log_text i <$> l))).

Lemma say_live (d : stream_socket_service W H) i m :
  logger_ d = mkBasic (Some i) →
  say d m = Ret (mkDebug (service_impl_ d) (logger_ d) (post_all (logs d) [log_text i m])).
Proof. intros Hl. unfold say, logger_log. by rewrite Hl. Qed.

Lemma debug_call_live r (d : stream_socket_service W H) i :
  logger_ d = mkBasic (Some i) →
  debug_call r d =
    ('(x, w) ← call r (service_impl_ d);
     Ret (x, mkDebug w (logger_ d) (post_all (logs d) (log_text i <$> call_message r)))).
Proof.
  intros Hl. destruct r; cbn [debug_call call_message fmap list_fmap];
    unfold construct, destroy, open, assign, is_open, close, at_mark, available, bind, connect, set_option,
      get_option, io_control, local_endpoint, remote_endpoint, shutdown, send, receive;
    try (rewrite (say_live d i) by done; rewrite bind_ret); unfold forward; cbn [service_impl_ logger_ logs].
  all: try done.
  all: by rewrite post_all_nil.
Qed.

Lemma debug_start_live r h (d : stream_socket_service W H) i :
  logger_ d = mkBasic (Some i) →
  debug_start r h d =
    (w ← start r (wrap r h) (service_impl_ d);
     Ret (mkDebug w (logger_ d) (post_all (logs d) [log_text i (start_message r)]))).
Proof.
  intros Hl. destruct r; cbn [debug_start]; unfold async_connect, async_send, async_receive;
    rewrite (say_live d i) by done; by rewrite bind_ret.
Qed.

Lemma handler_call_live h e (d : stream_socket_service W H) i :
  logger_ d = mkBasic (Some i) →
  handler_call d h e =
    Ret (unwrap h, mkDebug (service_impl_ d) (logger_ d) (post_all (logs d) [log_text i (done_message h e)])).
Proof. intros Hl. destruct h; cbn [handler_call]; by rewrite (say_live d i), bind_ret. Qed.

(** The debugging service does what the traced run says. *)
Lemma interp_logged p (d : stream_socket_service W H) i :
  logger_ d = mkBasic (Some i) → interp p d = logged d i <$> traced p (service_impl_ d).
Proof.
  revert d. induction p as [a|r k IH|r h p IH]; intros d Hl; cbn [interp traced call start debug_service].
  - destruct d. cbn. by rewrite post_all_nil.
  - rewrite (debug_call_live r d i) by done.
    destruct (call r (service_impl_ d)) as [[x w]| |] eqn:E; cbn; [|done..].
    rewrite IH by done. cbn [service_impl_]. destruct (traced (k x) w) as [[[a w'] l]| |]; cbn; [|done..].
    by rewrite post_all_app, fmap_app.
  - rewrite (debug_start_live r h d i) by done.
    destruct (start r (wrap r h) (service_impl_ d)) as [w| |] eqn:E; cbn; [|done..].
    rewrite IH by done. cbn [service_impl_]. destruct (traced p w) as [[[a w'] l]| |]; cbn; [|done..].
    by rewrite post_all_app.
Qed.

Lemma run_event_logged handle e a (d : stream_socket_service W H) i :
  logger_ d = mkBasic (Some i) →
  run_event handle e (a, d) = logged d i <$> traced_event handle e (a, service_impl_ d).
Proof.
  intros Hl. cbn [run_event traced_event completion debug_service]. unfold debug_completion.
  destruct (completion e (service_impl_ d)) as [[[h w]|]| |] eqn:E; cbn; [| |done..].
  - rewrite (handler_call_live h _ _ i) by done. cbn. rewrite (interp_logged _ _ i) by done.
    cbn [service_impl_]. destruct (traced _ w) as [[[a' w'] l]| |]; cbn; [|done..].
    by rewrite post_all_app.
  - unfold logged. cbn. rewrite post_all_nil. by destruct d.
Qed.

Lemma run_events_logged handle es a (d : stream_socket_service W H) i :
  logger_ d = mkBasic (Some i) →
  run_events handle es (a, d) = logged d i <$> traced_events handle es (a, service_impl_ d).
Proof.
  revert a d. induction es as [|e es IH]; intros a d Hl; cbn [run_events traced_events].
  - destruct d. cbn. by rewrite post_all_nil.
  - rewrite (run_event_logged _ _ _ _ i) by done.
    destruct (traced_event handle e (a, service_impl_ d)) as [[[a' w'] l]| |]; cbn; [|done..].
    rewrite IH by done. cbn [service_impl_].
    destruct (traced_events handle es (a', w')) as [[[a2 w2] l2]| |]; cbn; [|done..].
    by rewrite post_all_app, fmap_app.
Qed.

Context {LV : LawfulService W}.

(** The wrapped service does what it does without the wrapping. *)
Definition plain (x : A * W (handler H) * list bytes) : A * W H := let '(a, w, _) := x in (a, rename unwrap w).

Lemma unwrap_wrap (r : async_request) (h : H) : unwrap (wrap r h) = h.
Proof. by destruct r. Qed.

Lemma interp_plain p w : interp p (rename unwrap w) = plain <$> traced p w.
Proof.
  revert w. induction p as [a|r k IH|r h p IH]; intros w; cbn [interp traced].
  - done.
  - rewrite call_rename. destruct (call r w) as [[x w']| |]; cbn; [|done..].
    rewrite IH. by destruct (traced (k x) w') as [[[a w2] l]| |].
  - rewrite <-(unwrap_wrap r h) at 1. rewrite start_rename.
    destruct (start r (wrap r h) w) as [w'| |]; cbn; [|done..].
    rewrite IH. by destruct (traced p w') as [[[a w2] l]| |].
Qed.

Lemma run_events_plain handle es a w :
  run_events handle es (a, rename unwrap w) = plain <$> traced_events handle es (a, w).
Proof.
  revert a w. induction es as [|e es IH]; intros a w; cbn [run_events traced_events]; [done|].
  cbn [run_event traced_event]. rewrite completion_rename.
  destruct (completion e w) as [[[h w']|]| |]; cbn; [| |done..].
  - rewrite interp_plain. destruct (traced _ w') as [[[a' w2] l]| |]; cbn; [|done..].
    rewrite IH. by destruct (traced_events handle es (a', w2)) as [[[a3 w3] l3]| |].
  - rewrite IH. by destruct (traced_events handle es (a, w)) as [[[a3 w3] l3]| |].
Qed.

(** C22: the debugging socket service is transparent. Take any application and any
    sequence of completions, over any service that does not look at handlers. The
    application ends in the same state as on the wrapped service alone, and leaves that
    service in the same state; it is undefined or throws only where it would there. And the
    logger service has been given exactly the texts of what was done, in order:
    one for each call, for each start of an operation and for each completion before
    its handler runs. *)
Theorem debug_transparent (handle : handlers H A) es a (d : stream_socket_service W H) i :
  logger_ d = mkBasic (Some i) →
  (λ '(a', d'), (a', rename unwrap (service_impl_ d'))) <$> run_events handle es (a, d) =
    run_events handle es (a, rename unwrap (service_impl_ d)) ∧
  (∀ a' d', run_events handle es (a, d) = Ret (a', d') →
     ∃ l, traced_events handle es (a, service_impl_ d) = Ret (a', service_impl_ d', l) ∧
       logs d' = post_all (logs d) (log_text i <$> l)).
Proof.
  intros Hl. rewrite (run_events_logged _ _ _ _ i) by done. rewrite run_events_plain.
  destruct (traced_events handle es (a, service_impl_ d)) as [[[a2 w2] l2]| |]; cbn; [|by split..].
  split; [done|]. intros a' d' [= <- <-]. eauto.
Qed.
End Trace.

(** The debugging service is itself a service that does not look at handlers, so
    that it can be wrapped again. *)
#[export] Instance debug_lawful {ET : ErrorText} {EP : EndpointText} (W : Type → Type)
    {SV : SocketService W} {LV : LawfulService W} : LawfulService (stream_socket_service W).
Proof.
  pose (ren := λ H K (f : H → K), rename (W := stream_socket_service W) f).
  assert (∀ H K (f : H → K) (d : stream_socket_service W H) m,
    say (ren H K f d) m = ren H K f <$> say d m) as Hsay.
  { intros H K f d m. unfold say, logger_log. cbn [ren rename debug_service logs logger_].
    by destruct (log (logs d) (impl_ (logger_ d)) m). }
  assert (∀ H K (f : H → K) (d : stream_socket_service W H) r,
    forward (ren H K f d) r = (λ '(x, d'), (x, ren H K f d')) <$> forward d r) as Hfw.
  { intros H K f d r. unfold forward. cbn [ren rename debug_service service_impl_]. rewrite call_rename.
    by destruct (call r (service_impl_ d)) as [[x w]| |]. }
  assert (∀ H K (f : H → K) (d : stream_socket_service W H) r h,
    forward_start (ren H K f d) r (handler_map f h) = ren H K f <$> forward_start d r h) as Hst.
  { intros H K f d r h. unfold forward_start. cbn [ren rename debug_service service_impl_]. rewrite start_rename.
    by destruct (start r h (service_impl_ d)). }
  subst ren. cbv beta in *. split.
  - intros H K f r d. cbn [call debug_service]. destruct r; cbn [debug_call];
      unfold construct, destroy, open, assign, is_open, close, at_mark, available, bind, connect, set_option,
        get_option, io_control, local_endpoint, remote_endpoint, shutdown, send, receive;
      [apply Hfw|apply Hfw|rewrite Hsay; destruct (say d _) as [d'| |]; [apply Hfw|done..]..].
  - intros H K f r h d. cbn [start debug_service]. destruct r; cbn [debug_start];
      unfold async_connect, async_send, async_receive; rewrite Hsay; destruct (say d _) as [d'| |]; try done.
    + apply (Hst _ _ f d' _ (connect_handler h)).
    + apply (Hst _ _ f d' _ (send_handler h)).
    + apply (Hst _ _ f d' _ (receive_handler h)).
  - intros H K f e d. cbn [completion debug_service rename]. unfold debug_completion. cbn [service_impl_].
    rewrite completion_rename. destruct (completion e (service_impl_ d)) as [[[h w]|]| |]; cbn; [|done..].
    destruct h; cbn; rewrite (Hsay H K f (mkDebug w (logger_ d) (logs d)));
      by destruct (say (mkDebug w (logger_ d) (logs d)) _).
Qed.

End DebugSocket.

(** ** daytime_client.cpp *)
Module Daytime.
Import Logger Sockets DebugSocket.

(** The handler that is bound to a read; what has been written to the console and to
    the error stream. *)
Inductive bound := on_read.
Record output := mkOutput { cout : bytes; cerr : bytes }.

Section Client.
Context {ET : ErrorText}.
Variable s : impl.      (* the socket *)

Definition read_next (a : output) : prog bound output := Start (AsyncReceive s 1024 0) on_read (Done a).

Definition read_handler (h : bound) (e : error_code) (data : bytes) (a : output) : prog bound output :=
  if failed e then Done a else read_next (mkOutput (cout a ++ data) (cerr a)).

Definition connected_handler (e : error_code) (a : output) : prog bound output :=
  if failed e then Done (mkOutput (cout a) (cerr a ++ message e ++ [newline])) else read_next a.
End Client.

(** [main] up to the connection: the logger service with the file it is to use. *)
Definition log_file : bytes := lit "log.txt".
Definition main_logs (disk : gmap bytes bytes) : logger_service :=
  logger_use_file (service_new disk) (logger_new []) log_file.

Section Run.
Context {ET : ErrorText} {EP : EndpointText}.
Context {W : Type → Type} {SV : SocketService W}.

(** A service with nothing outstanding completes the one operation that is started,
    and has nothing outstanding again. *)
Variable idle : ∀ H, W H → Prop.
Hypothesis serves : ∀ H (w : W H) r h, idle H w →
  ∃ w', start r h w = Ret w' ∧
    ∀ e, ∃ w'', completion e w' = Ret (Some (h, w'')) ∧ idle H w''.

Definition receive_texts (n : nat) : list bytes :=
  mjoin (replicate n [lit "Asynchronous receive succeeded"; lit "Starting asynchronous receive"]).

Lemma daytime_traced s l e data a (w w1 : W (handler bound)) k :
  failed e = true → idle _ w →
  start (AsyncReceive s 1024 0) (receive_handler on_read) w = Ret w1 →
  ∃ w', traced_events (read_handler s)
          ((mkEvent k success <$> l) ++ [mkEvent k e data]) (a, w1) =
        Ret (mkOutput (cout a ++ mjoin l) (cerr a), w',
             receive_texts (length l) ++ [lit "Asynchronous receive failed: " ++ message e]).
Proof using serves.
  intros He. revert a w w1. induction l as [|x l IH]; intros a w w1 Hw Hst;
    destruct (serves _ w (AsyncReceive s 1024 0) (receive_handler on_read) Hw) as (w2 & Hst' & Hc);
    rewrite Hst in Hst'; injection Hst' as <-.
  - destruct (Hc (mkEvent k e data)) as (w3 & Hc3 & _). exists w3.
    cbn [fmap list_fmap app traced_events traced_event]. rewrite Hc3.
    destruct a. cbn. unfold read_handler, receive_done. rewrite He. cbn. by rewrite app_nil_r.
  - destruct (Hc (mkEvent k success x)) as (w3 & Hc3 & Hi3).
    destruct (serves _ w3 (AsyncReceive s 1024 0) (receive_handler on_read) Hi3) as (w4 & Hst4 & _).
    destruct (IH (mkOutput (cout a ++ x) (cerr a)) w3 w4 Hi3 Hst4) as (w' & Hw'). exists w'.
    cbn [fmap list_fmap app traced_events traced_event]. rewrite Hc3. cbn [mbind outcome_bind unwrap event_ec event_data].
    change (read_handler s on_read success x a) with
      (Start (AsyncReceive s 1024 0) on_read (Done (mkOutput (cout a ++ x) (cerr a)))).
    cbn [traced wrap]. rewrite Hst4. cbn [mbind outcome_bind].
    change (list_fmap _ _ (mkEvent k success) l) with (mkEvent k success <$> l). rewrite Hw'.
    cbn. by rewrite <-app_assoc.
Qed.

(** The daytime client and all its layers. Once the socket is connected, the
    client prints the bytes of every read up to the first error, in order and
    nothing else, on the debugging socket. When the logger service has been
    destroyed, log.txt holds exactly the lines for the reads: each start and each
    completion, however far the logging thread had come by then, whatever was in the file
    before. If the connection failed, the message of the error is all that is printed. *)
Theorem daytime_logged disk can_open s (w : W (handler bound)) l e data k :
  idle _ w → failed e = true → can_open log_file = true →
  let d := service_ctor w (main_logs disk) in
  (∃ d1 d2,
     interp (connected_handler s success (mkOutput [] [])) d = Ret (mkOutput [] [], d1) ∧
     run_events (read_handler s) ((mkEvent k success <$> l) ++ [mkEvent k e data]) (mkOutput [] [], d1) =
       Ret (mkOutput (mjoin l) [], d2) ∧
     ∀ n, files (service_destroy can_open (drain can_open n (logs d2))) !! log_file =
       Some (texts_of ((λ t, lit "stream_socket: " ++ t) <$>
         [lit "Starting asynchronous receive"] ++ receive_texts (length l) ++
         [lit "Asynchronous receive failed: " ++ message e]))) ∧
  interp (connected_handler s e (mkOutput [] [])) d = Ret (mkOutput [] (message e ++ [newline]), d).
Proof using serves.
  intros Hw He Hopen d. split; [|unfold connected_handler; by rewrite He].
  destruct (serves _ w (AsyncReceive s 1024 0) (receive_handler on_read) Hw) as (w1 & Hst & _).
  set (i := mkImpl (lit "stream_socket")).
  destruct (daytime_traced s l e data (mkOutput [] []) w w1 k He Hw Hst) as (w' & Ht).
  eexists (mkDebug w1 (logger_ d) (post_all (logs d) (log_text i <$> [lit "Starting asynchronous receive"]))), _.
  split_and!.
  - rewrite (interp_logged _ _ i) by done. unfold connected_handler. change (failed success) with false.
    cbn [read_next traced wrap service_impl_ d service_ctor]. rewrite Hst. done.
  - rewrite (run_events_logged _ _ _ _ i) by done. cbn [service_impl_]. rewrite Ht. reflexivity.
  - intros n. cbn [logs logger_]. rewrite post_all_app, <-fmap_app.
    assert (∀ s0, service_destroy can_open (drain can_open n s0) = service_destroy can_open s0) as ->.
    { induction n as [|n IHn]; intros s0; [done|]. cbn [drain]. by rewrite IHn, destroy_run_one. }
    rewrite (destroy_file _ _ [] log_file (log_text i <$> [lit "Starting asynchronous receive"] ++
      receive_texts (length l) ++ [lit "Asynchronous receive failed: " ++ message e])); [|done..].
    done.
Qed.
End Run.

End Daytime.

(** ** Examples *)
Module ServicesExamples.
Import Logger Sockets DebugSocket Daytime.

(** A service that completes its operations in the order they were started. *)
Definition fifo (H : Type) : Type := list H.

#[local] Instance fifo_service : SocketService fifo := {
  call H r w := Ret (mkResponse success 0 [], w);
  start H r h w := Ret (w ++ [h] : fifo H);
  completion H e w := Ret (match w with h :: w => Some (h, w) | [] => None end);
  rename H K f w := f <$> (w : list H);
}.

#[local] Instance fifo_lawful : LawfulService fifo.
Proof.
  split; intros H K f; intros; cbn; [done| |].
  - by rewrite fmap_app.
  - by destruct w.
Qed.

#[local] Instance texts : ErrorText :=
  Build_ErrorText (λ _, lit "message") (λ _, lit "code") (λ _, lit "what").
#[local] Instance no_names : EndpointText := λ _, lit "endpoint".

Lemma debug_transparent_witness :
  let d := mkDebug (W := fifo) [receive_handler on_read] (mkBasic (Some (mkImpl (lit "x")))) (service_new ∅) in
  fst <$> run_events (read_handler 0) [mkEvent 0 success (lit "noon")] (mkOutput [] [], d) =
    Ret (mkOutput (lit "noon") []) ∧
  (λ '(a', d'), (a', rename unwrap (service_impl_ d'))) <$>
    run_events (read_handler 0) [mkEvent 0 success (lit "noon")] (mkOutput [] [], d) =
  run_events (read_handler 0) [mkEvent 0 success (lit "noon")] (mkOutput [] [], rename unwrap (service_impl_ d)).
Proof.
  intros d. split; [vm_compute; reflexivity|].
  exact (proj1 (debug_transparent (read_handler 0) [mkEvent 0 success (lit "noon")] (mkOutput [] []) d
    (mkImpl (lit "x")) eq_refl)).
Defined.

Lemma fifo_serves H (w : fifo H) r h :
  w = [] → ∃ w', start r h w = Ret w' ∧ ∀ e, ∃ w'', completion e w' = Ret (Some (h, w'')) ∧ w'' = [].
Proof. intros ->. eexists. split; [done|]. intros e. by eexists. Qed.

Lemma daytime_logged_witness :
  ∃ d1 d2 : stream_socket_service fifo bound,
    run_events (read_handler 0) [mkEvent 0 success (lit "no"); mkEvent 0 success (lit "on"); mkEvent 0 eof []]
      (mkOutput [] [], d1) = Ret (mkOutput (lit "noon") [], d2).
Proof.
  destruct (daytime_logged (W := fifo) (λ H w, w = []) fifo_serves ∅ (λ _, true) 0 [] [lit "no"; lit "on"] eof [] 0
    eq_refl eq_refl eq_refl) as [(d1 & d2 & _ & Hrun & _) _].
  exists d1, d2. exact Hrun.
Defined.

End ServicesExamples.
