(* ===== verification/Nonblocking.v ===== *)
(** * A library that performs its own reads and writes

    (src/doc_searcher/data/input/html/boost_asio/example/nonblocking/
    third_party_lib.cpp.) A third party library echoes on a non-blocking socket; the
    glue asks it what it wants, waits for the socket to be ready, and lets it read or
    write. *)

From S2P Require Import Prelude CxxString Asio.
Import Asio.

Module Nonblocking.

(** ** third_party_lib::session *)
Inductive state := reading | writing.

#[export] Instance state_eq_dec : EqDecision state.
Proof. solve_decision. Defined.

(** [data_.size()] *)
Definition data_size : nat := 128.

Record session := mkSession {
  state_ : state;
  data_ : bytes;          (* what the last read has put into the array *)
  write_buffer_ : bytes;  (* the part of it that is still to be written *)
}.

Definition session_new : session := mkSession reading [] [].

Definition want_read (s : session) : bool := bool_decide (state_ s = reading).
Definition want_write (s : session) : bool := bool_decide (state_ s = writing).

(** [do_read], when [read_some] has given [data] and [ec]. *)
Definition do_read (s : session) (ec : error_code) (data : bytes) : session :=
  if (0 <? length data)%nat then mkSession writing data data else s.

(** [do_write], when [write_some] has written [len] bytes. *)
Definition do_write (s : session) (ec : error_code) (len : nat) : session :=
  if (0 <? len)%nat then
    let rest := drop len (write_buffer_ s) in
    mkSession (if (0 <? length rest)%nat then writing else reading) (data_ s) rest
  else s.

(** ** connection *)

(** [got] and [sent] are what was read from and written to the socket; the program
    does not keep them. [reads] and [writes] are the waits that are outstanding. *)
Record connection := mkConn {
  is_open : bool;
  session_impl_ : session;
  read_in_progress_ : bool;
  write_in_progress_ : bool;
  reads : nat;
  writes : nat;
  got : bytes;
  sent : bytes;
}.

Definition connection_new : connection := mkConn true session_new false false 0 0 [] [].

(** [start_operations] *)
Definition start_reading (c : connection) : connection :=
  if want_read (session_impl_ c) && negb (read_in_progress_ c) then
    mkConn (is_open c) (session_impl_ c) true (write_in_progress_ c) (S (reads c)) (writes c) (got c) (sent c)
  else c.
Definition start_writing (c : connection) : connection :=
  if want_write (session_impl_ c) && negb (write_in_progress_ c) then
    mkConn (is_open c) (session_impl_ c) (read_in_progress_ c) true (reads c) (S (writes c)) (got c) (sent c)
  else c.
Definition start_operations (c : connection) : connection := start_writing (start_reading c).

Definition start (c : connection) : connection := start_operations c.

Definition close (c : connection) : connection :=
  mkConn false (session_impl_ c) (read_in_progress_ c) (write_in_progress_ c) (reads c) (writes c) (got c) (sent c).

(** The end of both handlers. *)
Definition go_on (c : connection) (ec : error_code) : connection :=
  if negb (failed ec) || bool_decide (ec = would_block) then start_operations c else close c.

(** [handle_read]: the wait has ended with [ec]; if the library is told to read,
    [io] is what [read_some] does. *)
Definition handle_read (c : connection) (ec : error_code) (io : error_code * bytes) : connection :=
  let c := mkConn (is_open c) (session_impl_ c) false (write_in_progress_ c) (pred (reads c)) (writes c) (got c) (sent c) in
  if failed ec then go_on c ec
  else
    let '(ec, data) := io in
    go_on (mkConn (is_open c) (do_read (session_impl_ c) ec data) (read_in_progress_ c) (write_in_progress_ c)
             (reads c) (writes c) (got c ++ data) (sent c)) ec.

(** [handle_write], [io] being what [write_some] does. *)
Definition handle_write (c : connection) (ec : error_code) (io : error_code * nat) : connection :=
  let c := mkConn (is_open c) (session_impl_ c) (read_in_progress_ c) false (reads c) (pred (writes c)) (got c) (sent c) in
  if failed ec then go_on c ec
  else
    let '(ec, len) := io in
    go_on (mkConn (is_open c) (do_write (session_impl_ c) ec len) (read_in_progress_ c) (write_in_progress_ c)
             (reads c) (writes c) (got c) (sent c ++ take len (write_buffer_ (session_impl_ c)))) ec.

(** What [read_some] and [write_some] do on a non-blocking socket: they transfer a
    byte at least, or fail and transfer none. *)
Definition read_result (io : error_code * bytes) : Prop :=
  io.1 = success ∧ 0 < length io.2 ≤ data_size ∨ failed io.1 = true ∧ io.2 = [].
Definition write_result (c : connection) (io : error_code * nat) : Prop :=
  io.1 = success ∧ 0 < io.2 ≤ length (write_buffer_ (session_impl_ c)) ∨ failed io.1 = true ∧ io.2 = 0.

(** ** server *)

(** The connections that are alive, the one that is being accepted, and the number
    of the next. *)
Record server := mkServer {
  conns : gmap nat connection;
  accepting : nat;
}.

(** [start_accept]: [connection::create]. *)
Definition start_accept (v : server) : server := mkServer (conns v) (S (accepting v)).

(** [handle_accept]: the connection that was being accepted is started; if the
    operation failed nothing refers to it any more. *)
Definition handle_accept (v : server) (error : error_code) : server :=
  let v := if failed error then v
           else mkServer (<[accepting v := start connection_new]> (conns v)) (accepting v) in
  start_accept v.

Definition server_new : server := start_accept (mkServer ∅ 0).

(** A connection without outstanding waits is destroyed with its last handler. *)
Definition put (v : server) (i : nat) (c : connection) : server :=
  mkServer (if (reads c + writes c =? 0)%nat then delete i (conns v) else <[i := c]> (conns v)) (accepting v).

Inductive step : server → server → Prop :=
  | step_accept v error : step v (handle_accept v error)
  | step_read v i c ec io :
      conns v !! i = Some c → 0 < reads c → read_result io → step v (put v i (handle_read c ec io))
  | step_write v i c ec io :
      conns v !! i = Some c → 0 < writes c → write_result c io → step v (put v i (handle_write c ec io)).

Definition reachable : server → Prop := rtc step server_new.

(** ** The invariant of a connection *)
Record conn_ok (c : connection) : Prop := {
  ok_open : is_open c = true;
  ok_reads : read_in_progress_ c = bool_decide (state_ (session_impl_ c) = reading) ∧
             reads c = (if read_in_progress_ c then 1 else 0);
  ok_writes : write_in_progress_ c = bool_decide (state_ (session_impl_ c) = writing) ∧
              writes c = (if write_in_progress_ c then 1 else 0);
  ok_buffer : (state_ (session_impl_ c) = writing ↔ write_buffer_ (session_impl_ c) ≠ []) ∧
              length (write_buffer_ (session_impl_ c)) ≤ data_size;
  ok_echo : got c = sent c ++ write_buffer_ (session_impl_ c);
}.

(** Once its operations have been started, a connection that has none outstanding is
    as it should be. *)
Lemma start_operations_ok c :
  is_open c = true → read_in_progress_ c = false → write_in_progress_ c = false → reads c = 0 → writes c = 0 →
  (state_ (session_impl_ c) = writing ↔ write_buffer_ (session_impl_ c) ≠ []) →
  length (write_buffer_ (session_impl_ c)) ≤ data_size →
  got c = sent c ++ write_buffer_ (session_impl_ c) →
  conn_ok (start_operations c).
Proof.
  destruct c as [o [st d wb] rp wp r w g t]. cbn. intros -> -> -> -> -> Hst Hlen Hg.
  unfold start_operations, start_reading, start_writing, want_read, want_write. cbn.
  destruct st; cbn; split; cbn; by try split.
Qed.

Lemma connection_start_ok : conn_ok (start connection_new).
Proof. apply start_operations_ok; cbn; try done. unfold data_size. lia. Qed.

(** An error that ends the connection, and the error a handler ends with: that of the
    wait, or else that of the library's own operation. *)
Definition fatal (ec : error_code) : bool := failed ec && negb (bool_decide (ec = would_block)).
Definition ends_with {A} (ec : error_code) (io : error_code * A) : error_code :=
  if failed ec then ec else io.1.

(** After a handler that ended with [ec]: the connection is closed and nothing is
    outstanding if the error is fatal, and otherwise it goes on. *)
Definition after (ec : error_code) (c : connection) : Prop :=
  if fatal ec then is_open c = false ∧ reads c + writes c = 0 ∧ sent c `prefix_of` got c else conn_ok c.

Lemma handle_read_ok c ec io :
  conn_ok c → 0 < reads c → read_result io → after (ends_with ec io) (handle_read c ec io).
Proof.
  destruct c as [o [st d wb] rp wp r w g t]. intros [Ho [Hr1 Hr2] [Hw1 Hw2] [Hb Hl] He] Hpos Hio. cbn in *.
  destruct st; vm_compute in Hr1, Hw1; cbn in *; subst; [|lia]. destruct wb as [|b wb]; [|by pose proof (proj2 Hb ltac:(done))].
  rewrite app_nil_r in *. unfold handle_read, ends_with, after, fatal. cbn. destruct (failed ec) eqn:Ef.
  - unfold go_on. rewrite Ef. cbn. case_bool_decide; cbn; [|by split_and!].
    apply start_operations_ok; cbn; try done; by rewrite app_nil_r.
  - destruct io as [ec' data]. destruct Hio as [[Hec Hd]|[Hec Hd]]; cbn in Hec, Hd |- *; subst.
    + unfold go_on. change (failed success) with false. cbn [andb negb orb]. unfold do_read.
      assert ((0 <? length data)%nat = true) as -> by (apply Nat.ltb_lt; lia).
      apply start_operations_ok; cbn; try done; [|lia].
      split; [intros _ ->; cbn in Hd; lia|done].
    + unfold go_on. rewrite Hec. cbn. rewrite app_nil_r. case_bool_decide; cbn; [|by split_and!].
      apply start_operations_ok; cbn; try done; by rewrite app_nil_r.
Qed.

Lemma handle_write_ok c ec io :
  conn_ok c → 0 < writes c → write_result c io → after (ends_with ec io) (handle_write c ec io).
Proof.
  destruct c as [o [st d wb] rp wp r w g t]. intros [Ho [Hr1 Hr2] [Hw1 Hw2] [Hb Hl] He] Hpos Hio. cbn in *.
  destruct st; vm_compute in Hr1, Hw1; cbn in *; subst; [lia|].
  unfold handle_write, ends_with, after, fatal. cbn. destruct (failed ec) eqn:Ef.
  - unfold go_on. rewrite Ef. cbn. case_bool_decide; cbn; [by apply start_operations_ok|].
    split_and!; [done..|by apply prefix_app_r].
  - destruct io as [ec' len]. destruct Hio as [[Hec Hd]|[Hec Hd]]; cbn in Hec, Hd |- *; subst.
    + unfold go_on. change (failed success) with false. cbn [andb negb orb]. unfold do_write.
      assert ((0 <? len)%nat = true) as -> by (apply Nat.ltb_lt; lia). cbn.
      apply start_operations_ok; cbn; try done.
      * destruct (drop len wb) as [|b l]; cbn; naive_solver.
      * rewrite length_drop. lia.
      * by rewrite <-app_assoc, take_drop.
    + unfold go_on. rewrite Hec. cbn. rewrite app_nil_r. case_bool_decide; cbn; [by apply start_operations_ok|].
      split_and!; [done..|by apply prefix_app_r].
Qed.

Definition inv (v : server) : Prop :=
  ∀ i c, conns v !! i = Some c → i < accepting v ∧ conn_ok c.

(** A connection that was closed is destroyed with its last handler; one that goes on
    stays. *)
Lemma put_after v i ec c' :
  after ec c' → conns (put v i c') !! i = if fatal ec then None else Some c'.
Proof.
  unfold after, put. cbn. destruct (fatal ec).
  - intros (_ & -> & _). cbn. apply lookup_delete_eq.
  - intros [_ [Hr1 Hr2] [Hw1 Hw2] _ _].
    assert (reads c' + writes c' ≠ 0) as Hne.
    { rewrite Hr2, Hw2, Hr1, Hw1. by destruct (state_ (session_impl_ c')). }
    apply Nat.eqb_neq in Hne. rewrite Hne. apply lookup_insert_eq.
Qed.

Lemma put_inv v i c ec c' : inv v → conns v !! i = Some c → after ec c' → inv (put v i c').
Proof.
  intros Hv Hc Ha j c0 Hj. destruct (decide (j = i)) as [->|Hne].
  - rewrite (put_after v i ec c' Ha) in Hj. unfold after in Ha. destruct (fatal ec); [done|].
    injection Hj as <-. split; [by apply (Hv i c)|done].
  - apply (Hv j c0). unfold put in Hj. cbn in Hj. destruct (_ =? _)%nat.
    + by rewrite lookup_delete_ne in Hj.
    + by rewrite lookup_insert_ne in Hj.
Qed.

Lemma nonblocking_inv v : reachable v → inv v.
Proof.
  intros Hr. assert (inv server_new) as H0 by (intros i c; cbn; by rewrite lookup_empty).
  induction Hr as [v|v1 v2 v3 Hst Hrest IH]; [done|]. apply IH. clear IH Hrest.
  destruct Hst as [v error|v i c ec io Hc Hpos Hio|v i c ec io Hc Hpos Hio].
  - intros i c. unfold handle_accept, start_accept. destruct (failed error); cbn.
    + intros Hi. destruct (H0 i c Hi). split; [lia|done].
    + intros [[<- <-]|[_ Hi]]%lookup_insert_Some; [split; [lia|apply connection_start_ok]|].
      destruct (H0 i c Hi). split; [lia|done].
  - eapply put_inv; [done..|]. apply handle_read_ok; [by apply (H0 i c)|done..].
  - eapply put_inv; [done..|]. apply handle_write_ok; [by apply (H0 i c)|done..].
Qed.

Lemma after_cases v i ec c' (P : Prop) :
  after ec c' → P →
  (fatal ec = true → is_open c' = false ∧ reads c' + writes c' = 0 ∧ conns (put v i c') !! i = None) ∧
  (fatal ec = false → is_open c' = true ∧ conns (put v i c') !! i = Some c') ∧ P.
Proof.
  intros Ha HP. pose proof (put_after v i ec c' Ha) as Hput. unfold after in Ha. split_and!; [| |done].
  - intros E. rewrite E in Ha, Hput. by destruct Ha as (? & ? & _).
  - intros E. rewrite E in Ha, Hput. split; [apply Ha|done].
Qed.

(** C35: the glue and the library fit together. In every reachable state of the
    server each connection waits for exactly one thing, the one the library wants,
    so that it never stalls and never has two waits of a kind; the library has
    written what it has read, in order, but for the part of its buffer of 128 bytes
    that is still to be written; a partial write or a socket that turns out not to
    be ready is taken up again; any other error, of the wait or of the library's own
    operation, closes the connection, which has then no wait left and is destroyed. *)
Theorem glue_matches v i c :
  reachable v → conns v !! i = Some c →
  is_open c = true ∧ reads c + writes c = 1 ∧
  (reads c = 1 ↔ want_read (session_impl_ c) = true) ∧ (writes c = 1 ↔ want_write (session_impl_ c) = true) ∧
  got c = sent c ++ write_buffer_ (session_impl_ c) ∧ length (write_buffer_ (session_impl_ c)) ≤ data_size ∧
  (∀ ec io, reads c = 1 → read_result io →
     let c' := handle_read c ec io in
     (fatal (ends_with ec io) = true →
        is_open c' = false ∧ reads c' + writes c' = 0 ∧ conns (put v i c') !! i = None) ∧
     (fatal (ends_with ec io) = false → is_open c' = true ∧ conns (put v i c') !! i = Some c') ∧
     (failed ec = false → io.1 = would_block → c' = c)) ∧
  (∀ ec io, writes c = 1 → write_result c io →
     let c' := handle_write c ec io in
     (fatal (ends_with ec io) = true →
        is_open c' = false ∧ reads c' + writes c' = 0 ∧ conns (put v i c') !! i = None) ∧
     (fatal (ends_with ec io) = false → is_open c' = true ∧ conns (put v i c') !! i = Some c') ∧
     (failed ec = false → io.1 = would_block → c' = c)).
Proof.
  intros Hr Hc. destruct (nonblocking_inv v Hr i c Hc) as [_ Hok]. pose proof Hok as [Ho [Hr1 Hr2] [Hw1 Hw2] [Hb Hl] He].
  unfold want_read, want_write. destruct c as [o [st d wb] rp wp r w g t]. cbn in *.
  split_and!; try done.
  1-3: destruct st; vm_compute in Hr1, Hw1; cbn in *; subst; done.
  - intros ec io Hone Hio. apply after_cases; [apply handle_read_ok; [done|cbn; lia|done]|]. intros Hec Hwb.
    destruct io as [ec' data]. cbn in Hwb. subst ec'. destruct Hio as [[? _]|[_ Hd]]; [done|]. cbn in Hd. subst data.
    unfold handle_read. rewrite Hec. destruct st; vm_compute in Hr1, Hw1; cbn in *; subst; [|done]. cbn. by rewrite app_nil_r.
  - intros ec io Hone Hio. apply after_cases; [apply handle_write_ok; [done|cbn; lia|done]|]. intros Hec Hwb.
    destruct io as [ec' len]. cbn in Hwb. subst ec'. destruct Hio as [[? _]|[_ Hd]]; [done|]. cbn in Hd. subst len.
    unfold handle_write. rewrite Hec. destruct st; vm_compute in Hr1, Hw1; cbn in *; subst; [done|]. cbn. by rewrite app_nil_r.
Qed.

(** ** Example: a connection has read three bytes and written one. *)
Definition partial : connection :=
  mkConn true (mkSession writing (lit "abc") (lit "bc")) false true 0 1 (lit "abc") (lit "a").

Lemma partial_reachable : reachable (mkServer {[1 := partial]} 2).
Proof.
  eapply rtc_l; [apply (step_accept _ success)|].
  eapply rtc_l; [apply (step_read _ 1 (start connection_new) success (success, lit "abc"));
    [reflexivity|vm_compute; lia|left; vm_compute; split; [done|split; apply (bool_decide_unpack _); vm_compute; exact I]]|].
  eapply rtc_l; [eapply (step_write _ 1 _ success (success, 1));
    [vm_compute; reflexivity|vm_compute; lia|left; vm_compute; split; [done|lia]]|].
  match goal with |- rtc _ ?a ?b => assert (a = b) as -> by (vm_compute; reflexivity) end. apply rtc_refl.
Qed.

Lemma glue_matches_witness :
  reachable (mkServer {[1 := partial]} 2) ∧ got partial = sent partial ++ lit "bc" ∧
  is_open (handle_write partial success (other_error 32, 0)) = false.
Proof.
  split; [apply partial_reachable|].
  destruct (glue_matches _ 1 partial partial_reachable eq_refl) as (_ & _ & _ & _ & He & _ & _ & Hw).
  split; [exact He|].
  apply (Hw success (other_error 32, 0) eq_refl); [right; by split|reflexivity].
Defined.

End Nonblocking.
