(* ===== verification/ChatClient.v ===== *)
(** * The chat clients

    (src/doc_searcher/data/input/html/boost_asio/example/chat/{chat_client,
    posix_chat_client}.cpp.) chat_client reads lines in its main thread and posts the
    messages to the thread that runs the io_service, which queues and writes them;
    posix_chat_client does everything with asynchronous operations. Both show what the
    server sends. *)

From S2P Require Import Prelude CxxString HttpParser HttpReply Chat Asio.
Import HttpReply ChatMessage.
Import Asio (error_code(..), failed).
#[local] Existing Instance Asio.error_code_eq_dec.

(** ** Frames: what both clients read *)
Module Frames.

(** What [decode_header] makes of the four characters of a header. *)
Definition header_value (hdr : bytes) : option nat :=
  let n := to_uint64 (atoi (c_str hdr)) in
  if (Z.of_nat max_body_length <? n)%Z then None else Some (Z.to_nat n).

Definition frame (body : bytes) : bytes := format_4d (length body) ++ body.

(** The headers and bodies that have been read. *)
Definition frames_ok (fs : list (bytes * bytes)) : Prop :=
  Forall (λ f : bytes * bytes, length f.1 = header_length ∧ header_value f.1 = Some (length f.2)) fs.
Definition raw (fs : list (bytes * bytes)) : bytes := mjoin ((λ f, f.1 ++ f.2) <$> fs).
Definition shown (fs : list (bytes * bytes)) : bytes := mjoin ((λ f, f.2 ++ [newline]) <$> fs).

Lemma header_value_frame (body : bytes) :
  length body ≤ max_body_length →
  length (format_4d (length body)) = header_length ∧ header_value (format_4d (length body)) = Some (length body).
Proof.
  intros Hl. destruct (format_4d_atoi (length body) Hl) as (H1 & H2 & H3). split; [done|].
  unfold header_value. rewrite H2, H3, to_uint64_small by (unfold max_body_length in *; lia).
  rewrite (proj2 (Z.ltb_ge _ _)) by lia. by rewrite Nat2Z.id.
Qed.

(** Reading is unambiguous: what comes out of a stream of frames are its bodies. *)
Lemma frames_prefix fs rest (bodies : list bytes) (tail : bytes) :
  frames_ok fs → Forall (λ b, length b ≤ max_body_length) bodies →
  raw fs ++ rest = mjoin (frame <$> bodies) ++ tail → length tail < header_length →
  fs.*2 `prefix_of` bodies ∧
  raw fs = mjoin (frame <$> take (length fs) bodies).
Proof.
  intros Hfs. revert bodies. induction Hfs as [|[hdr body] fs [Hh Hv] Hfs IH]; intros bodies Hb Heq Ht.
  { split; [apply prefix_nil|done]. }
  cbn in Hh, Hv. change (raw ((hdr, body) :: fs)) with ((hdr ++ body) ++ raw fs) in *.
  destruct bodies as [|b bodies].
  { apply (f_equal length) in Heq. cbn in Heq. rewrite !length_app in Heq. lia. }
  apply Forall_cons_1 in Hb as [Hlb Hb]. destruct (header_value_frame b Hlb) as [Hh2 Hv2].
  rewrite fmap_cons in Heq.
  change (mjoin (frame b :: (frame <$> bodies))) with ((format_4d (length b) ++ b) ++ mjoin (frame <$> bodies)) in Heq.
  rewrite <-!app_assoc in Heq. apply app_inj_1 in Heq as [-> Heq]; [|congruence].
  rewrite Hv in Hv2. injection Hv2 as Hlen. apply app_inj_1 in Heq as [-> Heq]; [|done].
  destruct (IH bodies Hb Heq Ht) as [[k Hpre] Hraw]. split.
  - exists k. cbn. by rewrite Hpre.
  - cbn [length take]. rewrite fmap_cons. rewrite Hraw. done.
Qed.

Lemma shown_bodies fs : shown fs = mjoin ((λ b, b ++ [newline]) <$> fs.*2).
Proof. unfold shown. f_equal. rewrite <-list_fmap_compose. done. Qed.

(** A header in place is decoded. *)
Lemma decode_stored m hdr m' :
  length hdr = header_length → length (data_ m) = header_length + max_body_length → store m 0 hdr = Ret m' →
  decode_header m' = match header_value hdr with
                     | Some n => (true, mkMsg (data_ m') n)
                     | None => (false, mkMsg (data_ m') 0)
                     end.
Proof.
  intros Hh Hd. unfold store. rewrite (proj2 (Nat.leb_le _ _)) by lia. intros [= <-].
  unfold decode_header, header_value. cbn [data_]. cbn [take app].
  rewrite take_app_le, take_ge by lia. by destruct (_ <? _)%Z.
Qed.

(** A body in place is what is shown. *)
Lemma body_stored m text m' :
  length text = body_length_ m → length (data_ m) = header_length + max_body_length →
  store m header_length text = Ret m' → msg_body m' = text.
Proof.
  intros Ht Hd. unfold store. destruct (Nat.leb_spec (header_length + length text) (length (data_ m))); [|done].
  intros [= <-]. unfold msg_body. cbn [data_ body_length_].
  rewrite drop_app_ge by (rewrite length_take; lia). rewrite length_take.
  replace (header_length - header_length `min` length (data_ m)) with 0 by lia.
  rewrite drop_0, take_app_le, take_ge by lia. done.
Qed.

Lemma header_value_bound hdr n : header_value hdr = Some n → n ≤ max_body_length.
Proof.
  unfold header_value. destruct (Z.ltb_spec (Z.of_nat max_body_length) (to_uint64 (atoi (c_str hdr)))); [done|].
  intros [= <-]. lia.
Qed.

Lemma frames_snoc fs hdr (text : bytes) :
  frames_ok fs → length hdr = header_length → header_value hdr = Some (length text) →
  frames_ok (fs ++ [(hdr, text)]) ∧ raw (fs ++ [(hdr, text)]) = raw fs ++ hdr ++ text ∧
  shown (fs ++ [(hdr, text)]) = shown fs ++ text ++ [newline].
Proof.
  intros Hf Hh Hv. split_and!.
  - apply Forall_app. split; [done|]. by apply Forall_singleton.
  - unfold raw. rewrite fmap_app, join_app. cbn. by rewrite app_nil_r.
  - unfold shown. rewrite fmap_app, join_app. cbn. by rewrite app_nil_r.
Qed.

End Frames.

(** ** chat_client.cpp *)
Module ChatClient.
Import Frames.

(** The lines the loop of [main] reads: [getline] fails, and the loop ends, at the end
    of the input and at a line of more than 512 characters. *)
Fixpoint cin_lines (fuel : nat) (s : bytes) : list bytes :=
  match fuel with
  | 0 => []
  | S fuel =>
      match getline s with
      | None => []
      | Some (line, rest) =>
          if (length line <=? max_body_length)%nat then c_str line :: cin_lines fuel rest else []
      end
  end.

(** What the main thread posts to the io_service. *)
Inductive work := post_write (msg : chat_message) | post_close.

Inductive reading := connecting | no_read | read_header | read_body (hdr : bytes).

(** [frames] is what was read, [sent] what was written, [typed] what was typed and
    [broken] whether a write has failed; the program does not keep them. *)
Record chat_client := mkClient {
  is_open : bool;
  reads : reading;
  read_msg_ : chat_message;
  write_msgs_ : list chat_message;
  writing : bool;
  io_service_ : list work;          (* posted and not yet run *)
  typing : option (list bytes);     (* the lines main has still to read *)
  cout : bytes;
  frames : list (bytes * bytes);
  sent : list chat_message;
  typed : list bytes;
  broken : bool;
}.

Definition do_close (c : chat_client) : chat_client :=
  mkClient false (reads c) (read_msg_ c) (write_msgs_ c) (writing c) (io_service_ c) (typing c) (cout c)
    (frames c) (sent c) (typed c) (broken c).

Definition set_read (c : chat_client) (m : chat_message) (r : reading) : chat_client :=
  mkClient (is_open c) r m (write_msgs_ c) (writing c) (io_service_ c) (typing c) (cout c)
    (frames c) (sent c) (typed c) (broken c).

Definition handle_connect (c : chat_client) (error : error_code) : chat_client :=
  if failed error then set_read c (read_msg_ c) no_read else set_read c (read_msg_ c) read_header.

Definition handle_read_header (c : chat_client) (error : error_code) (hdr : bytes) : outcome chat_client :=
  m ← store (read_msg_ c) 0 hdr;
  let '(good, m) := if failed error then (false, m) else decode_header m in
  if good then Ret (set_read c m (read_body hdr)) else Ret (do_close (set_read c m no_read)).

(** [cout.write(body); cout << "\n"] and the next read. *)
Definition show_message (c : chat_client) (m : chat_message) (hdr : bytes) : chat_client :=
  mkClient (is_open c) read_header m (write_msgs_ c) (writing c) (io_service_ c) (typing c)
    (cout c ++ msg_body m ++ [newline]) (frames c ++ [(hdr, msg_body m)]) (sent c) (typed c) (broken c).

Definition handle_read_body (c : chat_client) (hdr : bytes) (error : error_code) (text : bytes) :
    outcome chat_client :=
  m ← store (read_msg_ c) header_length text;
  if failed error then Ret (do_close (set_read c m no_read)) else Ret (show_message c m hdr).

Definition do_write (c : chat_client) (msg : chat_message) : chat_client :=
  let write_in_progress := negb (bool_decide (write_msgs_ c = [])) in
  mkClient (is_open c) (reads c) (read_msg_ c) (write_msgs_ c ++ [msg])
    (if write_in_progress then writing c else true) (io_service_ c) (typing c) (cout c)
    (frames c) (sent c) (typed c) (broken c).

Definition handle_write (c : chat_client) (error : error_code) : outcome chat_client :=
  if failed error then
    Ret (do_close (mkClient (is_open c) (reads c) (read_msg_ c) (write_msgs_ c) false (io_service_ c)
           (typing c) (cout c) (frames c) (sent c) (typed c) true))
  else
    match write_msgs_ c with
    | [] => Undef OutOfBounds
    | m :: rest =>
        Ret (mkClient (is_open c) (reads c) (read_msg_ c) rest (negb (bool_decide (rest = []))) (io_service_ c)
               (typing c) (cout c) (frames c) (sent c ++ [m]) (typed c) (broken c))
    end.

(** The oldest posted function runs. *)
Definition run_posted (c : chat_client) : chat_client :=
  match io_service_ c with
  | [] => c
  | w :: rest =>
      let c := mkClient (is_open c) (reads c) (read_msg_ c) (write_msgs_ c) (writing c) rest (typing c) (cout c)
                 (frames c) (sent c) (typed c) (broken c) in
      match w with post_write m => do_write c m | post_close => do_close c end
  end.

Section Main.
Context (junk : bytes) (Hjunk : length junk = header_length + max_body_length).

(** The main thread: [write(msg)] for the next line, [close()] after the last. *)
Definition type_line (c : chat_client) : outcome chat_client :=
  match typing c with
  | None => Ret c
  | Some [] =>
      Ret (mkClient (is_open c) (reads c) (read_msg_ c) (write_msgs_ c) (writing c) (io_service_ c ++ [post_close])
             None (cout c) (frames c) (sent c) (typed c) (broken c))
  | Some (line :: lines) =>
      msg ← client_message junk line;
      Ret (mkClient (is_open c) (reads c) (read_msg_ c) (write_msgs_ c) (writing c) (io_service_ c ++ [post_write msg])
             (Some lines) (cout c) (frames c) (sent c) (typed c ++ [line]) (broken c))
  end.

Definition client_new (cin : bytes) : chat_client :=
  mkClient true connecting (chat_message_new junk) [] false [] (Some (cin_lines (S (length cin)) cin)) [] [] [] []
    false.

Inductive step : chat_client → outcome chat_client → Prop :=
  | step_type c : step c (type_line c)
  | step_posted c : step c (Ret (run_posted c))
  | step_connect c error : reads c = connecting → step c (Ret (handle_connect c error))
  | step_header c error hdr :
      reads c = read_header → length hdr ≤ header_length →
      (failed error = false → length hdr = header_length) → step c (handle_read_header c error hdr)
  | step_body c hdr error text :
      reads c = read_body hdr → length text ≤ body_length_ (read_msg_ c) →
      (failed error = false → length text = body_length_ (read_msg_ c)) →
      step c (handle_read_body c hdr error text)
  | step_write c error : writing c = true → step c (handle_write c error).

Inductive reachable (cin : bytes) : chat_client → Prop :=
  | reach_new : reachable cin (client_new cin)
  | reach_step c c' : reachable cin c → step c (Ret c') → reachable cin c'.

(** What was read, the header of a message that is not complete included. *)
Definition got (c : chat_client) : bytes :=
  raw (frames c) ++ match reads c with read_body hdr => hdr | _ => [] end.

Definition posted_msgs (l : list work) : list chat_message :=
  omap (λ w, match w with post_write m => Some m | post_close => None end) l.

Definition message_of (line : bytes) : chat_message := framed line (drop (header_length + length line) junk).

(** *** The invariant *)
Record inv (cin : bytes) (c : chat_client) : Prop := {
  inv_msg : msg_ok (read_msg_ c);
  inv_reads : match reads c with
              | read_body hdr => length hdr = header_length ∧ header_value hdr = Some (body_length_ (read_msg_ c))
              | _ => True
              end;
  inv_frames : frames_ok (frames c) ∧ cout c = shown (frames c);
  inv_writing : (writing c = true ↔ write_msgs_ c ≠ [] ∧ broken c = false) ∧
                (broken c = true → write_msgs_ c ≠ []);
  inv_typed : sent c ++ write_msgs_ c ++ posted_msgs (io_service_ c) = message_of <$> typed c;
  inv_typing : cin_lines (S (length cin)) cin = typed c ++ default [] (typing c);
}.

Lemma cin_lines_short fuel s : Forall (λ l, length l ≤ max_body_length) (cin_lines fuel s).
Proof.
  revert s. induction fuel as [|fuel IH]; intros s; cbn [cin_lines]; [constructor|].
  destruct (getline s) as [[line rest]|]; [|constructor].
  destruct (Nat.leb_spec (length line) max_body_length); constructor; [|apply IH].
  etransitivity; [apply prefix_length, c_str_prefix|done].
Qed.

Lemma client_inv_new cin : inv cin (client_new cin).
Proof using Hjunk.
  split; cbn -[cin_lines]; try done; try (by split; [constructor|]); try naive_solver.
  split; cbn; [done|lia].
Qed.

(** The reading side: only these fields matter to it. *)
Lemma inv_set_reading cin c m r :
  inv cin c → msg_ok m →
  match r with
  | read_body hdr => length hdr = header_length ∧ header_value hdr = Some (body_length_ m)
  | _ => True
  end → inv cin (set_read c m r).
Proof. intros [] Hm Hr. by split. Qed.

Lemma inv_close cin c : inv cin c → inv cin (do_close c).
Proof. intros []. by split. Qed.

Lemma client_inv_header cin c error hdr :
  inv cin c → length hdr ≤ header_length → (failed error = false → length hdr = header_length) →
  ∃ c', handle_read_header c error hdr = Ret c' ∧ inv cin c'.
Proof.
  intros Hi Hh Hs. pose proof (inv_msg _ _ Hi) as [Hd Hb]. unfold handle_read_header.
  destruct (store_ok (read_msg_ c) 0 hdr) as (m & Hm & Hl & Hbm); [done|lia|]. rewrite Hm.
  cbn [mbind outcome_bind]. destruct (failed error) eqn:Ef.
  - eexists. split; [done|]. apply inv_close, inv_set_reading; [done|split; lia|done].
  - rewrite (decode_stored _ _ _ (Hs eq_refl) Hd Hm). destruct (header_value hdr) as [n|] eqn:Ev.
    + eexists. split; [done|]. apply inv_set_reading; [done| |by split; [apply Hs|]].
      split; cbn [data_ body_length_]; [lia|]. by eapply header_value_bound.
    + eexists. split; [done|]. apply inv_close, inv_set_reading; [done|split; cbn [data_ body_length_]; lia|done].
Qed.

Lemma client_inv_body cin c hdr error text :
  inv cin c → reads c = read_body hdr → length text ≤ body_length_ (read_msg_ c) →
  (failed error = false → length text = body_length_ (read_msg_ c)) →
  ∃ c', handle_read_body c hdr error text = Ret c' ∧ inv cin c'.
Proof.
  intros Hi Hr Hh Hs. pose proof (inv_msg _ _ Hi) as [Hd Hb]. pose proof (inv_reads _ _ Hi) as Hrd.
  rewrite Hr in Hrd. destruct Hrd as [Hlh Hv]. unfold handle_read_body.
  destruct (store_ok (read_msg_ c) header_length text) as (m & Hm & Hl & Hbm); [done|lia|]. rewrite Hm.
  cbn [mbind outcome_bind]. destruct (failed error) eqn:Ef; (eexists; split; [done|]).
  - apply inv_close, inv_set_reading; [done|split; lia|done].
  - rewrite <-(Hs eq_refl) in Hv. pose proof (body_stored _ _ _ (Hs eq_refl) Hd Hm) as Hbody.
    destruct Hi as [? _ [Hf Hc] ? ? ?]. destruct (frames_snoc _ hdr text Hf Hlh Hv) as (H1 & _ & H2).
    split; cbn -[shown frames_ok]; rewrite ?Hbody; try done; [split; lia|]. split; [done|]. by rewrite Hc, H2.
Qed.

Lemma client_inv_handle_write cin c error :
  inv cin c → writing c = true → ∃ c', handle_write c error = Ret c' ∧ inv cin c'.
Proof.
  intros Hi Hw. destruct Hi as [Hm Hr Hf [Hwr Hbk] Ht Hty]. pose proof (proj1 Hwr Hw) as [Hne Hbr].
  unfold handle_write. destruct (failed error).
  - eexists. split; [done|]. split; cbn; try done; naive_solver.
  - destruct (write_msgs_ c) as [|m rest] eqn:E; [done|]. eexists. split; [done|]. split; cbn; try done.
    + rewrite Hbr, negb_true_iff, bool_decide_eq_false. naive_solver.
    + by rewrite <-app_assoc.
Qed.

Lemma inv_posted cin c : inv cin c → inv cin (run_posted c).
Proof.
  intros Hi. unfold run_posted. destruct (io_service_ c) as [|w rest] eqn:E; [done|].
  destruct Hi as [Hm Hr Hf [Hwr Hbk] Ht Hty]. rewrite E in Ht. destruct w as [m|]; split; cbn; try done.
  - split; [|by destruct (write_msgs_ c)].
    destruct (write_msgs_ c) as [|m0 l] eqn:Ew; cbn.
    + destruct (broken c); [by destruct (Hbk eq_refl)|naive_solver].
    + rewrite Hwr. naive_solver.
  - rewrite <-Ht. cbn. by rewrite <-app_assoc.
Qed.

Lemma inv_main cin c : inv cin c → ∃ c', type_line c = Ret c' ∧ inv cin c'.
Proof using Hjunk.
  intros Hi. unfold type_line. destruct (typing c) as [[|line lines]|] eqn:E.
  - eexists. split; [done|]. destruct Hi as [Hm Hr Hf Hwr Ht Hty]. split; cbn -[cin_lines]; try done.
    + unfold posted_msgs in *. rewrite omap_app. cbn. by rewrite app_nil_r.
    + by rewrite Hty, E.
  - destruct Hi as [Hm Hr Hf Hwr Ht Hty]. rewrite E in Hty. cbn -[cin_lines] in Hty.
    assert (length line ≤ max_body_length) as Hl.
    { pose proof (cin_lines_short (S (length cin)) cin) as Hall. rewrite Hty in Hall.
      apply Forall_app in Hall as [_ Hall]. by apply Forall_cons_1 in Hall as [? _]. }
    rewrite (client_message_framed line Hl junk Hjunk). eexists. split; [done|]. split; cbn -[cin_lines]; try done.
    + unfold posted_msgs in *. rewrite omap_app. cbn. rewrite fmap_app. cbn. by rewrite <-Ht, <-!app_assoc.
    + by rewrite <-app_assoc.
  - by eexists.
Qed.

Lemma client_inv_step cin c o : inv cin c → step c o → ∃ c', o = Ret c' ∧ inv cin c'.
Proof using Hjunk.
  intros Hi Hst. destruct Hst as [c|c|c error Hr|c error hdr Hr Hh Hs|c hdr error text Hr Hh Hs|c error Hw].
  - destruct (inv_main cin c Hi) as (c' & -> & Hc'). eauto.
  - eexists. split; [done|]. by apply inv_posted.
  - eexists. split; [done|]. unfold handle_connect.
    destruct (failed error); apply inv_set_reading; try done; apply Hi.
  - destruct (client_inv_header cin c error hdr Hi Hh Hs) as (c' & -> & Hc'). eauto.
  - destruct (client_inv_body cin c hdr error text Hi Hr Hh Hs) as (c' & -> & Hc'). eauto.
  - destruct (client_inv_handle_write cin c error Hi Hw) as (c' & -> & Hc'). eauto.
Qed.

Lemma client_inv cin c : reachable cin c → inv cin c.
Proof using Hjunk.
  intros Hr. induction Hr as [|c c' _ IH Hst]; [apply client_inv_new|].
  destruct (client_inv_step cin c _ IH Hst) as (c2 & [= <-] & ?). done.
Qed.

(** After a failed write nothing is written any more: the queue is not empty, and
    [do_write] starts a write only for a queue that was. *)
Lemma broken_stays cin c c' :
  inv cin c → broken c = true → step c (Ret c') → sent c' = sent c ∧ broken c' = true.
Proof.
  intros Hi Hb Hst. destruct (inv_writing _ _ Hi) as [Hw _].
  remember (Ret c') as o eqn:E. destruct Hst as [c|c|c error Hr|c error hdr Hr Hh Hs|c hdr error text Hr Hh Hs|c error Hwr].
  - unfold type_line in E. destruct (typing c) as [[|line lines]|]; [by injection E as <-| |by injection E as <-].
    symmetry in E. destruct (client_message junk line); cbn in E; by simplify_eq.
  - injection E as <-. unfold run_posted. destruct (io_service_ c) as [|[m|] rest]; done.
  - injection E as <-. unfold handle_connect. by destruct (failed error).
  - unfold handle_read_header in E. destruct (store (read_msg_ c) 0 hdr) as [m| |]; cbn in E; try done.
    destruct (if failed error then _ else _) as [[] m']; by injection E as <-.
  - unfold handle_read_body in E. destruct (store _ _ text) as [m| |]; cbn in E; try done.
    destruct (failed error); by injection E as <-.
  - destruct (proj1 Hw Hwr); congruence.
Qed.

(** Nothing posted, no write outstanding and none failed: the queue is empty. *)
Lemma quiet_sent cin c :
  inv cin c → io_service_ c = [] → writing c = false → broken c = false →
  sent c = message_of <$> typed c.
Proof.
  intros Hi Hio Hw Hb. destruct (inv_writing _ _ Hi) as [Hiff _].
  assert (write_msgs_ c = []) as Hq.
  { destruct (write_msgs_ c) eqn:E; [done|]. rewrite (proj2 Hiff) in Hw; [done|]. done. }
  rewrite <-(inv_typed _ _ Hi), Hq, Hio. cbn. by rewrite app_nil_r.
Qed.

(** C21: the chat client. Whatever the interleaving of its two threads, the console
    input, the errors and the bytes that arrive: no handler is undefined. What has
    been written is an initial part of the messages of the lines typed so far, in
    order and each once; the rest is queued or posted. When the input has been
    read, nothing is posted or outstanding and no write has failed, all lines of
    the input have been written; after a failed write nothing is written any more,
    and what was queued is lost. A write is outstanding exactly while there is
    something to write and no write has failed; and if the server sends messages,
    however they are cut up, their texts are shown in order, every complete one. *)
Theorem chat_client_faithful cin c :
  reachable cin c →
  (∀ o, step c o → ∃ c', o = Ret c' ∧ reachable cin c') ∧
  sent c ++ write_msgs_ c ++ posted_msgs (io_service_ c) = message_of <$> typed c ∧
  (typing c = None → io_service_ c = [] → writing c = false → broken c = false →
     sent c = message_of <$> cin_lines (S (length cin)) cin) ∧
  (broken c = true → ∀ c', step c (Ret c') → sent c' = sent c ∧ broken c' = true) ∧
  Forall (λ l, msg_body (message_of l) = l ∧ wire (message_of l) = frame l) (typed c) ∧
  typed c `prefix_of` cin_lines (S (length cin)) cin ∧
  (typing c = Some [] → typed c = cin_lines (S (length cin)) cin) ∧
  (writing c = true ↔ write_msgs_ c ≠ [] ∧ broken c = false) ∧
  (∀ bodies rest tail, Forall (λ b, length b ≤ max_body_length) bodies → length tail < header_length →
     got c ++ rest = mjoin (frame <$> bodies) ++ tail →
     ∃ n, cout c = mjoin ((λ b, b ++ [newline]) <$> take n bodies) ∧
       raw (frames c) = mjoin (frame <$> take n bodies)).
Proof using Hjunk.
  intros Hr. pose proof (client_inv cin c Hr) as Hi. pose proof Hi as [Hm Hrd [Hf Hc] [Hw _] Ht Hty].
  split_and!; try done.
  - intros o Ho. destruct (client_inv_step cin c o Hi Ho) as (c' & -> & _). exists c'. split; [done|].
    by eapply reach_step.
  - intros Hn Hio Hwf Hb. rewrite Hty, Hn. cbn -[cin_lines]. rewrite app_nil_r. by apply (quiet_sent cin).
  - intros Hb c' Hst. by apply (broken_stays cin).
  - pose proof (cin_lines_short (S (length cin)) cin) as Hall. rewrite Hty in Hall.
    apply Forall_app in Hall as [Hall _]. eapply Forall_impl; [exact Hall|]. intros l Hl. cbn in Hl.
    unfold message_of. by rewrite body_framed, wire_framed.
  - rewrite Hty. by apply prefix_app_r.
  - intros E. rewrite Hty, E. cbn -[cin_lines]. by rewrite app_nil_r.
  - intros bodies rest tail Hb Htail Hgot. unfold got in Hgot. rewrite <-app_assoc in Hgot.
    destruct (frames_prefix _ _ _ _ Hf Hb Hgot Htail) as [[k Hpre] Hraw].
    exists (length (frames c)). split; [|done]. rewrite Hc, shown_bodies, Hpre.
    rewrite <-(length_fmap snd (frames c)). by rewrite take_app_length.
Qed.

End Main.

End ChatClient.

(** ** posix_chat_client.cpp *)
Module PosixChatClient.
Import Frames.

(** The two chains of operations: socket to output, and input to socket. *)
Inductive out_chain := o_connecting | o_none | o_header | o_body (hdr : bytes) | o_output (hdr : bytes).
Inductive in_chain := i_none | i_input | i_sending.

(** [frames], [chunks], [typed] and [sent] are what was shown, what was made of the
    input (with whether a newline ended it), all of the input that was read, and what
    was written to the socket; the program does not keep them. *)
Record posix_chat_client := mkPosix {
  is_open : bool;
  outs : out_chain;
  ins : in_chain;
  read_msg_ : chat_message;
  write_msg_ : chat_message;
  input_buffer_ : bytes;
  output_ : bytes;
  frames : list (bytes * bytes);
  chunks : list (bytes * bool);
  typed : bytes;
  sent : bytes;
}.

Definition close (c : posix_chat_client) : posix_chat_client :=
  mkPosix false (outs c) (ins c) (read_msg_ c) (write_msg_ c) (input_buffer_ c) (output_ c) (frames c) (chunks c)
    (typed c) (sent c).

Definition set_out (c : posix_chat_client) (m : chat_message) (o : out_chain) : posix_chat_client :=
  mkPosix (is_open c) o (ins c) m (write_msg_ c) (input_buffer_ c) (output_ c) (frames c) (chunks c)
    (typed c) (sent c).

Definition set_in (c : posix_chat_client) (i : in_chain) (extra : bytes) : posix_chat_client :=
  mkPosix (is_open c) (outs c) i (read_msg_ c) (write_msg_ c) (input_buffer_ c) (output_ c) (frames c) (chunks c)
    (typed c) (sent c ++ extra).

Definition posix_handle_connect (c : posix_chat_client) (error : error_code) : posix_chat_client :=
  if failed error then set_out c (read_msg_ c) o_none
  else set_in (set_out c (read_msg_ c) o_header) i_input [].

Definition posix_handle_read_header (c : posix_chat_client) (error : error_code) (hdr : bytes) : outcome posix_chat_client :=
  m ← store (read_msg_ c) 0 hdr;
  let '(good, m) := if failed error then (false, m) else decode_header m in
  if good then Ret (set_out c m (o_body hdr)) else Ret (close (set_out c m o_none)).

Definition posix_handle_read_body (c : posix_chat_client) (hdr : bytes) (error : error_code) (text : bytes) :
    outcome posix_chat_client :=
  m ← store (read_msg_ c) header_length text;
  if failed error then Ret (close (set_out c m o_none)) else Ret (set_out c m (o_output hdr)).

(** [handle_write_output], after [n] bytes of body and newline have been written. *)
Definition handle_write_output (c : posix_chat_client) (hdr : bytes) (error : error_code) (n : nat) :
    posix_chat_client :=
  let text := take n (msg_body (read_msg_ c) ++ [newline]) in
  let c' := mkPosix (is_open c) o_header (ins c) (read_msg_ c) (write_msg_ c) (input_buffer_ c)
              (output_ c ++ text) (frames c ++ [(hdr, msg_body (read_msg_ c))]) (chunks c) (typed c) (sent c) in
  if failed error then close (set_out c' (read_msg_ c) o_none) else c'.

(** A message of the first [n] characters of the input buffer, of which [n + skip]
    are taken out. *)
Definition send_input (c : posix_chat_client) (n skip : nat) : outcome posix_chat_client :=
  let msg := set_body_length (write_msg_ c) n in
  msg ← store msg header_length (take n (input_buffer_ c));
  Ret (mkPosix (is_open c) (outs c) i_sending (read_msg_ c) (encode_header msg)
         (drop (n + skip) (input_buffer_ c)) (output_ c) (frames c)
         (chunks c ++ [(take n (input_buffer_ c), bool_decide (skip = 1))]) (typed c) (sent c)).

(** [handle_read_input]; [length - 1] is computed in std::size_t. *)
Definition handle_read_input (c : posix_chat_client) (error : error_code) (length_ : nat) :
    outcome posix_chat_client :=
  if negb (failed error) then
    n ← size_sub length_ 1; send_input c n 1
  else if bool_decide (error = not_found) then send_input c (length (input_buffer_ c)) 0
  else Ret (close (set_in c i_none [])).

(** [posix_handle_write], after [n] bytes of the message have been written. *)
Definition posix_handle_write (c : posix_chat_client) (error : error_code) (n : nat) : posix_chat_client :=
  let c := set_in c (if failed error then i_none else i_input) (take n (wire (write_msg_ c))) in
  if failed error then close c else c.

(** [async_read_until] has put [data] into the buffer. *)
Definition fill (c : posix_chat_client) (data : bytes) : posix_chat_client :=
  mkPosix (is_open c) (outs c) (ins c) (read_msg_ c) (write_msg_ c) (input_buffer_ c ++ data) (output_ c)
    (frames c) (chunks c) (typed c ++ data) (sent c).

(** It succeeds with the length up to the first newline, and fails with [not_found]
    when the buffer is full and has none. *)
Definition input_result (buf : bytes) (error : error_code) (n : nat) : Prop :=
  length buf ≤ max_body_length ∧
  (error = success → ∃ l r, buf = l ++ newline :: r ∧ (newline ∉ l) ∧ n = S (length l)) ∧
  (error = not_found → length buf = max_body_length ∧ (newline ∉ buf)).

Section Main.
Context (junk : bytes) (Hjunk : length junk = header_length + max_body_length).

Definition posix_client_new : posix_chat_client :=
  mkPosix true o_connecting i_none (chat_message_new junk) (chat_message_new junk) [] [] [] [] [] [].

Inductive step : posix_chat_client → outcome posix_chat_client → Prop :=
  | step_connect c error : outs c = o_connecting → step c (Ret (posix_handle_connect c error))
  | step_header c error hdr :
      outs c = o_header → length hdr ≤ header_length →
      (failed error = false → length hdr = header_length) → step c (posix_handle_read_header c error hdr)
  | step_body c hdr error text :
      outs c = o_body hdr → length text ≤ body_length_ (read_msg_ c) →
      (failed error = false → length text = body_length_ (read_msg_ c)) →
      step c (posix_handle_read_body c hdr error text)
  | step_output c hdr error n :
      outs c = o_output hdr → (failed error = false → n = length (msg_body (read_msg_ c)) + 1) →
      step c (Ret (handle_write_output c hdr error n))
  | step_input c data error n :
      ins c = i_input → input_result (input_buffer_ c ++ data) error n →
      step c (handle_read_input (fill c data) error n)
  | step_write c error n :
      ins c = i_sending → (failed error = false → n = length (wire (write_msg_ c))) →
      step c (Ret (posix_handle_write c error n)).

Inductive reachable : posix_chat_client → Prop :=
  | reach_new : reachable posix_client_new
  | reach_step c c' : reachable c → step c (Ret c') → reachable c'.

(** A chunk is a line that fits the buffer with its newline, or a full buffer. *)
Definition chunk_ok (x : bytes * bool) : Prop :=
  (newline ∉ x.1) ∧ if x.2 then length x.1 < max_body_length else length x.1 = max_body_length.
Definition unchunk (l : list (bytes * bool)) : bytes :=
  mjoin ((λ x : bytes * bool, x.1 ++ if x.2 then [newline] else []) <$> l).

Definition outstanding (c : posix_chat_client) : bytes :=
  match ins c with i_sending => wire (write_msg_ c) | _ => [] end.

(** *** The invariant *)
Record inv (c : posix_chat_client) : Prop := {
  inv_msgs : msg_ok (read_msg_ c) ∧ length (data_ (write_msg_ c)) = header_length + max_body_length;
  inv_outs : match outs c with
             | o_body hdr => length hdr = header_length ∧ header_value hdr = Some (body_length_ (read_msg_ c))
             | o_output hdr =>
                 length hdr = header_length ∧ header_value hdr = Some (length (msg_body (read_msg_ c)))
             | _ => True
             end;
  inv_shown : frames_ok (frames c) ∧ output_ c `prefix_of` shown (frames c) ∧
              (outs c ≠ o_none → output_ c = shown (frames c));
  inv_chunks : Forall chunk_ok (chunks c) ∧ typed c = unchunk (chunks c) ++ input_buffer_ c;
  inv_sent : sent c ++ outstanding c `prefix_of` mjoin (frame <$> (chunks c).*1) ∧
             (ins c ≠ i_none → sent c ++ outstanding c = mjoin (frame <$> (chunks c).*1));
  inv_start : outs c = o_connecting → frames c = [] ∧ chunks c = [] ∧ sent c = [] ∧ ins c = i_none;
}.

Lemma posix_inv_new : inv posix_client_new.
Proof using Hjunk.
  split; cbn -[header_length max_body_length]; try done.
  - split; [|done]. split; cbn -[header_length max_body_length]; [done|lia].
  - split; [constructor|done].
Qed.

Lemma inv_set_out c m o :
  inv c → msg_ok m → o ≠ o_connecting →
  match o with
  | o_body hdr => length hdr = header_length ∧ header_value hdr = Some (body_length_ m)
  | o_output hdr => length hdr = header_length ∧ header_value hdr = Some (length (msg_body m))
  | _ => True
  end →
  (o ≠ o_none → outs c ≠ o_none) → inv (set_out c m o).
Proof.
  intros [[Hm Hw] Ho (Hf & Hp & Hs) Hc Hse Hst] Hm' Hne Hox Hn. split; cbn; try done.
  split_and!; [done..|]. intros H. apply Hs. by apply Hn.
Qed.

Lemma posix_inv_close c : inv c → inv (close c).
Proof. intros []. by split. Qed.

Lemma posix_inv_connect c error : inv c → outs c = o_connecting → inv (posix_handle_connect c error).
Proof.
  intros Hi Ho. destruct Hi as [[Hm Hw] Hox (Hf & Hp & Hs) Hc Hse Hst].
  destruct (Hst Ho) as (E1 & E2 & E3 & E4). unfold posix_handle_connect.
  destruct (failed error); split; cbn; try done.
  - split_and!; [done..|]. intros _. apply Hs. by rewrite Ho.
  - rewrite E2, E3. by split.
Qed.

Lemma posix_inv_header c error hdr :
  inv c → outs c = o_header → length hdr ≤ header_length → (failed error = false → length hdr = header_length) →
  ∃ c', posix_handle_read_header c error hdr = Ret c' ∧ inv c'.
Proof.
  intros Hi Hoc Hh Hs. pose proof (inv_msgs _ Hi) as [[Hd Hb] _]. unfold posix_handle_read_header.
  destruct (store_ok (read_msg_ c) 0 hdr) as (m & Hm & Hl & Hbm); [done|lia|]. rewrite Hm.
  cbn [mbind outcome_bind]. destruct (failed error) eqn:Ef.
  - eexists. split; [done|]. apply posix_inv_close, inv_set_out; [done|split; lia|done..].
  - rewrite (decode_stored _ _ _ (Hs eq_refl) Hd Hm). destruct (header_value hdr) as [n|] eqn:Ev.
    + eexists. split; [done|]. apply inv_set_out; [done| |done|by split; [apply Hs|]|by rewrite Hoc].
      split; cbn [data_ body_length_]; [lia|]. by eapply header_value_bound.
    + eexists. split; [done|]. apply posix_inv_close, inv_set_out; [done|split; cbn [data_ body_length_]; lia|done..].
Qed.

Lemma posix_inv_body c hdr error text :
  inv c → outs c = o_body hdr → length text ≤ body_length_ (read_msg_ c) →
  (failed error = false → length text = body_length_ (read_msg_ c)) →
  ∃ c', posix_handle_read_body c hdr error text = Ret c' ∧ inv c'.
Proof.
  intros Hi Hr Hh Hs. pose proof (inv_msgs _ Hi) as [[Hd Hb] _]. pose proof (inv_outs _ Hi) as Hrd.
  rewrite Hr in Hrd. destruct Hrd as [Hlh Hv]. unfold posix_handle_read_body.
  destruct (store_ok (read_msg_ c) header_length text) as (m & Hm & Hl & Hbm); [done|lia|]. rewrite Hm.
  cbn [mbind outcome_bind]. destruct (failed error) eqn:Ef; (eexists; split; [done|]).
  - apply posix_inv_close, inv_set_out; [done|split; lia|done..].
  - apply inv_set_out; [done|split; lia|done| |by rewrite Hr].
    rewrite (body_stored _ _ _ (Hs eq_refl) Hd Hm), (Hs eq_refl). done.
Qed.

Lemma inv_output c hdr error n :
  inv c → outs c = o_output hdr → (failed error = false → n = length (msg_body (read_msg_ c)) + 1) →
  inv (handle_write_output c hdr error n).
Proof.
  intros Hi Hr Hn. destruct Hi as [[Hm Hw] Hox (Hf & Hp & Hs) Hc Hse Hst]. rewrite Hr in Hox, Hs.
  destruct Hox as [Hlh Hv]. specialize (Hs ltac:(done)).
  destruct (frames_snoc _ hdr _ Hf Hlh Hv) as (H1 & _ & H2). unfold handle_write_output.
  set (text := msg_body (read_msg_ c) ++ [newline]) in *.
  assert (output_ c ++ take n text `prefix_of` shown (frames c ++ [(hdr, msg_body (read_msg_ c))])) as Hpre.
  { rewrite H2, Hs. apply prefix_app. exists (drop n text). by rewrite take_drop. }
  destruct (failed error) eqn:Ef; split; cbn -[shown frames_ok]; try done.
  split_and!; [done..|]. intros _. rewrite H2, Hs, take_ge; [done|].
  rewrite Hn by done. unfold text. rewrite length_app. cbn. lia.
Qed.

Lemma inv_send_input c n skip :
  inv c → ins c = i_input → n ≤ length (input_buffer_ c) → length (input_buffer_ c) ≤ max_body_length →
  chunk_ok (take n (input_buffer_ c), bool_decide (skip = 1)) →
  drop n (input_buffer_ c) = (if bool_decide (skip = 1) then [newline] else []) ++ drop (n + skip) (input_buffer_ c) →
  ∃ c', send_input c n skip = Ret c' ∧ inv c'.
Proof.
  intros [[Hm Hw] Ho Hf [Hc Ht] [Hse1 Hse2] Hst] Hin Hn Hb Hck Hdrop.
  set (body := take n (input_buffer_ c)) in *.
  assert (length body = n) as Hlen by (unfold body; rewrite length_take; lia).
  assert (length body ≤ max_body_length) as Hle by lia.
  pose proof (client_message_framed body Hle _ Hw) as Hcm. unfold client_message in Hcm.
  change (set_body_length (chat_message_new (data_ (write_msg_ c))) (length body)) with
    (set_body_length (write_msg_ c) (length body)) in Hcm. rewrite Hlen in Hcm.
  unfold send_input. fold body.
  assert (take (body_length_ (set_body_length (write_msg_ c) n)) body = body) as Etake.
  { unfold set_body_length. cbn [body_length_]. apply take_ge. rewrite Hlen.
    by destruct (Nat.ltb_spec max_body_length n); lia. }
  rewrite Etake in Hcm. destruct (store _ _ body) as [msg| |]; [|done..]. cbn [mbind outcome_bind] in *.
  assert (encode_header msg = framed body (drop (header_length + n) (data_ (write_msg_ c)))) as Henc by congruence.
  eexists. split; [reflexivity|]. rewrite Hin in Hse2. specialize (Hse2 ltac:(done)).
  unfold outstanding in Hse2. rewrite Hin, app_nil_r in Hse2.
  assert (wire (encode_header msg) = frame body) as Hwire by (rewrite Henc; apply wire_framed; lia).
  assert (sent c ++ frame body = mjoin (frame <$> (chunks c ++ [(body, bool_decide (skip = 1))]).*1)) as Hsent.
  { rewrite !fmap_app, join_app, <-Hse2. cbn. by rewrite app_nil_r. }
  split; cbn -[frame unchunk header_length max_body_length encode_header]; try done.
  - split; [done|]. rewrite Henc. apply framed_ok; [lia|]. rewrite length_drop, Hw. lia.
  - split; [apply Forall_app; split; [done|by apply Forall_singleton]|].
    rewrite Ht. unfold unchunk. rewrite fmap_app, join_app, <-app_assoc. f_equal. cbn.
    rewrite app_nil_r, <-app_assoc, <-Hdrop. unfold body. by rewrite take_drop.
  - unfold outstanding. cbn [ins write_msg_]. rewrite Hwire, Hsent. done.
  - intros Hx. destruct (Hst Hx) as (_ & _ & _ & E). congruence.
Qed.

Lemma inv_fill c data : inv c → inv (fill c data).
Proof.
  intros [Hm Ho Hf [Hc Ht] Hs Hst]. split; cbn; try done. split; [done|]. by rewrite Ht, <-app_assoc.
Qed.

Lemma inv_input c error n :
  inv c → ins c = i_input → input_result (input_buffer_ c) error n →
  ∃ c', handle_read_input c error n = Ret c' ∧ inv c'.
Proof.
  intros Hi Hin (Hb & Hok & Hnf). unfold handle_read_input.
  destruct (failed error) eqn:Ef; cbn [negb].
  - case_bool_decide as En.
    + destruct (Hnf En) as [Hfull Hno]. apply inv_send_input; [done..| |].
      * split; cbn; [by rewrite firstn_all|]. by rewrite firstn_all.
      * rewrite Nat.add_0_r. done.
    + eexists. split; [done|]. apply posix_inv_close. destruct Hi as [Hm Ho Hf Hc [Hs1 Hs2] Hst].
      split; cbn; try done; rewrite ?app_nil_r.
      * unfold outstanding in *. rewrite Hin, app_nil_r in Hs1. cbn. rewrite ?app_nil_r. by split.
      * intros Hx. destruct (Hst Hx) as (_ & _ & _ & E). congruence.
  - assert (error = success) as Es by (by destruct error). destruct (Hok Es) as (l & r & E & Hl & ->).
    unfold size_sub. cbn [mbind outcome_bind]. rewrite (proj2 (Nat.leb_le _ _)) by lia. cbn [mbind outcome_bind].
    replace (S (length l) - 1) with (length l) by lia.
    assert (take (length l) (input_buffer_ c) = l) as Et by (rewrite E; by rewrite take_app_length).
    apply inv_send_input; [done|done| |done| |].
    + rewrite E, length_app. lia.
    + rewrite Et, bool_decide_true by done. split; [done|]. cbn [fst snd]. rewrite E, length_app in Hb. cbn [length] in Hb. lia.
    + rewrite E, drop_app_length, Nat.add_1_r. cbn. f_equal.
      by rewrite (drop_app_ge l) by lia; replace (S (length l) - length l) with 1 by lia.
Qed.

Lemma inv_write_done c error n :
  inv c → ins c = i_sending → (failed error = false → n = length (wire (write_msg_ c))) →
  inv (posix_handle_write c error n).
Proof.
  intros [Hm Ho Hf Hc [Hs1 Hs2] Hst] Hin Hn. unfold outstanding in *. rewrite Hin in Hs1, Hs2.
  specialize (Hs2 ltac:(done)). unfold posix_handle_write.
  assert (sent c ++ take n (wire (write_msg_ c)) `prefix_of` mjoin (frame <$> (chunks c).*1)) as Hpre.
  { rewrite <-Hs2. apply prefix_app. exists (drop n (wire (write_msg_ c))). by rewrite take_drop. }
  destruct (failed error) eqn:Ef; split; cbn; try done; unfold outstanding; cbn; rewrite ?app_nil_r.
  all: try (intros Hx; destruct (Hst Hx) as (_ & _ & _ & E); congruence).
  - done.
  - split; [done|]. intros _. by rewrite take_ge by (rewrite Hn; done).
Qed.

Lemma posix_inv_step c o : inv c → step c o → ∃ c', o = Ret c' ∧ inv c'.
Proof.
  intros Hi Hst. destruct Hst as [c error Hr|c error hdr Hr Hh Hs|c hdr error text Hr Hh Hs|c hdr error n Hr Hn
    |c data error n Hin Hres|c error n Hin Hn].
  - eexists. split; [done|]. by apply posix_inv_connect.
  - destruct (posix_inv_header c error hdr Hi Hr Hh Hs) as (c' & -> & Hc'). eauto.
  - destruct (posix_inv_body c hdr error text Hi Hr Hh Hs) as (c' & -> & Hc'). eauto.
  - eexists. split; [done|]. by apply inv_output.
  - destruct (inv_input (fill c data) error n (inv_fill c data Hi) Hin Hres) as (c' & -> & Hc'). eauto.
  - eexists. split; [done|]. by apply inv_write_done.
Qed.

Lemma posix_inv c : reachable c → inv c.
Proof using Hjunk.
  intros Hr. induction Hr as [|c c' _ IH Hst]; [apply posix_inv_new|].
  destruct (posix_inv_step c _ IH Hst) as (c2 & [= <-] & ?). done.
Qed.

(** The POSIX chat client. Whatever is typed and arrives, in whatever pieces:
    no handler is undefined. The input is cut into the bodies of messages without
    losing a character: each is a line of less than 512 characters without its newline, or
    512 characters of a longer line. The socket is sent their frames in order,
    the last one perhaps in part. What has been written to the output is the bodies
    of the messages read, each on a line. *)
Theorem posix_client_faithful c :
  reachable c →
  (∀ o, step c o → ∃ c', o = Ret c' ∧ reachable c') ∧
  Forall chunk_ok (chunks c) ∧ typed c = unchunk (chunks c) ++ input_buffer_ c ∧
  sent c `prefix_of` mjoin (frame <$> (chunks c).*1) ∧
  (ins c = i_input → sent c = mjoin (frame <$> (chunks c).*1)) ∧
  frames_ok (frames c) ∧ output_ c `prefix_of` shown (frames c) ∧
  (outs c = o_header → output_ c = shown (frames c)).
Proof using Hjunk.
  intros Hr. pose proof (posix_inv c Hr) as Hi. pose proof Hi as [_ _ (Hf & Hp & Hs) [Hc Ht] [Hs1 Hs2] _].
  split_and!; try done.
  - intros o Ho. destruct (posix_inv_step c o Hi Ho) as (c' & -> & _). exists c'. split; [done|].
    by eapply reach_step.
  - etransitivity; [|exact Hs1]. by apply prefix_app_r.
  - intros Hin. unfold outstanding in Hs2. rewrite Hin in Hs2. rewrite <-Hs2 by done. by rewrite app_nil_r.
  - intros Ho. apply Hs. by rewrite Ho.
Qed.

End Main.

End PosixChatClient.

(** ** Examples *)
Module ChatClientExamples.
Import Frames.

Definition zeros : bytes := replicate 516 (chr 0).

Lemma zeros_length : length zeros = header_length + max_body_length.
Proof. reflexivity. Qed.

(** A line has been typed and its function has run, while the client still connects:
    the write is started on a socket that is not connected, and when it fails the
    socket is closed. *)
Definition early : ChatClient.chat_client :=
  ChatClient.mkClient true ChatClient.connecting (chat_message_new zeros) [ChatClient.message_of zeros (lit "hi")] true []
    (Some []) [] [] [] [lit "hi"] false.

Lemma early_reachable : ChatClient.reachable zeros (lit "hi" ++ [newline]) early.
Proof.
  eapply ChatClient.reach_step; [eapply ChatClient.reach_step; [apply ChatClient.reach_new|]|].
  - match goal with |- ChatClient.step _ ?c (Ret ?c') =>
      assert (ChatClient.type_line zeros (ChatClient.client_new zeros (lit "hi" ++ [newline])) =
        Ret (ChatClient.mkClient true ChatClient.connecting (chat_message_new zeros) [] false
          [ChatClient.post_write (ChatClient.message_of zeros (lit "hi"))] (Some []) [] [] [] [lit "hi"] false)) as <-
        by (vm_compute; reflexivity) end.
    apply ChatClient.step_type.
  - apply (ChatClient.step_posted zeros (ChatClient.mkClient true ChatClient.connecting (chat_message_new zeros) [] false
      [ChatClient.post_write (ChatClient.message_of zeros (lit "hi"))] (Some []) [] [] [] [lit "hi"] false)).
Qed.

(** The loss: the connection may then still succeed, but the socket is closed. *)
Example early_write_closes :
  ChatClient.reachable zeros (lit "hi" ++ [newline]) early ∧ ChatClient.reads early = ChatClient.connecting ∧
  ChatClient.is_open <$> ChatClient.handle_write early (other_error 107) = Ret false.
Proof. split; [apply early_reachable|]. by vm_compute. Qed.

(** The whole session: the line is written, and the input has ended. *)
Definition said : ChatClient.chat_client :=
  ChatClient.mkClient false ChatClient.read_header (chat_message_new zeros) [] false []
    None [] [] [ChatClient.message_of zeros (lit "hi")] [lit "hi"] false.

Lemma said_reachable : ChatClient.reachable zeros (lit "hi" ++ [newline]) said.
Proof.
  set (st q w io ty out := ChatClient.mkClient true ChatClient.read_header (chat_message_new zeros) q w io
    ty [] [] out [lit "hi"] false).
  set (m := ChatClient.message_of zeros (lit "hi")).
  apply (ChatClient.reach_step _ _ (st [] false [ChatClient.post_close] None [m])).
  - apply (ChatClient.reach_step _ _ (st [] false [] (Some []) [m])).
    + apply (ChatClient.reach_step _ _ (st [m] true [] (Some []) [])).
      * apply (ChatClient.reach_step _ _ early); [exact early_reachable|].
        exact (ChatClient.step_connect zeros early success eq_refl).
      * exact (ChatClient.step_write zeros (st [m] true [] (Some []) []) success eq_refl).
    + exact (ChatClient.step_type zeros (st [] false [] (Some []) [m])).
  - exact (ChatClient.step_posted zeros (st [] false [ChatClient.post_close] None [m])).
Qed.

Lemma chat_client_faithful_witness :
  ChatClient.reachable zeros (lit "hi" ++ [newline]) early ∧
  ChatClient.sent early ++ ChatClient.write_msgs_ early ++ ChatClient.posted_msgs (ChatClient.io_service_ early) =
    [ChatClient.message_of zeros (lit "hi")] ∧
  ChatClient.sent said = ChatClient.message_of zeros <$>
    ChatClient.cin_lines (S (length (lit "hi" ++ [newline]))) (lit "hi" ++ [newline]).
Proof.
  split; [apply early_reachable|].
  split; [exact (proj1 (proj2 (ChatClient.chat_client_faithful zeros zeros_length _ _ early_reachable)))|].
  apply (proj1 (proj2 (proj2 (ChatClient.chat_client_faithful zeros zeros_length _ _ said_reachable))));
    reflexivity.
Defined.

(** A line of 513 characters ends the loop of [main]; the one after it is never
    read. *)
Example long_line_ends :
  ChatClient.cin_lines 9 (replicate 513 "a"%char ++ [newline] ++ lit "next") = [] ∧
  length <$> ChatClient.cin_lines 9 (replicate 512 "a"%char ++ [newline] ++ lit "next") = [512; 4].
Proof. by vm_compute. Qed.

Import PosixChatClient.

(** The POSIX client sends a line of 512 characters as a message and then an empty
    message for its newline. *)
Definition full : posix_chat_client :=
  mkPosix true o_header i_input (chat_message_new zeros) (chat_message_new zeros) (replicate 512 "a"%char) [] [] []
    (replicate 512 "a"%char) [].

Example exact_line_twice :
  (c ← handle_read_input full not_found 0;
   c ← handle_read_input (fill (posix_handle_write c success 516) [newline]) success 1;
   Ret ((λ x, (length x.1, x.2)) <$> chunks c)) = Ret [(512, false); (0, true)].
Proof. by vm_compute. Qed.

Definition typed_hi : posix_chat_client :=
  mkPosix true o_header i_sending (chat_message_new zeros) (framed (lit "hi") (replicate 510 (chr 0))) [] [] []
    [(lit "hi", true)] (lit "hi" ++ [newline]) [].

Lemma typed_hi_reachable : reachable zeros typed_hi.
Proof.
  eapply reach_step; [eapply reach_step; [apply reach_new|apply (step_connect _ success); reflexivity]|].
  set (c1 := posix_handle_connect _ _).
  assert (Ret typed_hi = handle_read_input (fill c1 (lit "hi" ++ [newline])) success 3) as -> by (vm_compute; reflexivity).
  apply step_input; [reflexivity|]. split_and!.
  - apply (bool_decide_unpack _). vm_compute. exact I.
  - intros _. exists (lit "hi"), []. split_and!; [reflexivity| |reflexivity].
    apply (bool_decide_unpack _). vm_compute. exact I.
  - done.
Qed.

Lemma posix_client_faithful_witness :
  reachable zeros typed_hi ∧ typed typed_hi = unchunk [(lit "hi", true)].
Proof.
  split; [apply typed_hi_reachable|].
  exact (proj1 (proj2 (proj2 (posix_client_faithful zeros zeros_length _ typed_hi_reachable)))).
Defined.

End ChatClientExamples.
