(* ===== verification/ChatSystem.v ===== *)
(** * The chat as a whole

    (src/doc_searcher/data/input/html/boost_asio/example/chat/{chat_server,chat_client}.cpp.)
    The server of Chat.v and any number of the clients of ChatClient.v, joined by
    connections: each direction of a connection is a stream of bytes of which the other
    side has read a part. Client [i] is the one the server accepts as its session [i].
    The events are the completions of the operations of either program, with the bytes
    taken from the streams, and everything a client's two threads do. *)

From S2P Require Import Prelude CxxString HttpParser HttpReply HttpConnection Chat Asio ChatClient.
Import ChatMessage Frames.

Module ChatSystem.

(** ** Streams *)

(** All that has been written, and how much of it has been read. *)
Record stream := mkStream { total : bytes; taken : nat }.
#[export] Instance stream_inhabited : Inhabited stream := populate (mkStream [] 0).

Definition arrived (st : stream) : bytes := drop (taken st) (total st).
Definition write (st : stream) (s : bytes) : stream := mkStream (total st ++ s) (taken st).
Definition consume (st : stream) (n : nat) : stream := mkStream (total st) (taken st + n).

(** How far a reader of messages is. *)
Inductive progress := at_header | at_body (hdr : bytes) | stopped.

(** The messages in [fs] have been read. *)
Definition read_ok (fs : list (bytes * bytes)) (p : progress) (st : stream) : Prop :=
  frames_ok fs ∧ taken st ≤ length (total st) ∧
  match p with
  | at_header => raw fs = take (taken st) (total st)
  | at_body hdr => length hdr = header_length ∧ raw fs ++ hdr = take (taken st) (total st)
  | stopped => raw fs `prefix_of` total st
  end.

Definition wires (l : list chat_message) : bytes := mjoin (wire <$> l).

(** The messages in [sent] have been written, and [queue] is to follow; a writer that
    has failed may have written a part of it. *)
Definition write_ok (sent queue : list chat_message) (dead : bool) (st : stream) : Prop :=
  ∃ part, total st = wires sent ++ part ∧ (dead = false → part = []) ∧ part `prefix_of` wires queue.

Lemma wires_app l1 l2 : wires (l1 ++ l2) = wires l1 ++ wires l2.
Proof. unfold wires. by rewrite fmap_app, join_app. Qed.

Lemma wires_cons m l : wires (m :: l) = wire m ++ wires l.
Proof. done. Qed.

Lemma raw_cons hdr body fs : raw ((hdr, body) :: fs) = (hdr ++ body) ++ raw fs.
Proof. done. Qed.

(** A stream of messages can be read in one way only. *)
Lemma raw_inj fs1 fs2 : frames_ok fs1 → frames_ok fs2 → raw fs1 `prefix_of` raw fs2 → fs1 `prefix_of` fs2.
Proof.
  intros H1. revert fs2. induction H1 as [|[h1 b1] fs1 [Hh1 Hv1] _ IH]; intros fs2 H2 [k Hk]; [apply prefix_nil|].
  cbn in Hh1, Hv1. destruct H2 as [|[h2 b2] fs2 [Hh2 Hv2] H2].
  { apply (f_equal length) in Hk. rewrite raw_cons, !length_app in Hk. change (length (raw [])) with 0 in Hk.
    unfold header_length in Hh1. lia. }
  cbn in Hh2, Hv2. rewrite !raw_cons, <-!app_assoc in Hk.
  apply app_inj_1 in Hk as [-> Hk]; [|lia]. rewrite Hv1 in Hv2. injection Hv2 as Hl.
  apply app_inj_1 in Hk as [-> Hk]; [|done]. apply prefix_cons, IH; [done|]. by exists k.
Qed.

Lemma raw_eq fs1 fs2 : frames_ok fs1 → frames_ok fs2 → raw fs1 = raw fs2 → fs1 = fs2.
Proof.
  intros H1 H2 E. apply (anti_symm prefix); apply raw_inj; try done; by rewrite E.
Qed.

(** The frames of texts. *)
Definition framing (b : bytes) : bytes * bytes := (format_4d (length b), b).
Definition short (b : bytes) : Prop := length b ≤ max_body_length.

Lemma framing_ok bs : Forall short bs → frames_ok (framing <$> bs).
Proof. intros Hb. apply Forall_fmap. eapply Forall_impl; [exact Hb|]. intros b Hs. by apply header_value_frame. Qed.

Lemma framing_bodies bs : (framing <$> bs).*2 = bs.
Proof. rewrite <-list_fmap_compose. apply list_fmap_id. Qed.

Lemma raw_framing bs : raw (framing <$> bs) = mjoin (frame <$> bs).
Proof. unfold raw. by rewrite <-list_fmap_compose. Qed.

(** What is read of the messages in [bs] are messages of theirs. *)
Lemma heard_prefix fs bs :
  frames_ok fs → Forall short bs → raw fs `prefix_of` mjoin (frame <$> bs) → fs `prefix_of` framing <$> bs.
Proof. intros Hf Hb Hp. apply raw_inj; [done|by apply framing_ok|by rewrite raw_framing]. Qed.

(** *** Reading *)

Lemma read_ok_prefix fs p st : read_ok fs p st → raw fs `prefix_of` total st.
Proof.
  intros (_ & _ & Hp). destruct p as [|hdr|]; [|destruct Hp as [_ Hp]|done].
  - rewrite Hp. apply prefix_take.
  - transitivity (raw fs ++ hdr); [by apply prefix_app_r|]. rewrite Hp. apply prefix_take.
Qed.

Lemma read_ok_write fs p st s : read_ok fs p st → read_ok fs p (write st s).
Proof.
  intros (Hf & Hl & Hp). split; [done|]. cbn. split; [rewrite length_app; lia|].
  rewrite take_app_le by lia. destruct p; [done..|]. by apply prefix_app_r.
Qed.

Lemma length_arrived st : length (arrived st) = length (total st) - taken st.
Proof. apply length_drop. Qed.

Lemma take_consume st n : take (taken (consume st n)) (total (consume st n)) =
  take (taken st) (total st) ++ take n (arrived st).
Proof. unfold arrived. cbn. by rewrite take_take_drop. Qed.

Lemma read_ok_stop fs p st n :
  read_ok fs p st → n ≤ length (arrived st) → read_ok fs stopped (consume st n).
Proof.
  intros Hr Hn. pose proof (read_ok_prefix _ _ _ Hr) as Hp. destruct Hr as (Hf & Hl & _).
  rewrite length_arrived in Hn. split_and!; cbn; [done|lia|done].
Qed.

Lemma read_ok_stopped fs p st : read_ok fs p st → read_ok fs stopped st.
Proof. intros Hr. pose proof (read_ok_prefix _ _ _ Hr). by destruct Hr as (? & ? & _). Qed.

Lemma read_ok_header fs st :
  read_ok fs at_header st → header_length ≤ length (arrived st) →
  read_ok fs (at_body (take header_length (arrived st))) (consume st header_length).
Proof.
  intros (Hf & Hl & Hp) Hn. pose proof (length_arrived st) as Ha. split; [done|]. split; [cbn; lia|].
  split; [rewrite length_take; lia|]. by rewrite take_consume, Hp.
Qed.

Lemma read_ok_body fs hdr st n :
  read_ok fs (at_body hdr) st → header_value hdr = Some n → n ≤ length (arrived st) →
  read_ok (fs ++ [(hdr, take n (arrived st))]) at_header (consume st n).
Proof.
  intros (Hf & Hl & Hh & Hp) Hv Hn. pose proof (length_arrived st) as Ha.
  assert (length (take n (arrived st)) = n) as Hlen by (rewrite length_take; lia).
  destruct (frames_snoc fs hdr (take n (arrived st)) Hf Hh) as (H1 & H2 & _); [by rewrite Hlen|].
  split; [done|]. split; [cbn; lia|]. by rewrite take_consume, <-Hp, H2, app_assoc.
Qed.

(** *** Writing *)

Lemma write_ok_push l q d st ms : write_ok l q d st → write_ok l (q ++ ms) d st.
Proof. intros (part & H1 & H2 & H3). exists part. split_and!; [done..|]. rewrite wires_app. by apply prefix_app_r. Qed.

(** An idle writer is not a failed one. *)
Lemma write_ok_idle l d st : write_ok l [] d st → write_ok l [] false st.
Proof.
  intros (part & H1 & _ & H3). exists part. split_and!; [done| |done]. intros _. by apply prefix_nil_inv in H3.
Qed.

Lemma write_ok_pop l m q st : write_ok l (m :: q) false st → write_ok (l ++ [m]) q false (write st (wire m)).
Proof.
  intros (part & H1 & H2 & _). exists []. rewrite H2, app_nil_r in H1 by done. cbn.
  split_and!; [|done|apply prefix_nil]. rewrite H1, wires_app. unfold wires. cbn. by rewrite !app_nil_r.
Qed.

Lemma write_ok_fail l m q st n :
  write_ok l (m :: q) false st → write_ok l (m :: q) true (write st (take n (wire m))).
Proof.
  intros (part & H1 & H2 & _). exists (take n (wire m)). rewrite H2, app_nil_r in H1 by done. cbn [total write]. rewrite H1.
  split_and!; [done..|]. rewrite wires_cons. apply prefix_app_r, prefix_take.
Qed.

Lemma write_ok_prefix l q d st : write_ok l q d st → total st `prefix_of` wires (l ++ q).
Proof. intros (part & -> & _ & H). rewrite wires_app. by apply prefix_app. Qed.

(** ** The system *)

(** [said] is the conversation: who said what, in the order the room delivered it;
    no program keeps it. With each client goes what is typed at its console. *)
Record system := mkSystem {
  room_ : ChatServer.room;
  clients : gmap nat (bytes * ChatClient.chat_client);
  up : gmap nat stream;                (* from client to server *)
  down : gmap nat stream;
  said : list (nat * bytes);
}.

(** What happens: a client is started, or does something; or the server does. A number
    is how many bytes a read or write that completes has transferred. *)
Inductive event :=
  | started (i : nat) (cin : bytes)
  | typing (i : nat)
  | posted (i : nat)
  | connected (i : nat) (e : Asio.error_code)
  | client_header (i : nat) (e : Asio.error_code) (n : nat)
  | client_body (i : nat) (e : Asio.error_code) (n : nat)
  | client_write (i : nat) (e : Asio.error_code) (n : nat)
  | accepted (e : HttpConnection.error_code)
  | session_header (i : nat) (e : HttpConnection.error_code) (n : nat)
  | session_body (i : nat) (e : HttpConnection.error_code) (n : nat)
  | session_write (i : nat) (e : HttpConnection.error_code) (n : nat).

Section System.
Context (cjunk sjunk : bytes).

Definition set_client (σ : system) (i : nat) (x : bytes * ChatClient.chat_client) : system :=
  mkSystem (room_ σ) (<[i := x]> (clients σ)) (up σ) (down σ) (said σ).
Definition set_up (σ : system) (i : nat) (st : stream) : system :=
  mkSystem (room_ σ) (clients σ) (<[i := st]> (up σ)) (down σ) (said σ).
Definition set_down (σ : system) (i : nat) (st : stream) : system :=
  mkSystem (room_ σ) (clients σ) (up σ) (<[i := st]> (down σ)) (said σ).
Definition set_room (σ : system) (r : ChatServer.room) : system :=
  mkSystem r (clients σ) (up σ) (down σ) (said σ).
Definition say (σ : system) (i : nat) (text : bytes) : system :=
  mkSystem (room_ σ) (clients σ) (up σ) (down σ) (said σ ++ [(i, text)]).

(** The bytes of the message a writer is at. *)
Definition head_bytes (q : list chat_message) (n : nat) : bytes :=
  match q with m :: _ => take n (wire m) | [] => [] end.

Definition on_client (σ : system) (i : nat) (f : bytes → ChatClient.chat_client → outcome system) : outcome system :=
  match clients σ !! i with Some (cin, c) => f cin c | None => Ret σ end.

Definition handle (σ : system) (ev : event) : outcome system :=
  match ev with
  | started i cin => Ret (set_client σ i (cin, ChatClient.client_new cjunk cin))
  | typing i => on_client σ i (λ cin c, c ← ChatClient.type_line cjunk c; Ret (set_client σ i (cin, c)))
  | posted i => on_client σ i (λ cin c, Ret (set_client σ i (cin, ChatClient.run_posted c)))
  | connected i e => on_client σ i (λ cin c, Ret (set_client σ i (cin, ChatClient.handle_connect c e)))
  | client_header i e n => on_client σ i (λ cin c,
      let st := down σ !!! i in
      c ← ChatClient.handle_read_header c e (take n (arrived st));
      Ret (set_down (set_client σ i (cin, c)) i (consume st n)))
  | client_body i e n => on_client σ i (λ cin c,
      let st := down σ !!! i in
      let hdr := match ChatClient.reads c with ChatClient.read_body hdr => hdr | _ => [] end in
      c ← ChatClient.handle_read_body c hdr e (take n (arrived st));
      Ret (set_down (set_client σ i (cin, c)) i (consume st n)))
  | client_write i e n => on_client σ i (λ cin c,
      let sent := head_bytes (ChatClient.write_msgs_ c) n in
      c ← ChatClient.handle_write c e;
      Ret (set_up (set_client σ i (cin, c)) i (write (up σ !!! i) sent)))
  | accepted e => Ret (set_room σ (ChatServer.handle_accept sjunk (room_ σ) e))
  | session_header i e n =>
      let st := up σ !!! i in
      r ← ChatServer.handle_read_header (room_ σ) i e (take n (arrived st));
      Ret (set_up (set_room σ r) i (consume st n))
  | session_body i e n =>
      let st := up σ !!! i in
      r ← ChatServer.handle_read_body (room_ σ) i e (take n (arrived st));
      let σ := set_up (set_room σ r) i (consume st n) in
      Ret (match e with HttpConnection.success => say σ i (take n (arrived st)) | _ => σ end)
  | session_write i e n =>
      let sent := match ChatServer.sessions (room_ σ) !! i with
                  | Some s => head_bytes (ChatServer.write_msgs_ s) n
                  | None => []
                  end in
      r ← ChatServer.handle_write (room_ σ) i e;
      Ret (set_down (set_room σ r) i (write (down σ !!! i) sent))
  end.

(** A read that completes has transferred bytes that had arrived, at most what was
    asked for, and all of that without an error. *)
Definition read_result (good : bool) (asked n : nat) (st : stream) : bool :=
  (n <=? asked)%nat && (n <=? length (arrived st))%nat && (negb good || (n =? asked)%nat).
Definition write_result (good : bool) (n : nat) (q : list chat_message) : bool :=
  negb good || match q with m :: _ => (n =? length (wire m))%nat | [] => true end.

Definition ok (e : HttpConnection.error_code) : bool := 
  match e with HttpConnection.success => true | _ => false end.

(** When an event can happen. A connection the server accepts is some client's. *)
Definition enabled (σ : system) (ev : event) : bool :=
  match ev with
  | started i _ => bool_decide (clients σ !! i = None)
  | typing i | posted i => bool_decide (clients σ !! i ≠ None)
  | connected i _ =>
      match clients σ !! i with
      | Some (_, c) => match ChatClient.reads c with ChatClient.connecting => true | _ => false end
      | None => false
      end
  | client_header i e n =>
      match clients σ !! i with
      | Some (_, c) =>
          match ChatClient.reads c with
          | ChatClient.read_header => read_result (negb (Asio.failed e)) header_length n (down σ !!! i)
          | _ => false
          end
      | None => false
      end
  | client_body i e n =>
      match clients σ !! i with
      | Some (_, c) =>
          match ChatClient.reads c with
          | ChatClient.read_body _ =>
              read_result (negb (Asio.failed e)) (body_length_ (ChatClient.read_msg_ c)) n (down σ !!! i)
          | _ => false
          end
      | None => false
      end
  | client_write i e n =>
      match clients σ !! i with
      | Some (_, c) => ChatClient.writing c && write_result (negb (Asio.failed e)) n (ChatClient.write_msgs_ c)
      | None => false
      end
  | accepted e => negb (ok e) || bool_decide (clients σ !! ChatServer.next_session (room_ σ) ≠ None)
  | session_header i e n =>
      match ChatServer.sessions (room_ σ) !! i with
      | Some s =>
          match ChatServer.reads s with
          | ChatServer.read_header => read_result (ok e) header_length n (up σ !!! i)
          | _ => false
          end
      | None => false
      end
  | session_body i e n =>
      match ChatServer.sessions (room_ σ) !! i with
      | Some s =>
          match ChatServer.reads s with
          | ChatServer.read_body => read_result (ok e) (body_length_ (ChatServer.read_msg_ s)) n (up σ !!! i)
          | _ => false
          end
      | None => false
      end
  | session_write i e n =>
      match ChatServer.sessions (room_ σ) !! i with
      | Some s => ChatServer.writing s && write_result (ok e) n (ChatServer.write_msgs_ s)
      | None => false
      end
  end.

Definition system_new : system := mkSystem ChatServer.chat_new ∅ ∅ ∅ [].

Inductive reachable : system → Prop :=
  | reachable_new : reachable system_new
  | reachable_event σ ev σ' : reachable σ → enabled σ ev = true → handle σ ev = Ret σ' → reachable σ'.

(** What one of them said. *)
Definition words_of (i : nat) (l : list (nat * bytes)) : list bytes := (filter (λ x, x.1 = i) l).*2.

(** ** The invariant *)

Definition c_progress (oc : option (bytes * ChatClient.chat_client)) : progress :=
  match oc with
  | Some (_, c) =>
      match ChatClient.reads c with
      | ChatClient.connecting | ChatClient.read_header => at_header
      | ChatClient.read_body hdr => at_body hdr
      | ChatClient.no_read => stopped
      end
  | None => at_header
  end.
Definition c_frames (oc : option (bytes * ChatClient.chat_client)) : list (bytes * bytes) :=
  match oc with Some (_, c) => ChatClient.frames c | None => [] end.
Definition c_writes (oc : option (bytes * ChatClient.chat_client)) : stream → Prop :=
  match oc with
  | Some (_, c) => write_ok (ChatClient.sent c) (ChatClient.write_msgs_ c) (ChatClient.broken c)
  | None => write_ok [] [] false
  end.

Definition s_progress (os : option ChatServer.session) : progress :=
  match os with
  | Some s =>
      match ChatServer.reads s with
      | ChatServer.read_header => at_header
      | ChatServer.read_body => at_body (take header_length (data_ (ChatServer.read_msg_ s)))
      | ChatServer.no_read => stopped
      end
  | None => at_header
  end.
Definition s_writes (os : option ChatServer.session) : stream → Prop :=
  match os with
  | Some s => write_ok (ChatServer.written s) (ChatServer.write_msgs_ s) (negb (ChatServer.writing s))
  | None => write_ok [] [] false
  end.

(** What a session has read and what it has queued. *)
Record session_inv (log : list chat_message) (s : ChatServer.session) : Prop := {
  si_header : ChatServer.reads s = ChatServer.read_body →
    header_value (take header_length (data_ (ChatServer.read_msg_ s))) = Some (body_length_ (ChatServer.read_msg_ s));
  si_queue : ChatServer.written s ++ ChatServer.write_msgs_ s `prefix_of`
    drop (ChatServer.since s - ChatServer.max_recent_msgs) log;
}.

Definition carries (m : chat_message) (x : nat * bytes) : Prop :=
  wire m = frame x.2 ∧ msg_body m = x.2 ∧ short x.2.

Record inv (σ : system) : Prop := {
  inv_room : ChatServer.inv (room_ σ);
  inv_clients : ∀ i cin c, clients σ !! i = Some (cin, c) → ChatClient.inv cjunk cin c;
  inv_up : ∀ i, c_writes (clients σ !! i) (up σ !!! i);
  inv_heard : ∀ i, ∃ fs, fs.*2 = words_of i (said σ) ∧
    read_ok fs (s_progress (ChatServer.sessions (room_ σ) !! i)) (up σ !!! i);
  inv_said : Forall2 carries (ChatServer.log (room_ σ)) (said σ);
  inv_down : ∀ i, s_writes (ChatServer.sessions (room_ σ) !! i) (down σ !!! i);
  inv_each : ∀ i s, ChatServer.sessions (room_ σ) !! i = Some s → session_inv (ChatServer.log (room_ σ)) s;
  inv_shown : ∀ i, read_ok (c_frames (clients σ !! i)) (c_progress (clients σ !! i)) (down σ !!! i);
}.

(** Writers do not depend on what has been read. *)
Lemma write_ok_total l q d st st' : total st' = total st → write_ok l q d st → write_ok l q d st'.
Proof. unfold write_ok. by intros ->. Qed.
Lemma s_writes_total os st st' : total st' = total st → s_writes os st → s_writes os st'.
Proof. destruct os; apply write_ok_total. Qed.
Lemma c_writes_total oc st st' : total st' = total st → c_writes oc st → c_writes oc st'.
Proof. destruct oc as [[]|]; apply write_ok_total. Qed.

(** *** What a client does *)

Lemma inv_client σ σ' i cin c' :
  inv σ → room_ σ' = room_ σ → said σ' = said σ → clients σ' = <[i := (cin, c')]> (clients σ) →
  (∀ j, j ≠ i → up σ' !!! j = up σ !!! j ∧ down σ' !!! j = down σ !!! j) →
  ChatClient.inv cjunk cin c' → c_writes (Some (cin, c')) (up σ' !!! i) →
  (∀ fs p, read_ok fs p (up σ !!! i) → read_ok fs p (up σ' !!! i)) →
  total (down σ' !!! i) = total (down σ !!! i) →
  read_ok (ChatClient.frames c') (c_progress (Some (cin, c'))) (down σ' !!! i) → inv σ'.
Proof.
  intros Hi Hr Hs Hc Hj Hci Hw Hup Hdn Hrd. split; rewrite ?Hr, ?Hs, ?Hc; try apply Hi.
  - intros j cin2 c2 [[<- [= <- <-]]|[_ H]]%lookup_insert_Some; [done|]. by eapply inv_clients.
  - intros j. destruct (decide (j = i)) as [->|Hne]; [by rewrite lookup_insert_eq|].
    rewrite lookup_insert_ne by done. rewrite (proj1 (Hj j Hne)). apply (inv_up _ Hi).
  - intros j. destruct (inv_heard _ Hi j) as (fs & Hfs & Hok). exists fs. split; [done|].
    destruct (decide (j = i)) as [->|Hne]; [by apply Hup|]. by rewrite (proj1 (Hj j Hne)).
  - intros j. pose proof (inv_down _ Hi j) as Hd. destruct (decide (j = i)) as [->|Hne].
    + by eapply s_writes_total.
    + by rewrite (proj2 (Hj j Hne)).
  - intros j. destruct (decide (j = i)) as [->|Hne]; [by rewrite lookup_insert_eq|].
    rewrite lookup_insert_ne by done. rewrite (proj2 (Hj j Hne)). apply (inv_shown _ Hi).
Qed.

(** *** What the server does *)

Lemma inv_server σ σ' i :
  inv σ → clients σ' = clients σ → ChatServer.inv (room_ σ') →
  Forall2 carries (ChatServer.log (room_ σ')) (said σ') →
  (∀ j, j ≠ i → up σ' !!! j = up σ !!! j ∧ down σ' !!! j = down σ !!! j) →
  total (up σ' !!! i) = total (up σ !!! i) →
  (∀ fs p, read_ok fs p (down σ !!! i) → read_ok fs p (down σ' !!! i)) →
  (∀ j, ∃ fs, fs.*2 = words_of j (said σ') ∧
     read_ok fs (s_progress (ChatServer.sessions (room_ σ') !! j)) (up σ' !!! j)) →
  (∀ j, s_writes (ChatServer.sessions (room_ σ') !! j) (down σ' !!! j)) →
  (∀ j s, ChatServer.sessions (room_ σ') !! j = Some s → session_inv (ChatServer.log (room_ σ')) s) →
  inv σ'.
Proof.
  intros Hi Hc Hr Hs Hj Hup Hdn Hh Hw He. split; try done; rewrite Hc; try apply Hi.
  - intros j. pose proof (inv_up _ Hi j) as Hu. destruct (decide (j = i)) as [->|Hne].
    + by eapply c_writes_total.
    + by rewrite (proj1 (Hj j Hne)).
  - intros j. destruct (decide (j = i)) as [->|Hne]; [by apply Hdn, (inv_shown _ Hi)|].
    rewrite (proj2 (Hj j Hne)). apply (inv_shown _ Hi).
Qed.

(** A session queues a message: a writer that was idle starts. *)
Lemma s_writes_deliver s m st : s_writes (Some s) st → s_writes (Some (ChatServer.session_deliver s m)) st.
Proof.
  cbn. intros Hw. case_bool_decide as Hq; cbn [negb]; [|by apply write_ok_push].
  rewrite Hq in *. apply (write_ok_push _ [] _ _ [m]). by eapply write_ok_idle.
Qed.

Lemma s_writes_deliver_all ms s st :
  s_writes (Some s) st → s_writes (Some (foldl ChatServer.session_deliver s ms)) st.
Proof. revert s. induction ms as [|m ms IH]; intros s Hw; [done|]. apply IH. by apply s_writes_deliver. Qed.

(** What a client's stream consists of. *)
Definition lines_of (oc : option (bytes * ChatClient.chat_client)) : list bytes :=
  match oc with Some (_, c) => ChatClient.typed c | None => [] end.

Lemma wires_messages lines :
  Forall short lines → wires (ChatClient.message_of cjunk <$> lines) = mjoin (frame <$> lines).
Proof.
  induction 1 as [|l lines Hl _ IH]; [done|]. rewrite !fmap_cons, wires_cons, IH. cbn [mjoin list_join].
  f_equal. unfold ChatClient.message_of. by rewrite wire_framed.
Qed.

Lemma typed_short cin c : ChatClient.inv cjunk cin c → Forall short (ChatClient.typed c).
Proof.
  intros Hi. pose proof (ChatClient.cin_lines_short (S (length cin)) cin) as H.
  rewrite (ChatClient.inv_typing _ _ _ Hi) in H. by apply Forall_app in H as [? _].
Qed.

Lemma up_lines σ i :
  inv σ → Forall short (lines_of (clients σ !! i)) ∧
  total (up σ !!! i) `prefix_of` mjoin (frame <$> lines_of (clients σ !! i)).
Proof.
  intros Hi. pose proof (inv_up _ Hi i) as Hw. destruct (clients σ !! i) as [[cin c]|] eqn:Ec; cbn in *.
  - pose proof (inv_clients _ Hi _ _ _ Ec) as Hci. pose proof (typed_short _ _ Hci) as Hs. split; [done|].
    rewrite <-wires_messages by done. rewrite <-(ChatClient.inv_typed _ _ _ Hci), app_assoc, wires_app.
    by eapply prefix_app_r, write_ok_prefix.
  - split; [constructor|]. by apply write_ok_prefix in Hw.
Qed.

(** *** The events of a client *)

Lemma read_result_spec good asked n st :
  read_result good asked n st = true →
  n ≤ asked ∧ n ≤ length (arrived st) ∧ length (take n (arrived st)) = n ∧ (good = true → n = asked).
Proof.
  unfold read_result. rewrite !andb_true_iff, orb_true_iff, !Nat.leb_le, Nat.eqb_eq. intros [[H1 H2] H3].
  rewrite length_take. split_and!; [lia..|]. intros ->. by destruct H3.
Qed.

(** What the handlers of a client leave as it was. *)
Definition same_writes (c c' : ChatClient.chat_client) : Prop :=
  ChatClient.sent c' = ChatClient.sent c ∧ ChatClient.write_msgs_ c' = ChatClient.write_msgs_ c ∧
  ChatClient.broken c' = ChatClient.broken c.

Lemma c_writes_same cin c c' st : same_writes c c' → c_writes (Some (cin, c)) st → c_writes (Some (cin, c')) st.
Proof. intros (H1 & H2 & H3). cbn. by rewrite H1, H2, H3. Qed.

Lemma client_header_cases c e hdr c' :
  ChatClient.handle_read_header c e hdr = Ret c' →
  same_writes c c' ∧ ChatClient.frames c' = ChatClient.frames c ∧
  (ChatClient.reads c' = ChatClient.no_read ∨
   Asio.failed e = false ∧ ChatClient.reads c' = ChatClient.read_body hdr).
Proof.
  unfold ChatClient.handle_read_header. intros (m & _ & H)%bind_Ret_inv.
  destruct (Asio.failed e); [injection H as <-; by repeat split; left|].
  destruct (decode_header m) as [good m']. destruct good; injection H as <-; repeat split; cbn; auto.
Qed.

Lemma client_body_cases c hdr e text c' :
  ChatClient.handle_read_body c hdr e text = Ret c' →
  same_writes c c' ∧
  (ChatClient.reads c' = ChatClient.no_read ∧ ChatClient.frames c' = ChatClient.frames c ∨
   Asio.failed e = false ∧ ChatClient.reads c' = ChatClient.read_header ∧
   ∃ m, store (ChatClient.read_msg_ c) header_length text = Ret m ∧
     ChatClient.frames c' = ChatClient.frames c ++ [(hdr, msg_body m)]).
Proof.
  unfold ChatClient.handle_read_body. intros (m & Hm & H)%bind_Ret_inv.
  destruct (Asio.failed e); injection H as <-; cbn; (split; [done|]); [by left|right]. eauto.
Qed.

Lemma inv_started σ i cin :
  length cjunk = header_length + max_body_length →
  inv σ → clients σ !! i = None → inv (set_client σ i (cin, ChatClient.client_new cjunk cin)).
Proof.
  intros Hj Hi Hc. pose proof (inv_up _ Hi i) as Hu. pose proof (inv_shown _ Hi i) as Hs. rewrite Hc in Hu, Hs.
  eapply inv_client; [exact Hi|try done..]. by apply ChatClient.client_inv_new.
Qed.

(** The threads of a client, and its connection. *)
Lemma inv_quiet σ i cin c c' :
  inv σ → clients σ !! i = Some (cin, c) → ChatClient.inv cjunk cin c' →
  ChatClient.sent c' = ChatClient.sent c → ChatClient.broken c' = ChatClient.broken c →
  ChatClient.write_msgs_ c `prefix_of` ChatClient.write_msgs_ c' →
  ChatClient.frames c' = ChatClient.frames c →
  (c_progress (Some (cin, c')) = c_progress (Some (cin, c)) ∨ ChatClient.reads c' = ChatClient.no_read) →
  inv (set_client σ i (cin, c')).
Proof.
  intros Hi Hc Hci H1 H2 [k H3] H4 H5. pose proof (inv_up _ Hi i) as Hu. pose proof (inv_shown _ Hi i) as Hs.
  rewrite Hc in Hu, Hs. eapply inv_client; [exact Hi|try done..]; cbn [set_client up down].
  - cbn in *. rewrite H1, H2, H3. by apply write_ok_push.
  - rewrite H4. destruct H5 as [->|H5]; [done|]. cbn. rewrite H5. by eapply read_ok_stopped.
Qed.

Lemma inv_client_header σ i cin c e n σ' :
  length cjunk = header_length + max_body_length → inv σ → clients σ !! i = Some (cin, c) →
  ChatClient.reads c = ChatClient.read_header →
  read_result (negb (Asio.failed e)) header_length n (down σ !!! i) = true →
  handle σ (client_header i e n) = Ret σ' → inv σ'.
Proof.
  intros Hj Hi Hc Hr (Hn1 & Hn2 & Hlen & Hn3)%read_result_spec Hh. cbn [handle] in Hh. unfold on_client in Hh.
  rewrite Hc in Hh. apply bind_Ret_inv in Hh as (c' & Hc' & [= <-]).
  set (hdr := take n (arrived (down σ !!! i))) in *.
  destruct (ChatClient.client_inv_header cjunk Hj cin c e hdr (inv_clients _ Hi _ _ _ Hc)) as (c2 & Hc2 & Hci);
    [lia|intros Hf; rewrite Hlen; apply Hn3; by rewrite Hf|].
  rewrite Hc' in Hc2. injection Hc2 as <-. destruct (client_header_cases _ _ _ _ Hc') as (Hw & Hf & Hcase).
  pose proof (inv_up _ Hi i) as Hu. pose proof (inv_shown _ Hi i) as Hs. rewrite Hc in Hu, Hs. cbn in Hs. rewrite Hr in Hs.
  eapply (inv_client σ _ i); [exact Hi|try done..]; cbn [set_client set_down up down].
  - intros j Hne. by rewrite lookup_total_insert_ne.
  - by eapply c_writes_same.
  - by rewrite lookup_total_insert_eq.
  - rewrite lookup_total_insert_eq, Hf. cbn. destruct Hcase as [->|[He ->]]; [by eapply read_ok_stop|].
    subst hdr. assert (n = header_length) as -> by (apply Hn3; by rewrite He). by apply read_ok_header.
Qed.

Lemma inv_client_body σ i cin c hdr e n σ' :
  length cjunk = header_length + max_body_length → inv σ → clients σ !! i = Some (cin, c) →
  ChatClient.reads c = ChatClient.read_body hdr →
  read_result (negb (Asio.failed e)) (body_length_ (ChatClient.read_msg_ c)) n (down σ !!! i) = true →
  handle σ (client_body i e n) = Ret σ' → inv σ'.
Proof.
  intros Hj Hi Hc Hr (Hn1 & Hn2 & Hlen & Hn3)%read_result_spec Hh. cbn [handle] in Hh. unfold on_client in Hh.
  rewrite Hc, Hr in Hh. apply bind_Ret_inv in Hh as (c' & Hc' & [= <-]).
  set (text := take n (arrived (down σ !!! i))) in *. pose proof (inv_clients _ Hi _ _ _ Hc) as Hci.
  destruct (ChatClient.client_inv_body cjunk Hj cin c hdr e text Hci Hr) as (c2 & Hc2 & Hci');
    [lia|intros Hf; rewrite Hlen; apply Hn3; by rewrite Hf|].
  rewrite Hc' in Hc2. injection Hc2 as <-. destruct (client_body_cases _ _ _ _ _ Hc') as (Hw & Hcase).
  pose proof (inv_up _ Hi i) as Hu. pose proof (inv_shown _ Hi i) as Hs. rewrite Hc in Hu, Hs. cbn in Hs. rewrite Hr in Hs.
  eapply (inv_client σ _ i); [exact Hi|try done..]; cbn [set_client set_down up down].
  - intros j Hne. by rewrite lookup_total_insert_ne.
  - by eapply c_writes_same.
  - by rewrite lookup_total_insert_eq.
  - rewrite lookup_total_insert_eq. cbn. destruct Hcase as [[-> ->]|(He & -> & m & Hm & ->)]; [by eapply read_ok_stop|].
    assert (n = body_length_ (ChatClient.read_msg_ c)) as -> by (apply Hn3; by rewrite He).
    pose proof (ChatClient.inv_reads _ _ _ Hci) as Hv. rewrite Hr in Hv. destruct Hv as [_ Hv].
    rewrite (body_stored _ _ _ Hlen (proj1 (ChatClient.inv_msg _ _ _ Hci)) Hm). by apply read_ok_body.
Qed.

Lemma write_result_spec good n m q :
  write_result good n (m :: q) = true → good = true → take n (wire m) = wire m.
Proof. intros H ->. cbn in H. apply Nat.eqb_eq in H as ->. apply firstn_all. Qed.

Lemma inv_client_write σ i cin c e n σ' :
  inv σ → clients σ !! i = Some (cin, c) → ChatClient.writing c = true →
  write_result (negb (Asio.failed e)) n (ChatClient.write_msgs_ c) = true →
  handle σ (client_write i e n) = Ret σ' → inv σ'.
Proof.
  intros Hi Hc Hw Hn Hh. cbn [handle] in Hh. unfold on_client in Hh.
  rewrite Hc in Hh. apply bind_Ret_inv in Hh as (c' & Hc' & [= <-]). pose proof (inv_clients _ Hi _ _ _ Hc) as Hci.
  destruct (ChatClient.client_inv_handle_write cjunk cin c e Hci Hw) as (c2 & Hc2 & Hci').
  rewrite Hc' in Hc2. injection Hc2 as <-. destruct (proj1 (proj1 (ChatClient.inv_writing _ _ _ Hci)) Hw) as [Hne Hb].
  pose proof (inv_up _ Hi i) as Hu. pose proof (inv_shown _ Hi i) as Hs. rewrite Hc in Hu, Hs. cbn in Hu. rewrite Hb in Hu.
  unfold ChatClient.handle_write in Hc'. destruct (ChatClient.write_msgs_ c) as [|m q] eqn:Eq; [done|].
  eapply (inv_client σ _ i); [exact Hi|try done..]; cbn [set_client set_up up down].
  - intros j Hj. by rewrite lookup_total_insert_ne.
  - rewrite lookup_total_insert_eq. cbn [head_bytes].
    destruct (Asio.failed e) eqn:Ef; injection Hc' as <-; unfold c_writes;
      cbn [ChatClient.do_close ChatClient.sent ChatClient.write_msgs_ ChatClient.broken].
    + by apply write_ok_fail.
    + rewrite Hb, (write_result_spec _ _ _ _ Hn) by done. by apply write_ok_pop.
  - intros fs p. rewrite lookup_total_insert_eq. apply read_ok_write.
  - destruct (Asio.failed e); injection Hc' as <-; exact Hs.
Qed.

(** *** The events of the server *)

(** One session changes, and no message is delivered. *)
Lemma inv_session σ σ' i s s' :
  inv σ → clients σ' = clients σ → said σ' = said σ → ChatServer.inv (room_ σ') →
  ChatServer.log (room_ σ') = ChatServer.log (room_ σ) → ChatServer.sessions (room_ σ) !! i = Some s →
  ChatServer.sessions (room_ σ') = <[i := s']> (ChatServer.sessions (room_ σ)) →
  (∀ j, j ≠ i → up σ' !!! j = up σ !!! j ∧ down σ' !!! j = down σ !!! j) →
  total (up σ' !!! i) = total (up σ !!! i) →
  (∀ fs p, read_ok fs p (down σ !!! i) → read_ok fs p (down σ' !!! i)) →
  (∀ fs, read_ok fs (s_progress (Some s)) (up σ !!! i) → read_ok fs (s_progress (Some s')) (up σ' !!! i)) →
  s_writes (Some s') (down σ' !!! i) → session_inv (ChatServer.log (room_ σ)) s' → inv σ'.
Proof.
  intros Hi Hc Hsd Hr Hl Hs Hss Hj Hup Hdn Hrd Hw Hsi.
  eapply (inv_server σ σ' i); try done; rewrite ?Hl, ?Hsd, ?Hss; [apply Hi|..].
  - intros j. destruct (inv_heard _ Hi j) as (fs & Hfs & Hok). exists fs. split; [done|].
    destruct (decide (j = i)) as [->|Hne].
    + rewrite lookup_insert_eq. rewrite Hs in Hok. by apply Hrd.
    + rewrite lookup_insert_ne by done. by rewrite (proj1 (Hj j Hne)).
  - intros j. destruct (decide (j = i)) as [->|Hne]; [by rewrite lookup_insert_eq|].
    rewrite lookup_insert_ne by done. rewrite (proj2 (Hj j Hne)). apply (inv_down _ Hi).
  - intros j s2 [[<- <-]|[_ H]]%lookup_insert_Some; [done|]. by eapply inv_each.
Qed.

Lemma take_stored m hdr m' :
  length hdr = header_length → store m 0 hdr = Ret m' → take header_length (data_ m') = hdr.
Proof.
  intros Hh. unfold store. case_match; [|done]. intros [= <-]. cbn [data_ take app].
  by rewrite take_app_le, take_ge by lia.
Qed.

Lemma session_header_cases r i s e hdr r' :
  ChatServer.sessions r !! i = Some s → ChatServer.session_ok r i s →
  (ok e = true → length hdr = header_length) → ChatServer.handle_read_header r i e hdr = Ret r' →
  ChatServer.log r' = ChatServer.log r ∧
  ∃ m rd, ChatServer.sessions r' = <[i := ChatServer.set_read s m rd]> (ChatServer.sessions r) ∧
    (rd = ChatServer.no_read ∨
     rd = ChatServer.read_body ∧ ok e = true ∧ take header_length (data_ m) = hdr ∧
       header_value hdr = Some (body_length_ m)).
Proof.
  intros Hs Hok Hl. unfold ChatServer.handle_read_header, ChatServer.with_session. rewrite Hs.
  intros (m & Hm & H)%bind_Ret_inv. destruct (ChatServer.ok_read _ _ _ Hok) as [Hd _].
  destruct e; [|injection H as <-; split; [done|]; eexists _, _; split; [reflexivity|by left]..].
  specialize (Hl eq_refl). rewrite (decode_stored _ _ _ Hl Hd Hm) in H.
  pose proof (take_stored _ _ _ Hl Hm) as Ht.
  destruct (header_value hdr) as [n|]; injection H as <-; (split; [done|]); eexists _, _; (split; [reflexivity|]);
    [right|by left]. done.
Qed.

Lemma inv_session_header σ i s e n σ' :
  length sjunk = header_length + max_body_length → inv σ → ChatServer.sessions (room_ σ) !! i = Some s → ChatServer.reads s = ChatServer.read_header →
  read_result (ok e) header_length n (up σ !!! i) = true →
  handle σ (session_header i e n) = Ret σ' → inv σ'.
Proof.
  intros Hj Hi Hs Hr (Hn1 & Hn2 & Hlen & Hn3)%read_result_spec Hh. cbn [handle] in Hh.
  apply bind_Ret_inv in Hh as (r' & Hr' & [= <-]). set (hdr := take n (arrived (up σ !!! i))) in *.
  destruct (ChatServer.inv_header sjunk Hj (room_ σ) i s e hdr (inv_room _ Hi) Hs) as (r2 & Hr2 & Hri); [lia|].
  rewrite Hr' in Hr2. injection Hr2 as <-. pose proof (ChatServer.inv_sessions _ (inv_room _ Hi) _ _ Hs) as Hok.
  destruct (session_header_cases _ _ _ _ _ _ Hs Hok (λ H, eq_trans Hlen (Hn3 H)) Hr') as (Hlog & m & rd & Hss & Hcase).
  pose proof (inv_down _ Hi i) as Hw. rewrite Hs in Hw. destruct (inv_each _ Hi _ _ Hs) as [_ Hq].
  eapply (inv_session σ _ i s); [exact Hi|try done..]; cbn [set_room set_up up down room_].
  - intros j Hne. by rewrite lookup_total_insert_ne.
  - by rewrite lookup_total_insert_eq.
  - intros fs. rewrite lookup_total_insert_eq. cbn [s_progress ChatServer.set_read ChatServer.reads ChatServer.read_msg_].
    rewrite Hr. intros Hfs.
    destruct Hcase as [->|(-> & He & -> & _)]; [by eapply read_ok_stop|].
    subst hdr. assert (n = header_length) as -> by auto. by apply read_ok_header.
  - split; [|done]. cbn [ChatServer.set_read ChatServer.reads ChatServer.read_msg_]. intros ->. destruct Hcase as [?|(_ & _ & -> & ?)]; done.
Qed.

Lemma inv_session_write σ i s e n σ' :
  length sjunk = header_length + max_body_length → inv σ → ChatServer.sessions (room_ σ) !! i = Some s → ChatServer.writing s = true →
  write_result (ok e) n (ChatServer.write_msgs_ s) = true →
  handle σ (session_write i e n) = Ret σ' → inv σ'.
Proof.
  intros Hj Hi Hs Hwr Hn Hh. cbn [handle] in Hh. rewrite Hs in Hh.
  apply bind_Ret_inv in Hh as (r' & Hr' & [= <-]).
  destruct (ChatServer.chat_inv_write sjunk Hj (room_ σ) i s e (inv_room _ Hi) Hs Hwr) as (r2 & Hr2 & Hri).
  rewrite Hr' in Hr2. injection Hr2 as <-. pose proof (ChatServer.inv_sessions _ (inv_room _ Hi) _ _ Hs) as Hok.
  pose proof (ChatServer.ok_writing _ _ _ Hok Hwr) as Hne. destruct (inv_each _ Hi _ _ Hs) as [Hh Hq].
  pose proof (inv_down _ Hi i) as Hw. rewrite Hs in Hw. cbn in Hw. rewrite Hwr in Hw. cbn [negb] in Hw.
  unfold ChatServer.handle_write, ChatServer.with_session in Hr'. rewrite Hs in Hr'.
  destruct (ChatServer.write_msgs_ s) as [|m q] eqn:Eq; [done|].
  assert (∃ s', ChatServer.sessions r' = <[i := s']> (ChatServer.sessions (room_ σ)) ∧
    ChatServer.log r' = ChatServer.log (room_ σ) ∧ ChatServer.read_msg_ s' = ChatServer.read_msg_ s ∧
    ChatServer.reads s' = ChatServer.reads s ∧ ChatServer.since s' = ChatServer.since s ∧
    ChatServer.written s' ++ ChatServer.write_msgs_ s' = ChatServer.written s ++ m :: q ∧
    s_writes (Some s') (write (down σ !!! i) (take n (wire m)))) as (s' & Hss & Hlog & E1 & E2 & E3 & E4 & Hw').
  { destruct e; injection Hr' as <-; (eexists; split_and!; [reflexivity|done..| |]); unfold s_writes;
      cbn [ChatServer.written ChatServer.write_msgs_ ChatServer.writing]; [by rewrite <-app_assoc| |done| |done|].
    - rewrite (write_result_spec _ _ _ _ Hn) by done. pose proof (write_ok_pop _ _ _ _ Hw) as (part & H1 & H2 & H3).
      exists part. by split_and!; [|intros _; apply H2|].
    - by apply write_ok_fail.
    - by apply write_ok_fail. }
  eapply (inv_session σ _ i s s'); [exact Hi|try done..]; cbn [set_room set_down up down room_].
  - intros j Hne'. by rewrite lookup_total_insert_ne.
  - intros fs p. rewrite lookup_total_insert_eq. apply read_ok_write.
  - cbn. by rewrite E1, E2.
  - by rewrite lookup_total_insert_eq.
  - split; [by rewrite E1, E2|]. by rewrite E3, E4.
Qed.

Lemma chat_inv_accepted σ e :
  length sjunk = header_length + max_body_length →
  inv σ → inv (set_room σ (ChatServer.handle_accept sjunk (room_ σ) e)).
Proof.
  intros Hj Hi. pose proof (ChatServer.chat_inv_accept sjunk Hj (room_ σ) e (inv_room _ Hi)) as Hri.
  destruct e; [|split; try done; apply Hi..].
  set (r := room_ σ) in *. set (i := ChatServer.next_session r).
  assert (ChatServer.sessions r !! i = None) as Hno.
  { destruct (ChatServer.sessions r !! i) as [s|] eqn:E; [|done].
    by destruct (Nat.lt_irrefl i (ChatServer.inv_next _ (inv_room _ Hi) _ _ E)). }
  set (s0 := ChatServer.mkSession (chat_message_new sjunk) [] ChatServer.read_header false [] (length (ChatServer.log r))).
  destruct (ChatServer.deliver_all s0 (ChatServer.recent_msgs_ r)) as (_ & _ & _ & Hm & Hrd & _ & _); [done|].
  set (s1 := foldl ChatServer.session_deliver s0 (ChatServer.recent_msgs_ r)) in *.
  assert (ChatServer.sessions (ChatServer.handle_accept sjunk r HttpConnection.success) =
    <[i := s1]> (ChatServer.sessions r)) as Hss by done.
  eapply (inv_server σ _ i); [exact Hi|try done..]; cbn [set_room room_ up down said]; rewrite ?Hss; [apply Hi|..].
  - intros j. destruct (inv_heard _ Hi j) as (fs & Hfs & Hok). exists fs. split; [done|].
    destruct (decide (j = i)) as [->|Hne]; [|by rewrite lookup_insert_ne].
    rewrite lookup_insert_eq. fold r in Hok. rewrite Hno in Hok. cbn. by rewrite Hrd.
  - intros j. pose proof (inv_down _ Hi j) as Hw.
    destruct (decide (j = i)) as [->|Hne]; [|by rewrite lookup_insert_ne].
    rewrite lookup_insert_eq. fold r in Hw. rewrite Hno in Hw. apply s_writes_deliver_all.
    destruct Hw as (part & H1 & H2 & H3). by exists part.
  - intros j s [[<- <-]|[_ H]]%lookup_insert_Some; [|by apply (inv_each _ Hi j)].
    split; [by rewrite Hrd|].
    assert (ChatServer.session_ok (ChatServer.handle_accept sjunk r HttpConnection.success) i s1) as Hok
      by (apply (ChatServer.inv_sessions _ Hri); by rewrite Hss, lookup_insert_eq).
    rewrite (proj1 (ChatServer.ok_member _ _ _ Hok ltac:(cbn; set_solver))). done.
Qed.

(** *** A message is delivered *)

Lemma words_of_snoc j l i text :
  words_of j (l ++ [(i, text)]) = words_of j l ++ (if decide (i = j) then [text] else []).
Proof.
  unfold words_of. rewrite filter_app, fmap_app. f_equal. rewrite filter_cons. cbn [fst].
  by destruct (decide (i = j)).
Qed.

Lemma wire_stored m text m' :
  length text = body_length_ m → length (data_ m) = header_length + max_body_length →
  store m header_length text = Ret m' → wire m' = take header_length (data_ m) ++ text.
Proof.
  intros Ht Hd. unfold store. case_match; [|done]. intros [= <-]. unfold wire, msg_length. cbn [data_ body_length_].
  rewrite app_assoc, take_app_le by (rewrite length_app, length_take; lia).
  apply take_ge. rewrite length_app, length_take. lia.
Qed.

(** What a session reads as a message is a line its client typed. *)
Lemma heard_line σ i fs hdr text st :
  inv σ → read_ok (fs ++ [(hdr, text)]) at_header st → total st = total (up σ !!! i) →
  short text ∧ hdr = format_4d (length text).
Proof.
  intros Hi Hr Ht. destruct (up_lines σ i Hi) as [Hs Hp]. pose proof (read_ok_prefix _ _ _ Hr) as Hp2.
  rewrite Ht in Hp2. destruct (heard_prefix _ _ (proj1 Hr) Hs (transitivity Hp2 Hp)) as [k Hk].
  assert ((hdr, text) ∈ framing <$> lines_of (clients σ !! i)) as Hin by (rewrite Hk; set_solver).
  apply list_elem_of_fmap in Hin as (b & [= -> ->] & Hb). split; [|done]. rewrite Forall_forall in Hs. by apply Hs.
Qed.

(** The sessions after a delivery. *)
Lemma deliver_lookup r m j :
  ChatServer.sessions (ChatServer.room_deliver r m) !! j =
    (λ s, if decide (j ∈ ChatServer.participants_ r) then ChatServer.session_deliver s m else s) <$>
      ChatServer.sessions r !! j.
Proof. cbn. rewrite map_lookup_imap. by destruct (ChatServer.sessions r !! j). Qed.

Lemma deliver_progress r m j :
  s_progress (ChatServer.sessions (ChatServer.room_deliver r m) !! j) = s_progress (ChatServer.sessions r !! j).
Proof. rewrite deliver_lookup. destruct (ChatServer.sessions r !! j); cbn; [|done]. by destruct (decide _). Qed.

Lemma deliver_writes r m j st :
  s_writes (ChatServer.sessions r !! j) st →
  s_writes (ChatServer.sessions (ChatServer.room_deliver r m) !! j) st.
Proof.
  rewrite deliver_lookup. destruct (ChatServer.sessions r !! j) as [s|]; [|done]. cbn [fmap option_fmap option_map].
  destruct (decide _); [apply s_writes_deliver|done].
Qed.

Lemma deliver_each r m j s :
  ChatServer.inv r → ChatServer.inv (ChatServer.room_deliver r m) →
  (∀ s, ChatServer.sessions r !! j = Some s → session_inv (ChatServer.log r) s) →
  ChatServer.sessions (ChatServer.room_deliver r m) !! j = Some s →
  session_inv (ChatServer.log (ChatServer.room_deliver r m)) s.
Proof.
  intros Hi Hri He Hs. pose proof (ChatServer.inv_sessions _ Hri j s Hs) as Hok. rewrite deliver_lookup in Hs.
  apply fmap_Some in Hs as (s2 & Hs2 & ->). destruct (He s2 Hs2) as [H1 H2].
  pose proof (ChatServer.ok_since _ _ _ (ChatServer.inv_sessions _ Hi _ _ Hs2)) as H3.
  destruct (decide _) as [Hp|Hp]; (split; [exact H1|]).
  - rewrite (proj1 (ChatServer.ok_member _ _ _ Hok Hp)). done.
  - cbn -[ChatServer.max_recent_msgs]. rewrite drop_app_le by lia. by apply prefix_app_r.
Qed.

Lemma session_body_deliver σ i s m text fs :
  length sjunk = header_length + max_body_length →
  inv σ → ChatServer.sessions (room_ σ) !! i = Some s → ChatServer.reads s = ChatServer.read_body →
  length text = body_length_ (ChatServer.read_msg_ s) → store (ChatServer.read_msg_ s) header_length text = Ret m →
  fs.*2 = words_of i (said σ) →
  read_ok (fs ++ [(take header_length (data_ (ChatServer.read_msg_ s)), text)]) at_header
    (consume (up σ !!! i) (length text)) →
  inv (say (set_up (set_room σ (ChatServer.room_deliver
         (ChatServer.put_session (room_ σ) i (ChatServer.set_read s m ChatServer.read_header)) m)) i
         (consume (up σ !!! i) (length text))) i text).
Proof.
  intros Hj Hi Hs Hr Ht Hm Hfs Hok. set (r := room_ σ) in *. set (s1 := ChatServer.set_read s m ChatServer.read_header).
  pose proof (ChatServer.inv_sessions _ (inv_room _ Hi) _ _ Hs) as [[Hd Hb] _ _ _].
  destruct (store_ok (ChatServer.read_msg_ s) header_length text) as (m2 & Hm2 & Hl & Hbm); [done|lia|].
  rewrite Hm in Hm2. injection Hm2 as <-. assert (msg_ok m) as Hmok by (split; lia).
  pose proof (ChatServer.inv_set_read r i s m ChatServer.read_header (inv_room _ Hi) Hs Hmok) as Hr1.
  pose proof (ChatServer.inv_deliver sjunk Hj _ m Hr1 Hmok) as Hri. fold s1 in Hr1, Hri.
  destruct (heard_line σ i _ _ _ _ Hi Hok eq_refl) as [Hshort Hhdr].
  set (r1 := ChatServer.put_session r i s1) in *.
  assert (ChatServer.sessions r1 = <[i := s1]> (ChatServer.sessions r)) as Hss by done.
  eapply (inv_server σ _ i); [exact Hi|try done..]; cbn [say set_up set_room room_ up down said].
  - apply Forall2_app; [apply Hi|]. constructor; [|constructor]. split_and!; [|by eapply body_stored|done].
    rewrite (wire_stored _ _ _ Ht Hd Hm), Hhdr. done.
  - intros j Hne. by rewrite lookup_total_insert_ne.
  - by rewrite lookup_total_insert_eq.
  - intros j. rewrite deliver_progress, words_of_snoc, Hss. destruct (decide (i = j)) as [<-|Hne].
    + rewrite lookup_insert_eq, lookup_total_insert_eq. eexists. split; [|exact Hok]. by rewrite fmap_app, Hfs.
    + rewrite lookup_insert_ne, lookup_total_insert_ne, app_nil_r by done. apply (inv_heard _ Hi).
  - intros j. apply deliver_writes. rewrite Hss. pose proof (inv_down _ Hi j) as Hw.
    destruct (decide (i = j)) as [<-|Hne]; [|by rewrite lookup_insert_ne].
    rewrite lookup_insert_eq. fold r in Hw. by rewrite Hs in Hw.
  - intros j s3. apply deliver_each; [exact Hr1|exact Hri|]. intros s2. rewrite Hss.
    intros [[<- <-]|[_ Hs2]]%lookup_insert_Some; [by destruct (inv_each _ Hi _ _ Hs)|by apply (inv_each _ Hi j)].
Qed.

Lemma inv_session_body σ i s e n σ' :
  length sjunk = header_length + max_body_length →
  inv σ → ChatServer.sessions (room_ σ) !! i = Some s → ChatServer.reads s = ChatServer.read_body →
  read_result (ok e) (body_length_ (ChatServer.read_msg_ s)) n (up σ !!! i) = true →
  handle σ (session_body i e n) = Ret σ' → inv σ'.
Proof.
  intros Hj Hi Hs Hr (Hn1 & Hn2 & Hlen & Hn3)%read_result_spec Hh. cbn [handle] in Hh.
  apply bind_Ret_inv in Hh as (r' & Hr' & [= <-]). set (text := take n (arrived (up σ !!! i))) in *.
  destruct (ChatServer.inv_body sjunk Hj (room_ σ) i s e text (inv_room _ Hi) Hs) as (r2 & Hr2 & Hri); [lia|].
  rewrite Hr' in Hr2. injection Hr2 as <-.
  unfold ChatServer.handle_read_body, ChatServer.with_session in Hr'. rewrite Hs in Hr'.
  apply bind_Ret_inv in Hr' as (m & Hm & Hr').
  pose proof (inv_down _ Hi i) as Hw. rewrite Hs in Hw. destruct (inv_each _ Hi _ _ Hs) as [Hhd Hq].
  destruct (ok e) eqn:He.
  - destruct e; [|done..]. injection Hr' as <-. destruct (inv_heard _ Hi i) as (fs & Hfs & Hok).
    rewrite Hs in Hok. unfold s_progress in Hok. rewrite Hr in Hok. rewrite <-Hlen.
    apply session_body_deliver with (fs := fs); [done..|by rewrite Hlen, Hn3|done|done|].
    rewrite Hlen. apply read_ok_body; [done| |done]. rewrite Hhd by done. by rewrite Hn3.
  - assert (r' = ChatServer.leave (ChatServer.put_session (room_ σ) i
      (ChatServer.set_read s m ChatServer.no_read)) i) as -> by (by destruct e; [|injection Hr' as <-..]).
    assert (∀ σ1 σ2 : system, match e with HttpConnection.success => σ1 | _ => σ2 end = σ2) as Hm2 by (by destruct e).
    rewrite Hm2. eapply (inv_session σ _ i s); [exact Hi|try done..]; cbn [set_room set_up up down room_].
    + intros j Hne. by rewrite lookup_total_insert_ne.
    + by rewrite lookup_total_insert_eq.
    + intros fs. rewrite lookup_total_insert_eq. intros Hfs. by eapply read_ok_stop.
Qed.

(** ** Every reachable state *)

Section Reachable.
Context (Hcj : length cjunk = header_length + max_body_length)
  (Hsj : length sjunk = header_length + max_body_length).

Lemma handle_defined σ ev : inv σ → enabled σ ev = true → ∃ σ', handle σ ev = Ret σ'.
Proof using Hcj Hsj.
  intros Hi He. destruct ev as [i cin|i|i|i e|i e n|i e n|i e n|e|i e n|i e n|i e n]; cbn [handle enabled] in *;
    unfold on_client in *; try (by eexists).
  all: try (destruct (clients σ !! i) as [[cin c]|] eqn:Ec; [|by eexists];
            pose proof (inv_clients _ Hi _ _ _ Ec) as Hc).
  all: try (destruct (ChatServer.sessions (room_ σ) !! i) as [s|] eqn:Es; [|done]).
  - destruct (ChatClient.inv_main cjunk Hcj cin c Hc) as (c' & -> & _). by eexists.
  - by eexists.
  - by eexists.
  - destruct (ChatClient.reads c); try done. apply read_result_spec in He as (H1 & H2 & H3 & H4).
    destruct (ChatClient.client_inv_header cjunk Hcj cin c e (take n (arrived (down σ !!! i))) Hc)
      as (c' & -> & _); [by rewrite H3| |by eexists].
    intros Hf. rewrite H3. apply H4. by rewrite Hf.
  - destruct (ChatClient.reads c) as [| | |hdr] eqn:Er; try done. apply read_result_spec in He as (H1 & H2 & H3 & H4).
    destruct (ChatClient.client_inv_body cjunk Hcj cin c hdr e (take n (arrived (down σ !!! i))) Hc Er)
      as (c' & -> & _); [by rewrite H3| |by eexists].
    intros Hf. rewrite H3. apply H4. by rewrite Hf.
  - apply andb_true_iff in He as [Hw _].
    destruct (ChatClient.client_inv_handle_write cjunk cin c e Hc Hw) as (c' & -> & _). by eexists.
  - destruct (ChatServer.reads s); try done. apply read_result_spec in He as (H1 & H2 & H3 & H4).
    destruct (ChatServer.inv_header sjunk Hsj _ i s e (take n (arrived (up σ !!! i))) (inv_room _ Hi) Es)
      as (r & -> & _); [lia|by eexists].
  - destruct (ChatServer.reads s); try done. apply read_result_spec in He as (H1 & H2 & H3 & H4).
    destruct (ChatServer.inv_body sjunk Hsj _ i s e (take n (arrived (up σ !!! i))) (inv_room _ Hi) Es)
      as (r & -> & _); [lia|by eexists].
  - apply andb_true_iff in He as [Hw _].
    destruct (ChatServer.chat_inv_write sjunk Hsj _ i s e (inv_room _ Hi) Es Hw) as (r & -> & _). by eexists.
Qed.

Lemma inv_handle σ ev σ' : inv σ → enabled σ ev = true → handle σ ev = Ret σ' → inv σ'.
Proof using Hcj Hsj.
  intros Hi He Hh. destruct ev as [i cin|i|i|i e|i e n|i e n|i e n|e|i e n|i e n|i e n]; cbn [enabled] in He.
  1: { injection Hh as <-. apply inv_started; [done..|]. by apply bool_decide_eq_true in He. }
  7: { injection Hh as <-. by apply chat_inv_accepted. }
  1-6: destruct (clients σ !! i) as [[cin c]|] eqn:Ec; [|by (done || rewrite bool_decide_false in He; auto)].
  7-9: destruct (ChatServer.sessions (room_ σ) !! i) as [s|] eqn:Es; [|done].
  - cbn [handle] in Hh. unfold on_client in Hh. rewrite Ec in Hh. apply bind_Ret_inv in Hh as (c' & Hc' & [= <-]).
    destruct (ChatClient.inv_main cjunk Hcj cin c (inv_clients _ Hi _ _ _ Ec)) as (c2 & Hc2 & Hci).
    rewrite Hc' in Hc2. injection Hc2 as <-. unfold ChatClient.type_line in Hc'.
    destruct (ChatClient.typing c) as [[|l ls]|]; [injection Hc' as <-| |injection Hc' as <-];
      [|apply bind_Ret_inv in Hc' as (m & _ & [= <-])|]; (eapply inv_quiet; [done..|by left]).
  - cbn [handle] in Hh. unfold on_client in Hh. rewrite Ec in Hh. injection Hh as <-.
    pose proof (ChatClient.inv_posted cjunk cin c (inv_clients _ Hi _ _ _ Ec)) as Hci.
    unfold ChatClient.run_posted in *. destruct (ChatClient.io_service_ c) as [|[m|] rest];
      (eapply inv_quiet; [done..|by left]) || idtac.
    eapply inv_quiet; [done..| |done|by left]. by apply prefix_app_r.
  - cbn [handle] in Hh. unfold on_client in Hh. rewrite Ec in Hh. injection Hh as <-.
    destruct (ChatClient.reads c) eqn:Er; try done.
    pose proof (ChatClient.client_inv_step cjunk Hcj cin c _ (inv_clients _ Hi _ _ _ Ec)
      (ChatClient.step_connect cjunk c e Er)) as (c2 & [= <-] & Hci).
    unfold ChatClient.handle_connect in *. destruct (Asio.failed e); (eapply inv_quiet; [done..|]); [by right|].
    left. cbn. by rewrite Er.
  - destruct (ChatClient.reads c) eqn:Er; try done. by eapply inv_client_header.
  - destruct (ChatClient.reads c) eqn:Er; try done. by eapply inv_client_body.
  - apply andb_true_iff in He as [Hw Hn]. by eapply inv_client_write.
  - destruct (ChatServer.reads s) eqn:Er; try done. by eapply inv_session_header.
  - destruct (ChatServer.reads s) eqn:Er; try done. by eapply inv_session_body.
  - apply andb_true_iff in He as [Hw Hn]. by eapply inv_session_write.
Qed.

Lemma inv_system_new : inv system_new.
Proof using Hsj.
  split; cbn.
  - by apply (ChatServer.inv_chat_new sjunk).
  - done.
  - intros i. exists []. by split_and!; [rewrite lookup_total_empty| |].
  - intros i. exists []. split; [done|]. split; [constructor|]. by rewrite lookup_total_empty.
  - constructor.
  - intros i. exists []. by split_and!; [rewrite lookup_total_empty| |].
  - done.
  - intros i. split; [constructor|]. by rewrite lookup_total_empty.
Qed.

Lemma system_inv σ : reachable σ → inv σ.
Proof using Hcj Hsj. induction 1 as [|σ ev σ' _ IH He Hh]; [apply inv_system_new|]. by eapply inv_handle. Qed.

(** ** The conversation *)

Lemma carries_wires ms l :
  Forall2 carries ms l →
  wires ms = mjoin (frame <$> l.*2) ∧ msg_body <$> ms = l.*2 ∧ Forall short l.*2.
Proof.
  induction 1 as [|m x ms l (Hw & Hb & Hs) _ (IH1 & IH2 & IH3)]; [by split_and!; [..|constructor]|].
  split_and!; [|by rewrite !fmap_cons, Hb, IH2|by constructor].
  rewrite wires_cons, Hw, IH1. done.
Qed.

Lemma arrived_nil st : arrived st = [] → take (taken st) (total st) = total st.
Proof. unfold arrived. intros H. rewrite <-(take_drop (taken st) (total st)) at 2. by rewrite H, app_nil_r. Qed.

(** Each on a line. *)
Definition display (l : list bytes) : bytes := mjoin ((λ b, b ++ [newline]) <$> l).

(** What was heard of a client. *)
Lemma words_prefix σ i : inv σ → words_of i (said σ) `prefix_of` lines_of (clients σ !! i).
Proof.
  intros Hi. destruct (inv_heard _ Hi i) as (fs & <- & Hr). destruct (up_lines σ i Hi) as [Hs Hp].
  destruct (heard_prefix _ _ (proj1 Hr) Hs (transitivity (read_ok_prefix _ _ _ Hr) Hp)) as [k Hk].
  exists (k.*2). rewrite <-(framing_bodies (lines_of _)), Hk. apply fmap_app.
Qed.

(** What a client shows. *)
Lemma shown_prefix σ i cin c :
  inv σ → clients σ !! i = Some (cin, c) →
  ChatClient.cout c = display (ChatClient.frames c).*2 ∧
  match ChatServer.sessions (room_ σ) !! i with
  | Some s => (ChatClient.frames c).*2 `prefix_of` drop (ChatServer.since s - 100) (said σ).*2
  | None => ChatClient.frames c = []
  end.
Proof.
  intros Hi Hc. pose proof (inv_shown _ Hi i) as Hr. rewrite Hc in Hr. cbn in Hr.
  pose proof (inv_clients _ Hi _ _ _ Hc) as Hci. destruct (ChatClient.inv_frames _ _ _ Hci) as [Hf Hcout].
  split; [by rewrite Hcout, shown_bodies|]. pose proof (read_ok_prefix _ _ _ Hr) as Hp. pose proof (inv_down _ Hi i) as Hw.
  destruct (ChatServer.sessions (room_ σ) !! i) as [s|] eqn:Es; cbn in Hw.
  - destruct (inv_each _ Hi _ _ Es) as [_ [q Hq]].
    pose proof (Forall2_drop _ _ _ (ChatServer.since s - 100) (inv_said _ Hi)) as Hd.
    destruct (carries_wires _ _ Hd) as (H1 & _ & H3). unfold ChatServer.max_recent_msgs in Hq. rewrite Hq in H1.
    destruct (heard_prefix (ChatClient.frames c) _ Hf H3) as [k Hk].
    { etransitivity; [exact Hp|]. etransitivity; [by eapply write_ok_prefix|]. rewrite <-H1, (wires_app _ q). by apply prefix_app_r. }
    exists (k.*2). rewrite <-fmap_drop, <-(framing_bodies (drop _ _).*2), Hk. apply fmap_app.
  - apply write_ok_prefix in Hw. pose proof (transitivity Hp Hw) as H. apply (raw_inj _ [] Hf) in H; [|constructor].
    by apply prefix_nil_inv in H.
Qed.

(** Everything client [i] was given to send has reached the room. *)
Definition all_heard (σ : system) (i : nat) (c : ChatClient.chat_client) (s : ChatServer.session) : Prop :=
  ChatClient.posted_msgs (ChatClient.io_service_ c) = [] ∧ ChatClient.write_msgs_ c = [] ∧
  ChatClient.broken c = false ∧ arrived (up σ !!! i) = [] ∧ ChatServer.reads s = ChatServer.read_header.

(** Everything the room has for client [i] has been read by it. *)
Definition all_shown (σ : system) (i : nat) (c : ChatClient.chat_client) (s : ChatServer.session) : Prop :=
  i ∈ ChatServer.participants_ (room_ σ) ∧ ChatServer.writing s = false ∧
  arrived (down σ !!! i) = [] ∧ ChatClient.reads c = ChatClient.read_header.

Lemma all_heard_words σ i cin c s :
  inv σ → clients σ !! i = Some (cin, c) → ChatServer.sessions (room_ σ) !! i = Some s → all_heard σ i c s →
  words_of i (said σ) = ChatClient.typed c.
Proof.
  intros Hi Hc Hs (H1 & H2 & H3 & H4 & H5). destruct (inv_heard _ Hi i) as (fs & <- & Hf & _ & Hr).
  rewrite Hs in Hr. cbn in Hr. rewrite H5, arrived_nil in Hr by done.
  pose proof (inv_up _ Hi i) as Hw. rewrite Hc in Hw. cbn in Hw. destruct Hw as (part & Ht & Hp & _).
  rewrite Hp, app_nil_r in Ht by done. pose proof (inv_clients _ Hi _ _ _ Hc) as Hci.
  pose proof (ChatClient.inv_typed _ _ _ Hci) as Hty. rewrite H1, H2, !app_nil_r in Hty.
  pose proof (typed_short _ _ Hci) as Hsh.
  rewrite Hty, wires_messages, <-raw_framing, <-Hr in Ht by done.
  apply raw_eq in Ht; [|done|by apply framing_ok]. rewrite Ht. apply framing_bodies.
Qed.

Lemma all_shown_display σ i cin c s :
  inv σ → clients σ !! i = Some (cin, c) → ChatServer.sessions (room_ σ) !! i = Some s → all_shown σ i c s →
  (ChatClient.frames c).*2 = drop (ChatServer.since s - 100) (said σ).*2.
Proof.
  intros Hi Hc Hs (H1 & H2 & H3 & H4). pose proof (inv_shown _ Hi i) as (Hf & _ & Hr). rewrite Hc in Hf, Hr. cbn in Hf, Hr.
  rewrite H4, arrived_nil in Hr by done. pose proof (ChatServer.inv_sessions _ (inv_room _ Hi) _ _ Hs) as Hok.
  destruct (ChatServer.ok_member _ _ _ Hok H1) as [Hall Hgo].
  assert (ChatServer.write_msgs_ s = []) as Hq.
  { destruct (ChatServer.write_msgs_ s); [done|]. rewrite Hgo in H2 by done. done. }
  pose proof (inv_down _ Hi i) as Hw. rewrite Hs in Hw. cbn in Hw. rewrite Hq in Hw, Hall.
  apply write_ok_idle in Hw as (part & Ht & Hp & _). rewrite Hp, app_nil_r in Ht by done. rewrite app_nil_r in Hall.
  pose proof (Forall2_drop _ _ _ (ChatServer.since s - 100) (inv_said _ Hi)) as Hd.
  destruct (carries_wires _ _ Hd) as (E1 & _ & E3). unfold ChatServer.max_recent_msgs in Hall. rewrite <-Hall in E1.
  rewrite E1, <-raw_framing in Ht. rewrite Ht in Hr. apply raw_eq in Hr; [|done|by apply framing_ok].
  rewrite Hr, framing_bodies. apply fmap_drop.
Qed.

(** C20: the conversation. In every state of the chat, whatever the interleaving, the
    connections that fail and what is typed: every completion is handled. The room
    has delivered one sequence of messages; what it contains of a client are the first
    of the lines that were typed there, each once and in order, and nothing that was not
    typed. Every client shows, a line each, the first messages of that same sequence
    from the hundredth before it joined on, and nothing before it was accepted. When a
    client has nothing left to send and nothing is on the way, all its lines are in the
    conversation; when a participant has been sent and has read everything, it shows
    all of it. *)
Theorem chat_conversation σ :
  reachable σ →
  (∀ ev, enabled σ ev = true → ∃ σ', handle σ ev = Ret σ' ∧ reachable σ') ∧
  msg_body <$> ChatServer.log (room_ σ) = (said σ).*2 ∧
  (∀ x, x ∈ said σ → is_Some (clients σ !! x.1)) ∧
  ∀ i cin c, clients σ !! i = Some (cin, c) →
    ChatClient.typed c `prefix_of` ChatClient.cin_lines (S (length cin)) cin ∧
    words_of i (said σ) `prefix_of` ChatClient.typed c ∧
    match ChatServer.sessions (room_ σ) !! i with
    | None => ChatClient.cout c = []
    | Some s =>
        (∃ l, l `prefix_of` drop (ChatServer.since s - 100) (said σ).*2 ∧ ChatClient.cout c = display l) ∧
        (all_heard σ i c s → words_of i (said σ) = ChatClient.typed c) ∧
        (all_shown σ i c s → ChatClient.cout c = display (drop (ChatServer.since s - 100) (said σ).*2))
    end.
Proof using Hcj Hsj.
  intros Hr. pose proof (system_inv σ Hr) as Hi. split_and!.
  - intros ev He. destruct (handle_defined σ ev Hi He) as (σ' & Hh). exists σ'. split; [done|]. by eapply reachable_event.
  - apply (carries_wires _ _ (inv_said _ Hi)).
  - intros [i text] Hx. cbn. pose proof (words_prefix σ i Hi) as Hp. destruct (clients σ !! i); [by eexists|].
    apply prefix_nil_inv in Hp. assert (text ∈ words_of i (said σ)) as Hin; [|by rewrite Hp in Hin; apply elem_of_nil in Hin].
    apply list_elem_of_fmap. exists (i, text). split; [done|]. by apply list_elem_of_filter.
  - intros i cin c Hc. pose proof (words_prefix σ i Hi) as Hp. rewrite Hc in Hp.
    destruct (shown_prefix σ i cin c Hi Hc) as [Hcout Hsh]. split_and!; [|done|].
    + rewrite (ChatClient.inv_typing _ _ _ (inv_clients _ Hi _ _ _ Hc)). by apply prefix_app_r.
    + destruct (ChatServer.sessions (room_ σ) !! i) as [s|] eqn:Es; [|by rewrite Hcout, Hsh]. split_and!.
      * eauto.
      * by apply (all_heard_words σ i cin c s).
      * intros Ha. rewrite Hcout. f_equal. by apply (all_shown_display σ i cin c s).
Qed.

End Reachable.

(** ** Runs *)

Fixpoint run (σ : system) (evs : list event) : option system :=
  match evs with
  | [] => Some σ
  | ev :: evs =>
      if enabled σ ev then match handle σ ev with Ret σ => run σ evs | _ => None end else None
  end.

Lemma run_reachable σ evs σ' : reachable σ → run σ evs = Some σ' → reachable σ'.
Proof.
  revert σ. induction evs as [|ev evs IH]; intros σ Hr; cbn; [congruence|].
  destruct (enabled σ ev) eqn:He; [|done]. destruct (handle σ ev) as [σ1| |] eqn:Hh; [|done..].
  apply IH. by eapply reachable_event.
Qed.

End System.

End ChatSystem.

(** ** Two clients talk *)
Module ChatSystemExamples.
Import ChatSystem.

Definition zeros : bytes := replicate 516 (chr 0).

(** The first client says something before the second one is there, which shows it too. *)
Definition talk : list event :=
  let fine := Asio.success in
  let good := HttpConnection.success in
  [started 0 (lit "hello" ++ [newline]); connected 0 fine; accepted good;
   typing 0; posted 0; client_write 0 fine 9;
   session_header 0 good 4; session_body 0 good 5;
   started 1 (lit "hi" ++ [newline]); accepted good; connected 1 fine; typing 1; posted 1; client_write 1 fine 6;
   session_write 1 good 9; client_header 1 fine 4; client_body 1 fine 5;
   session_header 1 good 4; session_body 1 good 2;
   session_write 0 good 9; session_write 0 good 6; session_write 1 good 6;
   client_header 0 fine 4; client_body 0 fine 5; client_header 0 fine 4; client_body 0 fine 2;
   client_header 1 fine 4; client_body 1 fine 2].

Definition talked : option system := run zeros zeros system_new talk.

Definition consoles (σ : system) : list (option bytes) :=
  (λ i, (λ x, ChatClient.cout x.2) <$> clients σ !! i) <$> [0; 1].

Example talked_shown :
  (λ σ, (said σ, consoles σ)) <$> talked =
    Some ([(0, lit "hello"); (1, lit "hi")],
          replicate 2 (Some (lit "hello" ++ [newline] ++ lit "hi" ++ [newline]))).
Proof. vm_compute. reflexivity. Qed.

(** Where the second client is at the end. *)
Definition second (σ : system) : option (ChatClient.chat_client * ChatServer.session) :=
  x ← clients σ !! 1; s ← ChatServer.sessions (room_ σ) !! 1; Some (x.2, s).

Definition settled (σ : system) : bool :=
  match second σ with
  | Some (c, s) =>
      bool_decide (1 ∈ ChatServer.participants_ (room_ σ)) && negb (ChatServer.writing s) &&
      bool_decide (arrived (down σ !!! 1) = []) &&
      match ChatClient.reads c with ChatClient.read_header => true | _ => false end
  | None => false
  end.

Lemma second_lookup σ c s :
  second σ = Some (c, s) →
  ∃ cin, clients σ !! 1 = Some (cin, c) ∧ ChatServer.sessions (room_ σ) !! 1 = Some s.
Proof.
  unfold second. destruct (clients σ !! 1) as [[cin c']|]; [|done]. cbn.
  destruct (ChatServer.sessions (room_ σ) !! 1); [|done]. intros [= -> ->]. eauto.
Qed.

Lemma settled_shown σ c s : settled σ = true → second σ = Some (c, s) → all_shown σ 1 c s.
Proof.
  unfold settled. intros H E. rewrite E in H. rewrite !andb_true_iff in H. destruct H as [[[H1 H2] H3] H4].
  apply bool_decide_eq_true in H1, H3. apply negb_true_iff in H2. split_and!; [done..|]. by destruct (ChatClient.reads c).
Qed.

Lemma chat_conversation_witness :
  ∃ σ c s, talked = Some σ ∧ second σ = Some (c, s) ∧
    ChatClient.cout c = display (drop (ChatServer.since s - 100) (said σ).*2).
Proof.
  assert (settled <$> talked = Some true) as Hq by (vm_compute; reflexivity).
  destruct talked as [σ|] eqn:E; [|discriminate Hq]. injection Hq as Hq.
  assert (reachable zeros zeros σ) as Hr by exact (run_reachable zeros zeros _ talk σ (reachable_new zeros zeros) E).
  clear E. destruct (second σ) as [[c s]|] eqn:Es; [|unfold settled in Hq; rewrite Es in Hq; discriminate Hq].
  exists σ, c, s. split; [reflexivity|]. split; [exact Es|].
  destruct (second_lookup σ c s Es) as (cin & Ec & Ess).
  destruct (chat_conversation zeros zeros eq_refl eq_refl σ Hr) as (_ & _ & _ & H).
  specialize (H 1 cin c Ec). rewrite Ess in H. apply H. by apply settled_shown.
Defined.

End ChatSystemExamples.
