(* ===== verification/Timers.v ===== *)
(** * Clocks for timers

    (src/doc_searcher/data/input/html/boost_asio/example/timers/{tick_count_timer,
    time_t_timer}.cpp.) A timer takes its notion of time from a traits class: the
    current time, adding a duration, subtracting two times, and comparing them. The
    tick count of Windows has 32 bits and wraps around every 49.7 days. *)

From S2P Require Import Prelude.
#[local] Open Scope Z_scope.

(** The interface: what the deadline timer of Asio asks of a clock. A time stands for
    the instants it may be the reading of. *)
Class TimeTraits (time_type duration_type : Type) := {
  add : time_type → duration_type → time_type;
  subtract : time_type → time_type → duration_type;
  less_than : time_type → time_type → bool;
}.

(** A timer that waits until [less_than now expiry] is false. *)
Definition expired {T D} {TT : TimeTraits T D} (now expiry : T) : bool := negb (less_than now expiry).

(** ** tick_count_traits *)
Module TickCount.

(** DWORD and LONG; conversion between them keeps the 32 bits. *)
Definition DWORD_MOD : Z := 2 ^ 32.
Definition to_dword (z : Z) : Z := z mod DWORD_MOD.
Definition to_long (z : Z) : Z := (z + 2 ^ 31) mod DWORD_MOD - 2 ^ 31.

Record time_type := mkTime { ticks_ : Z }.
Record duration_type := mkDuration { dticks_ : Z }.

(** [now]: the tick count at an instant, in milliseconds since the start. *)
Definition now (instant : Z) : time_type := mkTime (to_dword instant).

Definition tick_add (t : time_type) (d : duration_type) : time_type :=
  mkTime (to_dword (ticks_ t + to_dword (dticks_ d))).

(** [t2.ticks_ - t1.ticks_ < static_cast<DWORD>(1 << 31)] *)
Definition tick_less_than (t1 t2 : time_type) : bool := to_dword (ticks_ t2 - ticks_ t1) <? 2 ^ 31.

Definition tick_subtract (t1 t2 : time_type) : duration_type :=
  mkDuration (if tick_less_than t1 t2 then - to_long (to_dword (ticks_ t2 - ticks_ t1))
              else to_long (to_dword (ticks_ t1 - ticks_ t2))).

(** [to_posix_duration], in milliseconds. *)
Definition to_posix_duration (d : duration_type) : Z := dticks_ d.

#[export] Instance tick_count_traits : TimeTraits time_type duration_type := {
  add := tick_add; subtract := tick_subtract; less_than := tick_less_than;
}.

(** The difference of two readings depends on the instants only. *)
Lemma dword_diff a b : to_dword (ticks_ (now a) - ticks_ (now b)) = to_dword (a - b).
Proof. unfold now, to_dword. cbn. by rewrite <-Zminus_mod. Qed.

Lemma dword_small z : 0 <= z < DWORD_MOD → to_dword z = z.
Proof. intros H. by apply Z.mod_small. Qed.

Lemma dword_neg z : - DWORD_MOD <= z < 0 → to_dword z = z + DWORD_MOD.
Proof.
  intros H. unfold to_dword. rewrite <-(Z_mod_plus_full z 1). apply Z.mod_small. unfold DWORD_MOD in *. lia.
Qed.

Lemma long_small z : 0 <= z < 2 ^ 31 → to_long z = z.
Proof. intros H. unfold to_long, DWORD_MOD. rewrite Z.mod_small; lia. Qed.

Lemma less_than_instants a b :
  - 2 ^ 31 < b - a < 2 ^ 31 → tick_less_than (now a) (now b) = (a <=? b).
Proof.
  intros H. unfold tick_less_than. rewrite dword_diff. destruct (Z.leb_spec a b).
  - rewrite dword_small by (unfold DWORD_MOD; lia). apply Z.ltb_lt. lia.
  - rewrite dword_neg by (unfold DWORD_MOD; lia). apply Z.ltb_ge. unfold DWORD_MOD. lia.
Qed.

(** The 32 bit clock is right across its wrap-around. For instants less than
    2^31 milliseconds apart, however often the tick count has wrapped in between:
    adding a duration to the time read gives the reading at the later instant;
    subtracting two readings gives the exact difference, in the range of LONG; and
    [less_than] holds when the first instant is not after the second. So a timer
    set to expire [d] milliseconds after [a] has expired at the instant [b] exactly
    when [b] is later than [a + d]. *)
Theorem tick_count_exact a b d :
  - 2 ^ 31 < b - a < 2 ^ 31 → 0 <= d < 2 ^ 31 → - 2 ^ 31 < b - (a + d) < 2 ^ 31 →
  add (now a) (mkDuration d) = now (a + d) ∧
  subtract (now b) (now a) = mkDuration (b - a) ∧
  (less_than (now a) (now b) = true ↔ a <= b) ∧
  (expired (now b) (add (now a) (mkDuration d)) = true ↔ a + d < b).
Proof.
  intros Hab Hd Hbd.
  assert (tick_add (now a) (mkDuration d) = now (a + d)) as Hadd.
  { unfold tick_add, now, to_dword. cbn. by rewrite <-Zplus_mod. }
  cbn [add subtract less_than tick_count_traits]. unfold expired. cbn [add less_than tick_count_traits].
  rewrite Hadd. split_and!; [done| | |].
  - unfold tick_subtract. rewrite less_than_instants, !dword_diff by lia. f_equal.
    destruct (Z.leb_spec b a).
    + rewrite dword_small by (unfold DWORD_MOD; lia). rewrite long_small by lia. lia.
    + rewrite dword_small by (unfold DWORD_MOD; lia). by rewrite long_small by lia.
  - rewrite less_than_instants by lia. apply Z.leb_le.
  - rewrite negb_true_iff, less_than_instants by lia. apply Z.leb_gt.
Qed.

(** The comparison is not strict, unlike its name and that of every other clock: a
    time is less than itself, and the timer is late by one tick. *)
Lemma not_strict t : less_than t t = true.
Proof. cbn. unfold tick_less_than. by rewrite Z.sub_diag. Qed.

Lemma tick_count_witness :
  subtract (now (2 ^ 32 + 5)) (now (2 ^ 32 - 5)) = mkDuration 10 ∧
  less_than (now (2 ^ 32 - 5)) (now (2 ^ 32 + 5)) = true.
Proof.
  destruct (tick_count_exact (2 ^ 32 - 5) (2 ^ 32 + 5) 7) as (_ & H1 & H2 & _); [lia..|].
  split; [exact H1|]. apply H2. lia.
Defined.

End TickCount.

(** ** time_t_traits: a 64 bit [std::time_t], whose overflow is undefined. *)
Module TimeT.

Definition time_ok (z : Z) : bool := (- 2 ^ 63 <=? z) && (z <? 2 ^ 63).
Definition time_res (z : Z) : outcome Z := if time_ok z then Ret z else Undef IntOverflow.

(** [now]: the seconds at an instant, in milliseconds. *)
Definition time_now (instant : Z) : Z := instant / 1000.
(** [to_posix_duration], in seconds. *)
Definition time_to_posix_duration (d : Z) : Z := d.

Definition time_add (t d : Z) : outcome Z := time_res (t + d).
Definition time_subtract (t1 t2 : Z) : outcome Z := time_res (t1 - t2).
Definition time_less_than (t1 t2 : Z) : bool := t1 <? t2.

Lemma time_res_ok z : - 2 ^ 63 < z < 2 ^ 63 → time_res z = Ret z.
Proof.
  intros Hz. unfold time_res, time_ok. rewrite (proj2 (Z.leb_le _ _)) by lia.
  by rewrite (proj2 (Z.ltb_lt _ _)) by lia.
Qed.

(** The operations agree with those on numbers wherever they are defined, and they
    are for all times and durations of less than 2^62 seconds. *)
Lemma time_t_exact t d :
  - 2 ^ 62 < t < 2 ^ 62 → - 2 ^ 62 < d < 2 ^ 62 →
  time_add t d = Ret (t + d) ∧ (t' ← time_add t d; time_subtract t' t) = Ret d ∧
  (time_less_than t (t + d) = true ↔ 0 < d).
Proof.
  intros Ht Hd. unfold time_add, time_subtract. rewrite !time_res_ok by lia. cbn.
  replace (t + d - t) with d by lia. rewrite time_res_ok by lia. split_and!; [done..|].
  unfold time_less_than. rewrite Z.ltb_lt. lia.
Qed.

End TimeT.

(** ** The programs

    A wait ends at an instant at which the timer has expired; the console shows what
    was done. *)
Module TimerPrograms.
#[local] Existing Instance TickCount.tick_count_traits.

Section Program.
(** The expiry time set at an instant, and whether a timer has expired at one. *)
Context {T : Type} (expires_from_now : Z → outcome T) (due : Z → T → bool).

(** A wait, synchronous or not, for a timer set at [t0] ends at [t1]. *)
Definition waits (t0 t1 : Z) : Prop := ∃ e, expires_from_now t0 = Ret e ∧ t0 <= t1 ∧ due t1 e = true.

(** [main], with the instants at which it sets its timer and at which its two waits
    end; the timer is set again right after the first. *)
Definition main (t0 t1 t2 : Z) (out : list string) : Prop :=
  waits t0 t1 ∧ waits t1 t2 ∧
  out = ["Starting synchronous wait"; "Finished synchronous wait"; "Starting asynchronous wait"; "handle_timeout";
         "Finished asynchronous wait"]%string.

End Program.

(** tick_count_timer.cpp and time_t_timer.cpp. *)
Definition tick_main : Z → Z → Z → list string → Prop :=
  main (λ t, Ret (add (TickCount.now t) (TickCount.mkDuration 5000))) (λ t e, expired (TickCount.now t) e).
Definition time_t_main : Z → Z → Z → list string → Prop :=
  main (λ t, TimeT.time_add (TimeT.time_now t) 5) (λ t e, negb (TimeT.time_less_than (TimeT.time_now t) e)).

(** How long a wait takes by either clock. *)
Lemma tick_waits t0 t1 :
  t1 - t0 < 2 ^ 31 →
  waits (λ t, Ret (add (TickCount.now t) (TickCount.mkDuration 5000))) (λ t e, expired (TickCount.now t) e) t0 t1 ↔
  t0 + 5000 < t1.
Proof.
  intros Hd. unfold waits. cbn [add TickCount.tick_count_traits].
  assert (TickCount.tick_add (TickCount.now t0) (TickCount.mkDuration 5000) = TickCount.now (t0 + 5000)) as ->.
  { unfold TickCount.tick_add, TickCount.now, TickCount.to_dword. cbn. by rewrite <-Zplus_mod. }
  unfold expired. cbn [less_than TickCount.tick_count_traits]. split.
  - intros (e & [= <-] & Hle & He). apply negb_true_iff in He.
    rewrite TickCount.less_than_instants in He by lia. by apply Z.leb_gt in He.
  - intros Hlt. eexists. split_and!; [reflexivity|lia|]. rewrite TickCount.less_than_instants by lia.
    apply negb_true_iff, Z.leb_gt. lia.
Qed.

Lemma time_t_waits t0 t1 :
  0 <= t0 < 2 ^ 62 →
  waits (λ t, TimeT.time_add (TimeT.time_now t) 5) (λ t e, negb (TimeT.time_less_than (TimeT.time_now t) e)) t0 t1 ↔
  t0 / 1000 + 5 <= t1 / 1000.
Proof.
  intros Ht. unfold waits, TimeT.time_add, TimeT.time_now.
  assert (0 <= t0 / 1000 < 2 ^ 62) as Hq by (split; [apply Z.div_pos|apply Z.div_lt_upper_bound]; lia).
  rewrite TimeT.time_res_ok by lia. unfold TimeT.time_less_than. split.
  - intros (e & [= <-] & _ & He). apply negb_true_iff in He. by apply Z.ltb_ge in He.
  - intros Hle. eexists. split_and!; [reflexivity| |apply negb_true_iff; by apply Z.ltb_ge].
    pose proof (Z.div_mod t0 1000). pose proof (Z.div_mod t1 1000).
    pose proof (Z.mod_pos_bound t0 1000). pose proof (Z.mod_pos_bound t1 1000). lia.
Qed.

(** How long the programs wait. Both print the same five lines. With the tick count,
    for waits of less than 2^31 milliseconds, a wait ends only when more than 5000
    milliseconds have passed, at any such instant, whether or not the count wraps
    around meanwhile. With [time_t], which counts whole seconds, a wait for five
    seconds may end after little more than four, and may end at any instant five seconds
    after it began or later. *)
Theorem timers_wait t0 t1 t2 out :
  0 <= t0 → t0 <= t1 <= t2 → t1 < 2 ^ 62 → t1 - t0 < 2 ^ 31 → t2 - t1 < 2 ^ 31 →
  (tick_main t0 t1 t2 out → t0 + 5000 < t1 ∧ t1 + 5000 < t2 ∧ length out = 5%nat) ∧
  (t0 + 5000 < t1 → t1 + 5000 < t2 → ∃ out, tick_main t0 t1 t2 out) ∧
  (time_t_main t0 t1 t2 out → t0 + 4000 < t1 ∧ t1 + 4000 < t2 ∧ length out = 5%nat) ∧
  (t0 + 5000 <= t1 → t1 + 5000 <= t2 → ∃ out, time_t_main t0 t1 t2 out).
Proof.
  intros H0 Ho Hm H1 H2. unfold tick_main, time_t_main, main.
  rewrite !tick_waits, !time_t_waits by lia.
  pose proof (Z.div_mod t0 1000). pose proof (Z.div_mod t1 1000). pose proof (Z.div_mod t2 1000).
  pose proof (Z.mod_pos_bound t0 1000). pose proof (Z.mod_pos_bound t1 1000). pose proof (Z.mod_pos_bound t2 1000).
  split_and!.
  - intros (Hf & Hs & ->). split_and!; [lia|lia|reflexivity].
  - intros Hf Hs. eexists. split_and!; [apply tick_waits; lia|apply tick_waits; lia|reflexivity].
  - intros (Hf & Hs & ->). split_and!; [lia|lia|reflexivity].
  - intros Hf Hs. eexists. split_and!; [apply time_t_waits; lia|apply time_t_waits; lia|reflexivity].
Qed.

(** A [time_t] wait of 4.001 seconds. *)
Example short_wait : ∃ out, time_t_main 999 5000 10000 out.
Proof.
  eexists. split_and!; [apply time_t_waits; [lia|by vm_compute]|apply time_t_waits; [lia|by vm_compute]|reflexivity].
Qed.

Lemma timers_wait_witness : ∃ out, tick_main (2 ^ 32 - 1) (2 ^ 32 + 5000) (2 ^ 32 + 10001) out.
Proof.
  apply (timers_wait (2 ^ 32 - 1) (2 ^ 32 + 5000) (2 ^ 32 + 10001) []); lia.
Defined.

End TimerPrograms.
