(* ===== verification/Fork.v ===== *)
(** * A process for each connection

    (src/doc_searcher/data/input/html/boost_asio/example/fork/
    process_per_connection.cpp.) The server forks for each connection it has accepted:
    the child serves it, the parent goes on accepting. Both run the same object of class
    server, of which the child has a copy; which of the two a handler runs in shows
    in whether the acceptor is open. *)

From S2P Require Import Prelude CxxString Asio.
Import Asio.

Module Fork.

(** The operation on the socket of a process. *)
Inductive chain := idle | reading | writing (length : nat).

(** A process: its copy of the server, with the operations that are outstanding. *)
Record server := mkServer {
  acceptor_open : bool;
  accepting : bool;
  signal_wait : bool;         (* async_wait is outstanding *)
  cancelled : bool;           (* and has been cancelled *)
  socket_ : option nat;       (* the connection, if the socket is open *)
  ops : chain;
  data_ : bytes;
}.

Definition start_signal_wait (p : server) : server :=
  mkServer (acceptor_open p) (accepting p) true false (socket_ p) (ops p) (data_ p).
Definition start_accept (p : server) : server :=
  mkServer (acceptor_open p) true (signal_wait p) (cancelled p) (socket_ p) (ops p) (data_ p).
Definition start_read (p : server) : server :=
  mkServer (acceptor_open p) (accepting p) (signal_wait p) (cancelled p) (socket_ p) reading (data_ p).
Definition start_write (p : server) (length : nat) : server :=
  mkServer (acceptor_open p) (accepting p) (signal_wait p) (cancelled p) (socket_ p) (writing length) (data_ p).

Definition server_new : server :=
  start_accept (start_signal_wait (mkServer true false false false None idle [])).

(** [acceptor_.close()], [signal_.cancel()], [socket_.close()] *)
Definition close_acceptor (p : server) : server :=
  mkServer false (accepting p) (signal_wait p) (cancelled p) (socket_ p) (ops p) (data_ p).
Definition cancel_signal (p : server) : server :=
  mkServer (acceptor_open p) (accepting p) (signal_wait p) true (socket_ p) (ops p) (data_ p).
Definition close_socket (p : server) : server :=
  mkServer (acceptor_open p) (accepting p) (signal_wait p) (cancelled p) None (ops p) (data_ p).

(** The machine: the processes, children that have ended and were not waited for,
    whether SIGCHLD is to be delivered to the parent, and what was read from and
    written to each connection. *)
Record machine := mkMachine {
  procs : gmap nat server;
  next_pid : nat;
  zombies : nat;
  sigchld : bool;
  wires : gmap nat (bytes * bytes);
  next_conn : nat;
}.

Definition put (v : machine) (pid : nat) (p : server) : machine :=
  mkMachine (<[pid := p]> (procs v)) (next_pid v) (zombies v) (sigchld v) (wires v) (next_conn v).
Definition record (v : machine) (conn : nat) (got sent : bytes) : machine :=
  mkMachine (procs v) (next_pid v) (zombies v) (sigchld v)
    (<[conn := let '(a, b) := default ([], []) (wires v !! conn) in (a ++ got, b ++ sent)]> (wires v)) (next_conn v).

(** [handle_signal_wait]: the loop of [waitpid] takes all children that have ended. *)
Definition handle_signal_wait (v : machine) (pid : nat) (p : server) : machine :=
  let p := mkServer (acceptor_open p) (accepting p) false false (socket_ p) (ops p) (data_ p) in
  if acceptor_open p then
    put (mkMachine (procs v) (next_pid v) 0 false (wires v) (next_conn v)) pid (start_signal_wait p)
  else put v pid p.

(** [handle_accept]: the accepted connection is in the socket; [forks] tells whether
    [fork] succeeds. When it fails it returns a value other than 0. *)
Definition handle_accept (v : machine) (pid : nat) (p : server) (ec : error_code) (forks : bool) : machine :=
  let p := mkServer (acceptor_open p) false (signal_wait p) (cancelled p) (socket_ p) (ops p) (data_ p) in
  if failed ec then put v pid (start_accept p)
  else
    let conn := next_conn v in
    let p := mkServer (acceptor_open p) (accepting p) (signal_wait p) (cancelled p) (Some conn) (ops p) (data_ p) in
    let v := mkMachine (procs v) (next_pid v) (zombies v) (sigchld v) (<[conn := ([], [])]> (wires v)) (S conn) in
    let child := start_read (cancel_signal (close_acceptor p)) in
    let parent := start_accept (close_socket p) in
    let v := if forks then
               mkMachine (<[next_pid v := child]> (procs v)) (S (next_pid v)) (zombies v) (sigchld v) (wires v)
                 (next_conn v)
             else v in
    put v pid parent.

(** [handle_read] and [handle_write] on connection [conn]. *)
Definition handle_read (v : machine) (pid : nat) (p : server) (conn : nat) (ec : error_code) (data : bytes) : machine :=
  let p := mkServer (acceptor_open p) (accepting p) (signal_wait p) (cancelled p) (socket_ p) idle data in
  if failed ec then put v pid p else put (record v conn data []) pid (start_write p (length data)).

Definition handle_write (v : machine) (pid : nat) (p : server) (conn : nat) (ec : error_code) (n : nat) : machine :=
  let p := mkServer (acceptor_open p) (accepting p) (signal_wait p) (cancelled p) (socket_ p) idle (data_ p) in
  let v := record v conn [] (take n (data_ p)) in
  if failed ec then put v pid p else put v pid (start_read p).

(** A process with nothing outstanding ends; its parent is sent SIGCHLD. *)
Definition process_exit (v : machine) (pid : nat) : machine :=
  mkMachine (delete pid (procs v)) (next_pid v) (S (zombies v)) true (wires v) (next_conn v).

Inductive step : machine → machine → Prop :=
  | step_accept v pid p ec forks :
      procs v !! pid = Some p → accepting p = true → step v (handle_accept v pid p ec forks)
  | step_signal v pid p :
      procs v !! pid = Some p → signal_wait p = true →
      cancelled p = true ∨ (pid = 0 ∧ sigchld v = true) → step v (handle_signal_wait v pid p)
  | step_read v pid p conn ec data :
      procs v !! pid = Some p → socket_ p = Some conn → ops p = reading →
      (failed ec = false → 0 < length data ≤ 1024) → step v (handle_read v pid p conn ec data)
  | step_write v pid p conn ec n k :
      procs v !! pid = Some p → socket_ p = Some conn → ops p = writing k → n ≤ k →
      (failed ec = false → n = k) → step v (handle_write v pid p conn ec n)
  | step_exit v pid p :
      procs v !! pid = Some p → accepting p = false → signal_wait p = false → ops p = idle →
      step v (process_exit v pid).

Definition machine_new : machine := mkMachine {[0 := server_new]} 1 0 false ∅ 0.

Definition reachable : machine → Prop := rtc step machine_new.

(** ** The invariant *)

(** A child serves a connection and has written back what it has read. *)
Record child_ok (v : machine) (p : server) (conn : nat) : Prop := {
  child_closed : acceptor_open p = false ∧ accepting p = false;
  child_signal : signal_wait p = true → cancelled p = true;
  child_conn : socket_ p = Some conn ∧ conn < next_conn v;
  child_echo : ∃ got sent, wires v !! conn = Some (got, sent) ∧
    match ops p with
    | idle => sent `prefix_of` got
    | reading => got = sent
    | writing k => got = sent ++ data_ p ∧ k = length (data_ p)
    end;
}.

Record inv (v : machine) : Prop := {
  inv_parent : procs v !! 0 = Some server_new;
  inv_child : ∀ pid p, procs v !! pid = Some p → pid ≠ 0 → pid < next_pid v ∧ ∃ conn, child_ok v p conn;
  inv_apart : ∀ i j p q conn, procs v !! i = Some p → procs v !! j = Some q →
    socket_ p = Some conn → socket_ q = Some conn → i = j;
  inv_next : 0 < next_pid v;
  inv_zombies : zombies v > 0 → sigchld v = true;
  inv_wires : ∀ conn got sent, wires v !! conn = Some (got, sent) → conn < next_conn v ∧ sent `prefix_of` got;
}.

Lemma child_ok_mono v v' p conn :
  child_ok v p conn → wires v' !! conn = wires v !! conn → next_conn v ≤ next_conn v' → child_ok v' p conn.
Proof.
  intros [Hc Hs [Hconn Hlt] He] Hw Hn. split; [done..| |by rewrite Hw]. split; [done|lia].
Qed.

(** A child that has run a handler. *)
Lemma inv_child_step v pid p conn p' w :
  inv v → procs v !! pid = Some p → pid ≠ 0 → socket_ p = Some conn → socket_ p' = Some conn →
  (∀ c, c ≠ conn → w !! c = wires v !! c) → (∀ got sent, w !! conn = Some (got, sent) → sent `prefix_of` got) →
  child_ok (mkMachine (<[pid := p']> (procs v)) (next_pid v) (zombies v) (sigchld v) w (next_conn v)) p' conn →
  inv (mkMachine (<[pid := p']> (procs v)) (next_pid v) (zombies v) (sigchld v) w (next_conn v)).
Proof.
  intros [Hp Hc Ha Hn Hz Hwi] Hpid Hne Hs Hs' Hw Hpre Hok. split; cbn; try done.
  - by rewrite lookup_insert_ne.
  - intros i q [[<- <-]|[Hi Hq]]%lookup_insert_Some Hi0.
    + split; [by apply (Hc pid p)|]. eauto.
    + destruct (Hc i q Hq Hi0) as [Hlt [c Hcok]]. split; [done|]. exists c.
      eapply child_ok_mono; [exact Hcok| |done]. cbn. apply Hw. intros ->.
      apply Hi. symmetry. eapply Ha; [exact Hq|exact Hpid| |exact Hs]. apply Hcok.
  - intros i j q r c Hi Hj Hq Hr.
    apply lookup_insert_Some in Hi as [[<- <-]|[Hi0 Hi]]; apply lookup_insert_Some in Hj as [[<- <-]|[Hj0 Hj]].
    + done.
    + rewrite Hs' in Hq. injection Hq as <-. by apply (Ha pid j p r conn).
    + rewrite Hs' in Hr. injection Hr as <-. by apply (Ha i pid q p conn).
    + by apply (Ha i j q r c).
  - intros c got sent Hx. destruct (decide (c = conn)) as [->|Hcne].
    + split; [|by apply Hpre]. destruct Hok as [_ _ [_ Hlt] _]. exact Hlt.
    + rewrite Hw in Hx by done. by apply (Hwi c).
Qed.

Lemma fork_inv_accept v ec forks : inv v → inv (handle_accept v 0 server_new ec forks).
Proof.
  intros Hi. pose proof Hi as [Hp Hc Ha Hn Hz Hwi]. unfold handle_accept.
  destruct (failed ec).
  { unfold put. change (start_accept _) with server_new. rewrite insert_id by done. by destruct v. }
  assert (∀ i q, procs v !! i = Some q → i < next_pid v ∧ (∀ c, socket_ q = Some c → c < next_conn v)) as Hall.
  { intros i q Hq. destruct (decide (i = 0)) as [->|Hi0].
    - rewrite Hp in Hq. injection Hq as <-. split; [done|]. by intros c [=].
    - destruct (Hc i q Hq Hi0) as [? [c [_ _ [Hs Hl] _]]]. split; [done|]. intros c'. rewrite Hs. by intros [= <-]. }
  set (parent := start_accept (close_socket _)). change parent with server_new. clear parent.
  set (child := start_read _).
  assert (∀ c, socket_ child = Some c → c = next_conn v) as Hchild by (by intros c [= <-]).
  assert (∀ c got sent, <[next_conn v := ([], [])]> (wires v) !! c = Some (got, sent) →
            c < S (next_conn v) ∧ sent `prefix_of` got) as Hw.
  { intros c got sent [[<- [= <- <-]]|[_ Hx]]%lookup_insert_Some; [split; [lia|done]|].
    destruct (Hwi c got sent Hx). split; [lia|done]. }
  assert (∀ ps np q c, child_ok v q c → child_ok (mkMachine ps np (zombies v) (sigchld v)
            (<[next_conn v := ([], [])]> (wires v)) (S (next_conn v))) q c) as Hmono.
  { intros ps np q c Hq. eapply child_ok_mono; [exact Hq| |cbn; lia]. cbn.
    destruct Hq as [_ _ [_ Hlt] _]. rewrite lookup_insert_ne; [done|lia]. }
  destruct forks; unfold put; cbn [procs next_pid zombies sigchld wires next_conn].
  - split; cbn; try done; try lia; [by rewrite lookup_insert_eq| |].
    + intros i q [[<- _]|[_ Hq]]%lookup_insert_Some Hi0; [done|].
      apply lookup_insert_Some in Hq as [[<- <-]|[_ Hq]].
      * split; [lia|]. exists (next_conn v). split; cbn; try done; [split; [done|lia]|].
        exists [], []. by rewrite lookup_insert_eq.
      * destruct (Hc i q Hq Hi0) as [Hlt [c Hcok]]. split; [lia|]. exists c. by apply Hmono.
    + intros i j q r c Hi' Hj' Hq Hr.
      apply lookup_insert_Some in Hi' as [[_ <-]|[_ Hi']]; [done|].
      apply lookup_insert_Some in Hj' as [[_ <-]|[_ Hj']]; [done|].
      apply lookup_insert_Some in Hi' as [[<- <-]|[_ Hi']]; apply lookup_insert_Some in Hj' as [[<- <-]|[_ Hj']].
      * done.
      * apply Hchild in Hq. subst c. apply (proj2 (Hall j r Hj')) in Hr. lia.
      * apply Hchild in Hr. subst c. apply (proj2 (Hall i q Hi')) in Hq. lia.
      * by apply (Ha i j q r c).
  - rewrite insert_id by done. split; cbn; try done.
    intros i q Hq Hi0. destruct (Hc i q Hq Hi0) as [Hlt [c Hcok]]. split; [done|]. exists c. by apply Hmono.
Qed.

(** The processes that accept, and those that wait for a signal that is not
    cancelled, are the parent. *)
Lemma accepting_parent v pid p :
  inv v → procs v !! pid = Some p → accepting p = true → pid = 0 ∧ p = server_new.
Proof.
  intros Hi Hp Hacc. destruct (decide (pid = 0)) as [->|Hne].
  - rewrite (inv_parent _ Hi) in Hp. by injection Hp as <-.
  - destruct (inv_child _ Hi pid p Hp Hne) as [_ [c [[_ Hf] _ _ _]]]. congruence.
Qed.

Lemma fork_inv_signal v pid p :
  inv v → procs v !! pid = Some p → inv (handle_signal_wait v pid p).
Proof.
  intros Hi Hp.
  unfold handle_signal_wait. destruct (decide (pid = 0)) as [->|Hne].
  + rewrite (inv_parent _ Hi) in Hp. injection Hp as <-. cbn [server_new acceptor_open start_accept start_signal_wait].
    destruct Hi as [Hp0 Hc Ha Hn Hz Hwi]. unfold put. cbn [procs next_pid zombies sigchld wires next_conn].
    change (mkServer true true true false None idle []) with server_new. rewrite insert_id by done.
    split; cbn; try done; [|lia]. intros i q Hq Hi0. destruct (Hc i q Hq Hi0) as [? [c Hcok]].
    split; [done|]. exists c. by eapply child_ok_mono.
  + destruct (inv_child _ Hi pid p Hp Hne) as [Hlt [c Hok]]. destruct Hok as [[Hcl Hac] Hsig [Hsock Hcl2] He].
    cbn [acceptor_open]. rewrite Hcl. unfold put.
    apply (inv_child_step v pid p c); try done.
    * intros got sent Hx. by apply (inv_wires _ Hi c).
Qed.

Lemma fork_inv_read v pid p conn ec data :
  inv v → procs v !! pid = Some p → socket_ p = Some conn → ops p = reading →
  inv (handle_read v pid p conn ec data).
Proof.
  intros Hi Hp Hs Ho.
  assert (pid ≠ 0) as Hne by (intros ->; rewrite (inv_parent _ Hi) in Hp; by injection Hp as <-).
  destruct (inv_child _ Hi pid p Hp Hne) as [Hlt [c [[Hcl Hac] Hsig [Hsock Hcl2] He]]].
  rewrite Hs in Hsock. injection Hsock as <-. rewrite Ho in He. destruct He as (got & sent & Hwc & ->).
  unfold handle_read. destruct (failed ec); unfold put, record, start_write;
    cbn [procs next_pid zombies sigchld wires next_conn].
  + apply (inv_child_step v pid p conn); cbn; try done.
    * intros g t Hx. by apply (inv_wires _ Hi conn).
    * split; cbn; try done. exists sent, sent. by split.
  + rewrite Hwc. cbn [from_option id]. rewrite app_nil_r.
    apply (inv_child_step v pid p conn); cbn; try done.
    * intros c Hc. by rewrite lookup_insert_ne.
    * intros g t. rewrite lookup_insert_eq. intros [= <- <-]. by apply prefix_app_r.
    * split; cbn; try done. exists (sent ++ data), sent. by rewrite lookup_insert_eq.
Qed.

Lemma fork_inv_write v pid p conn ec n k :
  inv v → procs v !! pid = Some p → socket_ p = Some conn → ops p = writing k →
  (failed ec = false → n = k) → inv (handle_write v pid p conn ec n).
Proof.
  intros Hi Hp Hs Ho Hk.
  assert (pid ≠ 0) as Hne by (intros ->; rewrite (inv_parent _ Hi) in Hp; by injection Hp as <-).
  destruct (inv_child _ Hi pid p Hp Hne) as [Hlt [c [[Hcl Hac] Hsig [Hsock Hcl2] He]]].
  rewrite Hs in Hsock. injection Hsock as <-. rewrite Ho in He. destruct He as (got & sent & Hwc & -> & ->).
  unfold handle_write. cbn [data_]. destruct (failed ec); unfold put, record, start_read;
    cbn [procs next_pid zombies sigchld wires next_conn]; rewrite Hwc; cbn [from_option id]; rewrite app_nil_r.
  all: assert (sent ++ take n (data_ p) `prefix_of` sent ++ data_ p) as Hpre
    by (apply prefix_app; exists (drop n (data_ p)); by rewrite take_drop).
  all: apply (inv_child_step v pid p conn); cbn; try done;
    [intros c Hc; by rewrite lookup_insert_ne
    |intros g t; rewrite lookup_insert_eq; by intros [= <- <-]
    |split; cbn; try done; eexists _, _; rewrite lookup_insert_eq; split; [reflexivity|]].
  + done.
  + rewrite (Hk eq_refl). by rewrite firstn_all.
Qed.

Lemma fork_inv_exit v pid p :
  inv v → procs v !! pid = Some p → accepting p = false → inv (process_exit v pid).
Proof.
  intros Hi Hp Hacc.
  assert (pid ≠ 0) as Hne by (intros ->; rewrite (inv_parent _ Hi) in Hp; by injection Hp as <-).
  destruct Hi as [Hp0 Hc Ha Hn Hz Hwi]. unfold process_exit. split; cbn; try done.
  + by rewrite lookup_delete_ne.
  + intros i q [_ Hq]%lookup_delete_Some Hi0. destruct (Hc i q Hq Hi0) as [? [c Hcok]].
    split; [done|]. exists c. by eapply child_ok_mono.
  + intros i j q r c [_ Hi']%lookup_delete_Some [_ Hj']%lookup_delete_Some. by apply Ha.
Qed.

Lemma fork_inv_step v v' : inv v → step v v' → inv v'.
Proof.
  intros Hi Hst. destruct Hst as [v pid p ec forks Hp Hacc|v pid p Hp Hw Hs|v pid p conn ec data Hp Hs Ho Hd
    |v pid p conn ec n k Hp Hs Ho Hn Hk|v pid p Hp Hacc Hsw Ho].
  - destruct (accepting_parent v pid p Hi Hp Hacc) as [-> ->]. by apply fork_inv_accept.
  - by apply fork_inv_signal.
  - by apply fork_inv_read.
  - by eapply fork_inv_write.
  - by eapply fork_inv_exit.
Qed.

Lemma fork_inv v : reachable v → inv v.
Proof.
  intros Hr. assert (inv machine_new) as H0.
  { split; cbn; try done; try lia.
    - intros pid p [<- <-]%lookup_singleton_Some Hne. done.
    - intros i j p q conn [<- <-]%lookup_singleton_Some _. done. }
  induction Hr as [v|v1 v2 v3 Hst _ IH]; [done|]. apply IH. by eapply fork_inv_step.
Qed.

(** C30: the server with a process for each connection. In every reachable state
    there is one process whose acceptor is open, the first; it accepts and waits for
    SIGCHLD and serves nothing itself. Every other process serves one connection that
    no other process has, does not accept, and has written back what it has read,
    in order, but for the part it is writing. While there are children that have
    ended and were not waited for, the signal is on its way to the parent, and its
    handler leaves none. *)
Theorem process_per_connection v :
  reachable v →
  procs v !! 0 = Some server_new ∧
  (∀ pid p, procs v !! pid = Some p →
     (acceptor_open p = true ↔ pid = 0) ∧ (accepting p = true ↔ pid = 0) ∧
     (pid ≠ 0 → ∃ conn, child_ok v p conn)) ∧
  (∀ i j p q conn, procs v !! i = Some p → procs v !! j = Some q →
     socket_ p = Some conn → socket_ q = Some conn → i = j) ∧
  (∀ conn got sent, wires v !! conn = Some (got, sent) → sent `prefix_of` got) ∧
  (zombies v > 0 → step v (handle_signal_wait v 0 server_new)) ∧
  zombies (handle_signal_wait v 0 server_new) = 0.
Proof.
  intros Hr. pose proof (fork_inv v Hr) as Hi. pose proof Hi as [Hp Hc Ha Hn Hz Hwi]. split_and!; try done.
  - intros pid p Hpid. destruct (decide (pid = 0)) as [->|Hne].
    + rewrite Hp in Hpid. injection Hpid as <-. done.
    + destruct (Hc pid p Hpid Hne) as [_ [c Hok]]. pose proof (child_closed _ _ _ Hok) as [-> ->].
      split_and!; [done..|]. intros _. eauto.
  - intros c got sent Hx. by apply (Hwi c).
  - intros Hzz. apply (step_signal v 0 server_new); [done..|]. right. split; [done|]. by apply Hz.
Qed.

End Fork.

Module ForkExamples.
Import Fork.

(** A connection has been accepted and its child has read "hi". *)
Definition served : machine :=
  handle_read (handle_accept machine_new 0 server_new success true) 1
    (start_read (cancel_signal (close_acceptor (mkServer true false true false (Some 0) idle [])))) 0 success (lit "hi").

Lemma served_reachable : reachable served.
Proof.
  eapply rtc_l; [apply (step_accept machine_new 0 server_new success true); reflexivity|].
  eapply rtc_l; [|apply rtc_refl].
  apply step_read; [reflexivity..|]. intros _. cbn. lia.
Qed.

Lemma process_per_connection_witness :
  reachable served ∧ ∀ conn got sent, wires served !! conn = Some (got, sent) → sent `prefix_of` got.
Proof.
  split; [apply served_reachable|].
  exact (proj1 (proj2 (proj2 (proj2 (process_per_connection served served_reachable))))).
Defined.

End ForkExamples.
