(* ===== verification/Daemon.v ===== *)
(** * A daemon

    (src/doc_searcher/data/input/html/boost_asio/example/fork/daemon.cpp.) A server
    that answers datagrams with the time of day, and the steps by which its process
    detaches from the terminal that started it: two forks, a session of its own, and
    standard streams that go elsewhere. Processes are modelled as far as these steps
    change them, with POSIX's rules: the lowest descriptor that is not in use is the
    one opened, a process group leader cannot make a session, and only a session
    leader acquires a controlling terminal. What [io_service::notify_fork] does to the
    descriptors is a parameter, with what its documentation says as laws. *)

From S2P Require Import Prelude CxxString Asio.
Import Asio.

Module Daemon.

(** ** The server: class udp_daytime_server *)

Section Server.
(** [ctime], which ends in a newline. *)
Context (ctime : Z → bytes).

(** Whether a receive is outstanding, and what was sent, to whom. *)
Record udp_daytime_server := mkServer {
  receiving : bool;
  answers : list (nat * bytes);
}.

Definition start_receive (s : udp_daytime_server) : udp_daytime_server := mkServer true (answers s).

Definition udp_daytime_server_new : udp_daytime_server := start_receive (mkServer false []).

(** [handle_receive], with the sender's endpoint and the time. The datagram itself is
    not looked at: the buffer has one byte, and more of it may give [message_size]. *)
Definition handle_receive (s : udp_daytime_server) (ec : error_code) (remote_endpoint : nat) (now : Z) :
    udp_daytime_server :=
  let s := mkServer false (answers s) in
  let s := if negb (failed ec) || bool_decide (ec = message_size)
           then mkServer (receiving s) (answers s ++ [(remote_endpoint, ctime now)])
           else s in
  start_receive s.

(** What happens to the io_service: a receive completes, SIGINT or SIGTERM arrives, or
    [run] throws. *)
Inductive event :=
  | received (ec : error_code) (from : nat) (now : Z)
  | signalled
  | run_throws (e : error_code).

(** How [io_service.run()] comes back, if it does. *)
Inductive run_result := stopped | threw (e : error_code) | running.

Fixpoint run (s : udp_daytime_server) (es : list event) : udp_daytime_server * run_result :=
  match es with
  | [] => (s, running)
  | received ec from now :: es => run (handle_receive s ec from now) es
  | signalled :: _ => (s, stopped)
  | run_throws e :: _ => (s, threw e)
  end.

End Server.

(** ** Processes *)

(** An internal descriptor of the io_service is private to the process that opened it
    until that process forks. *)
Inductive file := Terminal | Internal (owner : nat) | UdpSocket | DevNull | LogFile | Inherited (n : nat).

Definition internal (f : file) : bool := match f with Internal _ => true | _ => false end.

Record process := mkProcess {
  pid : nat;
  pgid : nat;          (* its process group *)
  sid : nat;           (* its session *)
  tty : bool;          (* the session has a controlling terminal *)
  cwd : bytes;
  mask : Z;
  fds : gmap nat file; (* the descriptor table *)
}.

Definition with_fds (p : process) (m : gmap nat file) : process :=
  mkProcess (pid p) (pgid p) (sid p) (tty p) (cwd p) (mask p) m.

Lemma with_fds_twice p m m' : with_fds (with_fds p m) m' = with_fds p m'.
Proof. done. Qed.

(** The lowest number that is not in use. *)
Fixpoint first_free (fuel i : nat) (m : gmap nat file) : nat :=
  match fuel with
  | 0 => i
  | S fuel => match m !! i with Some _ => first_free fuel (S i) m | None => i end
  end.
Definition lowest (m : gmap nat file) : nat := first_free (size m) 0 m.

(** [open] and [close], and the descriptors an object opens. *)
Definition open (f : file) (p : process) : process := with_fds p (<[lowest (fds p) := f]> (fds p)).
Definition close (n : nat) (p : process) : process := with_fds p (delete n (fds p)).

(** [dup(n)], when [n] is open. *)
Definition dup (n : nat) (p : process) : option process :=
  match fds p !! n with Some f => Some (open f p) | None => None end.

(** [fork] in the child. *)
Definition child (p : process) (new_pid : nat) : process :=
  mkProcess new_pid (pgid p) (sid p) (tty p) (cwd p) (mask p) (fds p).

(** [setsid]: fails for the leader of a process group; its result is not looked at. *)
Definition setsid (p : process) : process :=
  if bool_decide (pid p = pgid p) then p
  else mkProcess (pid p) (pid p) (pid p) false (cwd p) (mask p) (fds p).
Definition chdir (d : bytes) (p : process) : process :=
  mkProcess (pid p) (pgid p) (sid p) (tty p) d (mask p) (fds p).
Definition umask (m : Z) (p : process) : process :=
  mkProcess (pid p) (pgid p) (sid p) (tty p) (cwd p) m (fds p).

(** Opening a terminal makes it the controlling terminal of a session without one, if
    the process leads the session. *)
Definition open_terminal (p : process) : process :=
  let p := open Terminal p in
  mkProcess (pid p) (pgid p) (sid p) (tty p || bool_decide (pid p = sid p)) (cwd p) (mask p) (fds p).

(** ** [io_service::notify_fork] *)

Inductive fork_event := fork_prepare | fork_parent | fork_child.

(** The process afterwards, or what was thrown. *)
Class ForkNotify := notify_fork : fork_event → process → process + error_code.

(** The housekeeping for a fork concerns the io_service's own resources: nothing of the
    process but internal descriptors changes, and after [fork_child] these are private
    to the process. *)
Class ForkNotifyLaws `{ForkNotify} : Prop := {
  notify_process : ∀ e p p', notify_fork e p = inl p' → p' = with_fds p (fds p');
  notify_keeps : ∀ e p p' n f, notify_fork e p = inl p' → internal f = false →
    fds p' !! n = Some f ↔ fds p !! n = Some f;
  notify_private : ∀ p p' n k, notify_fork fork_child p = inl p' →
    fds p' !! n = Some (Internal k) → k = pid p;
}.

(** ** The program *)

(** What the system answers: the io_service opens [internals] descriptors of its own;
    [fork] gives the number of the child or fails. *)
Record system := mkSystem {
  internals : nat;
  bind_ec : error_code;
  fork1 : option nat;
  fork2 : option nat;
  null_opens : bool;
  log_opens : bool;
  dup_works : bool;
}.

(** The outcome: processes that have exited, with their status; the one that runs on;
    the system log; and what was written to standard error, by file. *)
Record world := mkWorld {
  exited : list (nat * Z);
  daemon : option process;
  syslog : list bytes;
  errors : list (file * bytes);
  served : udp_daytime_server;
}.

Section Program.
Context `{ErrorText, ForkNotify} (ctime : Z → bytes).

Definition nothing_served : udp_daytime_server := mkServer false [].

(** [return 1] after a line in the system log. *)
Definition fails (before : list (nat * Z)) (p : process) (text : bytes) (s : udp_daytime_server) : world :=
  mkWorld (before ++ [(pid p, 1%Z)]) None [text] [] s.

(** The handler of exceptions: main falls off its end. *)
Definition catches (before : list (nat * Z)) (p : process) (log : list bytes) (e : error_code)
    (s : udp_daytime_server) : world :=
  mkWorld (before ++ [(pid p, 0%Z)]) None (log ++ [lit "Exception: " ++ what e])
    (match fds p !! 2 with Some f => [(f, lit "Exception: " ++ what e ++ [newline])] | None => [] end) s.

(** The descriptors of io_service, signal_set and server; in which order they are
    opened does not matter to what follows. *)
Definition construct (y : system) (p : process) : process := open UdpSocket (Nat.iter (internals y) (open (Internal (pid p))) p).

(** [close(0); close(1); close(2)] *)
Definition close_streams (p : process) : process := close 2 (close 1 (close 0 p)).

(** From the second fork on, in the process that goes on. *)
Definition redirect (y : system) (before : list (nat * Z)) (p : process) (s : udp_daytime_server)
    (es : list event) : world :=
  let p := close_streams p in
  if negb (null_opens y) then fails before p (lit "Unable to open /dev/null: %m") s
  else
    let p := open DevNull p in
    if negb (log_opens y) then fails before p (lit "Unable to open output file /tmp/asio.daemon.out: %m") s
    else
      let p := open LogFile p in
      match (if dup_works y then dup 1 p else None) with
      | None => fails before p (lit "Unable to dup output descriptor: %m") s
      | Some p =>
          match notify_fork fork_child p with
          | inr e => catches before p [] e s
          | inl p =>
              let log := [lit "Daemon started"] in
              match run ctime s es with
              | (s, stopped) => mkWorld (before ++ [(pid p, 0%Z)]) None (log ++ [lit "Daemon stopped"]) [] s
              | (s, threw e) => catches before p log e s
              | (s, running) => mkWorld before (Some p) log [] s
              end
          end
      end.

(** In the child of the first fork: [setsid], [chdir], [umask], and the second fork. *)
Definition detach (y : system) (before : list (nat * Z)) (p : process) (s : udp_daytime_server)
    (es : list event) : world :=
  let p := umask 0 (chdir (lit "/") (setsid p)) in
  match fork2 y with
  | None => fails before p (lit "Second fork failed: %m") s
  | Some c => redirect y (before ++ [(pid p, 0%Z)]) (child p c) s es
  end.

Definition main (y : system) (p : process) (es : list event) : world :=
  if failed (bind_ec y) then catches [] p [] (bind_ec y) nothing_served
  else
    let s := udp_daytime_server_new in
    let p := construct y p in
    match notify_fork fork_prepare p with
    | inr e => catches [] p [] e s
    | inl p =>
        match fork1 y with
        | None => fails [] p (lit "First fork failed: %m") s
        | Some c => detach y [(pid p, 0%Z)] (child p c) s es
        end
    end.

End Program.

(** ** Descriptor tables *)

Lemma first_free_spec fuel i m :
  (∀ j, j < i → is_Some (m !! j)) → (∃ j, i ≤ j ≤ i + fuel ∧ m !! j = None) →
  m !! first_free fuel i m = None ∧ ∀ j, j < first_free fuel i m → is_Some (m !! j).
Proof.
  revert i. induction fuel as [|fuel IH]; intros i Hlow (j & Hj & Hn); cbn.
  - replace j with i in Hn by lia. done.
  - destruct (m !! i) eqn:E; [|done]. apply IH.
    + intros k Hk. destruct (decide (k = i)) as [->|]; [by rewrite E|]. apply Hlow. lia.
    + exists j. split; [|done]. assert (j ≠ i) by (intros ->; congruence). lia.
Qed.

(** [lowest] is free and everything below it is in use. *)
Lemma lowest_spec m : m !! lowest m = None ∧ ∀ j, j < lowest m → is_Some (m !! j).
Proof.
  apply first_free_spec; [lia|].
  destruct (set_choose_or_empty (set_seq (C := gset nat) 0 (S (size m)) ∖ dom m)) as [[j Hj]|He].
  - apply elem_of_difference in Hj as [Hj%elem_of_set_seq Hd%not_elem_of_dom]. exists j. split; [lia|done].
  - assert (set_seq (C := gset nat) 0 (S (size m)) ⊆ dom m) as Hs by set_solver.
    apply subseteq_size in Hs. rewrite size_set_seq, size_dom in Hs. lia.
Qed.

Lemma lowest_is n m : (∀ j, j < n → is_Some (m !! j)) → m !! n = None → lowest m = n.
Proof.
  intros Hlow Hn. destruct (lowest_spec m) as [H1 H2].
  destruct (Nat.lt_trichotomy (lowest m) n) as [Hlt|[->|Hlt]]; [|done|].
  - apply Hlow in Hlt. rewrite H1 in Hlt. by destruct Hlt.
  - apply H2 in Hlt. rewrite Hn in Hlt. by destruct Hlt.
Qed.

(** The standard streams are open, as they are in a process started by a shell. *)
Definition streams_open (p : process) : Prop := ∀ j, j < 3 → is_Some (fds p !! j).

Lemma streams_above p : streams_open p → 3 ≤ lowest (fds p).
Proof.
  intros Hs. destruct (lowest_spec (fds p)) as [H1 _].
  destruct (le_lt_dec 3 (lowest (fds p))) as [|Hlt]; [done|].
  apply Hs in Hlt. rewrite H1 in Hlt. by destruct Hlt.
Qed.

Lemma open_streams f p : streams_open p → streams_open (open f p).
Proof.
  intros Hs j Hj. pose proof (streams_above p Hs). cbn. rewrite lookup_insert_ne by lia. by apply Hs.
Qed.

Lemma construct_spec y p :
  streams_open p →
  streams_open (construct y p) ∧ (∃ n, 3 ≤ n ∧ fds (construct y p) !! n = Some UdpSocket) ∧
  pid (construct y p) = pid p ∧ pgid (construct y p) = pgid p.
Proof.
  intros Hs. unfold construct. set (q := Nat.iter _ _ _).
  assert (streams_open q ∧ pid q = pid p ∧ pgid q = pgid p) as (Hq & Hpid & Hpg).
  { subst q. induction (internals y) as [|k IH]; [done|]. cbn.
    destruct IH as (IH & H1 & H2). split_and!; [by apply open_streams|done|done]. }
  split_and!; [by apply open_streams| |done|done].
  exists (lowest (fds q)). split; [by apply streams_above|]. cbn. by rewrite lookup_insert_eq.
Qed.

(** Closing the standard streams and opening three files puts these in their place
    and leaves every other descriptor. *)
Lemma redirected m a b c :
  let m0 := delete 2 (delete 1 (delete 0 m)) in
  let m1 := <[lowest m0 := a]> m0 in
  let m2 := <[lowest m1 := b]> m1 in
  <[lowest m2 := c]> m2 = <[2 := c]> (<[1 := b]> (<[0 := a]> m)) ∧ m2 !! 1 = Some b.
Proof.
  intros m0 m1 m2.
  assert (∀ j, j < 3 → m0 !! j = None) as Hm0.
  { intros j Hj. subst m0. destruct j as [|[|[|j]]]; [| | |lia]; by simplify_map_eq. }
  assert (lowest m0 = 0) as H0 by (apply lowest_is; [lia|apply Hm0; lia]).
  assert (lowest m1 = 1) as H1.
  { subst m1. rewrite H0. apply lowest_is; [|rewrite lookup_insert_ne by lia; apply Hm0; lia].
    intros [|j] Hj; [|lia]. by rewrite lookup_insert_eq. }
  assert (m2 !! 1 = Some b) as Hb by (subst m2; rewrite H1; by rewrite lookup_insert_eq).
  assert (lowest m2 = 2) as H2.
  { apply lowest_is; subst m2 m1; rewrite H1, H0.
    - intros [|[|j]] Hj; [by simplify_map_eq..|lia].
    - rewrite !lookup_insert_ne by lia. apply Hm0. lia. }
  split; [|done]. rewrite H2. subst m2. rewrite H1. subst m1. rewrite H0. subst m0.
  apply map_eq. intros [|[|[|j]]]; by simplify_map_eq.
Qed.

(** ** The server *)

(** The answers due for a sequence of events: one for each datagram up to a signal. *)
Fixpoint due (ctime : Z → bytes) (es : list event) : list (nat * bytes) :=
  match es with
  | received ec from now :: es =>
      (if negb (failed ec) || bool_decide (ec = message_size) then [(from, ctime now)] else []) ++ due ctime es
  | _ => []
  end.

Definition verdict (es : list event) : run_result :=
  match List.find (λ e, match e with received _ _ _ => false | _ => true end) es with
  | Some (run_throws e) => threw e
  | Some _ => stopped
  | None => running
  end.

Lemma run_due ctime s es :
  receiving s = true → run ctime s es = (mkServer true (answers s ++ due ctime es), verdict es).
Proof.
  revert s. induction es as [|e es IH]; intros [r a] Hr; cbn in Hr |- *; subst r.
  - by rewrite app_nil_r.
  - destruct e as [ec from now| |e]; [|by rewrite app_nil_r..].
    rewrite IH by done. unfold verdict. cbn. unfold handle_receive. cbn.
    destruct (_ || _); cbn; [|done]. by rewrite <-app_assoc.
Qed.

(** ** Becoming a daemon *)

(** A new process number is that of no process, group or session. *)
Record forks (y : system) (p : process) (c1 c2 : nat) : Prop := {
  forks_bind : bind_ec y = success;
  forks_first : fork1 y = Some c1;
  forks_second : fork2 y = Some c2;
  forks_fresh : c1 ≠ pgid p ∧ c2 ≠ c1;
}.

Lemma construct_ids y p : pid (construct y p) = pid p ∧ pgid (construct y p) = pgid p.
Proof. unfold construct. induction (internals y) as [|k IH]; [done|]. exact IH. Qed.

(** The child of the second fork, [q] being the process that is ready to fork, and the
    same when its standard streams have been redirected. *)
Definition grandchild (q : process) (c1 c2 : nat) : process :=
  mkProcess c2 c1 c1 false (lit "/") 0 (fds q).
Definition redirected_child (q : process) (c1 c2 : nat) : process :=
  mkProcess c2 c1 c1 false (lit "/") 0
    (<[2 := LogFile]> (<[1 := LogFile]> (<[0 := DevNull]> (fds q)))).

Section Steps.
Context `{ErrorText, ForkNotify} {laws : ForkNotifyLaws} (ctime : Z → bytes).

Lemma prepared_ids y p q :
  notify_fork fork_prepare (construct y p) = inl q → pid q = pid p ∧ pgid q = pgid p.
Proof using laws.
  intros Hq. apply notify_process in Hq. rewrite Hq. apply construct_ids.
Qed.

Lemma main_forks y p q c1 c2 es :
  forks y p c1 c2 → notify_fork fork_prepare (construct y p) = inl q →
  main ctime y p es =
    redirect ctime y [(pid p, 0%Z); (c1, 0%Z)] (grandchild q c1 c2) udp_daytime_server_new es.
Proof using laws.
  intros [Hb H1' H2' [Hf1 Hf2]] Hq. destruct (prepared_ids y p q Hq) as [Hpid Hpg]. unfold main.
  rewrite Hb. cbn [failed]. rewrite Hq, H1'. unfold detach, setsid. cbn [pid pgid child].
  rewrite Hpg, bool_decide_eq_false_2, H2' by done. cbn [pid umask chdir app child]. by rewrite Hpid.
Qed.

Lemma redirect_all y before p s es :
  null_opens y = true → log_opens y = true → dup_works y = true → receiving s = true →
  let r := with_fds p (<[2 := LogFile]> (<[1 := LogFile]> (<[0 := DevNull]> (fds p)))) in
  let s' := mkServer true (answers s ++ due ctime es) in
  redirect ctime y before p s es =
    match notify_fork fork_child r with
    | inr e => catches before r [] e s
    | inl d =>
        match verdict es with
        | stopped => mkWorld (before ++ [(pid d, 0%Z)]) None [lit "Daemon started"; lit "Daemon stopped"] [] s'
        | threw e => catches before d [lit "Daemon started"] e s'
        | running => mkWorld before (Some d) [lit "Daemon started"] [] s'
        end
    end.
Proof.
  intros Hn Hl Hd Hs r s'. unfold redirect. rewrite Hn, Hl, Hd. cbv [negb]. cbv beta zeta.
  unfold dup. destruct (redirected (fds p) DevNull LogFile LogFile) as [Hr H1'].
  unfold close_streams, open, close. cbn [with_fds fds pid pgid sid tty cwd mask].
  rewrite H1', Hr, !with_fds_twice. fold r.
  destruct (notify_fork fork_child r) as [d|e]; [|done]. rewrite run_due by done. by destruct (verdict es).
Qed.

(** C31: the daemon. In a process started with its standard streams open, when the
    notifications, the forks and the opening of files succeed: the first two processes
    exit with status 0, so that the shell goes on; the third, [d], which is left, is not
    the leader of its session and no process with the terminal is in it, so that it
    cannot acquire a terminal even by opening one; its directory is the root, its file
    mode mask is clear, it reads /dev/null and writes to the log file; above the
    standard streams every descriptor is as the server had it, the socket among them,
    except for the internal ones of the io_service, which are its own and shared with
    none of the two processes before it. It answers each datagram that arrives, also one
    that did not fit its buffer, once with the time, until a signal stops it, which the
    system log records; an exception on the way is written to the log file and not to
    the terminal. *)
Theorem becomes_daemon y p q d c1 c2 es :
  streams_open p → forks y p c1 c2 → null_opens y = true → log_opens y = true → dup_works y = true →
  notify_fork fork_prepare (construct y p) = inl q →
  notify_fork fork_child (redirected_child q c1 c2) = inl d →
  let s := mkServer true (due ctime es) in
  main ctime y p es =
    match verdict es with
    | running => mkWorld [(pid p, 0%Z); (c1, 0%Z)] (Some d) [lit "Daemon started"] [] s
    | stopped => mkWorld [(pid p, 0%Z); (c1, 0%Z); (c2, 0%Z)] None [lit "Daemon started"; lit "Daemon stopped"] [] s
    | threw e => mkWorld [(pid p, 0%Z); (c1, 0%Z); (c2, 0%Z)] None [lit "Daemon started"; lit "Exception: " ++ what e]
                   [(LogFile, lit "Exception: " ++ what e ++ [newline])] s
    end ∧
  pid d = c2 ∧ sid d = c1 ∧ pid d ≠ sid d ∧ tty (open_terminal d) = false ∧
  cwd d = lit "/" ∧ mask d = 0%Z ∧
  fds d !! 0 = Some DevNull ∧ fds d !! 1 = Some LogFile ∧ fds d !! 2 = Some LogFile ∧
  (∀ n f, 3 ≤ n → internal f = false → fds d !! n = Some f ↔ fds (construct y p) !! n = Some f) ∧
  (∀ n k, fds d !! n = Some (Internal k) → k = c2) ∧
  (∃ n, 3 ≤ n ∧ fds d !! n = Some UdpSocket).
Proof using laws.
  intros Hp Hf Hn Hl Hd Hq Hc s. destruct (construct_spec y p Hp) as (_ & (n & Hn3 & Hsock) & _).
  destruct (forks_fresh _ _ _ _ Hf) as [_ Hne]. pose proof (notify_process _ _ _ Hc) as Hdp.
  pose proof (λ n f, notify_keeps _ _ _ n f Hc) as Hkeep.
  assert (fds d !! 0 = Some DevNull ∧ fds d !! 1 = Some LogFile ∧ fds d !! 2 = Some LogFile) as (F0 & F1 & F2).
  { rewrite !Hkeep by done. cbn. by simplify_map_eq. }
  assert (∀ n f, 3 ≤ n → internal f = false →
            fds d !! n = Some f ↔ fds (construct y p) !! n = Some f) as Habove.
  { intros k f Hk Hi. rewrite Hkeep by done. cbn. rewrite !lookup_insert_ne by lia.
    by apply (notify_keeps _ _ _ k f Hq). }
  assert (pid d = c2) as Hpid by by rewrite Hdp.
  split_and!; try done; try (by rewrite Hdp).
  - rewrite (main_forks y p q c1 c2 es Hf Hq), redirect_all by done.
    change (with_fds (grandchild q c1 c2) _) with (redirected_child q c1 c2). rewrite Hc.
    rewrite Hpid. destruct (verdict es); [done| |done]. unfold catches. by rewrite F2, Hpid.
  - rewrite Hdp. cbn. by rewrite bool_decide_eq_false_2.
  - intros k o Ho. by apply (notify_private _ _ _ _ Hc) in Ho.
  - exists n. split; [done|]. by apply Habove.
Qed.

(** C32: the errors on the way. A server that cannot be set up is reported on the
    terminal and in the system log, before any fork, and the status is 0, and so is an
    io_service that cannot be prepared for the fork; if the first fork fails the status
    the shell sees is 1, and nothing runs on; every later failure ends the process it
    happens in with status 1 and a line in the system log, while the shell has already
    been given status 0, and nothing is written to the terminal; only the last
    notification, if it throws, ends the daemon with status 0, and is reported in the log
    file. *)
Theorem daemon_errors y p es :
  (∀ f, failed (bind_ec y) = true → fds p !! 2 = Some f →
     main ctime y p es = mkWorld [(pid p, 0%Z)] None [lit "Exception: " ++ what (bind_ec y)]
       [(f, lit "Exception: " ++ what (bind_ec y) ++ [newline])] nothing_served) ∧
  (∀ f e, bind_ec y = success → notify_fork fork_prepare (construct y p) = inr e →
     fds (construct y p) !! 2 = Some f →
     main ctime y p es = mkWorld [(pid p, 0%Z)] None [lit "Exception: " ++ what e]
       [(f, lit "Exception: " ++ what e ++ [newline])] udp_daytime_server_new) ∧
  (∀ q, notify_fork fork_prepare (construct y p) = inl q →
     (bind_ec y = success → fork1 y = None →
        main ctime y p es = mkWorld [(pid p, 1%Z)] None [lit "First fork failed: %m"] [] udp_daytime_server_new) ∧
     (∀ c1, bind_ec y = success → fork1 y = Some c1 → fork2 y = None →
        main ctime y p es =
          mkWorld [(pid p, 0%Z); (c1, 1%Z)] None [lit "Second fork failed: %m"] [] udp_daytime_server_new) ∧
     (∀ c1 c2, forks y p c1 c2 → null_opens y && log_opens y && dup_works y = false →
        ∃ text, main ctime y p es =
          mkWorld [(pid p, 0%Z); (c1, 0%Z); (c2, 1%Z)] None [text] [] udp_daytime_server_new) ∧
     (∀ c1 c2 e, forks y p c1 c2 → null_opens y && log_opens y && dup_works y = true →
        notify_fork fork_child (redirected_child q c1 c2) = inr e →
        main ctime y p es =
          mkWorld [(pid p, 0%Z); (c1, 0%Z); (c2, 0%Z)] None [lit "Exception: " ++ what e]
            [(LogFile, lit "Exception: " ++ what e ++ [newline])] udp_daytime_server_new)).
Proof using laws.
  split; [|split].
  - intros f Hb Hf. unfold main, catches. by rewrite Hb, Hf.
  - intros f e Hb Hq Hf. unfold main, catches. rewrite Hb. cbn [failed]. rewrite Hq, Hf.
    by rewrite (proj1 (construct_ids y p)).
  - intros q Hq. destruct (prepared_ids y p q Hq) as [Hpid Hpg]. split_and!.
    + intros Hb Hf. unfold main, fails. rewrite Hb. cbn [failed]. by rewrite Hq, Hf, Hpid.
    + intros c1 Hb Hf1 Hf2. unfold main, detach, fails. rewrite Hb. cbn [failed].
      rewrite Hq, Hf1, Hf2, Hpid. unfold setsid. by case_bool_decide.
    + intros c1 c2 Hf Hy. rewrite (main_forks y p q c1 c2 es Hf Hq). unfold redirect, fails.
      destruct (null_opens y); [|by eexists]. destruct (log_opens y); [|by eexists].
      destruct (dup_works y); [done|]. by eexists.
    + intros c1 c2 e Hf Hy Hc. apply andb_true_iff in Hy as [[Hy1 Hy2]%andb_true_iff Hy3].
      rewrite (main_forks y p q c1 c2 es Hf Hq), redirect_all by done.
      change (with_fds (grandchild q c1 c2) _) with (redirected_child q c1 c2). rewrite Hc.
      unfold catches. cbn [fds redirected_child]. by rewrite lookup_insert_eq.
Qed.

End Steps.
End Daemon.

Module DaemonExamples.
Import Daemon.

#[local] Instance texts : ErrorText := Build_ErrorText (λ _, lit "message") (λ _, lit "code") (λ _, lit "what").

(** A process of a shell, and a system in which all goes well. *)
Definition shell_process : process :=
  mkProcess 100 100 7 true (lit "/home") 18 {[0 := Terminal; 1 := Terminal; 2 := Terminal]}.
Definition willing : system := mkSystem 2 success (Some 101) (Some 102) true true true.
Definition clock (t : Z) : bytes := if (t =? 0)%Z then lit "Thu" else lit "Fri".

Lemma shell_streams : streams_open shell_process.
Proof. intros [|[|[|j]]] Hj; [by eexists..|lia]. Qed.

(** An io_service that opens its internal descriptors anew in the child. *)
Definition own (k : nat) (f : file) : file := match f with Internal _ => Internal k | _ => f end.
#[local] Instance renewing : ForkNotify := λ e p,
  match e with
  | fork_child => inl (with_fds p (own (pid p) <$> fds p))
  | _ => inl p
  end.

#[local] Instance renewing_laws : ForkNotifyLaws.
Proof.
  split.
  - intros [] p p' [= <-]; by destruct p.
  - intros e p p' n f Hp Hf. destruct e; injection Hp as <-; [done|done|]. cbn. rewrite lookup_fmap.
    destruct (fds p !! n) as [g|]; cbn; [|done]. destruct g; cbn; split; intros [= <-]; done.
  - intros p p' n k [= <-]. cbn. rewrite lookup_fmap. destruct (fds p !! n) as [[]|]; cbn; congruence.
Qed.

Definition prepared : process := construct willing shell_process.

Lemma willing_forks : forks willing shell_process 101 102.
Proof. split; [reflexivity..|split; discriminate]. Qed.

Lemma becomes_daemon_witness :
  main clock willing shell_process [received success 5 0; received message_size 6 1; signalled] =
    mkWorld [(100, 0%Z); (101, 0%Z); (102, 0%Z)] None [lit "Daemon started"; lit "Daemon stopped"] []
      (mkServer true [(5, lit "Thu"); (6, lit "Fri")]).
Proof.
  refine (proj1 (becomes_daemon clock willing shell_process prepared
           (with_fds (redirected_child prepared 101 102)
              (own 102 <$> fds (redirected_child prepared 101 102))) 101 102
           [received success 5 0; received message_size 6 1; signalled] _ _ _ _ _ _ _));
    [apply shell_streams|apply willing_forks|reflexivity..].
Defined.

Lemma daemon_errors_witness :
  ∃ text, main clock (mkSystem 2 success (Some 101) (Some 102) true false true) shell_process [] =
    mkWorld [(100, 0%Z); (101, 0%Z); (102, 1%Z)] None [text] [] udp_daytime_server_new.
Proof.
  refine (proj1 (proj2 (proj2 (proj2 (proj2
    (daemon_errors clock (mkSystem 2 success (Some 101) (Some 102) true false true) shell_process []))
    prepared eq_refl))) 101 102 _ _); [split; [reflexivity..|split; discriminate]|reflexivity].
Defined.

End DaemonExamples.
