(* ===== verification/Daytime.v ===== *)
(** * Daytime servers and their client

    (src/doc_searcher/data/input/html/boost_asio/example/buffers/reference_counted.cpp
    and iostreams/{daytime_server,daytime_client}.cpp.) Two servers that send the time
    to whoever connects, and a client that prints it. The asynchronous server keeps the
    text in a buffer with a reference count, so that it lives as long as the write that
    sends it. The heap is modelled with its counts: an object is gone when the last
    shared_ptr to it is, and reading it afterwards is undefined. *)

From S2P Require Import Prelude CxxString Asio.
Import Asio.

Module RefCounted.

(** ** Shared pointers *)

(** Objects by address, with the number of shared_ptrs to each. *)
Abbreviation heap A := (gmap nat (A * nat)).

Definition acquire {A} (h : heap A) (a : nat) : outcome (heap A) :=
  match h !! a with
  | Some (x, n) => Ret (<[a := (x, S n)]> h)
  | None => Undef NullDeref
  end.
Definition release {A} (h : heap A) (a : nat) : outcome (heap A) :=
  match h !! a with
  | Some (x, S (S n)) => Ret (<[a := (x, S n)]> h)
  | Some (_, _) => Ret (delete a h)
  | None => Undef NullDeref
  end.
(** [shared_ptr<A>(new A(x))] *)
Definition shared_new {A} (h : heap A) (x : A) : heap A * nat :=
  let a := fresh (dom h) in (<[a := (x, 1)]> h, a).

Lemma acquire_ok {A} (h : heap A) a x n : h !! a = Some (x, n) → acquire h a = Ret (<[a := (x, S n)]> h).
Proof. intros Hx. unfold acquire. by rewrite Hx. Qed.
Lemma release_ok {A} (h : heap A) a x n : h !! a = Some (x, S (S n)) → release h a = Ret (<[a := (x, S n)]> h).
Proof. intros Hx. unfold release. by rewrite Hx. Qed.
Lemma rc_release_last {A} (h : heap A) a x : h !! a = Some (x, 1) → release h a = Ret (delete a h).
Proof. intros Hx. unfold release. by rewrite Hx. Qed.

(** Runs a computation on counts whose values are known. *)
Ltac run_counts :=
  repeat (cbn [mbind outcome_bind];
    first [erewrite acquire_ok by (by simplify_map_eq)|erewrite release_ok by (by simplify_map_eq)
          |erewrite rc_release_last by (by simplify_map_eq)]).

(** ** shared_const_buffer *)

(** The pointer that owns the characters, and the const_buffer that refers to them:
    their address and size. *)
Record shared_const_buffer := mkBuffer { data_ : nat; buffer_ : nat * nat }.

Definition shared_const_buffer_new (vectors : heap bytes) (data : bytes) : heap bytes * shared_const_buffer :=
  let '(vectors, a) := shared_new vectors data in (vectors, mkBuffer a (a, length data)).

(** Reading [n] characters of the const_buffer from position [from]. *)
Definition read_buffer (vectors : heap bytes) (b : shared_const_buffer) (from n : nat) : outcome bytes :=
  match vectors !! (buffer_ b).1 with
  | Some (data, _) =>
      if (from + n <=? (buffer_ b).2)%nat && ((buffer_ b).2 <=? length data)%nat
      then Ret (take n (drop from data)) else Undef OutOfBounds
  | None => Undef NullDeref
  end.

(** ** Sessions and server *)

(** The write of a session: a copy of the buffer and what has been sent. *)
Record write_op := mkWrite { buffers : shared_const_buffer; total : nat }.

Record server := mkServer {
  vectors : heap bytes;
  sessions : heap ();
  accepting : option nat;              (* async_accept into this session *)
  writes : gmap nat write_op;          (* async_write, by session *)
  wires : gmap nat bytes;              (* history: what was sent, by connection *)
  times : gmap nat Z;                  (* history: the time of its accept *)
  names : gmap nat nat;                (* history: the connection of a session *)
  next : nat;                          (* history: the number of connections *)
}.

Section Server.
Context (ctime : Z → bytes).

(** [session::start]: the local buffer is copied into the operation and destroyed; the
    handler holds the session. *)
Definition start (v : server) (s : nat) (now : Z) : outcome server :=
  let '(vs, buffer) := shared_const_buffer_new (vectors v) (ctime now) in
  vs ← acquire vs (data_ buffer);
  ss ← acquire (sessions v) s;
  vs ← release vs (data_ buffer);
  Ret (mkServer vs ss (accepting v) (<[s := mkWrite buffer 0]> (writes v))
         (<[next v := []]> (wires v)) (<[next v := now]> (times v)) (<[s := next v]> (names v)) (S (next v))).

(** [new session], and the accept whose handler holds it; the local pointer goes. *)
Definition start_accept (v : server) : outcome server :=
  let '(ss, s) := shared_new (sessions v) () in
  ss ← acquire ss s;
  ss ← release ss s;
  Ret (mkServer (vectors v) ss (Some s) (writes v) (wires v) (times v) (names v) (next v)).

Definition server_new : outcome server := start_accept (mkServer ∅ ∅ None ∅ ∅ ∅ ∅ 0).

(** [handle_accept]: its parameter is one more pointer to the session. [reset] makes
    it point to a new session, which the handler of the next accept holds; the pointer
    of the handler that has been called goes when it returns. *)
Definition handle_accept (v : server) (s : nat) (error : error_code) (now : Z) : outcome server :=
  ss ← acquire (sessions v) s;
  let v := mkServer (vectors v) ss None (writes v) (wires v) (times v) (names v) (next v) in
  v ← (if failed error then Ret v else start v s now);
  let '(ss, s') := shared_new (sessions v) () in
  ss ← release ss s;
  ss ← acquire ss s';
  ss ← release ss s';
  ss ← release ss s;
  Ret (mkServer (vectors v) ss (Some s') (writes v) (wires v) (times v) (names v) (next v)).

(** A piece of the write: [n] characters are taken from the buffer. *)
Definition write_some (v : server) (s : nat) (w : write_op) (n : nat) : outcome server :=
  match sessions v !! s, names v !! s with
  | Some _, Some c =>
      data ← read_buffer (vectors v) (buffers w) (total w) n;
      Ret (mkServer (vectors v) (sessions v) (accepting v) (<[s := mkWrite (buffers w) (total w + n)]> (writes v))
             (<[c := default [] (wires v !! c) ++ data]> (wires v)) (times v) (names v) (next v))
  | _, _ => Undef NullDeref
  end.

(** [handle_write] does nothing; the operation is destroyed, with its buffer and the
    handler's pointer to the session. *)
Definition handle_write (v : server) (s : nat) (w : write_op) : outcome server :=
  vs ← release (vectors v) (data_ (buffers w));
  ss ← release (sessions v) s;
  Ret (mkServer vs ss (accepting v) (delete s (writes v)) (wires v) (times v) (names v) (next v)).

(** The steps: an accept completes, a part of a write is sent, or a write completes:
    when all has been sent, or earlier with an error. *)
Inductive event :=
  | accepted (error : error_code) (now : Z)
  | sent_some (s n : nat)
  | written (s : nat) (error : error_code).

Definition enabled (v : server) (e : event) : Prop :=
  match e with
  | accepted _ _ => is_Some (accepting v)
  | sent_some s n => ∃ w, writes v !! s = Some w ∧ 0 < n ∧ total w + n ≤ (buffer_ (buffers w)).2
  | written s error => ∃ w, writes v !! s = Some w ∧ (failed error = false → total w = (buffer_ (buffers w)).2)
  end.

Definition handle (v : server) (e : event) : outcome server :=
  match e with
  | accepted error now => match accepting v with Some s => handle_accept v s error now | None => Ret v end
  | sent_some s n => match writes v !! s with Some w => write_some v s w n | None => Ret v end
  | written s _ => match writes v !! s with Some w => handle_write v s w | None => Ret v end
  end.

Inductive reachable : server → Prop :=
  | reachable_new v : server_new = Ret v → reachable v
  | reachable_step v e v' : reachable v → enabled v e → handle v e = Ret v' → reachable v'.

(** ** The invariant *)

(** The write of session [s]: it alone owns its characters, and has sent the first
    [total] of them. *)
Definition write_ok (v : server) (s : nat) (w : write_op) : Prop :=
  ∃ c now, names v !! s = Some c ∧ c < next v ∧ times v !! c = Some now ∧
    vectors v !! data_ (buffers w) = Some (ctime now, 1) ∧
    buffer_ (buffers w) = (data_ (buffers w), length (ctime now)) ∧ total w ≤ length (ctime now) ∧
    wires v !! c = Some (take (total w) (ctime now)).

Record inv (v : server) : Prop := {
  inv_accept : ∃ a, accepting v = Some a ∧ sessions v !! a = Some ((), 1) ∧ writes v !! a = None;
  inv_sessions : ∀ s, is_Some (sessions v !! s) ↔ accepting v = Some s ∨ is_Some (writes v !! s);
  inv_counts : ∀ s n, sessions v !! s = Some n → n = ((), 1);
  inv_writes : ∀ s w, writes v !! s = Some w → write_ok v s w;
  inv_apart : ∀ s1 s2 w1 w2, writes v !! s1 = Some w1 → writes v !! s2 = Some w2 → s1 ≠ s2 →
    data_ (buffers w1) ≠ data_ (buffers w2) ∧ names v !! s1 ≠ names v !! s2;
  inv_vectors : ∀ a, is_Some (vectors v !! a) → ∃ s w, writes v !! s = Some w ∧ data_ (buffers w) = a;
  inv_wires : ∀ c wire, wires v !! c = Some wire → c < next v ∧ ∃ now, times v !! c = Some now ∧ wire `prefix_of` ctime now;
}.

(** What the handlers leave. *)
Lemma start_accept_eq v :
  start_accept v = Ret (mkServer (vectors v) (<[fresh (dom (sessions v)) := ((), 1)]> (sessions v))
    (Some (fresh (dom (sessions v)))) (writes v) (wires v) (times v) (names v) (next v)).
Proof. unfold start_accept, shared_new. run_counts. cbn. by rewrite !insert_insert_eq. Qed.

Lemma fresh_ne {A} (h : heap A) a x : h !! a = Some x → fresh (dom h) ≠ a.
Proof.
  intros Hx E. pose proof (is_fresh (dom h)) as Hf. rewrite E in Hf. apply Hf. apply elem_of_dom. by eexists.
Qed.

Lemma handle_accept_failed v s error now :
  failed error = true → sessions v !! s = Some ((), 1) →
  let s' := fresh (dom (sessions v)) in
  handle_accept v s error now =
    Ret (mkServer (vectors v) (<[s' := ((), 1)]> (delete s (sessions v))) (Some s') (writes v) (wires v) (times v)
           (names v) (next v)).
Proof.
  intros He Hs s'. unfold handle_accept. rewrite He. run_counts. cbn [mbind outcome_bind].
  unfold shared_new. cbn [sessions]. rewrite dom_insert_lookup_L by eauto. fold s'.
  pose proof (fresh_ne _ _ _ Hs : s' ≠ s). run_counts. cbn [mbind outcome_bind]. do 2 f_equal.
  apply map_eq. intros k. destruct (decide (k = s)) as [->|]; [by simplify_map_eq|].
  destruct (decide (k = s')) as [->|]; by simplify_map_eq.
Qed.

Lemma handle_accept_ok v s error now :
  failed error = false → sessions v !! s = Some ((), 1) →
  let s' := fresh (dom (sessions v)) in
  let d := fresh (dom (vectors v)) in
  handle_accept v s error now =
    Ret (mkServer (<[d := (ctime now, 1)]> (vectors v)) (<[s' := ((), 1)]> (sessions v)) (Some s')
           (<[s := mkWrite (mkBuffer d (d, length (ctime now))) 0]> (writes v))
           (<[next v := []]> (wires v)) (<[next v := now]> (times v)) (<[s := next v]> (names v)) (S (next v))).
Proof.
  intros He Hs s' d. unfold handle_accept. rewrite He. run_counts. cbn [mbind outcome_bind].
  unfold start, shared_const_buffer_new, shared_new. cbn [vectors sessions data_ accepting writes wires times names next].
  fold d. run_counts. cbn [mbind outcome_bind sessions]. rewrite !insert_insert_eq, dom_insert_lookup_L by eauto.
  fold s'. pose proof (fresh_ne _ _ _ Hs : s' ≠ s). run_counts.
  cbn [mbind outcome_bind vectors writes wires times names next]. do 2 f_equal.
  apply map_eq. intros k. destruct (decide (k = s)) as [->|]; [by simplify_map_eq|].
  destruct (decide (k = s')) as [->|]; by simplify_map_eq.
Qed.

(** A write keeps its place when vectors, names, times and wires of others change. *)
Lemma write_ok_mono v v' s w :
  write_ok v s w → next v ≤ next v' → names v' !! s = names v !! s →
  vectors v' !! data_ (buffers w) = vectors v !! data_ (buffers w) →
  (∀ c, names v !! s = Some c → c < next v → times v' !! c = times v !! c ∧ wires v' !! c = wires v !! c) →
  write_ok v' s w.
Proof.
  intros (c & tm & Hc & Hlt & Ht & Hv & Hb & Hle & Hw) Hn Hnames Hvec Hsame.
  destruct (Hsame c Hc Hlt) as [Ht' Hw']. exists c, tm. rewrite Hnames, Hvec, Ht', Hw'.
  split_and!; try done. lia.
Qed.

Lemma rc_inv_new v : server_new = Ret v → inv v.
Proof.
  unfold server_new. rewrite start_accept_eq. intros [= <-]. set (s := fresh _). split; cbn.
  - exists s. by simplify_map_eq.
  - intros k. destruct (decide (k = s)) as [->|]; simplify_map_eq; [naive_solver|].
    split; [by intros []|]. intros [[=]|[? [=]]]. congruence.
  - intros k n. destruct (decide (k = s)) as [->|]; by simplify_map_eq; intros [= <-].
  - intros k w. by rewrite lookup_empty.
  - intros s1 s2 w1 w2. by rewrite lookup_empty.
  - intros a [? Ha]. by rewrite lookup_empty in Ha.
  - intros c wire. by rewrite lookup_empty.
Qed.

Lemma inv_accept_failed v s error now :
  inv v → accepting v = Some s → failed error = true → ∃ v', handle_accept v s error now = Ret v' ∧ inv v'.
Proof.
  intros [(a & Ha & Hsa & Hwa) Hss Hcnt Hws Hap Hvec Hwi] Hs He.
  assert (s = a) as -> by congruence. rewrite (handle_accept_failed v a error now He Hsa).
  eexists. split; [reflexivity|]. set (s' := fresh _). pose proof (fresh_ne _ _ _ Hsa : s' ≠ a) as Hne.
  assert (writes v !! s' = None) as Hw'.
  { destruct (writes v !! s') eqn:E; [|done]. assert (is_Some (sessions v !! s')) as [x Hx] by (apply Hss; eauto).
    exfalso. by apply (fresh_ne _ _ _ Hx). }
  split; cbn; try done.
  - exists s'. by simplify_map_eq.
  - intros k. destruct (decide (k = s')) as [->|Hk]; [simplify_map_eq; split; eauto|].
    rewrite lookup_insert_ne by done. destruct (decide (k = a)) as [->|Hka].
    + rewrite lookup_delete_eq, Hwa. split; [by intros []|]. intros [[=]|[? [=]]]. congruence.
    + rewrite lookup_delete_ne, Hss by done. split; (intros [[=]|?]; [congruence|by right]).
  - intros k n [[<- <-]|[_ Hk]]%lookup_insert_Some; [done|]. apply lookup_delete_Some in Hk as [_ Hk]. by apply (Hcnt k).
Qed.

Lemma inv_accept_ok v s error now :
  inv v → accepting v = Some s → failed error = false → ∃ v', handle_accept v s error now = Ret v' ∧ inv v'.
Proof.
  intros [(a & Ha & Hsa & Hwa) Hss Hcnt Hws Hap Hvec Hwi] Hs He.
  assert (s = a) as -> by congruence. rewrite (handle_accept_ok v a error now He Hsa).
  eexists. split; [reflexivity|]. set (s' := fresh (dom (sessions v))). set (d := fresh (dom (vectors v))).
  pose proof (fresh_ne _ _ _ Hsa : s' ≠ a) as Hne.
  assert (∀ k w, writes v !! k = Some w → k ≠ s' ∧ k ≠ a ∧ data_ (buffers w) ≠ d ∧
            ∃ c, names v !! k = Some c ∧ c < next v) as Hold.
  { intros k w Hk. assert (is_Some (sessions v !! k)) as [x Hx] by (apply Hss; eauto).
    destruct (Hws k w Hk) as (c & tm & Hc & Hlt & _ & Hv & _). split_and!; [|congruence| |eauto].
    - intros ->. by apply (fresh_ne _ _ _ Hx).
    - intros E. by apply (fresh_ne _ _ _ Hv). }
  split; cbn.
  - exists s'. simplify_map_eq. split_and!; [done..|]. destruct (writes v !! s') eqn:E; [|done].
    by destruct (Hold _ _ E).
  - intros k. destruct (decide (k = s')) as [->|Hk]; [simplify_map_eq; split; eauto|].
    rewrite lookup_insert_ne by done. destruct (decide (k = a)) as [->|Hka].
    + rewrite Hsa, lookup_insert_eq. split; eauto.
    + rewrite Hss, lookup_insert_ne by done. split; (intros [[=]|?]; [congruence|by right]).
  - intros k n [[<- <-]|[_ Hk]]%lookup_insert_Some; [done|]. by apply (Hcnt k).
  - intros k w [[<- <-]|[Hka Hk]]%lookup_insert_Some.
    + exists (next v), now. cbn. simplify_map_eq. split_and!; try done; lia.
    + destruct (Hold k w Hk) as (_ & _ & Hd & c & Hc & Hlt). eapply write_ok_mono; [by apply Hws|cbn..].
      * lia.
      * by rewrite lookup_insert_ne.
      * by rewrite lookup_insert_ne.
      * intros c' Hc' Hlt'. rewrite !lookup_insert_ne by lia. done.
  - intros s1 s2 w1 w2 H1 H2 Hne12.
    apply lookup_insert_Some in H1 as [[<- <-]|[H1a H1]]; apply lookup_insert_Some in H2 as [[<- <-]|[H2a H2]]; [done|..].
    + destruct (Hold _ _ H2) as (_ & _ & Hd & c & Hc & Hlt). split; [done|].
      rewrite lookup_insert_eq, lookup_insert_ne, Hc by done. intros [=]. lia.
    + destruct (Hold _ _ H1) as (_ & _ & Hd & c & Hc & Hlt). split; [done|].
      rewrite lookup_insert_eq, lookup_insert_ne, Hc by done. intros [=]. lia.
    + rewrite !lookup_insert_ne by done. by eapply Hap.
  - intros b [x [[<- _]|[Hb Hx]]%lookup_insert_Some].
    + eexists a, _. rewrite lookup_insert_eq. done.
    + destruct (Hvec b) as (k & w & Hk & E); [eauto|]. exists k, w. split; [|done].
      rewrite lookup_insert_ne; [done|]. intros ->. congruence.
  - intros c wire [[<- <-]|[Hc Hx]]%lookup_insert_Some.
    + split; [lia|]. exists now. rewrite lookup_insert_eq. split; [done|]. apply prefix_nil.
    + destruct (Hwi c wire Hx) as (Hlt & tm & Ht & Hp). split; [lia|]. exists tm.
      by rewrite lookup_insert_ne.
Qed.

Lemma inv_write_some v s w n :
  inv v → writes v !! s = Some w → total w + n ≤ (buffer_ (buffers w)).2 →
  ∃ v', write_some v s w n = Ret v' ∧ inv v'.
Proof.
  intros [(a & Ha & Hsa & Hwa) Hss Hcnt Hws Hap Hvec Hwi] Hw Hn.
  destruct (Hws s w Hw) as (c & tm & Hc & Hlt & Ht & Hv & Hb & Hle & Hwire).
  assert (is_Some (sessions v !! s)) as [x Hx] by (apply Hss; eauto).
  unfold write_some, read_buffer. rewrite Hb in Hn |- *. cbn in Hn |- *. rewrite Hx, Hc, Hv. bool_true. cbn.
  eexists. split; [reflexivity|].
  assert (s ≠ a) as Hsna by congruence. split; cbn; try done.
  - exists a. by rewrite lookup_insert_ne.
  - intros k. rewrite Hss. destruct (decide (k = s)) as [->|]; simplify_map_eq; [naive_solver|done].
  - intros k w' [[<- <-]|[Hk Hk']]%lookup_insert_Some.
    + exists c, tm. cbn. split_and!; try done. rewrite lookup_insert_eq, Hwire. cbn. f_equal. apply take_take_drop.
    + eapply write_ok_mono; [by apply Hws|done..|]. cbn. intros c' Hc' _. split; [done|].
      rewrite lookup_insert_ne; [done|]. intros <-. destruct (Hap s k w w' Hw Hk' Hk) as [_ E]. congruence.
  - intros s1 s2 w1 w2 H1 H2 Hne.
    apply lookup_insert_Some in H1 as [[<- <-]|[H1a H1]]; apply lookup_insert_Some in H2 as [[<- <-]|[H2a H2]]; [done|..];
      cbn; by eapply Hap.
  - intros b Hb'. destruct (Hvec b Hb') as (k & w' & Hk & E). destruct (decide (k = s)) as [->|].
    + eexists s, _. rewrite lookup_insert_eq. split; [reflexivity|]. cbn. congruence.
    + exists k, w'. by rewrite lookup_insert_ne.
  - intros c' wire [[<- <-]|[Hne Hx']]%lookup_insert_Some; [|by apply Hwi].
    split; [done|]. exists tm. split; [done|]. rewrite Hwire. cbn. rewrite take_take_drop. apply prefix_take.
Qed.

Lemma rc_inv_handle_write v s w :
  inv v → writes v !! s = Some w → ∃ v', handle_write v s w = Ret v' ∧ inv v' ∧
    vectors v' !! data_ (buffers w) = None ∧ sessions v' !! s = None.
Proof.
  intros [(a & Ha & Hsa & Hwa) Hss Hcnt Hws Hap Hvec Hwi] Hw.
  destruct (Hws s w Hw) as (c & tm & Hc & Hlt & Ht & Hv & Hb & Hle & Hwire).
  assert (sessions v !! s = Some ((), 1)) as Hx.
  { assert (is_Some (sessions v !! s)) as [x Hx] by (apply Hss; eauto). by rewrite Hx, (Hcnt s x Hx). }
  unfold handle_write. run_counts. cbn. eexists. split; [reflexivity|]. cbn.
  assert (s ≠ a) as Hsna by congruence. split_and!; [|by simplify_map_eq..]. split; cbn; try done.
  - exists a. by rewrite !lookup_delete_ne.
  - intros k. destruct (decide (k = s)) as [->|].
    + rewrite !lookup_delete_eq, Ha. split; [by intros []|]. intros [[=]|[? [=]]]. congruence.
    + by rewrite !lookup_delete_ne, Hss.
  - intros k n [_ Hk]%lookup_delete_Some. by apply (Hcnt k).
  - intros k w' [Hk Hk']%lookup_delete_Some. eapply write_ok_mono; [by apply Hws|done..| |done]. cbn.
    apply lookup_delete_ne. destruct (Hap s k w w' Hw Hk' Hk) as [E _]. done.
  - intros s1 s2 w1 w2 [_ H1]%lookup_delete_Some [_ H2]%lookup_delete_Some Hne. by eapply Hap.
  - intros b [x [Hne Hbx]%lookup_delete_Some]. destruct (Hvec b) as (k & w' & Hk & E); [eauto|].
    exists k, w'. split; [|done]. rewrite lookup_delete_ne; [done|]. intros <-. congruence.
Qed.

Lemma rc_inv_handle v e : inv v → enabled v e → ∃ v', handle v e = Ret v' ∧ inv v'.
Proof.
  intros Hi He. destruct e as [error now|s n|s error]; cbn in He |- *.
  - destruct He as [s Hs]. rewrite Hs. destruct (failed error) eqn:E.
    + by apply inv_accept_failed.
    + by apply inv_accept_ok.
  - destruct He as (w & Hw & _ & Hn). rewrite Hw. by apply inv_write_some.
  - destruct He as (w & Hw & _). rewrite Hw. destruct (rc_inv_handle_write v s w Hi Hw) as (v' & ? & ? & _). eauto.
Qed.

Lemma rc_reachable_inv v : reachable v → inv v.
Proof.
  induction 1 as [v Hv|v e v' _ IH He Hv]; [by apply rc_inv_new|].
  destruct (rc_inv_handle v e IH He) as (v2 & Hv2 & Hi). rewrite Hv in Hv2. by injection Hv2 as <-.
Qed.

Lemma written_all v s error :
  reachable v → enabled v (written s error) → failed error = false →
  ∃ c now, names v !! s = Some c ∧ times v !! c = Some now ∧ wires v !! c = Some (ctime now).
Proof.
  intros Hr (w & Hw & Hall) He.
  destruct (inv_writes _ (rc_reachable_inv v Hr) s w Hw) as (c & tm & Hc & _ & Ht & _ & Hb & _ & Hwire).
  exists c, tm. split_and!; [done..|]. rewrite (Hall He), Hb in Hwire. cbn in Hwire. by rewrite firstn_all in Hwire.
Qed.

(** C33: the buffer with a reference count. In every reachable state of the server:
    whatever completes next, its handler runs without touching an object that is gone;
    the sessions and the characters on the heap are exactly those an outstanding
    operation needs, each with one reference, so that nothing leaks, and the write
    that sends the characters is the only one to own them; an accept is always
    outstanding; and every client has been sent a prefix of its time, all of it
    when its write completes without error. *)
Theorem buffers_live v :
  reachable v →
  (∀ e, enabled v e → ∃ v', handle v e = Ret v' ∧ reachable v') ∧
  (∃ s, accepting v = Some s) ∧
  (∀ s, is_Some (sessions v !! s) ↔ accepting v = Some s ∨ is_Some (writes v !! s)) ∧
  (∀ a, is_Some (vectors v !! a) ↔ ∃ s w, writes v !! s = Some w ∧ data_ (buffers w) = a) ∧
  (∀ s x n, sessions v !! s = Some (x, n) → n = 1) ∧
  (∀ c wire, wires v !! c = Some wire → ∃ now, times v !! c = Some now ∧ wire `prefix_of` ctime now) ∧
  (∀ s error, enabled v (written s error) → failed error = false →
     ∃ c now, names v !! s = Some c ∧ times v !! c = Some now ∧ wires v !! c = Some (ctime now)).
Proof.
  intros Hr. pose proof (rc_reachable_inv v Hr) as Hi. pose proof Hi as [(a & Ha & _) Hss Hcnt Hws Hap Hvec Hwi].
  split_and!; [|eauto|done| | | |].
  - intros e He. destruct (rc_inv_handle v e Hi He) as (v' & Hv' & _). exists v'. split; [done|]. by eapply reachable_step.
  - intros b. split; [apply Hvec|]. intros (s & w & Hw & <-).
    destruct (Hws s w Hw) as (c & tm & _ & _ & _ & Hv & _). by rewrite Hv.
  - intros s x n Hx. apply Hcnt in Hx. by simplify_eq.
  - intros c wire Hx. by apply (Hwi c wire).
  - intros s error. by apply written_all.
Qed.

End Server.

End RefCounted.

(** ** The programs on iostreams *)
Module Daytime.

Section Programs.
Context `{ErrorText} (ctime : Z → bytes).

Definition make_daytime_string (now : Z) : bytes := ctime now.

(** The loop of daytime_server.cpp: what is sent on each connection that the accepts,
    with their errors and times, give; the stream is closed at the end of the round. *)
Fixpoint serve (accepts : list (error_code * Z)) : list bytes :=
  match accepts with
  | [] => []
  | (ec, now) :: l => (if failed ec then [] else [make_daytime_string now]) ++ serve l
  end.

(** daytime_client.cpp: what it prints and its status, with the error of connecting
    and what arrives. *)
Definition client_main (args : list bytes) (connect_ec : error_code) (i : inbound) : bytes * Z :=
  match args with
  | [_] =>
      if failed connect_ec then (lit "Unable to connect: " ++ message connect_ec ++ [newline], 1%Z)
      else
        let line := (break_line (all_of i)).1 in
        (line ++ [newline], 0%Z)
  | _ => ([], 1%Z)
  end.

(** The time of day, end to end. Let [ctime] give a line, as the C library does:
    text without newline and a newline. When a write of the asynchronous server
    completes without error, a client that gets what was sent, however cut in pieces,
    prints the line of the time at which it was accepted; the clients of the server on
    iostreams, one for each accept without error, print the times of their accepts; and a
    client that cannot connect prints the reason and returns 1. *)
Theorem daytime_shown (line : Z → bytes) host v s error c l accepts :
  (∀ t, ctime t = line t ++ [newline] ∧ newline ∉ line t) →
  RefCounted.reachable ctime v → RefCounted.enabled v (RefCounted.written s error) → failed error = false →
  RefCounted.names v !! s = Some c → RefCounted.wires v !! c = Some (mjoin l) →
  (∃ now, RefCounted.times v !! c = Some now ∧
     client_main [host] success (mkIn l eof) = (line now ++ [newline], 0%Z)) ∧
  (λ sent, client_main [host] success (mkIn [sent] eof)) <$> serve accepts =
    (λ a, (line a.2 ++ [newline], 0%Z)) <$> filter (λ a, failed a.1 = false) accepts ∧
  (∀ e i, failed e = true → client_main [host] e i = (lit "Unable to connect: " ++ message e ++ [newline], 1%Z)).
Proof.
  intros Hline Hr He Herr Hc Hl.
  assert (∀ l now, mjoin l = ctime now → client_main [host] success (mkIn l eof) = (line now ++ [newline], 0%Z)) as Hshow.
  { intros l' now E. unfold client_main, all_of. cbn [failed pieces]. rewrite E. destruct (Hline now) as [-> Hn].
    by rewrite break_line_app. }
  split_and!.
  - destruct (RefCounted.written_all ctime v s error Hr He Herr) as (c' & now & Hc' & Ht & Hw).
    rewrite Hc in Hc'. injection Hc' as <-. exists now. split; [done|]. apply Hshow. rewrite Hl in Hw. by injection Hw.
  - induction accepts as [|[ec now] acc IH]; [done|]. cbn [serve]. rewrite fmap_app, IH, filter_cons. cbn [fst].
    destruct (failed ec); [by rewrite decide_False|]. rewrite decide_True by done. cbn [fmap list_fmap app snd].
    f_equal. apply Hshow. cbn. apply app_nil_r.
  - intros e i Hf. unfold client_main. by rewrite Hf.
Qed.

End Programs.

End Daytime.

Module DaytimeExamples.
Import RefCounted Daytime.

#[local] Instance texts : ErrorText := Build_ErrorText (λ _, lit "message") (λ _, lit "code") (λ _, lit "what").

Definition clock (t : Z) : bytes := lit "Thu" ++ [newline].

(** One client has been accepted and sent its four characters. *)
Definition steps (es : list event) : outcome server := server_new ≫= foldM (handle clock) es.
Definition after (es : list event) : server :=
  match steps es with Ret v => v | _ => mkServer ∅ ∅ None ∅ ∅ ∅ ∅ 0 end.
Definition demo : server := after [accepted success 5; sent_some 0 3; sent_some 0 1].

Lemma rc_demo_reachable : reachable clock demo.
Proof.
  apply (reachable_step clock (after [accepted success 5; sent_some 0 3]) (sent_some 0 1));
    [|eexists; split; [reflexivity|cbn; lia]|reflexivity].
  apply (reachable_step clock (after [accepted success 5]) (sent_some 0 3));
    [|eexists; split; [reflexivity|cbn; lia]|reflexivity].
  apply (reachable_step clock (after []) (accepted success 5)); [|by eexists|reflexivity].
  by apply reachable_new.
Qed.

Lemma demo_written : enabled demo (written 0 success).
Proof. eexists. split; [reflexivity|]. intros _. reflexivity. Qed.

Lemma buffers_live_witness : ∃ v', handle clock demo (written 0 success) = Ret v' ∧ reachable clock v'.
Proof. exact (proj1 (buffers_live clock demo rc_demo_reachable) (written 0 success) demo_written). Defined.

Lemma daytime_shown_witness :
  client_main [lit "host"] success (mkIn [lit "T"; lit "hu" ++ [newline]] eof) = (lit "Thu" ++ [newline], 0%Z).
Proof.
  destruct (daytime_shown clock (λ _, lit "Thu") (lit "host") demo 0 success 0 [lit "T"; lit "hu" ++ [newline]] [])
    as [(now & _ & H) _]; [|apply rc_demo_reachable|apply demo_written|reflexivity..|exact H].
  intros t. split; [reflexivity|]. by apply (bool_decide_unpack _).
Defined.

End DaytimeExamples.
