(* ===== verification/TransmitFile.v ===== *)
(** * A file server on overlapped I/O

    (src/doc_searcher/data/input/html/boost_asio/example/windows/transmit_file.cpp.)
    The server sends one file to every client with TransmitFile of Windows, through an
    OVERLAPPED object that holds the handler: the system has its address from the start
    of the transfer until it completes, and completes it there, whether or not the object
    still exists; it exists as long as the pointer that made it or the io_service owns it.
    The file is opened for each connection with CreateFile, share mode 0 and OPEN_ALWAYS: a file
    that is open already cannot be opened again, and one that is missing is created. *)

From S2P Require Import Prelude CxxString Asio.
Import Asio.

Module TransmitFile.

(** ** The file *)

(** Its contents, if it exists, and the number of handles to it. *)
Record file := mkFile { content : option bytes; handles : nat }.

(** [::CreateFile(name, GENERIC_READ, 0, 0, OPEN_ALWAYS, ...)]; [denied] tells whether
    the system refuses for reasons of its own (rights, another program). *)
Definition CreateFile (f : file) (denied : bool) : option file :=
  if denied || negb (handles f =? 0)%nat then None else Some (mkFile (Some (default [] (content f))) (S (handles f))).

Definition CloseHandle (f : file) : file := mkFile (content f) (handles f - 1).

(** ** Overlapped operations *)

Definition ERROR_IO_PENDING : Z := 997.

(** [error_code(last_error, get_system_category())] *)
Definition system_error_code (last_error : Z) : error_code :=
  if (last_error =? 0)%Z then success else other_error last_error.

(** The operation a connection waits for: the transfer goes on, with so many bytes
    sent, or a completion has been posted. *)
Inductive operation := in_flight (sent : nat) | posted (ec : error_code).

(** [overlapped_ptr]: the OVERLAPPED with the handler is the pointer's own, until it is
    released to the io_service, or completed, by which a completion is posted too. *)
Inductive overlapped := owned | given (completion : option error_code).
Definition release (o : overlapped) : overlapped := match o with owned => given None | _ => o end.
Definition complete (o : overlapped) (ec : error_code) : overlapped :=
  match o with owned => given (Some ec) | _ => o end.
(** The destructor destroys an OVERLAPPED that the pointer still owns, and the handler
    with it. *)
Definition survives (o : overlapped) : bool := match o with owned => false | given _ => true end.

(** The operation the system or the io_service will complete, and whether the
    OVERLAPPED is there when [transmit_file] has returned. The system starts the
    transfer if TransmitFile succeeds or says that it is pending. *)
Definition transmit_file (ok : bool) (last_error : Z) : option operation * bool :=
  let o := owned in
  let o := if negb ok && negb (last_error =? ERROR_IO_PENDING)%Z
           then complete o (system_error_code last_error) else release o in
  (if ok || (last_error =? ERROR_IO_PENDING)%Z then Some (in_flight 0)
   else match o with given (Some ec) => Some (posted ec) | _ => None end,
   survives o).

(** ** Connections and server *)

(** What became of a client (history): what was to be sent and what was, how often its
    socket was shut down, and whether it has been closed. *)
Record client := mkClient { meant : bytes; got : bytes; shutdowns : nat; closed : bool }.

Record server := mkServer {
  file_ : file;
  accepting : option nat;             (* async_accept into the socket of this connection *)
  transfers : gmap nat operation;     (* the operations to be completed, by connection *)
  overlappeds : gset nat;             (* the OVERLAPPED objects the io_service owns *)
  clients : gmap nat client;
  next : nat;
}.

(** [start_accept]: a new connection. *)
Definition start_accept (v : server) : server :=
  mkServer (file_ v) (Some (next v)) (transfers v) (overlappeds v) (clients v) (S (next v)).

Definition server_new (f : file) : server := start_accept (mkServer f None ∅ ∅ ∅ 0).

(** [connection::start]. A connection no handler refers to is destroyed, and its
    file and its socket closed. *)
Definition start (v : server) (i : nat) (denied ok : bool) (last_error : Z) : server :=
  match CreateFile (file_ v) denied with
  | None =>
      mkServer (file_ v) (accepting v) (transfers v) (overlappeds v)
        (<[i := mkClient [] [] 0 true]> (clients v)) (next v)
  | Some f =>
      let '(op, alive) := transmit_file ok last_error in
      let transfers := match op with Some op => <[i := op]> (transfers v) | None => transfers v end in
      let data := default [] (content f) in
      if alive then
        mkServer f (accepting v) transfers ({[i]} ∪ overlappeds v)
          (<[i := mkClient data [] 0 false]> (clients v)) (next v)
      else
        mkServer (CloseHandle f) (accepting v) transfers (overlappeds v)
          (<[i := mkClient data [] 0 true]> (clients v)) (next v)
  end.

Definition handle_accept (v : server) (i : nat) (error : error_code) (denied ok : bool) (last_error : Z) : server :=
  let v := mkServer (file_ v) None (transfers v) (overlappeds v) (clients v) (next v) in
  start_accept (if failed error then v else start v i denied ok last_error).

(** [handle_write]: the socket is shut down; then the OVERLAPPED is destroyed with the
    handler, and the connection with it, its handle of the file and its socket. *)
Definition handle_write (v : server) (i : nat) : server :=
  mkServer (CloseHandle (file_ v)) (accepting v) (transfers v) (overlappeds v ∖ {[i]})
    (alter (λ c, mkClient (meant c) (got c) (S (shutdowns c)) true) i (clients v)) (next v).

(** The operation of connection [i] is completed: its OVERLAPPED is used, and the
    handler in it called. *)
Definition completes (v : server) (i : nat) : outcome server :=
  if bool_decide (i ∈ overlappeds v) then
    Ret (handle_write (mkServer (file_ v) (accepting v) (delete i (transfers v)) (overlappeds v) (clients v)
                         (next v)) i)
  else Undef NullDeref.

(** The system sends the next [n] bytes of the file. *)
Definition send_some (v : server) (i k n : nat) : server :=
  mkServer (file_ v) (accepting v) (<[i := in_flight (k + n)]> (transfers v)) (overlappeds v)
    (alter (λ c, mkClient (meant c) (got c ++ take n (drop k (default [] (content (file_ v))))) (shutdowns c) (closed c))
       i (clients v)) (next v).

Definition size_of (f : file) : nat := length (default [] (content f)).

(** A file that is not open may be changed, or removed. *)
Inductive step : server → outcome server → Prop :=
  | step_accept v i error denied ok last_error :
      accepting v = Some i → step v (Ret (handle_accept v i error denied ok last_error))
  | step_send v i k n :
      transfers v !! i = Some (in_flight k) → 0 < n → k + n ≤ size_of (file_ v) → step v (Ret (send_some v i k n))
  | step_complete v i k ec :
      transfers v !! i = Some (in_flight k) → (failed ec = false → k = size_of (file_ v)) → step v (completes v i)
  | step_posted v i ec :
      transfers v !! i = Some (posted ec) → step v (completes v i)
  | step_change v c :
      handles (file_ v) = 0 →
      step v (Ret (mkServer (mkFile c 0) (accepting v) (transfers v) (overlappeds v) (clients v) (next v))).

Inductive reachable (f : file) : server → Prop :=
  | reach_new : reachable f (server_new f)
  | reach_step v v' : reachable f v → step v (Ret v') → reachable f v'.

(** ** The invariant *)

Definition sent_of (op : operation) : nat := match op with in_flight k => k | posted _ => 0 end.

(** A connection whose transfer goes on. *)
Definition transfer_ok (v : server) (i : nat) (op : operation) : Prop :=
  i < next v ∧ accepting v ≠ Some i ∧ handles (file_ v) = 1 ∧ sent_of op ≤ size_of (file_ v) ∧
  ∃ data, content (file_ v) = Some data ∧ clients v !! i = Some (mkClient data (take (sent_of op) data) 0 false).

Record inv (v : server) : Prop := {
  inv_accept : ∃ a, accepting v = Some a ∧ a < next v ∧ clients v !! a = None;
  inv_handles : handles (file_ v) = size (transfers v);
  inv_owned : overlappeds v = dom (transfers v);
  inv_transfers : ∀ i op, transfers v !! i = Some op → transfer_ok v i op;
  inv_one : ∀ i j op op', transfers v !! i = Some op → transfers v !! j = Some op' → i = j;
  inv_clients : ∀ i c, clients v !! i = Some c → i < next v ∧ got c `prefix_of` meant c ∧
    (closed c = false ↔ is_Some (transfers v !! i)) ∧ shutdowns c ≤ 1 ∧ (shutdowns c = 1 → closed c = true);
}.

(** [transmit_file] leaves an operation to be completed, and its OVERLAPPED. *)
Lemma transmit_file_given ok last_error :
  transmit_file ok last_error =
    (Some (if ok || (last_error =? ERROR_IO_PENDING)%Z then in_flight 0
           else posted (system_error_code last_error)), true).
Proof. unfold transmit_file. destruct ok, (last_error =? ERROR_IO_PENDING)%Z; done. Qed.

Lemma tf_inv_new f : handles f = 0 → inv (server_new f).
Proof.
  intros Hf. split; cbn.
  - exists 0. split_and!; [done|lia|done].
  - by rewrite map_size_empty.
  - by rewrite dom_empty_L.
  - intros i op. by rewrite lookup_empty.
  - intros i j op op'. by rewrite lookup_empty.
  - intros i c. by rewrite lookup_empty.
Qed.

(** No transfer when there is no handle. *)
Lemma no_transfer v : inv v → handles (file_ v) = 0 → transfers v = ∅.
Proof. intros Hi H0. apply map_size_empty_inv. by rewrite <-(inv_handles _ Hi). Qed.

Lemma clients_fresh v : inv v → clients v !! next v = None.
Proof.
  intros Hi. destruct (clients v !! next v) as [c|] eqn:E; [|done]. apply (inv_clients _ Hi) in E as [Hlt _]. lia.
Qed.

(** Accepting again after the client [i] has been dealt with. *)
Lemma tf_inv_start_accept v f ts os cs :
  inv v → handles f = size ts → os = dom ts →
  (∀ i op, ts !! i = Some op → transfer_ok (mkServer f (Some (next v)) ts os cs (S (next v))) i op) →
  (∀ i j op op', ts !! i = Some op → ts !! j = Some op' → i = j) →
  cs !! next v = None →
  (∀ i c, cs !! i = Some c → i < next v ∧ got c `prefix_of` meant c ∧
    (closed c = false ↔ is_Some (ts !! i)) ∧ shutdowns c ≤ 1 ∧ (shutdowns c = 1 → closed c = true)) →
  inv (start_accept (mkServer f None ts os cs (next v))).
Proof.
  intros Hi Hh Hos Ht Ho Hn Hc. split; cbn; try done.
  - exists (next v). split_and!; [done|lia|done].
  - intros i c Hx. destruct (Hc i c Hx) as (Hlt & Hrest). split; [lia|done].
Qed.

Lemma transfer_ok_accept v i op os cs :
  transfer_ok v i op → cs !! i = clients v !! i →
  transfer_ok (mkServer (file_ v) (Some (next v)) (transfers v) os cs (S (next v))) i op.
Proof.
  intros (Hlt & Ha & Hh & Hs & Hd) Hcs. split_and!; cbn; [lia|intros [=]; lia|done|done|by rewrite Hcs].
Qed.

Lemma inv_handle_accept v i error denied ok last_error :
  inv v → accepting v = Some i → inv (handle_accept v i error denied ok last_error).
Proof.
  intros Hi Hacc. pose proof Hi as [(a & Ha & Hlt & Hca) Hh Hown Ht Ho Hc]. assert (a = i) as -> by congruence.
  assert (transfers v !! i = None) as Hti.
  { destruct (transfers v !! i) eqn:E; [|done]. by destruct (Ht i _ E) as (_ & Hne & _). }
  assert (∀ k c, clients v !! k = Some c → k ≠ i) as Hki by (intros k c Hk ->; congruence).
  unfold handle_accept. destruct (failed error).
  { apply tf_inv_start_accept; try done; [|by apply clients_fresh].
    intros k op Hk. apply transfer_ok_accept; [by apply Ht|done]. }
  unfold start, CreateFile. cbn [file_ accepting transfers clients next].
  destruct (denied || negb (handles (file_ v) =? 0)%nat) eqn:E.
  - apply tf_inv_start_accept; try done.
    + intros k op Hk. apply transfer_ok_accept; [by apply Ht|]. apply lookup_insert_ne. congruence.
    + rewrite lookup_insert_ne by lia. by apply clients_fresh.
    + intros k c [[<- <-]|[_ Hk]]%lookup_insert_Some; [|by apply Hc].
      rewrite Hti. split_and!; [done|done| |cbn; lia|done]. split; [done|by intros []].
  - apply orb_false_iff in E as [_ E%negb_false_iff%Nat.eqb_eq]. rewrite (no_transfer v Hi E) in *.
    rewrite (transmit_file_given ok last_error). set (op := if ok || _ then _ else _).
    assert (sent_of op = 0) as Hop by (unfold op; by destruct (_ || _)).
    cbv iota beta zeta. apply tf_inv_start_accept; cbn [content handles default]; try done.
    + rewrite E, insert_empty. by rewrite map_size_singleton.
    + by rewrite Hown, dom_insert_L.
    + intros k o [[<- <-]|[_ Hk]]%lookup_insert_Some; [|by rewrite lookup_empty in Hk].
      split_and!; cbn; [lia|intros [=]; lia|by rewrite E|lia|]. eexists. split; [done|].
      rewrite lookup_insert_eq, Hop. done.
    + intros k j o o' Hk Hj. rewrite insert_empty in Hk, Hj.
      apply lookup_singleton_Some in Hk as [<- _]. by apply lookup_singleton_Some in Hj as [<- _].
    + rewrite lookup_insert_ne by lia. by apply clients_fresh.
    + intros k c [[<- <-]|[Hne Hk]]%lookup_insert_Some.
      * split_and!; cbn; [lia|apply prefix_nil| |lia|done]. rewrite lookup_insert_eq. split; eauto.
      * destruct (Hc k c Hk) as (? & ? & Hcl & ?). rewrite insert_empty, lookup_singleton_ne by done.
        by rewrite lookup_empty in Hcl.
Qed.

Lemma inv_send_some v i k n :
  inv v → transfers v !! i = Some (in_flight k) → k + n ≤ size_of (file_ v) → inv (send_some v i k n).
Proof.
  intros [(a & Ha & Hlt & Hca) Hh Hown Ht Ho Hc] Hti Hn.
  destruct (Ht i _ Hti) as (Hi & Hne & Hh1 & Hk & data & Hdata & Hcl). cbn in Hk, Hcl.
  assert (∀ j op, transfers v !! j = Some op → j = i) as Hone by (intros j op Hj; by apply (Ho j i op (in_flight k))).
  unfold size_of in *. rewrite Hdata in Hn, Hk. cbn in Hn, Hk.
  split; cbn; rewrite ?Hdata; cbn.
  - exists a. split_and!; [done..|]. rewrite lookup_alter_ne; [done|congruence].
  - by rewrite map_size_insert_Some by eauto.
  - rewrite Hown, dom_insert_lookup_L; eauto.
  - intros j op [[<- <-]|[Hj Hj']]%lookup_insert_Some; [|by destruct Hj; symmetry; eapply Hone].
    split_and!; cbn; [done|done|done|unfold size_of; rewrite Hdata; cbn; lia|]. exists data. split; [done|].
    rewrite lookup_alter_eq, Hcl. cbn. rewrite Hdata. cbn. by rewrite take_take_drop.
  - intros j j' op op' Hj Hj'. apply lookup_insert_Some in Hj as [[<- _]|[_ Hj]];
      apply lookup_insert_Some in Hj' as [[<- _]|[_ Hj']]; [done|symmetry; by eapply Hone|by eapply Hone|by eapply Ho].
  - intros j c Hj. destruct (decide (j = i)) as [->|Hji].
    + rewrite lookup_alter_eq, Hcl in Hj. cbn in Hj. rewrite ?Hdata in Hj. injection Hj as <-. cbn.
      rewrite take_take_drop, lookup_insert_eq.
      split_and!; [done|apply prefix_take|split; eauto|lia|done].
    + rewrite lookup_alter_ne in Hj by done. rewrite lookup_insert_ne by done. by apply Hc.
Qed.

Lemma tf_inv_completes v i op :
  inv v → transfers v !! i = Some op → ∃ v', completes v i = Ret v' ∧ inv v'.
Proof.
  intros [(a & Ha & Hlt & Hca) Hh Hown Ht Ho Hc] Hti.
  destruct (Ht i _ Hti) as (Hi & Hne & Hh1 & Hk & data & Hdata & Hcl).
  assert (delete i (transfers v) = ∅) as He.
  { apply map_empty. intros j. destruct (decide (j = i)) as [->|Hj]; [apply lookup_delete_eq|].
    rewrite lookup_delete_ne by done. destruct (transfers v !! j) eqn:E; [|done]. by destruct Hj; eapply Ho. }
  unfold completes. rewrite bool_decide_true by (rewrite Hown; apply elem_of_dom; eauto).
  eexists. split; [reflexivity|]. unfold handle_write. rewrite He.
  cbn [file_ accepting transfers overlappeds clients next]. split; cbn.
  - exists a. split_and!; [done..|]. rewrite lookup_alter_ne; [done|congruence].
  - by rewrite Hh1, map_size_empty.
  - rewrite dom_empty_L. apply (dom_empty_iff_L (D := gset nat)) in He. rewrite dom_delete_L in He. by rewrite Hown.
  - intros j o. by rewrite lookup_empty.
  - intros j j' o o'. by rewrite lookup_empty.
  - intros j c Hj. destruct (decide (j = i)) as [->|Hji].
    + rewrite lookup_alter_eq, Hcl in Hj. injection Hj as <-. cbn. rewrite lookup_empty.
      split_and!; [done|apply prefix_take|by split; [|intros []]|lia|done].
    + rewrite lookup_alter_ne in Hj by done. destruct (Hc j c Hj) as (? & ? & Hcl' & ? & ?).
      split_and!; [done..| |done|done].
      assert (transfers v !! j = None) as E.
      { rewrite <-(lookup_delete_ne (transfers v) i j), He by done. apply lookup_empty. }
      rewrite E in Hcl'. by rewrite lookup_empty.
Qed.

Lemma tf_inv_step v o : inv v → step v o → ∃ v', o = Ret v' ∧ inv v'.
Proof.
  intros Hi Hst. destruct Hst as [v i error denied ok le Ha|v i k n Hk H0 Hn|v i k ec Hk Hec|v i ec Hk|v c Hh].
  - eexists. split; [done|]. by apply inv_handle_accept.
  - eexists. split; [done|]. by apply inv_send_some.
  - by eapply tf_inv_completes.
  - by eapply tf_inv_completes.
  - eexists. split; [done|]. pose proof (no_transfer v Hi Hh) as He. destruct Hi as [Ha Hh' Hown Ht Ho Hc].
    rewrite He in *. split; cbn; rewrite ?He. all: done.
Qed.

Lemma tf_reachable_inv f v : handles f = 0 → reachable f v → inv v.
Proof.
  intros Hf. induction 1 as [|v v' _ IH Hst]; [by apply tf_inv_new|].
  by destruct (tf_inv_step _ _ IH Hst) as (? & [= <-] & ?).
Qed.

(** C34: the file server. From a state in which no handle of the file is open, in every
    reachable state: whatever happens next is defined; in particular, when the system or
    the io_service completes an operation its OVERLAPPED is there, and the OVERLAPPEDs
    the io_service owns are exactly those of the operations to be completed, so that
    each handler will be called. An accept is outstanding, and accepting a client while
    nobody has the file open starts one operation for it, a transfer, or a completion
    with the error if TransmitFile fails at once. At most one connection has the file
    open and transmits, and a client accepted meanwhile is closed without having been
    sent anything. Each client has been sent a prefix of the file as it was when its
    connection opened it, all of it when the transfer succeeds, and its socket is shut
    down at most once, after which it is closed. *)
Theorem one_transfer f v :
  handles f = 0 → reachable f v →
  (∀ o, step v o → ∃ v', o = Ret v' ∧ reachable f v') ∧
  overlappeds v = dom (transfers v) ∧
  (∃ a, accepting v = Some a ∧ clients v !! a = None ∧
     ∀ ok e, handles (file_ v) = 0 →
       let data := default [] (content (file_ v)) in
       let v' := handle_accept v a success false ok e in
       transfers v' = {[a := if ok || (e =? ERROR_IO_PENDING)%Z then in_flight 0 else posted (system_error_code e)]} ∧
       clients v' !! a = Some (mkClient data [] 0 false)) ∧
  (∀ i j op op', transfers v !! i = Some op → transfers v !! j = Some op' → i = j) ∧
  (∀ i a op denied ok e, transfers v !! i = Some op → accepting v = Some a →
     clients (handle_accept v a success denied ok e) !! a = Some (mkClient [] [] 0 true) ∧
     transfers (handle_accept v a success denied ok e) = transfers v) ∧
  (∀ i k, transfers v !! i = Some (in_flight k) → k = size_of (file_ v) →
     ∃ data v', content (file_ v) = Some data ∧ completes v i = Ret v' ∧
       clients v' !! i = Some (mkClient data data 1 true)) ∧
  (∀ i c, clients v !! i = Some c → got c `prefix_of` meant c ∧ shutdowns c ≤ 1 ∧
     (shutdowns c = 1 → closed c = true) ∧ (closed c = false ↔ is_Some (transfers v !! i))).
Proof.
  intros Hf Hr. pose proof (tf_reachable_inv f v Hf Hr) as Hi.
  pose proof Hi as [(a & Ha & Hlt & Hca) Hh Hown Ht Ho Hc]. split_and!; try done.
  - intros o Hst. destruct (tf_inv_step v o Hi Hst) as (v' & -> & _). exists v'. split; [done|]. by eapply reach_step.
  - exists a. split_and!; [done..|]. intros ok e H0. cbv zeta. unfold handle_accept, start, CreateFile.
    change (failed success) with false. cbn [file_ orb]. rewrite H0. cbn [negb Nat.eqb].
    rewrite (transmit_file_given ok e). cbn. by rewrite (no_transfer v Hi H0), lookup_insert_eq.
  - intros i b op denied ok e Hti Hb. destruct (Ht i op Hti) as (_ & _ & Hh1 & _).
    unfold handle_accept, start, CreateFile. change (failed success) with false. cbn [file_]. rewrite Hh1.
    replace (denied || negb (1 =? 0)%nat) with true by by destruct denied. cbn. by rewrite lookup_insert_eq.
  - intros i k Hti ->. destruct (Ht i _ Hti) as (_ & _ & _ & _ & data & Hd & Hcl). exists data. eexists.
    split; [done|]. unfold completes. rewrite bool_decide_true by (rewrite Hown; apply elem_of_dom; eauto).
    split; [reflexivity|]. cbn in Hcl |- *. rewrite lookup_alter_eq, Hcl. cbn. unfold size_of. rewrite Hd. cbn.
    by rewrite firstn_all.
  - intros i c Hci. destruct (Hc i c Hci) as (_ & ? & ? & ? & ?). done.
Qed.

End TransmitFile.

Module TransmitFileExamples.
Import TransmitFile.

Definition page : file := mkFile (Some (lit "hello")) 0.

(** One client is being sent the file. *)
Definition busy : server := handle_accept (server_new page) 0 success false false ERROR_IO_PENDING.

Lemma tf_busy_reachable : reachable page busy.
Proof. eapply reach_step; [apply reach_new|]. by apply step_accept. Qed.

(** A second client finds the file open. *)
Lemma one_transfer_witness :
  clients (handle_accept busy 1 success false true 0) !! 1 = Some (mkClient [] [] 0 true).
Proof.
  destruct (one_transfer page busy eq_refl tf_busy_reachable) as (_ & _ & _ & _ & H & _).
  exact (proj1 (H 0 1 (in_flight 0) false true 0%Z eq_refl eq_refl)).
Defined.

End TransmitFileExamples.
