(* ===== verification/Multicast.v ===== *)
(** * Multicast and a pair of local sockets

    (src/doc_searcher/data/input/html/boost_asio/example/multicast/{sender,
    receiver}.cpp and local/connect_pair.cpp.) The sender multicasts ten messages,
    one each second; a receiver prints what it gets. The other program sends lines
    through a filter that turns them into upper case, over a pair of connected
    sockets. *)

From S2P Require Import Prelude CxxString Asio Echo.
Import Asio.

Module Multicast.

Definition max_message_count : Z := 10.

Inductive op := sending | waiting | stopped.

(** [sent]: the datagrams that were handed to the socket; not kept by the program. *)
Record sender := mkSender {
  message_count_ : Z;
  message_ : bytes;
  pending : op;
  sent : list bytes;
}.

Definition text (n : Z) : bytes := lit "Message " ++ show_unsigned n.

(** [os << "Message " << message_count_++] and [async_send_to] *)
Definition send_next (s : sender) : sender :=
  let m := text (message_count_ s) in
  mkSender (message_count_ s + 1) m sending (sent s ++ [m]).

Definition sender_new : sender := send_next (mkSender 0 [] stopped []).

Definition handle_send_to (s : sender) (error : error_code) : sender :=
  mkSender (message_count_ s) (message_ s)
    (if negb (failed error) && (message_count_ s <? max_message_count)%Z then waiting else stopped) (sent s).

Definition handle_timeout (s : sender) (error : error_code) : sender :=
  if failed error then mkSender (message_count_ s) (message_ s) stopped (sent s) else send_next s.

(** The operations complete one after the other with the given errors. *)
Definition complete (s : sender) (error : error_code) : sender :=
  match pending s with
  | sending => handle_send_to s error
  | waiting => handle_timeout s error
  | stopped => s
  end.
Definition run_sender (errors : list error_code) : sender := foldl complete sender_new errors.

(** The receiver: what it has printed, and whether it still receives. *)
Record receiver := mkReceiver { cout : bytes; receiving : bool }.
Definition receiver_new : receiver := mkReceiver [] true.
Definition max_length : nat := 1024.

Definition handle_receive_from (r : receiver) (error : error_code) (data : bytes) : receiver :=
  if failed error then mkReceiver (cout r) false else mkReceiver (cout r ++ data ++ [newline]) true.

Definition run_receiver (l : list (error_code * bytes)) : receiver :=
  foldl (λ r '(e, d), if receiving r then handle_receive_from r e (take max_length d) else r) receiver_new l.

(** ** The ten messages *)
Definition messages : list bytes := text <$> (Z.of_nat <$> seq 0 10).

Definition sender_ok (s : sender) : Prop :=
  ∃ n, 0 < n ≤ 10 ∧ message_count_ s = Z.of_nat n ∧ sent s = take n messages ∧
    (pending s = waiting → n < 10).

Lemma send_next_ok s n :
  message_count_ s = Z.of_nat n → n < 10 → sent s = take n messages → sender_ok (send_next s).
Proof.
  intros Hm Hn Hs. exists (S n). unfold send_next. rewrite Hm, Hs. cbn [message_count_ sent pending].
  split_and!; [lia|lia|lia| |done].
  rewrite (take_S_r messages n (text (Z.of_nat n))); [done|].
  unfold messages. rewrite !list_lookup_fmap, lookup_seq_lt by lia. done.
Qed.

Lemma sender_new_ok : sender_ok sender_new.
Proof. apply (send_next_ok _ 0); [done|lia|done]. Qed.

Lemma complete_ok s error : sender_ok s → sender_ok (complete s error).
Proof.
  intros (n & Hn & Hm & Hs & Hw). unfold complete. destruct (pending s) eqn:E.
  - exists n. unfold handle_send_to. cbn. split_and!; try done; [lia..|]. rewrite Hm.
    destruct (failed error); cbn; [done|]. destruct (Z.ltb_spec (Z.of_nat n) max_message_count); [|done].
    intros _. unfold max_message_count in *. lia.
  - unfold handle_timeout. destruct (failed error); [exists n; cbn; split_and!; done || lia|].
    by apply (send_next_ok _ n); [|apply Hw|].
  - exists n. rewrite E. split_and!; done || lia.
Qed.

Lemma run_sender_ok errors : sender_ok (run_sender errors).
Proof.
  unfold run_sender. generalize sender_new_ok. generalize sender_new.
  induction errors as [|e errors IH]; intros s Hs; [done|]. cbn. apply IH. by apply complete_ok.
Qed.

Lemma run_receiver_app r l :
  receiving r = true →
  foldl (λ r '(e, d), if receiving r then handle_receive_from r e (take max_length d) else r) r
    ((λ d, (success, d)) <$> l) =
  mkReceiver (cout r ++ mjoin ((λ d, take max_length d ++ [newline]) <$> l)) true.
Proof.
  revert r. induction l as [|d l IH]; intros r Hr; cbn [fmap list_fmap foldl].
  - destruct r. cbn in *. subst. by rewrite app_nil_r.
  - rewrite Hr. change (list_fmap _ _ (λ d, (success, d)) l) with ((λ d, (success, d)) <$> l).
    rewrite IH by done. f_equal. unfold handle_receive_from. change (failed success) with false. cbn [cout].
    rewrite <-!app_assoc. f_equal. unfold mjoin. cbn [list_join]. by rewrite <-!app_assoc.
Qed.

(** Sender and receiver. Whatever operations fail, the sender multicasts a
    prefix of "Message 0" to "Message 9", each once and in order, and never an
    eleventh; when nothing fails it has sent all ten after nineteen completions and has
    stopped. A receiver that gets some of the datagrams, in any order, prints each
    on a line of its own, unchanged; the network may lose and reorder them. *)
Theorem multicast_delivery errors got :
  sent (run_sender errors) `prefix_of` messages ∧ length messages = 10 ∧
  (Forall (λ e, failed e = false) errors → 19 ≤ length errors →
     sent (run_sender errors) = messages ∧ pending (run_sender errors) = stopped) ∧
  (Forall (λ d, d ∈ sent (run_sender errors)) got →
     run_receiver ((λ d, (success, d)) <$> got) = mkReceiver (mjoin ((λ d, d ++ [newline]) <$> got)) true).
Proof.
  destruct (run_sender_ok errors) as (n & Hn & Hm & Hs & Hw).
  assert (∀ d, d ∈ messages → length d ≤ max_length) as Hshort.
  { intros d. unfold messages. rewrite list_elem_of_fmap. intros (z & -> & Hz).
    apply list_elem_of_fmap in Hz as (k & -> & [_ Hk]%elem_of_seq).
    do 10 (destruct k as [|k]; [apply (bool_decide_unpack _); vm_compute; exact I|]). lia. }
  split_and!.
  - rewrite Hs. exists (drop n messages). by rewrite take_drop.
  - done.
  - intros Hall Hlen.
    assert (∃ rest, errors = replicate 19 success ++ rest) as [rest ->].
    { exists (drop 19 errors). rewrite <-(take_drop 19 errors) at 1. f_equal.
      apply list_eq. intros i. destruct (decide (i < 19)) as [Hi|Hi].
      - rewrite lookup_take_lt, lookup_replicate_2 by lia.
        destruct (lookup_lt_is_Some_2 errors i) as [e He]; [lia|]. rewrite He.
        pose proof (Forall_lookup_1 _ _ _ _ Hall He) as Hf. by destruct e.
      - rewrite lookup_take_ge by lia. symmetry. apply lookup_ge_None_2. rewrite length_replicate. lia. }
    unfold run_sender. rewrite foldl_app.
    assert (foldl complete sender_new (replicate 19 success) = mkSender 10 (text 9) stopped messages) as ->
      by (vm_compute; reflexivity).
    clear. induction rest as [|e rest IH]; [done|]. exact IH.
  - intros Hgot. unfold run_receiver. rewrite run_receiver_app by done. cbn [cout receiver_new app]. do 2 f_equal.
    apply list_fmap_ext. intros i d Hd. rewrite take_ge; [done|]. apply Hshort.
    pose proof (Forall_lookup_1 _ _ _ _ Hgot Hd) as Hin. cbn in Hin. rewrite Hs in Hin.
    apply list_elem_of_lookup in Hin as [k Hk]. apply lookup_take_Some in Hk as [Hk _].
    by eapply list_elem_of_lookup_2.
Qed.

Lemma multicast_delivery_witness :
  sent (run_sender (replicate 19 success)) = messages.
Proof.
  apply (multicast_delivery (replicate 19 success) []).
  - apply Forall_replicate. reflexivity.
  - apply (bool_decide_unpack _). vm_compute. exact I.
Defined.

End Multicast.

(** ** connect_pair.cpp *)
Module UppercaseFilter.
Import EchoClient.

(** [std::toupper(c)] in the C locale, for a char that is signed: defined for the
    values of unsigned char and for EOF, which is -1. *)
Definition toupper (c : ascii) : outcome ascii :=
  let v := nat_of_ascii c in
  if (128 <=? v)%nat && negb (v =? 255)%nat then Undef OutOfBounds
  else Ret (if (97 <=? v)%nat && (v <=? 122)%nat then ascii_of_nat (v - 32) else c).

Inductive filter_op := reading | writing | thrown (e : error_code).

Record uppercase_filter := mkFilter { pending : filter_op; data_ : bytes }.

(** The loop of [handle_read] over the bytes that were read. *)
Fixpoint upper_loop (s : bytes) : outcome bytes :=
  match s with
  | [] => Ret []
  | c :: s => c' ← toupper c; s' ← upper_loop s; Ret (c' :: s')
  end.

Definition start (f : uppercase_filter) : uppercase_filter := mkFilter reading (data_ f).

Definition handle_read (f : uppercase_filter) (ec : error_code) (data : bytes) : outcome uppercase_filter :=
  if failed ec then Ret (mkFilter (thrown ec) data)
  else data ← upper_loop data; Ret (mkFilter writing data).

Definition handle_write (f : uppercase_filter) (ec : error_code) : uppercase_filter :=
  if failed ec then mkFilter (thrown ec) (data_ f) else mkFilter reading (data_ f).

(** The filter on the pieces in which a request reaches it: what it sends back. *)
Fixpoint filter_pieces (f : uppercase_filter) (l : list bytes) : outcome (list bytes * uppercase_filter) :=
  match l with
  | [] => Ret ([], f)
  | x :: l =>
      f ← handle_read f success x;
      '(out, f') ← filter_pieces (handle_write f success) l; Ret (data_ f :: out, f')
  end.

(** One round of the loop of [main], [pieces] being what the filter has read of the
    request: [&reply\[0\]] of an empty vector is undefined. *)
Definition main_round (f : uppercase_filter) (request : bytes) (pieces : list bytes) :
    outcome (bytes * uppercase_filter) :=
  '(out, f) ← filter_pieces f pieces;
  match read_exactly (length request) out eof with
  | inl e => Throw system_error
  | inr reply =>
      if (length reply =? 0)%nat then Undef OutOfBounds
      else Ret (lit "Enter a string: " ++ lit "Result: " ++ reply ++ [newline], f)
  end.

(** The text in upper case. *)
Definition upper (s : bytes) : bytes :=
  (λ c, let v := nat_of_ascii c in if (97 <=? v)%nat && (v <=? 122)%nat then ascii_of_nat (v - 32) else c) <$> s.

Definition plain (s : bytes) : Prop := Forall (λ c, nat_of_ascii c < 128) s.

Lemma upper_loop_plain s : plain s → upper_loop s = Ret (upper s).
Proof.
  intros Hs. induction Hs as [|c s Hc _ IH]; [done|]. cbn [upper_loop]. unfold toupper.
  rewrite (proj2 (Nat.leb_gt _ _)) by done. cbn [andb]. cbn [mbind outcome_bind]. by rewrite IH.
Qed.

Lemma filter_pieces_plain f l :
  pending f = reading → Forall plain l →
  ∃ f', filter_pieces f l = Ret (upper <$> l, f') ∧ pending f' = reading.
Proof.
  intros Hf Hl. revert f Hf. induction Hl as [|x l Hx _ IH]; intros f Hf; [eauto|].
  cbn [filter_pieces]. unfold handle_read. change (failed success) with false. cbv iota.
  rewrite upper_loop_plain by done. cbn [mbind outcome_bind].
  destruct (IH (handle_write (mkFilter writing (upper x)) success)) as (f' & -> & Hf'); [done|]. cbn. eauto.
Qed.

Lemma upper_join l : mjoin (upper <$> l) = upper (mjoin l).
Proof.
  induction l as [|x l IH]; [done|]. rewrite fmap_cons.
  change (upper x ++ mjoin (upper <$> l) = upper (x ++ mjoin l)). rewrite IH. unfold upper. by rewrite fmap_app.
Qed.

(** The filter and its client. A line of ASCII characters that is not empty is
    shown in upper case, in however many pieces the filter has read it, and the
    filter is ready for the next; letters become capitals and nothing else changes.
    The empty line, which is also what the program goes on with at the end of its
    input, is undefined, and so is a line with a character beyond ASCII. *)
Theorem uppercase_round f request pieces :
  pending f = reading → mjoin pieces = request → plain request →
  (request ≠ [] → ∃ f', main_round f request pieces =
     Ret (lit "Enter a string: " ++ lit "Result: " ++ upper request ++ [newline], f') ∧ pending f' = reading) ∧
  (request = [] → main_round f request pieces = Undef OutOfBounds) ∧
  length (upper request) = length request ∧ upper (upper request) = upper request.
Proof.
  intros Hf Hj Hp. assert (Forall plain pieces) as Hpl.
  { apply Forall_forall. intros x Hx. apply Forall_forall. intros c Hc. unfold plain in Hp. rewrite Forall_forall in Hp.
    apply Hp. rewrite <-Hj. apply list_elem_of_join. eauto. }
  destruct (filter_pieces_plain f pieces Hf Hpl) as (f' & E & Hf').
  assert (length (upper request) = length request) as Hlen by (unfold upper; by rewrite length_fmap).
  assert (read_exactly (length request) (upper <$> pieces) eof = inr (upper request)) as Hread.
  { rewrite <-Hj, <-upper_join. apply read_exactly_all. by rewrite upper_join, Hj. }
  unfold main_round. rewrite E. cbn [mbind outcome_bind]. rewrite Hread, Hlen. split_and!.
  - intros Hne. destruct request; [done|]. cbn [length Nat.eqb]. eauto.
  - by intros ->.
  - done.
  - clear -Hp. induction Hp as [|c s Hc _ IH]; [done|]. unfold upper in *. cbn [fmap list_fmap]. f_equal; [|exact IH].
    assert (forallb (λ n, let u := λ c, let v := nat_of_ascii c in
                if (97 <=? v)%nat && (v <=? 122)%nat then ascii_of_nat (v - 32) else c in
              bool_decide (u (u (ascii_of_nat n)) = u (ascii_of_nat n))) (seq 0 256) = true) as Hall
      by (vm_compute; reflexivity).
    rewrite forallb_forall in Hall. rewrite <-(ascii_nat_embedding c).
    apply (bool_decide_unpack _), Is_true_true, Hall, in_seq. lia.
Qed.

Lemma uppercase_round_witness :
  ∃ f', main_round (mkFilter reading []) (lit "Hi you") [lit "Hi"; lit " you"] =
    Ret (lit "Enter a string: " ++ lit "Result: " ++ lit "HI YOU" ++ [newline], f') ∧ pending f' = reading.
Proof.
  apply (uppercase_round (mkFilter reading []) (lit "Hi you") [lit "Hi"; lit " you"]);
    [reflexivity|reflexivity| |discriminate].
  apply (bool_decide_unpack _). vm_compute. exact I.
Defined.

(** ** The program *)

(** The loop of [main] on lines and the pieces in which the filter reads them. At the end
    of the input [getline] leaves the request empty, and the loop goes on. *)
Fixpoint main_loop (f : uppercase_filter) (l : list (bytes * list bytes)) (out : bytes) : outcome bytes :=
  match l with
  | [] => '(t, _) ← main_round f [] []; Ret (out ++ t)
  | (request, pieces) :: l => '(t, f) ← main_round f request pieces; main_loop f l (out ++ t)
  end.

Section Program.
Context `{ErrorText}.

(** [run]: an exception that leaves a handler ends the program. *)
Definition run (f : uppercase_filter) : option (bytes * Z) :=
  match pending f with
  | thrown e => Some (lit "Exception in thread: " ++ what e ++ [newline], 1%Z)
  | _ => None
  end.

(** [main]: error text and status when the pair cannot be made, else what is printed. *)
Definition pair_main (connect_pair : error_code) (l : list (bytes * list bytes)) : outcome ((bytes * Z) + bytes) :=
  if failed connect_pair then Ret (inl (lit "Exception: " ++ what connect_pair ++ [newline], 1%Z))
  else inr <$> main_loop (start (mkFilter reading [])) l [].

(** No run on lines of ASCII ends well: whatever they are, at the latest the end of the
    input is an access outside of an empty vector. *)
Lemma pair_main_undefined l :
  Forall (λ x, mjoin x.2 = x.1 ∧ plain x.1) l → pair_main success l = Undef OutOfBounds.
Proof.
  intros Hl. unfold pair_main. change (failed success) with false. cbn [start data_].
  assert (∀ f out, pending f = reading → main_loop f l out = Undef OutOfBounds) as Hloop.
  { induction Hl as [|[request pieces] l [Hj Hp] _ IH]; intros f out Hf; cbn [main_loop].
    - destruct (filter_pieces_plain f [] Hf) as (f' & E & _); [constructor|]. unfold main_round. by rewrite E.
    - destruct (filter_pieces_plain f pieces Hf) as (f' & E & Hf').
      { apply Forall_forall. intros x Hx. cbn in Hj, Hp. apply Forall_forall. intros c Hc. unfold plain in Hp.
        rewrite Forall_forall in Hp. apply Hp. rewrite <-Hj. apply list_elem_of_join. eauto. }
      unfold main_round. rewrite E. cbn [mbind outcome_bind]. cbn in Hj.
      rewrite read_exactly_all by (rewrite upper_join, Hj; unfold upper; by rewrite length_fmap).
      destruct (_ =? 0)%nat; [done|]. cbn [mbind outcome_bind]. by apply IH. }
  by rewrite Hloop.
Qed.

End Program.

(** A character beyond ASCII. *)
Example not_ascii : main_round (mkFilter reading []) [chr 200] [[chr 200]] = Undef OutOfBounds.
Proof. reflexivity. Qed.

End UppercaseFilter.
