(* ===== verification/HopClient.v ===== *)
(** * The porthopper client

    (src/doc_searcher/data/input/html/boost_asio/example/porthopper/client.cpp.) The
    client receives frames on a UDP port and moves to a new port after every fifty,
    while frames may still arrive on the old one. A frame is shown if its number is
    higher than that of the last one shown. *)

From S2P Require Import Prelude CxxString HttpReply Framing Asio.
Import Asio (error_code(..), failed).
#[local] Existing Instance Asio.error_code_eq_dec.

Module HopClient.
Import Porthopper.
#[local] Open Scope Z_scope.

(** The console, and what has been shown: the frames are not kept by the program. *)
Record display := mkDisplay {
  last_frame_number : Z;
  cout : bytes;
  shown : list frame;
}.

Definition print (d : display) (s : bytes) : display := mkDisplay (last_frame_number d) (cout d ++ s) (shown d).

(** [if (f.number() > last_frame_number) ...] *)
Definition take_frame (d : display) (f : frame) : display :=
  if last_frame_number d <? frame_number f then
    mkDisplay (frame_number f) (cout d ++ [newline] ++ frame_payload f) (shown d ++ [f])
  else d.

(** The loop of fifty blocking receives; an error is an exception. *)
Fixpoint receive_frames (n : nat) (d : display) (l : list (error_code * frame)) :
    outcome (display * list (error_code * frame)) :=
  match n with
  | O => Ret (d, l)
  | S n =>
      match l with
      | [] => Ret (d, [])
      | (ec, f) :: l => if failed ec then Throw system_error else receive_frames n (take_frame d f) l
      end
  end.

(** ** Renegotiation

    What is outstanding while the client moves to the new port: the control request
    ([control_result] is None until it is written), the receive on the new socket, and
    the one on the old socket. *)
Record negotiation := mkNeg {
  control_result : option error_code;
  new_data_socket_result : option (error_code * frame);
  data_socket : bool;          (* the old socket is open *)
  old_receive : bool;
  view : display;
}.

Inductive event :=
  | ControlWritten (ec : error_code)
  | NewFrame (ec : error_code) (f : frame)
  | OldFrame (ec : error_code) (f : frame).

Definition negotiation_new (d : display) : negotiation :=
  mkNeg None None true true (print d (lit " Starting renegotiation")).

(** A handler runs. A frame on the old socket stops the io_service: the client shows
    it and goes round the loop, which receives again if the socket is open. *)
Definition handle_event (n : negotiation) (e : event) : negotiation :=
  match e with
  | ControlWritten ec =>
      mkNeg (Some ec) (new_data_socket_result n) (data_socket n) (old_receive n) (view n)
  | NewFrame ec f =>
      mkNeg (control_result n) (Some (ec, f)) (if failed ec then data_socket n else false) (old_receive n) (view n)
  | OldFrame ec f =>
      if failed ec then
        mkNeg (control_result n) (new_data_socket_result n) (data_socket n) false (view n)
      else
        mkNeg (control_result n) (new_data_socket_result n) (data_socket n) (data_socket n) (take_frame (view n) f)
  end.

(** An operation completes only when it is outstanding. *)
Definition enabled (n : negotiation) (e : event) : bool :=
  match e with
  | ControlWritten _ => bool_decide (control_result n = None)
  | NewFrame _ _ => match new_data_socket_result n with None => true | Some _ => false end
  | OldFrame _ _ => old_receive n
  end.

(** io_service::run() returns with [done] set when nothing is outstanding. *)
Definition finished (n : negotiation) : bool :=
  match control_result n, new_data_socket_result n with
  | Some _, Some _ => negb (old_receive n)
  | _, _ => false
  end.

(** The events of a renegotiation; [None] when they end before it has finished. *)
Fixpoint negotiate (n : negotiation) (es : list event) : option (negotiation * list event) :=
  if finished n then Some (n, es)
  else
    match es with
    | [] => None
    | e :: es => if enabled n e then negotiate (handle_event n e) es else negotiate n es
    end.

(** What follows the loop. *)
Definition conclude (n : negotiation) : outcome display :=
  match control_result n, new_data_socket_result n with
  | Some ec, Some (ec', f1) =>
      if failed ec then Throw system_error
      else if failed ec' then Throw system_error
      else Ret (take_frame (print (view n) (lit " Renegotiation complete")) f1)
  | _, _ => Undef NullDeref
  end.

(** ** What is shown *)

(** The numbers that are higher than all before. *)
Fixpoint records (last : Z) (l : list frame) : list frame :=
  match l with
  | [] => []
  | f :: l => if last <? frame_number f then f :: records (frame_number f) l else records last l
  end.

Definition highest (last : Z) (l : list frame) : Z := foldl (λ m f, Z.max m (frame_number f)) last l.

(** The state of the display after the frames [l], whatever else was printed. *)
Definition has_taken (d d' : display) (l : list frame) : Prop :=
  last_frame_number d' = highest (last_frame_number d) l ∧
  shown d' = shown d ++ records (last_frame_number d) l.

Lemma records_app last l1 l2 : records last (l1 ++ l2) = records last l1 ++ records (highest last l1) l2.
Proof.
  revert last. induction l1 as [|f l1 IH]; intros last; [done|]. cbn.
  destruct (Z.ltb_spec last (frame_number f)) as [Hlt|Hge].
  - rewrite Z.max_r by lia. cbn. f_equal. apply IH.
  - rewrite Z.max_l by lia. apply IH.
Qed.

Lemma has_taken_frame d f : has_taken d (take_frame d f) [f].
Proof.
  unfold has_taken, take_frame, highest. cbn. destruct (Z.ltb_spec (last_frame_number d) (frame_number f)); cbn.
  - by rewrite Z.max_r by lia.
  - rewrite Z.max_l by lia. by rewrite app_nil_r.
Qed.

Lemma has_taken_trans d1 d2 d3 l1 l2 :
  has_taken d1 d2 l1 → has_taken d2 d3 l2 → has_taken d1 d3 (l1 ++ l2).
Proof.
  intros [H1 H2] [H3 H4]. split.
  - unfold highest in *. by rewrite foldl_app, <-H1.
  - by rewrite H4, H2, H1, records_app, <-app_assoc.
Qed.

Lemma has_taken_nil d s : has_taken d (print d s) [].
Proof. split; [done|]. cbn. by rewrite app_nil_r. Qed.

(** The frames an event brings that are taken at once. *)
Definition old_frames (n : negotiation) (e : event) : list frame :=
  match e with OldFrame ec f => if failed ec then [] else [f] | _ => [] end.

Lemma handle_event_taken n e : has_taken (view n) (view (handle_event n e)) (old_frames n e).
Proof.
  destruct e as [ec|ec f|ec f]; cbn.
  1-2: apply (has_taken_nil (view n) []) || (split; cbn; [done|by rewrite app_nil_r]).
  destruct (failed ec); cbn; [split; cbn; [done|by rewrite app_nil_r]|apply has_taken_frame].
Qed.

(** The frames taken in a renegotiation. *)
Fixpoint taken (n : negotiation) (es : list event) : list frame :=
  if finished n then []
  else
    match es with
    | [] => []
    | e :: es => if enabled n e then old_frames n e ++ taken (handle_event n e) es else taken n es
    end.

Lemma negotiate_taken n es n' rest :
  negotiate n es = Some (n', rest) → finished n' = true ∧ has_taken (view n) (view n') (taken n es).
Proof.
  revert n. induction es as [|e es IH]; intros n; cbn [negotiate taken]; destruct (finished n) eqn:E.
  - intros [= <- <-]. split; [done|]. split; cbn; [done|by rewrite app_nil_r].
  - done.
  - intros [= <- <-]. split; [done|]. split; cbn; [done|by rewrite app_nil_r].
  - destruct (enabled n e).
    + intros [Hf Ht]%IH. split; [done|]. eapply has_taken_trans; [apply handle_event_taken|exact Ht].
    + apply IH.
Qed.

Lemma records_increasing last l :
  StronglySorted (λ f g, frame_number f < frame_number g) (records last l) ∧
  Forall (λ f, last < frame_number f) (records last l).
Proof.
  revert last. induction l as [|f l IH]; intros last; cbn; [by split; constructor|].
  destruct (Z.ltb_spec last (frame_number f)) as [Hlt|Hge]; [|apply IH].
  destruct (IH (frame_number f)) as [H1 H2]. split; constructor; [done..|].
  eapply Forall_impl; [exact H2|]. cbn. lia.
Qed.

Lemma records_covers last l f : f ∈ l → frame_number f ≤ highest last l.
Proof.
  assert (∀ l last, last ≤ highest last l) as Hmono.
  { clear. induction l as [|g l IH]; intros last; cbn; [done|]. unfold highest in *. cbn.
    specialize (IH (Z.max last (frame_number g))). lia. }
  revert last. induction l as [|g l IH]; intros last Hin; [by apply not_elem_of_nil in Hin|].
  unfold highest in *. cbn. apply elem_of_cons in Hin as [->|Hin].
  - specialize (Hmono l (Z.max last (frame_number g))). unfold highest in Hmono. lia.
  - by apply IH.
Qed.

(** What a move to another port shows. When the renegotiation has finished
    without an error, the frames shown are those whose number was higher than that of all
    taken before, among the frames that came on the old socket, in order, and
    then the one that came on the new socket: their numbers increase strictly,
    no frame is shown twice, and every frame that arrived is shown or not newer
    than one that is. *)
Theorem renegotiation_seamless d es n' rest d' :
  negotiate (negotiation_new d) es = Some (n', rest) → conclude n' = Ret d' →
  ∃ f1, new_data_socket_result n' = Some (success, f1) ∧
    let l := taken (negotiation_new d) es ++ [f1] in
    shown d' = shown d ++ records (last_frame_number d) l ∧
    last_frame_number d' = highest (last_frame_number d) l ∧
    StronglySorted (λ f g, frame_number f < frame_number g) (records (last_frame_number d) l) ∧
    (∀ f, f ∈ l → frame_number f ≤ last_frame_number d').
Proof.
  intros Hn Hc. destruct (negotiate_taken _ _ _ _ Hn) as [Hf Ht]. unfold conclude in Hc.
  destruct (control_result n') as [ec|]; [|done]. destruct (new_data_socket_result n') as [[ec' f1]|]; [|done].
  destruct (failed ec); [done|]. destruct (failed ec') eqn:E'; [done|].
  assert (take_frame (print (view n') (lit " Renegotiation complete")) f1 = d') as <- by congruence. clear Hc.
  assert (ec' = success) as -> by (by destruct ec'). exists f1. split; [done|]. cbv zeta.
  assert (has_taken d (take_frame (print (view n') (lit " Renegotiation complete")) f1)
            (taken (negotiation_new d) es ++ [f1])) as [H1 H2].
  { eapply has_taken_trans; [|apply has_taken_frame].
    pose proof (has_taken_trans _ _ _ _ _ Ht (has_taken_nil (view n') (lit " Renegotiation complete"))) as H.
    rewrite app_nil_r in H. exact H. }
  split_and!; [done..|by apply records_increasing|]. intros f Hin. rewrite H1. by apply records_covers.
Qed.

(** One round of the loop of [main]: fifty frames, then the move. [None]: the events
    end before the round does. *)
Definition round (d : display) (frames : list (error_code * frame)) (es : list event) :
    outcome (option display) :=
  '(d, _) ← receive_frames 50 d frames;
  match negotiate (negotiation_new d) es with
  | Some (n, _) => d ← conclude n; Ret (Some d)
  | None => Ret None
  end.

Lemma receive_frames_taken n d l d' rest :
  receive_frames n d l = Ret (d', rest) → ∃ k, has_taken d d' ((take k l).*2) ∧ rest = drop k l ∧ (k ≤ n)%nat.
Proof.
  revert d l. induction n as [|n IH]; intros d l; cbn [receive_frames].
  - intros [= <- <-]. exists O. split_and!; [|done|lia]. split; cbn; [done|by rewrite app_nil_r].
  - destruct l as [|[ec f] l].
    + intros [= <- <-]. exists O. split_and!; [|done|lia]. split; cbn; [done|by rewrite app_nil_r].
    + destruct (failed ec); [done|]. intros (k & Hk & -> & Hle)%IH. exists (S k). split_and!; [|done|lia].
      cbn. apply (has_taken_trans _ _ _ [f] ((take k l).*2) (has_taken_frame d f) Hk).
Qed.

(** The display only ever goes forward, round after round. *)
Lemma round_forward d frames es d' :
  round d frames es = Ret (Some d') →
  ∃ l, shown d' = shown d ++ records (last_frame_number d) l ∧ last_frame_number d' = highest (last_frame_number d) l.
Proof.
  unfold round. destruct (receive_frames 50 d frames) as [[d1 rest]| |] eqn:E1; [|done..]. cbn [mbind outcome_bind].
  apply receive_frames_taken in E1 as (k & Hk & _). destruct (negotiate (negotiation_new d1) es) as [[n r]|] eqn:E2; [|done].
  destruct (negotiate_taken _ _ _ _ E2) as [_ Ht]. destruct (conclude n) as [d2| |] eqn:E3; [|done..]. cbn. intros [= <-].
  unfold conclude in E3. destruct (control_result n) as [ec|]; [|done].
  destruct (new_data_socket_result n) as [[ec' f1]|]; [|done]. destruct (failed ec), (failed ec'); try done.
  assert (take_frame (print (view n) (lit " Renegotiation complete")) f1 = d2) as <- by congruence.
  destruct (has_taken_trans _ _ _ _ _ (has_taken_trans _ _ _ _ _ (has_taken_trans _ _ _ _ _ Hk Ht)
    (has_taken_nil (view n) (lit " Renegotiation complete"))) (has_taken_frame _ f1)) as [H1 H2]. eauto.
Qed.

(** ** Client and server *)

(** The control requests of a client whose sockets have these ports. *)
Fixpoint changes (junk : bytes) (port : Z) (ports : list Z) : list control_request :=
  match ports with
  | [] => []
  | new_port :: ports => control_change junk port new_port :: changes junk new_port ports
  end.
Definition requests (junk : bytes) (port : Z) (ports : list Z) : list control_request :=
  control_start junk port :: changes junk port ports.

Definition serve (addr : bytes) (s : hopper) (l : list control_request) : hopper :=
  foldl (λ s r, handle_control_request_timer s (Some addr) r) s l.

Definition port_ok (p : Z) : Prop := 0 < p < 65536.

Lemma serve_changes junk addr s p ports subs :
  port_ok p → Forall port_ok ports → (∀ q, (addr, q) ∉ subs) → subscribers_ s = subs ∪ {[ (addr, p) ]} →
  subscribers_ (serve addr s (changes junk p ports)) = subs ∪ {[ (addr, List.last ports p) ]}.
Proof.
  intros Hp Hall Hno. revert s p Hp. induction Hall as [|q ports Hq Hall IH]; intros s p Hp Hs; [done|].
  cbn [changes serve foldl]. destruct (control_fields junk p q) as [H1 H2]; [unfold port_ok in *; lia..|].
  assert (List.last (q :: ports) p = List.last ports q) as ->.
  { clear. revert q p. induction ports as [|x l IH]; intros q p; [done|].
    change (List.last (x :: l) p = List.last (x :: l) q). rewrite (IH x p), (IH x q). done. }
  apply IH; [done|]. unfold handle_control_request_timer, control_change. rewrite H1, H2.
  unfold port_ok in *. rewrite !(proj2 (Z.eqb_neq _ _)) by lia. cbn [subscribers_]. rewrite Hs.
  assert ((addr, p) ∉ subs) as Hnp by apply Hno. set_solver.
Qed.

(** Client and server of porthopper. Whatever ports the system has given to the
    sockets of the client, once the server has handled the control requests in the
    order they were sent, the client is subscribed with its current port and no
    other, and the subscriptions of other hosts are as they were. *)
Theorem hop_subscription junk addr s p ports :
  port_ok p → Forall port_ok ports → (∀ q, (addr, q) ∉ subscribers_ s) →
  subscribers_ (serve addr s (requests junk p ports)) = subscribers_ s ∪ {[ (addr, List.last ports p) ]}.
Proof.
  intros Hp Hall Hno. unfold requests. cbn [serve foldl].
  destruct (control_fields junk 0 p) as [H1 H2]; [unfold port_ok in *; lia..|].
  apply (serve_changes junk addr _ p ports (subscribers_ s)); [done..|].
  unfold handle_control_request_timer, control_start. rewrite H1, H2.
  unfold port_ok in Hp. rewrite (proj2 (Z.eqb_neq p 0)) by lia. done.
Qed.

(** A control request that could not be written is not noticed as long as frames
    arrive on the old socket: the loop goes on with them for ever. *)
Lemma control_failure_unnoticed d ec fs :
  failed ec = true → negotiate (negotiation_new d) (ControlWritten ec :: (OldFrame success <$> fs)) = None.
Proof.
  intros _. assert (∀ d0, negotiate (mkNeg (Some ec) None true true d0) (OldFrame success <$> fs) = None) as Hloop.
  { induction fs as [|f fs IH]; intros d0; [done|]. apply (IH (take_frame d0 f)). }
  apply Hloop.
Qed.

(** ** Examples *)
Definition frame1 (n : Z) : frame := frame_new (replicate 40 " "%char) n (payload_of n).

Lemma renegotiation_witness :
  ∃ d' f1, new_data_socket_result
      (handle_event (handle_event (handle_event (handle_event (negotiation_new (mkDisplay 5 [] []))
         (OldFrame success (frame1 6))) (ControlWritten success)) (NewFrame success (frame1 7)))
         (OldFrame operation_aborted (frame1 0))) = Some (success, f1) ∧
    last_frame_number d' = 7.
Proof.
  destruct (renegotiation_seamless (mkDisplay 5 [] [])
    [OldFrame success (frame1 6); ControlWritten success; NewFrame success (frame1 7); OldFrame operation_aborted (frame1 0)]
    (handle_event (handle_event (handle_event (handle_event (negotiation_new (mkDisplay 5 [] []))
         (OldFrame success (frame1 6))) (ControlWritten success)) (NewFrame success (frame1 7)))
         (OldFrame operation_aborted (frame1 0))) []
    (take_frame (print (take_frame (print (mkDisplay 5 [] []) (lit " Starting renegotiation")) (frame1 6))
       (lit " Renegotiation complete")) (frame1 7))) as (f1 & Hf1 & _ & Hl & _).
  - vm_compute. reflexivity.
  - vm_compute. reflexivity.
  - exists (take_frame (print (take_frame (print (mkDisplay 5 [] []) (lit " Starting renegotiation")) (frame1 6))
       (lit " Renegotiation complete")) (frame1 7)), f1. split; [exact Hf1|]. vm_compute. reflexivity.
Defined.

Lemma hop_subscription_witness :
  subscribers_ (serve (lit "::1") hopper_new (requests [] 4000 [4001; 4002])) = ∅ ∪ {[ (lit "::1", 4002) ]}.
Proof.
  apply (hop_subscription [] (lit "::1") hopper_new 4000 [4001; 4002]).
  - unfold port_ok. lia.
  - repeat constructor; unfold port_ok; lia.
  - intros q. apply not_elem_of_empty.
Defined.

End HopClient.
