(* ===== verification/HopServer.v ===== *)
(** * The porthopper server

    (src/doc_searcher/data/input/html/boost_asio/example/porthopper/server.cpp.) The
    asynchronous part of the server, around the messages and subscriptions of
    Framing.v: control connections, on each of which requests are read one after the
    other and take effect two seconds later, and a timer that sends a frame every tenth
    of a second. Times are in milliseconds; a timer may fire late, never early. *)

From S2P Require Import Prelude CxxString Framing Asio.
Import Asio (error_code(..), failed).

Module HopServer.
Import Porthopper.

(** What a control connection waits for: the next request, or the delay of one. *)
Inductive control := reading | delaying (request : control_request) (received expiry : Z).

(** A request that took effect (history): its connection, the client's address if it
    could be had, the request, when it was received and when it took effect. *)
Record entry := mkEntry {
  conn : nat; address : option bytes; request : control_request; received_at : Z; handled_at : Z;
}.

(** A frame that was sent (history): when, to whom, and after how many requests. *)
Record sending := mkSending { sent_at : Z; sent : frame; to : gset (bytes * Z); after : nat }.

Record server := mkServer {
  state : hopper;                     (* subscribers_, next_frame_number_ *)
  accepting : bool;
  timer : Z;                          (* when timer_ expires *)
  controls : gmap nat control;        (* control connections, by number *)
  next_conn : nat;
  now : Z;
  handled : list entry;
  frames : list sending;
}.

Section Server.
(** The column of the star, from the sine of the frame number, and what the array of a
    frame held before. *)
Context (char_index : Z → Z) (junk : bytes).

Definition server_new (t : Z) : server := mkServer hopper_new true (t + 100) ∅ 0 t [] [].

(** [handle_accept] *)
Definition handle_accept (v : server) (ec : error_code) : server :=
  if failed ec then mkServer (state v) true (timer v) (controls v) (next_conn v) (now v) (handled v) (frames v)
  else mkServer (state v) true (timer v) (<[next_conn v := reading]> (controls v)) (S (next_conn v)) (now v)
         (handled v) (frames v).

(** [handle_control_request]: after an error nothing refers to the connection. *)
Definition handle_control_request (v : server) (i : nat) (ec : error_code) (r : control_request) : server :=
  let cs := if failed ec then delete i (controls v) else <[i := delaying r (now v) (now v + 2000)]> (controls v) in
  mkServer (state v) (accepting v) (timer v) cs (next_conn v) (now v) (handled v) (frames v).

(** [handle_control_request_timer], which reads again on the connection. *)
Definition handle_delay (v : server) (i : nat) (remote : option bytes) (r : control_request) (received : Z) : server :=
  mkServer (handle_control_request_timer (state v) remote r) (accepting v) (timer v) (<[i := reading]> (controls v))
    (next_conn v) (now v) (handled v ++ [mkEntry i remote r received (now v)]) (frames v).

(** [handle_timer] *)
Definition handle_frame_timer (v : server) : server :=
  let '(f, to, s) := handle_timer char_index junk (state v) in
  mkServer s (accepting v) (now v + 100) (controls v) (next_conn v) (now v) (handled v)
    (frames v ++ [mkSending (now v) f to (length (handled v))]).

Definition pass (v : server) (d : Z) : server :=
  mkServer (state v) (accepting v) (timer v) (controls v) (next_conn v) (now v + d) (handled v) (frames v).

Inductive step : server → server → Prop :=
  | step_accept v ec : accepting v = true → step v (handle_accept v ec)
  | step_request v i ec r : controls v !! i = Some reading → step v (handle_control_request v i ec r)
  | step_delay v i remote r t e :
      controls v !! i = Some (delaying r t e) → (e <= now v)%Z → step v (handle_delay v i remote r t)
  | step_timer v : (timer v <= now v)%Z → step v (handle_frame_timer v)
  | step_pass v d : (0 <= d)%Z → step v (pass v d).

Definition reachable (t : Z) : server → Prop := rtc step (server_new t).

(** ** What is subscribed *)

(** What a request says of an endpoint: nothing, that it is subscribed, or that it is
    not. *)
Definition mentions (ep : bytes * Z) (e : entry) : option bool :=
  if bool_decide (address e = Some ep.1) && negb (ep.2 =? 0)%Z then
    if (new_port (request e) =? ep.2)%Z then Some true
    else if (old_port (request e) =? ep.2)%Z then Some false else None
  else None.

(** The last request to mention an endpoint decides. *)
Definition subscribed (ep : bytes * Z) (l : list entry) : bool := foldl (λ b e, default b (mentions ep e)) false l.

Lemma subscribed_snoc ep l e : subscribed ep (l ++ [e]) = default (subscribed ep l) (mentions ep e).
Proof. unfold subscribed. by rewrite foldl_snoc. Qed.

Lemma request_effect s remote r i t t' ep :
  ep.2 ≠ 0%Z →
  bool_decide (ep ∈ subscribers_ (handle_control_request_timer s remote r)) =
    default (bool_decide (ep ∈ subscribers_ s)) (mentions ep (mkEntry i remote r t t')).
Proof.
  intros Hp. destruct ep as [a p]. cbn in Hp. unfold mentions. cbn [address request fst snd].
  rewrite (proj2 (Z.eqb_neq p 0)) by done. rewrite andb_true_r.
  destruct remote as [addr|]; [|reflexivity]. cbn [handle_control_request_timer subscribers_].
  destruct (decide (addr = a)) as [->|Hne].
  - rewrite (bool_decide_eq_true_2 (Some a = Some a)) by done.
    destruct (Z.eqb_spec (new_port r) p) as [<-|Hn].
    + rewrite (proj2 (Z.eqb_neq (new_port r) 0)) by done. apply bool_decide_eq_true_2. set_solver.
    + destruct (Z.eqb_spec (old_port r) p) as [<-|Ho].
      * rewrite (proj2 (Z.eqb_neq (old_port r) 0)) by done. apply bool_decide_eq_false_2.
        destruct (new_port r =? 0)%Z; set_solver.
      * cbn. apply bool_decide_ext. destruct (old_port r =? 0)%Z, (new_port r =? 0)%Z; set_solver.
  - rewrite (bool_decide_eq_false_2 (Some addr = Some a)) by congruence. cbn. apply bool_decide_ext.
    destruct (old_port r =? 0)%Z, (new_port r =? 0)%Z; set_solver.
Qed.

(** Port 0 is never subscribed. *)
Lemma request_no_zero s remote r a :
  (a, 0%Z) ∉ subscribers_ s → (a, 0%Z) ∉ subscribers_ (handle_control_request_timer s remote r).
Proof.
  intros H. destruct remote as [addr|]; [|done]. cbn.
  destruct (Z.eqb_spec (old_port r) 0), (Z.eqb_spec (new_port r) 0); set_solver.
Qed.

(** ** The invariant *)

(** The frame that was sent as number [k], after the first [after x] requests. *)
Definition sending_ok (v : server) (k : nat) (x : sending) : Prop :=
  sent x = frame_new junk (to_uint64 (1 + Z.of_nat k)) (payload_of (char_index (to_uint64 (1 + Z.of_nat k)))) ∧
  after x ≤ length (handled v) ∧
  ∀ ep, ep ∈ to x ↔ subscribed ep (take (after x) (handled v)) = true.

Definition entry_ok (v : server) (e : entry) : Prop :=
  (received_at e + 2000 <= handled_at e)%Z ∧ (handled_at e <= now v)%Z.

Record inv (t : Z) (v : server) : Prop := {
  inv_accepting : accepting v = true;
  inv_controls : ∀ i c, controls v !! i = Some c → i < next_conn v;
  inv_delays : ∀ i r rt e, controls v !! i = Some (delaying r rt e) →
    (rt <= now v)%Z ∧ e = (rt + 2000)%Z ∧ ∀ x, x ∈ handled v → conn x = i → (handled_at x <= rt)%Z;
  inv_subscribers : ∀ ep, ep ∈ subscribers_ (state v) ↔ subscribed ep (handled v) = true;
  inv_number : next_frame_number_ (state v) = to_uint64 (1 + Z.of_nat (length (frames v)));
  inv_timer : timer v = (default t (sent_at <$> last (frames v)) + 100)%Z;
  inv_frames : ∀ k x, frames v !! k = Some x → sending_ok v k x;
  inv_spacing : ∀ k x y, frames v !! k = Some x → frames v !! S k = Some y → (sent_at x + 100 <= sent_at y)%Z;
  inv_first : ∀ x, frames v !! 0 = Some x → (t + 100 <= sent_at x)%Z;
  inv_entries : ∀ x, x ∈ handled v → entry_ok v x;
  inv_order : ∀ i j x y, handled v !! i = Some x → handled v !! j = Some y → i < j → conn x = conn y →
    (handled_at x <= received_at y)%Z;
}.

Lemma hop_inv_new t : inv t (server_new t).
Proof.
  split; cbn; try done.
  all: try (intros; match goal with H : _ |- _ => by rewrite lookup_empty in H end).
  all: try (intros ? ?%not_elem_of_nil; done).
Qed.

(** Mentions of port 0 do not count. *)
Lemma mentions_zero ep e : ep.2 = 0%Z → mentions ep e = None.
Proof. intros H0. unfold mentions. by rewrite H0, andb_false_r. Qed.

Lemma subscribed_zero ep l : ep.2 = 0%Z → subscribed ep l = false.
Proof. intros H0. induction l as [|e l IH] using rev_ind; [done|]. by rewrite subscribed_snoc, mentions_zero, IH. Qed.

Lemma inv_handle_delay t v i remote r rt e :
  inv t v → controls v !! i = Some (delaying r rt e) → (e <= now v)%Z → inv t (handle_delay v i remote r rt).
Proof.
  intros [Ha Hc Hd Hs Hn Ht Hf Hsp H1st He Ho] Hi Hle. destruct (Hd i r rt e Hi) as (Hrt & -> & Hearlier).
  split; cbn -[subscribed handle_control_request_timer]; try done.
  - intros j c [[<- _]|[_ Hj]]%lookup_insert_Some; [by apply (Hc i (delaying r rt (rt + 2000)))|by apply (Hc j c)].
  - intros j r' rt' e' [[_ ?]|[Hne Hj]]%lookup_insert_Some; [done|]. destruct (Hd j r' rt' e' Hj) as (? & ? & Hj').
    split_and!; [done..|]. intros x [Hx| ->%list_elem_of_singleton]%elem_of_app; [by apply Hj'|by intros <-].
  - intros ep. rewrite subscribed_snoc. destruct (Z.eq_dec ep.2 0) as [H0|H0].
    + rewrite mentions_zero, (subscribed_zero ep) by done. split; [|done]. intros Hx. exfalso. revert Hx.
      destruct ep as [a p]. cbn in H0. subst p. apply request_no_zero. rewrite Hs. by rewrite subscribed_zero.
    + transitivity (bool_decide (ep ∈ subscribers_ (handle_control_request_timer (state v) remote r)) = true);
        [by rewrite bool_decide_eq_true|]. rewrite (request_effect _ _ _ i rt (now v)) by done.
      replace (bool_decide (ep ∈ subscribers_ (state v))) with (subscribed ep (handled v)); [done|].
      symmetry. destruct (subscribed ep (handled v)) eqn:E.
      * apply bool_decide_eq_true_2. by apply Hs.
      * apply bool_decide_eq_false_2. rewrite Hs. congruence.
  - destruct remote; exact Hn.
  - intros k x Hx. destruct (Hf k x Hx) as (H1 & H2 & H3). split_and!; [done|cbn; rewrite length_app; lia|].
    cbn. intros ep. by rewrite take_app_le.
  - intros x [Hx| ->%list_elem_of_singleton]%elem_of_app; [by apply He|]. split; cbn; lia.
  - intros a b x y [[Hla Hx]|[Hla <-]]%lookup_snoc_Some [[Hlb Hy]|[Hlb <-]]%lookup_snoc_Some Hab; cbn; try lia.
    + by apply (Ho a b).
    + intros Hcx. apply Hearlier; [by eapply list_elem_of_lookup_2|done].
Qed.

Lemma inv_handle_frame_timer t v : inv t v → (timer v <= now v)%Z → inv t (handle_frame_timer v).
Proof.
  intros [Ha Hc Hd Hs Hn Ht Hf Hsp H1st He Ho] Hle. split; cbn; try done.
  - rewrite length_app, Hn. cbn. unfold to_uint64. rewrite Zplus_mod_idemp_l. f_equal. lia.
  - by rewrite last_snoc.
  - intros k x [[Hl Hx]|[-> <-]]%lookup_snoc_Some; [by apply Hf|]. split_and!; cbn.
    + by rewrite Hn.
    + done.
    + by rewrite take_ge.
  - intros k x y [[Hl Hx]|[Hl <-]]%lookup_snoc_Some [[Hl' Hy]|[Hl' <-]]%lookup_snoc_Some; cbn; try lia.
    + by apply (Hsp k).
    + rewrite Ht in Hle. assert (last (frames v) = Some x) as Hlast.
      { rewrite last_lookup. replace (pred (length (frames v))) with k by lia. done. }
      rewrite Hlast in Hle. exact Hle.
  - intros x [[Hl Hx]|[Hl <-]]%lookup_snoc_Some; [by apply H1st|]. cbn.
    rewrite (nil_length_inv (frames v)) in Ht by done. cbn in Ht. lia.
Qed.

Lemma hop_inv_step t v v' : inv t v → step v v' → inv t v'.
Proof.
  intros Hi Hst. destruct Hst as [v ec Hacc|v i ec r Hr|v i remote r rt e Hr He|v Hle|v d Hd].
  - destruct Hi as [Ha Hc Hd Hs Hn Ht Hf Hsp H1st He Ho]. unfold handle_accept. destruct (failed ec); split; cbn; try done.
    + intros j c [[<- _]|[_ Hj]]%lookup_insert_Some; [lia|]. apply Hc in Hj. lia.
    + intros j r rt e [[_ ?]|[_ Hj]]%lookup_insert_Some; [done|]. by apply (Hd j r).
  - destruct Hi as [Ha Hc Hd Hs Hn Ht Hf Hsp H1st He Ho]. unfold handle_control_request.
    destruct (failed ec); split; cbn; try done.
    + intros j c [_ Hj]%lookup_delete_Some. by apply (Hc j c).
    + intros j r' rt e [_ Hj]%lookup_delete_Some. by apply (Hd j r').
    + intros j c [[<- _]|[_ Hj]]%lookup_insert_Some; [by apply (Hc i reading)|by apply (Hc j c)].
    + intros j r' rt e [[<- [= <- <- <-]]|[_ Hj]]%lookup_insert_Some; [|by apply (Hd j r')].
      split_and!; [lia|done|]. intros x Hx _. by apply He.
  - by eapply inv_handle_delay.
  - by apply inv_handle_frame_timer.
  - destruct Hi as [Ha Hc Hd' Hs Hn Ht Hf Hsp H1st He Ho]. split; cbn; try done.
    + intros j r rt e Hj. destruct (Hd' j r rt e Hj) as (? & ? & ?). split_and!; [lia|done..].
    + intros x Hx. destruct (He x Hx). split; cbn; [done|lia].
Qed.

Lemma hop_inv t v : reachable t v → inv t v.
Proof.
  intros Hr. pose proof (hop_inv_new t) as H0. revert H0. unfold reachable in Hr.
  induction Hr as [v|v1 v2 v3 Hst _ IH]; [done|]. intros H1. apply IH. by eapply hop_inv_step.
Qed.

Lemma frames_late t v k x :
  inv t v → frames v !! k = Some x → (t + 100 * (Z.of_nat k + 1) <= sent_at x)%Z.
Proof.
  intros Hi. revert x. induction k as [|k IH]; intros x Hx.
  - pose proof (inv_first _ _ Hi x Hx). lia.
  - destruct (lookup_lt_is_Some_2 (frames v) k) as [y Hy]; [apply lookup_lt_Some in Hx; lia|].
    pose proof (IH y Hy). pose proof (inv_spacing _ _ Hi k y x Hy Hx). lia.
Qed.

(** C28: the porthopper server. In every reachable state it accepts; an endpoint is
    subscribed exactly if the last request that mentions it, among those that took
    effect, asked for it; frame number [k + 1] was sent after those requests to exactly
    the endpoints they subscribe, with its number on it (up to 2^32), not earlier than
    [k + 1] tenths of a second after the start and a tenth of a second after the one
    before; a request takes effect two seconds after it was received or later; and the
    requests of one connection take effect in order, each read after the one
    before took effect. *)
Theorem hop_server t v :
  reachable t v →
  accepting v = true ∧
  (∀ ep, ep ∈ subscribers_ (state v) ↔ subscribed ep (handled v) = true) ∧
  (∀ k x, frames v !! k = Some x →
     sending_ok v k x ∧ (t + 100 * (Z.of_nat k + 1) <= sent_at x)%Z ∧
     ((1 + Z.of_nat k < 2 ^ 32)%Z → frame_number (sent x) = (1 + Z.of_nat k)%Z)) ∧
  (∀ k x y, frames v !! k = Some x → frames v !! S k = Some y → (sent_at x + 100 <= sent_at y)%Z) ∧
  (∀ x, x ∈ handled v → (received_at x + 2000 <= handled_at x)%Z) ∧
  (∀ i j x y, handled v !! i = Some x → handled v !! j = Some y → i < j → conn x = conn y →
     (handled_at x <= received_at y)%Z).
Proof.
  intros Hr. pose proof (hop_inv t v Hr) as Hi. pose proof Hi as [Ha Hc Hd Hs Hn Ht Hf Hsp H1st He Ho].
  split_and!; [done|done| |done| |done].
  - intros k x Hx. split_and!; [by apply Hf|by apply (frames_late t v)|]. intros Hk.
    destruct (Hf k x Hx) as (-> & _). rewrite to_uint64_small by lia.
    apply frame_fields; [lia|apply payload_length].
  - intros x Hx. by apply He.
Qed.

End Server.

End HopServer.

Module HopServerExamples.
Import HopServer Porthopper.

(** A client asks for frames on port 8080; two seconds later a frame is sent. *)
Definition demo : server :=
  let v := handle_control_request (handle_accept (server_new 0) success) 0 success (control_start [] 8080) in
  handle_frame_timer id [] (handle_delay (pass v 2000) 0 (Some (lit "::1")) (control_start [] 8080) 0).

Lemma hop_demo_reachable : reachable id [] 0 demo.
Proof.
  eapply rtc_l; [by apply (step_accept id [] _ success)|].
  eapply rtc_l; [by apply (step_request id [] _ 0 success (control_start [] 8080))|].
  eapply rtc_l; [by apply (step_pass id [] _ 2000)|].
  eapply rtc_l; [by eapply (step_delay id [] _ 0 (Some (lit "::1")) (control_start [] 8080) 0)|].
  eapply rtc_l; [by apply (step_timer id [])|]. apply rtc_refl.
Qed.

Lemma hop_server_witness : (lit "::1", 8080%Z) ∈ subscribers_ (state demo).
Proof.
  apply (proj1 (proj2 (hop_server id [] 0 demo hop_demo_reachable))). vm_compute. reflexivity.
Defined.

End HopServerExamples.
