(* ===== verification/Stocks.v ===== *)
(** * The serialization programs

    (src/doc_searcher/data/input/html/boost_asio/example/serialization/{stock.hpp,
    server.cpp,client.cpp}.) The server sends a list of two stocks to every client
    that connects, over the connection of Framing.v; the client prints it. The text
    archive of Boost.Serialization is a parameter: how it writes and reads strings,
    numbers and the prologue of a vector. *)

From S2P Require Import Prelude CxxString HttpParser HttpReply HttpConnection Framing Asio.
Import Asio (show_unsigned).

Module Stocks.
Import HttpConnection Serialization.

(** What a text archive does with the types a stock is made of: each item is read
    back whatever follows it. [size] is the prologue of a vector of that many
    elements. [double] stands for the values of type double. *)
Class Primitives (double : Type) := {
  put_string : bytes → bytes;
  get_string : bytes → option (bytes * bytes);
  put_double : double → bytes;
  get_double : bytes → option (double * bytes);
  put_int : Z → bytes;
  get_int : bytes → option (Z * bytes);
  put_size : nat → bytes;
  get_size : bytes → option (nat * bytes);
}.
Class PrimitivesLaws (double : Type) {P : Primitives double} : Prop := {
  get_put_string s rest : get_string (put_string s ++ rest) = Some (s, rest);
  get_put_double d rest : get_double (put_double d ++ rest) = Some (d, rest);
  get_put_int z rest : get_int (put_int z ++ rest) = Some (z, rest);
  get_put_size n rest : get_size (put_size n ++ rest) = Some (n, rest);
}.

Record stock (double : Type) := mkStock {
  code : bytes; name : bytes;
  open_price : double; high_price : double; low_price : double; last_price : double;
  buy_price : double; buy_quantity : Z; sell_price : double; sell_quantity : Z;
}.
Arguments mkStock {_}. Arguments code {_}. Arguments name {_}. Arguments open_price {_}.
Arguments high_price {_}. Arguments low_price {_}. Arguments last_price {_}. Arguments buy_price {_}.
Arguments buy_quantity {_}. Arguments sell_price {_}. Arguments sell_quantity {_}.

Section Archive.
Context {double : Type} {P : Primitives double}.

(** [stock::serialize] with an output archive and with an input archive. *)
Definition serialize_out (s : stock double) : bytes :=
  put_string (code s) ++ put_string (name s) ++
  put_double (open_price s) ++ put_double (high_price s) ++ put_double (low_price s) ++
  put_double (last_price s) ++ put_double (buy_price s) ++ put_int (buy_quantity s) ++
  put_double (sell_price s) ++ put_int (sell_quantity s).

Definition serialize_in (ar : bytes) : option (stock double * bytes) :=
  '(code, ar) ← get_string ar; '(name, ar) ← get_string ar;
  '(open_price, ar) ← get_double ar; '(high_price, ar) ← get_double ar; '(low_price, ar) ← get_double ar;
  '(last_price, ar) ← get_double ar; '(buy_price, ar) ← get_double ar; '(buy_quantity, ar) ← get_int ar;
  '(sell_price, ar) ← get_double ar; '(sell_quantity, ar) ← get_int ar;
  Some (mkStock code name open_price high_price low_price last_price buy_price buy_quantity sell_price
          sell_quantity, ar).

(** A vector of stocks. *)
Fixpoint get_stocks (n : nat) (ar : bytes) : option (list (stock double) * bytes) :=
  match n with
  | 0 => Some ([], ar)
  | S n => '(s, ar) ← serialize_in ar; '(l, ar) ← get_stocks n ar; Some (s :: l, ar)
  end.

#[export] Instance stocks_archive : TextArchive (list (stock double)) := {
  save l := put_size (length l) ++ mjoin (serialize_out <$> l);
  load ar := '(n, ar) ← get_size ar; '(l, _) ← get_stocks n ar; Some l;
}.

Context {PL : PrimitivesLaws double}.

(** The fields are read in the order in which they were written. *)
Lemma serialize_roundtrip s rest : serialize_in (serialize_out s ++ rest) = Some (s, rest).
Proof.
  unfold serialize_in, serialize_out. rewrite <-!app_assoc. destruct s.
  repeat (cbn [code name open_price high_price low_price last_price buy_price buy_quantity sell_price sell_quantity
            mbind option_bind];
          rewrite ?get_put_string, ?get_put_double, ?get_put_int).
  done.
Qed.

Lemma get_stocks_roundtrip l rest :
  get_stocks (length l) (mjoin (serialize_out <$> l) ++ rest) = Some (l, rest).
Proof.
  induction l as [|s l IH]; [done|]. rewrite fmap_cons. cbn [length get_stocks].
  change (mjoin (serialize_out s :: (serialize_out <$> l))) with
    (serialize_out s ++ mjoin (serialize_out <$> l)).
  rewrite <-app_assoc, serialize_roundtrip. cbn. by rewrite IH.
Qed.

#[export] Instance stocks_laws : TextArchiveLaws (list (stock double)).
Proof.
  intros l. cbn [load save stocks_archive]. rewrite get_put_size. cbn.
  pose proof (get_stocks_roundtrip l []) as H. rewrite app_nil_r in H. by rewrite H.
Qed.
End Archive.

(** ** server.cpp *)
Section Server.
Context {double : Type} {P : Primitives double}.
Variable price : Z → double.      (* the number of cents *)

(** The constructor. *)
Definition stocks_ : list (stock double) :=
  [mkStock (lit "ABC") (lit "A Big Company") (price 456) (price 512) (price 433) (price 498) (price 496) 1000
     (price 499) 2000;
   mkStock (lit "DEF") (lit "Developer Entertainment Firm") (price 2024) (price 2288) (price 1950) (price 1976)
     (price 1972) 34000 (price 1985) 45000].

(** [handle_accept]: what is written to the connection, and that the next is
    accepted in any case. *)
Definition handle_accept (e : error_code) : option (error + (bytes * bytes)) * bool :=
  (match e with success => Some (async_write stocks_) | _ => None end, true).
End Server.

(** ** client.cpp *)
Section Client.
Context {double : Type} {P : Primitives double}.
Variable show_double : double → bytes.
Variable show_int : Z → bytes.
Variable message : error → bytes.

Definition line (label value : bytes) : bytes := label ++ value ++ [newline].

(** The body of the loop of [handle_read]. *)
Definition show_stock (i : nat) (s : stock double) : bytes :=
  line (lit "Stock number ") (show_unsigned (Z.of_nat i)) ++
  line (lit "  code: ") (code s) ++ line (lit "  name: ") (name s) ++
  line (lit "  open_price: ") (show_double (open_price s)) ++
  line (lit "  high_price: ") (show_double (high_price s)) ++
  line (lit "  low_price: ") (show_double (low_price s)) ++
  line (lit "  last_price: ") (show_double (last_price s)) ++
  line (lit "  buy_price: ") (show_double (buy_price s)) ++
  line (lit "  buy_quantity: ") (show_int (buy_quantity s)) ++
  line (lit "  sell_price: ") (show_double (sell_price s)) ++
  line (lit "  sell_quantity: ") (show_int (sell_quantity s)).

Fixpoint show_loop (i : nat) (l : list (stock double)) : bytes :=
  match l with
  | [] => []
  | s :: l => show_stock i s ++ show_loop (S i) l
  end.

(** Console and error stream. *)
Definition handle_read (e : error) (stocks : list (stock double)) : bytes * bytes :=
  match e with
  | no_error => (show_loop 0 stocks, [])
  | _ => ([], message e ++ [newline])
  end.

(** [handle_connect], and the read that follows on the octets that arrive. *)
Definition handle_connect (e : error_code) (input : bytes) : outcome (bytes * bytes) :=
  match e with
  | success =>
      '(e, t, _) ← async_read (T := list (stock double)) input;
      Ret (handle_read e (default [] t))
  | _ => Ret ([], message (socket_error e) ++ [newline])
  end.

(** Server and client together. Whatever the archive does with strings and numbers,
    as long as it reads back what it has written: the client that connects prints the
    two stocks of the server, field by field, whatever else follows on the
    connection; an error of the connection is reported and nothing is printed. *)
Theorem stocks_delivered {PL : PrimitivesLaws double} price rest :
  save (stocks_ price) ≠ [] → (Z.of_nat (length (save (stocks_ price))) < 2 ^ 32)%Z →
  (∃ header data, handle_accept price success = (Some (inr (header, data)), true) ∧
     handle_connect success (header ++ data ++ rest) = Ret (show_loop 0 (stocks_ price), [])) ∧
  (∀ e input, e ≠ success →
     handle_connect e input = Ret ([], message (socket_error e) ++ [newline]) ∧ handle_accept price e = (None, true)).
Proof.
  intros Hne Hlt. split.
  - pose proof (s11n_read_back (stocks_ price) rest Hne Hlt) as (header & Hw & _ & Hr).
    exists header, (save (stocks_ price)). unfold handle_accept, handle_connect. rewrite Hw, Hr. done.
  - intros e input He. by destruct e.
Qed.
End Client.

End Stocks.

(** ** An archive: numbers as strokes, strings with their length *)
Module StocksExamples.
Import HttpConnection Serialization Stocks.

Definition put_nat (n : nat) : bytes := replicate n "1"%char ++ ["."%char].
Fixpoint get_nat (s : bytes) : option (nat * bytes) :=
  match s with
  | "1"%char :: s => '(n, s) ← get_nat s; Some (S n, s)
  | "."%char :: s => Some (0, s)
  | _ => None
  end.

Lemma get_put_nat n rest : get_nat (put_nat n ++ rest) = Some (n, rest).
Proof.
  induction n as [|n IH]; [done|]. unfold put_nat in *. cbn [replicate app get_nat].
  cbn [app] in IH. by rewrite IH.
Qed.

Definition put_z (z : Z) : bytes := (if (z <? 0)%Z then "-"%char else "+"%char) :: put_nat (Z.to_nat (Z.abs z)).
Definition get_z (s : bytes) : option (Z * bytes) :=
  match s with
  | "-"%char :: s => '(n, s) ← get_nat s; Some (- Z.of_nat n, s)%Z
  | "+"%char :: s => '(n, s) ← get_nat s; Some (Z.of_nat n, s)
  | _ => None
  end.

Lemma get_put_z z rest : get_z (put_z z ++ rest) = Some (z, rest).
Proof.
  unfold put_z. cbn [app]. destruct (Z.ltb_spec z 0); cbn [get_z]; rewrite get_put_nat; cbn;
    do 2 f_equal; lia.
Qed.

#[local] Instance strokes : Primitives Z := {
  put_string s := put_nat (length s) ++ s;
  get_string s := '(n, s) ← get_nat s; Some (take n s, drop n s);
  put_double := put_z; get_double := get_z; put_int := put_z; get_int := get_z;
  put_size := put_nat; get_size := get_nat;
}.

#[local] Instance strokes_laws : PrimitivesLaws Z.
Proof.
  split; cbn; [|apply get_put_z..|apply get_put_nat].
  intros s rest. rewrite <-app_assoc, get_put_nat. cbn. by rewrite take_app_length, drop_app_length.
Qed.

Lemma stocks_delivered_witness :
  ∃ header data, handle_accept id success = (Some (inr (header, data)), true) ∧
    handle_connect (P := strokes) put_z put_z (λ _, []) success (header ++ data ++ lit "x") =
      Ret (show_loop put_z put_z 0 (stocks_ id), []).
Proof.
  apply (stocks_delivered put_z put_z (λ _, []) id (lit "x")).
  - discriminate.
  - vm_compute. reflexivity.
Defined.

End StocksExamples.
