(* ===== verification/CommandLine.v ===== *)
(** * The command lines of the Asio servers

    The functions main of the server programs in
    src/doc_searcher/data/input/html/boost_asio/example: the number of arguments, the
    text of the port made a number, the types it passes through on the way to the
    socket, and the handler of exceptions. What a server does once it listens is in the
    file of its own. *)

From S2P Require Import Prelude CxxString HttpParser HttpReply Asio.
Import Asio.

Module CommandLine.

(** ** Numbers *)

(** [std::atoi]: white space, a sign, digits; 0 without digits. A value that is not an
    [int] is undefined. *)
Definition atoi (s : bytes) : outcome Z :=
  let s := HttpReply.skip_blanks s in
  let '(neg, s) := take_sign s in
  let v := HttpParser.dec_val (span_digits s).1 in
  int_res (if neg then - v else v)%Z.

(** Conversions of an [int] to [short] and of either to [unsigned short], the type of a
    port: the value modulo 2^16. *)
Definition to_short (z : Z) : Z := ((z + 2 ^ 15) mod 2 ^ 16 - 2 ^ 15)%Z.
Definition to_ushort (z : Z) : Z := (z mod 2 ^ 16)%Z.

(** A constructor with a parameter [short port], or [unsigned short port]. *)
Definition by_short (z : Z) : Z := to_ushort (to_short z).
Definition by_ushort (z : Z) : Z := to_ushort z.

Lemma by_short_ushort z : by_short z = by_ushort z.
Proof.
  unfold by_short, by_ushort, to_ushort, to_short.
  rewrite Zminus_mod_idemp_l. f_equal. lia.
Qed.

(** ** Programs *)

(** How a program ends up: serving, or having returned with a text on its standard error. *)
Inductive ending (A : Type) :=
  | serving (a : A)
  | exited (status : Z) (cerr : bytes).
Arguments serving {A} _.
Arguments exited {A} _ _.

Definition line (s : string) : bytes := lit s ++ [newline].

Section Mains.
Context `{ErrorText}.
(** The text of the other exceptions, the result of opening a server on a port (or on a
    path), and the conversions of the libraries. *)
Context (exn_what : exn → bytes) (listen : Z → error_code) (bind_path : bytes → error_code)
  (lexical_cast_ushort lexical_cast_size : bytes → option Z)
  (from_string : bytes → error_code + bytes) (resolve : bytes → bytes → error_code).

(** The handler of exceptions. *)
Definition caught {A} (before what : bytes) : ending A := exited 0 (before ++ what ++ [newline]).

(** A server that takes a port. *)
Definition port_main (usage before : bytes) (convert : Z → Z) (args : list bytes) : outcome (ending Z) :=
  match args with
  | [arg] =>
      n ← atoi arg;
      let port := convert n in
      Ret (if failed (listen port) then caught before (what (listen port)) else serving port)
  | _ => Ret (exited 1 usage)
  end.

Definition async_tcp_echo_server : list bytes → outcome (ending Z) :=
  port_main (line "Usage: async_tcp_echo_server <port>") (lit "Exception: ") by_short.
Definition async_udp_echo_server : list bytes → outcome (ending Z) :=
  port_main (line "Usage: async_udp_echo_server <port>") (lit "Exception: ") by_short.
Definition blocking_tcp_echo_server : list bytes → outcome (ending Z) :=
  port_main (line "Usage: blocking_tcp_echo_server <port>") (lit "Exception: ") by_short.
Definition blocking_udp_echo_server : list bytes → outcome (ending Z) :=
  port_main (line "Usage: blocking_udp_echo_server <port>") (lit "Exception: ") by_short.
Definition ssl_server : list bytes → outcome (ending Z) :=
  port_main (line "Usage: server <port>") (lit "Exception: ") by_ushort.
Definition allocation_server : list bytes → outcome (ending Z) :=
  port_main (line "Usage: server <port>") (lit "Exception: ") by_short.
Definition third_party_lib : list bytes → outcome (ending Z) :=
  port_main (line "Usage: third_party_lib <port>") (lit "Exception: ") by_ushort.
Definition reference_counted : list bytes → outcome (ending Z) :=
  port_main (line "Usage: reference_counted <port>") (lit "Exception: ") by_short.
Definition process_per_connection : list bytes → outcome (ending Z) :=
  port_main (line "Usage: process_per_connection <port>") (lit "Exception: ") by_ushort.
Definition porthopper_server : list bytes → outcome (ending Z) :=
  port_main (line "Usage: server <port>") (lit "Exception: ") by_ushort.

(** The servers that take nothing but a port. *)
Definition port_programs : list (list bytes → outcome (ending Z)) :=
  [async_tcp_echo_server; async_udp_echo_server; blocking_tcp_echo_server; blocking_udp_echo_server; ssl_server;
   allocation_server; third_party_lib; reference_counted; process_per_connection; porthopper_server].

(** windows/transmit_file.cpp: a port and a file. *)
Definition transmit_file (args : list bytes) : outcome (ending (Z * bytes)) :=
  match args with
  | [arg; filename] =>
      n ← atoi arg;
      let port := by_ushort n in
      Ret (if failed (listen port) then caught [] (what (listen port)) else serving (port, filename))
  | _ => Ret (exited 1 (line "Usage: transmit_file <port> <filename>"))
  end.

(** chat/chat_server.cpp: a server for each port, as long as none fails to open; the
    servers made before are destroyed by the exception. *)
Fixpoint open_servers (args : list bytes) (servers : list Z) : outcome (error_code + list Z) :=
  match args with
  | [] => Ret (inr servers)
  | arg :: args =>
      n ← atoi arg;
      let port := to_ushort n in
      if failed (listen port) then Ret (inl (listen port)) else open_servers args (servers ++ [port])
  end.
Definition chat_server (args : list bytes) : outcome (ending (list Z)) :=
  match args with
  | [] => Ret (exited 1 (line "Usage: chat_server <port> [<port> ...]"))
  | _ =>
      r ← open_servers args [];
      Ret (match r with inl e => caught (lit "Exception: ") (what e) | inr servers => serving servers end)
  end.

(** timeouts/server.cpp: the port to listen on, and the endpoint to broadcast to. *)
Definition timeouts_server (args : list bytes) : outcome (ending (Z * (bytes * Z))) :=
  match args with
  | [listen_port; bcast_address; bcast_port] =>
      n ← atoi listen_port;
      match from_string bcast_address with
      | inl e => Ret (caught (lit "Exception: ") (what e))
      | inr a =>
          b ← atoi bcast_port;
          let port := to_ushort n in
          Ret (if failed (listen port) then caught (lit "Exception: ") (what (listen port))
               else serving (port, (a, to_ushort b)))
      end
  | _ => Ret (exited 1 (line "Usage: server <listen_port> <bcast_address> <bcast_port>"))
  end.

(** serialization/server.cpp: the port by lexical_cast, which refuses what is not one. *)
Definition serialization_server (args : list bytes) : outcome (ending Z) :=
  match args with
  | [arg] =>
      Ret (match lexical_cast_ushort arg with
           | None => caught [] (exn_what bad_lexical_cast)
           | Some port => if failed (listen port) then caught [] (what (listen port)) else serving port
           end)
  | _ => Ret (exited 1 (line "Usage: server <port>"))
  end.

(** local/stream_server.cpp: the file is removed, then the path bound. The files that
    are left, with the outcome. *)
Definition stream_server (args : list bytes) (files : gset bytes) : ending bytes * gset bytes :=
  match args with
  | [path] =>
      let files := files ∖ {[path]} in
      if failed (bind_path path) then (caught (lit "Exception: ") (what (bind_path path)), files)
      else (serving path, files ∪ {[path]})
  | _ => (exited 1 (line "Usage: stream_server <file>" ++ line "*** WARNING: existing file is removed ***"), files)
  end.

(** The HTTP servers: address and port are texts for the resolver. *)
Definition http_usage (arguments sample : string) : bytes :=
  lit "Usage: http_server " ++ line arguments ++ line "  For IPv4, try:" ++ lit "    receiver 0.0.0.0 80 " ++ line sample
  ++ line "  For IPv6, try:" ++ lit "    receiver 0::0 80 " ++ line sample.

(** http/server/main.cpp and http/server4/main.cpp *)
Definition http_server (args : list bytes) : ending (bytes * bytes * bytes) :=
  match args with
  | [address; port; doc_root] =>
      if failed (resolve address port) then caught (lit "exception: ") (what (resolve address port))
      else serving (address, port, doc_root)
  | _ => exited 1 (http_usage "<address> <port> <doc_root>" ".")
  end.
Definition http_server4 (args : list bytes) : ending (bytes * bytes * bytes) := http_server args.

(** http/server2/main.cpp: a pool of no io_service is an exception. *)
Definition http_server2 (args : list bytes) : ending (bytes * bytes * bytes * Z) :=
  match args with
  | [address; port; threads; doc_root] =>
      match lexical_cast_size threads with
      | None => caught (lit "exception: ") (exn_what bad_lexical_cast)
      | Some num_threads =>
          if (num_threads =? 0)%Z then caught (lit "exception: ") (exn_what runtime_error)
          else if failed (resolve address port) then caught (lit "exception: ") (what (resolve address port))
          else serving (address, port, doc_root, num_threads)
      end
  | _ => exited 1 (http_usage "<address> <port> <threads> <doc_root>" "1 .")
  end.

(** http/server3/main.cpp: with no thread, [run] has none to wait for and returns. *)
Definition http_server3 (args : list bytes) : ending (bytes * bytes * bytes * Z) :=
  match args with
  | [address; port; threads; doc_root] =>
      match lexical_cast_size threads with
      | None => caught (lit "exception: ") (exn_what bad_lexical_cast)
      | Some num_threads =>
          if failed (resolve address port) then caught (lit "exception: ") (what (resolve address port))
          else if (num_threads =? 0)%Z then exited 0 []
          else serving (address, port, doc_root, num_threads)
      end
  | _ => exited 1 (http_usage "<address> <port> <threads> <doc_root>" "1 .")
  end.

End Mains.

(** ** Texts of ports *)

Lemma skip_blanks_digits d : HttpParser.digits d → HttpReply.skip_blanks d = d.
Proof.
  intros [Hne Hd]. destruct d as [|c d]; [done|]. cbn.
  by rewrite (proj1 (digit_shape c (Forall_inv Hd))).
Qed.

Lemma atoi_digits d :
  HttpParser.digits d → (HttpParser.dec_val d <= INT_MAX)%Z → (0 <= HttpParser.dec_val d)%Z →
  atoi d = Ret (HttpParser.dec_val d).
Proof.
  intros Hd Hmax Hmin. unfold atoi. rewrite skip_blanks_digits by done. destruct Hd as [Hne Hd].
  destruct d as [|c d]; [done|]. destruct (digit_shape c (Forall_inv Hd)) as (_ & H2 & H3).
  rewrite take_sign_none by done. pose proof (span_digits_app (c :: d) [] Hd I) as Hs. rewrite app_nil_r in Hs. rewrite Hs.
  cbn [fst]. apply int_res_ok. unfold INT_MIN. lia.
Qed.

Lemma atoi_text c s :
  HttpReply.is_space c = false → c ≠ "-"%char → c ≠ "+"%char → HttpParser.is_digit (char_val c) = false →
  atoi (c :: s) = Ret 0%Z.
Proof.
  intros H1 H2 H3 H4. unfold atoi. cbn [HttpReply.skip_blanks]. rewrite H1, take_sign_none by done.
  cbn [span_digits]. by rewrite H4.
Qed.

(** ** What the servers listen on *)

Section Ports.
Context `{ErrorText} (exn_what : exn → bytes) (listen : Z → error_code)
  (lexical_cast_ushort : bytes → option Z).

(** The decimal text of a port. *)
Definition port_text (d : bytes) : Prop := HttpParser.digits d ∧ (0 <= HttpParser.dec_val d < 65536)%Z.

Lemma atoi_port d : port_text d → atoi d = Ret (HttpParser.dec_val d).
Proof. intros [Hd Hr]. apply atoi_digits; [done|unfold INT_MAX; lia..]. Qed.

Lemma to_ushort_small z : (0 <= z < 65536)%Z → to_ushort z = z.
Proof. intros Hz. unfold to_ushort. apply Z.mod_small. lia. Qed.

Lemma open_servers_spec ds servers :
  Forall port_text ds →
  open_servers listen ds servers = Ret (inr (servers ++ (HttpParser.dec_val <$> ds))) ∨
  ∃ d, d ∈ ds ∧ failed (listen (HttpParser.dec_val d)) = true ∧
    open_servers listen ds servers = Ret (inl (listen (HttpParser.dec_val d))).
Proof.
  intros Hds. revert servers. induction Hds as [|d ds Hd _ IH]; intros servers; cbn.
  - left. by rewrite app_nil_r.
  - rewrite atoi_port by done. cbn [mbind outcome_bind]. rewrite to_ushort_small by apply Hd.
    destruct (failed (listen (HttpParser.dec_val d))) eqn:E.
    + right. exists d. split_and!; [left|done..].
    + destruct (IH (servers ++ [HttpParser.dec_val d])) as [->|(d' & Hin & Hf & ->)].
      * left. by rewrite <-app_assoc.
      * right. exists d'. split_and!; [by right|done..].
Qed.

(** The port of the command line. In each of the ten servers that take a port, for
    the decimal digits of a number from 0 to 65535 the server listens on that port: also
    where it passes through a [short], which the ports from 32768 on do not fit;
    with any other number of arguments than one nothing is opened and the usage
    printed with status 1; a text that does not start like a number is taken for port
    0, and the system chooses; and when the port cannot be opened the reason is
    printed and the status is 0. The chat server listens on all its ports or on none. *)
Theorem ports_kept main d c s args ds :
  main ∈ port_programs listen → port_text d →
  HttpReply.is_space c = false → c ≠ "-"%char → c ≠ "+"%char → HttpParser.is_digit (char_val c) = false →
  length args ≠ 1 →
  Forall port_text ds → ds ≠ [] →
  main [d] = Ret (if failed (listen (HttpParser.dec_val d))
                  then exited 0 (lit "Exception: " ++ what (listen (HttpParser.dec_val d)) ++ [newline])
                  else serving (HttpParser.dec_val d)) ∧
  main [c :: s] = Ret (if failed (listen 0%Z) then exited 0 (lit "Exception: " ++ what (listen 0%Z) ++ [newline])
                       else serving 0%Z) ∧
  (∃ usage, main args = Ret (exited 1 usage)) ∧
  (chat_server listen ds = Ret (serving (HttpParser.dec_val <$> ds)) ∨
   ∃ d, d ∈ ds ∧ failed (listen (HttpParser.dec_val d)) = true ∧
     chat_server listen ds = Ret (exited 0 (lit "Exception: " ++ what (listen (HttpParser.dec_val d)) ++ [newline]))).
Proof.
  intros Hmain Hd H1 H2 H3 H4 Hargs Hds Hne.
  assert (∃ usage convert, main = port_main listen usage (lit "Exception: ") convert ∧
            ∀ z, convert z = by_ushort z) as (usage & convert & -> & Hc).
  { unfold port_programs in Hmain. rewrite !elem_of_cons, elem_of_nil in Hmain.
    destruct Hmain as [->|[->|[->|[->|[->|[->|[->|[->|[->|[->|[]]]]]]]]]]];
      eexists _, _; (split; [reflexivity|]); (done || apply by_short_ushort). }
  split_and!.
  - unfold port_main. rewrite atoi_port by done. cbn [mbind outcome_bind].
    rewrite Hc. unfold by_ushort. by rewrite to_ushort_small by apply Hd.
  - unfold port_main. rewrite atoi_text by done. cbn [mbind outcome_bind]. by rewrite Hc.
  - exists usage. by destruct args as [|a [|b args]].
  - assert (chat_server listen ds = (r ← open_servers listen ds [];
      Ret (match r with inl e => caught (lit "Exception: ") (what e) | inr servers => serving servers end))) as ->
      by by destruct ds.
    destruct (open_servers_spec ds [] Hds) as [->|(d' & Hin & Hf & ->)]; [by left|]. right. eauto.
Qed.

End Ports.

End CommandLine.

Module CommandLineExamples.
Import CommandLine.

#[local] Instance texts : ErrorText := Build_ErrorText (λ _, lit "message") (λ _, lit "code") (λ _, lit "what").

(** A port that does not fit a [short]. *)
Example high_port : async_tcp_echo_server (λ _, success) [lit "54321"] = Ret (serving 54321%Z).
Proof. vm_compute. reflexivity. Qed.

(** A text that starts with a number is cut, and 65536 is 0 again. *)
Example cut_port :
  ssl_server (λ _, success) [lit " 80x"] = Ret (serving 80%Z) ∧
  ssl_server (λ _, success) [lit "65536"] = Ret (serving 0%Z).
Proof. vm_compute. done. Qed.

Lemma ports_kept_witness :
  allocation_server (λ _, success) [lit "40000"] = Ret (serving 40000%Z) ∧
  chat_server (λ _, success) [lit "1"; lit "2"] = Ret (serving [1; 2]%Z).
Proof.
  assert (∀ d, d ∈ [lit "40000"; lit "1"; lit "2"] → port_text d) as Hp.
  { intros d Hd. rewrite !elem_of_cons, elem_of_nil in Hd. destruct Hd as [->|[->|[->|[]]]];
      (split; [split; [done|by repeat constructor]|vm_compute; intuition congruence]). }
  destruct (ports_kept (λ _, success) (allocation_server (λ _, success)) (lit "40000") "x"%char [] []
              [lit "1"; lit "2"]) as (H1 & _ & _ & H2);
    [unfold port_programs; do 5 apply list_elem_of_further; apply list_elem_of_here|apply Hp; left|done..| |done|].
  { repeat constructor; apply Hp; set_solver. }
  split; [exact H1|]. destruct H2 as [H2|(d & _ & Hf & _)]; [exact H2|discriminate].
Defined.

End CommandLineExamples.
