(* ===== verification/Ssl.v ===== *)
(** * The SSL programs: contexts, certificates, command lines

    (src/doc_searcher/data/input/html/boost_asio/example/ssl/{server,client}.cpp.) Echo.v
    has the sessions of the server and the handlers of the client. Here are the rest of
    both: the context the server sets up before it accepts, the verification of the
    server's certificates by the client, and the functions main around them. OpenSSL is
    not part of the repository: what it makes of a file, and the certificates of a chain
    with its own verdict on each, are parameters. *)

From S2P Require Import Prelude CxxString HttpReply Asio Echo CommandLine.
Import Asio.

(** ** The context of the server *)
Module SslServer.
Import CommandLine.

(** What OpenSSL reads from a file ([None]: there is no such file): a chain of
    certificates, a private key given the password, parameters for Diffie-Hellman; or
    the error it reports. *)
Class OpenSsl := {
  chain_of : option bytes → error_code + bytes;
  key_of : option bytes → bytes → error_code + bytes;
  dh_of : option bytes → error_code + bytes;
  default_workarounds : Z;
  no_sslv2 : Z;
  single_dh_use : Z;
}.

Record context := mkContext {
  options : Z;
  password_callback : option bytes;
  certificate_chain : option bytes;
  private_key : option bytes;
  tmp_dh : option bytes;
}.

Definition context_new : context := mkContext 0 None None None None.

Section Setup.
Context `{OpenSsl, ErrorText} (files : gmap bytes bytes).

(** [server::get_password] *)
Definition get_password : bytes := lit "test".

(** [context::set_options] adds to the options there are. *)
Definition set_options (c : context) (o : Z) : context :=
  mkContext (Z.lor (options c) o) (password_callback c) (certificate_chain c) (private_key c) (tmp_dh c).
Definition set_password_callback (c : context) (password : bytes) : context :=
  mkContext (options c) (Some password) (certificate_chain c) (private_key c) (tmp_dh c).

(** The functions that load a file throw the error they get. *)
Definition use_certificate_chain_file (c : context) (file : bytes) : error_code + context :=
  match chain_of (files !! file) with
  | inl e => inl e
  | inr x => inr (mkContext (options c) (password_callback c) (Some x) (private_key c) (tmp_dh c))
  end.
Definition use_private_key_file (c : context) (file : bytes) : error_code + context :=
  match key_of (files !! file) (default [] (password_callback c)) with
  | inl e => inl e
  | inr x => inr (mkContext (options c) (password_callback c) (certificate_chain c) (Some x) (tmp_dh c))
  end.
Definition use_tmp_dh_file (c : context) (file : bytes) : error_code + context :=
  match dh_of (files !! file) with
  | inl e => inl e
  | inr x => inr (mkContext (options c) (password_callback c) (certificate_chain c) (private_key c) (Some x))
  end.

Definition and_then {A B} (x : error_code + A) (f : A → error_code + B) : error_code + B :=
  match x with inl e => inl e | inr a => f a end.

(** The body of the constructor of [server], up to [start_accept]. *)
Definition setup_context : error_code + context :=
  let c := set_options context_new (Z.lor (Z.lor default_workarounds no_sslv2) single_dh_use) in
  let c := set_password_callback c get_password in
  and_then (use_certificate_chain_file c (lit "server.pem")) (λ c,
  and_then (use_private_key_file c (lit "server.pem")) (λ c,
  use_tmp_dh_file c (lit "dh512.pem"))).

(** The constructor: the acceptor is a member and opened first. *)
Definition server_new (listen : Z → error_code) (port : Z) : error_code + (Z * context) :=
  if failed (listen port) then inl (listen port) else and_then setup_context (λ c, inr (port, c)).

Definition server_main (listen : Z → error_code) (args : list bytes) : outcome (ending (Z * context)) :=
  match args with
  | [arg] =>
      n ← atoi arg;
      Ret (match server_new listen (by_ushort n) with
           | inl e => caught (lit "Exception: ") (what e)
           | inr s => serving s
           end)
  | _ => Ret (exited 1 (line "Usage: server <port>"))
  end.

(** The error of the constructor, if any. *)
Definition opening (listen : Z → error_code) (port : Z) : error_code :=
  match server_new listen port with inl e => e | inr _ => success end.

(** The context is complete or there is none: the first of the acceptor, the chain, the
    key and the parameters that fails is the error; otherwise all three are loaded, the
    key with the password of the callback, and the options are set. *)
Lemma server_new_spec listen port :
  match server_new listen port with
  | inl e =>
      failed (listen port) = true ∧ e = listen port ∨
      failed (listen port) = false ∧
      (chain_of (files !! lit "server.pem") = inl e ∨
       (∃ x, chain_of (files !! lit "server.pem") = inr x) ∧
       (key_of (files !! lit "server.pem") get_password = inl e ∨
        (∃ x, key_of (files !! lit "server.pem") get_password = inr x) ∧ dh_of (files !! lit "dh512.pem") = inl e))
  | inr (p, c) =>
      failed (listen port) = false ∧ p = port ∧
      chain_of (files !! lit "server.pem") = from_option inr (inl success) (certificate_chain c) ∧
      key_of (files !! lit "server.pem") get_password = from_option inr (inl success) (private_key c) ∧
      dh_of (files !! lit "dh512.pem") = from_option inr (inl success) (tmp_dh c) ∧
      certificate_chain c ≠ None ∧ private_key c ≠ None ∧ tmp_dh c ≠ None ∧
      options c = Z.lor (Z.lor default_workarounds no_sslv2) single_dh_use
  end.
Proof.
  unfold server_new. destruct (failed (listen port)) eqn:El; [by left|]. unfold setup_context, use_certificate_chain_file.
  destruct (chain_of (files !! lit "server.pem")) as [e|x] eqn:Ec; cbn [and_then]; [right; split; [done|by left]|].
  unfold use_private_key_file. cbn [password_callback set_password_callback].
  change (default [] (Some get_password)) with get_password.
  destruct (key_of (files !! lit "server.pem") get_password) as [e|y] eqn:Ek; cbn [and_then];
    [right; split; [done|]; right; split; [eauto|by left]|].
  unfold use_tmp_dh_file. destruct (dh_of (files !! lit "dh512.pem")) as [e|z] eqn:Ed; cbn [and_then];
    [right; split; [done|]; right; split; [eauto|]; right; eauto|].
  by split_and!.
Qed.

(** To the command line, the constructor is a server that opens a port. *)
Lemma main_opens listen args :
  (∀ p e, server_new listen p = inl e → failed e = true) →
  server_main listen args =
    (r ← ssl_server (opening listen) args;
     Ret (match r with
          | serving p => match server_new listen p with inr s => serving s | inl e => caught [] (what e) end
          | exited st t => exited st t
          end)).
Proof.
  intros Hf. unfold server_main, ssl_server, port_main. destruct args as [|arg [|b args]]; [done| |done].
  destruct (atoi arg) as [n| |]; [|done..]. cbn [mbind outcome_bind]. unfold opening.
  destruct (server_new listen (by_ushort n)) as [e|s] eqn:E.
  - by rewrite (Hf _ _ E).
  - change (failed success) with false. cbn. by rewrite E.
Qed.

End Setup.

End SslServer.

(** ** The client *)
Module SslClient.
Import EchoClient.

Section Client.
Context `{ErrorText}.
(** The error of a handshake in which a certificate was refused. *)
Context (certificate_verify_failed : error_code) (Hrefused : failed certificate_verify_failed = true).

(** [char subject_name\[256\]] *)
Definition subject_size : nat := 256.

Definition verifying (subject : bytes) : bytes :=
  lit "Verifying " ++ HttpReply.c_str (take (subject_size - 1) subject) ++ [newline].

(** [client::verify_certificate]: the name is cut to the size of the array; without a
    current certificate the null pointer is used. *)
Definition verify_certificate (preverified : bool) (current : option bytes) (cout : bytes) : outcome (bool * bytes) :=
  match current with
  | None => Undef NullDeref
  | Some subject => Ret (preverified, cout ++ verifying subject)
  end.

(** The certificates of the chain, from the root: OpenSSL's verdict and the subject.
    The verification stops where the callback refuses. *)
Fixpoint verify_chain (calls : list (bool * option bytes)) (cout : bytes) : outcome (bool * bytes) :=
  match calls with
  | [] => Ret (true, cout)
  | (preverified, current) :: calls =>
      r ← verify_certificate preverified current cout;
      let '(good, cout) := r : bool * bytes in
      if good then verify_chain calls cout else Ret (false, cout)
  end.

(** What the network does, and the certificates of the server. *)
Record network := mkNet {
  resolve_ec : error_code;
  load_ec : error_code;                    (* of load_verify_file("ca.pem") *)
  connect_ec : error_code;
  chain : list (bool * option bytes);
  shake_ec : error_code;                   (* of the handshake but for the certificates *)
  write_ec : error_code;
  written : nat;                           (* bytes that went out before a write failed *)
  arrives : inbound;
}.

Definition say (c : ssl_client) (out : bytes) : ssl_client := mkSsl (ssl_pending c) (request_ c) out.

(** [async_handshake] with [verify_peer]: the certificates are verified. *)
Definition handshake (c : ssl_client) (n : network) (cin : bytes) : outcome ssl_client :=
  r ← verify_chain (chain n) (ssl_out c);
  let '(good, out) := r : bool * bytes in
  Ret (ssl_handle_handshake (say c out) (if good then shake_ec n else certificate_verify_failed) cin).

(** The chain of handlers, and what was written to the server. *)
Definition run (n : network) (cin : bytes) : outcome (ssl_client * bytes) :=
  let c := ssl_handle_connect (mkSsl connecting [] []) (connect_ec n) in
  match ssl_pending c with
  | shaking =>
      c ← handshake c n cin;
      match ssl_pending c with
      | sending =>
          let sent := if failed (write_ec n) then take (written n) (request_ c) else request_ c in
          let c := ssl_handle_write c (write_ec n) in
          match ssl_pending c with
          | receiving =>
              Ret (ssl_handle_read c (read_exactly (length (request_ c)) (pieces (arrives n)) (closing (arrives n))), sent)
          | _ => Ret (c, sent)
          end
      | _ => Ret (c, [])
      end
  | _ => Ret (c, [])
  end.

(** How the program ends. *)
Record ending := mkEnd { sent : bytes; cout : bytes; cerr : bytes; status : Z }.

Definition exception (e : error_code) : ending := mkEnd [] [] (lit "Exception: " ++ what e ++ [newline]) 0.

Definition client_main (args : list bytes) (n : network) (cin : bytes) : outcome ending :=
  match args with
  | [_; _] =>
      if failed (resolve_ec n) then Ret (exception (resolve_ec n))
      else if failed (load_ec n) then Ret (exception (load_ec n))
      else '(c, sent) ← run n cin; Ret (mkEnd sent (ssl_out c) [] 0)
  | _ => Ret (mkEnd [] [] (lit "Usage: client <host> <port>" ++ [newline]) 1)
  end.

(** ** What is verified *)

(** The subjects up to the first certificate that is refused. *)
Fixpoint shown (calls : list (bool * bytes)) : bytes :=
  match calls with
  | [] => []
  | (good, subject) :: calls => verifying subject ++ (if good then shown calls else [])
  end.

Definition current (calls : list (bool * bytes)) : list (bool * option bytes) :=
  (λ x, (x.1, Some x.2)) <$> calls.

Lemma verify_chain_spec calls out :
  verify_chain (current calls) out = Ret (forallb fst calls, out ++ shown calls).
Proof.
  revert out. induction calls as [|[good subject] calls IH]; intros out; cbn; [by rewrite app_nil_r|].
  destruct good; cbn; [|by rewrite app_nil_r]. rewrite IH. by rewrite <-app_assoc.
Qed.

Lemma handshake_sends c n cin c' :
  handshake c n cin = Ret c' → ssl_pending c' = sending →
  Forall (λ x, x.1 = true) (chain n) ∧ failed (shake_ec n) = false ∧ request_ c' = typed_request cin.
Proof using Hrefused.
  unfold handshake. intros ([good out] & Hv & [= <-])%bind_Ret_inv. unfold ssl_handle_handshake.
  destruct good; [|by rewrite Hrefused]. destruct (failed (shake_ec n)); [done|]. intros _. split_and!; [|done..].
  revert Hv. generalize (ssl_out c). induction (chain n) as [|[p o] l IH]; intros out0; cbn; [constructor|].
  destruct o as [x|]; [|done]. cbn. destruct p; [|done]. intros Hv. constructor; [done|]. by eapply IH.
Qed.

(** C39: the client and the certificates of its peer. It sends something only if it had the
    authorities of ca.pem, the handshake succeeded and every certificate of the chain
    was found good; and then it is the line that was typed, all of it unless the write
    failed on the way. If a certificate is
    refused, the names up to that one are shown, each cut to 255 characters, then the
    reason, and the user is not even asked for the line. If all are good and the line comes
    back in whatever pieces, it is shown. Without the two arguments the usage is
    printed and the status is 1, in all other cases it is 0. *)
Theorem peer_verified args n cin :
  (∀ e, client_main args n cin = Ret e → sent e ≠ [] →
     length args = 2 ∧ failed (resolve_ec n) = false ∧ failed (load_ec n) = false ∧ failed (connect_ec n) = false ∧
     Forall (λ x, x.1 = true) (chain n) ∧ failed (shake_ec n) = false ∧
     sent e `prefix_of` typed_request cin ∧ (failed (write_ec n) = false → sent e = typed_request cin)) ∧
  (∀ e, client_main args n cin = Ret e → (status e = 1%Z ↔ length args ≠ 2) ∧ (status e = 0%Z ↔ length args = 2)) ∧
  (∀ calls, length args = 2 → failed (resolve_ec n) = false → failed (load_ec n) = false →
     failed (connect_ec n) = false → chain n = current calls →
     (forallb fst calls = false →
        client_main args n cin = Ret (mkEnd []
          (shown calls ++ lit "Handshake failed: " ++ message certificate_verify_failed ++ [newline]) [] 0)) ∧
     (forallb fst calls = true → failed (shake_ec n) = false → failed (write_ec n) = false →
      mjoin (pieces (arrives n)) = typed_request cin →
        client_main args n cin = Ret (mkEnd (typed_request cin)
          (shown calls ++ prompt ++ lit "Reply: " ++ typed_request cin ++ [newline]) [] 0))).
Proof using Hrefused.
  unfold client_main. split_and!.
  - intros e He Hs. destruct args as [|a [|b [|]]]; try (injection He as <-; done).
    destruct (failed (resolve_ec n)); [injection He as <-; done|].
    destruct (failed (load_ec n)); [injection He as <-; done|].
    apply bind_Ret_inv in He as ([c snt] & Hr & [= <-]). cbn [sent] in *. unfold run, ssl_handle_connect in Hr.
    destruct (failed (connect_ec n)); cbn [ssl_pending ssl_fail] in Hr; [injection Hr as <- <-; done|].
    apply bind_Ret_inv in Hr as (c' & Hh & Hr). destruct (ssl_pending c') eqn:Ep; try (injection Hr as <- <-; done).
    destruct (handshake_sends _ _ _ _ Hh Ep) as (H1 & H2 & H3).
    assert (snt = if failed (write_ec n) then take (written n) (request_ c') else request_ c') as ->.
    { unfold ssl_handle_write in Hr. by destruct (failed (write_ec n)); cbn [ssl_pending ssl_fail] in Hr; injection Hr as _ <-. }
    rewrite H3. destruct (failed (write_ec n)); split_and!; try done. apply prefix_take.
  - intros e He. destruct args as [|a [|b [|]]]; try (injection He as <-; cbn; split; split; done).
    assert (status e = 0%Z) as ->; [|cbn; split; split; done].
    destruct (failed (resolve_ec n)); [injection He as <-; done|].
    destruct (failed (load_ec n)); [injection He as <-; done|]. by apply bind_Ret_inv in He as ([c snt] & _ & [= <-]).
  - intros calls Hl Hr Hld Hc Hch. destruct args as [|a [|b [|]]]; try done. rewrite Hr, Hld.
    unfold run, ssl_handle_connect. rewrite Hc. cbn [ssl_pending]. unfold handshake. rewrite Hch, verify_chain_spec.
    cbn [mbind outcome_bind ssl_out app]. split.
    + intros ->. unfold ssl_handle_handshake. by rewrite Hrefused.
    + intros -> Hs Hw Ha. unfold ssl_handle_handshake. rewrite Hs. cbn [ssl_pending say request_ ssl_out].
      unfold ssl_handle_write. rewrite Hw. cbn [ssl_pending request_].
      rewrite (read_exactly_all _ _ _ (f_equal length Ha)), Ha. cbn. by rewrite <-app_assoc.
Qed.

End Client.

End SslClient.

Module SslExamples.
Import SslClient EchoClient.

#[local] Instance texts : ErrorText := Build_ErrorText (λ _, lit "message") (λ _, lit "code") (λ _, lit "what").

Definition bad : error_code := other_error 336134278.

Definition peer (good : bool) : network :=
  mkNet success success success [(true, Some (lit "/CN=root")); (good, Some (lit "/CN=host"))] success success 0
    (mkIn [lit "h"; lit "i"] eof).

Lemma peer_verified_witness :
  client_main bad [lit "localhost"; lit "443"] (peer false) (lit "hi" ++ [newline]) =
    Ret (mkEnd [] (lit "Verifying /CN=root" ++ [newline] ++ lit "Verifying /CN=host" ++ [newline]
                   ++ lit "Handshake failed: message" ++ [newline]) [] 0) ∧
  client_main bad [lit "localhost"; lit "443"] (peer true) (lit "hi" ++ [newline]) =
    Ret (mkEnd (lit "hi") (lit "Verifying /CN=root" ++ [newline] ++ lit "Verifying /CN=host" ++ [newline]
                   ++ prompt ++ lit "Reply: hi" ++ [newline]) [] 0).
Proof.
  split.
  - exact (proj1 (proj2 (proj2 (peer_verified bad eq_refl [lit "localhost"; lit "443"] (peer false) (lit "hi" ++ [newline])))
      [(true, lit "/CN=root"); (false, lit "/CN=host")] eq_refl eq_refl eq_refl eq_refl eq_refl) eq_refl).
  - exact (proj2 (proj2 (proj2 (peer_verified bad eq_refl [lit "localhost"; lit "443"] (peer true) (lit "hi" ++ [newline])))
      [(true, lit "/CN=root"); (true, lit "/CN=host")] eq_refl eq_refl eq_refl eq_refl eq_refl) eq_refl eq_refl eq_refl eq_refl).
Defined.

(** A refusal that concerns no certificate of the chain. *)
Example no_current_certificate :
  client_main bad [lit "localhost"; lit "443"] (mkNet success success success [(false, None)] success success 0 (mkIn [] eof)) [] =
    Undef NullDeref.
Proof. reflexivity. Qed.

End SslExamples.
