(* ===== verification/ClientPrograms.v ===== *)
(** * The client programs

    The functions main of the clients in
    src/doc_searcher/data/input/html/boost_asio/example: the number of arguments, what is
    set up before the client's own work, the handler of exceptions and the exit status.
    The work itself is in the file of each client. *)

From S2P Require Import Prelude CxxString Asio HttpClient TcpClient BlockingClient Echo Framing HopClient Stocks.
From S2P Require Import Services Multicast HttpConnection Chat ChatClient Icmp Pinger CommandLine.
Import Asio.

Module ClientPrograms.
Import CommandLine (ending(..), line, caught, atoi, to_ushort).

(** ** Programs that run to an end *)

(** What was sent and printed, and the exit status. *)
Record result := mkResult { sent : bytes; out : bytes; err : bytes; status : Z }.

Definition refused (usage : bytes) : result := mkResult [] [] usage 1.

Section Finite.
Context `{ErrorText}.

(** The handler of exceptions. *)
Definition reported (sent out : bytes) (e : error_code) : result :=
  mkResult sent out (lit "Exception: " ++ what e ++ [newline]) 0.

Definition finish (r : bytes * bytes * option error_code) : result :=
  match r with
  | (sent, out, Some e) => reported sent out e
  | (sent, out, None) => mkResult sent out [] 0
  end.

(** echo/blocking_tcp_echo_client.cpp and echo/blocking_udp_echo_client.cpp *)
Definition blocking_tcp_echo_client (args : list bytes) (connect_ec write_ec : error_code) (cin : bytes) (i : inbound) :
    result :=
  match args with
  | [_; _] => finish (EchoClient.tcp_client connect_ec write_ec cin i)
  | _ => refused (line "Usage: blocking_tcp_echo_client <host> <port>")
  end.
Definition blocking_udp_echo_client (args : list bytes) (resolve_ec send_ec : error_code) (cin : bytes)
    (d : EchoUdp.delivery) : result :=
  match args with
  | [_; _] => finish (EchoUdp.udp_client resolve_ec send_ec cin d)
  | _ => refused (line "Usage: blocking_udp_echo_client <host> <port>")
  end.

(** local/stream_client.cpp *)
Definition stream_client (args : list bytes) (connect_ec write_ec : error_code) (cin : bytes) (i : inbound) : result :=
  match args with
  | [_] => finish (EchoClient.stream_client connect_ec write_ec cin i)
  | _ => refused (line "Usage: stream_client <file>")
  end.

(** local/iostream_client.cpp: a stream does not throw. *)
Definition iostream_client (args : list bytes) (connect_ec : error_code) (cin junk : bytes) (i : inbound) : result :=
  match args with
  | [_] =>
      if failed connect_ec then mkResult [] [] (lit "Unable to connect: " ++ message connect_ec ++ [newline]) 1
      else let '(sent, out) := EchoClient.iostream_client cin junk i in mkResult sent out [] 0
  | _ => refused (line "Usage: iostream_client <file>")
  end.

(** The HTTP clients print everything on the console. *)
Definition http_usage (name : string) : bytes :=
  lit "Usage: " ++ lit name ++ line " <server> <path>" ++ line "Example:" ++
  lit "  " ++ lit name ++ line " www.boost.org /LICENSE_1_0.txt".
Definition http_program (name : string) (run : bytes → bytes → HttpClient.peer * (ostream * Z)) (args : list bytes) :
    result :=
  match args with
  | [server; path] => let '(p, (o, status)) := run server path in mkResult (HttpClient.received p) (written o) [] status
  | _ => mkResult [] (http_usage name) [] 1
  end.

(** http/client/async_client.cpp, http/client/sync_client.cpp, iostreams/http_client.cpp *)
Definition async_client (p : HttpClient.peer) : list bytes → result :=
  http_program "async_client" (λ server path, let '(p, c) := HttpClient.async_main p server path in (p, (HttpClient.cout c, 0%Z))).
Definition sync_client (p : HttpClient.peer) : list bytes → result :=
  http_program "sync_client" (HttpClient.sync_main p).
Definition http_client (p : HttpClient.peer) : list bytes → result :=
  http_program "http_client" (HttpClient.stream_main p).

(** [os << n] for a signed number. *)
Definition show_signed (z : Z) : bytes := if (z <? 0)%Z then "-"%char :: show_unsigned (- z) else show_unsigned z.

(** timeouts/blocking_tcp_client.cpp; [clock] is the time in microseconds. [None]: it
    is still waiting when the events end. *)
Definition blocking_tcp (clock : Z → Z) (t : Z) (resolved : error_code) (args : list bytes)
    (es : list BlockingClient.event) : option result :=
  match args with
  | [_; _; msg] =>
      match BlockingClient.connect (BlockingClient.tcp_client t) resolved 10 es with
      | BlockingClient.Blocked _ => None
      | BlockingClient.Throws e c _ => Some (reported (BlockingClient.sent c) [] e)
      | BlockingClient.Returns _ c es =>
          let time_sent := clock (BlockingClient.now c) in
          match BlockingClient.write_line c msg 10 es with
          | BlockingClient.Blocked _ => None
          | BlockingClient.Throws e c _ => Some (reported (BlockingClient.sent c) [] e)
          | BlockingClient.Returns _ c es =>
              match BlockingClient.await_line (S (length es)) c msg es with
              | BlockingClient.Blocked _ => None
              | BlockingClient.Throws e c _ => Some (reported (BlockingClient.sent c) [] e)
              | BlockingClient.Returns _ c _ =>
                  let time_received := clock (BlockingClient.now c) in
                  Some (mkResult (BlockingClient.sent c)
                    (lit "Round trip time: " ++ show_signed (time_received - time_sent) ++ line " microseconds") [] 0)
              end
          end
      end
  | _ => Some (refused (line "Usage: blocking_tcp <host> <port> <message>"))
  end.

(** timeouts/blocking_udp_client.cpp: what it has printed when the events end. *)
Definition show_received (r : error_code * bytes) : bytes :=
  if failed r.1 then lit "Receive error: " ++ message r.1 ++ [newline]
  else lit "Received: " ++ r.2 ++ [newline].
Definition blocking_udp (from_string : bytes → error_code + bytes) (bind_ec : bytes → Z → error_code) (t : Z)
    (args : list bytes) (es : list BlockingClient.event) : outcome result :=
  match args with
  | [addr; port] =>
      match from_string addr with
      | inl e => Ret (reported [] [] e)
      | inr a =>
          n ← atoi port;
          let e := bind_ec a (to_ushort n) in
          Ret (if failed e then reported [] [] e
               else mkResult [] (mjoin (show_received <$>
                      (BlockingClient.udp_main (S (length es)) (BlockingClient.udp_client t) es).1)) [] 0)
      end
  | _ => Ret (refused (line "Usage: blocking_udp_timeout <listen_addr> <listen_port>"))
  end.

(** serialization/client.cpp: the exception without a prefix. *)
Definition serialization_client {double} `{Stocks.Primitives double} (show_double : double → bytes)
    (show_int : Z → bytes) (error_message : Serialization.error → bytes) (resolved : error_code) (args : list bytes)
    (connect_ec : HttpConnection.error_code) (input : bytes) : outcome result :=
  match args with
  | [_; _] =>
      if failed resolved then Ret (mkResult [] [] (what resolved ++ [newline]) 0)
      else '(out, err) ← Stocks.handle_connect show_double show_int error_message connect_ec input;
           Ret (mkResult [] out err 0)
  | _ => Ret (refused (line "Usage: client <host> <port>"))
  end.

End Finite.

(** ** Programs that go on *)

Section Running.
Context `{ErrorText}.

(** A client that resolves a host and a port, and then starts. *)
Definition host_port {A} (usage before : bytes) (resolve : bytes → bytes → error_code) (start : A) (args : list bytes) :
    ending A :=
  match args with
  | [host; port] =>
      if failed (resolve host port) then caught before (what (resolve host port)) else serving start
  | _ => exited 1 usage
  end.

(** chat/chat_client.cpp and chat/posix_chat_client.cpp *)
Definition chat_client resolve (junk cin : bytes) : list bytes → ending ChatClient.chat_client :=
  host_port (line "Usage: chat_client <host> <port>") (lit "Exception: ") resolve (ChatClient.client_new junk cin).
Definition posix_chat_client resolve (junk : bytes) : list bytes → ending PosixChatClient.posix_chat_client :=
  host_port (line "Usage: posix_chat_client <host> <port>") (lit "Exception: ") resolve
    (PosixChatClient.posix_client_new junk).

(** timeouts/async_tcp_client.cpp: [start] with the endpoints of the host. *)
Definition async_tcp_client resolve (endpoints : list TcpClient.endpoint) (t : Z) : list bytes → ending TcpClient.client :=
  host_port (line "Usage: client <host> <port>") (lit "Exception: ") resolve
    (TcpClient.start (TcpClient.client_new t) endpoints).

(** The first error of operations done one after the other. *)
Fixpoint first_error (l : list error_code) : error_code :=
  match l with
  | [] => success
  | e :: l => if failed e then e else first_error l
  end.
Definition after_all {A} (before : bytes) (l : list error_code) (a : A) : ending A :=
  let e := first_error l in if failed e then caught before (what e) else serving a.

(** porthopper/client.cpp: the host is resolved, the control connection made, the data
    socket opened, its port asked for; the first request is written. *)
Definition porthopper_client (resolve connect open local write : error_code) (junk : bytes) (port : Z) (args : list bytes) :
    ending Porthopper.control_request :=
  match args with
  | [_; _] => after_all (lit "Exception: ") [resolve; connect; open; local; write] (Porthopper.control_start junk port)
  | _ => exited 1 (line "Usage: client <host> <port>")
  end.

(** services/daytime_client.cpp: the logger has its file by the time the host is resolved. *)
Definition daytime_client (resolve : bytes → bytes → error_code) (disk : gmap bytes bytes) (args : list bytes) :
    ending Logger.logger_service :=
  match args with
  | [host] => after_all [] [resolve host (lit "daytime")] (Daytime.main_logs disk)
  | _ => exited 1 (line "Usage: daytime_client <host>")
  end.

(** icmp/ping.cpp: a raw socket, which may need the rights of root, and the host. *)
Definition ping (open : error_code) (resolve : bytes → error_code) (pid t : Z) (args : list bytes) : ending Pinger.program :=
  match args with
  | [host] => after_all (lit "Exception: ") [open; resolve host] (Pinger.pinger_new pid t)
  | _ => exited 1 (line "Usage: ping <host>" ++ line "(You may need to run this program as root.)")
  end.

(** multicast/sender.cpp *)
Definition sender (from_string : bytes → error_code + bytes) (open : error_code) (args : list bytes) :
    ending Multicast.sender :=
  match args with
  | [address] =>
      match from_string address with
      | inl e => caught (lit "Exception: ") (what e)
      | inr _ => after_all (lit "Exception: ") [open] Multicast.sender_new
      end
  | _ => exited 1 (line "Usage: sender <multicast_address>" ++ line "  For IPv4, try:" ++ line "    sender 239.255.0.1"
                   ++ line "  For IPv6, try:" ++ line "    sender ff31::8000:1234")
  end.

(** multicast/receiver.cpp, the constructor of [receiver] included: the socket is
    opened, made to share its address, bound to port 30001 and joined to the group. *)
Definition multicast_port : Z := 30001.
Record receiver_socket := mkSocket { bound_to : bytes * Z; group : bytes }.
Definition receiver_open (open reuse : error_code) (bind : bytes → Z → error_code) (join_group : bytes → error_code)
    (listen_address multicast_address : bytes) : ending (receiver_socket * Multicast.receiver) :=
  after_all (lit "Exception: ")
    [open; reuse; bind listen_address multicast_port; join_group multicast_address]
    (mkSocket (listen_address, multicast_port) multicast_address, Multicast.receiver_new).
Definition receiver (from_string : bytes → error_code + bytes) (open reuse : error_code)
    (bind : bytes → Z → error_code) (join_group : bytes → error_code) (args : list bytes) :
    ending (receiver_socket * Multicast.receiver) :=
  match args with
  | [listen_address; multicast_address] =>
      match from_string listen_address, from_string multicast_address with
      | inr a, inr m => receiver_open open reuse bind join_group a m
      | inl e, _ | _, inl e => caught (lit "Exception: ") (what e)
      end
  | _ => exited 1 (line "Usage: receiver <listen_address> <multicast_address>" ++ line "  For IPv4, try:"
                   ++ line "    receiver 0.0.0.0 239.255.0.1" ++ line "  For IPv6, try:"
                   ++ line "    receiver 0::0 ff31::8000:1234")
  end.

Lemma first_error_spec l :
  (failed (first_error l) = false ↔ Forall (λ e, failed e = false) l) ∧
  (failed (first_error l) = true → ∃ l1 l2, l = l1 ++ first_error l :: l2 ∧ Forall (λ e, failed e = false) l1).
Proof.
  induction l as [|e l [IH1 IH2]]; cbn; [split; [split; [intros _; constructor|done]|done]|].
  destruct (failed e) eqn:E.
  - split; [split; [congruence|]|intros _; by exists [], l]. rewrite Forall_cons. intros [? _]. congruence.
  - rewrite Forall_cons. split; [naive_solver|]. intros (l1 & l2 & Hl1 & Hl)%IH2. exists (e :: l1), l2.
    split; [cbn; by f_equal|]. by constructor.
Qed.

End Running.

(** ** What the status tells *)

Section Status.
Context `{ErrorText}.

Lemma finish_status r : status (finish r) = 0%Z.
Proof. by destruct r as [[snt o] [e|]]. Qed.

(** Clients that report exceptions return 1 for the wrong number of arguments only: after
    an exception they return 0, as after success. The client on a stream also returns
    1 when it cannot connect, the asynchronous HTTP client never tells. *)
Theorem client_status args connect_ec ec cin junk i d p :
  (status (blocking_tcp_echo_client args connect_ec ec cin i) = if (length args =? 2)%nat then 0 else 1)%Z ∧
  (status (blocking_udp_echo_client args connect_ec ec cin d) = if (length args =? 2)%nat then 0 else 1)%Z ∧
  (status (stream_client args connect_ec ec cin i) = if (length args =? 1)%nat then 0 else 1)%Z ∧
  (status (iostream_client args connect_ec cin junk i) =
     if (length args =? 1)%nat && negb (failed connect_ec) then 0 else 1)%Z ∧
  (status (async_client p args) = if (length args =? 2)%nat then 0 else 1)%Z.
Proof.
  split_and!.
  - destruct args as [|? [|? [|]]]; try done. apply finish_status.
  - destruct args as [|? [|? [|]]]; try done. apply finish_status.
  - destruct args as [|? [|]]; try done. apply finish_status.
  - destruct args as [|? [|]]; try done. cbn. by destruct (failed connect_ec).
  - destruct args as [|a [|b [|]]]; try done. unfold async_client, http_program. by destruct (HttpClient.async_main p a b).
Qed.

(** The blocking TCP client prints a time exactly when the line came back; then the
    message was sent with a newline, and the time is what the clock has moved since the
    connection was made. *)
Theorem round_trip_shown clock t host port msg es r :
  blocking_tcp clock t success [host; port; msg] es = Some r → err r = [] →
  ∃ c1 es1 c es', BlockingClient.connect (BlockingClient.tcp_client t) success 10 es = BlockingClient.Returns tt c1 es1 ∧
    BlockingClient.tcp_main t success msg es = BlockingClient.Returns tt c es' ∧
    r = mkResult (msg ++ [newline])
          (lit "Round trip time: " ++ show_signed (clock (BlockingClient.now c) - clock (BlockingClient.now c1))
           ++ lit " microseconds" ++ [newline]) [] 0.
Proof.
  unfold blocking_tcp. intros Hr He. destruct (BlockingClient.tcp_round_trip t msg es) as [Hs _].
  unfold BlockingClient.tcp_main in *.
  destruct (BlockingClient.connect _ _ _ _) as [|[] c1 es1|]; [done| |injection Hr as <-; discriminate He].
  destruct (BlockingClient.write_line _ _ _ _) as [|[] c2 es2|]; [done| |injection Hr as <-; discriminate He].
  destruct (BlockingClient.await_line _ _ _ _) as [|[] c3 es3|]; [done| |injection Hr as <-; discriminate He].
  injection Hr as <-. destruct (Hs c3 es3 eq_refl) as [-> _]. by exists c1, es1, c3, es3.
Qed.

End Status.

End ClientPrograms.
